(* ===== verification/_CoqProject ===== *)
-Q . S2P
Prelude.v
Errors.v
Frame.v
Wordlist.v
Crypto.v
Pairing.v
Envelope.v
Handshake.v
CredentialStore.v
Peers.v
Protocol.v
Output.v
Utf8.v
Agents.v
Approvals.v
Timestamps.v
Listing.v
Transfer.v
PushRelay.v
PushProvider.v
PairConfirm.v
Admission.v
Workspace.v
Active.v
Sessions.v
Programs.v
Connection.v
Drivers.v
LocalFiles.v
PhoneTransfers.v
EndToEnd.v
Client.v
