(* ===== verification/Prelude.v ===== *)
(** * Portty: a verification development

    Portty lets a phone drive terminal and coding-agent sessions that run on a
    computer. The phone and the host pair once, through a ticket or a spoken
    phrase, and from then on reconnect with a rotating token; everything they
    exchange is sealed in envelopes over a QUIC connection. This library models
    the Rust code of the repository that carries that logic and proves what
    makes it correct. Each file models one component and opens with the source
    files it translates.

    ** Files

    - [Prelude]: bytes, byte order, machine-integer arithmetic ([u16], [u32],
      [u64] with their wrapping, saturating and checked additions), Rust's
      [Result], strings as lists of scalar values, mutexes, and the tactics.
    - [Errors]: the error enums ([crates/transport/src/error.rs]).
    - [Frame]: length-prefixed frames over a byte stream that may end or fail
      anywhere ([frame.rs]) and the two ends of the relay pipe's framing.
    - [Wordlist], [Pairing]: pairing secrets and their phrases, key
      derivation, the per-source back-off and the enrollment window
      ([crypto/pairing.rs], [crypto/wordlist.rs]).
    - [Crypto]: the interfaces of the third-party primitives, classes whose
      laws are the documented behaviour the code relies on (an X25519 that
      agrees, a MAC that accepts what it made, an AEAD that opens only what was
      sealed), with a toy instance that meets them.
    - [Envelope]: sealed, numbered envelopes ([crypto/envelope.rs], [wire.rs]).
    - [Handshake]: the client's and the host's handshake machines
      ([handshake.rs]).
    - [CredentialStore]: the storage trait as a class with a crash contract,
      and the file store that implements it ([credential_store.rs],
      [secure.rs]).
    - [Peers]: reconnect tokens, pair generations, revocations and grace tokens
      over any store that meets the contract ([peers.rs]).
    - [Protocol]: the messages of phone and host ([crates/protocol/src/lib.rs]).
    - [Output]: a terminal session's scrollback, attach and resume, from the
      host's ring to the phone's screen ([session.rs], [iroh_serve.rs],
      [app/src-tauri/src/lib.rs]).
    - [Utf8]: an agent's terminal output decoded as it arrives, the bounded
      buffer that keeps it, and the text clamps ([session.rs]).
    - [Agents]: the timeline of an agent session, numbered and committed by
      several tasks, pruned and handed to late viewers ([session.rs]).
    - [Approvals]: an agent's permission requests from arrival to reply, a step
      relation over requests, answers, cancellation, kill and deadline
      ([session.rs]).
    - [Timestamps]: RFC 3339 timestamps and the date arithmetic ([session.rs]).
    - [Listing]: the cache of conversations, what agents report, the index and
      memo of it, the picker's list and the record a tap resolves to
      ([session.rs]).
    - [Transfer]: uploads, downloads and the registry of upload temporaries
      ([file_transfer.rs]), over a file system of names and inodes.
    - [PushRelay]: the push relay's limiters, registration table and handlers,
      many requests at once ([push-relay/src/main.rs]).
    - [PushProvider]: the relay's credentials, where they may go and how long
      they are kept ([push-relay/src/provider_auth.rs], [main.rs]).
    - [PairConfirm]: the broker that asks the consoles of [portty pair] whether a
      phone may pair ([pair_confirm.rs], [relay_pipe.rs]).
    - [Admission]: the accept loop, from a dial through permits, confirmation,
      claim and commit to the acknowledgement ([iroh_serve.rs]).
    - [Workspace]: directories a phone may pick and files an agent may touch,
      over a file system with links ([workspace.rs], [session.rs]).
    - [Active]: which phones are connected, and the file that shows it
      ([active.rs]).
    - [Sessions]: the registry of terminals and agents, from admission to
      reaping ([session.rs]).
    - [Programs]: programs over calls, their runs and how to reason about them.
    - [Connection]: serving one phone: the loop of [handle_client], every frame
      and request it dispatches, and the tasks around it ([iroh_serve.rs]).
    - [Drivers]: the two handshake runners over a link that may fail
      ([transport/src/iroh.rs]).
    - [LocalFiles]: which files the phone's web view may name, how it names
      them, and the verified copy into a document ([local_files.rs]).
    - [PhoneTransfers]: the phone's downloads, uploads and probes, the slots
      they hold and whose they are ([app/src-tauri/src/lib.rs],
      [download_probe.rs]).
    - [Client]: the phone's links and their loops, the connection slot, commands
      and their answers, approvals, unpairing ([app/src-tauri/src/lib.rs]).
    - [EndToEnd]: the host's streams and the phone's registry over links that
      break.
    ** How the parts fit

    A connection's bytes are [Frame] frames; the first are [Handshake]
    messages. The host builds a [ServerHandshake] from a snapshot of the shared
    [PairingState] ([Pairing]) and the current and previous tokens of the
    [PeerStore] ([Peers]); all connections of a host share the rate limiters
    and the pairing state ([Handshake.Shared]). A completed handshake yields a
    session secret; [Peers.commit_host_handshake] makes its outcome durable,
    and both ends derive an [EnvelopeCipher] ([Envelope]) from the secret. The
    envelopes carry [Protocol] frames, of which [Output] follows the terminal
    ones end to end.

    ** State, effects and time

    A method that takes [&mut self] is a function to the new state; one that
    can fail returns [result]; randomness, the clock and the outcome of every
    system call are arguments, so a theorem quantifies over all of them.
    Concurrency is a sequence of atomic steps: an operation that takes a lock
    once is one step, one that touches shared state twice is two
    ([Envelope.open_begin]/[open_commit], [Output.push_reserve]/[push_publish]).
    A crash of the machine is a set of values each stored record may have
    ([cs_after_crash]).

    ** What is shown

    - Authentication ([Handshake]): which proofs complete a handshake, that an
      unknown device passes the enrollment gate first, that client and host
      agree on the session, that a connection is used once.
    - Enrollment ([Pairing]): one claim per opportunity in any interleaving, a
      cap on attempts, retired credentials stay retired; the back-off bounds
      the attempts of a source.
    - The channel ([Envelope]): what is opened is a prefix of what was sealed,
      whatever happens on the wire, with any number of threads.
    - Credentials ([Peers], [CredentialStore]): revocation wins every race and
      survives crashes, re-pairing never revives an old token, a rotation is a
      compare-and-swap and keeps exactly one previous token.
    - Output: no byte of a terminal is lost or repeated across attach and
      resume; and two ways in which the code falls short of it.
    - Round trips: frames, phrases, relay messages.
    - Agent sessions ([Agents], [Approvals]): late viewers get the retained
      suffix and the last of every sticky event; an agent is told only what a
      viewer chose, exactly once, and can always be answered; what viewers are
      told agrees with the reply until the deadline; three ways in which
      answers go astray.
    - Text and time ([Utf8], [Timestamps]): streaming decoding equals decoding
      the whole; timestamps denote the instant a calendar gives.
    - Pickers ([Listing]): what is listed is the join of cache and reports,
      confined to the directory asked for, and resumes with its own agent
      unless ids collide across agents.
    - Files ([Transfer]): a file changes only by a verified upload, a download
      is a resumable run of numbered chunks, a restart removes what a crash
      left; and the one target name that defeats this.
    - The push relay ([PushRelay], [PushProvider]): who can have a push sent and
      to whom, the budget of a token, the caps, room for new hosts, the hosts
      credentials go to and the age of tokens; and what the budget and the
      caps leave out.
    - Admission ([PairConfirm], [Admission]): permits never leak, a flood of
      strangers leaves room for paired phones, a phone is told it is paired last
      and only with a human's yes to it, one enrollment each.
    - The host's registries ([Workspace], [Active], [Sessions]): no path leads a
      phone or an agent out of its directory, one live connection per device
      and none of a revoked one, one driver per conversation, limits kept and
      ends told once; a reaper that stalls the registry, a kill that misses an
      agent, a notice out of order.
    - One connection ([Connection], [Drivers]): honest ends agree and a phone
      trusts only the host's last word; the host acts on a prefix of what the
      phone sent, on nothing once it is revoked, sends only what a host may
      send and answers each request once; and what a queue that an attach
      overtakes does to the screen.
    - Transfers on the phone ([LocalFiles], [PhoneTransfers], [EndToEnd]): only
      verified content is installed, every transfer stays with its host, slots
      and space are bounded, interrupted downloads and whole uploads arrive
      exactly; a break before the last frame that loses a download, an upload
      that never gives its slot back, a cut that fails unnoticed.
    - The phone's link ([Client]): commands are answered once, by the link they
      were made on, and at its end at once; approvals reach only the link that
      asked; a replaced link is silent; a command made too late and a
      revocation that outruns its check.
    ** Bounds

    Counters are Rust's [u64]s with their wrap-around written out; theorems
    that need them not to wrap say so (fewer than 2^64 operations). Fuel occurs
    in [FrameCodec.read_frames] (one unit per frame), [Stream.slice_chunks]
    (one per byte), [Screen.forward_all] (one per chunk), [Transfer.stream] and
    [LocalFiles.copy_loop] (one per read), and the theorems about them show it
    to be enough.

    ** Not modelled

    The QUIC endpoint and its key files ([iroh.rs], [identity.rs]), Windows
    ACLs and permission bits of files, postcard's wire format (the class
    [Codec]), the terminal emulator and the user interface, process control.
    [PeerStore.known_hosts] is not modelled. Timeouts are failures of the step
    they bound. *)

From stdpp Require Export base list gmap strings option numbers pretty.
From Stdlib Require Export Strings.Byte ZArith Lia.

#[global] Open Scope Z_scope.
#[global] Set Default Goal Selector "!".

(** ** Bytes *)

(** A Rust [u8] is a [byte]; [Vec<u8>], [&[u8]] and the fixed arrays
    [[u8; N]] are byte lists (the length of an array is stated where it
    matters). *)
Abbreviation bytes := (list Byte.byte).

#[global] Instance byte_eq_dec : EqDecision Byte.byte := Byte.byte_eq_dec.

(** The numeric value of a byte. *)
Definition byte_val (b : Byte.byte) : Z := Z.of_N (Byte.to_N b).

(** Truncation of an integer to a byte, Rust's [as u8]. *)
Definition byte_of (z : Z) : Byte.byte :=
  match Byte.of_N (Z.to_N (z mod 256)) with
  | Some b => b
  | None => Byte.x00
  end.

Lemma byte_val_range b : 0 <= byte_val b < 256.
Proof.
  unfold byte_val. pose proof (Byte.to_N_bounded b). lia.
Qed.

Lemma byte_of_val b : byte_of (byte_val b) = b.
Proof.
  unfold byte_of. pose proof (byte_val_range b) as Hr.
  rewrite Z.mod_small by done. unfold byte_val.
  rewrite N2Z.id, Byte.of_to_N. done.
Qed.

Lemma byte_val_of z : byte_val (byte_of z) = z mod 256.
Proof.
  unfold byte_of. pose proof (Z.mod_pos_bound z 256 ltac:(lia)) as Hr.
  destruct (Byte.of_N _) as [b|] eqn:E.
  - apply Byte.to_of_N in E. unfold byte_val. rewrite E. lia.
  - apply Byte.of_N_None_iff in E. lia.
Qed.

Lemma byte_val_inj b1 b2 : byte_val b1 = byte_val b2 → b1 = b2.
Proof. intros H. rewrite <-(byte_of_val b1), <-(byte_of_val b2). by rewrite H. Qed.

#[global] Program Instance byte_countable : Countable Byte.byte :=
  inj_countable byte_val (λ z, Some (byte_of z)) _.
Next Obligation. intros b. simpl. by rewrite byte_of_val. Qed.

(** ** Machine integers *)

Definition u16_max : Z := 2 ^ 16 - 1.
Definition u32_max : Z := 2 ^ 32 - 1.
Definition u64_max : Z := 2 ^ 64 - 1.

(** [wrapping_add], [saturating_add] and [checked_add] at a maximum value. *)
Definition wrapping_add (mx a b : Z) : Z := (a + b) mod (mx + 1).
Definition saturating_add (mx a b : Z) : Z := Z.min mx (a + b).
Definition checked_add (mx a b : Z) : option Z :=
  if a + b <=? mx then Some (a + b) else None.

(** ** Byte order *)

(** [to_le_bytes] of an [n]-byte integer. *)
Fixpoint le_bytes (n : nat) (z : Z) : bytes :=
  match n with
  | O => []
  | S n' => byte_of z :: le_bytes n' (z / 256)
  end.

(** [from_le_bytes]. *)
Fixpoint le_value (bs : bytes) : Z :=
  match bs with
  | [] => 0
  | b :: bs' => byte_val b + 256 * le_value bs'
  end.

(** [to_be_bytes] and [from_be_bytes]. *)
Definition be_bytes (n : nat) (z : Z) : bytes := reverse (le_bytes n z).
Definition be_value (bs : bytes) : Z := le_value (reverse bs).

Lemma length_le_bytes n z : length (le_bytes n z) = n.
Proof. revert z. induction n; intros; simpl; auto. Qed.

Lemma length_be_bytes n z : length (be_bytes n z) = n.
Proof. unfold be_bytes. by rewrite length_reverse, length_le_bytes. Qed.

Lemma le_value_bytes n z : le_value (le_bytes n z) = z mod 256 ^ Z.of_nat n.
Proof.
  revert z. induction n as [|n IH]; intros z; simpl le_bytes; simpl le_value.
  - by rewrite Z.mod_1_r.
  - rewrite IH, byte_val_of, Nat2Z.inj_succ, Z.pow_succ_r by lia.
    pose proof (Z.pow_pos_nonneg 256 (Z.of_nat n) ltac:(lia) ltac:(lia)).
    rewrite (Z.rem_mul_r z 256) by lia. done.
Qed.

Lemma be_value_bytes n z : be_value (be_bytes n z) = z mod 256 ^ Z.of_nat n.
Proof. unfold be_value, be_bytes. by rewrite reverse_involutive, le_value_bytes. Qed.

Lemma le_value_range bs : 0 <= le_value bs < 256 ^ Z.of_nat (length bs).
Proof.
  induction bs as [|b bs IH]; simpl le_value; simpl length.
  - done.
  - rewrite Nat2Z.inj_succ, Z.pow_succ_r by lia.
    pose proof (byte_val_range b). lia.
Qed.

Lemma be_value_range bs : 0 <= be_value bs < 256 ^ Z.of_nat (length bs).
Proof. unfold be_value. pose proof (le_value_range (reverse bs)) as H.
  by rewrite length_reverse in H. Qed.

Lemma le_bytes_value bs : le_bytes (length bs) (le_value bs) = bs.
Proof.
  induction bs as [|b bs IH]; simpl; [done|].
  pose proof (byte_val_range b). f_equal.
  - apply byte_val_inj. rewrite byte_val_of.
    rewrite Z.mul_comm, Z.mod_add, Z.mod_small; lia.
  - replace ((byte_val b + 256 * le_value bs) / 256) with (le_value bs); [done|].
    symmetry. rewrite Z.mul_comm, Z.div_add by lia.
    rewrite Z.div_small; lia.
Qed.

Lemma be_bytes_value n bs : length bs = n → be_bytes n (be_value bs) = bs.
Proof.
  intros <-. unfold be_bytes, be_value.
  rewrite <-(length_reverse bs), le_bytes_value. apply reverse_involutive.
Qed.

#[global] Opaque le_bytes le_value be_bytes be_value.

(** ** Results *)

(** Rust's [Result]. *)
Inductive result (E A : Type) : Type :=
| Ok (a : A)
| Err (e : E).
Arguments Ok {E A} a.
Arguments Err {E A} e.

#[global] Instance result_ret {E} : MRet (result E) := λ _ a, Ok a.
#[global] Instance result_bind {E} : MBind (result E) := λ _ _ k r,
  match r with Ok a => k a | Err e => Err e end.
#[global] Instance result_fmap {E} : FMap (result E) := λ _ _ f r,
  match r with Ok a => Ok (f a) | Err e => Err e end.

(** [map_err]. *)
Definition map_err {E E' A} (f : E → E') (r : result E A) : result E' A :=
  match r with Ok a => Ok a | Err e => Err (f e) end.

(** [Option::ok_or]. *)
Definition ok_or {E A} (o : option A) (e : E) : result E A :=
  match o with Some a => Ok a | None => Err e end.

(** [Result::is_ok], [Result::is_err], [Result::ok]. *)
Definition is_ok {E A} (r : result E A) : bool :=
  match r with Ok _ => true | Err _ => false end.
Definition result_ok {E A} (r : result E A) : option A :=
  match r with Ok a => Some a | Err _ => None end.

(** [Result::unwrap_or]. *)
Definition unwrap_or {E A} (r : result E A) (d : A) : A :=
  match r with Ok a => a | Err _ => d end.
Lemma unwrap_or_ok {E A} (r : result E A) d : is_ok r = true → r = Ok (unwrap_or r d).
Proof. by destruct r. Qed.

(** [Iterator::position]. *)
Fixpoint position {A} (p : A → bool) (l : list A) : option nat :=
  match l with
  | [] => None
  | x :: l' => if p x then Some O else S <$> position p l'
  end.

Lemma position_Some {A} (p : A → bool) l i :
  position p l = Some i ↔
  ∃ x, l !! i = Some x ∧ p x = true ∧ ∀ j y, (j < i)%nat → l !! j = Some y → p y = false.
Proof.
  revert i. induction l as [|x l IH]; intros i; simpl.
  - split; [done|]. intros (x & Hx & _). done.
  - destruct (p x) eqn:Hp.
    + split.
      * intros [= <-]. exists x. split_and!; [done..|]. intros; lia.
      * intros (y & Hy & Hpy & Hlt). destruct i; [done|].
        specialize (Hlt 0%nat x ltac:(lia) eq_refl). congruence.
    + rewrite fmap_Some. split.
      * intros (i' & Hi' & ->). apply IH in Hi' as (y & Hy & Hpy & Hlt).
        exists y. split_and!; [done..|]. intros [|j] z Hj Hz; simpl in *; [congruence|].
        apply (Hlt j z); [lia|done].
      * intros (y & Hy & Hpy & Hlt). destruct i as [|i]; simpl in *; [congruence|].
        exists i. split; [|done]. apply IH. exists y. split_and!; [done..|].
        intros j z Hj Hz. apply (Hlt (S j) z); [lia|done].
Qed.

Lemma position_None {A} (p : A → bool) l :
  position p l = None ↔ ∀ x, x ∈ l → p x = false.
Proof.
  induction l as [|x l IH]; simpl.
  - split; [|done]. intros _ y Hy. by apply not_elem_of_nil in Hy.
  - destruct (p x) eqn:Hp.
    + split; [done|]. intros H. specialize (H x). rewrite Hp in H.
      discriminate H. by left.
    + rewrite fmap_None, IH. split.
      * intros H y [->|Hy]%elem_of_cons; auto.
      * intros H y Hy. apply H. by right.
Qed.

(** [Iterator::filter] that keeps everything, or nothing. *)
Lemma list_filter_all {A} (P : A → Prop) `{∀ x, Decision (P x)} l : Forall P l → filter P l = l.
Proof. induction 1 as [|x l Hx _ IH]; [done|]. by rewrite filter_cons_True, IH. Qed.
Lemma list_filter_none {A} (P : A → Prop) `{∀ x, Decision (P x)} l :
  Forall (λ x, ¬ P x) l → filter P l = [].
Proof. induction 1 as [|x l Hx _ IH]; [done|]. by rewrite filter_cons_False. Qed.

(** ** Strings

    A Rust [str] whose characters matter is its list of Unicode scalar values;
    an ASCII literal is given by its bytes. *)
Abbreviation chars := (list Z).
Definition str_bytes (s : string) : bytes := String.list_byte_of_string s.
Definition str_chars (s : string) : chars := byte_val <$> String.list_byte_of_string s.

(** [char::is_whitespace]: the Unicode [White_Space] property. *)
Definition is_whitespace (c : Z) : bool :=
  ((9 <=? c) && (c <=? 13)) || (c =? 32) || (c =? 133) || (c =? 160) || (c =? 5760)
  || ((8192 <=? c) && (c <=? 8202)) || (c =? 8232) || (c =? 8233) || (c =? 8239)
  || (c =? 8287) || (c =? 12288).

(** [to_ascii_lowercase] on one character, [eq_ignore_ascii_case] on strings. *)
Definition ascii_lower (c : Z) : Z :=
  if (65 <=? c) && (c <=? 90) then c + 32 else c.
Definition eq_ignore_ascii_case (a b : chars) : bool :=
  bool_decide (ascii_lower <$> a = ascii_lower <$> b).

(** [str::trim]. *)
Fixpoint trim_start (s : chars) : chars :=
  match s with
  | c :: s' => if is_whitespace c then trim_start s' else s
  | [] => []
  end.
Definition trim (s : chars) : chars := reverse (trim_start (reverse (trim_start s))).

(** [str::split] by a character predicate: always at least one piece. *)
Fixpoint split_by {A} (p : A → bool) (s : list A) : list (list A) :=
  match s with
  | [] => [[]]
  | c :: s' =>
      if p c then [] :: split_by p s'
      else match split_by p s' with
           | [] => [[c]]
           | w :: ws => (c :: w) :: ws
           end
  end.

(** [slice::join]. *)
Fixpoint join_with {A} (sep : list A) (ws : list (list A)) : list A :=
  match ws with
  | [] => []
  | [w] => w
  | w :: ws' => w ++ sep ++ join_with sep ws'
  end.

Lemma split_by_nonnil {A} (p : A → bool) s : split_by p s ≠ [].
Proof. destruct s as [|c s]; simpl; [done|]. destruct (p c); [done|]. by destruct (split_by p s). Qed.

Lemma split_by_word {A} (p : A → bool) w : Forall (λ c, p c = false) w → split_by p w = [w].
Proof. induction 1 as [|c w Hc _ IH]; simpl; [done|]. by rewrite Hc, IH. Qed.

Lemma split_by_sep {A} (p : A → bool) w c s :
  Forall (λ c, p c = false) w → p c = true →
  split_by p (w ++ c :: s) = w :: split_by p s.
Proof.
  induction 1 as [|d w Hd _ IH]; intros Hc; simpl.
  - by rewrite Hc.
  - by rewrite Hd, IH.
Qed.

(** A [Mutex<T>] as its value and its poison flag; [lock] fails once poisoned. *)
Record Mutex (A : Type) := { mutex_value : A; mutex_poisoned : bool }.
Arguments Build_Mutex {A}.
Arguments mutex_value {A}.
Arguments mutex_poisoned {A}.

Definition lock {A} (m : Mutex A) : option A :=
  if mutex_poisoned m then None else Some (mutex_value m).
Definition unlock {A} (m : Mutex A) (v : A) : Mutex A :=
  {| mutex_value := v; mutex_poisoned := mutex_poisoned m |}.

(** Time: instants and durations in nanoseconds. *)
Definition secs (n : Z) : Z := n * 1000000000.
(** [Instant::elapsed], saturating at zero. *)
Definition elapsed (now t : Z) : Z := Z.max 0 (now - t).

(** How many entries of a map meet a test. *)
Definition count_where {K A} `{Countable K} (f : A → bool) (m : gmap K A) : Z :=
  Z.of_nat (size (filter (λ e, f e.2 = true) m)).

Section count_where.
Context {K A : Type} `{Countable K} (f : A → bool).
Implicit Types m : gmap K A.

Lemma count_where_nonneg m : 0 <= count_where f m.
Proof. unfold count_where. lia. Qed.

Lemma count_where_empty : count_where f (∅ : gmap K A) = 0.
Proof. unfold count_where. by rewrite map_filter_empty, map_size_empty. Qed.

Lemma count_where_insert_new m i x :
  m !! i = None → count_where f (<[i := x]> m) = count_where f m + Z.b2z (f x).
Proof.
  intros Hi. unfold count_where. destruct (f x) eqn:Hx; simpl.
  - rewrite map_filter_insert_True by done. rewrite map_size_insert_None; [lia|].
    apply map_lookup_filter_None. by left.
  - rewrite map_filter_insert_not'; [lia|simpl; congruence|]. intros y Hy. congruence.
Qed.

Lemma count_where_delete m i x :
  m !! i = Some x → count_where f (delete i m) = count_where f m - Z.b2z (f x).
Proof.
  intros Hi. rewrite <- (insert_delete_id m i x) at 2 by done.
  rewrite count_where_insert_new by apply lookup_delete_eq. lia.
Qed.

Lemma count_where_insert m i x y :
  m !! i = Some x → count_where f (<[i := y]> m) = count_where f m - Z.b2z (f x) + Z.b2z (f y).
Proof.
  intros Hi. rewrite <- insert_delete_eq, count_where_insert_new by apply lookup_delete_eq.
  by rewrite (count_where_delete m i x).
Qed.

Lemma count_where_pos m i x : m !! i = Some x → f x = true → 0 < count_where f m.
Proof.
  intros Hi Hx. pose proof (count_where_delete m i x Hi) as Hd. rewrite Hx in Hd.
  pose proof (count_where_nonneg (delete i m)). simpl in Hd. lia.
Qed.
End count_where.

(** How many elements of a list meet a test; taking one out. *)
Definition count_if {A} (f : A → bool) (l : list A) : nat := length (filter (λ x, f x = true) l).

Section count_if.
Context {A : Type} (f : A → bool).
Implicit Types l : list A.

Lemma count_if_cons x l : count_if f (x :: l) = ((if f x then 1 else 0) + count_if f l)%nat.
Proof. unfold count_if. rewrite filter_cons. destruct (f x) eqn:Hx; by case_decide. Qed.

Lemma count_if_app l k : count_if f (l ++ k) = (count_if f l + count_if f k)%nat.
Proof. unfold count_if. by rewrite filter_app, length_app. Qed.

Lemma count_if_perm l k : l ≡ₚ k → count_if f l = count_if f k.
Proof. intros Hp. unfold count_if. by rewrite Hp. Qed.

Lemma count_if_take l i x :
  l !! i = Some x → count_if f l = ((if f x then 1 else 0) + count_if f (delete i l))%nat.
Proof. intros Hi. rewrite <- count_if_cons. by apply count_if_perm, delete_Permutation. Qed.

Lemma count_if_none l : existsb f l = false → count_if f l = 0%nat.
Proof.
  intros He. unfold count_if. rewrite list_filter_none; [done|]. apply Forall_forall. intros x Hx Hf.
  apply not_true_iff_false in He. apply He, existsb_exists. exists x. by rewrite <- list_elem_of_In.
Qed.

Lemma elem_of_take_out l i x y : l !! i = Some x → y ∈ l → y = x ∨ y ∈ delete i l.
Proof. intros Hi Hy. rewrite (delete_Permutation _ _ _ Hi) in Hy. by apply elem_of_cons in Hy. Qed.
End count_if.

(** Automation: case split on a [match] in the goal or in a hypothesis, and
    the closing tactic used for the case analyses of handlers. *)
Create HintDb portty.

Ltac split_match :=
  match goal with
  | |- context [match ?x with _ => _ end] =>
      lazymatch x with
      | context [match _ with _ => _ end] => fail
      | _ => destruct x eqn:?
      end
  end.
Ltac split_match_in H :=
  match type of H with
  | context [match ?x with _ => _ end] =>
      lazymatch x with
      | context [match _ with _ => _ end] => fail
      | _ => destruct x eqn:?
      end
  end.
(** The same on any hypothesis that says what a handler returned. *)
Ltac split_result :=
  match goal with
  | Hr : ?lhs = (_, _) |- _ =>
      match lhs with
      | context [match ?x with _ => _ end] =>
          lazymatch x with
          | context [match _ with _ => _ end] => fail
          | _ => destruct x eqn:?
          end
      end
  end.
(** What a handler returned, from the value alone; and a closed equation by
    evaluation. *)
Lemma fst_eq {A B} (p : A * B) x : p.1 = x → p = (x, p.2).
Proof. destruct p. simpl. congruence. Qed.
Ltac by_vm := match goal with |- _ = ?b => vm_cast_no_check (eq_refl b) end.
Ltac by_fst := match goal with |- ?p = (?x, _) => refine (fst_eq p x _); by_vm end.

Ltac crush := repeat (simplify_eq/= || split_match || done).
