(* ===== verification/Errors.v ===== *)
(** * Errors: the typed error hierarchy of the transport crate

    [crates/transport/src/error.rs]. The constructors are the source's; the
    free-form strings of [TlsHandshake], [Iroh], [Encode] and [Decode] are
    kept as strings, and an [io::Error] is its [ErrorKind]. *)

From S2P Require Import Prelude.

(** The [std::io::ErrorKind]s the sources distinguish. *)
Inductive IoKind :=
| UnexpectedEof
| TimedOut
| InvalidData
| InvalidInput
| PermissionDenied
| NotFound
| BrokenPipe
| OtherIo.

Inductive IdentityError :=
| IdGenerate
| IdCorrupt
| IdUnsupportedVersion (expected found : Z).

Inductive CryptoError :=
| WrongPinErr
| RateLimitedErr
| HmacLength
| Kdf
| NonContributoryEcdh
| Decrypt
| Replay (expected found : Z)
| NonceExhausted
| Rng.

Inductive TransportError :=
| Closed
| FrameTooLarge (n : Z)
| MalformedFrame
| UnsupportedProtocolVersion (expected found : Z)
| TlsHandshake (msg : string)
| IrohErr (msg : string)
| ConnectTimeout
| TIo (k : IoKind).

(** [handshake.rs]: the reasons a host refuses a handshake. *)
Inductive PairingFailure :=
| WrongPin
| RateLimited
| UnsupportedVersion
| Cancelled
| PairingClosed
| Revoked.

Inductive ProtocolError :=
| DecodeErr (msg : string)
| EncodeErr (msg : string)
| UnexpectedMessage (state actual : string)
| HandshakeComplete
| Aborted (msg : string)
| PairingFailedErr (reason : PairingFailure).

Inductive SyncError :=
| EIdentity (e : IdentityError)
| ECrypto (e : CryptoError)
| ETransport (e : TransportError)
| EProtocol (e : ProtocolError)
| EIo (k : IoKind).

Abbreviation SyncResult := (result SyncError).

#[global] Instance IoKind_eq_dec : EqDecision IoKind.
Proof. solve_decision. Defined.
#[global] Instance IdentityError_eq_dec : EqDecision IdentityError.
Proof. solve_decision. Defined.
#[global] Instance CryptoError_eq_dec : EqDecision CryptoError.
Proof. solve_decision. Defined.
#[global] Instance TransportError_eq_dec : EqDecision TransportError.
Proof. solve_decision. Defined.
#[global] Instance PairingFailure_eq_dec : EqDecision PairingFailure.
Proof. solve_decision. Defined.
#[global] Instance ProtocolError_eq_dec : EqDecision ProtocolError.
Proof. solve_decision. Defined.
#[global] Instance SyncError_eq_dec : EqDecision SyncError.
Proof. solve_decision. Defined.
