(* ===== verification/Frame.v ===== *)
(** * Frame: length-prefixed framing

    [crates/transport/src/frame.rs] (the phone/host frames, a big-endian
    [u32] length, a big-endian [u16] version and the payload) and the local
    relay framing of [crates/host/src/relay_pipe.rs] and
    [crates/cli/src/main.rs] (a little-endian [u32] length and the payload).

    A reader is the bytes that arrive and what follows them; a writer is the
    bytes accepted so far and the room left before its next write fails. *)

From S2P Require Import Prelude Errors.

(** ** The I/O model *)
Module Io.

(** What follows the last byte of a reader: a clean close, an error, or
    silence (a peer that stays connected and sends nothing more). *)
Inductive Tail :=
| TailEof
| TailError (k : IoKind)
| TailStall.

Record Reader := { rd_bytes : bytes; rd_tail : Tail }.

(** [read_exact]: an end of file before [n] bytes is [UnexpectedEof]; silence
    never returns ([None]). The bytes read before a failure are consumed. *)
Definition read_exact (n : nat) (r : Reader) : option (result IoKind bytes * Reader) :=
  if (n <=? length (rd_bytes r))%nat then
    Some (Ok (take n (rd_bytes r)),
          {| rd_bytes := drop n (rd_bytes r); rd_tail := rd_tail r |})
  else
    let r' := {| rd_bytes := []; rd_tail := rd_tail r |} in
    match rd_tail r with
    | TailEof => Some (Err UnexpectedEof, r')
    | TailError k => Some (Err k, r')
    | TailStall => None
    end.

(** A writer accepts bytes until its room (if bounded) is used up, then fails. *)
Record Writer := { wr_bytes : bytes; wr_room : option nat }.

Definition write_all (bs : bytes) (w : Writer) : result IoKind unit * Writer :=
  match wr_room w with
  | None => (Ok tt, {| wr_bytes := wr_bytes w ++ bs; wr_room := None |})
  | Some room =>
      if (length bs <=? room)%nat then
        (Ok tt, {| wr_bytes := wr_bytes w ++ bs; wr_room := Some (room - length bs)%nat |})
      else
        (Err BrokenPipe, {| wr_bytes := wr_bytes w ++ take room bs; wr_room := Some 0%nat |})
  end.

(** Consecutive writes, stopping at the first failure, then a flush. *)
Fixpoint write_seq (bss : list bytes) (w : Writer) : result IoKind unit * Writer :=
  match bss with
  | [] => (Ok tt, w)
  | bs :: bss' =>
      match write_all bs w with
      | (Ok _, w') => write_seq bss' w'
      | (Err k, w') => (Err k, w')
      end
  end.

Definition feed (bs : bytes) (r : Reader) : Reader :=
  {| rd_bytes := bs ++ rd_bytes r; rd_tail := rd_tail r |}.

Lemma read_exact_feed bs r : read_exact (length bs) (feed bs r) = Some (Ok bs, r).
Proof.
  unfold read_exact, feed; simpl.
  rewrite (proj2 (Nat.leb_le _ _)) by (rewrite length_app; lia).
  rewrite take_app_length, drop_app_length. by destruct r.
Qed.

Lemma feed_app bs bs' r : feed (bs ++ bs') r = feed bs (feed bs' r).
Proof. unfold feed; simpl. by rewrite app_assoc. Qed.

Lemma write_seq_unbounded bss bs :
  write_seq bss {| wr_bytes := bs; wr_room := None |}
  = (Ok tt, {| wr_bytes := bs ++ concat bss; wr_room := None |}).
Proof.
  revert bs. induction bss as [|b bss IH]; intros bs; simpl.
  - by rewrite app_nil_r.
  - rewrite IH, <-app_assoc. done.
Qed.

(** Whatever room there is, the bytes written are a prefix of the bytes meant. *)
Lemma write_seq_prefix bss w r w' :
  write_seq bss w = (r, w') →
  ∃ sent, wr_bytes w' = wr_bytes w ++ sent ∧ sent `prefix_of` concat bss ∧
          (r = Ok tt → sent = concat bss).
Proof.
  revert w. induction bss as [|b bss IH]; intros w; simpl.
  - intros [= <- <-]. exists []. rewrite app_nil_r. auto using prefix_nil.
  - unfold write_all. destruct (wr_room w) as [room|].
    + destruct (_ <=? _)%nat.
      * intros (sent & Hw & Hp & Hr)%IH. simpl in *. exists (b ++ sent).
        rewrite Hw, <-app_assoc. split_and!; [done|by apply prefix_app|].
        intros ?. by rewrite Hr.
      * intros [= <- <-]. exists (take room b). split_and!; [done| |done].
        apply prefix_app_r. apply prefix_take.
    + intros (sent & Hw & Hp & Hr)%IH. simpl in *. exists (b ++ sent).
      rewrite Hw, <-app_assoc. split_and!; [done|by apply prefix_app|].
      intros ?. by rewrite Hr.
Qed.

#[global] Opaque read_exact.

End Io.

(** ** Phone/host frames *)
Module FrameCodec.
Import Io.

Definition PROTOCOL_VERSION : Z := 11.
Definition MIN_SUPPORTED_PROTOCOL_VERSION : Z := PROTOCOL_VERSION.
Definition MAX_FRAME_BYTES : Z := 1024 * 1024.

Definition supports_protocol_version (version : Z) : bool :=
  (MIN_SUPPORTED_PROTOCOL_VERSION <=? version) && (version <=? PROTOCOL_VERSION).

Definition validate_protocol_version (version : Z) : result TransportError unit :=
  if supports_protocol_version version then Ok tt
  else Err (UnsupportedProtocolVersion PROTOCOL_VERSION version).

(** [write_frame]: nothing is written when the frame is too large. *)
Definition write_frame (w : Writer) (version : Z) (payload : bytes)
    : result TransportError unit * Writer :=
  let total := 2 + Z.of_nat (length payload) in
  if MAX_FRAME_BYTES <? total then
    (Err (FrameTooLarge (total mod 2 ^ 32)), w)
  else
    let '(r, w') := write_seq [be_bytes 4 total; be_bytes 2 version; payload] w in
    (map_err TIo r, w').

(** [read_frame]: [None] is the unbounded wait for a next frame; once the
    length has arrived, silence is a time-out error. *)
Definition read_frame (r : Reader) : option (result TransportError (Z * bytes) * Reader) :=
  '(hdr, r1) ← read_exact 4 r;
  match hdr with
  | Err UnexpectedEof => Some (Err Closed, r1)
  | Err k => Some (Err (TIo k), r1)
  | Ok h =>
      let len := be_value h in
      if len <? 2 then Some (Err MalformedFrame, r1)
      else if MAX_FRAME_BYTES <? len then Some (Err (FrameTooLarge len), r1)
      else
        match read_exact 2 r1 with
        | None => Some (Err (TIo TimedOut), {| rd_bytes := []; rd_tail := rd_tail r1 |})
        | Some (Err k, r2) => Some (Err (TIo k), r2)
        | Some (Ok v, r2) =>
            match read_exact (Z.to_nat (len - 2)) r2 with
            | None => Some (Err (TIo TimedOut), {| rd_bytes := []; rd_tail := rd_tail r2 |})
            | Some (Err k, r3) => Some (Err (TIo k), r3)
            | Some (Ok buf, r3) => Some (Ok (be_value v, buf), r3)
            end
        end
  end.

(** The bytes of one frame, and of a run of frames. *)
Definition frame_bytes (version : Z) (payload : bytes) : bytes :=
  be_bytes 4 (2 + Z.of_nat (length payload)) ++ be_bytes 2 version ++ payload.

Definition frame_fits (payload : bytes) : Prop :=
  2 + Z.of_nat (length payload) <= MAX_FRAME_BYTES.

(** Reading frames one after the other, at most [n] of them. *)
Fixpoint read_frames (n : nat) (r : Reader) : option (result TransportError (list (Z * bytes)) * Reader) :=
  match n with
  | O => Some (Ok [], r)
  | S n' =>
      '(x, r1) ← read_frame r;
      match x with
      | Err e => Some (Err e, r1)
      | Ok f =>
          '(xs, r2) ← read_frames n' r1;
          match xs with
          | Err e => Some (Err e, r2)
          | Ok fs => Some (Ok (f :: fs), r2)
          end
      end
  end.

(** Writing frames one after the other, stopping at the first error. *)
Fixpoint write_frames (fs : list (Z * bytes)) (w : Writer) : result TransportError unit * Writer :=
  match fs with
  | [] => (Ok tt, w)
  | (v, p) :: fs' =>
      match write_frame w v p with
      | (Ok _, w') => write_frames fs' w'
      | (Err e, w') => (Err e, w')
      end
  end.

Lemma write_frame_bytes version payload bs :
  frame_fits payload →
  write_frame {| wr_bytes := bs; wr_room := None |} version payload
  = (Ok tt, {| wr_bytes := bs ++ frame_bytes version payload; wr_room := None |}).
Proof.
  unfold frame_fits, write_frame. intros H.
  rewrite (proj2 (Z.ltb_ge _ _)) by lia.
  rewrite write_seq_unbounded. unfold frame_bytes. simpl. by rewrite app_nil_r.
Qed.

Lemma read_frame_bytes version payload r :
  frame_fits payload → 0 <= version <= u16_max →
  read_frame (feed (frame_bytes version payload) r) = Some (Ok (version, payload), r).
Proof.
  unfold frame_fits, frame_bytes, read_frame, u16_max, MAX_FRAME_BYTES. intros Hf Hv.
  rewrite !feed_app.
  set (n := 2 + Z.of_nat (length payload)) in *.
  pose proof (read_exact_feed (be_bytes 4 n)) as H4. rewrite length_be_bytes in H4.
  pose proof (read_exact_feed (be_bytes 2 version)) as H2. rewrite length_be_bytes in H2.
  rewrite H4. cbn [mbind option_bind]. rewrite be_value_bytes.
  rewrite Z.mod_small by (simpl; lia).
  rewrite (proj2 (Z.ltb_ge _ _)) by lia. rewrite (proj2 (Z.ltb_ge _ _)) by lia.
  rewrite H2, be_value_bytes, Z.mod_small by (simpl; lia).
  replace (Z.to_nat (n - 2)) with (length payload) by lia.
  by rewrite read_exact_feed.
Qed.

Lemma write_frames_ok fs bs :
  Forall (λ f, frame_fits f.2) fs →
  write_frames fs {| wr_bytes := bs; wr_room := None |}
  = (Ok tt, {| wr_bytes := bs ++ concat ((λ f, frame_bytes f.1 f.2) <$> fs); wr_room := None |}).
Proof.
  revert bs. induction fs as [|[v p] fs IH]; intros bs Hf; simpl.
  - by rewrite app_nil_r.
  - apply Forall_cons in Hf as [Hp Hf]. rewrite write_frame_bytes by done.
    rewrite IH by done. by rewrite <-app_assoc.
Qed.

Lemma read_frames_ok fs r :
  Forall (λ f, frame_fits f.2 ∧ 0 <= f.1 <= u16_max) fs →
  read_frames (length fs) (feed (concat ((λ f, frame_bytes f.1 f.2) <$> fs)) r) = Some (Ok fs, r).
Proof.
  induction fs as [|[v p] fs IH]; intros Hf.
  - unfold feed; simpl. by destruct r.
  - apply Forall_cons in Hf as [[Hp Hv] Hf]. simpl in Hp, Hv.
    rewrite fmap_cons. cbn [concat length read_frames fst snd].
    rewrite feed_app, read_frame_bytes by done. simpl. by rewrite IH.
Qed.

(** C19 (roundtrip). Any run of frames that fit is written without error to
    a connection that stays up, and the reader at the other end gets exactly
    those versions and payloads in order, leaving whatever follows unread:
    the framing is self-delimiting. *)
Theorem frames_roundtrip fs rest tail :
  Forall (λ f, frame_fits f.2 ∧ 0 <= f.1 <= u16_max) fs →
  let '(r, w) := write_frames fs {| wr_bytes := []; wr_room := None |} in
  r = Ok tt ∧
  read_frames (length fs) {| rd_bytes := wr_bytes w ++ rest; rd_tail := tail |}
    = Some (Ok fs, {| rd_bytes := rest; rd_tail := tail |}).
Proof.
  intros Hf. rewrite write_frames_ok by (eapply Forall_impl; [exact Hf|intros ? []; done]).
  split; [done|]. simpl.
  pose proof (read_frames_ok fs {| rd_bytes := rest; rd_tail := tail |} Hf) as H.
  unfold feed in H. simpl in H. done.
Qed.

Lemma frames_roundtrip_witness :
  let fs := [(11, [Byte.x68; Byte.x69]); (7, [])] in
  let '(r, w) := write_frames fs {| wr_bytes := []; wr_room := None |} in
  r = Ok tt ∧
  read_frames (length fs) {| rd_bytes := wr_bytes w ++ [Byte.xff]; rd_tail := TailEof |}
    = Some (Ok fs, {| rd_bytes := [Byte.xff]; rd_tail := TailEof |}).
Proof.
  apply (frames_roundtrip [(11, [Byte.x68; Byte.x69]); (7, [])]).
  repeat constructor; unfold frame_fits; vm_compute; congruence.
Defined.

Lemma read_exact_length n r x r' :
  read_exact n r = Some (Ok x, r') → length x = n ∧ rd_bytes r = x ++ rd_bytes r'.
Proof.
  with_strategy transparent [read_exact] unfold read_exact. destruct (_ <=? _)%nat eqn:E.
  - intros [= <- <-]. apply Nat.leb_le in E. rewrite length_take_le by done.
    cbn [rd_bytes]. by rewrite take_drop.
  - destruct (rd_tail r); naive_solver.
Qed.

(** A frame [read_frame] returns never exceeds the documented
    bound, its version is a [u16], and it consumed exactly the frame's bytes:
    re-encoding what was read gives back the bytes taken off the stream. *)
Theorem read_frame_sound r version payload r' :
  read_frame r = Some (Ok (version, payload), r') →
  Z.of_nat (length payload) <= MAX_FRAME_BYTES - 2 ∧
  0 <= version <= u16_max ∧
  rd_bytes r = frame_bytes version payload ++ rd_bytes r'.
Proof.
  unfold read_frame, u16_max.
  destruct (read_exact 4 r) as [[[h|k] r1]|] eqn:E4; simpl; [|by destruct k|done].
  destruct (_ <? 2) eqn:Elt; [done|]. destruct (MAX_FRAME_BYTES <? _) eqn:Egt; [done|].
  destruct (read_exact 2 r1) as [[[v|k] r2]|] eqn:E2; [|done..].
  destruct (read_exact _ r2) as [[[buf|k] r3]|] eqn:Eb; [|done..].
  intros [= <- <- <-].
  apply read_exact_length in E4 as [L4 ->]. apply read_exact_length in E2 as [L2 ->].
  apply read_exact_length in Eb as [Lb ->].
  apply Z.ltb_ge in Elt, Egt.
  pose proof (be_value_range v) as Hv. rewrite L2 in Hv. simpl in Hv.
  unfold frame_bytes. rewrite Lb, Z2Nat.id by lia.
  replace (2 + (be_value h - 2)) with (be_value h) by lia.
  rewrite !be_bytes_value by done. rewrite <-!app_assoc. split_and!; [lia..|done].
Qed.

Lemma read_frame_sound_witness :
  let r := {| rd_bytes := [Byte.x00; Byte.x00; Byte.x00; Byte.x03; Byte.x00; Byte.x0b; Byte.x41];
              rd_tail := TailStall |} in
  read_frame r = Some (Ok (11, [Byte.x41]), {| rd_bytes := []; rd_tail := TailStall |}) ∧
  rd_bytes r = frame_bytes 11 [Byte.x41] ++ [].
Proof.
  split; [vm_compute; reflexivity|].
  apply (read_frame_sound {| rd_bytes := [Byte.x00; Byte.x00; Byte.x00; Byte.x03; Byte.x00;
    Byte.x0b; Byte.x41]; rd_tail := TailStall |} 11 [Byte.x41]
    {| rd_bytes := []; rd_tail := TailStall |}).
  vm_compute; reflexivity.
Defined.

(** The outcome of a read as a function of what arrives: a clean close before
    or inside the header is [Closed]; a length below 2 or above the cap is
    refused having consumed the four header bytes only; a peer that announces
    a length and then goes quiet is a time-out, never an endless wait. *)
Inductive ReadVerdict (r : Reader) : option (result TransportError (Z * bytes)) → Prop :=
| RV_closed : (length (rd_bytes r) < 4)%nat → rd_tail r = TailEof → ReadVerdict r (Some (Err Closed))
| RV_idle : (length (rd_bytes r) < 4)%nat → rd_tail r = TailStall → ReadVerdict r None
| RV_header_error k : (length (rd_bytes r) < 4)%nat → rd_tail r = TailError k →
    ReadVerdict r (Some (Err (if decide (k = UnexpectedEof) then Closed else TIo k)))
| RV_malformed : (4 <= length (rd_bytes r))%nat → be_value (take 4 (rd_bytes r)) < 2 →
    ReadVerdict r (Some (Err MalformedFrame))
| RV_too_large : (4 <= length (rd_bytes r))%nat → MAX_FRAME_BYTES < be_value (take 4 (rd_bytes r)) →
    ReadVerdict r (Some (Err (FrameTooLarge (be_value (take 4 (rd_bytes r))))))
| RV_short len : (4 <= length (rd_bytes r))%nat → be_value (take 4 (rd_bytes r)) = len →
    2 <= len <= MAX_FRAME_BYTES → Z.of_nat (length (rd_bytes r)) < 4 + len →
    ReadVerdict r (Some (Err (TIo match rd_tail r with
                                  | TailEof => UnexpectedEof
                                  | TailError k => k
                                  | TailStall => TimedOut
                                  end)))
| RV_frame len : (4 <= length (rd_bytes r))%nat → be_value (take 4 (rd_bytes r)) = len →
    2 <= len <= MAX_FRAME_BYTES → 4 + len <= Z.of_nat (length (rd_bytes r)) →
    ReadVerdict r (Some (Ok (be_value (take 2 (drop 4 (rd_bytes r))),
                             take (Z.to_nat (len - 2)) (drop 6 (rd_bytes r))))).

Lemma read_exact_enough n bs t :
  (n <= length bs)%nat →
  read_exact n {| rd_bytes := bs; rd_tail := t |}
  = Some (Ok (take n bs), {| rd_bytes := drop n bs; rd_tail := t |}).
Proof. intros H. with_strategy transparent [read_exact] unfold read_exact; simpl. by rewrite (proj2 (Nat.leb_le _ _)). Qed.

Lemma read_exact_short n bs t :
  (length bs < n)%nat →
  read_exact n {| rd_bytes := bs; rd_tail := t |}
  = match t with
    | TailEof => Some (Err UnexpectedEof, {| rd_bytes := []; rd_tail := t |})
    | TailError k => Some (Err k, {| rd_bytes := []; rd_tail := t |})
    | TailStall => None
    end.
Proof. intros H. with_strategy transparent [read_exact] unfold read_exact; simpl. rewrite (proj2 (Nat.leb_gt _ _)) by done.
  by destruct t. Qed.

(** C20 (error). [read_frame] returns exactly what [ReadVerdict] says on
    every input: it is total apart from the idle wait for a first header. *)
Theorem read_frame_verdict r : ReadVerdict r (fst <$> read_frame r).
Proof.
  destruct r as [bs t]. unfold read_frame.
  destruct (decide (length bs < 4)%nat) as [Hs|Hs].
  { rewrite read_exact_short by done. destruct t as [|k|]; simpl.
    - by apply RV_closed.
    - pose proof (RV_header_error {| rd_bytes := bs; rd_tail := TailError k |} k Hs eq_refl) as H.
      by destruct k.
    - by apply RV_idle. }
  rewrite read_exact_enough by lia. simpl.
  destruct (_ <? 2) eqn:Elt; [apply Z.ltb_lt in Elt; apply RV_malformed; [simpl; lia|done]|].
  destruct (MAX_FRAME_BYTES <? _) eqn:Egt;
    [apply Z.ltb_lt in Egt; apply RV_too_large; [simpl; lia|done]|].
  apply Z.ltb_ge in Elt, Egt. set (len := be_value (take 4 bs)) in *.
  pose proof (RV_short {| rd_bytes := bs; rd_tail := t |} len) as Hshort.
  pose proof (RV_frame {| rd_bytes := bs; rd_tail := t |} len) as Hframe.
  simpl in Hshort, Hframe.
  destruct (decide (length (drop 4 bs) < 2)%nat) as [H2|H2]; rewrite length_drop in H2.
  { rewrite read_exact_short by (rewrite length_drop; lia).
    destruct t; apply Hshort; (done || lia). }
  rewrite read_exact_enough by (rewrite length_drop; lia).
  rewrite drop_drop. simpl (4 + 2)%nat.
  destruct (decide (length (drop 6 bs) < Z.to_nat (len - 2))%nat) as [Hb|Hb]; rewrite length_drop in Hb.
  - rewrite read_exact_short by (rewrite length_drop; lia).
    destruct t; apply Hshort; (done || lia).
  - rewrite read_exact_enough by (rewrite length_drop; lia). apply Hframe; (done || lia).
Qed.

(** Exactly one wire generation is accepted: validation succeeds
    on the build's own version and refuses every other value, naming both
    sides of the mismatch. *)
Theorem validate_protocol_version_spec version :
  (version = PROTOCOL_VERSION → validate_protocol_version version = Ok tt) ∧
  (version ≠ PROTOCOL_VERSION →
     validate_protocol_version version
     = Err (UnsupportedProtocolVersion PROTOCOL_VERSION version)).
Proof.
  unfold validate_protocol_version, supports_protocol_version,
    MIN_SUPPORTED_PROTOCOL_VERSION.
  split; intros H.
  - subst. by rewrite Z.leb_refl.
  - destruct (_ && _) eqn:E; [|done]. apply andb_true_iff in E as [?%Z.leb_le ?%Z.leb_le]. lia.
Qed.

End FrameCodec.

(** ** The local relay pipe

    The host daemon and the CLI each carry their own copy of the framing; both
    are modelled, so that the theorem is about one end talking to the other. *)
Module RelayFraming.
Import Io.

Definition MAX_RELAY_FRAME_BYTES : Z := 256 * 1024.

(** [relay_pipe.rs]: [read_framed]. *)
Definition host_read_framed (r : Reader) : option (result IoKind bytes * Reader) :=
  '(hdr, r1) ← read_exact 4 r;
  match hdr with
  | Err k => Some (Err k, r1)
  | Ok h =>
      let len := le_value h in
      if MAX_RELAY_FRAME_BYTES <? len then Some (Err OtherIo, r1)
      else read_exact (Z.to_nat len) r1
  end.

(** [relay_pipe.rs]: [write_framed]. *)
Definition host_write_framed (w : Writer) (bs : bytes) : result IoKind unit * Writer :=
  if MAX_RELAY_FRAME_BYTES <? Z.of_nat (length bs) then (Err OtherIo, w)
  else write_seq [le_bytes 4 (Z.of_nat (length bs)); bs] w.

(** [cli/main.rs]: [read_framed]. *)
Definition cli_read_framed (r : Reader) : option (result IoKind bytes * Reader) :=
  '(hdr, r1) ← read_exact 4 r;
  match hdr with
  | Err k => Some (Err k, r1)
  | Ok h =>
      let len := le_value h in
      if MAX_RELAY_FRAME_BYTES <? len then Some (Err OtherIo, r1)
      else read_exact (Z.to_nat len) r1
  end.

(** [cli/main.rs]: [write_framed]. *)
Definition cli_write_framed (w : Writer) (bs : bytes) : result IoKind unit * Writer :=
  if MAX_RELAY_FRAME_BYTES <? Z.of_nat (length bs) then (Err OtherIo, w)
  else write_seq [le_bytes 4 (Z.of_nat (length bs)); bs] w.

Lemma relay_write_bytes bs :
  Z.of_nat (length bs) <= MAX_RELAY_FRAME_BYTES →
  cli_write_framed {| wr_bytes := []; wr_room := None |} bs
  = (Ok tt, {| wr_bytes := le_bytes 4 (Z.of_nat (length bs)) ++ bs; wr_room := None |}).
Proof.
  intros H. unfold cli_write_framed. rewrite (proj2 (Z.ltb_ge _ _)) by lia.
  rewrite write_seq_unbounded. simpl. by rewrite app_nil_r.
Qed.

Lemma relay_read_bytes bs r :
  Z.of_nat (length bs) <= MAX_RELAY_FRAME_BYTES →
  host_read_framed (feed (le_bytes 4 (Z.of_nat (length bs)) ++ bs) r) = Some (Ok bs, r).
Proof.
  intros H. unfold host_read_framed, MAX_RELAY_FRAME_BYTES in *. rewrite feed_app.
  pose proof (read_exact_feed (le_bytes 4 (Z.of_nat (length bs)))) as H4.
  rewrite length_le_bytes in H4. rewrite H4. simpl.
  rewrite le_value_bytes, Z.mod_small by (simpl; lia).
  rewrite (proj2 (Z.ltb_ge _ _)) by lia. rewrite Nat2Z.id. apply read_exact_feed.
Qed.

(** Every message within the cap that the CLI frames is read
    back by the daemon, and the other way round; every longer message is
    refused by the sender without writing a byte, so the receiver's own cap
    is never hit by a correct peer. *)
Theorem relay_framing_interop bs r :
  if bool_decide (Z.of_nat (length bs) <= MAX_RELAY_FRAME_BYTES) then
    (∃ out,
       cli_write_framed {| wr_bytes := []; wr_room := None |} bs
         = (Ok tt, {| wr_bytes := out; wr_room := None |}) ∧
       host_read_framed (feed out r) = Some (Ok bs, r)) ∧
    (∃ out,
       host_write_framed {| wr_bytes := []; wr_room := None |} bs
         = (Ok tt, {| wr_bytes := out; wr_room := None |}) ∧
       cli_read_framed (feed out r) = Some (Ok bs, r))
  else
    ∀ w, cli_write_framed w bs = (Err OtherIo, w) ∧ host_write_framed w bs = (Err OtherIo, w).
Proof.
  case_bool_decide as H.
  - split; eexists; split;
      [exact (relay_write_bytes bs H)|exact (relay_read_bytes bs r H)
      |exact (relay_write_bytes bs H)|exact (relay_read_bytes bs r H)].
  - intros w. unfold cli_write_framed, host_write_framed.
    by rewrite (proj2 (Z.ltb_lt _ _)) by lia.
Qed.

End RelayFraming.
