(* ===== verification/Wordlist.v ===== *)
(** * Wordlist: the two 256-word tables of the manual pairing phrase

    [crates/transport/src/crypto/wordlist.rs], word for word. *)

From S2P Require Import Prelude.

#[local] Open Scope string_scope.

Definition EVEN_WORDS : list string :=
  [ "able"; "acid"; "aged"; "also"; "area"; "army"; "away"; "baby"; "back"; "ball"; "band";
    "bank"; "base"; "bath"; "bear"; "beat"; "beer"; "bell"; "belt"; "best"; "bill"; "bird";
    "blow"; "blue"; "boat"; "body"; "bomb"; "bond"; "bone"; "book"; "boom"; "born"; "boss";
    "both"; "bowl"; "bulk"; "burn"; "bush"; "busy"; "cake"; "call"; "calm"; "came"; "camp";
    "card"; "care"; "case"; "cash"; "cast"; "cell"; "chat"; "chip"; "city"; "club"; "coal";
    "coat"; "code"; "cold"; "come"; "cook"; "cool"; "cope"; "copy"; "core"; "cost"; "crew";
    "crop"; "dark"; "data"; "date"; "dawn"; "days"; "dead"; "deal"; "dean"; "dear"; "debt";
    "deep"; "deny"; "desk"; "dial"; "dice"; "diet"; "dine"; "dish"; "disk"; "dock"; "does";
    "done"; "door"; "dose"; "down"; "draw"; "drew"; "drop"; "drug"; "dual"; "duke"; "dust";
    "duty"; "each"; "earn"; "ease"; "east"; "easy"; "edge"; "else"; "even"; "ever"; "evil";
    "exit"; "face"; "fact"; "fail"; "fair"; "fall"; "farm"; "fast"; "fate"; "fear"; "feed";
    "feel"; "feet"; "fell"; "felt"; "file"; "fill"; "film"; "find"; "fine"; "fire"; "firm";
    "fish"; "five"; "flag"; "flat"; "flew"; "flip"; "flow"; "flux"; "folk"; "food"; "foot";
    "ford"; "form"; "fort"; "four"; "free"; "from"; "fuel"; "full"; "fund"; "gain"; "game";
    "gate"; "gave"; "gear"; "gene"; "gift"; "girl"; "give"; "glad"; "goal"; "goat"; "goes";
    "gold"; "golf"; "gone"; "good"; "gray"; "grew"; "grow"; "gulf"; "gust"; "hair"; "half";
    "hall"; "hand"; "hang"; "hard"; "harm"; "hate"; "have"; "head"; "hear"; "heat"; "held";
    "hell"; "help"; "here"; "hero"; "high"; "hill"; "hint"; "hire"; "hold"; "hole"; "holy";
    "home"; "hope"; "host"; "hour"; "huge"; "hung"; "hunt"; "hurt"; "iced"; "idea"; "inch";
    "into"; "iron"; "item"; "jade"; "jail"; "jazz"; "join"; "joke"; "jump"; "june"; "jury";
    "just"; "keel"; "keen"; "keep"; "kept"; "keys"; "kick"; "kill"; "kind"; "king"; "knee";
    "knew"; "know"; "lack"; "lady"; "laid"; "lake"; "land"; "lane"; "last"; "late"; "lava";
    "lawn"; "lazy"; "lead"; "leaf"; "lean"; "leap"; "left"; "lend"; "less"; "life"; "lift";
    "like"; "limb"; "lime" ].

Definition ODD_WORDS : list string :=
  [ "line"; "link"; "lips"; "list"; "live"; "load"; "loaf"; "loan"; "lock"; "logs"; "long";
    "look"; "loop"; "lord"; "lose"; "loss"; "lost"; "loud"; "love"; "luck"; "made"; "mail";
    "main"; "make"; "male"; "mall"; "many"; "mark"; "mars"; "mask"; "mass"; "mate"; "math";
    "meal"; "mean"; "meat"; "meet"; "melt"; "menu"; "mesh"; "mess"; "mice"; "mild"; "mile";
    "milk"; "mill"; "mind"; "mine"; "mint"; "miss"; "mode"; "mole"; "moon"; "more"; "moss";
    "most"; "move"; "much"; "musk"; "must"; "myth"; "name"; "navy"; "near"; "neck"; "need";
    "news"; "next"; "nice"; "nick"; "nine"; "node"; "none"; "noon"; "norm"; "nose"; "note";
    "oaks"; "oath"; "odds"; "okay"; "once"; "only"; "onto"; "open"; "oral"; "oven"; "over";
    "pace"; "pack"; "page"; "paid"; "pain"; "pair"; "pale"; "palm"; "park"; "part"; "pass";
    "past"; "path"; "peak"; "pens"; "pest"; "pick"; "pier"; "pile"; "pine"; "pink"; "pint";
    "pipe"; "plan"; "play"; "plot"; "plug"; "plum"; "plus"; "poem"; "poet"; "pole"; "poll";
    "pond"; "pool"; "poor"; "port"; "post"; "pour"; "pray"; "pull"; "pulp"; "pump"; "punk";
    "pure"; "push"; "quay"; "quit"; "race"; "rack"; "raft"; "rage"; "raid"; "rail"; "rain";
    "rake"; "rank"; "rare"; "rate"; "read"; "real"; "rear"; "reed"; "reef"; "rein"; "rely";
    "rent"; "rest"; "rice"; "rich"; "ride"; "ring"; "rink"; "rise"; "risk"; "rite"; "road";
    "roam"; "roar"; "rock"; "role"; "roll"; "roof"; "room"; "root"; "rope"; "rose"; "rosy";
    "rugs"; "rung"; "runs"; "rush"; "rust"; "safe"; "sage"; "said"; "sail"; "salt"; "same";
    "sand"; "sane"; "save"; "scan"; "seal"; "seat"; "seed"; "seem"; "seen"; "self"; "sell";
    "send"; "sent"; "shed"; "ship"; "shop"; "shot"; "show"; "shun"; "side"; "sign"; "silk";
    "sing"; "sink"; "site"; "size"; "skin"; "slab"; "slap"; "sled"; "slid"; "slim"; "slog";
    "slot"; "slow"; "snap"; "snow"; "soap"; "sock"; "soft"; "soil"; "sold"; "sole"; "solo";
    "song"; "soon"; "sore"; "sort"; "soul"; "soup"; "sour"; "spin"; "spot"; "stag"; "stem";
    "step"; "stir"; "stop"; "such"; "suit"; "sung"; "swan"; "swap"; "swim"; "tail"; "take";
    "tale"; "talk"; "tame" ].

#[local] Close Scope string_scope.
