(* ===== verification/Crypto.v ===== *)
(** * Crypto: the cryptographic crates the program calls

    HMAC-SHA256, HKDF-SHA256, X25519 and XChaCha20-Poly1305 are third-party
    code: they are parameters of the model, as operations ([CryptoPrims],
    [AeadPrims]) with the documented behaviour the program relies on
    ([CryptoLaws], [AeadLaws]). No secrecy is assumed anywhere; that an
    adversary forges no ciphertext is a hypothesis of the theorems about the
    channel ([Envelope.unforged]), on the frames of one run. The module [Toy] gives computable operations that satisfy the
    laws, for the concrete runs. *)

From S2P Require Import Prelude.

(** ** The cryptographic crates *)

Class CryptoPrims := {
  (** [Hmac::<Sha256>::new_from_slice] accepts this key. *)
  hmac_key_ok : bytes → bool;
  (** HMAC-SHA256 of a message under a key. *)
  hmac_sha256 : bytes → bytes → bytes;
  (** HKDF-SHA256, salt, input key material and info, a 32-byte output;
      [None] is [expand]'s error. *)
  hkdf_sha256 : option bytes → bytes → bytes → option bytes;
  (** [x25519_dalek::EphemeralSecret] and its operations. *)
  EphemeralSecret : Type;
  x25519_public : EphemeralSecret → bytes;
  x25519_dh : EphemeralSecret → bytes → bytes;
  (** [SharedSecret::was_contributory]. *)
  was_contributory : bytes → bool;
}.

(** Documented behaviour of the crates: HMAC takes keys of any length and
    yields 32 bytes, HKDF expands to the 32 bytes asked for, and the two ends
    of an X25519 exchange agree. *)
Class CryptoLaws `(CryptoPrims) : Prop := {
  hmac_any_key : ∀ k, hmac_key_ok k = true;
  hmac_length : ∀ k m, length (hmac_sha256 k m) = 32%nat;
  hkdf_total : ∀ salt ikm info, ∃ okm, hkdf_sha256 salt ikm info = Some okm ∧ length okm = 32%nat;
  x25519_agree : ∀ a b, x25519_dh a (x25519_public b) = x25519_dh b (x25519_public a);
}.

Class AeadPrims := {
  (** [XChaCha20Poly1305::encrypt]: key, nonce, associated data, message. *)
  aead_encrypt : bytes → bytes → bytes → bytes → option bytes;
  aead_decrypt : bytes → bytes → bytes → bytes → option bytes;
}.

(** Documented behaviour: what was encrypted decrypts under the same key, nonce
    and associated data; encryption accepts the messages the program seals
    (a frame is at most 1 MiB, the cipher's limit is 256 GiB). *)
Class AeadLaws `(AeadPrims) : Prop := {
  aead_roundtrip : ∀ k n a m c, aead_encrypt k n a m = Some c → aead_decrypt k n a c = Some m;
  aead_total : ∀ k n a m, Z.of_nat (length m) < 2 ^ 38 → ∃ c, aead_encrypt k n a m = Some c;
}.

(** ** Computable instances *)
Module Toy.

(** A 32-byte polynomial digest of a byte string. *)
Definition digest (bs : bytes) : bytes :=
  be_bytes 32 (foldl (λ acc b, (acc * 16777619 + byte_val b + 1) mod 2 ^ 255) 7 bs).

Lemma length_digest bs : length (digest bs) = 32%nat.
Proof. apply length_be_bytes. Qed.

Definition toy_public (a : Byte.byte) : bytes := be_bytes 32 (byte_val a).
Definition toy_dh (a : Byte.byte) (p : bytes) : bytes := be_bytes 32 (byte_val a + be_value p).

#[export] Instance toy_crypto : CryptoPrims := {|
  hmac_key_ok := λ _, true;
  hmac_sha256 := λ k m, digest (k ++ be_bytes 4 (Z.of_nat (length k)) ++ m);
  hkdf_sha256 := λ salt ikm info,
    Some (digest (default [] salt ++ [Byte.xaa] ++ info ++ [Byte.xbb] ++ ikm));
  EphemeralSecret := Byte.byte;
  x25519_public := toy_public;
  x25519_dh := toy_dh;
  was_contributory := λ s, negb (be_value s =? 0);
|}.

#[export] Instance toy_crypto_laws : CryptoLaws toy_crypto.
Proof.
  split.
  - done.
  - intros k m. apply length_digest.
  - intros salt ikm info. eexists. split; [reflexivity|apply length_digest].
  - intros a b. unfold x25519_dh, x25519_public; simpl. unfold toy_dh, toy_public.
    rewrite !be_value_bytes. pose proof (byte_val_range a). pose proof (byte_val_range b).
    rewrite !Z.mod_small by (simpl; lia). f_equal. lia.
Qed.

Definition toy_tag (k n a : bytes) : bytes := take 16 (digest (k ++ n ++ a)).

#[export] Instance toy_aead : AeadPrims := {|
  aead_encrypt := λ k n a m, Some (m ++ toy_tag k n a);
  aead_decrypt := λ k n a c,
    let m := take (length c - 16) c in
    if decide (c = m ++ toy_tag k n a) then Some m else None;
|}.

#[export] Instance toy_aead_laws : AeadLaws toy_aead.
Proof.
  split.
  - intros k n a m c [= <-]. simpl.
    assert (length (toy_tag k n a) = 16%nat) as Ht.
    { unfold toy_tag. rewrite length_take, length_digest. done. }
    rewrite take_app_length' by (rewrite length_app; lia). by rewrite decide_True.
  - intros k n a m _. by eexists.
Qed.

End Toy.
