(* ===== verification/Pairing.v ===== *)
(** * Pairing: secrets, key derivation, rate limits, the enrollment window

    [crates/transport/src/crypto/pairing.rs]. The HMAC, HKDF and X25519 crates
    are parameters ([CryptoPrims]); what the code relies on of them is the
    class [CryptoLaws]. Every read of the clock ([Instant::now], [elapsed]) is
    an argument of the operation that performs it, and every draw from the OS
    random source is an input. *)

From S2P Require Import Prelude Errors Wordlist Crypto.

(** ** The out-of-band secret and its six-word phrase *)
Module Secret.

Definition TICKET_PAIRING_SECRET_BYTES : nat := 16.
Definition MANUAL_PAIRING_SECRET_BYTES : nat := 6.

(** [PairingSecret]: ticket (128 bits) or manual phrase (48 bits). *)
Inductive PairingSecret :=
| Ticket (b : bytes)
| Manual (b : bytes).

#[global] Instance PairingSecret_eq_dec : EqDecision PairingSecret.
Proof. solve_decision. Defined.

Definition as_bytes (s : PairingSecret) : bytes :=
  match s with Ticket b => b | Manual b => b end.

Definition ticket_bytes (s : PairingSecret) : option bytes :=
  match s with Ticket b => Some b | Manual _ => None end.

(** The array lengths of the two variants. *)
Definition secret_wf (s : PairingSecret) : Prop :=
  match s with
  | Ticket b => length b = TICKET_PAIRING_SECRET_BYTES
  | Manual b => length b = MANUAL_PAIRING_SECRET_BYTES
  end.

(** [from_b64] on the decoded bytes: the length alone selects the variant. *)
Definition from_b64 (b64_decode : chars → option bytes) (s : chars) : option PairingSecret :=
  bs ← b64_decode s;
  if decide (length bs = TICKET_PAIRING_SECRET_BYTES) then Some (Ticket bs)
  else if decide (length bs = MANUAL_PAIRING_SECRET_BYTES) then Some (Manual bs)
  else None.

Definition to_b64 (b64_encode : bytes → chars) (s : PairingSecret) : chars :=
  b64_encode (as_bytes s).

(** The table for a word position. *)
Definition word_table (i : nat) : list string :=
  if Nat.even i then EVEN_WORDS else ODD_WORDS.

Definition word_at (i : nat) (b : Byte.byte) : chars :=
  default [] (str_chars <$> (word_table i !! Z.to_nat (byte_val b))).

Definition to_phrase (s : PairingSecret) : option chars :=
  match s with
  | Ticket _ => None
  | Manual b => Some (join_with [45] (imap word_at b))
  end.

Definition is_separator (c : Z) : bool := (c =? 45) || is_whitespace c.

(** [word_table i] searched for a word, ASCII case ignored. *)
Definition word_index (i : nat) (word : chars) : option nat :=
  position (λ candidate, eq_ignore_ascii_case (str_chars candidate) word) (word_table i).

(** The decoding loop from position [i] on; the first unknown word aborts. *)
Fixpoint decode_words (i : nat) (words : list chars) : option bytes :=
  match words with
  | [] => Some []
  | w :: ws =>
      ix ← word_index i w;
      bs ← decode_words (S i) ws;
      Some (byte_of (Z.of_nat ix) :: bs)
  end.

Definition phrase_words (s : chars) : list chars :=
  filter (λ w, w ≠ []) (split_by is_separator s).

Definition from_phrase (s : chars) : option PairingSecret :=
  let words := phrase_words s in
  if decide (length words = MANUAL_PAIRING_SECRET_BYTES) then
    Manual <$> decode_words 0 words
  else None.

(** *** The tables *)

(** The words of a table as lower-case characters. *)
Definition lowered (l : list string) : list chars := (λ w, ascii_lower <$> str_chars w) <$> l.

Lemma lowered_facts i :
  length (word_table i) = 256%nat ∧ NoDup (lowered (word_table i)) ∧
  Forall (λ w, str_chars w ≠ [] ∧ Forall (λ c, is_separator c = false) (str_chars w))
    (word_table i).
Proof.
  unfold word_table. destruct (Nat.even i);
    (split; [reflexivity|split; [apply (bool_decide_unpack _); vm_compute; exact I
                                |apply (bool_decide_unpack _); vm_compute; exact I]]).
Qed.

Lemma word_at_lookup i b :
  ∃ w, word_table i !! Z.to_nat (byte_val b) = Some w ∧ word_at i b = str_chars w.
Proof.
  destruct (lowered_facts i) as (Hl & _ & _). pose proof (byte_val_range b).
  destruct (word_table i !! Z.to_nat (byte_val b)) as [w|] eqn:E.
  - exists w. split; [done|]. unfold word_at. by rewrite E.
  - apply lookup_ge_None in E. rewrite Hl in E. lia.
Qed.

Lemma word_at_clean i b :
  word_at i b ≠ [] ∧ Forall (λ c, is_separator c = false) (word_at i b).
Proof.
  destruct (word_at_lookup i b) as (w & Hw & ->).
  destruct (lowered_facts i) as (_ & _ & Hf).
  by apply (Forall_lookup_1 _ _ _ _ Hf) in Hw.
Qed.

(** A word decodes to the byte whose word it is, whatever its case. *)
Lemma word_index_spec i word ix :
  word_index i word = Some ix ↔
  (ix < 256)%nat ∧ eq_ignore_ascii_case (word_at i (byte_of (Z.of_nat ix))) word = true.
Proof.
  unfold word_index. rewrite position_Some.
  destruct (lowered_facts i) as (Hl & Hnd & _). split.
  - intros (w & Hw & Heq & _). pose proof (lookup_lt_Some _ _ _ Hw) as Hlt. rewrite Hl in Hlt.
    split; [done|]. unfold word_at. rewrite byte_val_of, Z.mod_small, Nat2Z.id, Hw by lia. done.
  - intros [Hlt Heq].
    destruct (lookup_lt_is_Some_2 (word_table i) ix) as [w Hw]; [lia|].
    unfold word_at in Heq. rewrite byte_val_of, Z.mod_small, Nat2Z.id, Hw in Heq by lia.
    simpl in Heq. exists w. split_and!; [done..|].
    intros j y Hj Hy. apply not_true_is_false. intros Heq'.
    unfold eq_ignore_ascii_case in *. apply bool_decide_eq_true in Heq, Heq'.
    assert (Hii : lowered (word_table i) !! ix = Some (ascii_lower <$> str_chars w))
      by (unfold lowered; by rewrite list_lookup_fmap, Hw).
    assert (Hjj : lowered (word_table i) !! j = Some (ascii_lower <$> str_chars w))
      by (unfold lowered; rewrite list_lookup_fmap, Hy; simpl; f_equal; congruence).
    pose proof (NoDup_lookup _ _ _ _ Hnd Hii Hjj). lia.
Qed.

Lemma decode_words_spec i words bs :
  decode_words i words = Some bs ↔
  length words = length bs ∧
  ∀ j w b, words !! j = Some w → bs !! j = Some b →
           eq_ignore_ascii_case (word_at (i + j) b) w = true.
Proof.
  revert i bs. induction words as [|w ws IH]; intros i bs; simpl.
  - destruct bs; simpl; naive_solver.
  - rewrite bind_Some. split.
    + intros (ix & Hix & Hrest). apply bind_Some in Hrest as (bs' & Hbs & [= <-]).
      apply IH in Hbs as [Hlen Hbs]. apply word_index_spec in Hix as [Hlt Hix].
      split; [simpl; congruence|]. intros [|j] w' b' Hw Hb; simplify_eq/=.
      * by rewrite Nat.add_0_r.
      * rewrite Nat.add_succ_r, <-Nat.add_succ_l. eauto.
    + destruct bs as [|b bs]; [by intros [? _]|]. intros [Hlen Hall].
      pose proof (byte_val_range b). exists (Z.to_nat (byte_val b)). split.
      * apply word_index_spec. split; [lia|]. rewrite Z2Nat.id, byte_of_val by lia.
        specialize (Hall 0%nat w b eq_refl eq_refl). by rewrite Nat.add_0_r in Hall.
      * apply bind_Some. exists bs. rewrite Z2Nat.id, byte_of_val by lia.
        split; [|done]. apply IH. split; [simpl in Hlen; congruence|].
        intros j w' b' Hw Hb. specialize (Hall (S j) w' b' Hw Hb).
        by rewrite Nat.add_succ_r, <-Nat.add_succ_l in Hall.
Qed.

(** A typed phrase decodes to a secret exactly when it has
    six words, separated by any mix of dashes and Unicode whitespace, and each
    word is, up to ASCII case, the word of that byte in the table its position
    requires; the secret is then those bytes. *)
Theorem from_phrase_spec s secret :
  from_phrase s = Some secret ↔
  ∃ b, secret = Manual b ∧ length b = MANUAL_PAIRING_SECRET_BYTES ∧
       Forall2 (λ w expected, eq_ignore_ascii_case expected w = true)
         (phrase_words s) (imap word_at b).
Proof.
  unfold from_phrase.
  assert (Hf2 : ∀ b, Forall2 (λ w expected, eq_ignore_ascii_case expected w = true)
                       (phrase_words s) (imap word_at b) ↔
                     decode_words 0 (phrase_words s) = Some b).
  { intros b. rewrite decode_words_spec, Forall2_same_length_lookup.
    rewrite length_imap. apply and_iff_compat_l. simpl. split.
    - intros H j w b' Hw Hb. apply (H j); [done|]. by rewrite list_lookup_imap, Hb.
    - intros H j w e Hw He. rewrite list_lookup_imap in He.
      apply fmap_Some in He as (b' & Hb & ->). eauto. }
  case_decide as Hlen.
  - rewrite fmap_Some. split.
    + intros (b & Hb & ->). exists b. pose proof Hb as [Hl _]%decode_words_spec.
      split_and!; [done|congruence|by apply Hf2].
    + intros (b & -> & _ & Hb%Hf2). by exists b.
  - split; [done|]. intros (b & _ & Hl & H%Forall2_length). rewrite length_imap in H. congruence.
Qed.

Lemma phrase_words_join ws :
  Forall (λ w, w ≠ [] ∧ Forall (λ c, is_separator c = false) w) ws →
  phrase_words (join_with [45] ws) = ws.
Proof.
  unfold phrase_words. induction ws as [|w ws IH]; intros Hf; [done|].
  apply Forall_cons in Hf as [[Hne Hw] Hf]. destruct ws as [|w' ws].
  - simpl. rewrite split_by_word by done. by rewrite filter_cons_True.
  - change (join_with [45] (w :: w' :: ws)) with (w ++ 45 :: join_with [45] (w' :: ws)).
    rewrite split_by_sep by done. rewrite filter_cons_True by done. by rewrite IH.
Qed.

(** The phrase shown for a manual secret decodes back to that
    secret; a ticket secret has no phrase. *)
Theorem phrase_roundtrip secret :
  secret_wf secret →
  match to_phrase secret with
  | Some phrase => from_phrase phrase = Some secret
  | None => ticket_bytes secret = Some (as_bytes secret)
  end.
Proof.
  destruct secret as [b|b]; simpl; [done|]. intros Hl.
  apply from_phrase_spec. exists b. split_and!; [done..|].
  rewrite phrase_words_join.
  - apply Forall2_same_length_lookup. split; [done|]. intros i x y Hx Hy.
    simplify_eq. by apply bool_decide_eq_true.
  - apply Forall_lookup. intros i w Hw. rewrite list_lookup_imap in Hw.
    apply fmap_Some in Hw as (x & _ & ->). apply word_at_clean.
Qed.

Lemma phrase_roundtrip_witness :
  secret_wf (Manual [Byte.x00; Byte.x01; Byte.xff; Byte.xfe; Byte.x10; Byte.x20]) ∧
  match to_phrase (Manual [Byte.x00; Byte.x01; Byte.xff; Byte.xfe; Byte.x10; Byte.x20]) with
  | Some phrase =>
      from_phrase phrase = Some (Manual [Byte.x00; Byte.x01; Byte.xff; Byte.xfe; Byte.x10; Byte.x20])
  | None => False
  end.
Proof.
  split; [reflexivity|].
  apply (phrase_roundtrip (Manual [Byte.x00; Byte.x01; Byte.xff; Byte.xfe; Byte.x10; Byte.x20])).
  reflexivity.
Defined.

End Secret.

(** ** Key derivation *)
Module Derive.
Import Secret.
Section WithCrypto.
Context `{CryptoPrims}.

Definition HKDF_INFO : bytes := str_bytes "portty-pairing-v1".
Definition RESUMPTION_TOKEN_LABEL : bytes := str_bytes "portty-resumption-token-v1".
Definition FIRST_PAIR_KEY_LABEL : bytes := str_bytes "portty-first-pair-key-v1".
Definition PAIR_SAS_LABEL : bytes := str_bytes "portty-pair-sas-v1".
Definition PAIR_VERIFICATION_CODE_DIGITS : nat := 6.

(** [ecdh_shared]: a shared secret the peer alone determined is refused. *)
Definition ecdh_shared (secret : EphemeralSecret) (peer_public : bytes) : SyncResult bytes :=
  let shared := x25519_dh secret peer_public in
  if was_contributory shared then Ok shared else Err (ECrypto NonContributoryEcdh).

(** [proof_from_key]: the HMAC over nonce and transcript. *)
Definition proof_from_key (key nonce transcript : bytes) : SyncResult bytes :=
  if hmac_key_ok key then Ok (hmac_sha256 key (nonce ++ transcript))
  else Err (ECrypto HmacLength).

(** [derive_session_from_key]: HKDF salted with the key over nonce and ECDH. *)
Definition derive_session_from_key (key nonce ecdh : bytes) : SyncResult bytes :=
  ok_or (hkdf_sha256 (Some key) (nonce ++ ecdh) HKDF_INFO) (ECrypto Kdf).

(** [verify_proof_with_key]. *)
Definition verify_proof_with_key (key nonce transcript claimed : bytes) : SyncResult unit :=
  expected ← proof_from_key key nonce transcript;
  if decide (expected = claimed) then Ok tt else Err (ECrypto WrongPinErr).

(** [first_pair_key]: HMAC under the fixed label. [expect] never fires, HMAC
    taking a key of any length. *)
Definition first_pair_key (secret : PairingSecret) : bytes :=
  hmac_sha256 FIRST_PAIR_KEY_LABEL (as_bytes secret).

(** [derive_subkey]: a labelled, unsalted HKDF of the session secret. *)
Definition derive_subkey (session label : bytes) : SyncResult bytes :=
  ok_or (hkdf_sha256 None session label) (ECrypto Kdf).

Definition derive_resumption_token (session : bytes) : SyncResult bytes :=
  derive_subkey session RESUMPTION_TOKEN_LABEL.

(** Decimal digits of [v], the [n] least significant, most significant first:
    [format!("{value:0width$}")] of a value below [10^n]. *)
Fixpoint decimal_digits (n : nat) (v : Z) : chars :=
  match n with
  | O => []
  | S n' => decimal_digits n' (v / 10) ++ [48 + v mod 10]
  end.

Definition pair_verification_code (session : bytes) : SyncResult chars :=
  key ← derive_subkey session PAIR_SAS_LABEL;
  let value := be_value (take 8 key) mod 10 ^ Z.of_nat PAIR_VERIFICATION_CODE_DIGITS in
  Ok (decimal_digits PAIR_VERIFICATION_CODE_DIGITS value).

(** A proof verifies under a key exactly when it is that key's HMAC. *)
Lemma verify_proof_ok `{!CryptoLaws _} key nonce transcript claimed :
  is_ok (verify_proof_with_key key nonce transcript claimed) = true ↔
  claimed = hmac_sha256 key (nonce ++ transcript).
Proof.
  unfold verify_proof_with_key, proof_from_key. rewrite hmac_any_key. simpl.
  case_decide; simpl; split; congruence.
Qed.

Lemma proof_from_key_ok `{!CryptoLaws _} key nonce transcript :
  proof_from_key key nonce transcript = Ok (hmac_sha256 key (nonce ++ transcript)).
Proof. unfold proof_from_key. by rewrite hmac_any_key. Qed.

Lemma derive_session_ok `{!CryptoLaws _} key nonce ecdh :
  ∃ s, derive_session_from_key key nonce ecdh = Ok s ∧ length s = 32%nat.
Proof.
  unfold derive_session_from_key.
  destruct (hkdf_total (Some key) (nonce ++ ecdh) HKDF_INFO) as (s & -> & ?). by exists s.
Qed.

Lemma derive_subkey_ok `{!CryptoLaws _} session label :
  ∃ k, derive_subkey session label = Ok k ∧ length k = 32%nat.
Proof.
  unfold derive_subkey. destruct (hkdf_total None session label) as (k & -> & ?). by exists k.
Qed.

Lemma length_decimal_digits n v : length (decimal_digits n v) = n.
Proof.
  revert v. induction n as [|n IH]; intros v; simpl; [done|].
  rewrite length_app, IH. simpl. lia.
Qed.

Lemma decimal_digits_are_digits n v : Forall (λ c, 48 <= c <= 57) (decimal_digits n v).
Proof.
  revert v. induction n as [|n IH]; intros v; simpl; [constructor|].
  apply Forall_app. split; [apply IH|]. constructor; [|constructor].
  pose proof (Z.mod_pos_bound v 10 ltac:(lia)). lia.
Qed.

(** Reading decimal digits back. *)
Definition decimal_value (cs : chars) : Z := foldl (λ acc c, 10 * acc + (c - 48)) 0 cs.

Lemma decimal_value_digits n v : decimal_value (decimal_digits n v) = v mod 10 ^ Z.of_nat n.
Proof.
  revert v. induction n as [|n IH]; intros v; simpl decimal_digits.
  - simpl. by rewrite Z.mod_1_r.
  - unfold decimal_value in *. rewrite foldl_app, IH. simpl.
    rewrite Nat2Z.inj_succ, Z.pow_succ_r by lia.
    pose proof (Z.pow_pos_nonneg 10 (Z.of_nat n) ltac:(lia) ltac:(lia)).
    rewrite (Z.rem_mul_r v 10) by lia. lia.
Qed.

(** The comparison code always exists, is exactly six ASCII
    digits, and those digits are the first eight bytes of the session's
    labelled subkey, big-endian, modulo one million. *)
Theorem pair_verification_code_spec `{!CryptoLaws _} session :
  ∃ key code,
    derive_subkey session PAIR_SAS_LABEL = Ok key ∧
    pair_verification_code session = Ok code ∧
    length code = 6%nat ∧
    Forall (λ c, 48 <= c <= 57) code ∧
    decimal_value code = be_value (take 8 key) mod 1000000.
Proof.
  destruct (derive_subkey_ok session PAIR_SAS_LABEL) as (key & Hk & _).
  exists key. eexists. split; [done|]. split.
  { unfold pair_verification_code. rewrite Hk. done. }
  split_and!; [apply length_decimal_digits|apply decimal_digits_are_digits|].
  rewrite decimal_value_digits. simpl. by rewrite Zmod_mod.
Qed.

End WithCrypto.
End Derive.

(** ** Rate limiting of failed pairings *)
Module RateLimit.

Record PairingRateLimiter := { failures : Z; last_attempt : option Z }.

(** [Default]: no failures, no attempt. *)
Definition limiter_default : PairingRateLimiter := {| failures := 0; last_attempt := None |}.

Definition current_wait (rl : PairingRateLimiter) : Z :=
  if failures rl =? 0 then 0
  else Z.min (secs (Z.shiftl 1 (Z.min (failures rl - 1) 10))) (secs 600).

Definition check (now : Z) (rl : PairingRateLimiter) : SyncResult unit :=
  match last_attempt rl with
  | None => Ok tt
  | Some last =>
      if elapsed now last <? current_wait rl then Err (ECrypto RateLimitedErr) else Ok tt
  end.

Definition record_failure (now : Z) (rl : PairingRateLimiter) : PairingRateLimiter :=
  {| failures := saturating_add u32_max (failures rl) 1; last_attempt := Some now |}.

Definition record_success (rl : PairingRateLimiter) : PairingRateLimiter :=
  {| failures := 0; last_attempt := None |}.

(** [check_and_reserve]: the check reads the clock at [t_check], the
    reservation at [t_stamp]. *)
Definition check_and_reserve (t_check t_stamp : Z) (rl : PairingRateLimiter)
    : SyncResult unit * PairingRateLimiter :=
  match check t_check rl with
  | Err e => (Err e, rl)
  | Ok _ =>
      (Ok tt, {| failures := saturating_add u32_max (failures rl) 1;
                 last_attempt := Some t_stamp |})
  end.

Definition is_cold (now : Z) (rl : PairingRateLimiter) : bool :=
  match last_attempt rl with
  | None => true
  | Some t => secs 1200 <? elapsed now t
  end.

(** [KeyedPairingRateLimiter]. *)
Abbreviation KeyedLimiter := (gmap string PairingRateLimiter).

(** [gc_cold]; one clock reading for the sweep. *)
Definition gc_cold (now : Z) (m : KeyedLimiter) : KeyedLimiter :=
  filter (λ kv, is_cold now kv.2 = false) m.

Record ReserveClock := { t_gc : Z; t_check : Z; t_stamp : Z }.

Definition keyed_check_and_reserve (c : ReserveClock) (key : string) (m : KeyedLimiter)
    : SyncResult unit * KeyedLimiter :=
  let m1 := gc_cold (t_gc c) m in
  let '(r, rl) := check_and_reserve (t_check c) (t_stamp c)
                    (default limiter_default (m1 !! key)) in
  (r, <[key := rl]> m1).

Definition keyed_record_success (key : string) (m : KeyedLimiter) : KeyedLimiter :=
  delete key m.

(** *** What one source can obtain *)

(** The limiter an attempt by [key] is judged against. *)
Definition effective (now : Z) (key : string) (m : KeyedLimiter) : PairingRateLimiter :=
  default limiter_default (gc_cold now m !! key).

Lemma gc_cold_lookup now (m : KeyedLimiter) key :
  gc_cold now m !! key
  = match m !! key with
    | Some rl => if is_cold now rl then None else Some rl
    | None => None
    end.
Proof.
  unfold gc_cold. destruct (m !! key) as [rl|] eqn:E.
  - destruct (is_cold now rl) eqn:Ec.
    + apply map_lookup_filter_None. right. intros rl' Hrl'. simplify_eq. simpl. by rewrite Ec.
    + by apply map_lookup_filter_Some.
  - apply map_lookup_filter_None. by left.
Qed.

Lemma keyed_reserve_lookup c key m r m' :
  keyed_check_and_reserve c key m = (r, m') →
  m' !! key = Some (if is_ok r then
      {| failures := saturating_add u32_max (failures (effective (t_gc c) key m)) 1;
         last_attempt := Some (t_stamp c) |}
      else effective (t_gc c) key m).
Proof.
  unfold keyed_check_and_reserve, check_and_reserve, effective.
  destruct (check _ _); intros [= <- <-]; by rewrite lookup_insert_eq.
Qed.

(** A run of the shared limiter along one timeline, with the times at which the
    attempts of [key] that it admitted were reserved, none of them followed by a
    success. In between come any attempts of [key] that it refused, and any attempts
    and successes of other sources. *)
Definition clock_after (now : Z) (c : ReserveClock) : Prop :=
  now <= t_gc c ∧ t_gc c <= t_check c ∧ t_check c <= t_stamp c.

Inductive admitted_run (key : string) : Z → KeyedLimiter → list Z → Prop :=
| AR_nil now m : admitted_run key now m []
| AR_attempt now m c m' ts :
    clock_after now c →
    keyed_check_and_reserve c key m = (Ok tt, m') →
    admitted_run key (t_stamp c) m' ts →
    admitted_run key now m (t_stamp c :: ts)
| AR_other now m c key' r m' ts :
    key' ≠ key ∨ is_ok r = false → clock_after now c →
    keyed_check_and_reserve c key' m = (r, m') →
    admitted_run key (t_stamp c) m' ts →
    admitted_run key now m ts
| AR_success now m key' ts :
    key' ≠ key → admitted_run key now (keyed_record_success key' m) ts →
    admitted_run key now m ts.

Definition limiter_wf (m : KeyedLimiter) : Prop :=
  map_Forall (λ _ rl, 0 <= failures rl) m.

Lemma effective_wf now key m : limiter_wf m → 0 <= failures (effective now key m).
Proof.
  intros Hwf. unfold effective. rewrite gc_cold_lookup.
  destruct (m !! key) as [rl|] eqn:E; simpl; [|done].
  destruct (is_cold now rl); simpl; [done|]. by apply (Hwf key).
Qed.

(** An attempt of another source, or one that is refused, leaves what is kept of
    [key] as the sweep left it. *)
Lemma keyed_reserve_other c key key' m r m' :
  keyed_check_and_reserve c key' m = (r, m') → key' ≠ key ∨ is_ok r = false →
  m' !! key = gc_cold (t_gc c) m !! key.
Proof.
  intros Hres Hor. destruct (decide (key' = key)) as [->|Hne].
  - destruct Hor as [?|Hr]; [done|]. pose proof (keyed_reserve_lookup _ _ _ _ _ Hres) as Hm'. rewrite Hr in Hm'.
    rewrite Hm'. unfold keyed_check_and_reserve, effective in *.
    destruct (gc_cold (t_gc c) m !! key) as [rl|]; [done|]. simpl in *. by injection Hres as <- <-.
  - unfold keyed_check_and_reserve in Hres. destruct (check_and_reserve _ _ _). injection Hres as <- <-.
    by rewrite lookup_insert_ne.
Qed.

Lemma keyed_reserve_wf c key m r m' :
  keyed_check_and_reserve c key m = (r, m') → limiter_wf m → limiter_wf m'.
Proof.
  intros Hr Hwf. pose proof (effective_wf (t_gc c) key m Hwf) as He.
  unfold keyed_check_and_reserve, effective in *.
  destruct (check_and_reserve _ _ _) as [r0 rl] eqn:Ec. injection Hr as <- <-.
  apply map_Forall_insert_2.
  - unfold check_and_reserve in Ec. destruct (check _ _); injection Ec as <- <-; [simpl|done].
    unfold saturating_add, u32_max. lia.
  - intros k x Hx. rewrite gc_cold_lookup in Hx. destruct (m !! k) as [y|] eqn:Ek; [|done].
    destruct (is_cold _ y); [done|]. injection Hx as <-. by apply (Hwf k).
Qed.

(** The wait owed after [f] failures, in a form that shows it is monotone. *)
Lemma current_wait_mono f g la lb :
  0 <= f <= g →
  0 <= current_wait {| failures := f; last_attempt := la |}
    <= current_wait {| failures := g; last_attempt := lb |}.
Proof.
  intros Hfg. unfold current_wait, secs; simpl.
  destruct (f =? 0) eqn:Ef; destruct (g =? 0) eqn:Eg;
    rewrite ?Z.eqb_eq, ?Z.eqb_neq in *; try lia; rewrite !Z.shiftl_1_l.
  - pose proof (Z.pow_nonneg 2 (Z.min (g - 1) 10) ltac:(lia)). lia.
  - pose proof (Z.pow_nonneg 2 (Z.min (f - 1) 10) ltac:(lia)).
    pose proof (Z.pow_le_mono_r 2 (Z.min (f - 1) 10) (Z.min (g - 1) 10) ltac:(lia) ltac:(lia)).
    lia.
Qed.

(** The waits owed by [k] further attempts after [f] failures. *)
Fixpoint owed (f : Z) (k : nat) : Z :=
  match k with
  | O => 0
  | S k' => current_wait {| failures := f; last_attempt := None |}
            + owed (saturating_add u32_max f 1) k'
  end.

Lemma owed_mono f g k : 0 <= f <= g → 0 <= owed f k <= owed g k.
Proof.
  revert f g. induction k as [|k IH]; intros f g Hfg; simpl; [lia|].
  pose proof (current_wait_mono f g None None Hfg).
  assert (0 <= saturating_add u32_max f 1 <= saturating_add u32_max g 1) as Hs
    by (unfold saturating_add, u32_max; lia).
  pose proof (IH _ _ Hs). lia.
Qed.

Lemma admitted_run_times key now m ts k b :
  admitted_run key now m ts → ts !! k = Some b → now <= b.
Proof.
  intros Hrun. revert k. induction Hrun; intros k Hk; unfold clock_after in *; [done| | |].
  - destruct k as [|k]; simplify_eq/=; [lia|]. specialize (IHHrun k Hk). lia.
  - specialize (IHHrun k Hk). lia.
  - by eapply IHHrun.
Qed.

(** Either the entry is still there with its failures, or the source has been
    silent long enough (1200 s after [a]) to be forgotten. *)
Definition tracked (key : string) (now a d f : Z) (m : KeyedLimiter) : Prop :=
  (∃ a0, m !! key = Some {| failures := f; last_attempt := Some a0 |} ∧ a + d <= a0 <= now)
  ∨ a + secs 1200 <= now.

Lemma gc_tracked key now t a d f m m1 :
  now <= t → 0 <= d → tracked key now a d f m →
  gc_cold t m !! key = m1 !! key → tracked key t a d f m1.
Proof.
  intros Hnow Hd [(a0 & Hm & Ha)|Hlate] Hm1; [|right; lia].
  rewrite gc_cold_lookup, Hm in Hm1. unfold is_cold, elapsed in Hm1. simpl in Hm1.
  destruct (_ <? _) eqn:Ec.
  - right. apply Z.ltb_lt in Ec. unfold secs in *. lia.
  - left. exists a0. split; [done|lia].
Qed.

Lemma admitted_wait c key m m' f a0 :
  gc_cold (t_gc c) m !! key = Some {| failures := f; last_attempt := Some a0 |} →
  keyed_check_and_reserve c key m = (Ok tt, m') →
  a0 + current_wait {| failures := f; last_attempt := None |} <= Z.max a0 (t_check c).
Proof.
  intros Hgc. unfold keyed_check_and_reserve. rewrite Hgc. simpl.
  unfold check_and_reserve, check; simpl.
  destruct (_ <? _) eqn:Ec; [done|]. intros _. apply Z.ltb_ge in Ec.
  unfold elapsed in Ec. unfold current_wait in *; simpl in *. lia.
Qed.

Lemma admitted_run_owed key now m ts :
  admitted_run key now m ts →
  ∀ k b a d f, ts !! k = Some b → 0 <= d → 0 <= f → tracked key now a d f m →
  a + Z.min (secs 1200) (d + owed f (S k)) <= b.
Proof.
  induction 1 as [|now m c m' ts Hclk Hres Hrun IH|now m c key' r m' ts Hne Hclk Hres Hrun IH
    |now m key' ts Hne Hrun IH]; intros k b a d f Hk Hd Hf Htr; [done| | |].
  - destruct Hclk as (Hc1 & Hc2 & Hc3).
    assert (Hrest : ∀ b', (t_stamp c :: ts) !! k = Some b' → t_stamp c <= b').
    { intros b' Hb'. destruct k; simplify_eq/=; [lia|]. by eapply admitted_run_times. }
    pose proof (Hrest b Hk) as Hb.
    pose proof (gc_tracked key now (t_gc c) a d f m (gc_cold (t_gc c) m)
                  ltac:(lia) Hd Htr eq_refl) as [(a0 & Hm & Ha)|Hlate]; [|lia].
    pose proof (keyed_reserve_lookup _ _ _ _ _ Hres) as Hm'. simpl in Hm'.
    unfold effective in Hm'. rewrite Hm in Hm'. simpl in Hm'.
    pose proof (admitted_wait _ _ _ _ _ _ Hm Hres) as Hwait.
    pose proof (current_wait_mono f f None None ltac:(lia)) as Hw0.
    destruct k as [|k]; simplify_eq/=; [lia|].
    specialize (IH k b a (d + current_wait {| failures := f; last_attempt := None |})
                  (saturating_add u32_max f 1) Hk ltac:(lia)
                  ltac:(unfold saturating_add, u32_max; lia)).
    rewrite <-Z.add_assoc in IH. apply IH. left. exists (t_stamp c). split; [done|lia].
  - destruct Hclk as (Hc1 & Hc2 & Hc3). apply (IH k b a d f Hk Hd Hf).
    pose proof (eq_sym (keyed_reserve_other _ _ _ _ _ _ Hres Hne)) as Hsame.
    pose proof (gc_tracked key now (t_gc c) a d f m m' ltac:(lia) Hd Htr Hsame)
      as [(a0 & Hm & Ha)|Hlate]; [left; exists a0; split; [done|lia]|right; lia].
  - apply (IH k b a d f Hk Hd Hf). destruct Htr as [(a0 & Hm & Ha)|Hlate]; [left|by right].
    exists a0. split; [|done]. unfold keyed_record_success. by rewrite lookup_delete_ne.
Qed.

(** The eleven waits after any admitted attempt exceed the forgetting time. *)
Lemma owed_eleven f : 1 <= f → secs 1200 <= owed f 11.
Proof.
  intros Hf. pose proof (owed_mono 1 f 11 ltac:(lia)) as [_ H].
  assert (owed 1 11 = secs 1623) as E by (vm_compute; reflexivity).
  rewrite E in H. unfold secs in *. lia.
Qed.

Lemma admitted_run_gap key now m ts i a b :
  admitted_run key now m ts → limiter_wf m →
  ts !! i = Some a → ts !! (i + 11)%nat = Some b → a + secs 1200 <= b.
Proof.
  intros Hrun. revert i.
  induction Hrun as [|now m c m' ts Hclk Hres Hrun IH|now m c key' r m' ts Hne Hclk Hres Hrun IH
    |now m key' ts Hne Hrun IH]; intros i Hwf Ha Hb; [done| | |].
  - pose proof (keyed_reserve_wf _ _ _ _ _ Hres Hwf) as Hwf'.
    destruct i as [|i]; simplify_eq/=; [|by eapply IH].
    pose proof (keyed_reserve_lookup _ _ _ _ _ Hres) as Hm'. simpl in Hm'.
    set (f := saturating_add u32_max (failures (effective (t_gc c) key m)) 1) in *.
    pose proof (effective_wf (t_gc c) key m Hwf).
    assert (1 <= f) as Hf by (unfold f, saturating_add, u32_max; lia).
    pose proof (admitted_run_owed _ _ _ _ Hrun 10 b (t_stamp c) 0 f Hb ltac:(lia) ltac:(lia)) as H'.
    pose proof (owed_eleven f Hf). rewrite Z.min_l in H' by lia. apply H'.
    left. exists (t_stamp c). split; [done|lia].
  - eapply IH; eauto using keyed_reserve_wf.
  - eapply IH; eauto. by apply map_Forall_delete.
Qed.

(** C21 (bounds). From a fresh limiter, however the attempts and successes of other sources and
    refused attempts of the same one are interleaved, any twelve attempts of one
    source that are admitted in a row without a success span at least twenty minutes:
    the eleven backoff waits between them add up to more than the twenty minutes of
    silence after which an entry is forgotten. *)
Theorem rate_limit_bound key now ts i a b :
  admitted_run key now ∅ ts →
  ts !! i = Some a → ts !! (i + 11)%nat = Some b →
  secs 1200 <= b - a.
Proof.
  intros Hrun Ha Hb.
  pose proof (admitted_run_gap key now ∅ ts i a b Hrun (map_Forall_empty _) Ha Hb). lia.
Qed.

(** Attempts of one source replayed at given times, each with a single clock
    reading; the times of those that were admitted. *)
Fixpoint replay (key : string) (now : Z) (m : KeyedLimiter) (ts : list Z) : option (list Z) :=
  match ts with
  | [] => Some []
  | t :: ts' =>
      let '(r, m') := keyed_check_and_reserve {| t_gc := t; t_check := t; t_stamp := t |} key m in
      if now <=? t then
        admitted ← replay key t m' ts'; Some (if is_ok r then t :: admitted else admitted)
      else None
  end.

Lemma replay_run key now m ts admitted : replay key now m ts = Some admitted → admitted_run key now m admitted.
Proof.
  revert now m admitted. induction ts as [|t ts IH]; intros now m admitted; [intros [= <-]; constructor|].
  cbn [replay]. destruct (keyed_check_and_reserve _ key m) as [r m'] eqn:E.
  destruct (Z.leb_spec now t) as [Hn|]; [|done]. intros (rest & Hrest & [= <-])%bind_Some.
  apply IH in Hrest. set (c := {| t_gc := t; t_check := t; t_stamp := t |}) in *.
  assert (clock_after now c) by (unfold clock_after, c; simpl; lia).
  destruct r as [[]|]; simpl; [by apply (AR_attempt key now m c m')|].
  eapply (AR_other key now m c key); [|done|exact E|done]; by right.
Qed.

(** Twelve attempts as early as the limiter admits them, with two that it refuses. *)
Definition eager_times : list Z :=
  secs <$> [0; 1; 2; 3; 7; 15; 31; 63; 127; 255; 511; 512; 1023; 1623].
Definition eager_admitted : list Z :=
  secs <$> [0; 1; 3; 7; 15; 31; 63; 127; 255; 511; 1023; 1623].

Lemma eager_run : admitted_run "peer" 0 ∅ eager_admitted.
Proof. apply (replay_run _ _ _ eager_times). vm_compute. reflexivity. Qed.

Lemma rate_limit_bound_witness :
  admitted_run "peer" 0 ∅ eager_admitted ∧ secs 1200 <= secs 1623 - secs 0.
Proof.
  split; [exact eager_run|].
  apply (rate_limit_bound "peer" 0 eager_admitted 0 (secs 0) (secs 1623));
    [exact eager_run|reflexivity|reflexivity].
Defined.

End RateLimit.

(** ** The enrollment window and the shared pairing state *)
Module Enrollment.
Import Secret.

Definition ENROLLMENT_WINDOW : Z := secs 300.
Definition GLOBAL_FIRST_PAIR_CAP : Z := 1024.

Inductive FirstPairGate :=
| Allow (epoch : Z)
| GateClosed
| Locked.

#[global] Instance FirstPairGate_eq_dec : EqDecision FirstPairGate.
Proof. solve_decision. Defined.

Record EnrollmentWindow := { open_until : option Z; global_failures : Z; epoch : Z }.

Definition window_new : EnrollmentWindow :=
  {| open_until := None; global_failures := 0; epoch := 0 |}.

Definition window_open (now dur : Z) (w : EnrollmentWindow) : EnrollmentWindow :=
  {| open_until := Some (now + dur);
     global_failures := 0;
     epoch := wrapping_add u64_max (epoch w) 1 |}.

Definition window_close (w : EnrollmentWindow) : EnrollmentWindow :=
  {| open_until := None;
     global_failures := 0;
     epoch := wrapping_add u64_max (epoch w) 1 |}.

Definition is_open (now : Z) (w : EnrollmentWindow) : bool :=
  match open_until w with
  | Some deadline => now <? deadline
  | None => false
  end.

Definition window_epoch (now : Z) (w : EnrollmentWindow) : option Z :=
  if is_open now w then Some (epoch w) else None.

Definition epoch_is_current (now e : Z) (w : EnrollmentWindow) : bool :=
  is_open now w && (epoch w =? e).

Definition check_and_reserve_first_pair (now : Z) (w : EnrollmentWindow)
    : FirstPairGate * EnrollmentWindow :=
  if negb (is_open now w) then (GateClosed, w)
  else if GLOBAL_FIRST_PAIR_CAP <=? global_failures w then (Locked, w)
  else (Allow (epoch w),
        {| open_until := open_until w;
           global_failures := saturating_add u32_max (global_failures w) 1;
           epoch := epoch w |}).

Definition window_consume (now e : Z) (w : EnrollmentWindow) : bool * EnrollmentWindow :=
  if negb (is_open now w) || negb (epoch w =? e) then (false, w)
  else (true, window_close w).

(** [PairingState]: credentials and window behind one lock. *)
Record PairingState := { secrets : list PairingSecret; window : EnrollmentWindow }.

Record PairingSnapshot := { snap_secrets : list PairingSecret; snap_epoch : option Z }.

Definition pairing_new (ss : list PairingSecret) : PairingState :=
  {| secrets := ss; window := window_new |}.

Definition pairing_open (now dur : Z) (s : PairingState) : PairingState :=
  {| secrets := secrets s; window := window_open now dur (window s) |}.

Definition rotate (now : Z) (ss : list PairingSecret) (dur : Z) (s : PairingState) : PairingState :=
  {| secrets := ss; window := window_open now dur (window s) |}.

Definition snapshot (now : Z) (s : PairingState) : PairingSnapshot :=
  {| snap_secrets := secrets s; snap_epoch := window_epoch now (window s) |}.

(** [gate_first_pair] reads the clock twice: for the generation check and for
    the reservation. *)
Definition gate_first_pair (t1 t2 : Z) (snapshot_epoch : option Z) (s : PairingState)
    : FirstPairGate * PairingState :=
  match snapshot_epoch with
  | Some e =>
      if epoch_is_current t1 e (window s) then
        let '(g, w) := check_and_reserve_first_pair t2 (window s) in
        (g, {| secrets := secrets s; window := w |})
      else (GateClosed, s)
  | None => (GateClosed, s)
  end.

Definition consume_first_pair (now e : Z) (s : PairingState) : bool * PairingState :=
  let '(b, w) := window_consume now e (window s) in
  (b, {| secrets := secrets s; window := w |}).

(** *** Interleavings

    Every access to the shared state takes its lock for one operation, so any
    execution of any number of connections and [portty pair] commands is a
    sequence of these operations. *)
Inductive PairOp :=
| OpOpen (now dur : Z)
| OpRotate (now : Z) (ss : list PairingSecret) (dur : Z)
| OpGate (t1 t2 : Z) (snap : option Z)
| OpConsume (now e : Z).

Inductive PairEvent :=
| EvNone
| EvGate (g : FirstPairGate)
| EvClaim (e : Z) (won : bool).

#[global] Instance PairEvent_eq_dec : EqDecision PairEvent.
Proof. solve_decision. Defined.

Definition apply_op (op : PairOp) (s : PairingState) : PairEvent * PairingState :=
  match op with
  | OpOpen now dur => (EvNone, pairing_open now dur s)
  | OpRotate now ss dur => (EvNone, rotate now ss dur s)
  | OpGate t1 t2 snap => let '(g, s') := gate_first_pair t1 t2 snap s in (EvGate g, s')
  | OpConsume now e => let '(b, s') := consume_first_pair now e s in (EvClaim e b, s')
  end.

Fixpoint run_ops (ops : list PairOp) (s : PairingState) : list PairEvent * PairingState :=
  match ops with
  | [] => ([], s)
  | op :: ops' =>
      let '(ev, s1) := apply_op op s in
      let '(evs, s2) := run_ops ops' s1 in
      (ev :: evs, s2)
  end.

Definition window_wf (w : EnrollmentWindow) : Prop :=
  0 <= epoch w <= u64_max ∧ 0 <= global_failures w <= GLOBAL_FIRST_PAIR_CAP.

(** How many openings or closings separate the current opportunity from [e]. *)
Definition distance (s : PairingState) (e : Z) : Z := (e - epoch (window s)) mod 2 ^ 64.

(** The events an opportunity [e] can cause. *)
Definition touches (e : Z) (ev : PairEvent) : Prop :=
  ev = EvGate (Allow e) ∨ ev = EvClaim e true.

(** One operation: either the opportunity stays the same, and then the
    credentials do too, or it is the next one, with no attempts counted. *)
Lemma apply_op_cases op s ev s' :
  apply_op op s = (ev, s') → window_wf (window s) →
  (epoch (window s') = epoch (window s) ∧ secrets s' = secrets s ∧
     ((ev = EvGate (Allow (epoch (window s))) ∧
       global_failures (window s') = global_failures (window s) + 1) ∨
      (global_failures (window s') = global_failures (window s) ∧ ∀ e, ¬ touches e ev)) ∧
     0 <= global_failures (window s') <= GLOBAL_FIRST_PAIR_CAP) ∨
  (epoch (window s') = wrapping_add u64_max (epoch (window s)) 1 ∧
     global_failures (window s') = 0 ∧
     (ev = EvClaim (epoch (window s)) true ∨ ∀ e, ¬ touches e ev)).
Proof.
  unfold touches. intros Hop [He Hg]. destruct op as [now dur|now ss dur|t1 t2 snap|now e]; simpl in Hop.
  - injection Hop as <- <-. right. split_and!; [done..|]. right. naive_solver.
  - injection Hop as <- <-. right. split_and!; [done..|]. right. naive_solver.
  - left. unfold gate_first_pair, check_and_reserve_first_pair, saturating_add,
      GLOBAL_FIRST_PAIR_CAP, u32_max in *.
    repeat (split_match_in Hop; simplify_eq/=; try lia); split_and!; try done; try lia;
      rewrite ?Z.leb_gt in *; first [left; split; [done|lia] | right; naive_solver | lia].
  - unfold consume_first_pair, window_consume in Hop.
    destruct (_ || _) eqn:Ec; simplify_eq/=.
    + left. split_and!; [done..| |lia|lia]. right. naive_solver.
    + apply orb_false_iff in Ec as [_ Ee%negb_false_iff]. apply Z.eqb_eq in Ee as ->.
      right. split_and!; [done..|]. by left.
Qed.

Lemma wrapping_epoch_range e : 0 <= wrapping_add u64_max e 1 <= u64_max.
Proof.
  unfold wrapping_add, u64_max. pose proof (Z.mod_pos_bound (e + 1) (2 ^ 64 - 1 + 1)). lia.
Qed.

Lemma apply_op_wf op s ev s' :
  apply_op op s = (ev, s') → window_wf (window s) → window_wf (window s').
Proof.
  intros Hop Hwf. pose proof Hwf as [He Hg]. unfold window_wf.
  destruct (apply_op_cases _ _ _ _ Hop Hwf) as [(-> & _ & _ & ?)|(-> & -> & _)]; [done|].
  split; [apply wrapping_epoch_range|done].
Qed.

Lemma distance_step s s' e :
  epoch (window s') = wrapping_add u64_max (epoch (window s)) 1 →
  distance s' e = (distance s e - 1) mod 2 ^ 64.
Proof.
  unfold distance. intros ->. unfold wrapping_add, u64_max.
  change (2 ^ 64 - 1 + 1) with (2 ^ 64).
  rewrite Zminus_mod_idemp_r, Zminus_mod_idemp_l. f_equal. lia.
Qed.

Lemma distance_self s e :
  window_wf (window s) → 0 <= e <= u64_max → distance s e = 0 ↔ e = epoch (window s).
Proof.
  unfold window_wf, u64_max, distance. intros [He _] Hr. split; [|intros ->; by rewrite Z.sub_diag].
  intros Hd. destruct (Z.lt_trichotomy e (epoch (window s))) as [H|[H|H]]; [|done|].
  - rewrite <-(Z.mod_unique (e - epoch (window s)) (2^64) (-1) (e - epoch (window s) + 2^64)) in Hd;
      lia.
  - rewrite Z.mod_small in Hd; lia.
Qed.

(** An opportunity that is further away than the operations left is never
    touched. *)
Lemma run_ops_untouched ops s evs s' e :
  run_ops ops s = (evs, s') → window_wf (window s) →
  Z.of_nat (length ops) < distance s e →
  ∀ ev, ev ∈ evs → ¬ touches e ev.
Proof.
  revert s evs. induction ops as [|op ops IH]; intros s evs Hrun Hwf Hd.
  { injection Hrun as <- <-. intros ev Hev. by apply not_elem_of_nil in Hev. }
  cbn [run_ops] in Hrun. destruct (apply_op op s) as [ev1 s1] eqn:Hop.
  destruct (run_ops ops s1) as [evs1 s2] eqn:Hr. injection Hrun as <- <-.
  simpl length in Hd.
  assert (Hne : e ≠ epoch (window s)).
  { intros ->. unfold distance in Hd. rewrite Z.sub_diag, Z.mod_0_l in Hd; lia. }
  pose proof (apply_op_wf _ _ _ _ Hop Hwf) as Hwf1.
  assert (Hd1 : Z.of_nat (length ops) < distance s1 e ∧ ¬ touches e ev1).
  { destruct (apply_op_cases _ _ _ _ Hop Hwf) as [(He & _ & Hev & _)|(He & _ & Hev)].
    - unfold distance in *. rewrite He. split; [lia|].
      destruct Hev as [[-> _]|[_ Hev]]; [|by apply Hev].
      intros [[=]|[=]]; congruence.
    - rewrite (distance_step _ _ _ He). split.
      + rewrite Z.mod_small; [lia|]. unfold distance in *.
        pose proof (Z.mod_pos_bound (e - epoch (window s)) (2 ^ 64) ltac:(lia)). lia.
      + destruct Hev as [->|Hev]; [|by apply Hev]. intros [[=]|[=]]; congruence. }
  destruct Hd1 as [Hd1 Hev1].
  intros ev [->|Hin]%elem_of_cons; [done|]. by apply (IH s1 evs1 Hr Hwf1 Hd1).
Qed.

(** The opportunity just left is the furthest away of all. *)
Lemma distance_past s s1 :
  epoch (window s1) = wrapping_add u64_max (epoch (window s)) 1 →
  distance s1 (epoch (window s)) = 2 ^ 64 - 1.
Proof.
  intros He. rewrite (distance_step _ _ _ He). unfold distance. by rewrite Z.sub_diag.
Qed.

(** After the opportunity [epoch s] ends it does not come back. *)
Lemma run_ops_past ops s s1 evs s' :
  epoch (window s1) = wrapping_add u64_max (epoch (window s)) 1 →
  run_ops ops s1 = (evs, s') → window_wf (window s) → window_wf (window s1) →
  Z.of_nat (length ops) < 2 ^ 64 - 1 →
  ∀ ev, ev ∈ evs → ¬ touches (epoch (window s)) ev.
Proof.
  intros He Hrun Hwf Hwf1 Hlen. apply (run_ops_untouched ops s1 evs s' _ Hrun Hwf1).
  by rewrite (distance_past _ _ He).
Qed.

Definition claims_won (e : Z) (evs : list PairEvent) : nat :=
  length (filter (λ ev, ev = EvClaim e true) evs).

Definition allowed (e : Z) (evs : list PairEvent) : nat :=
  length (filter (λ ev, ev = EvGate (Allow e)) evs).

Lemma filter_none {A} (P : A → Prop) `{∀ x, Decision (P x)} (l : list A) :
  (∀ x, x ∈ l → ¬ P x) → filter P l = [].
Proof.
  intros Hl. destruct (filter P l) as [|x l'] eqn:E; [done|].
  assert (x ∈ filter P l) as [? ?]%list_elem_of_filter by (rewrite E; left). naive_solver.
Qed.

Lemma untouched_counts e evs :
  (∀ ev, ev ∈ evs → ¬ touches e ev) → claims_won e evs = 0%nat ∧ allowed e evs = 0%nat.
Proof.
  unfold touches, claims_won, allowed. intros H.
  rewrite !filter_none; [done|..]; intros ev Hev ->; eapply H; eauto.
Qed.

Lemma run_ops_counts ops s evs s' e :
  run_ops ops s = (evs, s') → window_wf (window s) →
  Z.of_nat (length ops) < 2 ^ 64 → 0 <= e <= u64_max →
  (claims_won e evs <= 1)%nat ∧
  Z.of_nat (allowed e evs)
    <= GLOBAL_FIRST_PAIR_CAP - (if decide (e = epoch (window s)) then global_failures (window s) else 0).
Proof.
  revert s evs. induction ops as [|op ops IH]; intros s evs Hrun Hwf Hlen He.
  { injection Hrun as <- <-. unfold claims_won, allowed. simpl.
    destruct Hwf as [_ Hg]. case_decide; lia. }
  cbn [run_ops] in Hrun. destruct (apply_op op s) as [ev1 s1] eqn:Hop.
  destruct (run_ops ops s1) as [evs1 s2] eqn:Hr. injection Hrun as <- <-.
  simpl length in Hlen.
  pose proof (apply_op_wf _ _ _ _ Hop Hwf) as Hwf1.
  destruct (IH s1 evs1 Hr Hwf1 ltac:(lia) He) as [IHc IHa].
  destruct (apply_op_cases _ _ _ _ Hop Hwf) as [(Hep & _ & Hev & _)|(Hep & Hg0 & Hev)].
  - rewrite Hep in IHa. unfold claims_won, allowed in *.
    destruct Hev as [[-> Hg]|[Hg Hnt]].
    + rewrite (filter_cons_False _ (EvGate _)) by done. split; [done|].
      rewrite filter_cons. repeat case_decide; simplify_eq/=; lia.
    + rewrite !filter_cons_False by (intros ->; eapply Hnt; unfold touches; eauto).
      rewrite Hg in IHa. done.
  - destruct (decide (e = epoch (window s))) as [->|Hne].
    + pose proof (run_ops_past ops s s1 evs1 s2 Hep Hr Hwf Hwf1 ltac:(lia)) as Hpast.
      destruct (untouched_counts _ _ Hpast) as [Hc Ha]. destruct Hwf as [_ Hg].
      unfold claims_won, allowed in *. rewrite !filter_cons.
      destruct Hev as [->|Hnt]; repeat case_decide; simplify_eq/=; try lia;
        exfalso; apply (Hnt (epoch (window s))); unfold touches; eauto.
    + assert (Hnt : ¬ touches e ev1).
      { destruct Hev as [->|Hnt]; [|by apply Hnt]. intros [[=]|[=]]; congruence. }
      unfold claims_won, allowed in *.
      rewrite !filter_cons_False by (intros ->; apply Hnt; unfold touches; eauto).
      rewrite Hg0 in IHa. split; [done|]. destruct (decide _); lia.
Qed.

(** In any interleaving of fewer than 2^64 operations on the
    shared pairing state, by any number of connections and with any number of
    [portty pair] commands in between, one enrollment opportunity is claimed at
    most once: one window enrols one device. *)
Theorem enrollment_claimed_once ops s evs s' e :
  run_ops ops s = (evs, s') → window_wf (window s) →
  Z.of_nat (length ops) < 2 ^ 64 → 0 <= e <= u64_max →
  (claims_won e evs <= 1)%nat.
Proof. intros Hrun Hwf Hlen He. by destruct (run_ops_counts ops s evs s' e Hrun Hwf Hlen He). Qed.

(** Two devices gated under one opportunity; both try to claim it. *)
Definition race_ops : list PairOp :=
  [OpRotate 0 [Manual [Byte.x01]] (secs 300); OpGate 1 1 (Some 1); OpGate 2 2 (Some 1);
   OpConsume 3 1; OpConsume 4 1].

Lemma race_window_wf : window_wf (window (pairing_new [])).
Proof. unfold window_wf, u64_max, GLOBAL_FIRST_PAIR_CAP; simpl; lia. Qed.

Lemma enrollment_claimed_once_witness :
  fst (run_ops race_ops (pairing_new []))
    = [EvNone; EvGate (Allow 1); EvGate (Allow 1); EvClaim 1 true; EvClaim 1 false] ∧
  (claims_won 1 (fst (run_ops race_ops (pairing_new []))) <= 1)%nat.
Proof.
  split; [vm_compute; reflexivity|].
  apply (enrollment_claimed_once race_ops (pairing_new []) _
           (snd (run_ops race_ops (pairing_new []))));
    [vm_compute; reflexivity|exact race_window_wf|vm_compute; reflexivity
    |unfold u64_max; lia].
Defined.

(** Over the whole life of an enrollment opportunity at most
    [GLOBAL_FIRST_PAIR_CAP] first-pair attempts get past the gate, whoever
    makes them and however they are interleaved. *)
Theorem enrollment_attempts_capped ops s evs s' e :
  run_ops ops s = (evs, s') → window_wf (window s) →
  Z.of_nat (length ops) < 2 ^ 64 → 0 <= e <= u64_max →
  Z.of_nat (allowed e evs) <= GLOBAL_FIRST_PAIR_CAP.
Proof.
  intros Hrun Hwf Hlen He. destruct (run_ops_counts ops s evs s' e Hrun Hwf Hlen He) as [_ H].
  destruct Hwf as [_ Hg]. destruct (decide _); lia.
Qed.

(** One more attempt than the cap admits. *)
Definition spray_ops : list PairOp :=
  OpOpen 0 (secs 300) :: replicate 1025 (OpGate 1 1 (Some 1)).

Lemma enrollment_attempts_capped_witness :
  last (fst (run_ops spray_ops (pairing_new []))) = Some (EvGate Locked) ∧
  Z.of_nat (allowed 1 (fst (run_ops spray_ops (pairing_new [])))) <= GLOBAL_FIRST_PAIR_CAP.
Proof.
  split; [vm_compute; reflexivity|].
  apply (enrollment_attempts_capped spray_ops (pairing_new []) _
           (snd (run_ops spray_ops (pairing_new []))));
    [vm_compute; reflexivity|exact race_window_wf|vm_compute; reflexivity
    |unfold u64_max; lia].
Defined.

(** An opportunity further away than the operations left is not reached. *)
Lemma run_ops_not_reached ops s evs s' e :
  run_ops ops s = (evs, s') → window_wf (window s) →
  Z.of_nat (length ops) < distance s e → e ≠ epoch (window s').
Proof.
  revert s evs. induction ops as [|op ops IH]; intros s evs Hrun Hwf Hd.
  - injection Hrun as <- <-. intros ->. unfold distance in Hd.
    rewrite Z.sub_diag, Z.mod_0_l in Hd; simpl in Hd; lia.
  - cbn [run_ops] in Hrun. destruct (apply_op op s) as [ev1 s1] eqn:Hop.
    destruct (run_ops ops s1) as [evs1 s2] eqn:Hr. injection Hrun as <- <-.
    pose proof (apply_op_wf _ _ _ _ Hop Hwf) as Hwf1. simpl length in Hd.
    apply (IH s1 evs1 Hr Hwf1).
    destruct (apply_op_cases _ _ _ _ Hop Hwf) as [(He & _)|(He & _)].
    + unfold distance in *. rewrite He. lia.
    + rewrite (distance_step _ _ _ He). unfold distance in *.
      pose proof (Z.mod_pos_bound (e - epoch (window s)) (2 ^ 64) ltac:(lia)).
      rewrite Z.mod_small; lia.
Qed.

(** The credentials change only together with the opportunity. *)
Lemma run_ops_same_epoch ops s evs s' :
  run_ops ops s = (evs, s') → window_wf (window s) →
  Z.of_nat (length ops) < 2 ^ 64 - 1 → epoch (window s') = epoch (window s) →
  secrets s' = secrets s.
Proof.
  revert s evs. induction ops as [|op ops IH]; intros s evs Hrun Hwf Hlen Hep.
  { by injection Hrun as <- <-. }
  cbn [run_ops] in Hrun. destruct (apply_op op s) as [ev1 s1] eqn:Hop.
  destruct (run_ops ops s1) as [evs1 s2] eqn:Hr. injection Hrun as <- <-.
  simpl length in Hlen.
  pose proof (apply_op_wf _ _ _ _ Hop Hwf) as Hwf1.
  destruct (apply_op_cases _ _ _ _ Hop Hwf) as [(He & <- & _)|(He & _ & _)].
  - eapply IH; [done..|lia|congruence].
  - exfalso. apply (run_ops_not_reached ops s1 evs1 s2 (epoch (window s)) Hr Hwf1); [|done].
    rewrite (distance_past _ _ He). lia.
Qed.

(** Retired credentials cannot enrol. If a connection took a
    snapshot naming opportunity [e], and later, after any operations of anyone
    else, its claim of [e] succeeds or the gate lets it through, then the
    credentials in force are still exactly those of its snapshot: no
    [portty pair] replaced them in between. *)
Theorem retired_credentials_never_enrol ops s evs s' t e t1 t2 :
  run_ops ops s = (evs, s') → window_wf (window s) →
  Z.of_nat (length ops) < 2 ^ 64 - 1 →
  snap_epoch (snapshot t s) = Some e →
  fst (consume_first_pair t1 e s') = true ∨
  (∃ e', fst (gate_first_pair t1 t2 (Some e) s') = Allow e') →
  secrets s' = snap_secrets (snapshot t s).
Proof.
  intros Hrun Hwf Hlen Hsnap Hwon. simpl.
  apply (run_ops_same_epoch ops s evs s' Hrun Hwf Hlen).
  simpl in Hsnap. unfold window_epoch in Hsnap. destruct (is_open t (window s)); [|done].
  injection Hsnap as <-. destruct Hwon as [Hc|[e' Hg]].
  - unfold consume_first_pair, window_consume in Hc.
    destruct (_ || _) eqn:E; [done|]. apply orb_false_iff in E as [_ E%negb_false_iff].
    by apply Z.eqb_eq in E.
  - unfold gate_first_pair, epoch_is_current in Hg. destruct (_ && _) eqn:E; [|done].
    apply andb_true_iff in E as [_ E%Z.eqb_eq]. done.
Qed.

(** A snapshot before a failed claim by a stranger still enrols afterwards. *)
Definition quiet_state : PairingState :=
  pairing_open 0 (secs 300) (pairing_new [Manual [Byte.x01]]).

Lemma retired_credentials_never_enrol_witness :
  fst (consume_first_pair 5 1 (snd (run_ops [OpConsume 2 9; OpGate 3 3 (Some 1)] quiet_state))) = true ∧
  secrets (snd (run_ops [OpConsume 2 9; OpGate 3 3 (Some 1)] quiet_state))
    = snap_secrets (snapshot 1 quiet_state).
Proof.
  split; [vm_compute; reflexivity|].
  apply (retired_credentials_never_enrol [OpConsume 2 9; OpGate 3 3 (Some 1)] quiet_state
           (fst (run_ops [OpConsume 2 9; OpGate 3 3 (Some 1)] quiet_state)) _ 1 1 5 5);
    [vm_compute; reflexivity
    |unfold window_wf, u64_max, GLOBAL_FIRST_PAIR_CAP; vm_compute; intuition congruence
    |vm_compute; reflexivity|vm_compute; reflexivity|left; vm_compute; reflexivity].
Defined.

End Enrollment.
