(* ===== verification/Envelope.v ===== *)
(** * Envelope: the sealed application channel

    [crates/transport/src/crypto/envelope.rs] and [wire.rs]. XChaCha20-Poly1305
    is a parameter ([AeadPrims]); the two atomic counters of the cipher are its
    state, and an [open] is its two atomic accesses (the load that fixes the
    expected sequence, the compare-exchange that commits it) with the
    decryption in between, so that concurrent opens can be interleaved. *)

From S2P Require Import Prelude Errors Crypto Pairing.
Import Derive.

Module Envelope.
Section WithAead.
Context `{CryptoPrims} `{AeadPrims}.

Definition CLIENT_TO_SERVER_KEY_LABEL : bytes := str_bytes "portty-app-envelope-v2/client-to-server".
Definition SERVER_TO_CLIENT_KEY_LABEL : bytes := str_bytes "portty-app-envelope-v2/server-to-client".
Definition CLIENT_TO_SERVER_AAD : bytes := str_bytes "portty-envelope/client-to-server".
Definition SERVER_TO_CLIENT_AAD : bytes := str_bytes "portty-envelope/server-to-client".

Record SealedFrame := { nonce : bytes; ciphertext : bytes }.
#[export] Instance SealedFrame_eq_dec : EqDecision SealedFrame.
Proof. solve_decision. Defined.

Record EnvelopeCipher := {
  seal_key : bytes;
  open_key : bytes;
  seal_aad : bytes;
  open_aad : bytes;
  next_seal_sequence : Z;
  last_open_sequence : Z;
}.

Definition with_next (c : EnvelopeCipher) (n : Z) : EnvelopeCipher :=
  {| seal_key := seal_key c; open_key := open_key c; seal_aad := seal_aad c;
     open_aad := open_aad c; next_seal_sequence := n;
     last_open_sequence := last_open_sequence c |}.

Definition with_last (c : EnvelopeCipher) (l : Z) : EnvelopeCipher :=
  {| seal_key := seal_key c; open_key := open_key c; seal_aad := seal_aad c;
     open_aad := open_aad c; next_seal_sequence := next_seal_sequence c;
     last_open_sequence := l |}.

Definition from_session_labels (session seal_label open_label saad oaad : bytes)
    : SyncResult EnvelopeCipher :=
  sk ← derive_subkey session seal_label;
  ok ← derive_subkey session open_label;
  Ok {| seal_key := sk; open_key := ok; seal_aad := saad; open_aad := oaad;
        next_seal_sequence := 1; last_open_sequence := 0 |}.

Definition for_client (session : bytes) : SyncResult EnvelopeCipher :=
  from_session_labels session CLIENT_TO_SERVER_KEY_LABEL SERVER_TO_CLIENT_KEY_LABEL
    CLIENT_TO_SERVER_AAD SERVER_TO_CLIENT_AAD.

Definition for_server (session : bytes) : SyncResult EnvelopeCipher :=
  from_session_labels session SERVER_TO_CLIENT_KEY_LABEL CLIENT_TO_SERVER_KEY_LABEL
    SERVER_TO_CLIENT_AAD CLIENT_TO_SERVER_AAD.

Definition envelope_aad (direction : bytes) (sequence : Z) (caller_aad : bytes) : bytes :=
  direction ++ be_bytes 8 sequence ++ caller_aad.

(** [seal]: [rng] is the outcome of filling the 16 random nonce bytes. The
    sequence counter has advanced (and wrapped) before any check. *)
Definition seal (c : EnvelopeCipher) (rng : option bytes) (plaintext aad : bytes)
    : SyncResult SealedFrame * EnvelopeCipher :=
  let sequence := next_seal_sequence c in
  let c' := with_next c (wrapping_add u64_max sequence 1) in
  if sequence =? u64_max then (Err (ECrypto NonceExhausted), c')
  else
    match rng with
    | None => (Err (ECrypto Rng), c')
    | Some random =>
        let n := be_bytes 8 sequence ++ random in
        match aead_encrypt (seal_key c) n (envelope_aad (seal_aad c) sequence aad) plaintext with
        | None => (Err (ECrypto Decrypt), c')
        | Some ct => (Ok {| nonce := n; ciphertext := ct |}, c')
        end
    end.

(** A decrypted envelope waiting for its compare-exchange. *)
Record PendingOpen := { po_last : Z; po_sequence : Z; po_plaintext : bytes }.

(** [open] up to the compare-exchange, having loaded [last]. *)
Definition open_begin (c : EnvelopeCipher) (last : Z) (n ct aad : bytes) : SyncResult PendingOpen :=
  let sequence := be_value (take 8 n) in
  expected ← ok_or (checked_add u64_max last 1) (ECrypto NonceExhausted);
  if negb (sequence =? expected) then Err (ECrypto (Replay expected sequence))
  else
    match aead_decrypt (open_key c) n (envelope_aad (open_aad c) sequence aad) ct with
    | None => Err (ECrypto Decrypt)
    | Some plaintext =>
        Ok {| po_last := last; po_sequence := sequence; po_plaintext := plaintext |}
    end.

(** The compare-exchange, on the counter's value at that moment. *)
Definition open_commit (observed : Z) (p : PendingOpen) : SyncResult bytes * Z :=
  if observed =? po_last p then (Ok (po_plaintext p), po_sequence p)
  else (Err (ECrypto (Replay (saturating_add u64_max observed 1) (po_sequence p))), observed).

(** [open] with nobody else opening at the same time. *)
Definition open (c : EnvelopeCipher) (n ct aad : bytes) : SyncResult bytes * EnvelopeCipher :=
  match open_begin c (last_open_sequence c) n ct aad with
  | Err e => (Err e, c)
  | Ok p =>
      let '(r, l) := open_commit (last_open_sequence c) p in
      (r, with_last c l)
  end.

(** *** One direction of a session *)

(** The two ends of a session. *)
Definition matched (tx rx : EnvelopeCipher) : Prop :=
  seal_key tx = open_key rx ∧ seal_aad tx = open_aad rx.

Lemma session_ciphers `{!CryptoLaws _} session :
  ∃ client server,
    for_client session = Ok client ∧ for_server session = Ok server ∧
    matched client server ∧ matched server client ∧
    next_seal_sequence client = 1 ∧ next_seal_sequence server = 1 ∧
    last_open_sequence client = 0 ∧ last_open_sequence server = 0.
Proof.
  unfold for_client, for_server, from_session_labels, matched.
  destruct (derive_subkey_ok session CLIENT_TO_SERVER_KEY_LABEL) as (k1 & -> & _).
  destruct (derive_subkey_ok session SERVER_TO_CLIENT_KEY_LABEL) as (k2 & -> & _).
  simpl. do 2 eexists. split_and!; reflexivity.
Qed.

Lemma ok_fmap_inj (xs ys : list SealedFrame) :
  (Ok (E:=SyncError) <$> xs) = (Ok <$> ys) → xs = ys.
Proof. apply list_fmap_eq_inj. congruence. Qed.

(** A plaintext with the random bytes drawn when it was sealed. *)
Definition sealable (m : bytes * bytes) : Prop :=
  Z.of_nat (length m.1) < 2 ^ 38 ∧ length m.2 = 16%nat.

(** Sealing a run of messages. *)
Fixpoint seal_all (c : EnvelopeCipher) (ms : list (bytes * bytes)) (aad : bytes)
    : list (SyncResult SealedFrame) * EnvelopeCipher :=
  match ms with
  | [] => ([], c)
  | (m, random) :: ms' =>
      let '(r, c1) := seal c (Some random) m aad in
      let '(rs, c2) := seal_all c1 ms' aad in
      (r :: rs, c2)
  end.

(** Opening whatever arrives, one envelope after the other, refused ones
    skipped: the accepted plaintexts. *)
Fixpoint open_all (c : EnvelopeCipher) (fs : list SealedFrame) (aad : bytes)
    : list bytes * EnvelopeCipher :=
  match fs with
  | [] => ([], c)
  | f :: fs' =>
      let '(r, c1) := open c (nonce f) (ciphertext f) aad in
      let '(ps, c2) := open_all c1 fs' aad in
      (match r with Ok p => p :: ps | Err _ => ps end, c2)
  end.

(** What the frame of message number [seq] looks like. *)
Definition frame_of (tx : EnvelopeCipher) (seq : Z) (m : bytes * bytes) (aad : bytes)
    (f : SealedFrame) : Prop :=
  nonce f = be_bytes 8 seq ++ m.2 ∧
  aead_encrypt (seal_key tx) (nonce f) (envelope_aad (seal_aad tx) seq aad) m.1
    = Some (ciphertext f).

Lemma seal_spec `{!AeadLaws _} c m aad :
  sealable m → 0 <= next_seal_sequence c < u64_max →
  ∃ f, seal c (Some m.2) m.1 aad = (Ok f, with_next c (next_seal_sequence c + 1)) ∧
       frame_of c (next_seal_sequence c) m aad f.
Proof.
  intros [Hm Hr] Hseq. unfold seal, frame_of.
  rewrite (proj2 (Z.eqb_neq _ _)) by lia.
  set (n := be_bytes 8 (next_seal_sequence c) ++ m.2).
  set (a := envelope_aad (seal_aad c) (next_seal_sequence c) aad).
  destruct (aead_total (seal_key c) n a m.1 Hm) as [ct Hct]. rewrite Hct.
  exists {| nonce := n; ciphertext := ct |}. split; [|split; [done|exact Hct]].
  do 2 f_equal. unfold wrapping_add, u64_max in *. rewrite Z.mod_small; lia.
Qed.

Lemma seal_all_spec `{!AeadLaws _} c ms aad :
  Forall sealable ms → 0 <= next_seal_sequence c →
  next_seal_sequence c + Z.of_nat (length ms) <= u64_max →
  ∃ fs, (seal_all c ms aad).1 = Ok <$> fs ∧ length fs = length ms ∧
        ∀ i m f, ms !! i = Some m → fs !! i = Some f →
                 frame_of c (next_seal_sequence c + Z.of_nat i) m aad f.
Proof.
  revert c. induction ms as [|m ms IH]; intros c Hms Hseq Hlen.
  { exists []. done. }
  apply Forall_cons in Hms as [Hm Hms]. simpl length in Hlen.
  destruct m as [p r]. destruct (seal_spec c (p, r) aad Hm ltac:(lia)) as (f & Hf & Hfr).
  simpl in Hf. cbn [seal_all]. rewrite Hf.
  destruct (IH (with_next c (next_seal_sequence c + 1)) Hms) as (fs & Hfs & Hl & Hall);
    [simpl; lia..|].
  destruct (seal_all _ ms aad) as [rs c2]. simpl in Hfs. subst rs.
  exists (f :: fs). split_and!; [done|simpl; congruence|].
  intros [|i] m f' Hmi Hfi; simplify_eq/=.
  - by rewrite Z.add_0_r.
  - specialize (Hall i m f' Hmi Hfi). unfold frame_of in *. simpl in *.
    replace (next_seal_sequence c + Z.of_nat (S i))
      with (next_seal_sequence c + 1 + Z.of_nat i) by lia. done.
Qed.

Lemma take_nonce seq r : 0 <= seq <= u64_max → be_value (take 8 (be_bytes 8 seq ++ r)) = seq.
Proof.
  intros Hs. rewrite take_app_length' by (by rewrite length_be_bytes).
  rewrite be_value_bytes, Z.mod_small; [done|]. unfold u64_max in Hs. simpl. lia.
Qed.

(** The receiver's verdict on a genuine frame. *)
Lemma open_genuine `{!AeadLaws _} tx rx seq m aad f :
  matched tx rx → frame_of tx seq m aad f → 0 <= seq <= u64_max →
  0 <= last_open_sequence rx < u64_max →
  open rx (nonce f) (ciphertext f) aad
  = if decide (seq = last_open_sequence rx + 1)
    then (Ok m.1, with_last rx seq)
    else (Err (ECrypto (Replay (last_open_sequence rx + 1) seq)), rx).
Proof.
  intros [Hk Ha] [Hn Hc] Hs Hl. unfold open, open_begin.
  assert (be_value (take 8 (nonce f)) = seq) as -> by (rewrite Hn; by apply take_nonce).
  unfold checked_add. rewrite (proj2 (Z.leb_le _ _)) by lia. simpl.
  case_decide as Heq.
  - rewrite (proj2 (Z.eqb_eq _ _) Heq). simpl.
    rewrite <-Hk, <-Ha, (aead_roundtrip _ _ _ _ _ Hc).
    unfold open_commit. simpl. by rewrite Z.eqb_refl.
  - by rewrite (proj2 (Z.eqb_neq _ _) Heq).
Qed.

(** What the receiver's key authenticates, for the sequence number in the nonce. *)
Definition authentic (rx : EnvelopeCipher) (aad : bytes) (f : SealedFrame) : Prop :=
  is_Some (aead_decrypt (open_key rx) (nonce f)
    (envelope_aad (open_aad rx) (be_value (take 8 (nonce f))) aad) (ciphertext f)).

(** Integrity of ciphertexts (XChaCha20-Poly1305), for one run: an adversary delivers
    whatever it likes, but what authenticates is one of the frames that were sealed. *)
Definition unforged (rx : EnvelopeCipher) (aad : bytes) (sealed delivered : list SealedFrame) : Prop :=
  ∀ f, f ∈ delivered → authentic rx aad f → f ∈ sealed.

Lemma open_unauthentic rx aad f : ¬ authentic rx aad f → ∃ e, open rx (nonce f) (ciphertext f) aad = (Err e, rx).
Proof.
  intros Ha. unfold open, open_begin, authentic in *. destruct (checked_add u64_max _ 1) as [n|]; simpl; [|by eexists].
  destruct (negb _); simpl; [by eexists|]. destruct (aead_decrypt _ _ _ _) as [p|] eqn:Hd; [|by eexists].
  destruct Ha. by eexists.
Qed.

#[global] Instance authentic_dec rx aad f : Decision (authentic rx aad f).
Proof. unfold authentic. apply _. Defined.

Lemma open_all_prefix `{!AeadLaws _} tx rx base ms fs aad delivered :
  matched tx rx → length fs = length ms →
  (∀ i m f, ms !! i = Some m → fs !! i = Some f → frame_of tx (base + Z.of_nat i) m aad f) →
  0 < base → base + Z.of_nat (length ms) <= u64_max →
  unforged rx aad fs delivered →
  ∀ k, (k <= length ms)%nat → last_open_sequence rx = base - 1 + Z.of_nat k →
  ∃ n, (k + n <= length ms)%nat ∧
       (open_all rx delivered aad).1 = take n (drop k (fst <$> ms)).
Proof.
  intros Hmat Hlen Hall Hb Hmax. revert rx Hmat.
  induction delivered as [|f fs' IH]; intros rx Hmat Hdel k Hk Hlast.
  { exists 0%nat. rewrite take_0. split; [lia|done]. }
  assert (unforged rx aad fs fs') as Hdel' by (intros g Hg; apply Hdel; by right).
  destruct (decide (authentic rx aad f)) as [Hau|Hau]; cycle 1.
  { destruct (open_unauthentic rx aad f Hau) as [e He]. cbn [open_all]. rewrite He.
    destruct (IH rx Hmat Hdel' k Hk Hlast) as (n & Hn & Hps). destruct (open_all rx fs' aad) as [ps c2]. by exists n. }
  assert (f ∈ fs) as [i Hi]%list_elem_of_lookup by (apply Hdel; [by left|done]).
  pose proof (lookup_lt_Some _ _ _ Hi) as Hilt.
  destruct (lookup_lt_is_Some_2 ms i ltac:(lia)) as [m Hm].
  pose proof (open_genuine tx rx _ m aad f Hmat (Hall i m f Hm Hi) ltac:(lia)) as Ho.
  cbn [open_all]. rewrite Ho by (unfold u64_max in *; lia). case_decide as Heq.
  - assert (i = k) as -> by lia.
    destruct (IH (with_last rx (base + Z.of_nat k)) Hmat Hdel' (S k)) as (n & Hn & Hps);
      [lia|simpl; lia|].
    destruct (open_all _ fs' aad) as [ps c2]. simpl in Hps |- *. subst ps.
    exists (S n). split; [lia|].
    rewrite (drop_S (fst <$> ms) (fst m) k) by (by rewrite list_lookup_fmap, Hm). done.
  - destruct (IH rx Hmat Hdel' k Hk Hlast) as (n & Hn & Hps).
    destruct (open_all rx fs' aad) as [ps c2]. by exists n.
Qed.

Lemma fresh_delivers_prefix `{!AeadLaws _} tx rx ms aad delivered fs :
  matched tx rx → next_seal_sequence tx = 1 → last_open_sequence rx = 0 →
  Forall sealable ms → Z.of_nat (length ms) < u64_max →
  (seal_all tx ms aad).1 = Ok <$> fs → unforged rx aad fs delivered →
  (open_all rx delivered aad).1 `prefix_of` (fst <$> ms).
Proof.
  intros Hmat Hnext Hlast Hms Hlen Hseal Hdel.
  destruct (seal_all_spec tx ms aad Hms) as (fs' & Hfs' & Hl & Hall); [lia..|].
  rewrite Hseal in Hfs'. apply ok_fmap_inj in Hfs' as <-. rewrite Hnext in Hall.
  destruct (open_all_prefix tx rx 1 ms fs aad delivered Hmat Hl Hall) with (k := 0%nat)
    as (n & _ & ->); [lia|lia|done|lia|lia|].
  rewrite drop_0. apply prefix_take.
Qed.

(** C8 (safety). On a session's channel, in either direction, an adversary
    who may drop, duplicate, reorder, replay and invent frames at will - bytes
    it made up among them, as long as it forges none that authenticates - never
    gets the receiver to accept anything but a prefix of the plaintexts that
    were sealed, in their order and each once. *)
Theorem channel_delivers_prefix `{!CryptoLaws _} `{!AeadLaws _}
    session client server ms aad delivered fs (up : bool) :
  for_client session = Ok client → for_server session = Ok server →
  Forall sealable ms → Z.of_nat (length ms) < u64_max →
  (seal_all (if up then client else server) ms aad).1 = Ok <$> fs →
  unforged (if up then server else client) aad fs delivered →
  (open_all (if up then server else client) delivered aad).1 `prefix_of` (fst <$> ms).
Proof.
  intros Hc Hs Hms Hlen Hseal Hdel.
  destruct (session_ciphers session) as (c' & s' & Hc' & Hs' & M1 & M2 & N1 & N2 & L1 & L2).
  rewrite Hc in Hc'. rewrite Hs in Hs'. injection Hc' as <-. injection Hs' as <-.
  destruct up; eapply fresh_delivers_prefix; eauto.
Qed.

(** Delivered unharmed, every sealed plaintext is opened. *)
Theorem channel_roundtrip `{!CryptoLaws _} `{!AeadLaws _} session ms aad :
  Forall sealable ms → Z.of_nat (length ms) < u64_max →
  ∃ client server fs,
    for_client session = Ok client ∧ for_server session = Ok server ∧
    (seal_all client ms aad).1 = Ok <$> fs ∧
    (open_all server fs aad).1 = fst <$> ms.
Proof.
  intros Hms Hlen.
  destruct (session_ciphers session) as (tx & rx & Hc & Hs & Hmat & _ & Hnext & _ & _ & Hlast).
  destruct (seal_all_spec tx ms aad Hms) as (fs & Hfs & Hl & Hall); [lia..|].
  exists tx, rx, fs. split_and!; [done..|]. rewrite Hnext in Hall.
  clear Hfs Hnext Hc Hs Hms.
  enough (∀ k rx, last_open_sequence rx = Z.of_nat k → matched tx rx →
            (open_all rx (drop k fs) aad).1 = drop k (fst <$> ms)) as He.
  { specialize (He 0%nat rx Hlast Hmat). by rewrite !drop_0 in He. }
  clear rx Hmat Hlast. intros k rx. remember (length fs - k)%nat as d eqn:Hd.
  revert k rx Hd. induction d as [|d IH]; intros k rx Hd Hlast Hmat.
  - rewrite !drop_ge by (rewrite ?length_fmap; lia). done.
  - destruct (lookup_lt_is_Some_2 fs k ltac:(lia)) as [f Hf].
    destruct (lookup_lt_is_Some_2 ms k ltac:(lia)) as [m Hm].
    rewrite (drop_S fs f k) by done.
    rewrite (drop_S (fst <$> ms) (fst m) k) by (by rewrite list_lookup_fmap, Hm).
    cbn [open_all].
    rewrite (open_genuine tx rx _ m aad f Hmat (Hall k m f Hm Hf)) by lia.
    rewrite decide_True by lia.
    pose proof (IH (S k) (with_last rx (1 + Z.of_nat k)) ltac:(lia) ltac:(simpl; lia) Hmat) as IH'.
    destruct (open_all _ (drop (S k) fs) aad) as [ps c2]. simpl in *. by rewrite IH'.
Qed.

(** The nonces of a cipher's first 2^64 - 2 seals are pairwise
    distinct whatever the random source returns: the sequence number alone
    separates them. *)
Theorem seal_nonces_distinct `{!AeadLaws _} c ms aad fs i j f g :
  next_seal_sequence c = 1 → Forall sealable ms → Z.of_nat (length ms) < u64_max →
  (seal_all c ms aad).1 = Ok <$> fs →
  fs !! i = Some f → fs !! j = Some g → nonce f = nonce g → i = j.
Proof.
  intros Hnext Hms Hlen Hseal Hi Hj Heq.
  destruct (seal_all_spec c ms aad Hms) as (fs' & Hfs' & Hl & Hall); [lia..|].
  rewrite Hseal in Hfs'. apply ok_fmap_inj in Hfs' as <-. rewrite Hnext in Hall.
  pose proof (lookup_lt_Some _ _ _ Hi). pose proof (lookup_lt_Some _ _ _ Hj).
  destruct (lookup_lt_is_Some_2 ms i ltac:(lia)) as [m Hm].
  destruct (lookup_lt_is_Some_2 ms j ltac:(lia)) as [m' Hm'].
  destruct (Hall i m f Hm Hi) as [Hn _]. destruct (Hall j m' g Hm' Hj) as [Hn' _].
  apply (f_equal (λ n, be_value (take 8 n))) in Heq.
  rewrite Hn, Hn', !take_nonce in Heq; lia.
Qed.

(** *** Concurrent opens

    Any number of threads open on one cipher; each open is a [SBegin] (its
    load, check and decryption) and, if that succeeded, a later [SCommit]. *)
Inductive OpenStep :=
| SBegin (tid : nat) (n ct : bytes)
| SCommit (tid : nat).

Record OpenSystem := {
  os_last : Z;
  os_pending : gmap nat PendingOpen;
  os_delivered : list (Z * bytes);
}.

Definition open_system_step (c : EnvelopeCipher) (aad : bytes) (st : OpenSystem) (ev : OpenStep)
    : OpenSystem :=
  match ev with
  | SBegin tid n ct =>
      match open_begin c (os_last st) n ct aad with
      | Err _ => st
      | Ok p => {| os_last := os_last st; os_pending := <[tid := p]> (os_pending st);
                   os_delivered := os_delivered st |}
      end
  | SCommit tid =>
      match os_pending st !! tid with
      | None => st
      | Some p =>
          let '(r, l) := open_commit (os_last st) p in
          {| os_last := l; os_pending := delete tid (os_pending st);
             os_delivered := os_delivered st
                ++ match r with Ok m => [(po_sequence p, m)] | Err _ => [] end |}
      end
  end.

Definition open_system_run (c : EnvelopeCipher) (aad : bytes) (evs : list OpenStep)
    (st : OpenSystem) : OpenSystem :=
  foldl (open_system_step c aad) st evs.

Definition open_system_inv (l0 : Z) (st : OpenSystem) : Prop :=
  os_last st = l0 + Z.of_nat (length (os_delivered st)) ∧
  fst <$> os_delivered st = seqZ (l0 + 1) (Z.of_nat (length (os_delivered st))) ∧
  map_Forall (λ _ p, po_sequence p = po_last p + 1) (os_pending st).

Lemma open_begin_sequence c last n ct aad p :
  open_begin c last n ct aad = Ok p →
  po_sequence p = po_last p + 1 ∧ po_last p = last ∧ po_sequence p = be_value (take 8 n) ∧
  aead_decrypt (open_key c) n (envelope_aad (open_aad c) (po_sequence p) aad) ct
    = Some (po_plaintext p).
Proof.
  unfold open_begin, checked_add. destruct (_ <=? _); [|done]. simpl.
  destruct (_ =? _) eqn:E; [|done]. simpl. apply Z.eqb_eq in E.
  destruct (aead_decrypt _ _ _ _) eqn:Ed; [|done]. intros [= <-]. done.
Qed.

Lemma open_system_step_inv c aad l0 st ev :
  open_system_inv l0 st → open_system_inv l0 (open_system_step c aad st ev).
Proof.
  intros (Hl & Hd & Hp). destruct ev as [tid n ct|tid]; simpl.
  - destruct (open_begin _ _ _ _ _) as [p|] eqn:E; [|done].
    split_and!; [done..|]. apply map_Forall_insert_2; [|done].
    by apply open_begin_sequence in E as [? _].
  - destruct (os_pending st !! tid) as [p|] eqn:E; [|done].
    pose proof (Hp _ _ E) as Hseq. simpl in Hseq. unfold open_commit.
    destruct (_ =? _) eqn:Eo; unfold open_system_inv; simpl.
    + apply Z.eqb_eq in Eo. rewrite length_app. simpl.
      split_and!; [lia| |by apply map_Forall_delete].
      rewrite fmap_app, Hd. simpl. rewrite Nat2Z.inj_add, seqZ_app by lia. simpl.
      f_equal. rewrite (seqZ_cons (l0 + 1 + _)) by lia. simpl. f_equal. lia.
    + rewrite app_nil_r. split_and!; [done..|by apply map_Forall_delete].
Qed.

(** However many threads open envelopes on one cipher at the
    same time and however their steps interleave, the sequence numbers
    delivered are exactly the successors of the starting counter in increasing
    order, none twice: a replayed envelope is delivered by at most one of the
    racing opens. *)
Theorem concurrent_opens_deliver_once c aad evs l0 :
  let st := open_system_run c aad evs {| os_last := l0; os_pending := ∅; os_delivered := [] |} in
  fst <$> os_delivered st = seqZ (l0 + 1) (Z.of_nat (length (os_delivered st))) ∧
  os_last st = l0 + Z.of_nat (length (os_delivered st)).
Proof.
  enough (∀ st, open_system_inv l0 st → open_system_inv l0 (open_system_run c aad evs st)) as Hrun.
  { destruct (Hrun {| os_last := l0; os_pending := ∅; os_delivered := [] |}) as (? & ? & _); [|done].
    split_and!; simpl; [lia|done|apply map_Forall_empty]. }
  induction evs as [|ev evs IH]; intros st Hst; [done|].
  simpl. apply IH. by apply open_system_step_inv.
Qed.

(** *** What is and is not refused *)

(** An envelope that arrives alone is accepted exactly when
    it carries the next sequence number and decrypts under the direction's
    key with that direction, that number and the caller's data bound in;
    anything else is refused and leaves the replay counter where it was. *)
Theorem open_characterised c n ct aad :
  last_open_sequence c < u64_max →
  (∀ p c', open c n ct aad = (Ok p, c') ↔
     be_value (take 8 n) = last_open_sequence c + 1 ∧
     aead_decrypt (open_key c) n
       (envelope_aad (open_aad c) (last_open_sequence c + 1) aad) ct = Some p ∧
     c' = with_last c (last_open_sequence c + 1)) ∧
  (∀ e c', open c n ct aad = (Err e, c') → c' = c).
Proof.
  intros Hl. unfold open, open_begin, checked_add.
  rewrite (proj2 (Z.leb_le _ _)) by lia. simpl.
  destruct (Z.eqb_spec (be_value (take 8 n)) (last_open_sequence c + 1)) as [->|Hne]; simpl.
  - destruct (aead_decrypt _ _ _ _) as [p|]; simpl.
    + unfold open_commit; simpl. rewrite Z.eqb_refl. split; [|done]. intros p' c'. split.
      * by intros [= <- <-].
      * by intros (_ & [= <-] & ->).
    + split; [|by intros e c' [= _ <-]]. intros p c'. split; [done|by intros (_ & ? & _)].
  - split; [|by intros e c' [= _ <-]]. intros p c'. split; [done|by intros (? & _)].
Qed.

(** The exhaustion error is not sticky: the counter that reports
    [NonceExhausted] has already wrapped, so the very next seal succeeds with
    sequence 0, and the one after it repeats sequence 1. *)
Theorem seal_exhaustion_wraps `{!AeadLaws _} c m aad :
  next_seal_sequence c = u64_max → sealable m →
  (seal c (Some m.2) m.1 aad).1 = Err (ECrypto NonceExhausted) ∧
  ∃ f, (seal (seal c (Some m.2) m.1 aad).2 (Some m.2) m.1 aad).1 = Ok f ∧
       be_value (take 8 (nonce f)) = 0.
Proof.
  intros Hn Hm.
  assert (seal c (Some m.2) m.1 aad = (Err (ECrypto NonceExhausted), with_next c 0)) as ->.
  { unfold seal. by rewrite Hn, Z.eqb_refl. }
  split; [done|]. simpl snd.
  destruct (seal_spec (with_next c 0) m aad Hm) as (f & Hf & Hfr & _);
    [simpl; unfold u64_max; lia|].
  exists f. rewrite Hf. split; [done|]. rewrite Hfr. simpl.
  apply take_nonce. unfold u64_max. lia.
Qed.

End WithAead.

(** *** Concrete runs *)
Import Toy.

#[local] Transparent gmap_empty be_bytes be_value le_bytes le_value.
Definition toy_session : bytes := digest [Byte.x2a].
Definition toy_client : EnvelopeCipher :=
  {| seal_key := digest ([Byte.xaa] ++ CLIENT_TO_SERVER_KEY_LABEL ++ [Byte.xbb] ++ toy_session);
     open_key := digest ([Byte.xaa] ++ SERVER_TO_CLIENT_KEY_LABEL ++ [Byte.xbb] ++ toy_session);
     seal_aad := CLIENT_TO_SERVER_AAD; open_aad := SERVER_TO_CLIENT_AAD;
     next_seal_sequence := 1; last_open_sequence := 0 |}.
Definition toy_server : EnvelopeCipher :=
  {| seal_key := open_key toy_client; open_key := seal_key toy_client;
     seal_aad := SERVER_TO_CLIENT_AAD; open_aad := CLIENT_TO_SERVER_AAD;
     next_seal_sequence := 1; last_open_sequence := 0 |}.

Definition toy_random : bytes := replicate 16 Byte.x07.
Definition toy_messages : list (bytes * bytes) :=
  [([Byte.x01], toy_random); ([Byte.x02], toy_random); ([Byte.x03], toy_random)].

Definition toy_frames : list SealedFrame :=
  omap result_ok (seal_all toy_client toy_messages []).1.

Lemma toy_client_ok : for_client toy_session = Ok toy_client.
Proof. reflexivity. Qed.
Lemma toy_server_ok : for_server toy_session = Ok toy_server.
Proof. reflexivity. Qed.
Lemma toy_messages_sealable : Forall sealable toy_messages.
Proof. repeat constructor. Qed.

(** An invented frame, the second frame, the first twice, an invented one with the
    number that is due, then the second. *)
Definition toy_forged (seq : Z) : SealedFrame :=
  {| nonce := be_bytes 8 seq ++ toy_random; ciphertext := replicate 17 Byte.x00 |}.
Definition toy_delivery : list SealedFrame :=
  toy_forged 1 :: omap (λ i : nat, toy_frames !! i) [1%nat; 0%nat; 0%nat]
  ++ toy_forged 2 :: omap (λ i : nat, toy_frames !! i) [1%nat].

Lemma toy_unforged : unforged toy_server [] toy_frames toy_delivery.
Proof.
  assert (H : Forall (λ f, authentic toy_server [] f → f ∈ toy_frames) toy_delivery); [|by rewrite Forall_forall in H].
  apply (bool_decide_unpack _). vm_compute. exact I.
Qed.

Lemma channel_delivers_prefix_witness :
  (open_all toy_server toy_delivery []).1 = [[Byte.x01]; [Byte.x02]] ∧
  (open_all toy_server toy_delivery []).1 `prefix_of` (fst <$> toy_messages).
Proof.
  split; [vm_compute; reflexivity|].
  apply (channel_delivers_prefix toy_session toy_client toy_server toy_messages [] toy_delivery
           toy_frames true);
    [exact toy_client_ok|exact toy_server_ok|exact toy_messages_sealable
    |vm_compute; reflexivity|vm_compute; reflexivity|exact toy_unforged].
Defined.

Lemma channel_roundtrip_witness :
  ∃ client server fs,
    for_client toy_session = Ok client ∧ for_server toy_session = Ok server ∧
    (seal_all client toy_messages []).1 = Ok <$> fs ∧
    (open_all server fs []).1 = fst <$> toy_messages.
Proof.
  apply (channel_roundtrip toy_session toy_messages []);
    [exact toy_messages_sealable|vm_compute; reflexivity].
Defined.

Lemma seal_nonces_distinct_witness :
  ∃ f g, toy_frames !! 0%nat = Some f ∧ toy_frames !! 2%nat = Some g ∧
         (nonce f = nonce g → 0%nat = 2%nat).
Proof.
  eexists _, _. split; [vm_compute; reflexivity|]. split; [vm_compute; reflexivity|].
  apply (seal_nonces_distinct toy_client toy_messages [] toy_frames 0 2);
    [reflexivity|exact toy_messages_sealable|vm_compute; reflexivity|vm_compute; reflexivity
    |vm_compute; reflexivity|vm_compute; reflexivity].
Defined.

Lemma open_characterised_witness :
  (∀ e c', open toy_server (be_bytes 8 2) [] [] = (Err e, c') → c' = toy_server) ∧
  (open toy_server (be_bytes 8 2) [] []).1 = Err (ECrypto (Replay 1 2)).
Proof.
  split; [|vm_compute; reflexivity].
  apply (open_characterised toy_server (be_bytes 8 2) [] []). vm_compute; reflexivity.
Defined.

Lemma seal_exhaustion_wraps_witness :
  ∃ f, (seal (seal (with_next toy_client u64_max) (Some toy_random) [Byte.x01] []).2
             (Some toy_random) [Byte.x01] []).1 = Ok f ∧ be_value (take 8 (nonce f)) = 0.
Proof.
  apply (seal_exhaustion_wraps (with_next toy_client u64_max) ([Byte.x01], toy_random) []);
    [reflexivity|repeat constructor].
Defined.

End Envelope.

(** ** [wire.rs]: sealing typed messages *)
Module Wire.
Import Envelope.
Section WithCodec.
Context `{CryptoPrims} `{AeadPrims}.
(** [postcard::to_allocvec] and [from_bytes] for the message type. *)
Context {M : Type} (encode : M → result string bytes) (decode : bytes → result string M).

Definition wire_seal (c : EnvelopeCipher) (rng : option bytes) (plaintext aad : bytes)
    : SyncResult SealedFrame * EnvelopeCipher :=
  seal c rng plaintext aad.

Definition wire_open (c : EnvelopeCipher) (env : SealedFrame) (aad : bytes)
    : SyncResult bytes * EnvelopeCipher :=
  open c (nonce env) (ciphertext env) aad.

Definition seal_msg (c : EnvelopeCipher) (rng : option bytes) (msg : M) (aad : bytes)
    : SyncResult SealedFrame * EnvelopeCipher :=
  match encode msg with
  | Err e => (Err (EProtocol (EncodeErr e)), c)
  | Ok bs => wire_seal c rng bs aad
  end.

Definition open_msg (c : EnvelopeCipher) (env : SealedFrame) (aad : bytes)
    : SyncResult M * EnvelopeCipher :=
  match wire_open c env aad with
  | (Err e, c') => (Err e, c')
  | (Ok bs, c') => (map_err (λ e, EProtocol (DecodeErr e)) (decode bs), c')
  end.

End WithCodec.
End Wire.
