(* ===== verification/Handshake.v ===== *)
(** * Handshake: the pairing state machines of phone and host

    [crates/transport/src/handshake.rs]. The client and the server machine are
    functions from their state and one message to an outcome and their next
    state, on every branch, errors included. What a step takes from outside
    (clock readings, the fresh nonce, the ephemeral key) is its input; what the
    host's connections share (the rate limiter and the pairing state, each
    behind its mutex) is passed through. *)

From S2P Require Import Prelude Errors Frame Crypto Pairing.
Import FrameCodec Secret Derive RateLimit Enrollment.

Abbreviation DeviceId := (list Byte.byte).
Abbreviation Token := (list Byte.byte).

Module Handshake.
Section WithCrypto.
Context `{CryptoPrims}.

(** ** Messages and key material *)

Inductive HandshakeMessage :=
| Hello (device_id : DeviceId) (protocol_version : Z) (display_name : string) (client_eph_pub : bytes)
| PairingChallenge (nonce server_eph_pub : bytes)
| PairingProof (proof : bytes)
| PairingOk (device_id : DeviceId) (display_name : string)
| PairingFailed (reason : PairingFailure).

Definition TRANSCRIPT_DOMAIN : bytes := str_bytes "portty-handshake-transcript-v1".
Definition PAIR_ID_LABEL : bytes := str_bytes "portty-pair-id-v1".
Definition PAIR_EVENT_KEY_LABEL : bytes := str_bytes "portty-pair-event-key-v1".

Definition build_transcript (client_eph_pub server_eph_pub : bytes) : bytes :=
  TRANSCRIPT_DOMAIN ++ le_bytes 2 PROTOCOL_VERSION ++ client_eph_pub ++ server_eph_pub.

(** [derive_pair_material]: the pair id and the event key. *)
Definition derive_pair_material (session : bytes) : SyncResult (bytes * bytes) :=
  id_key ← derive_subkey session PAIR_ID_LABEL;
  event_key ← derive_subkey session PAIR_EVENT_KEY_LABEL;
  Ok (take 16 id_key, event_key).

Definition derive_reconnect_token (session : bytes) : SyncResult Token :=
  derive_resumption_token session.

Inductive Outcome :=
| Send (m : HandshakeMessage)
| Done (session : bytes) (peer_device_id : DeviceId) (peer_display_name : string)
    (resumed previous_token : bool) (enrollment_epoch : option Z)
| Failed (reason : PairingFailure).

Definition variant_name (m : HandshakeMessage) : string :=
  match m with
  | Hello _ _ _ _ => "Hello"
  | PairingChallenge _ _ => "PairingChallenge"
  | PairingProof _ => "PairingProof"
  | PairingOk _ _ => "PairingOk"
  | PairingFailed _ => "PairingFailed"
  end.

(** ** Client *)

Inductive ClientState :=
| CInit
| CSentHello
| CSentProof (session : option bytes)
| CDone
| CFailed.

Inductive ClientCredential :=
| FirstPair (secret : PairingSecret)
| Resume (token : Token).

Record ClientHandshake := {
  c_state : ClientState;
  c_device_id : DeviceId;
  c_display_name : string;
  c_credential : ClientCredential;
  c_eph_secret : option EphemeralSecret;
  c_eph_pub : bytes;
}.

Definition client_state_name (s : ClientState) : string :=
  match s with
  | CInit => "Init"
  | CSentHello => "SentHello"
  | CSentProof _ => "SentProof"
  | CDone => "Done"
  | CFailed => "Failed"
  end.

Definition with_credential (device_id : DeviceId) (display_name : string)
    (credential : ClientCredential) : ClientHandshake :=
  {| c_state := CInit; c_device_id := device_id; c_display_name := display_name;
     c_credential := credential; c_eph_secret := None; c_eph_pub := replicate 32 Byte.x00 |}.

Definition client_first_pair (device_id : DeviceId) (display_name : string)
    (secret : PairingSecret) : ClientHandshake :=
  with_credential device_id display_name (FirstPair secret).

Definition client_resume (device_id : DeviceId) (display_name : string) (token : Token)
    : ClientHandshake :=
  with_credential device_id display_name (Resume token).

Definition is_resume (c : ClientHandshake) : bool :=
  match c_credential c with Resume _ => true | FirstPair _ => false end.

Definition client_set (c : ClientHandshake) (st : ClientState) (eph : option EphemeralSecret)
    : ClientHandshake :=
  {| c_state := st; c_device_id := c_device_id c; c_display_name := c_display_name c;
     c_credential := c_credential c; c_eph_secret := eph; c_eph_pub := c_eph_pub c |}.

(** [verification_code]: only while the proof is out, only on a first pair. *)
Definition verification_code (c : ClientHandshake) : option chars :=
  if is_resume c then None
  else match c_state c with
       | CSentProof (Some s) => result_ok (pair_verification_code s)
       | _ => None
       end.

(** [start]: [eph] is the freshly generated ephemeral secret. *)
Definition client_start (c : ClientHandshake) (eph : EphemeralSecret)
    : HandshakeMessage * ClientHandshake :=
  (Hello (c_device_id c) PROTOCOL_VERSION (c_display_name c) (x25519_public eph),
   {| c_state := CSentHello; c_device_id := c_device_id c; c_display_name := c_display_name c;
      c_credential := c_credential c; c_eph_secret := Some eph; c_eph_pub := x25519_public eph |}).

(** The key material of the one credential the client was built with. *)
Definition client_key (c : ClientHandshake) : bytes :=
  match c_credential c with
  | Resume tok => tok
  | FirstPair secret => first_pair_key secret
  end.

Definition client_challenge (c : ClientHandshake) (nonce server_eph_pub : bytes)
    : SyncResult (bytes * bytes) :=
  eph ← ok_or (c_eph_secret c)
          (EProtocol (UnexpectedMessage "SentHello" "challenge before ephemeral key was generated"));
  ecdh ← ecdh_shared eph server_eph_pub;
  proof ← proof_from_key (client_key c) nonce (build_transcript (c_eph_pub c) server_eph_pub);
  session ← derive_session_from_key (client_key c) nonce ecdh;
  Ok (proof, session).

Definition client_step (c : ClientHandshake) (incoming : HandshakeMessage)
    : SyncResult Outcome * ClientHandshake :=
  match c_state c, incoming with
  | CSentHello, PairingFailed reason
  | CSentProof _, PairingFailed reason =>
      (Ok (Failed reason), client_set c CFailed (c_eph_secret c))
  | CSentHello, PairingChallenge nonce server_eph_pub =>
      (* the ephemeral secret is taken whatever happens next *)
      match client_challenge c nonce server_eph_pub with
      | Err e => (Err e, client_set c CSentHello None)
      | Ok (proof, session) =>
          (Ok (Send (PairingProof proof)), client_set c (CSentProof (Some session)) None)
      end
  | CSentProof session, PairingOk device_id display_name =>
      let c' := client_set c CDone (c_eph_secret c) in
      match session with
      | None => (Err (EProtocol (UnexpectedMessage "SentProof" "session already taken")), c')
      | Some s => (Ok (Done s device_id display_name (is_resume c) false None), c')
      end
  | st, other =>
      (Err (EProtocol (UnexpectedMessage (client_state_name st) (variant_name other))), c)
  end.

(** ** Server *)

Inductive ServerState :=
| SAwaitingHello
| SSentChallenge (nonce session : bytes) (peer_device_id : DeviceId) (peer_display_name : string)
    (auth_token grace_token : option Token) (enrollment_epoch : option Z)
    (ecdh transcript : bytes)
| SDone
| SFailed.

Definition server_state_name (s : ServerState) : string :=
  match s with
  | SAwaitingHello => "AwaitingHello"
  | SSentChallenge _ _ _ _ _ _ _ _ _ => "SentChallenge"
  | SDone => "Done"
  | SFailed => "Failed"
  end.

(** The machine of one connection. [s_windowed] says whether the host's shared
    pairing state was armed ([pairing_state: Some(..)]). *)
Record ServerHandshake := {
  s_state : ServerState;
  s_device_id : DeviceId;
  s_display_name : string;
  s_rate_limit_key : string;
  s_windowed : bool;
  s_snapshot_epoch : option Z;
  s_pairing_secrets : list PairingSecret;
  s_enrollment_exempt_device : option DeviceId;
  s_resumption_tokens : gmap DeviceId Token;
  s_grace_tokens : gmap DeviceId Token;
  s_authenticated_device : option DeviceId;
  s_authenticated_device_revoked : bool;
}.

(** What all connections of a host share. *)
Record Shared := {
  sh_rate_limiter : Mutex KeyedLimiter;
  sh_pairing : Mutex PairingState;
}.

(** What one step draws from outside. *)
Record ServerEnv := {
  env_gate1 : Z;
  env_gate2 : Z;
  env_rate : ReserveClock;
  env_nonce : bytes;
  env_eph : EphemeralSecret;
}.

Definition server_new (device_id : DeviceId) (display_name : string) : ServerHandshake :=
  {| s_state := SAwaitingHello; s_device_id := device_id; s_display_name := display_name;
     s_rate_limit_key := ""; s_windowed := false; s_snapshot_epoch := None;
     s_pairing_secrets := []; s_enrollment_exempt_device := None;
     s_resumption_tokens := ∅; s_grace_tokens := ∅;
     s_authenticated_device := None; s_authenticated_device_revoked := false |}.

Definition set_server_state (s : ServerHandshake) (st : ServerState) : ServerHandshake :=
  {| s_state := st; s_device_id := s_device_id s; s_display_name := s_display_name s;
     s_rate_limit_key := s_rate_limit_key s; s_windowed := s_windowed s;
     s_snapshot_epoch := s_snapshot_epoch s; s_pairing_secrets := s_pairing_secrets s;
     s_enrollment_exempt_device := s_enrollment_exempt_device s;
     s_resumption_tokens := s_resumption_tokens s; s_grace_tokens := s_grace_tokens s;
     s_authenticated_device := s_authenticated_device s;
     s_authenticated_device_revoked := s_authenticated_device_revoked s |}.

(** The production builders ([with_rate_limit_key], [with_first_pair],
    [with_resumption_tokens], [with_grace_tokens], [with_authenticated_device]). *)
Definition with_rate_limit_key (key : string) (s : ServerHandshake) : ServerHandshake :=
  {| s_state := s_state s; s_device_id := s_device_id s; s_display_name := s_display_name s;
     s_rate_limit_key := key; s_windowed := s_windowed s;
     s_snapshot_epoch := s_snapshot_epoch s; s_pairing_secrets := s_pairing_secrets s;
     s_enrollment_exempt_device := s_enrollment_exempt_device s;
     s_resumption_tokens := s_resumption_tokens s; s_grace_tokens := s_grace_tokens s;
     s_authenticated_device := s_authenticated_device s;
     s_authenticated_device_revoked := s_authenticated_device_revoked s |}.

Definition with_first_pair (snap : PairingSnapshot) (s : ServerHandshake) : ServerHandshake :=
  {| s_state := s_state s; s_device_id := s_device_id s; s_display_name := s_display_name s;
     s_rate_limit_key := s_rate_limit_key s; s_windowed := true;
     s_snapshot_epoch := snap_epoch snap; s_pairing_secrets := snap_secrets snap;
     s_enrollment_exempt_device := s_enrollment_exempt_device s;
     s_resumption_tokens := s_resumption_tokens s; s_grace_tokens := s_grace_tokens s;
     s_authenticated_device := s_authenticated_device s;
     s_authenticated_device_revoked := s_authenticated_device_revoked s |}.

Definition with_tokens (tokens grace : gmap DeviceId Token) (s : ServerHandshake) : ServerHandshake :=
  {| s_state := s_state s; s_device_id := s_device_id s; s_display_name := s_display_name s;
     s_rate_limit_key := s_rate_limit_key s; s_windowed := s_windowed s;
     s_snapshot_epoch := s_snapshot_epoch s; s_pairing_secrets := s_pairing_secrets s;
     s_enrollment_exempt_device := s_enrollment_exempt_device s;
     s_resumption_tokens := tokens; s_grace_tokens := grace;
     s_authenticated_device := s_authenticated_device s;
     s_authenticated_device_revoked := s_authenticated_device_revoked s |}.

Definition with_authenticated_device (device : DeviceId) (revoked : bool) (s : ServerHandshake)
    : ServerHandshake :=
  {| s_state := s_state s; s_device_id := s_device_id s; s_display_name := s_display_name s;
     s_rate_limit_key := s_rate_limit_key s; s_windowed := s_windowed s;
     s_snapshot_epoch := s_snapshot_epoch s; s_pairing_secrets := s_pairing_secrets s;
     s_enrollment_exempt_device := s_enrollment_exempt_device s;
     s_resumption_tokens := s_resumption_tokens s; s_grace_tokens := s_grace_tokens s;
     s_authenticated_device := Some device;
     s_authenticated_device_revoked := revoked |}.

(** Refusing: one reply, and the machine is [Failed]. *)
Definition refuse (s : ServerHandshake) (reason : PairingFailure)
    : SyncResult Outcome * ServerHandshake :=
  (Ok (Send (PairingFailed reason)), set_server_state s SFailed).

Definition reject_unreadable_version (s : ServerHandshake) : HandshakeMessage * ServerHandshake :=
  (PairingFailed UnsupportedVersion, set_server_state s SFailed).

(** The enrollment gate of the Hello step: the failure to report, or the
    opportunity this attempt was let through under ([None]: ungated). *)
Definition enrollment_gate (env : ServerEnv) (s : ServerHandshake) (device_id : DeviceId)
    (m : Mutex PairingState) : (PairingFailure + option Z) * Mutex PairingState :=
  let is_first_pair := bool_decide (s_resumption_tokens s !! device_id = None) in
  let enrollment_exempt := bool_decide (s_enrollment_exempt_device s = Some device_id) in
  if is_first_pair && negb enrollment_exempt && s_windowed s then
    let '(gate, m') :=
      match lock m with
      | Some ps =>
          let '(g, ps') := gate_first_pair (env_gate1 env) (env_gate2 env) (s_snapshot_epoch s) ps in
          (g, unlock m ps')
      | None => (GateClosed, m)
      end in
    match gate with
    | Allow epoch => (inr (Some epoch), m')
    | GateClosed =>
        (inl (if s_authenticated_device_revoked s then Revoked else PairingClosed), m')
    | Locked => (inl RateLimited, m')
    end
  else (inr None, m).

(** The per-source limiter of the Hello step: limited or not. *)
Definition reserve_source (env : ServerEnv) (s : ServerHandshake) (m : Mutex KeyedLimiter)
    : bool * Mutex KeyedLimiter :=
  match lock m with
  | Some rl =>
      let '(r, rl') := keyed_check_and_reserve (env_rate env) (s_rate_limit_key s) rl in
      (negb (is_ok r), unlock m rl')
  | None => (true, m)
  end.

(** Issuing the challenge: an error here leaves the machine where it was. *)
Definition issue_challenge (env : ServerEnv) (s : ServerHandshake) (device_id : DeviceId)
    (display_name : string) (client_eph_pub : bytes) (enrollment_epoch : option Z)
    : SyncResult Outcome * ServerHandshake :=
  let nonce := env_nonce env in
  let server_eph_pub := x25519_public (env_eph env) in
  match ecdh_shared (env_eph env) client_eph_pub with
  | Err e => (Err e, s)
  | Ok ecdh =>
      let transcript := build_transcript client_eph_pub server_eph_pub in
      let auth_token := s_resumption_tokens s !! device_id in
      let grace_token := _ ← auth_token; s_grace_tokens s !! device_id in
      let challenge (session : bytes) :=
        (Ok (Send (PairingChallenge nonce server_eph_pub)),
         set_server_state s
           (SSentChallenge nonce session device_id display_name auth_token grace_token
              enrollment_epoch ecdh transcript)) in
      match auth_token with
      | Some tok =>
          match derive_session_from_key tok nonce ecdh with
          | Err e => (Err e, s)
          | Ok session => challenge session
          end
      | None =>
          match s_pairing_secrets s with
          | [] => refuse s PairingClosed
          | secret :: _ =>
              match derive_session_from_key (first_pair_key secret) nonce ecdh with
              | Err e => (Err e, s)
              | Ok session => challenge session
              end
          end
      end
  end.

(** The whole Hello step. *)
Definition server_hello (env : ServerEnv) (sh : Shared) (s : ServerHandshake)
    (device_id : DeviceId) (protocol_version : Z) (display_name : string) (client_eph_pub : bytes)
    : SyncResult Outcome * ServerHandshake * Shared :=
  if negb (supports_protocol_version protocol_version) then (refuse s UnsupportedVersion, sh)
  else if match s_authenticated_device s with
          | Some authenticated => bool_decide (authenticated ≠ device_id)
          | None => false
          end
  then (refuse s WrongPin, sh)
  else if bool_decide (s_resumption_tokens s !! device_id = None)
          && bool_decide (s_pairing_secrets s = [])
  then (refuse s PairingClosed, sh)
  else
    let '(gate, pm) := enrollment_gate env s device_id (sh_pairing sh) in
    let sh1 := {| sh_rate_limiter := sh_rate_limiter sh; sh_pairing := pm |} in
    match gate with
    | inl reason => (refuse s reason, sh1)
    | inr enrollment_epoch =>
        let '(limited, rm) := reserve_source env s (sh_rate_limiter sh1) in
        let sh2 := {| sh_rate_limiter := rm; sh_pairing := pm |} in
        if (limited : bool) then (refuse s RateLimited, sh2)
        else (issue_challenge env s device_id display_name client_eph_pub enrollment_epoch, sh2)
    end.

(** Which credential a proof verifies under: current token, previous token, or
    an armed first-pair secret by its position. *)
Inductive ProofMatch :=
| ByToken
| ByGrace
| BySecret (index : nat)
| ByNothing.

Definition match_proof (secrets : list PairingSecret) (auth_token grace_token : option Token)
    (nonce transcript proof : bytes) : ProofMatch :=
  let ok key := is_ok (verify_proof_with_key key nonce transcript proof) in
  if from_option ok false auth_token then ByToken
  else if from_option ok false grace_token then ByGrace
  else match position ok (first_pair_key <$> secrets) with
       | Some index => BySecret index
       | None => ByNothing
       end.

(** The session of the key the client actually proved. *)
Definition proved_session (secrets : list PairingSecret) (grace_token : option Token)
    (m : ProofMatch) (session nonce ecdh : bytes) : SyncResult bytes :=
  match m, grace_token with
  | BySecret index, _ =>
      derive_session_from_key (default [] ((first_pair_key <$> secrets) !! index)) nonce ecdh
  | ByGrace, Some grace => derive_session_from_key grace nonce ecdh
  | _, _ => Ok session
  end.

(** The whole proof step. *)
Definition server_proof (sh : Shared) (s : ServerHandshake)
    (nonce session : bytes) (peer_device_id : DeviceId) (peer_display_name : string)
    (auth_token grace_token : option Token) (enrollment_epoch : option Z)
    (ecdh transcript proof : bytes)
    : SyncResult Outcome * ServerHandshake * Shared :=
  match match_proof (s_pairing_secrets s) auth_token grace_token nonce transcript proof with
  | ByNothing =>
      (refuse s (if s_authenticated_device_revoked s then Revoked else WrongPin), sh)
  | m =>
      let rm := match lock (sh_rate_limiter sh) with
                | Some rl => unlock (sh_rate_limiter sh) (keyed_record_success (s_rate_limit_key s) rl)
                | None => sh_rate_limiter sh
                end in
      let sh' := {| sh_rate_limiter := rm; sh_pairing := sh_pairing sh |} in
      let s' := set_server_state s SDone in
      match proved_session (s_pairing_secrets s) grace_token m session nonce ecdh with
      | Err e => (Err e, s', sh')
      | Ok session' =>
          let by_token := match m with ByToken | ByGrace => true | _ => false end in
          let by_grace := match m with ByGrace => true | _ => false end in
          (Ok (Done session' peer_device_id peer_display_name by_token by_grace
                 (match auth_token with None => enrollment_epoch | Some _ => None end)),
           s', sh')
      end
  end.

Definition server_step (env : ServerEnv) (sh : Shared) (s : ServerHandshake)
    (incoming : HandshakeMessage) : SyncResult Outcome * ServerHandshake * Shared :=
  match s_state s, incoming with
  | SAwaitingHello, Hello device_id protocol_version display_name client_eph_pub =>
      server_hello env sh s device_id protocol_version display_name client_eph_pub
  | SSentChallenge nonce session peer_device_id peer_display_name auth_token grace_token
      enrollment_epoch ecdh transcript, PairingProof proof =>
      server_proof sh s nonce session peer_device_id peer_display_name auth_token grace_token
        enrollment_epoch ecdh transcript proof
  | st, other =>
      (Err (EProtocol (UnexpectedMessage (server_state_name st) (variant_name other))), s, sh)
  end.

(** ** Inversion of the Hello step *)

(** The key the challenge-time session is derived from. *)
Definition challenge_key (s : ServerHandshake) (device_id : DeviceId) : bytes :=
  match s_resumption_tokens s !! device_id with
  | Some tok => tok
  | None => from_option first_pair_key [] (head (s_pairing_secrets s))
  end.

Definition grace_of (s : ServerHandshake) (device_id : DeviceId) : option Token :=
  _ ← s_resumption_tokens s !! device_id; s_grace_tokens s !! device_id.

(** Everything a challenge says about the Hello that caused it. *)
Record Challenged (env : ServerEnv) (sh : Shared) (s : ServerHandshake) (device_id : DeviceId)
    (version : Z) (name : string) (client_eph_pub nonce server_eph_pub : bytes)
    (s1 : ServerHandshake) : Prop := {
  ch_version : version = PROTOCOL_VERSION;
  ch_identity : s_authenticated_device s = None ∨ s_authenticated_device s = Some device_id;
  ch_nonce : nonce = env_nonce env;
  ch_eph : server_eph_pub = x25519_public (env_eph env);
  ch_armed : s_resumption_tokens s !! device_id = None → s_pairing_secrets s ≠ [];
  ch_state : ∃ epoch ecdh session pm,
    enrollment_gate env s device_id (sh_pairing sh) = (inr epoch, pm) ∧
    ecdh_shared (env_eph env) client_eph_pub = Ok ecdh ∧
    derive_session_from_key (challenge_key s device_id) nonce ecdh = Ok session ∧
    s1 = set_server_state s
           (SSentChallenge nonce session device_id name (s_resumption_tokens s !! device_id)
              (grace_of s device_id) epoch ecdh (build_transcript client_eph_pub server_eph_pub));
}.

Lemma supports_only_current v : supports_protocol_version v = true → v = PROTOCOL_VERSION.
Proof.
  unfold supports_protocol_version, MIN_SUPPORTED_PROTOCOL_VERSION.
  intros [?%Z.leb_le ?%Z.leb_le]%andb_true_iff. lia.
Qed.

Lemma issue_challenge_inv env s d n ce ep nonce se s1 :
  issue_challenge env s d n ce ep = (Ok (Send (PairingChallenge nonce se)), s1) →
  nonce = env_nonce env ∧ se = x25519_public (env_eph env) ∧
  (s_resumption_tokens s !! d = None → s_pairing_secrets s ≠ []) ∧
  ∃ ecdh session,
    ecdh_shared (env_eph env) ce = Ok ecdh ∧
    derive_session_from_key (challenge_key s d) nonce ecdh = Ok session ∧
    s1 = set_server_state s
           (SSentChallenge nonce session d n (s_resumption_tokens s !! d) (grace_of s d) ep ecdh
              (build_transcript ce se)).
Proof.
  unfold issue_challenge, challenge_key, grace_of.
  destruct (ecdh_shared _ _) as [ecdh|]; [|done].
  destruct (s_resumption_tokens s !! d) as [tok|] eqn:Et; simpl.
  - destruct (derive_session_from_key _ _ _) as [sess|] eqn:Es; [|done].
    intros [= <- <- <-]. split_and!; [done..|]. eauto.
  - destruct (s_pairing_secrets s) as [|x xs] eqn:Ex; [done|]. simpl.
    destruct (derive_session_from_key _ _ _) as [sess|] eqn:Es; [|done].
    intros [= <- <- <-]. split_and!; [done..|]. eauto.
Qed.

Lemma server_hello_challenge env sh s d v n ce nonce se s1 sh1 :
  server_hello env sh s d v n ce = (Ok (Send (PairingChallenge nonce se)), s1, sh1) →
  Challenged env sh s d v n ce nonce se s1.
Proof.
  unfold server_hello. destruct (supports_protocol_version v) eqn:Ev; simpl; [|done].
  apply supports_only_current in Ev.
  destruct (match s_authenticated_device s with Some _ => _ | None => _ end) eqn:Ea; [done|].
  destruct (bool_decide _ && bool_decide _) eqn:Eb; [done|].
  destruct (enrollment_gate _ _ _ _) as [[reason|ep] pm] eqn:Eg; [done|].
  destruct (reserve_source _ _ _) as [[] rm]; [done|].
  destruct (issue_challenge _ _ _ _ _ _) as [r s2] eqn:Ei. intros [= -> <- _].
  destruct (issue_challenge_inv _ _ _ _ _ _ _ _ _ Ei) as (-> & -> & Harm & ecdh & sess & He & Hs & ->).
  split; [done| |done..|].
  - destruct (s_authenticated_device s) as [a|]; [|by left]. right.
    apply bool_decide_eq_false, dec_stable in Ea. by subst.
  - by exists ep, ecdh, sess, pm.
Qed.

(** What an open gate says. *)
Lemma enrollment_gate_open env s d m ep pm :
  enrollment_gate env s d m = (inr ep, pm) →
  match ep with
  | None => s_resumption_tokens s !! d ≠ None ∨ s_enrollment_exempt_device s = Some d
            ∨ s_windowed s = false
  | Some e =>
      s_resumption_tokens s !! d = None ∧ s_snapshot_epoch s = Some e ∧
      ∃ ps, lock m = Some ps ∧ epoch (window ps) = e ∧
            is_open (env_gate1 env) (window ps) = true ∧
            is_open (env_gate2 env) (window ps) = true ∧
            global_failures (window ps) < GLOBAL_FIRST_PAIR_CAP
  end.
Proof.
  unfold enrollment_gate. destruct (_ && _ && _) eqn:Eg.
  - apply andb_true_iff in Eg as [[Et%bool_decide_eq_true _]%andb_true_iff _].
    destruct (lock m) as [ps|] eqn:El; [|destruct (s_authenticated_device_revoked s); done].
    unfold gate_first_pair, check_and_reserve_first_pair, epoch_is_current.
    destruct (s_snapshot_epoch s) as [e|] eqn:Es; [|destruct (s_authenticated_device_revoked s); done].
    destruct (is_open (env_gate1 env) (window ps)) eqn:E1; simpl;
      [|destruct (s_authenticated_device_revoked s); done].
    destruct (Z.eqb_spec (epoch (window ps)) e) as [He|];
      [|destruct (s_authenticated_device_revoked s); done].
    destruct (is_open (env_gate2 env) (window ps)) eqn:E2; simpl;
      [|destruct (s_authenticated_device_revoked s); done].
    destruct (Z.leb_spec GLOBAL_FIRST_PAIR_CAP (global_failures (window ps))); [done|].
    intros [= <- _]. subst e. split_and!; [done..|]. by exists ps.
  - intros [= <- _].
    destruct (s_windowed s); [|by right; right].
    destruct (decide (s_resumption_tokens s !! d = None)) as [Et|]; [|by left].
    rewrite bool_decide_eq_true_2 in Eg by done. simpl in Eg.
    destruct (decide (s_enrollment_exempt_device s = Some d)) as [|Ee]; [by right; left|].
    rewrite (bool_decide_eq_false_2 _ Ee) in Eg. done.
Qed.

(** C2 (safety). A host answers a Hello with a challenge only to a peer on its
    own protocol version whose claimed identity is the one the transport
    authenticated; and a device it holds no token for gets one only if
    first-pair secrets are armed and (outside the exemption, with the window
    armed) the enrollment window was open, on the generation this connection's
    credentials belong to, and under the global attempt cap. *)
Theorem challenge_is_gated env sh s d v n ce nonce se s1 sh1 :
  s_state s = SAwaitingHello →
  server_step env sh s (Hello d v n ce) = (Ok (Send (PairingChallenge nonce se)), s1, sh1) →
  v = PROTOCOL_VERSION ∧
  (s_authenticated_device s = None ∨ s_authenticated_device s = Some d) ∧
  (s_resumption_tokens s !! d = None →
     s_pairing_secrets s ≠ [] ∧
     (s_windowed s = true → s_enrollment_exempt_device s ≠ Some d →
      ∃ e ps, s_snapshot_epoch s = Some e ∧ lock (sh_pairing sh) = Some ps ∧
              epoch (window ps) = e ∧ is_open (env_gate1 env) (window ps) = true ∧
              global_failures (window ps) < GLOBAL_FIRST_PAIR_CAP)).
Proof.
  intros Hst Hstep. unfold server_step in Hstep. rewrite Hst in Hstep.
  destruct (server_hello_challenge _ _ _ _ _ _ _ _ _ _ _ Hstep) as [Hv Hid _ _ Harm Hs1].
  split_and!; [done..|]. intros Hnone. split; [by apply Harm|]. intros Hw Hex.
  destruct Hs1 as (ep & ecdh & sess & pm & Hg & _).
  apply enrollment_gate_open in Hg. destruct ep as [e|].
  - destruct Hg as (_ & Hsn & ps & Hl & He & Ho & _ & Hf). exists e, ps. done.
  - destruct Hg as [?|[?|?]]; [done|done|congruence].
Qed.

(** ** The proof step *)

Section WithLaws.
Context `{!CryptoLaws _}.

(** How a credential authenticates a proof for a device: the key, and what the
    outcome must report about it. *)
Inductive Authenticates (s : ServerHandshake) (d : DeviceId) : bytes → bool → bool → Prop :=
| Auth_token tok : s_resumption_tokens s !! d = Some tok → Authenticates s d tok true false
| Auth_grace tok cur :
    s_resumption_tokens s !! d = Some cur → s_grace_tokens s !! d = Some tok →
    Authenticates s d tok true true
| Auth_secret secret :
    secret ∈ s_pairing_secrets s → Authenticates s d (first_pair_key secret) false false.

Definition proof_of (key nonce transcript : bytes) : bytes :=
  hmac_sha256 key (nonce ++ transcript).

Lemma match_proof_spec secrets auth grace nonce t proof :
  match match_proof secrets auth grace nonce t proof with
  | ByToken => ∃ tok, auth = Some tok ∧ proof = proof_of tok nonce t
  | ByGrace => ∃ tok, grace = Some tok ∧ proof = proof_of tok nonce t
  | BySecret i => ∃ x, secrets !! i = Some x ∧ proof = proof_of (first_pair_key x) nonce t
  | ByNothing =>
      (∀ tok, auth = Some tok → proof ≠ proof_of tok nonce t) ∧
      (∀ tok, grace = Some tok → proof ≠ proof_of tok nonce t) ∧
      (∀ x, x ∈ secrets → proof ≠ proof_of (first_pair_key x) nonce t)
  end.
Proof.
  unfold match_proof, proof_of.
  destruct (from_option _ false auth) eqn:Ea.
  { destruct auth as [tok|]; [|done]. apply verify_proof_ok in Ea. eauto. }
  assert (Hna : ∀ tok, auth = Some tok → proof ≠ hmac_sha256 tok (nonce ++ t)).
  { intros tok -> Hp. apply verify_proof_ok in Hp. simpl in Ea. congruence. }
  destruct (from_option _ false grace) eqn:Eg.
  { destruct grace as [tok|]; [|done]. apply verify_proof_ok in Eg. eauto. }
  assert (Hng : ∀ tok, grace = Some tok → proof ≠ hmac_sha256 tok (nonce ++ t)).
  { intros tok -> Hp. apply verify_proof_ok in Hp. simpl in Eg. congruence. }
  destruct (position _ _) as [i|] eqn:Ep.
  - apply position_Some in Ep as (key & Hk & Hv & _).
    rewrite list_lookup_fmap in Hk. apply fmap_Some in Hk as (x & Hx & ->).
    apply verify_proof_ok in Hv. eauto.
  - split_and!; [done..|]. intros x Hx Hp. apply verify_proof_ok in Hp.
    rewrite position_None in Ep. rewrite Ep in Hp; [done|]. by apply list_elem_of_fmap_2.
Qed.

(** C1 (safety). After a challenge, the host completes the handshake only on a
    proof that is the HMAC, over its own nonce and the transcript of both
    ephemeral keys, of a credential that authenticates that very device: its
    current token, its previous token, or an armed first-pair secret. The
    outcome names the device of the Hello, reports which kind of credential it
    was, carries the session derived from that same key and the ephemeral
    exchange, and carries the enrollment opportunity exactly when the host
    held no token for the device. *)
Theorem completion_is_authentic env sh s d v n ce nonce se s1 sh1
    env2 sh2 proof s2 sh3 session d' n' resumed previous ep :
  s_state s = SAwaitingHello →
  server_step env sh s (Hello d v n ce) = (Ok (Send (PairingChallenge nonce se)), s1, sh1) →
  server_step env2 sh2 s1 (PairingProof proof)
    = (Ok (Done session d' n' resumed previous ep), s2, sh3) →
  d' = d ∧ n' = n ∧
  (∃ key, Authenticates s d key resumed previous ∧
     proof = proof_of key nonce (build_transcript ce se) ∧
     derive_session_from_key key nonce (x25519_dh (env_eph env) ce) = Ok session) ∧
  (s_resumption_tokens s !! d ≠ None → ep = None) ∧
  (s_resumption_tokens s !! d = None → s_windowed s = true →
     s_enrollment_exempt_device s ≠ Some d → ep = s_snapshot_epoch s ∧ ep ≠ None).
Proof.
  intros Hst Hstep Hproof. unfold server_step in Hstep. rewrite Hst in Hstep.
  destruct (server_hello_challenge _ _ _ _ _ _ _ _ _ _ _ Hstep) as [_ _ _ _ Harm Hs1].
  destruct Hs1 as (gep & ecdh & sess & pm & Hg & He & Hsess & ->).
  assert (x25519_dh (env_eph env) ce = ecdh) as <-.
  { unfold ecdh_shared in He. destruct (was_contributory _); congruence. }
  unfold server_step in Hproof. simpl in Hproof. unfold server_proof in Hproof. simpl in Hproof.
  pose proof (match_proof_spec (s_pairing_secrets s) (s_resumption_tokens s !! d) (grace_of s d)
                nonce (build_transcript ce se) proof) as Hm.
  assert (Hep : (s_resumption_tokens s !! d ≠ None →
                 match s_resumption_tokens s !! d with None => gep | Some _ => None end = None) ∧
                (s_resumption_tokens s !! d = None → s_windowed s = true →
                 s_enrollment_exempt_device s ≠ Some d →
                 match s_resumption_tokens s !! d with None => gep | Some _ => None end
                   = s_snapshot_epoch s ∧
                 match s_resumption_tokens s !! d with None => gep | Some _ => None end ≠ None)).
  { apply enrollment_gate_open in Hg. split.
    - by destruct (s_resumption_tokens s !! d).
    - intros Hn Hw Hx. rewrite Hn in *. destruct gep as [e|].
      + destruct Hg as (_ & -> & _). done.
      + destruct Hg as [?|[?|?]]; congruence. }
  destruct (match_proof _ _ _ _ _ _) as [| |i|].
  - destruct Hm as (tok & Ht & Hp). rewrite Ht in *. simpl in Hproof.
    injection Hproof as <- <- <- <- <- <- <- <-. split_and!; [done..| |apply Hep|apply Hep].
    exists tok. split; [by constructor|]. split; [done|].
    unfold challenge_key in Hsess. rewrite Ht in Hsess. done.
  - destruct Hm as (tok & Hgr & Hp). rewrite Hgr in Hproof. simpl in Hproof.
    destruct (derive_session_from_key tok _ _) as [sess'|] eqn:Ed; [|done].
    injection Hproof as <- <- <- <- <- <- <- <-. split_and!; [done..| |apply Hep|apply Hep].
    exists tok. split; [|done]. unfold grace_of in Hgr. apply bind_Some in Hgr as (cur & Hc & Hgr).
    by eapply Auth_grace.
  - destruct Hm as (x & Hx & Hp). simpl in Hproof. rewrite list_lookup_fmap, Hx in Hproof.
    simpl in Hproof.
    destruct (derive_session_from_key (first_pair_key x) _ _) as [sess'|] eqn:Ed; [|done].
    injection Hproof as <- <- <- <- <- <- <- <-. split_and!; [done..| |apply Hep|apply Hep].
    exists (first_pair_key x). split; [|done]. constructor. by eapply list_elem_of_lookup_2.
  - done.
Qed.

(** ** Both ends together *)

(** Distinct credentials the host would accept for the device give distinct
    proofs for this nonce and transcript: no HMAC collision among them. *)
Definition proofs_separate (s : ServerHandshake) (d : DeviceId) (nonce t : bytes) : Prop :=
  ∀ k k' r p r' p', Authenticates s d k r p → Authenticates s d k' r' p' →
    proof_of k nonce t = proof_of k' nonce t → k = k'.

Lemma proof_step_completes s1 s d n nonce session gep ecdh t key env2 sh2 :
  s1 = set_server_state s (SSentChallenge nonce session d n (s_resumption_tokens s !! d)
         (grace_of s d) gep ecdh t) →
  derive_session_from_key (challenge_key s d) nonce ecdh = Ok session →
  (∃ r p, Authenticates s d key r p) → proofs_separate s d nonce t →
  ∃ sess resumed previous ep s2 sh3,
    server_step env2 sh2 s1 (PairingProof (proof_of key nonce t))
      = (Ok (Done sess d n resumed previous ep), s2, sh3) ∧
    derive_session_from_key key nonce ecdh = Ok sess ∧
    Authenticates s d key resumed previous.
Proof.
  intros -> Hsess (r0 & p0 & Hauth) Hsep.
  unfold server_step; simpl. unfold server_proof; simpl.
  pose proof (match_proof_spec (s_pairing_secrets s) (s_resumption_tokens s !! d) (grace_of s d)
                nonce t (proof_of key nonce t)) as Hm.
  destruct (match_proof _ _ _ _ _ _) as [| |i|].
  - destruct Hm as (tok & Ht & Hp).
    assert (key = tok) as -> by (eapply Hsep; eauto using Authenticates).
    unfold challenge_key in Hsess. rewrite Ht in Hsess |- *.
    do 6 eexists. split; [reflexivity|]. split; [done|by constructor].
  - destruct Hm as (tok & Hg & Hp). unfold grace_of in Hg.
    apply bind_Some in Hg as (cur & Hc & Hg).
    assert (key = tok) as -> by (eapply Hsep; eauto using Authenticates).
    unfold grace_of. rewrite Hc. simpl. rewrite Hg. simpl.
    destruct (derive_session_ok tok nonce ecdh) as (sess & -> & _).
    do 6 eexists. split; [reflexivity|]. split; [done|by eapply Auth_grace].
  - destruct Hm as (x & Hx & Hp).
    assert (x ∈ s_pairing_secrets s) as Hin by (by eapply list_elem_of_lookup_2).
    assert (key = first_pair_key x) as -> by (eapply Hsep; eauto using Authenticates).
    simpl. rewrite list_lookup_fmap, Hx. simpl.
    destruct (derive_session_ok (first_pair_key x) nonce ecdh) as (sess & -> & _).
    do 6 eexists. split; [reflexivity|]. split; [done|by constructor].
  - destruct Hm as (Hna & Hng & Hns). exfalso.
    destruct Hauth as [tok Ht|tok cur Hc Hg|x Hx].
    + by apply (Hna tok).
    + apply (Hng tok); [|done]. unfold grace_of. by rewrite Hc.
    + by apply (Hns x).
Qed.

(** The two machines in step. *)
Lemma agreement env sh c s eph nonce se s1 sh1 :
  let hello := client_start c eph in
  s_state s = SAwaitingHello →
  server_step env sh s hello.1 = (Ok (Send (PairingChallenge nonce se)), s1, sh1) →
  (∃ r p, Authenticates s (c_device_id c) (client_key c) r p) →
  proofs_separate s (c_device_id c) nonce (build_transcript (x25519_public eph) se) →
  ∃ proof session c2,
    client_step hello.2 (PairingChallenge nonce se) = (Ok (Send (PairingProof proof)), c2) ∧
    (∀ env2 sh2, ∃ resumed previous ep s2 sh3,
       server_step env2 sh2 s1 (PairingProof proof)
         = (Ok (Done session (c_device_id c) (c_display_name c) resumed previous ep), s2, sh3) ∧
       Authenticates s (c_device_id c) (client_key c) resumed previous) ∧
    (∀ host_id host_name, ∃ c3,
       client_step c2 (PairingOk host_id host_name)
         = (Ok (Done session host_id host_name (is_resume c) false None), c3) ∧
       c_state c3 = CDone) ∧
    verification_code c2
      = (if is_resume c then None else result_ok (pair_verification_code session)).
Proof.
  intros hello Hst Hstep Hauth Hsep. simpl in Hstep. unfold server_step in Hstep.
  rewrite Hst in Hstep.
  destruct (server_hello_challenge _ _ _ _ _ _ _ _ _ _ _ Hstep) as [_ _ _ -> _ Hs1].
  destruct Hs1 as (gep & ecdh & sess0 & pm & _ & He & Hsess & Hs1).
  set (t := build_transcript (x25519_public eph) (x25519_public (env_eph env))) in *.
  destruct (derive_session_ok (client_key c) nonce ecdh) as (session & Hds & _).
  assert (Hecdh : ecdh_shared eph (x25519_public (env_eph env)) = Ok ecdh).
  { unfold ecdh_shared in *. by rewrite x25519_agree. }
  exists (proof_of (client_key c) nonce t), session. eexists.
  split; [|split; [|split]].
  - unfold client_step; simpl. unfold client_challenge; simpl.
    rewrite Hecdh; simpl. rewrite proof_from_key_ok; simpl.
    change (client_key {| c_credential := c_credential c |}) with (client_key c).
    rewrite Hds. reflexivity.
  - intros env2 sh2.
    destruct (proof_step_completes s1 s _ _ nonce sess0 gep ecdh t (client_key c) env2 sh2
                Hs1 Hsess Hauth Hsep) as (sess & r & p & ep & s2 & sh3 & Hps & Hd' & Ha).
    rewrite Hds in Hd'. injection Hd' as <-. by exists r, p, ep, s2, sh3.
  - intros host_id host_name. eexists. split; [reflexivity|done].
  - unfold verification_code, is_resume. simpl. by destruct (c_credential c).
Qed.

(** Whenever the host answers a client's Hello with a
    challenge and the client's credential is one the host accepts for it,
    the handshake completes: the client's proof is accepted, whatever the other
    connections did to the shared state in between, the client finishes on the
    acknowledgement, and both ends hold the same session. On a first pair the
    code the phone shows while it waits is the code of the host's session. *)
Theorem handshake_agreement env sh c s eph nonce se s1 sh1 :
  let hello := client_start c eph in
  s_state s = SAwaitingHello →
  server_step env sh s hello.1 = (Ok (Send (PairingChallenge nonce se)), s1, sh1) →
  (∃ r p, Authenticates s (c_device_id c) (client_key c) r p) →
  proofs_separate s (c_device_id c) nonce (build_transcript (x25519_public eph) se) →
  ∃ proof session c2,
    client_step hello.2 (PairingChallenge nonce se) = (Ok (Send (PairingProof proof)), c2) ∧
    (∀ env2 sh2, ∃ resumed previous ep s2 sh3,
       server_step env2 sh2 s1 (PairingProof proof)
         = (Ok (Done session (c_device_id c) (c_display_name c) resumed previous ep), s2, sh3) ∧
       Authenticates s (c_device_id c) (client_key c) resumed previous) ∧
    (∀ host_id host_name, ∃ c3,
       client_step c2 (PairingOk host_id host_name)
         = (Ok (Done session host_id host_name (is_resume c) false None), c3) ∧
       c_state c3 = CDone) ∧
    verification_code c2
      = (if is_resume c then None else result_ok (pair_verification_code session)).
Proof. apply agreement. Qed.

(** ** One connection, any messages *)

(** A connection's messages, each with its outside inputs and the shared state
    as the other connections left it. *)
Fixpoint server_run (s : ServerHandshake) (inputs : list (ServerEnv * Shared * HandshakeMessage))
    : list (SyncResult Outcome) :=
  match inputs with
  | [] => []
  | (env, sh, m) :: rest =>
      let '(r, s', _) := server_step env sh s m in
      r :: server_run s' rest
  end.

Definition replies (rs : list (SyncResult Outcome)) : list Outcome := omap result_ok rs.

Lemma server_run_closed s inputs :
  s_state s = SDone ∨ s_state s = SFailed → replies (server_run s inputs) = [].
Proof.
  revert s. induction inputs as [|[[env sh] m] rest IH]; intros s Hs; [done|]. simpl.
  unfold server_step. destruct Hs as [Hs|Hs]; rewrite Hs; destruct m; simpl;
    (apply IH; auto).
Qed.

Ltac pick_shape :=
  first [ left; eexists; split; [reflexivity|solve [auto]]
        | right; left; eexists; split; reflexivity
        | right; right; repeat eexists; reflexivity ].

(** The shape of a step's result, by the state it started from. *)
Lemma server_step_shape env sh s m r s' sh' :
  server_step env sh s m = (r, s', sh') →
  match s_state s with
  | SAwaitingHello =>
      (∃ e, r = Err e ∧ s' = s) ∨
      (∃ reason, r = Ok (Send (PairingFailed reason)) ∧ s_state s' = SFailed) ∨
      (∃ nonce se ss d n a g ep ec t, r = Ok (Send (PairingChallenge nonce se)) ∧
         s_state s' = SSentChallenge nonce ss d n a g ep ec t)
  | SSentChallenge _ _ _ _ _ _ _ _ _ =>
      (∃ e, r = Err e ∧ (s' = s ∨ s_state s' = SDone)) ∨
      (∃ reason, r = Ok (Send (PairingFailed reason)) ∧ s_state s' = SFailed) ∨
      (∃ ss d n b1 b2 ep, r = Ok (Done ss d n b1 b2 ep) ∧ s_state s' = SDone)
  | _ => ∃ e, r = Err e ∧ s' = s
  end.
Proof.
  unfold server_step. destruct (s_state s) eqn:Es; destruct m;
    try (intros [= <- <- _]; solve [eauto 6 | left; eauto 6]).
  - unfold server_hello, refuse, issue_challenge.
    intros Hr. repeat (split_result; unfold refuse in *; simplify_eq/=); pick_shape.
  - unfold server_proof, refuse. intros Hr.
    repeat (split_result; unfold refuse in *; simplify_eq/=); pick_shape.
Qed.

(** Whatever messages a peer sends on one connection, in whatever
    order and whatever the other connections do meanwhile, the host produces at
    most a refusal, or one challenge followed by at most one refusal or one
    completion; nothing after that is answered. *)
Theorem connection_is_one_shot s inputs :
  s_state s = SAwaitingHello →
  let rs := replies (server_run s inputs) in
  rs = [] ∨ (∃ reason, rs = [Send (PairingFailed reason)]) ∨
  ∃ nonce se, rs = [Send (PairingChallenge nonce se)] ∨
    (∃ reason, rs = [Send (PairingChallenge nonce se); Send (PairingFailed reason)]) ∨
    (∃ ss d n b1 b2 ep, rs = [Send (PairingChallenge nonce se); Done ss d n b1 b2 ep]).
Proof.
  assert (Hchal : ∀ inputs s, (∃ a b c d e f g h i, s_state s = SSentChallenge a b c d e f g h i) →
    let rs := replies (server_run s inputs) in
    rs = [] ∨ (∃ reason, rs = [Send (PairingFailed reason)]) ∨
    (∃ ss d n b1 b2 ep, rs = [Done ss d n b1 b2 ep])).
  { clear. induction inputs as [|[[env sh] m] rest IH]; intros s Hs; [by left|]. simpl.
    destruct (server_step env sh s m) as [[r s'] sh'] eqn:Estep.
    apply server_step_shape in Estep. destruct Hs as (?&?&?&?&?&?&?&?&?&Hs). rewrite Hs in Estep.
    destruct Estep as [(e & -> & [->|Hd])|[(reason & -> & Hf)|(?&?&?&?&?&?& -> & Hd)]]; simpl.
    - apply IH. naive_solver.
    - left. apply server_run_closed. auto.
    - right; left. exists reason. f_equal. apply server_run_closed. auto.
    - right; right. repeat eexists. f_equal. apply server_run_closed. auto. }
  revert s. induction inputs as [|[[env sh] m] rest IH]; intros s Hs; [by left|]. simpl.
  destruct (server_step env sh s m) as [[r s'] sh'] eqn:Estep.
  apply server_step_shape in Estep. rewrite Hs in Estep.
  destruct Estep as [(e & -> & ->)|[(reason & -> & Hf)|(nonce&se&?&?&?&?&?&?&?&?& -> & Hd)]]; simpl.
  - by apply IH.
  - right; left. exists reason. f_equal. apply server_run_closed. auto.
  - right; right. exists nonce, se.
    destruct (Hchal rest s') as [->|[(reason & ->)|(?&?&?&?&?&?& ->)]]; naive_solver.
Qed.

(** A host tells a peer that it was revoked only when the identity
    the transport authenticated is revoked, and only in answer to that
    identity: a peer claiming another device's id learns nothing of it. *)
Theorem revocation_told_only_to_the_device env sh s d v n ce s' sh' :
  s_state s = SAwaitingHello →
  server_step env sh s (Hello d v n ce) = (Ok (Send (PairingFailed Revoked)), s', sh') →
  s_authenticated_device_revoked s = true ∧
  (s_authenticated_device s = None ∨ s_authenticated_device s = Some d).
Proof.
  intros Hst. unfold server_step. rewrite Hst. unfold server_hello, refuse.
  destruct (negb _); [done|].
  destruct (match s_authenticated_device s with Some _ => _ | None => _ end) eqn:Ea; [done|].
  assert (s_authenticated_device s = None ∨ s_authenticated_device s = Some d) as Hid.
  { destruct (s_authenticated_device s) as [a|]; [|by left]. right.
    apply bool_decide_eq_false, dec_stable in Ea. by subst. }
  destruct (bool_decide _ && bool_decide _); [done|].
  unfold enrollment_gate, issue_challenge, refuse.
  destruct (s_authenticated_device_revoked s); [done|].
  intros Hr. repeat (split_result; unfold refuse in *; simplify_eq/=).
Qed.

(** Channel binding: the bytes a proof authenticates determine the
    protocol generation's domain label and both ephemeral public keys, so a
    party in the middle that substitutes either key changes what is proved. *)
Theorem transcript_binds_both_keys nonce nonce' ce se ce' se' :
  length nonce = length nonce' → length ce = 32%nat → length ce' = 32%nat →
  nonce ++ build_transcript ce se = nonce' ++ build_transcript ce' se' →
  nonce = nonce' ∧ ce = ce' ∧ se = se'.
Proof.
  intros Hn Hc Hc' Heq. unfold build_transcript in Heq.
  apply app_inj_1 in Heq as [-> Heq]; [|done].
  apply app_inv_head in Heq. apply app_inv_head in Heq.
  apply app_inj_1 in Heq as [-> ->]; [done|congruence].
Qed.

End WithLaws.
End WithCrypto.

(** ** A concrete first pair *)
Import Toy.

#[local] Transparent gmap_empty be_bytes be_value le_bytes le_value.
Definition ex_phone : DeviceId := replicate 16 Byte.x22.
Definition ex_secret : PairingSecret := Ticket (replicate 16 Byte.x5c).
Definition ex_pairing : PairingState := pairing_open 0 (secs 300) (pairing_new [ex_secret]).
Definition ex_shared : Shared :=
  {| sh_rate_limiter := {| mutex_value := ∅; mutex_poisoned := false |};
     sh_pairing := {| mutex_value := ex_pairing; mutex_poisoned := false |} |}.
Definition ex_server : ServerHandshake :=
  with_rate_limit_key "phone" (with_first_pair (snapshot 1 ex_pairing)
    (with_authenticated_device ex_phone false (server_new (replicate 16 Byte.x11) "laptop"))).
Definition ex_env : ServerEnv :=
  {| env_gate1 := 2; env_gate2 := 2; env_rate := {| t_gc := 2; t_check := 2; t_stamp := 2 |};
     env_nonce := replicate 32 Byte.x33; env_eph := Byte.x07 |}.
Definition ex_client : ClientHandshake := client_first_pair ex_phone "phone" ex_secret.
Definition ex_hello : HandshakeMessage := (client_start ex_client Byte.x09).1.
Definition ex_started : ClientHandshake := (client_start ex_client Byte.x09).2.
Definition ex_nonce : bytes := replicate 32 Byte.x33.
Definition ex_eph_pub : bytes := toy_public Byte.x07.
Definition ex_challenged : ServerHandshake := (server_step ex_env ex_shared ex_server ex_hello).1.2.
Definition ex_shared1 : Shared := (server_step ex_env ex_shared ex_server ex_hello).2.

Lemma ex_challenge :
  server_step ex_env ex_shared ex_server ex_hello
  = (Ok (Send (PairingChallenge ex_nonce ex_eph_pub)), ex_challenged, ex_shared1).
Proof. vm_compute. reflexivity. Qed.

Lemma ex_separate nonce t : proofs_separate ex_server ex_phone nonce t.
Proof.
  intros k k' r p r' p' Hk Hk' _.
  destruct Hk as [tok Ht|tok cur Ht _|x Hx]; [done..|].
  destruct Hk' as [tok Ht|tok cur Ht _|x' Hx']; [done..|].
  simpl in Hx, Hx'. apply list_elem_of_singleton in Hx, Hx'. congruence.
Qed.

Lemma ex_accepts : ∃ r p, Authenticates ex_server ex_phone (client_key ex_client) r p.
Proof. exists false, false. apply (Auth_secret ex_server ex_phone ex_secret). left. Qed.

(** The proof the client sends and what the host makes of it. *)
Definition ex_proof : bytes := proof_of (client_key ex_client) ex_nonce
  (build_transcript (toy_public Byte.x09) ex_eph_pub).
Definition ex_session : bytes :=
  match derive_session_from_key (client_key ex_client) ex_nonce (toy_dh Byte.x07 (toy_public Byte.x09)) with
  | Ok s => s
  | Err _ => []
  end.
Definition ex_finished := server_step ex_env ex_shared1 ex_challenged (PairingProof ex_proof).

Lemma ex_done :
  ex_finished = (Ok (Done ex_session ex_phone "phone" false false (Some 1)),
                 ex_finished.1.2, ex_finished.2).
Proof. vm_compute. reflexivity. Qed.

Lemma challenge_is_gated_witness :
  11 = PROTOCOL_VERSION ∧
  (s_authenticated_device ex_server = None ∨ s_authenticated_device ex_server = Some ex_phone).
Proof.
  destruct (challenge_is_gated ex_env ex_shared ex_server ex_phone 11 "phone" (toy_public Byte.x09)
              ex_nonce ex_eph_pub ex_challenged ex_shared1 eq_refl ex_challenge) as (? & ? & _).
  split; assumption.
Defined.

Lemma completion_is_authentic_witness :
  ∃ key, Authenticates ex_server ex_phone key false false ∧
    ex_proof = proof_of key ex_nonce (build_transcript (toy_public Byte.x09) ex_eph_pub) ∧
    derive_session_from_key key ex_nonce (toy_dh Byte.x07 (toy_public Byte.x09)) = Ok ex_session.
Proof.
  exact (proj1 (proj2 (proj2 (completion_is_authentic ex_env ex_shared ex_server ex_phone 11 "phone"
    (toy_public Byte.x09) ex_nonce ex_eph_pub ex_challenged ex_shared1 ex_env ex_shared1 ex_proof
    ex_finished.1.2 ex_finished.2 ex_session ex_phone "phone" false false (Some 1)
    eq_refl ex_challenge ex_done)))).
Defined.

Lemma handshake_agreement_witness :
  ∃ proof session c2,
    client_step ex_started (PairingChallenge ex_nonce ex_eph_pub)
      = (Ok (Send (PairingProof proof)), c2) ∧
    verification_code c2 = result_ok (pair_verification_code session).
Proof.
  destruct (handshake_agreement ex_env ex_shared ex_client ex_server Byte.x09 ex_nonce ex_eph_pub
              ex_challenged ex_shared1 eq_refl ex_challenge ex_accepts (ex_separate _ _))
    as (proof & session & c2 & Hc & _ & _ & Hv).
  exists proof, session, c2. split; [exact Hc|exact Hv].
Defined.

Lemma connection_is_one_shot_witness :
  s_state ex_server = SAwaitingHello ∧
  let rs := replies (server_run ex_server
    [(ex_env, ex_shared, PairingProof ex_proof); (ex_env, ex_shared, ex_hello);
     (ex_env, ex_shared1, PairingProof ex_proof); (ex_env, ex_shared1, ex_hello)]) in
  rs = [] ∨ (∃ reason, rs = [Send (PairingFailed reason)]) ∨
  ∃ nonce se, rs = [Send (PairingChallenge nonce se)] ∨
    (∃ reason, rs = [Send (PairingChallenge nonce se); Send (PairingFailed reason)]) ∨
    (∃ ss d n b1 b2 ep, rs = [Send (PairingChallenge nonce se); Done ss d n b1 b2 ep]).
Proof.
  split; [reflexivity|].
  apply (connection_is_one_shot ex_server). reflexivity.
Defined.

(** A revoked phone calling after the window closed. *)
Definition ex_revoked : ServerHandshake :=
  with_first_pair (snapshot (secs 400) ex_pairing)
    (with_authenticated_device ex_phone true (server_new (replicate 16 Byte.x11) "laptop")).
Definition ex_refused := server_step ex_env ex_shared ex_revoked ex_hello.

Lemma revocation_told_only_to_the_device_witness :
  s_authenticated_device_revoked ex_revoked = true ∧
  (s_authenticated_device ex_revoked = None ∨ s_authenticated_device ex_revoked = Some ex_phone).
Proof.
  apply (revocation_told_only_to_the_device ex_env ex_shared ex_revoked ex_phone 11 "phone"
           (toy_public Byte.x09) ex_refused.1.2 ex_refused.2);
    [reflexivity|vm_compute; reflexivity].
Defined.

Lemma transcript_binds_both_keys_witness :
  ex_nonce = ex_nonce ∧ ex_eph_pub = ex_eph_pub ∧ toy_public Byte.x09 = toy_public Byte.x09.
Proof.
  apply (transcript_binds_both_keys ex_nonce ex_nonce ex_eph_pub (toy_public Byte.x09));
    [reflexivity|vm_compute; reflexivity|vm_compute; reflexivity|reflexivity].
Defined.

End Handshake.
