(* ===== verification/CredentialStore.v ===== *)
(** * CredentialStore: pluggable persistence of device credentials

    [crates/transport/src/credential_store.rs]: the [CredentialStore] trait is
    the class [CredentialStore], what its clients rely on is the class
    [CredentialStoreLaws], and [FileCredentialStore] (on Unix, over the
    primitives of [secure.rs]) is an instance that satisfies them.

    A store can fail at any operation. What matters after a crash is, for each
    record, the set of values the disk may hold. *)

From S2P Require Import Prelude Errors.

Inductive Durability := BestEffort | Required.

#[global] Instance Durability_eq_dec : EqDecision Durability.
Proof. solve_decision. Defined.

Definition IDENTITY_RECORD : string := "identity.bin".
Definition PEERS_RECORD : string := "portty-peers.dat".
Definition LAST_HOST_RECORD : string := "portty-last-host.dat".
Definition PAIR_STATE_RECORD : string := "portty-pair-state-v1.dat".
Definition REVOCATIONS_RECORD : string := "portty-revocations-v1.dat".
Definition GRACE_RECORD : string := "portty-grace-v1.dat".

(** ** The trait *)

Class CredentialStore (S : Type) := {
  cs_read : string → S → result IoKind (option bytes) * S;
  cs_write : string → bytes → Durability → S → result IoKind unit * S;
  cs_remove : string → S → result IoKind unit * S;
  (** What reads return when nothing fails. *)
  cs_contents : S → gmap string bytes;
  (** The values a record may have if the machine stops now. *)
  cs_after_crash : S → string → option bytes → Prop;
}.

(** The contract. A read that returns a record returns what is stored, and may miss a
    record whose presence it cannot find out; a failed write or removal may or may
    not have taken effect; a [Required] write that reports success is durable, and so
    is a removal that took a record away; an operation on one record leaves the
    others alone. (The trait promises more: every removal that reports success is
    durable. See [remove_retry_is_not_durable] for the one that finds nothing.) *)
Class CredentialStoreLaws (S : Type) `{CredentialStore S} : Prop := {
  cs_live s n : cs_after_crash s n (cs_contents s !! n);
  cs_read_law n s r s' :
    cs_read n s = (r, s') →
    cs_contents s' = cs_contents s ∧
    (∀ m v, cs_after_crash s' m v → cs_after_crash s m v) ∧
    (∀ o, r = Ok o → o = None ∨ o = cs_contents s !! n);
  cs_write_contents n b d s r s' :
    cs_write n b d s = (r, s') →
    (r = Ok tt ∧ cs_contents s' = <[n := b]> (cs_contents s)) ∨
    ((∃ k, r = Err k) ∧
     (cs_contents s' = cs_contents s ∨ cs_contents s' = <[n := b]> (cs_contents s)));
  cs_write_crash n b d s r s' :
    cs_write n b d s = (r, s') →
    (∀ v, cs_after_crash s' n v → v = Some b ∨ cs_after_crash s n v) ∧
    (∀ v, d = Required → r = Ok tt → cs_after_crash s' n v → v = Some b) ∧
    (∀ m v, m ≠ n → cs_after_crash s' m v → cs_after_crash s m v);
  cs_remove_contents n s r s' :
    cs_remove n s = (r, s') →
    (r = Ok tt ∧ cs_contents s' = delete n (cs_contents s)) ∨
    ((∃ k, r = Err k) ∧
     (cs_contents s' = cs_contents s ∨ cs_contents s' = delete n (cs_contents s)));
  cs_remove_crash n s r s' :
    cs_remove n s = (r, s') →
    (∀ v, cs_after_crash s' n v → v = None ∨ cs_after_crash s n v) ∧
    (∀ v, r = Ok tt → is_Some (cs_contents s !! n) → cs_after_crash s' n v → v = None) ∧
    (∀ m v, m ≠ n → cs_after_crash s' m v → cs_after_crash s m v);
}.

(** Reading some records one after the other, none that is there is missed. *)
Fixpoint none_missed {S} `{CredentialStore S} (ns : list string) (s : S) : Prop :=
  match ns with
  | [] => True
  | n :: ns => ((cs_read n s).1 = Ok None → cs_contents s !! n = None) ∧ none_missed ns (cs_read n s).2
  end.

Lemma read_present {S} `{CredentialStoreLaws S} n s o s' :
  cs_read n s = (Ok o, s') → ((cs_read n s).1 = Ok None → cs_contents s !! n = None) → o = cs_contents s !! n.
Proof. intros Hr Hm. destruct (cs_read_law n s _ _ Hr) as (_ & _ & Ho). rewrite Hr in Hm. destruct (Ho o eq_refl) as [->|]; [|done]. by rewrite Hm. Qed.

(** ** The file store *)
Module FileStore.

(** A step of the operating system: it succeeds, or fails with a kind having
    written so many bytes. *)
Definition Fault : Type := option (IoKind * nat).

(** The directory: the record files, the staging files (whose random names
    are never record names), for each record the values that an unsynced
    directory may still fall back to, and the outcomes of the steps to come. *)
Record FileCredentialStore := {
  fs_records : gmap string bytes;
  fs_staged : gmap string bytes;
  fs_unsynced : gmap string (list (option bytes));
  fs_faults : list Fault;
}.

Definition pop_fault (s : FileCredentialStore) : Fault * FileCredentialStore :=
  match fs_faults s with
  | [] => (None, s)
  | f :: fs => (f, {| fs_records := fs_records s; fs_staged := fs_staged s;
                      fs_unsynced := fs_unsynced s; fs_faults := fs |})
  end.

(** A step with no effect on the files ([prepare_secret_dir],
    [exclude_from_backup], [open_no_follow], [restrict_open_file_to_current_user],
    [read_to_end]). *)
Definition os_step (s : FileCredentialStore) : result IoKind unit * FileCredentialStore :=
  match pop_fault s with
  | (None, s') => (Ok tt, s')
  | (Some (k, _), s') => (Err k, s')
  end.

Definition set_staged (s : FileCredentialStore) (m : gmap string bytes) : FileCredentialStore :=
  {| fs_records := fs_records s; fs_staged := m; fs_unsynced := fs_unsynced s;
     fs_faults := fs_faults s |}.

(** Changing a record's directory entry: its former value stays possible until
    the directory is synced. *)
Definition set_record (s : FileCredentialStore) (n : string) (v : option bytes)
    : FileCredentialStore :=
  {| fs_records := match v with Some b => <[n := b]> (fs_records s) | None => delete n (fs_records s) end;
     fs_staged := fs_staged s;
     fs_unsynced := <[n := (fs_records s !! n) :: default [] (fs_unsynced s !! n)]> (fs_unsynced s);
     fs_faults := fs_faults s |}.

(** [secure::write_owner_only] of a staging file: on failure a part of it may
    be left behind. *)
Definition write_owner_only (tmp : string) (b : bytes) (s : FileCredentialStore)
    : result IoKind unit * FileCredentialStore :=
  let s0 := set_staged s (delete tmp (fs_staged s)) in
  match pop_fault s0 with
  | (None, s1) => (Ok tt, set_staged s1 (<[tmp := b]> (fs_staged s1)))
  | (Some (k, n), s1) => (Err k, set_staged s1 (<[tmp := take n b]> (fs_staged s1)))
  end.

(** [std::fs::remove_file] of a staging file, its result ignored. *)
Definition discard (tmp : string) (s : FileCredentialStore) : FileCredentialStore :=
  match pop_fault s with
  | (None, s1) => set_staged s1 (delete tmp (fs_staged s1))
  | (Some _, s1) => s1
  end.

(** [secure::replace_durably] on Unix: a rename. *)
Definition replace_durably (tmp n : string) (s : FileCredentialStore)
    : result IoKind unit * FileCredentialStore :=
  match pop_fault s with
  | (Some (k, _), s1) => (Err k, s1)
  | (None, s1) =>
      match fs_staged s1 !! tmp with
      | None => (Err NotFound, s1)
      | Some b => (Ok tt, set_record (set_staged s1 (delete tmp (fs_staged s1))) n (Some b))
      end
  end.

(** [secure::sync_parent] on Unix: the directory's entries become durable. *)
Definition sync_parent (s : FileCredentialStore) : result IoKind unit * FileCredentialStore :=
  match pop_fault s with
  | (Some (k, _), s1) => (Err k, s1)
  | (None, s1) =>
      (Ok tt, {| fs_records := fs_records s1; fs_staged := fs_staged s1; fs_unsynced := ∅;
                 fs_faults := fs_faults s1 |})
  end.

(** [path]: a record name is one path component. *)
Definition valid_name (n : string) : bool :=
  negb (bool_decide (n = "")) && negb (bool_decide (n = ".")) && negb (bool_decide (n = ".."))
  && forallb (λ b, negb (bool_decide (b = Byte.x2f)) && negb (bool_decide (b = Byte.x5c)))
       (str_bytes n).

(** [Path::exists]: an error to look counts as absence. *)
Definition path_exists (n : string) (s : FileCredentialStore) : bool * FileCredentialStore :=
  match os_step s with
  | (Ok _, s1) => (bool_decide (is_Some (fs_records s1 !! n)), s1)
  | (Err _, s1) => (false, s1)
  end.

(** [open_no_follow], [restrict_open_file_to_current_user], [exclude_from_backup],
    [read_to_end], one after the other. *)
Fixpoint os_steps (k : nat) (s : FileCredentialStore) : result IoKind unit * FileCredentialStore :=
  match k with
  | O => (Ok tt, s)
  | S k => match os_step s with (Err e, s1) => (Err e, s1) | (Ok _, s1) => os_steps k s1 end
  end.

Definition file_read (n : string) (s : FileCredentialStore)
    : result IoKind (option bytes) * FileCredentialStore :=
  if negb (valid_name n) then (Err InvalidInput, s)
  else
    let '(there, s) := path_exists n s in
    if negb there then (Ok None, s)
    else match os_steps 4 s with
         | (Err k, s) => (Err k, s)
         | (Ok _, s) => (match fs_records s !! n with Some b => Ok (Some b) | None => Err NotFound end, s)
         end.

(** [write], [tmp] being the staging file's random name. *)
Definition file_write_at (tmp n : string) (b : bytes) (d : Durability) (s : FileCredentialStore)
    : result IoKind unit * FileCredentialStore :=
  if negb (valid_name n) then (Err InvalidInput, s)
  else match os_step s with
       | (Err k, s1) => (Err k, s1)
       | (Ok _, s1) =>
           match write_owner_only tmp b s1 with
           | (Err k, s2) => (Err k, discard tmp s2)
           | (Ok _, s2) =>
               match os_step s2 with
               | (Err k, s3) => (Err k, discard tmp s3)
               | (Ok _, s3) =>
                   match replace_durably tmp n s3 with
                   | (Err k, s4) => (Err k, discard tmp s4)
                   | (Ok _, s4) =>
                       match d with
                       | Required => sync_parent s4
                       | BestEffort => (Ok tt, (sync_parent s4).2)
                       end
                   end
               end
           end
       end.

Definition file_write (n : string) (b : bytes) (d : Durability) (s : FileCredentialStore)
    : result IoKind unit * FileCredentialStore :=
  file_write_at (n +:+ ".credential.tmp") n b d s.

(** [std::fs::remove_file] of a record: [NotFound] is reported for a missing
    file and only for one. *)
Definition remove_file (n : string) (s : FileCredentialStore)
    : result IoKind unit * FileCredentialStore :=
  match fs_records s !! n with
  | None => (Err NotFound, s)
  | Some _ =>
      match pop_fault s with
      | (Some (k, _), s1) => (Err (if bool_decide (k = NotFound) then OtherIo else k), s1)
      | (None, s1) => (Ok tt, set_record s1 n None)
      end
  end.

(** [remove]: removing what is not there is not an error. *)
Definition file_remove (n : string) (s : FileCredentialStore)
    : result IoKind unit * FileCredentialStore :=
  if negb (valid_name n) then (Err InvalidInput, s)
  else match remove_file n s with
       | (Ok _, s1) => sync_parent s1
       | (Err NotFound, s1) => (Ok tt, s1)
       | (Err k, s1) => (Err k, s1)
       end.

(** The values a crash may leave. *)
Definition file_after_crash (s : FileCredentialStore) (n : string) (v : option bytes) : Prop :=
  v = fs_records s !! n ∨ v ∈ default [] (fs_unsynced s !! n).

#[export] Instance file_store : CredentialStore FileCredentialStore := {|
  cs_read := file_read;
  cs_write := file_write;
  cs_remove := file_remove;
  cs_contents := fs_records;
  cs_after_crash := file_after_crash;
|}.

(** *** The laws *)

(** Two states with the same records and no new fall-back values. *)
Definition quiet (s s' : FileCredentialStore) : Prop :=
  fs_records s' = fs_records s ∧
  (fs_unsynced s' = fs_unsynced s ∨ fs_unsynced s' = ∅).

#[local] Instance quiet_refl : Reflexive quiet.
Proof. intros s. split; auto. Qed.
#[local] Instance quiet_trans : Transitive quiet.
Proof. intros s1 s2 s3 [R1 U1] [R2 U2]. split; [congruence|]. naive_solver congruence. Qed.

Lemma quiet_crash s s' n v : quiet s s' → file_after_crash s' n v → file_after_crash s n v.
Proof.
  unfold file_after_crash. intros [-> [->| ->]]; [done|].
  rewrite lookup_empty. simpl. intros [?|Hv]; [by left|]. by apply not_elem_of_nil in Hv.
Qed.

Lemma pop_fault_quiet s f s' : pop_fault s = (f, s') → quiet s s'.
Proof. unfold pop_fault. destruct (fs_faults s); intros [= <- <-]; split; auto. Qed.

Lemma os_step_quiet s r s' : os_step s = (r, s') → quiet s s'.
Proof.
  unfold os_step. destruct (pop_fault s) as [[[k n]|] s1] eqn:E; intros [= <- <-];
    by eapply pop_fault_quiet.
Qed.

Lemma os_steps_quiet k s r s' : os_steps k s = (r, s') → quiet s s'.
Proof.
  revert s. induction k as [|k IH]; intros s; simpl; [by intros [= <- <-]|].
  destruct (os_step s) as [[[]|e] s1] eqn:E; apply os_step_quiet in E; [|by intros [= <- <-]].
  intros H. etrans; [done|]. by apply IH.
Qed.

Lemma set_staged_quiet s m : quiet s (set_staged s m).
Proof. split; auto. Qed.

Lemma write_owner_only_quiet tmp b s r s' :
  write_owner_only tmp b s = (r, s') →
  quiet s s' ∧ (r = Ok tt → fs_staged s' !! tmp = Some b).
Proof.
  unfold write_owner_only.
  destruct (pop_fault _) as [[[k n]|] s1] eqn:E; intros [= <- <-];
    apply pop_fault_quiet in E; (split; [|simpl; try done; intros _; by rewrite lookup_insert_eq]);
    (etrans; [apply set_staged_quiet|]; etrans; [exact E|]; apply set_staged_quiet).
Qed.

Lemma discard_quiet tmp s : quiet s (discard tmp s).
Proof.
  unfold discard. destruct (pop_fault s) as [[?|] s1] eqn:E; apply pop_fault_quiet in E; [done|].
  etrans; [exact E|]. apply set_staged_quiet.
Qed.

Lemma sync_parent_spec s r s' :
  sync_parent s = (r, s') →
  quiet s s' ∧ (r = Ok tt → fs_unsynced s' = ∅) ∧ (r = Ok tt ∨ ∃ k, r = Err k).
Proof.
  unfold sync_parent. destruct (pop_fault s) as [[[k n]|] s1] eqn:E; intros [= <- <-];
    apply pop_fault_quiet in E.
  - split_and!; [done|done|eauto].
  - destruct E as [E _]. split_and!; [split; [done|by right]|done|by left].
Qed.

Lemma set_record_crash s n v m w :
  file_after_crash (set_record s n v) m w →
  (m = n ∧ w = v) ∨ file_after_crash s m w.
Proof.
  unfold file_after_crash, set_record; simpl.
  destruct (decide (m = n)) as [->|Hne].
  - rewrite lookup_insert_eq. simpl. destruct v as [b|].
    + rewrite lookup_insert_eq. set_solver.
    + rewrite lookup_delete_eq. set_solver.
  - rewrite lookup_insert_ne by done. destruct v as [b|].
    + rewrite lookup_insert_ne by done. auto.
    + rewrite lookup_delete_ne by done. auto.
Qed.

(** What a completed or failed [write] did to the records. *)
Inductive write_effect (n : string) (b : bytes) (d : Durability) (s : FileCredentialStore)
    : result IoKind unit → FileCredentialStore → Prop :=
| WE_nothing k s' : quiet s s' → write_effect n b d s (Err k) s'
| WE_replaced r s0 s' :
    quiet s s0 → quiet (set_record s0 n (Some b)) s' →
    (d = Required → r = Ok tt → fs_unsynced s' = ∅) →
    (r = Ok tt ∨ ∃ k, r = Err k) → write_effect n b d s r s'.

Lemma file_write_effect tmp n b d s r s' :
  file_write_at tmp n b d s = (r, s') → write_effect n b d s r s'.
Proof.
  unfold file_write_at. destruct (valid_name n); simpl; [|intros [= <- <-]; by constructor].
  destruct (os_step s) as [[[]|k] s1] eqn:E1; apply os_step_quiet in E1;
    [|intros [= <- <-]; by constructor].
  destruct (write_owner_only tmp b s1) as [r2 s2] eqn:E2.
  apply write_owner_only_quiet in E2 as [E2 Hst].
  assert (Q2 : quiet s s2) by (by etrans).
  destruct r2 as [[]|k]; [|intros [= <- <-]; constructor; etrans; [done|apply discard_quiet]].
  destruct (os_step s2) as [[[]|k] s3] eqn:E3;
    [|apply os_step_quiet in E3; intros [= <- <-]; constructor;
      etrans; [exact Q2|]; etrans; [exact E3|]; apply discard_quiet].
  assert (Hst3 : fs_staged s3 !! tmp = Some b).
  { unfold os_step, pop_fault in E3. destruct (fs_faults s2) as [|[[? ?]|] ?];
      simplify_eq/=; by apply Hst. }
  apply os_step_quiet in E3. assert (Q3 : quiet s s3) by (by etrans).
  unfold replace_durably. destruct (pop_fault s3) as [f s4] eqn:E4.
  assert (Hst4 : fs_staged s4 !! tmp = Some b).
  { unfold pop_fault in E4. destruct (fs_faults s3); by simplify_eq/=. }
  apply pop_fault_quiet in E4. assert (Q4 : quiet s s4) by (by etrans).
  destruct f as [[k m]|]; [intros [= <- <-]; constructor; etrans; [exact Q4|apply discard_quiet]|].
  rewrite Hst4. set (s5 := set_staged s4 _). intros Hr.
  assert (Q5 : quiet s s5) by (etrans; [exact Q4|apply set_staged_quiet]).
  destruct (sync_parent (set_record s5 n (Some b))) as [r6 s6] eqn:E6.
  apply sync_parent_spec in E6 as (Q6 & U6 & R6). destruct d; simplify_eq/=.
  - eapply WE_replaced; [exact Q5|exact Q6|done|by left].
  - eapply WE_replaced; [exact Q5|exact Q6|auto|done].
Qed.

Lemma replaced_records s0 s' n b : quiet (set_record s0 n (Some b)) s' →
  fs_records s' = <[n := b]> (fs_records s0).
Proof. by intros [-> _]. Qed.

(** What [remove] did. *)
Lemma file_remove_effect n s r s' :
  file_remove n s = (r, s') →
  (r = Ok tt ∧ quiet s s' ∧ fs_records s !! n = None) ∨
  ((∃ k, r = Err k) ∧ quiet s s') ∨
  (∃ s1, quiet s s1 ∧ quiet (set_record s1 n None) s' ∧ (r = Ok tt → fs_unsynced s' = ∅) ∧ (r = Ok tt ∨ ∃ k, r = Err k)).
Proof.
  unfold file_remove. destruct (valid_name n); simpl; [|intros [= <- <-]; right; left; split; eauto; done].
  unfold remove_file. destruct (fs_records s !! n) eqn:Er.
  - destruct (pop_fault s) as [[[k m]|] s1] eqn:E; apply pop_fault_quiet in E.
    + right; left. destruct k; simplify_eq/=; eauto.
    + intros Hs. right; right. exists s1. apply sync_parent_spec in Hs as (Q & U & R). auto.
  - intros [= <- <-]. left. done.
Qed.

#[export] Instance file_store_laws : CredentialStoreLaws FileCredentialStore.
Proof.
  split.
  - intros s n. by left.
  - intros n s r s' Hr.
    assert (quiet s s' ∧ ∀ o, r = Ok o → o = None ∨ o = fs_records s !! n) as [Q Ho].
    { cbn [cs_read file_store] in Hr. unfold file_read, path_exists in Hr.
      destruct (valid_name n); cbn [negb] in Hr; [|by injection Hr as <- <-].
      destruct (os_step s) as [[[]|k] s1] eqn:E1; apply os_step_quiet in E1; cbn [negb] in Hr;
        [|injection Hr as <- <-; split; [done|intros o [= <-]; by left]].
      case_bool_decide; cbn [negb] in Hr; [|injection Hr as <- <-; split; [done|intros o [= <-]; by left]].
      destruct (os_steps 4 s1) as [[[]|k] s2] eqn:E2; apply os_steps_quiet in E2; injection Hr as <- <-;
        (split; [by etrans|]); [|done].
      assert (Q : quiet s s2) by (by etrans). destruct Q as [-> _]. intros o. destruct (fs_records s !! n); [|done].
      intros [= <-]. by right. }
    split_and!; [apply Q|intros m v; by apply quiet_crash|done].
  - intros n b d s r s' Hw. apply file_write_effect in Hw. simpl.
    destruct Hw as [k s' [Q _]|r s0 s' [Q _] Hrep _ Hr]; [right; eauto|].
    apply replaced_records in Hrep. rewrite Q in Hrep.
    destruct Hr as [->|[k ->]]; [by left|right; eauto].
  - intros n b d s r s' Hw. apply file_write_effect in Hw. simpl.
    destruct Hw as [k s' Q|r s0 s' Q Hrep Hsync _].
    { split_and!; [|done|]; intros; [right|]; by eapply quiet_crash. }
    split_and!.
    + intros v Hv. apply (quiet_crash _ _ _ _ Hrep), set_record_crash in Hv.
      destruct Hv as [[_ ->]|Hv]; [by left|right; by eapply quiet_crash].
    + intros v Hd Hr [->|Hv].
      * rewrite (replaced_records _ _ _ _ Hrep). by rewrite lookup_insert_eq.
      * rewrite Hsync in Hv by done. rewrite lookup_empty in Hv. by apply not_elem_of_nil in Hv.
    + intros m v Hne Hv. apply (quiet_crash _ _ _ _ Hrep), set_record_crash in Hv.
      destruct Hv as [[-> _]|Hv]; [done|by eapply quiet_crash].
  - intros n s r s' Hr. apply file_remove_effect in Hr. simpl.
    destruct Hr as [(-> & [Q _] & Hn)|[([k ->] & [Q _])|(s1 & [Q1 _] & [Q2 _] & _ & Hr)]].
    + left. split; [done|]. rewrite Q. by rewrite delete_id.
    + right. eauto.
    + simpl in Q2. rewrite Q1 in Q2. destruct Hr as [->|[k ->]]; eauto.
  - intros n s r s' Hr. apply file_remove_effect in Hr. simpl.
    destruct Hr as [(_ & Q & Hn)|[([k ->] & Q)|(s1 & Q1 & Q2 & Hsync & _)]].
    + split_and!; [intros; right; by eapply quiet_crash| |intros; by eapply quiet_crash].
      intros v _ [b Hb]. congruence.
    + split_and!; [intros; right; by eapply quiet_crash|done|intros; by eapply quiet_crash].
    + split_and!.
      * intros v Hv. apply (quiet_crash _ _ _ _ Q2), set_record_crash in Hv.
        destruct Hv as [[_ ->]|Hv]; [by left|right; by eapply quiet_crash].
      * intros v Hr _ [->|Hv]; [destruct Q2 as [-> _]; simpl; apply lookup_delete_eq|].
        rewrite (Hsync Hr), lookup_empty in Hv. by apply not_elem_of_nil in Hv.
      * intros m v Hne Hv. apply (quiet_crash _ _ _ _ Q2), set_record_crash in Hv.
        destruct Hv as [[-> _]|Hv]; [done|by eapply quiet_crash].
Qed.


(** A removal whose directory sync failed is reported as an error
    that asks for a retry; the retry finds the file gone and reports success
    without syncing, and the record can still return after a crash. *)
Theorem remove_retry_is_not_durable n b s k m rest :
  valid_name n = true → fs_records s !! n = Some b →
  fs_faults s = None :: Some (k, m) :: rest →
  let first := file_remove n s in
  let second := file_remove n first.2 in
  first.1 = Err k ∧ second.1 = Ok tt ∧ file_after_crash second.2 n (Some b).
Proof.
  intros Hv Hn Hf. unfold file_remove, remove_file, pop_fault, sync_parent.
  rewrite Hv, Hn, Hf. simpl. rewrite lookup_delete_eq. simpl.
  split_and!; [done|done|]. right. simpl. rewrite Hn, lookup_insert_eq. simpl. by left.
Qed.

Definition flaky_store : FileCredentialStore :=
  {| fs_records := {[ LAST_HOST_RECORD := [Byte.x01] ]}; fs_staged := ∅; fs_unsynced := ∅;
     fs_faults := [None; Some (OtherIo, 0%nat)] |}.

Lemma remove_retry_is_not_durable_witness :
  (file_remove LAST_HOST_RECORD flaky_store).1 = Err OtherIo ∧
  (file_remove LAST_HOST_RECORD (file_remove LAST_HOST_RECORD flaky_store).2).1 = Ok tt ∧
  file_after_crash (file_remove LAST_HOST_RECORD (file_remove LAST_HOST_RECORD flaky_store).2).2
    LAST_HOST_RECORD (Some [Byte.x01]).
Proof.
  apply (remove_retry_is_not_durable LAST_HOST_RECORD [Byte.x01] flaky_store OtherIo 0 []);
    vm_compute; reflexivity.
Defined.

End FileStore.
