(* ===== verification/Peers.v ===== *)
(** * Peers: reconnect credentials, pair generations and revocations

    [crates/transport/src/peers.rs]. The store is a parameter (the
    [CredentialStore] interface), as are the postcard codecs of its records
    ([Codec]). Every operation is the whole method: the in-memory maps, the
    writes it makes in their order, and the roll-back on each failure. *)

From S2P Require Import Prelude Errors Pairing Handshake CredentialStore.

(** ** Records *)

Record PairState := { pair_id : bytes; event_key : bytes }.
Record GraceToken := { grace_pair_id : bytes; grace_token : Token }.
Record RevocationRecord := {
  event_id : bytes;
  revoked_pair_id : option bytes;
  revoked_event_key : option bytes;
  revoked_at_unix : Z;
}.
Record PeerRecord := { ticket : option string; token : Token }.

Record HandshakeCommit := {
  hc_ticket : option string;
  hc_token : Token;
  hc_resumed : bool;
  hc_candidate_pair_id : bytes;
  hc_candidate_event_key : bytes;
  hc_observed_revocation : option bytes;
  hc_observed_token : option Token;
}.

Inductive ResumedWith := CurrentToken | PreviousToken.

(** [postcard::to_allocvec] and [from_bytes] of one record type: what was
    encoded decodes to itself. A map is written in an iteration order that
    decoding does not depend on. *)
Class Codec (A : Type) := { encode : A → option bytes; decode : bytes → option A }.
Class CodecLaws (A : Type) `{Codec A} : Prop :=
  { decode_encode : ∀ x b, encode x = Some b → decode b = Some x }.

Module PeerStore.
Section WithStore.
Context {S : Type} `{CredentialStore S}.
Context `{!Codec (gmap DeviceId PeerRecord)} `{!Codec (gmap DeviceId PairState)}
        `{!Codec (gmap DeviceId RevocationRecord)} `{!Codec (gmap DeviceId GraceToken)}
        `{!Codec DeviceId}.

Record PeerStore := {
  map : gmap DeviceId PeerRecord;
  pair_state : gmap DeviceId PairState;
  revocations : gmap DeviceId RevocationRecord;
  grace : gmap DeviceId GraceToken;
  last_connected : option DeviceId;
  store : S;
}.

Definition set_map (ps : PeerStore) m : PeerStore :=
  {| map := m; pair_state := pair_state ps; revocations := revocations ps; grace := grace ps;
     last_connected := last_connected ps; store := store ps |}.
Definition set_pair_state (ps : PeerStore) m : PeerStore :=
  {| map := map ps; pair_state := m; revocations := revocations ps; grace := grace ps;
     last_connected := last_connected ps; store := store ps |}.
Definition set_revocations (ps : PeerStore) m : PeerStore :=
  {| map := map ps; pair_state := pair_state ps; revocations := m; grace := grace ps;
     last_connected := last_connected ps; store := store ps |}.
Definition set_grace_map (ps : PeerStore) m : PeerStore :=
  {| map := map ps; pair_state := pair_state ps; revocations := revocations ps; grace := m;
     last_connected := last_connected ps; store := store ps |}.
Definition set_last (ps : PeerStore) l : PeerStore :=
  {| map := map ps; pair_state := pair_state ps; revocations := revocations ps; grace := grace ps;
     last_connected := l; store := store ps |}.
Definition set_store (ps : PeerStore) st : PeerStore :=
  {| map := map ps; pair_state := pair_state ps; revocations := revocations ps; grace := grace ps;
     last_connected := last_connected ps; store := st |}.

(** ** Loading *)

(** A record that is absent or, for the lenient ones, does not decode is
    empty. *)
Definition read_lenient {A} `{Codec A} (n : string) (empty : A) (st : S) : result IoKind A * S :=
  match cs_read n st with
  | (Err k, st') => (Err k, st')
  | (Ok None, st') => (Ok empty, st')
  | (Ok (Some b), st') => (Ok (default empty (decode b)), st')
  end.

(** The revocations must decode. *)
Definition read_strict (st : S) : result IoKind (gmap DeviceId RevocationRecord) * S :=
  match cs_read REVOCATIONS_RECORD st with
  | (Err k, st') => (Err k, st')
  | (Ok None, st') => (Ok ∅, st')
  | (Ok (Some b), st') => (ok_or (decode b) InvalidData, st')
  end.

Definition load_from (st : S) : result IoKind PeerStore * S :=
  match read_lenient PEERS_RECORD (∅ : gmap DeviceId PeerRecord) st with
  | (Err k, st1) => (Err k, st1)
  | (Ok m, st1) =>
      match cs_read LAST_HOST_RECORD st1 with
      | (Err k, st2) => (Err k, st2)
      | (Ok lh, st2) =>
          match read_lenient PAIR_STATE_RECORD (∅ : gmap DeviceId PairState) st2 with
          | (Err k, st3) => (Err k, st3)
          | (Ok pst, st3) =>
              match read_strict st3 with
              | (Err k, st4) => (Err k, st4)
              | (Ok rv, st4) =>
                  match read_lenient GRACE_RECORD (∅ : gmap DeviceId GraceToken) st4 with
                  | (Err k, st5) => (Err k, st5)
                  | (Ok gr, st5) =>
                      (Ok {| map := m; pair_state := pst; revocations := rv; grace := gr;
                             last_connected := lh ≫= decode; store := st5 |}, st5)
                  end
              end
          end
      end
  end.

(** ** Queries: each filters revoked peers *)

Definition is_revoked (ps : PeerStore) (d : DeviceId) : bool :=
  bool_decide (is_Some (revocations ps !! d)).

Definition live_map (ps : PeerStore) : gmap DeviceId PeerRecord :=
  filter (λ kv, revocations ps !! kv.1 = None) (map ps).

Definition known_devices (ps : PeerStore) : list DeviceId := (map_to_list (live_map ps)).*1.

Definition tokens (ps : PeerStore) : gmap DeviceId Token := token <$> live_map ps.

Definition token_of (ps : PeerStore) (d : DeviceId) : option Token :=
  if is_revoked ps d then None else token <$> map ps !! d.

Definition grace_tokens (ps : PeerStore) : gmap DeviceId Token :=
  grace_token <$>
    filter (λ kv, (pair_id <$> pair_state ps !! kv.1) = Some (grace_pair_id kv.2))
      (filter (λ kv, revocations ps !! kv.1 = None ∧ is_Some (map ps !! kv.1)) (grace ps)).

Definition pair_id_of (ps : PeerStore) (d : DeviceId) : option bytes :=
  if is_revoked ps d then None else pair_id <$> pair_state ps !! d.

Definition revocation (ps : PeerStore) (d : DeviceId) : option RevocationRecord := revocations ps !! d.

Definition revocation_marker (ps : PeerStore) (d : DeviceId) : option bytes :=
  event_id <$> revocations ps !! d.

Definition records (ps : PeerStore) : list (DeviceId * PeerRecord) := map_to_list (live_map ps).

Definition dialable (kv : DeviceId * PeerRecord) : option (DeviceId * string * Token) :=
  t ← ticket kv.2; Some (kv.1, t, token kv.2).

(** [last_host]: the preferred host, else any, the map being walked in [order]. *)
Definition last_host (order : list (DeviceId * PeerRecord)) (ps : PeerStore)
    : option (DeviceId * string * Token) :=
  let preferred :=
    d ← last_connected ps;
    if is_revoked ps d then None
    else r ← map ps !! d; dialable (d, r) in
  match preferred with
  | Some x => Some x
  | None => head (omap dialable (filter (λ kv, revocations ps !! kv.1 = None) order))
  end.

(** ** Persisting *)

Definition write_record {A} `{Codec A} (n : string) (x : A) (d : Durability) (ps : PeerStore)
    : result IoKind unit * PeerStore :=
  match encode x with
  | None => (Err InvalidData, ps)
  | Some b => let '(r, st) := cs_write n b d (store ps) in (r, set_store ps st)
  end.

Definition persist (d : Durability) (ps : PeerStore) : result IoKind unit * PeerStore :=
  write_record PEERS_RECORD (map ps) d ps.

Definition persist_pair_state (ps : PeerStore) : result IoKind unit * PeerStore :=
  write_record PAIR_STATE_RECORD (pair_state ps) Required ps.

Definition persist_revocations (ps : PeerStore) : result IoKind unit * PeerStore :=
  write_record REVOCATIONS_RECORD (revocations ps) Required ps.

Definition persist_grace (ps : PeerStore) : result IoKind unit * PeerStore :=
  if decide (grace ps = ∅) then
    let '(r, st) := cs_remove GRACE_RECORD (store ps) in (r, set_store ps st)
  else write_record GRACE_RECORD (grace ps) BestEffort ps.

Definition remove_last_host (ps : PeerStore) : result IoKind unit * PeerStore :=
  let '(r, st) := cs_remove LAST_HOST_RECORD (store ps) in (r, set_store ps st).

(** ** Mutations *)

Definition set_last_host (peer : DeviceId) (ps : PeerStore) : result IoKind unit * PeerStore :=
  if decide (last_connected ps = Some peer) then (Ok tt, ps)
  else match write_record LAST_HOST_RECORD peer BestEffort ps with
       | (Err k, ps1) => (Err k, ps1)
       | (Ok _, ps1) => (Ok tt, set_last ps1 (Some peer))
       end.

Definition remember_token (peer : DeviceId) (tk : option string) (tok : Token) (d : Durability)
    (ps : PeerStore) : result IoKind unit * PeerStore :=
  let previous := map ps !! peer in
  let record := {| ticket := match tk with Some t => Some t | None => previous ≫= ticket end;
                   token := tok |} in
  match persist d (set_map ps (<[peer := record]> (map ps))) with
  | (Ok _, ps1) => (Ok tt, ps1)
  | (Err k, ps1) =>
      (Err k, set_map ps1 (match previous with
                           | Some p => <[peer := p]> (delete peer (map ps1))
                           | None => delete peer (map ps1)
                           end))
  end.

Definition remember (peer : DeviceId) (tk : option string) (tok : Token) (ps : PeerStore)
    : result IoKind unit * PeerStore :=
  if is_revoked ps peer then (Err PermissionDenied, ps)
  else remember_token peer tk tok Required ps.

Definition token_is_unchanged (ps : PeerStore) (peer : DeviceId) (observed : option Token) : bool :=
  match map ps !! peer, observed with
  | Some current, Some obs => bool_decide (token current = obs)
  | _, _ => false
  end.

Definition restore_pair_state (peer : DeviceId) (previous : option PairState) (ps : PeerStore)
    : PeerStore :=
  set_pair_state ps (match previous with
                     | Some p => <[peer := p]> (pair_state ps)
                     | None => delete peer (pair_state ps)
                     end).

(** Installing pair metadata and then the credential, undoing the metadata if
    either write fails (the common part of both branches of a commit). *)
Definition install_pair (peer : DeviceId) (commit : HandshakeCommit) (d : Durability) (ps : PeerStore)
    : result IoKind unit * PeerStore :=
  let previous := pair_state ps !! peer in
  let state := {| pair_id := hc_candidate_pair_id commit; event_key := hc_candidate_event_key commit |} in
  match persist_pair_state (set_pair_state ps (<[peer := state]> (pair_state ps))) with
  | (Err k, ps1) => (Err k, restore_pair_state peer previous ps1)
  | (Ok _, ps1) =>
      match remember_token peer (hc_ticket commit) (hc_token commit) d ps1 with
      | (Ok _, ps2) => (Ok tt, ps2)
      | (Err token_error, ps2) =>
          match persist_pair_state (restore_pair_state peer previous ps2) with
          | (Err rollback_error, ps3) => (Err rollback_error, ps3)
          | (Ok _, ps3) => (Err token_error, ps3)
          end
      end
  end.

(** Clearing a tombstone, last; on failure the authoritative record is read
    back into memory. *)
Definition clear_tombstone (peer : DeviceId) (ps : PeerStore) : result IoKind unit * PeerStore :=
  match revocations ps !! peer with
  | None => (Ok tt, ps)
  | Some _ =>
      match persist_revocations (set_revocations ps (delete peer (revocations ps))) with
      | (Ok _, ps1) => (Ok tt, ps1)
      | (Err k, ps1) =>
          match cs_read REVOCATIONS_RECORD (store ps1) with
          | (Err k', st) => (Err k', set_store ps1 st)
          | (Ok o, st) =>
              let ps2 := set_store ps1 st in
              (Err k, match o ≫= decode with
                      | Some fresh => set_revocations ps2 fresh
                      | None => ps2
                      end)
          end
      end
  end.

Definition commit_handshake (peer : DeviceId) (commit : HandshakeCommit) (ps : PeerStore)
    : result IoKind bytes * PeerStore :=
  let current_revocation := revocation_marker ps peer in
  if hc_resumed commit then
    if decide (is_Some current_revocation) then (Err PermissionDenied, ps)
    else if negb (token_is_unchanged ps peer (hc_observed_token commit)) then
      (Err PermissionDenied, ps)
    else match pair_state ps !! peer with
         | Some existing =>
             match remember_token peer (hc_ticket commit) (hc_token commit) BestEffort ps with
             | (Err k, ps1) => (Err k, ps1)
             | (Ok _, ps1) => (Ok (pair_id existing), ps1)
             end
         | None =>
             match install_pair peer commit BestEffort ps with
             | (Err k, ps1) => (Err k, ps1)
             | (Ok _, ps1) => (Ok (hc_candidate_pair_id commit), ps1)
             end
         end
  else if negb (bool_decide (current_revocation = hc_observed_revocation commit)) then
    (Err PermissionDenied, ps)
  else match install_pair peer commit Required ps with
       | (Err k, ps1) => (Err k, ps1)
       | (Ok _, ps1) =>
           match clear_tombstone peer ps1 with
           | (Err k, ps2) => (Err k, ps2)
           | (Ok _, ps2) => (Ok (hc_candidate_pair_id commit), ps2)
           end
       end.

Definition set_grace (peer : DeviceId) (g : GraceToken) (ps : PeerStore) : PeerStore :=
  (persist_grace (set_grace_map ps (<[peer := g]> (grace ps)))).2.

Definition drop_grace (peer : DeviceId) (ps : PeerStore) : PeerStore :=
  match grace ps !! peer with
  | Some _ => (persist_grace (set_grace_map ps (delete peer (grace ps)))).2
  | None => ps
  end.

(** Staging the grace token of an ordinary resume, before the rotation. *)
Definition stage_grace (peer : DeviceId) (commit : HandshakeCommit) (ps : PeerStore) : PeerStore :=
  let can_commit := bool_decide (revocation_marker ps peer = None)
                    && token_is_unchanged ps peer (hc_observed_token commit) in
  match can_commit, hc_observed_token commit with
  | true, Some authenticated =>
      set_grace peer
        {| grace_pair_id := default (hc_candidate_pair_id commit)
                              (pair_id <$> pair_state ps !! peer);
           grace_token := authenticated |} ps
  | _, _ => ps
  end.

Definition commit_host_handshake (peer : DeviceId) (commit : HandshakeCommit)
    (resumed_with : ResumedWith) (ps : PeerStore) : result IoKind bytes * PeerStore :=
  let commit_then_drop (ps : PeerStore) :=
    match commit_handshake peer commit ps with
    | (Err k, ps1) => (Err k, ps1)
    | (Ok pid, ps1) => (Ok pid, drop_grace peer ps1)
    end in
  if negb (hc_resumed commit) then commit_then_drop ps
  else match resumed_with with
       | CurrentToken => commit_handshake peer commit (stage_grace peer commit ps)
       | PreviousToken => commit_then_drop ps
       end.

(** [revoke]: [eid] is the random event id, [unix] the wall clock. *)
Definition revoke (eid : bytes) (unix : Z) (peer : DeviceId) (ps : PeerStore)
    : result IoKind RevocationRecord * PeerStore :=
  let state := pair_state ps !! peer in
  let existing := revocations ps !! peer in
  let record := {|
    event_id := eid;
    revoked_pair_id := match state with Some s => Some (pair_id s)
                       | None => existing ≫= revoked_pair_id end;
    revoked_event_key := match state with Some s => Some (event_key s)
                         | None => existing ≫= revoked_event_key end;
    revoked_at_unix := unix |} in
  match persist_revocations (set_revocations ps (<[peer := record]> (revocations ps))) with
  | (Err k, ps1) => (Err k, set_revocations ps1 (delete peer (revocations ps1)))
  | (Ok _, ps1) =>
      let ps2 := set_pair_state (set_map ps1 (delete peer (map ps1)))
                   (delete peer (pair_state ps1)) in
      let ps3 := (persist Required ps2).2 in
      let ps4 := (persist_pair_state ps3).2 in
      let ps5 := drop_grace peer ps4 in
      (Ok record,
       if decide (last_connected ps5 = Some peer)
       then set_last (remove_last_host ps5).2 None else ps5)
  end.

(** Forgetting [last_connected] when it is affected. *)
Definition forget_last (affected : bool) (ps : PeerStore) : result IoKind unit * PeerStore :=
  if affected then
    match remove_last_host ps with
    | (Err k, ps1) => (Err k, ps1)
    | (Ok _, ps1) => (Ok tt, set_last ps1 None)
    end
  else (Ok tt, ps).

Definition forget (peer : DeviceId) (ps : PeerStore) : result IoKind unit * PeerStore :=
  match map ps !! peer with
  | None => (Ok tt, ps)
  | Some removed =>
      let removed_state := pair_state ps !! peer in
      let ps1 := set_pair_state (set_map ps (delete peer (map ps))) (delete peer (pair_state ps)) in
      match persist Required ps1 with
      | (Err k, ps2) =>
          let ps3 := set_map ps2 (<[peer := removed]> (map ps2)) in
          (Err k, match removed_state with
                  | Some st => set_pair_state ps3 (<[peer := st]> (pair_state ps3))
                  | None => ps3
                  end)
      | (Ok _, ps2) =>
          match persist_pair_state ps2 with
          | (Err k, ps3) => (Err k, ps3)
          | (Ok _, ps3) =>
              let ps4 := drop_grace peer ps3 in
              forget_last (bool_decide (last_connected ps4 = Some peer)) ps4
          end
      end
  end.

Definition clear (ps : PeerStore) : result IoKind unit * PeerStore :=
  if decide (map ps = ∅) then (Ok tt, ps)
  else
    match persist Required (set_pair_state (set_map ps ∅) ∅) with
    | (Err k, ps1) => (Err k, set_pair_state (set_map ps1 (map ps)) (pair_state ps))
    | (Ok _, ps1) =>
        match persist_pair_state ps1 with
        | (Err k, ps2) => (Err k, ps2)
        | (Ok _, ps2) =>
            let ps3 := if decide (grace ps2 = ∅) then ps2
                       else (persist_grace (set_grace_map ps2 ∅)).2 in
            forget_last (bool_decide (is_Some (last_connected ps3))) ps3
        end
    end.

(** ** Authority

    What a host hands to the handshake of a connection: the current and the
    previous token of each peer. *)
Definition authorises (ps : PeerStore) (d : DeviceId) (tok : Token) : Prop :=
  tokens ps !! d = Some tok ∨ grace_tokens ps !! d = Some tok.

(** The token window of one peer as the handshake sees it. *)
Definition token_window (ps : PeerStore) (d : DeviceId) : option Token * option Token :=
  (tokens ps !! d, grace_tokens ps !! d).

(** A store as the machine may find it when it starts again. *)
Definition Reboot (st st' : S) : Prop := ∀ n, cs_after_crash st n (cs_contents st' !! n).

(** Every value the revocations may have after a crash is a tombstone. *)
Definition durably_revoked (st : S) (d : DeviceId) : Prop :=
  ∀ v, cs_after_crash st REVOCATIONS_RECORD v →
    ∃ b (m : gmap DeviceId RevocationRecord), v = Some b ∧ decode b = Some m ∧ is_Some (m !! d).

(** ** Queries *)

Lemma live_map_lookup ps d :
  live_map ps !! d = if is_revoked ps d then None else map ps !! d.
Proof.
  unfold live_map, is_revoked. rewrite map_lookup_filter. case_bool_decide as Hr.
  - destruct Hr as [r Hr]. destruct (map ps !! d); simpl; [|done]. rewrite option_guard_False; [done|].
    simpl. congruence.
  - apply eq_None_not_Some in Hr. destruct (map ps !! d); simpl; [|done].
    by rewrite option_guard_True.
Qed.

Lemma tokens_lookup ps d : tokens ps !! d = token_of ps d.
Proof.
  unfold tokens, token_of. rewrite lookup_fmap, live_map_lookup. by destruct (is_revoked ps d).
Qed.

Lemma is_revoked_true ps d : is_revoked ps d = true ↔ is_Some (revocations ps !! d).
Proof. unfold is_revoked. by rewrite bool_decide_eq_true. Qed.
Lemma is_revoked_false ps d : is_revoked ps d = false ↔ revocations ps !! d = None.
Proof. unfold is_revoked. rewrite bool_decide_eq_false, eq_None_not_Some. done. Qed.

Lemma grace_tokens_lookup ps d tok :
  grace_tokens ps !! d = Some tok ↔
  ∃ g st r, grace ps !! d = Some g ∧ grace_token g = tok ∧ revocations ps !! d = None ∧
    map ps !! d = Some r ∧ pair_state ps !! d = Some st ∧ pair_id st = grace_pair_id g.
Proof.
  unfold grace_tokens. rewrite lookup_fmap, fmap_Some. split.
  - intros (g & Hg & ->). apply map_lookup_filter_Some in Hg as [Hg Hid].
    apply map_lookup_filter_Some in Hg as [Hg [Hr [r Hm]]]. simpl in *.
    apply fmap_Some in Hid as (st & Hst & Heq). naive_solver.
  - intros (g & st & r & Hg & <- & Hr & Hm & Hst & Heq). exists g. split; [|done].
    apply map_lookup_filter_Some. simpl. rewrite Hst. simpl. rewrite Heq. split; [|done].
    apply map_lookup_filter_Some. simpl. eauto.
Qed.

Lemma revoked_authorises_nothing ps d tok : is_revoked ps d = true → ¬ authorises ps d tok.
Proof.
  intros Hr [Ht|Hg].
  - rewrite tokens_lookup in Ht. unfold token_of in Ht. by rewrite Hr in Ht.
  - apply grace_tokens_lookup in Hg as (? & ? & ? & _ & _ & Hn & _).
    apply is_revoked_true in Hr as [? Hr]. congruence.
Qed.

(** ** The effect of one write *)

Section Laws.
Context `{!CredentialStoreLaws S}.
Context `{!CodecLaws (gmap DeviceId PeerRecord)} `{!CodecLaws (gmap DeviceId PairState)}
        `{!CodecLaws (gmap DeviceId RevocationRecord)} `{!CodecLaws (gmap DeviceId GraceToken)}
        `{!CodecLaws DeviceId}.

(** The record [n] may decode to [x] after a crash. *)
Definition may_hold {A} `{Codec A} (st : S) (n : string) (x : A) : Prop :=
  ∃ b, cs_after_crash st n (Some b) ∧ decode b = Some x.

(** No record but [n] gains a value. *)
Definition only (n : string) (st st' : S) : Prop :=
  ∀ m v, m ≠ n → cs_after_crash st' m v → cs_after_crash st m v.

Lemma write_record_spec {A} `{!Codec A, !CodecLaws A} n (x : A) d ps r ps' :
  write_record n x d ps = (r, ps') →
  ∃ st, ps' = set_store ps st ∧ (r = Ok tt ∨ ∃ k, r = Err k) ∧ only n (store ps) st ∧
    (∀ v, cs_after_crash st n v →
       cs_after_crash (store ps) n v ∨ ∃ b, v = Some b ∧ decode b = Some x) ∧
    (d = Required → r = Ok tt → ∀ v, cs_after_crash st n v → ∃ b, v = Some b ∧ decode b = Some x).
Proof.
  unfold write_record. destruct (encode x) as [b|] eqn:Eb.
  - destruct (cs_write n b d (store ps)) as [r0 st] eqn:Ew. intros [= <- <-]. exists st.
    pose proof (cs_write_crash _ _ _ _ _ _ Ew) as (H1 & H2 & H3).
    apply decode_encode in Eb.
    destruct (cs_write_contents _ _ _ _ _ _ Ew) as [[-> _]|[Hk _]];
      (split_and!; [done|auto|done| |]).
    1,3: intros v Hv; destruct (H1 v Hv) as [->|]; eauto.
    + intros Hd _ v Hv. rewrite (H2 v Hd eq_refl Hv). eauto.
    + intros Hd Hr v Hv. rewrite (H2 v Hd Hr Hv). eauto.
  - intros [= <- <-]. exists (store ps). split_and!; [by destruct ps|eauto|by intros ???|auto|done].
Qed.

Lemma persist_grace_spec ps r ps' :
  persist_grace ps = (r, ps') →
  ∃ st, ps' = set_store ps st ∧ only GRACE_RECORD (store ps) st ∧
    (∀ b, cs_after_crash st GRACE_RECORD (Some b) →
       cs_after_crash (store ps) GRACE_RECORD (Some b) ∨ decode b = Some (grace ps)).
Proof.
  unfold persist_grace. case_decide as Hg.
  - destruct (cs_remove _ _) as [r0 st] eqn:Er. intros [= <- <-]. exists st.
    apply cs_remove_crash in Er as (H1 & _ & H2). split_and!; [done| |].
    + intros m v Hm. by apply H2.
    + intros b Hb. destruct (H1 _ Hb) as [?|?]; [done|auto].
  - intros Hw. apply write_record_spec in Hw as (st & -> & _ & Ho & Hc & _). exists st.
    split_and!; [done|done|]. intros b Hb. destruct (Hc _ Hb) as [?|(b' & ? & ?)]; naive_solver.
Qed.

Lemma remove_last_host_spec ps r ps' :
  remove_last_host ps = (r, ps') → ∃ st, ps' = set_store ps st ∧ only LAST_HOST_RECORD (store ps) st.
Proof.
  unfold remove_last_host. destruct (cs_remove _ _) as [r0 st] eqn:Er. intros [= <- <-].
  exists st. split; [done|]. apply cs_remove_crash in Er as (_ & _ & H2). intros m v Hm. by apply H2.
Qed.

Lemma drop_grace_spec peer ps :
  ∃ st, drop_grace peer ps = set_store (set_grace_map ps (delete peer (grace ps))) st ∧
        only GRACE_RECORD (store ps) st.
Proof.
  unfold drop_grace. destruct (grace ps !! peer) eqn:Eg.
  - destruct (persist_grace _) as [r ps1] eqn:Ep.
    apply persist_grace_spec in Ep as (st & -> & Ho & _). exists st. done.
  - exists (store ps). rewrite delete_id by done. split; [by destruct ps|by intros ???].
Qed.

(** ** Commits *)

(** The record a commit installs: a missing ticket keeps the stored one. *)
Definition new_record (ps : PeerStore) (peer : DeviceId) (tk : option string) (tok : Token)
    : PeerRecord :=
  {| ticket := match tk with Some t => Some t | None => map ps !! peer ≫= ticket end; token := tok |}.

Lemma only_refl n st : only n st st.
Proof. by intros ???. Qed.

Lemma remember_token_spec peer tk tok d ps r ps' :
  remember_token peer tk tok d ps = (r, ps') →
  ∃ st, only PEERS_RECORD (store ps) st ∧
    (((∃ k, r = Err k) ∧ ps' = set_store ps st) ∨
     (r = Ok tt ∧ ps' = set_store (set_map ps (<[peer := new_record ps peer tk tok]> (map ps))) st ∧
      (d = Required → ∀ v, cs_after_crash st PEERS_RECORD v → ∃ b, v = Some b ∧
         decode b = Some (<[peer := new_record ps peer tk tok]> (map ps))))).
Proof.
  unfold remember_token. set (rec := {| ticket := _ |}).
  destruct (persist _ _) as [r1 ps1] eqn:Ep.
  apply write_record_spec in Ep as (st & -> & Hr1 & Ho & _ & Hc).
  destruct Hr1 as [->|[k ->]]; intros [= <- <-]; exists st; (split; [done|]); [right|left].
  - split_and!; [done..|]. intros Hd v Hv. by apply Hc.
  - split; [eauto|]. destruct ps; unfold set_map, set_store; simpl. f_equal.
    rewrite delete_insert_eq. destruct (map0 !! peer) eqn:Em.
    + apply insert_delete_id. done.
    + by apply delete_id.
Qed.

Lemma restore_pair_state_undo peer ss ps st :
  restore_pair_state peer (pair_state ps !! peer)
    (set_store (set_pair_state ps (<[peer := ss]> (pair_state ps))) st) = set_store ps st.
Proof.
  unfold restore_pair_state. destruct ps; unfold set_pair_state, set_store; simpl. f_equal.
  destruct (pair_state0 !! peer) eqn:E.
  - rewrite insert_insert_eq. by apply insert_id.
  - rewrite delete_insert_eq. by apply delete_id.
Qed.

(** The memory after a commit has installed its pair. *)
Definition installed (ps : PeerStore) (peer : DeviceId) (commit : HandshakeCommit) : PeerStore :=
  let ps1 := set_pair_state ps
    (<[peer := {| pair_id := hc_candidate_pair_id commit;
                  event_key := hc_candidate_event_key commit |}]> (pair_state ps)) in
  set_map ps1 (<[peer := new_record ps peer (hc_ticket commit) (hc_token commit)]> (map ps)).

(** The records an installation may touch. *)
Definition only_pair (st st' : S) : Prop :=
  ∀ m v, m ≠ PEERS_RECORD → m ≠ PAIR_STATE_RECORD →
    cs_after_crash st' m v → cs_after_crash st m v.

Lemma install_pair_spec peer commit d ps r ps' :
  install_pair peer commit d ps = (r, ps') →
  ∃ st, only_pair (store ps) st ∧
    (((∃ k, r = Err k) ∧ ps' = set_store ps st) ∨
     (r = Ok tt ∧ ps' = set_store (installed ps peer commit) st ∧
      (∀ v, cs_after_crash st PAIR_STATE_RECORD v → ∃ b, v = Some b ∧
         decode b = Some (pair_state (installed ps peer commit))) ∧
      (d = Required → ∀ v, cs_after_crash st PEERS_RECORD v → ∃ b, v = Some b ∧
         decode b = Some (map (installed ps peer commit))))).
Proof.
  unfold install_pair. set (ss := {| pair_id := _ |}).
  destruct (persist_pair_state _) as [r1 ps1] eqn:E1.
  apply write_record_spec in E1 as (st1 & -> & Hr1 & Ho1 & _ & Hc1).
  destruct Hr1 as [->|[k ->]]; last first.
  { intros [= <- <-]. exists st1. split; [by intros m v _ Hm; apply Ho1|]. left. split; [eauto|].
    apply restore_pair_state_undo. }
  destruct (remember_token _ _ _ _ _) as [r2 ps2] eqn:E2.
  apply remember_token_spec in E2 as (st2 & Ho2 & [[[k ->] ->]|(-> & -> & Hc2)]).
  - destruct (persist_pair_state _) as [r3 ps3] eqn:E3.
    apply write_record_spec in E3 as (st3 & -> & Hr3 & Ho3 & _ & _).
    intros Hr. exists st3. split.
    { intros m v Hp Hq Hv. apply Ho1; [done|]. apply Ho2; [done|]. by apply Ho3. }
    left. destruct Hr3 as [->|[k3 ->]]; injection Hr as <- <-; (split; [eauto|]);
      exact (f_equal (λ p, set_store p st3) (restore_pair_state_undo peer ss ps st2)).
  - intros [= <- <-]. exists st2. split.
    { intros m v Hp Hq Hv. apply Ho1; [done|]. by apply Ho2. }
    right. split_and!; [done..| |].
    + intros v Hv. apply Ho2 in Hv; [|done]. by apply Hc1.
    + intros Hd v Hv. by apply Hc2.
Qed.

Lemma clear_tombstone_spec peer ps r ps' :
  clear_tombstone peer ps = (r, ps') →
  ∃ st rv, ps' = set_store (set_revocations ps rv) st ∧ only REVOCATIONS_RECORD (store ps) st ∧
    (r = Ok tt → rv = delete peer (revocations ps)) ∧
    (rv = delete peer (revocations ps) ∨ may_hold (store ps) REVOCATIONS_RECORD rv) ∧
    (∀ v, cs_after_crash st REVOCATIONS_RECORD v →
       cs_after_crash (store ps) REVOCATIONS_RECORD v ∨
       ∃ b, v = Some b ∧ decode b = Some (delete peer (revocations ps))).
Proof.
  unfold clear_tombstone. destruct (revocations ps !! peer) eqn:Er; last first.
  { intros [= <- <-]. exists (store ps), (revocations ps). rewrite delete_id by done.
    split_and!; [by destruct ps|apply only_refl|done|by left|auto]. }
  destruct (persist_revocations _) as [r1 ps1] eqn:E1.
  apply write_record_spec in E1 as (st1 & -> & Hr1 & Ho1 & Hc1 & _). simpl in Ho1, Hc1.
  destruct Hr1 as [->|[k ->]].
  { intros [= <- <-]. exists st1, (delete peer (revocations ps)). auto 10. }
  simpl. destruct (cs_read REVOCATIONS_RECORD st1) as [r2 st2] eqn:E2.
  apply cs_read_law in E2 as (Hct & Hcr & Hok).
  assert (Ho : only REVOCATIONS_RECORD (store ps) st2) by (intros m v Hm Hv; apply Ho1; auto).
  destruct r2 as [o|k2]; intros [= <- <-].
  - destruct (o ≫= decode) as [fresh|] eqn:Ef.
    + exists st2, fresh. split_and!; [done|done|done| |auto].
      apply bind_Some in Ef as (b & -> & Hb). pose proof (cs_live st1 REVOCATIONS_RECORD) as Hl.
      destruct (Hok _ eq_refl) as [[=]|He]. rewrite <-He in Hl. apply Hc1 in Hl as [Hl|(b' & [= <-] & Hb')].
      * right. by exists b.
      * left. congruence.
    + exists st2, (delete peer (revocations ps)). split_and!; auto.
  - exists st2, (delete peer (revocations ps)). split_and!; auto.
Qed.

Lemma token_is_unchanged_true ps peer o :
  token_is_unchanged ps peer o = true ↔ ∃ r, map ps !! peer = Some r ∧ o = Some (token r).
Proof.
  unfold token_is_unchanged. destruct (map ps !! peer) as [r|], o as [t|];
    rewrite ?bool_decide_eq_true; naive_solver.
Qed.

(** The memory after a committed resume: a rotation, or for a peer with no
    generation metadata also its first generation. *)
Definition rotated (ps : PeerStore) (peer : DeviceId) (commit : HandshakeCommit) : PeerStore :=
  match pair_state ps !! peer with
  | Some _ =>
      set_map ps (<[peer := new_record ps peer (hc_ticket commit) (hc_token commit)]> (map ps))
  | None => installed ps peer commit
  end.

(** Whether a resume may commit. *)
Definition resume_allowed (ps : PeerStore) (peer : DeviceId) (commit : HandshakeCommit) : bool :=
  bool_decide (revocation_marker ps peer = None)
  && token_is_unchanged ps peer (hc_observed_token commit).

Lemma resume_allowed_true ps peer commit :
  resume_allowed ps peer commit = true ↔
  revocations ps !! peer = None ∧
  ∃ r, map ps !! peer = Some r ∧ hc_observed_token commit = Some (token r).
Proof.
  unfold resume_allowed, revocation_marker.
  rewrite andb_true_iff, bool_decide_eq_true, fmap_None, token_is_unchanged_true. done.
Qed.

Lemma commit_resumed_spec peer commit ps r ps' :
  hc_resumed commit = true → commit_handshake peer commit ps = (r, ps') →
  ∃ st, only_pair (store ps) st ∧
    if resume_allowed ps peer commit then
      ((∃ k, r = Err k) ∧ ps' = set_store ps st) ∨
      (r = Ok (default (hc_candidate_pair_id commit) (pair_id <$> pair_state ps !! peer)) ∧
       ps' = set_store (rotated ps peer commit) st)
    else r = Err PermissionDenied ∧ ps' = ps.
Proof.
  intros Hres. unfold commit_handshake, resume_allowed, rotated. rewrite Hres.
  case_decide as Hrev.
  { intros [= <- <-]. exists (store ps). split; [by intros ???|].
    rewrite bool_decide_eq_false_2 by (intros He; rewrite He in Hrev; by destruct Hrev). done. }
  rewrite bool_decide_eq_true_2 by (by apply eq_None_not_Some).
  destruct (token_is_unchanged _ _ _); simpl; last first.
  { intros [= <- <-]. exists (store ps). split; [by intros ???|done]. }
  destruct (pair_state ps !! peer) as [existing|]; simpl.
  - destruct (remember_token _ _ _ _ _) as [r1 ps1] eqn:E1.
    apply remember_token_spec in E1 as (st & Ho & Hcase).
    destruct Hcase as [[[k ->] ->]|(-> & -> & _)]; intros [= <- <-]; exists st;
      (split; [by intros m v Hm _; apply Ho|]); eauto.
  - destruct (install_pair _ _ _ _) as [r1 ps1] eqn:E1.
    apply install_pair_spec in E1 as (st & Ho & [[[k ->] ->]|(-> & -> & _)]);
      intros [= <- <-]; exists st; eauto.
Qed.

(** The memory after a committed fresh pair. *)
Definition enrolled (ps : PeerStore) (peer : DeviceId) (commit : HandshakeCommit) : PeerStore :=
  set_revocations (installed ps peer commit) (delete peer (revocations ps)).

Lemma commit_fresh_spec peer commit ps r ps' :
  hc_resumed commit = false → commit_handshake peer commit ps = (r, ps') →
  (revocation_marker ps peer ≠ hc_observed_revocation commit ∧
   r = Err PermissionDenied ∧ ps' = ps) ∨
  (revocation_marker ps peer = hc_observed_revocation commit ∧
   ((∃ k st, r = Err k ∧ ps' = set_store ps st ∧ only_pair (store ps) st) ∨
    (∃ st1 r1, only_pair (store ps) st1 ∧
      (∀ v, cs_after_crash st1 PAIR_STATE_RECORD v → ∃ b, v = Some b ∧
         decode b = Some (pair_state (installed ps peer commit))) ∧
      (∀ v, cs_after_crash st1 PEERS_RECORD v → ∃ b, v = Some b ∧
         decode b = Some (map (installed ps peer commit))) ∧
      clear_tombstone peer (set_store (installed ps peer commit) st1) = (r1, ps') ∧
      r = match r1 with Ok _ => Ok (hc_candidate_pair_id commit) | Err k => Err k end))).
Proof.
  intros Hres. unfold commit_handshake. rewrite Hres.
  case_bool_decide as Hm; simpl; [|intros [= <- <-]; by left].
  right. split; [done|].
  destruct (install_pair _ _ _ _) as [r1 ps1] eqn:E1.
  apply install_pair_spec in E1 as (st & Ho & [[[k ->] ->]|(-> & -> & Hc1 & Hc2)]).
  - left. naive_solver.
  - right. destruct (clear_tombstone _ _) as [r2 ps2] eqn:E2. exists st, r2.
    split_and!; [done|done|by apply Hc2| |].
    + destruct r2; naive_solver.
    + destruct r2; naive_solver.
Qed.

(** ** Loading and revoking *)

Lemma read_lenient_spec {A} `{!Codec A} n (empty x : A) st st' :
  read_lenient n empty st = (Ok x, st') → ((cs_read n st).1 = Ok None → cs_contents st !! n = None) →
  st' = (cs_read n st).2 ∧ cs_contents st' = cs_contents st ∧ x = default empty (cs_contents st !! n ≫= decode).
Proof.
  unfold read_lenient. intros Hr Hm.
  destruct (cs_read n st) as [[o|k] st1] eqn:E; [|done].
  assert (Ho : o = cs_contents st !! n) by (eapply read_present; [exact E|by rewrite E]).
  apply cs_read_law in E as (Hc & _ & _). rewrite <-Ho. destruct o as [b|]; by simplify_eq/=.
Qed.

(** The records a load reads, in order. *)
Definition loaded_records : list string :=
  [PEERS_RECORD; LAST_HOST_RECORD; PAIR_STATE_RECORD; REVOCATIONS_RECORD; GRACE_RECORD].

(** What a store loads as, when no record is missed: the records, each lenient but the
    revocations. *)
Lemma load_from_spec st ps st' :
  load_from st = (Ok ps, st') → none_missed loaded_records st →
  map ps = default ∅ (cs_contents st !! PEERS_RECORD ≫= decode) ∧
  pair_state ps = default ∅ (cs_contents st !! PAIR_STATE_RECORD ≫= decode) ∧
  grace ps = default ∅ (cs_contents st !! GRACE_RECORD ≫= decode) ∧
  (cs_contents st !! REVOCATIONS_RECORD = None ∧ revocations ps = ∅ ∨
   ∃ b, cs_contents st !! REVOCATIONS_RECORD = Some b ∧ decode b = Some (revocations ps)).
Proof.
  unfold load_from. intros Hl (M1 & M2 & M3 & M4 & M5 & _).
  destruct (read_lenient PEERS_RECORD _ _) as [[m|] st1] eqn:E1; [|done].
  apply read_lenient_spec in E1 as (-> & C1 & ->); [|done].
  destruct (cs_read LAST_HOST_RECORD _) as [[lh|] st2] eqn:E2; [|done].
  apply cs_read_law in E2 as (C2 & _ & _). rewrite C1 in C2. cbn [snd] in M3, M4, M5.
  destruct (read_lenient PAIR_STATE_RECORD _ _) as [[pst|] st3] eqn:E3; [|done].
  apply read_lenient_spec in E3 as (-> & C3 & ->); [|done]. rewrite C2 in *.
  destruct (read_strict _) as [[rv|] st4] eqn:E4; [|done].
  unfold read_strict in E4. destruct (cs_read REVOCATIONS_RECORD _) as [r0 st0] eqn:E0.
  assert (H4 : ∀ o, r0 = Ok o → o = cs_contents st !! REVOCATIONS_RECORD).
  { intros o ->. rewrite <-C3. eapply read_present; [exact E0|]. rewrite E0. exact M4. }
  apply cs_read_law in E0 as (C4 & _ & _). rewrite C3 in *. cbn [fst snd] in M4, M5.
  assert (st4 = st0) as -> by (destruct r0 as [[|]|]; by simplify_eq/=).
  destruct (read_lenient GRACE_RECORD _ _) as [[gr|] st5] eqn:E5; [|done].
  apply read_lenient_spec in E5 as (_ & _ & ->); [|done]. simplify_eq/=.
  rewrite C4. destruct r0 as [o|]; [|done]. rewrite <-(H4 o eq_refl).
  split_and!; [done..|]. destruct o as [b|]; simplify_eq/=; [right|by left].
  exists b. split; [done|]. destruct (decode b); by simplify_eq/=.
Qed.

Lemma reboot_revoked st st' ps' d st'' :
  durably_revoked st d → Reboot st st' → load_from st' = (Ok ps', st'') → none_missed loaded_records st' → is_revoked ps' d = true.
Proof.
  intros Hd Hr Hl Hm. apply load_from_spec in Hl as (_ & _ & _ & Hv); [|done].
  destruct (Hd _ (Hr REVOCATIONS_RECORD)) as (b & m & Hb & Hm' & Hs).
  apply is_revoked_true. destruct Hv as [[Hn _]|(b' & Hb' & Hm'')]; congruence.
Qed.

(** The memory after a revocation, and what it did to the store. *)
Lemma revoke_ok_spec eid unix peer ps rec ps' :
  revoke eid unix peer ps = (Ok rec, ps') →
  event_id rec = eid ∧ revoked_at_unix rec = unix ∧
  revocations ps' = <[peer := rec]> (revocations ps) ∧
  map ps' = delete peer (map ps) ∧ pair_state ps' = delete peer (pair_state ps) ∧
  grace ps' = delete peer (grace ps) ∧
  last_connected ps' = (if decide (last_connected ps = Some peer) then None else last_connected ps) ∧
  (∀ v, cs_after_crash (store ps') REVOCATIONS_RECORD v → ∃ b, v = Some b ∧
     decode b = Some (<[peer := rec]> (revocations ps))).
Proof.
  unfold revoke. set (rc := {| event_id := eid |}).
  destruct (persist_revocations _) as [r1 ps1] eqn:E1.
  apply write_record_spec in E1 as (st1 & -> & Hr1 & _ & _ & Hc1).
  destruct Hr1 as [->|[k ->]]; [|done].
  set (ps2 := set_pair_state _ _).
  destruct (persist Required ps2) as [r3 ps3] eqn:E3.
  apply write_record_spec in E3 as (st3 & -> & _ & Ho3 & _ & _). cbn [snd].
  set (ps3' := set_store ps2 st3). destruct (persist_pair_state ps3') as [r4 ps4] eqn:E4.
  apply write_record_spec in E4 as (st4 & -> & _ & Ho4 & _ & _). cbn [snd].
  destruct (drop_grace_spec peer (set_store ps3' st4)) as (st5 & -> & Ho5).
  set (ps5 := set_store _ st5). intros [= <- <-].
  assert (Hc5 : ∀ v, cs_after_crash st5 REVOCATIONS_RECORD v → ∃ b, v = Some b ∧
     decode b = Some (<[peer := rc]> (revocations ps))).
  { intros v Hv. apply Ho5 in Hv; [|done]. apply Ho4 in Hv; [|done].
    apply Ho3 in Hv; [|done]. by apply Hc1. }
  simpl. case_decide; [|split_and!; done].
  destruct (remove_last_host ps5) as [r6 ps6] eqn:E6.
  apply remove_last_host_spec in E6 as (st6 & -> & Ho6). simpl.
  split_and!; try done. intros v Hv. apply Ho6 in Hv; [|done]. by apply Hc5.
Qed.

(** A revocation that reports success holds from then on and for
    good: the peer has no token, no previous token and no pair generation in
    memory, and whatever a crash leaves on disk, a store that loads from it
    refuses every token of the peer. *)
Theorem revoke_is_durable eid unix peer ps rec ps' :
  revoke eid unix peer ps = (Ok rec, ps') →
  is_revoked ps' peer = true ∧ pair_id_of ps' peer = None ∧ (∀ tok, ¬ authorises ps' peer tok) ∧
  ∀ st ps2 st2 tok, Reboot (store ps') st → load_from st = (Ok ps2, st2) → none_missed loaded_records st →
    is_revoked ps2 peer = true ∧ ¬ authorises ps2 peer tok.
Proof.
  intros Hr. apply revoke_ok_spec in Hr as (_ & _ & Hrv & _ & _ & _ & _ & Hc).
  assert (Hd : durably_revoked (store ps') peer).
  { intros v Hv. destruct (Hc v Hv) as (b & -> & Hb). do 2 eexists. split_and!; [done..|].
    rewrite lookup_insert_eq. eauto. }
  assert (Hrev : is_revoked ps' peer = true).
  { apply is_revoked_true. rewrite Hrv, lookup_insert_eq. eauto. }
  split_and!; [done| | |].
  - unfold pair_id_of. by rewrite Hrev.
  - intros tok. by apply revoked_authorises_nothing.
  - intros st ps2 st2 tok Hb Hl Hm. pose proof (reboot_revoked _ _ _ _ _ Hd Hb Hl Hm).
    split; [done|by apply revoked_authorises_nothing].
Qed.

(** A revocation record that does not decode never loads as "nobody
    is revoked": loading fails. *)
Theorem corrupt_revocations_fail_closed st b :
  cs_contents st !! REVOCATIONS_RECORD = Some b →
  decode (A := gmap DeviceId RevocationRecord) b = None → none_missed loaded_records st →
  ∀ ps, (load_from st).1 ≠ Ok ps.
Proof.
  intros Hc Hd Hmiss ps. destruct (load_from st) as [r st'] eqn:E. simpl. intros ->.
  apply load_from_spec in E as (_ & _ & _ & [[Hn _]|(b' & Hb & Hm)]); [congruence..|done].
Qed.

(** ** Re-pairing over a tombstone *)

Lemma only_pair_revoked st st' d :
  only_pair st st' → durably_revoked st d → durably_revoked st' d.
Proof. intros Ho Hd v Hv. apply Hd. by apply Ho. Qed.

Lemma installed_lookup ps peer commit :
  map (installed ps peer commit) !! peer
    = Some (new_record ps peer (hc_ticket commit) (hc_token commit)) ∧
  pair_state (installed ps peer commit) !! peer
    = Some {| pair_id := hc_candidate_pair_id commit; event_key := hc_candidate_event_key commit |}.
Proof. unfold installed. simpl. by rewrite !lookup_insert_eq. Qed.

(** A store loaded from records that hold the installed pair authorises the
    new token only, unless a grace token of this very generation is around. *)
Lemma installed_image_authorises st ps peer commit ps2 st2 tok :
  (∃ b, cs_contents st !! PAIR_STATE_RECORD = Some b ∧
     decode b = Some (pair_state (installed ps peer commit))) →
  (∃ b, cs_contents st !! PEERS_RECORD = Some b ∧
     decode b = Some (map (installed ps peer commit))) →
  (∀ b g gm, cs_contents st !! GRACE_RECORD = Some b → decode b = Some gm → gm !! peer = Some g →
     grace_pair_id g ≠ hc_candidate_pair_id commit) →
  load_from st = (Ok ps2, st2) → none_missed loaded_records st → authorises ps2 peer tok → tok = hc_token commit.
Proof.
  intros (b1 & H1 & D1) (b2 & H2 & D2) Hg Hl Hmiss Ha.
  destruct (installed_lookup ps peer commit) as [Hm Hp].
  apply load_from_spec in Hl as (Em & Ep & Eg & _); [|done].
  rewrite H1 in Ep. rewrite H2 in Em. simpl in Em, Ep. rewrite D1 in Ep. rewrite D2 in Em. simpl in *.
  destruct Ha as [Ha|Ha].
  - rewrite tokens_lookup in Ha. unfold token_of in Ha. rewrite Em, Hm in Ha.
    destruct (is_revoked ps2 peer); by simplify_eq/=.
  - apply grace_tokens_lookup in Ha as (g & s & r & Hgr & _ & _ & _ & Hs & Hid).
    rewrite Ep, Hp in Hs. simplify_eq/=.
    destruct (cs_contents st !! GRACE_RECORD) as [b|] eqn:Eb; simpl in Eg.
    + destruct (decode b) as [gm|] eqn:Ed; simpl in Eg.
      * exfalso. apply (Hg b g gm eq_refl Ed); congruence.
      * by rewrite Eg in Hgr.
    + by rewrite Eg in Hgr.
Qed.

(** Re-pairing a revoked device never revives its old credential.
    Whether the commit succeeds or fails at any of its writes, and whatever a
    crash then leaves of the records, a store that loads either still holds the
    tombstone or authorises the new token and no other. *)
Theorem repair_never_revives_the_old_token peer commit ps r ps' st ps2 st2 tok :
  durably_revoked (store ps) peer → hc_resumed commit = false →
  (∀ g gm, may_hold (store ps) GRACE_RECORD gm → gm !! peer = Some g →
     grace_pair_id g ≠ hc_candidate_pair_id commit) →
  commit_handshake peer commit ps = (r, ps') →
  Reboot (store ps') st → load_from st = (Ok ps2, st2) → none_missed loaded_records st →
  is_revoked ps2 peer = true ∨ (authorises ps2 peer tok → tok = hc_token commit).
Proof.
  intros Hd Hf Hg Hc Hb Hl Hmiss.
  apply commit_fresh_spec in Hc as [(_ & _ & ->)|(_ & [(k & st0 & _ & -> & Ho)|Hc])]; [left..| |done].
  1: by eapply reboot_revoked.
  { eapply (reboot_revoked st0); [by eapply only_pair_revoked|done..]. }
  destruct Hc as (st1 & r1 & Ho & Hps & Hpe & Hcl & _).
  apply clear_tombstone_spec in Hcl as (st3 & rv & -> & Ho3 & _). simpl in Hb, Ho3.
  right. intros Ha. eapply installed_image_authorises; [| | |exact Hl|exact Hmiss|exact Ha].
  - apply Hps, Ho3; [done|]. apply Hb.
  - apply Hpe, Ho3; [done|]. apply Hb.
  - intros b g gm Hb1 Hb2 Hb3. eapply Hg; [|done]. exists b. split; [|done].
    apply Ho; [done..|]. apply Ho3; [done|]. rewrite <-Hb1. apply Hb.
Qed.

(** ** Racing commits *)

(** Committing a resume is a compare-and-swap on the peer's token:
    it can succeed only when the peer is not revoked and its stored token is
    the one the handshake proved; it then keeps the pair generation, replaces
    the token and changes no other peer. On any failure the memory is what it
    was. *)
Theorem resume_commit_is_compare_and_swap peer commit ps r ps' :
  hc_resumed commit = true → commit_handshake peer commit ps = (r, ps') →
  (∀ pid, r = Ok pid →
     is_revoked ps peer = false ∧ hc_observed_token commit = token_of ps peer ∧
     is_Some (hc_observed_token commit) ∧
     tokens ps' = <[peer := hc_token commit]> (tokens ps) ∧
     pair_id_of ps' peer = Some pid ∧
     (∀ old, pair_id_of ps peer = Some old → pid = old)) ∧
  (∀ k, r = Err k → ∃ st, ps' = set_store ps st).
Proof.
  intros Hres Hc. apply commit_resumed_spec in Hc as (st & _ & Hcase); [|done].
  destruct (resume_allowed ps peer commit) eqn:Ea; last first.
  { destruct Hcase as [-> ->]. split; [done|]. intros k _. exists (store ps). by destruct ps. }
  apply resume_allowed_true in Ea as (Hnr & rec & Hm & Ho).
  destruct Hcase as [[[k ->] ->]|[-> ->]]; [split; [done|eauto]|]. split; [|done].
  intros pid [= <-]. pose proof (proj2 (is_revoked_false ps peer) Hnr) as Hr.
  assert (Ht : tokens (set_store (rotated ps peer commit) st)
               = <[peer := hc_token commit]> (tokens ps)).
  { apply map_eq. intros d. rewrite !tokens_lookup. unfold token_of, is_revoked, rotated, installed.
    destruct (decide (d = peer)) as [->|Hne].
    - rewrite lookup_insert_eq. destruct (pair_state ps !! peer); simpl;
        rewrite lookup_insert_eq, Hnr, bool_decide_eq_false_2 by (by intros []); done.
    - rewrite lookup_insert_ne by done. rewrite tokens_lookup. unfold token_of, is_revoked.
      destruct (pair_state ps !! peer); simpl; by rewrite lookup_insert_ne. }
  split_and!; [done| | |done| |].
  - unfold token_of. by rewrite Hr, Hm.
  - rewrite Ho. eauto.
  - unfold pair_id_of, is_revoked, rotated, installed.
    destruct (pair_state ps !! peer) eqn:Ep; simpl; rewrite Hnr, bool_decide_eq_false_2 by (by intros []);
      [by rewrite Ep|by rewrite lookup_insert_eq].
  - unfold pair_id_of. rewrite Hr. by destruct (pair_state ps !! peer); intros; simplify_eq/=.
Qed.

(** ** Every interleaving of operations *)

Inductive PeerOp :=
| OpRemember (peer : DeviceId) (tk : option string) (tok : Token)
| OpCommit (peer : DeviceId) (commit : HandshakeCommit)
| OpHostCommit (peer : DeviceId) (commit : HandshakeCommit) (resumed_with : ResumedWith)
| OpRevoke (eid : bytes) (unix : Z) (peer : DeviceId)
| OpForget (peer : DeviceId)
| OpClear
| OpSetLastHost (peer : DeviceId).

Definition apply_op (op : PeerOp) (ps : PeerStore) : bool * PeerStore :=
  match op with
  | OpRemember d tk tok => let '(r, ps') := remember d tk tok ps in (is_ok r, ps')
  | OpCommit d c => let '(r, ps') := commit_handshake d c ps in (is_ok r, ps')
  | OpHostCommit d c w => let '(r, ps') := commit_host_handshake d c w ps in (is_ok r, ps')
  | OpRevoke eid unix d => let '(r, ps') := revoke eid unix d ps in (is_ok r, ps')
  | OpForget d => let '(r, ps') := forget d ps in (is_ok r, ps')
  | OpClear => let '(r, ps') := clear ps in (is_ok r, ps')
  | OpSetLastHost d => let '(r, ps') := set_last_host d ps in (is_ok r, ps')
  end.

(** The only ways past a tombstone: a fresh pair that saw this very tombstone
    when its handshake began, or another revocation of the peer that fails. *)
Definition respects (peer : DeviceId) (op : PeerOp) (ps : PeerStore) : Prop :=
  match op with
  | OpCommit d c | OpHostCommit d c _ =>
      d = peer → hc_resumed c = false → hc_observed_revocation c ≠ revocation_marker ps peer
  | OpRevoke _ _ d => d = peer → (apply_op op ps).1 = true
  | _ => True
  end.

Fixpoint run_ops (ops : list PeerOp) (ps : PeerStore) : PeerStore :=
  match ops with [] => ps | op :: ops' => run_ops ops' (apply_op op ps).2 end.
Fixpoint all_respect (peer : DeviceId) (ops : list PeerOp) (ps : PeerStore) : Prop :=
  match ops with
  | [] => True
  | op :: ops' => respects peer op ps ∧ all_respect peer ops' (apply_op op ps).2
  end.

(** The tombstone is in memory and in every crash image. *)
Definition held (peer : DeviceId) (ps : PeerStore) : Prop :=
  is_Some (revocations ps !! peer) ∧ durably_revoked (store ps) peer.

(** An operation that leaves the revocations alone. *)
Definition keeps_rev (ps ps' : PeerStore) : Prop :=
  revocations ps' = revocations ps ∧
  ∀ v, cs_after_crash (store ps') REVOCATIONS_RECORD v →
       cs_after_crash (store ps) REVOCATIONS_RECORD v.

#[local] Instance keeps_rev_refl : Reflexive keeps_rev.
Proof. intros ps. by split. Qed.
#[local] Instance keeps_rev_trans : Transitive keeps_rev.
Proof. intros p1 p2 p3 [R1 C1] [R2 C2]. split; [congruence|auto]. Qed.

Lemma keeps_rev_held peer ps ps' : keeps_rev ps ps' → held peer ps → held peer ps'.
Proof. intros [R C] [Hs Hd]. split; [by rewrite R|]. intros v Hv. by apply Hd, C. Qed.

Lemma keeps_rev_only n ps ps' st :
  n ≠ REVOCATIONS_RECORD → revocations ps' = revocations ps → only n (store ps) st →
  keeps_rev ps (set_store ps' st).
Proof. intros Hn Hr Ho. split; [done|]. intros v Hv. by apply Ho. Qed.

Lemma keeps_rev_only_pair ps ps' st :
  revocations ps' = revocations ps → only_pair (store ps) st → keeps_rev ps (set_store ps' st).
Proof. intros Hr Ho. split; [done|]. intros v Hv. by apply Ho. Qed.

Lemma persist_keeps d ps : keeps_rev ps (persist d ps).2.
Proof.
  destruct (persist d ps) as [r ps'] eqn:E. apply write_record_spec in E as (st & -> & _ & Ho & _).
  (eapply keeps_rev_only; [|reflexivity|exact Ho]; done).
Qed.

Lemma persist_pair_state_keeps ps : keeps_rev ps (persist_pair_state ps).2.
Proof.
  destruct (persist_pair_state ps) as [r ps'] eqn:E.
  apply write_record_spec in E as (st & -> & _ & Ho & _). (eapply keeps_rev_only; [|reflexivity|exact Ho]; done).
Qed.

Lemma drop_grace_keeps peer ps : keeps_rev ps (drop_grace peer ps).
Proof. destruct (drop_grace_spec peer ps) as (st & -> & Ho). (eapply keeps_rev_only; [|reflexivity|exact Ho]; done). Qed.

Lemma persist_grace_keeps ps : keeps_rev ps (persist_grace ps).2.
Proof.
  destruct (persist_grace ps) as [r ps'] eqn:E. apply persist_grace_spec in E as (st & -> & Ho & _).
  (eapply keeps_rev_only; [|reflexivity|exact Ho]; done).
Qed.

Lemma stage_grace_keeps peer commit ps : keeps_rev ps (stage_grace peer commit ps).
Proof.
  unfold stage_grace, set_grace. destruct (_ && _); [|done]. destruct (hc_observed_token commit); [|done].
  etrans; [|apply persist_grace_keeps]. done.
Qed.

Lemma forget_last_keeps b ps : keeps_rev ps (forget_last b ps).2.
Proof.
  unfold forget_last. destruct b; [|done]. destruct (remove_last_host ps) as [r ps1] eqn:E.
  apply remove_last_host_spec in E as (st & -> & Ho).
  destruct r; (split; [done|]); intros v Hv; by apply Ho.
Qed.

Lemma remember_token_keeps peer tk tok d ps : keeps_rev ps (remember_token peer tk tok d ps).2.
Proof.
  destruct (remember_token _ _ _ _ _) as [r ps'] eqn:E.
  apply remember_token_spec in E as (st & Ho & [[_ ->]|(_ & -> & _)]); (eapply keeps_rev_only; [|reflexivity|exact Ho]; done).
Qed.

Lemma forget_keeps peer ps : keeps_rev ps (forget peer ps).2.
Proof.
  unfold forget. destruct (map ps !! peer); [|done]. set (ps1 := set_pair_state _ _).
  pose proof (persist_keeps Required ps1) as K1.
  destruct (persist Required ps1) as [[]  ps2]; simpl in K1; last first.
  { destruct (pair_state ps !! peer); exact K1. }
  pose proof (persist_pair_state_keeps ps2) as K2.
  destruct (persist_pair_state ps2) as [[] ps3]; simpl in K2; [|by etrans].
  etrans; [exact K1|]. etrans; [exact K2|]. etrans; [apply drop_grace_keeps|apply forget_last_keeps].
Qed.

Lemma clear_keeps ps : keeps_rev ps (clear ps).2.
Proof.
  unfold clear. case_decide; [done|]. set (ps1 := set_pair_state _ _).
  pose proof (persist_keeps Required ps1) as K1.
  destruct (persist Required ps1) as [[] ps2]; simpl in K1; [|exact K1].
  pose proof (persist_pair_state_keeps ps2) as K2.
  destruct (persist_pair_state ps2) as [[] ps3]; simpl in K2; [|by etrans].
  etrans; [exact K1|]. etrans; [exact K2|]. etrans; [|apply forget_last_keeps].
  case_decide; [done|]. etrans; [|apply persist_grace_keeps]. done.
Qed.

Lemma set_last_host_keeps peer ps : keeps_rev ps (set_last_host peer ps).2.
Proof.
  unfold set_last_host. case_decide; [done|].
  destruct (write_record _ _ _ _) as [r ps1] eqn:E.
  apply write_record_spec in E as (st & -> & _ & Ho & _).
  destruct r; (split; [done|]); intros v Hv; by apply Ho.
Qed.

Lemma commit_keeps_tombstone peer d commit ps :
  held peer ps →
  (d = peer → hc_resumed commit = false →
     hc_observed_revocation commit ≠ revocation_marker ps peer) →
  held peer (commit_handshake d commit ps).2.
Proof.
  intros Hh Hresp. destruct (commit_handshake d commit ps) as [r ps'] eqn:E. simpl.
  destruct (hc_resumed commit) eqn:Hres.
  - apply commit_resumed_spec in E as (st & Ho & Hc); [|done].
    destruct (resume_allowed ps d commit); [|by destruct Hc as [_ ->]].
    destruct Hc as [[_ ->]|[_ ->]]; (eapply keeps_rev_held; [|exact Hh]);
      apply keeps_rev_only_pair; try done.
    unfold rotated. by destruct (pair_state ps !! d).
  - apply commit_fresh_spec in E as [(_ & _ & ->)|(Hm & [(k & st & _ & -> & Ho)|Hc])]; [done| | |done].
    { eapply keeps_rev_held; [|exact Hh]. by apply keeps_rev_only_pair. }
    destruct (decide (d = peer)) as [->|Hne]; [by destruct (Hresp eq_refl eq_refl)|].
    destruct Hc as (st1 & r1 & Ho & _ & _ & Hcl & _).
    destruct Hh as [Hs Hd]. pose proof (only_pair_revoked _ _ _ Ho Hd) as Hd1.
    apply clear_tombstone_spec in Hcl as (st & rv & -> & _ & _ & Hrv & Hcr). simpl in *.
    split; simpl.
    + destruct Hrv as [->|(b & Hb & Hdec)].
      * by rewrite lookup_delete_ne.
      * destruct (Hd1 _ Hb) as (b' & m & [= <-] & Hm' & Hsm). congruence.
    + intros v Hv. destruct (Hcr v Hv) as [Hv1|(b & -> & Hb)]; [by apply Hd1|].
      do 2 eexists. split_and!; [done..|]. by rewrite lookup_delete_ne.
Qed.

Lemma host_commit_keeps_tombstone peer d commit w ps :
  held peer ps →
  (d = peer → hc_resumed commit = false →
     hc_observed_revocation commit ≠ revocation_marker ps peer) →
  held peer (commit_host_handshake d commit w ps).2.
Proof.
  intros Hh Hresp.
  assert (Hdrop : held peer (match commit_handshake d commit ps with
    | (Ok pid, ps1) => (Ok pid, drop_grace d ps1) | (Err k, ps1) => (Err k, ps1) end).2).
  { pose proof (commit_keeps_tombstone peer d commit ps Hh Hresp) as K.
    destruct (commit_handshake d commit ps) as [[] ps1]; [|done].
    eapply keeps_rev_held; [apply drop_grace_keeps|done]. }
  unfold commit_host_handshake. destruct (hc_resumed commit) eqn:Hres; simpl.
  - destruct w.
    + apply commit_keeps_tombstone; [|by rewrite Hres].
      eapply keeps_rev_held; [apply stage_grace_keeps|done].
    + destruct (commit_handshake d commit ps) as [[] ?]; done.
  - destruct (commit_handshake d commit ps) as [[] ?]; done.
Qed.

Lemma revoke_err_spec eid unix d ps k ps' :
  revoke eid unix d ps = (Err k, ps') →
  ∃ st rec, ps' = set_store (set_revocations ps (delete d (revocations ps))) st ∧
    ∀ v, cs_after_crash st REVOCATIONS_RECORD v →
      cs_after_crash (store ps) REVOCATIONS_RECORD v ∨
      ∃ b, v = Some b ∧ decode b = Some (<[d := rec]> (revocations ps)).
Proof.
  unfold revoke. set (rc := {| event_id := eid |}).
  destruct (persist_revocations _) as [r1 ps1] eqn:E1.
  apply write_record_spec in E1 as (st1 & -> & Hr1 & _ & Hc1 & _).
  destruct Hr1 as [->|[k1 ->]]; [done|]. intros [= <- <-]. exists st1, rc.
  split; [|exact Hc1]. unfold set_revocations, set_store; simpl. by rewrite delete_insert_eq.
Qed.

Lemma revoke_keeps_tombstone peer eid unix d ps :
  held peer ps → (d = peer → is_ok (revoke eid unix d ps).1 = true) →
  held peer (revoke eid unix d ps).2.
Proof.
  intros [Hs Hd] Hok. destruct (revoke eid unix d ps) as [[rec|k] ps'] eqn:E; simpl in *.
  - apply revoke_ok_spec in E as (_ & _ & Hrv & _ & _ & _ & _ & Hc).
    assert (Hs' : is_Some (<[d := rec]> (revocations ps) !! peer)).
    { destruct (decide (d = peer)) as [->|]; [by rewrite lookup_insert_eq|by rewrite lookup_insert_ne]. }
    split; [by rewrite Hrv|]. intros v Hv. destruct (Hc v Hv) as (b & -> & Hb). eauto.
  - destruct (decide (d = peer)) as [Heq|Hne]; [by specialize (Hok Heq)|].
    apply revoke_err_spec in E as (st & rec & -> & Hc). split; simpl; [by rewrite lookup_delete_ne|].
    intros v Hv. destruct (Hc v Hv) as [Hv1|(b & -> & Hb)]; [by apply Hd|].
    do 2 eexists. split_and!; [done..|]. by rewrite lookup_insert_ne.
Qed.

Lemma apply_op_keeps_tombstone peer op ps :
  held peer ps → respects peer op ps → held peer (apply_op op ps).2.
Proof.
  intros Hh Hr. destruct op; simpl in *.
  - unfold remember. destruct (is_revoked ps peer0); [done|].
    pose proof (remember_token_keeps peer0 tk tok Required ps) as K.
    destruct (remember_token _ _ _ _ _). by eapply keeps_rev_held.
  - pose proof (commit_keeps_tombstone peer peer0 commit ps Hh Hr).
    by destruct (commit_handshake _ _ _).
  - pose proof (host_commit_keeps_tombstone peer peer0 commit resumed_with ps Hh Hr).
    by destruct (commit_host_handshake _ _ _ _).
  - pose proof (revoke_keeps_tombstone peer eid unix peer0 ps Hh) as K.
    destruct (revoke _ _ _ _) as [r ps']. by apply K.
  - pose proof (forget_keeps peer0 ps) as K. destruct (forget _ _). by eapply keeps_rev_held.
  - pose proof (clear_keeps ps) as K. destruct (clear _). by eapply keeps_rev_held.
  - pose proof (set_last_host_keeps peer0 ps) as K. destruct (set_last_host _ _).
    by eapply keeps_rev_held.
Qed.


(** Revoking a peer that is already revoked undoes the first
    revocation in memory when the second one cannot be written: a token that
    was still in the peer records authenticates again. *)
Theorem failed_second_revoke_revives eid unix peer ps old rec k ps' :
  revocations ps !! peer = Some old → map ps !! peer = Some rec →
  revoke eid unix peer ps = (Err k, ps') →
  token_of ps peer = None ∧ token_of ps' peer = Some (token rec).
Proof.
  intros Hr Hm He. apply revoke_err_spec in He as (st & rc & -> & _).
  unfold token_of, is_revoked. simpl. rewrite lookup_delete_eq, Hr, Hm. simpl. done.
Qed.

(** ** The two-token window of a peer *)

(** The window, read off the peer's entries. *)
Definition window_of (rv : option RevocationRecord) (m : option PeerRecord) (p : option PairState)
    (g : option GraceToken) : option Token * option Token :=
  match rv with
  | Some _ => (None, None)
  | None =>
      (token <$> m,
       match m, p, g with
       | Some _, Some s, Some g =>
           if decide (pair_id s = grace_pair_id g) then Some (grace_token g) else None
       | _, _, _ => None
       end)
  end.

Lemma token_window_of ps d :
  token_window ps d
  = window_of (revocations ps !! d) (map ps !! d) (pair_state ps !! d) (grace ps !! d).
Proof.
  unfold token_window, window_of. rewrite tokens_lookup. unfold token_of, is_revoked.
  assert (Hg : ∀ o, (∀ tok, grace_tokens ps !! d = Some tok ↔ o = Some tok) →
               grace_tokens ps !! d = o).
  { intros o Ho. apply option_eq. exact Ho. }
  destruct (revocations ps !! d) eqn:Er; [rewrite bool_decide_eq_true_2 by eauto|
    rewrite bool_decide_eq_false_2 by (by intros [])]; (f_equal; apply Hg; intros tok);
    rewrite grace_tokens_lookup, Er.
  - naive_solver.
  - destruct (map ps !! d) eqn:Em, (pair_state ps !! d) eqn:Ep, (grace ps !! d) eqn:Eg;
      try case_decide; naive_solver.
Qed.

Lemma stage_grace_spec peer commit ps :
  ∃ st, stage_grace peer commit ps =
    set_store (match resume_allowed ps peer commit, hc_observed_token commit with
               | true, Some tok =>
                   set_grace_map ps (<[peer :=
                     {| grace_pair_id := default (hc_candidate_pair_id commit)
                                           (pair_id <$> pair_state ps !! peer);
                        grace_token := tok |}]> (grace ps))
               | _, _ => ps
               end) st.
Proof.
  unfold stage_grace, set_grace. fold (resume_allowed ps peer commit).
  destruct (resume_allowed ps peer commit), (hc_observed_token commit);
    try (exists (store ps); by destruct ps).
  destruct (persist_grace _) as [r ps1] eqn:E. apply persist_grace_spec in E as (st & -> & _).
  by exists st.
Qed.

(** What a successful resume does to the window: the new token is current, and
    the token that authenticated remains usable once. *)
Definition window_step (w : ResumedWith) (new : Token) (s : option Token * option Token)
    : option Token * option Token :=
  match w with
  | CurrentToken => (Some new, s.1)
  | PreviousToken => (Some new, None)
  end.

(** The windows after a resume was committed. *)
Lemma window_rotated ps peer commit d :
  revocations ps !! peer = None →
  token_window (rotated ps peer commit) peer =
    (Some (hc_token commit),
     g ← grace ps !! peer;
     if decide (default (hc_candidate_pair_id commit) (pair_id <$> pair_state ps !! peer)
                = grace_pair_id g)
     then Some (grace_token g) else None) ∧
  (d ≠ peer → token_window (rotated ps peer commit) d = token_window ps d).
Proof.
  intros Hr. rewrite !token_window_of. unfold rotated, installed.
  destruct (pair_state ps !! peer) eqn:Ep; simpl; rewrite Hr, !lookup_insert_eq, ?Ep; simpl;
    (split; [f_equal; by destruct (grace ps !! peer)|]); intros Hne; by rewrite !lookup_insert_ne.
Qed.

(** A commit of a resume moves the windows as a rotation or not at all. *)
Lemma commit_resumed_windows peer commit ps r ps' :
  hc_resumed commit = true → commit_handshake peer commit ps = (r, ps') →
  (∀ pid, r = Ok pid → resume_allowed ps peer commit = true ∧
     ∀ d, token_window ps' d = token_window (rotated ps peer commit) d) ∧
  (∀ k, r = Err k → ∀ d, token_window ps' d = token_window ps d) ∧
  (resume_allowed ps peer commit = false → r = Err PermissionDenied) ∧
  (∀ pid, r = Ok pid → grace ps' = grace ps ∧ revocations ps' = revocations ps).
Proof.
  intros Hres Hc. apply commit_resumed_spec in Hc as (st & _ & Hc); [|done].
  destruct (resume_allowed ps peer commit); [|by destruct Hc as [-> ->]].
  destruct Hc as [[[k ->] ->]|[-> ->]]; split_and!; try done.
  intros _ _. unfold rotated. by destruct (pair_state ps !! peer).
Qed.

(** C10 (refinement). The host's commit of a resume implements the two-token
    window: a resume with the current token makes the token it proved the
    previous one, whatever grace record was there; a resume with the previous
    token uses it up. The windows of the other peers do not move; and a commit
    that fails keeps the current token, so the phone can still resume. *)
Theorem host_resume_refines_token_window peer commit w ps r ps' :
  hc_resumed commit = true → commit_host_handshake peer commit w ps = (r, ps') →
  (∀ pid, r = Ok pid →
     hc_observed_token commit = (token_window ps peer).1 ∧
     token_window ps' peer = window_step w (hc_token commit) (token_window ps peer)) ∧
  (∀ k, r = Err k →
     (token_window ps' peer).1 = (token_window ps peer).1 ∧
     ((token_window ps' peer).2 = (token_window ps peer).2 ∨
      (token_window ps' peer).2 = (token_window ps peer).1 ∨
      (token_window ps' peer).2 = None)) ∧
  ∀ d, d ≠ peer → token_window ps' d = token_window ps d.
Proof.
  intros Hres. unfold commit_host_handshake. rewrite Hres. simpl negb. cbv iota.
  destruct w.
  - destruct (stage_grace_spec peer commit ps) as (st0 & ->).
    set (ps0 := set_store _ st0). intros Hc.
    apply commit_resumed_windows in Hc as (Hok & Herr & Hno & _); [|done].
    assert (Hal : resume_allowed ps0 peer commit = resume_allowed ps peer commit).
    { subst ps0. destruct (resume_allowed ps peer commit) eqn:E, (hc_observed_token commit); exact E. }
    rewrite Hal in *. destruct (resume_allowed ps peer commit) eqn:Ea; last first.
    { rewrite (Hno eq_refl) in *. split_and!; [done| |]; intros; rewrite (Herr _ eq_refl); auto. }
    apply resume_allowed_true in Ea as (Hnr & rec & Hm & Ho). subst ps0. rewrite Ho in *.
    match goal with H : context [rotated ?p peer commit] |- _ => set (ps0 := p) in * end.
    split_and!.
    + intros pid ->. destruct (Hok _ eq_refl) as [_ ->].
      rewrite (proj1 (window_rotated ps0 peer commit peer Hnr)), token_window_of, Hnr, Hm.
      simpl. rewrite lookup_insert_eq. simpl. by rewrite decide_True.
    + intros k ->. rewrite (Herr _ eq_refl), !token_window_of. simpl.
      rewrite Hnr, Hm, lookup_insert_eq. simpl. split; [done|].
      destruct (pair_state ps !! peer); simpl; [|auto]. rewrite decide_True by done. auto.
    + intros d Hd. destruct r as [pid|k].
      * destruct (Hok _ eq_refl) as [_ ->].
        rewrite (proj2 (window_rotated ps0 peer commit d Hnr) Hd), !token_window_of.
        simpl. by rewrite lookup_insert_ne.
      * rewrite (Herr _ eq_refl), !token_window_of. simpl. by rewrite lookup_insert_ne.
  - destruct (commit_handshake peer commit ps) as [r1 ps1] eqn:Hc.
    apply commit_resumed_windows in Hc as (Hok & Herr & _ & Hg); [|done].
    destruct r1 as [pid1|k1]; intros [= <- <-]; last first.
    { split_and!; [done| |]; intros; rewrite (Herr _ eq_refl); auto. }
    destruct (Hok _ eq_refl) as [Ea Hw]. apply resume_allowed_true in Ea as (Hnr & rec & Hm & Ho).
    destruct (drop_grace_spec peer ps1) as (st2 & -> & _).
    pose proof (Hw peer) as Hwp. rewrite (proj1 (window_rotated ps peer commit peer Hnr)) in Hwp.
    rewrite token_window_of in Hwp. destruct (Hg _ eq_refl) as [_ Hrv]. split_and!; [|done|].
    + intros _ _. rewrite !token_window_of, Ho, Hnr, Hm. split; [done|]. simpl.
      rewrite Hrv, Hnr in *. rewrite lookup_delete_eq. simpl in *.
      injection Hwp as -> _. by destruct (map ps1 !! peer), (pair_state ps1 !! peer).
    + intros d Hd. rewrite <-(proj2 (window_rotated ps peer commit d Hnr) Hd), <-Hw, !token_window_of.
      simpl. by rewrite lookup_delete_ne.
Qed.

End Laws.
End WithStore.
End PeerStore.

(** ** A concrete store

    The file store, with a length-prefixed codec of its records. *)
Module ToyCodec.

Class Ser (A : Type) := { put : A → option bytes; get : bytes → option (A * bytes) }.
Class SerLaws (A : Type) `{Ser A} : Prop :=
  { get_put : ∀ x b rest, put x = Some b → get (b ++ rest) = Some (x, rest) }.

#[export] Instance ser_bytes : Ser bytes := {|
  put b := if (length b <? 256)%nat then Some (byte_of (Z.of_nat (length b)) :: b) else None;
  get r := match r with
           | [] => None
           | n :: r' => let k := Z.to_nat (byte_val n) in
                        if (k <=? length r')%nat then Some (take k r', drop k r') else None
           end;
|}.
#[export] Instance ser_bytes_laws : SerLaws bytes.
Proof.
  split. intros x b rest. simpl. destruct (Nat.ltb_spec (length x) 256) as [Hl|]; [|done].
  intros [= <-]. simpl. rewrite byte_val_of, Z.mod_small, Nat2Z.id by lia.
  rewrite (proj2 (Nat.leb_le _ _)) by (rewrite length_app; lia).
  by rewrite take_app_length, drop_app_length.
Qed.

(** A value read through an injection into another type. *)
Definition ser_via {A B} `{Ser B} (f : A → B) (g : B → option A) : Ser A := {|
  put x := put (f x);
  get r := '(y, r') ← get r; x ← g y; Some (x, r');
|}.
Lemma ser_via_laws {A B} `{SerLaws B} (f : A → B) g :
  (∀ x, g (f x) = Some x) → @SerLaws A (ser_via f g).
Proof. intros Hfg. split. intros x b rest Hp. simpl. rewrite (get_put (f x)) by done. simpl. by rewrite Hfg. Qed.

#[export] Instance ser_prod {A B} `{Ser A, Ser B} : Ser (A * B) := {|
  put p := b1 ← put p.1; b2 ← put p.2; Some (b1 ++ b2);
  get r := '(x, r1) ← get r; '(y, r2) ← get r1; Some ((x, y), r2);
|}.
#[export] Instance ser_prod_laws {A B} `{SerLaws A, SerLaws B} : SerLaws (A * B).
Proof.
  split. intros [x y] b rest Hp. simpl in *. apply bind_Some in Hp as (b1 & H1' & Hp).
  apply bind_Some in Hp as (b2 & H2' & [= <-]). rewrite <-(assoc (++)).
  rewrite (get_put x) by done. simpl. by rewrite (get_put y).
Qed.

#[export] Instance ser_list {A} `{Ser A} : Ser (list A) := {|
  put l := bs ← mapM put l;
           if (length l <? 256)%nat then Some (byte_of (Z.of_nat (length l)) :: concat bs) else None;
  get r := match r with
           | [] => None
           | n :: r' =>
               (fix go (k : nat) (r : bytes) : option (list A * bytes) :=
                  match k with
                  | O => Some ([], r)
                  | S k' => '(x, r1) ← get r; '(l, r2) ← go k' r1; Some (x :: l, r2)
                  end) (Z.to_nat (byte_val n)) r'
           end;
|}.
#[export] Instance ser_list_laws {A} `{SerLaws A} : SerLaws (list A).
Proof.
  split. intros l b rest Hp. simpl in *. apply bind_Some in Hp as (bs & Hbs & Hp).
  destruct (Nat.ltb_spec (length l) 256) as [Hl|]; [|done]. injection Hp as <-. simpl.
  rewrite byte_val_of, Z.mod_small, Nat2Z.id by lia. clear Hl.
  apply mapM_Some in Hbs. revert bs Hbs. induction l as [|x l IH]; intros bs Hbs.
  - apply Forall2_nil_inv_l in Hbs as ->. done.
  - apply Forall2_cons_inv_l in Hbs as (b & bs' & Hb & Hbs & ->). simpl.
    rewrite <-(assoc (++)), (get_put x) by done. simpl. by rewrite IH.
Qed.

#[export] Instance ser_option {A} `{Ser A} : Ser (option A) :=
  ser_via (λ o, match o with None => [] | Some x => [x] end) (λ l, Some (head l)).
#[export] Instance ser_option_laws {A} `{SerLaws A} : SerLaws (option A).
Proof. apply ser_via_laws. by intros []. Qed.

#[export] Instance ser_string : Ser string :=
  ser_via String.list_byte_of_string (λ b, Some (String.string_of_list_byte b)).
#[export] Instance ser_string_laws : SerLaws string.
Proof. apply ser_via_laws. intros x. by rewrite String.string_of_list_byte_of_string. Qed.

(** An integer by its sign and the 8 bytes of its magnitude. *)
Definition z_bytes (z : Z) : option bytes :=
  if (0 <=? z) && (z <? 2 ^ 64) then Some (be_bytes 8 z) else None.
#[export] Instance ser_Z : Ser Z := {|
  put z := z_bytes z;
  get r := if (8 <=? length r)%nat then Some (be_value (take 8 r), drop 8 r) else None;
|}.
#[export] Instance ser_Z_laws : SerLaws Z.
Proof.
  split. intros x b rest Hp. unfold put, get, ser_Z, z_bytes in *.
  destruct (0 <=? x) eqn:E1, (x <? 2 ^ 64) eqn:E2; try discriminate Hp. injection Hp as <-.
  apply Z.leb_le in E1. apply Z.ltb_lt in E2. pose proof (length_be_bytes 8 x) as Hl.
  rewrite (proj2 (Nat.leb_le _ _)) by (rewrite length_app; lia).
  rewrite take_app_length', drop_app_length' by done. rewrite be_value_bytes, Z.mod_small; [done|].
  change (256 ^ Z.of_nat 8) with (2 ^ 64). lia.
Qed.

#[export] Instance ser_map {V} `{Ser V} : Ser (gmap DeviceId V) :=
  ser_via (B := list (DeviceId * V)) (λ m : gmap DeviceId V, map_to_list m)
    (λ l, Some (list_to_map l)).
#[export] Instance ser_map_laws {V} `{SerLaws V} : SerLaws (gmap DeviceId V).
Proof. apply ser_via_laws. intros x. by rewrite list_to_map_to_list. Qed.

#[export] Instance ser_peer : Ser PeerRecord :=
  ser_via (λ r, (ticket r, token r)) (λ p, Some {| ticket := p.1; token := p.2 |}).
#[export] Instance ser_peer_laws : SerLaws PeerRecord.
Proof. apply ser_via_laws. by intros []. Qed.
#[export] Instance ser_pair_state : Ser PairState :=
  ser_via (λ r, (pair_id r, event_key r)) (λ p, Some {| pair_id := p.1; event_key := p.2 |}).
#[export] Instance ser_pair_state_laws : SerLaws PairState.
Proof. apply ser_via_laws. by intros []. Qed.
#[export] Instance ser_grace : Ser GraceToken :=
  ser_via (λ r, (grace_pair_id r, grace_token r))
    (λ p, Some {| grace_pair_id := p.1; grace_token := p.2 |}).
#[export] Instance ser_grace_laws : SerLaws GraceToken.
Proof. apply ser_via_laws. by intros []. Qed.
#[export] Instance ser_revocation : Ser RevocationRecord :=
  ser_via (λ r, (event_id r, revoked_pair_id r, revoked_event_key r, revoked_at_unix r))
    (λ '(a, b, c, d), Some {| event_id := a; revoked_pair_id := b; revoked_event_key := c;
                              revoked_at_unix := d |}).
#[export] Instance ser_revocation_laws : SerLaws RevocationRecord.
Proof. apply ser_via_laws. by intros []. Qed.

#[export] Instance toy_codec {A} `{Ser A} : Codec A := {|
  encode := put;
  decode b := match get b with Some (x, []) => Some x | _ => None end;
|}.
#[export] Instance toy_codec_laws {A} `{SerLaws A} : CodecLaws A.
Proof.
  split. intros x b Hb. simpl. rewrite <-(app_nil_r b). by rewrite (get_put x).
Qed.

End ToyCodec.

Module PeerExamples.
#[local] Transparent gmap_empty be_bytes be_value le_bytes le_value.
Import ToyCodec FileStore PeerStore.

Definition ex_peer : DeviceId := [Byte.x01].
Definition old_token : Token := [Byte.x10].
Definition new_token : Token := [Byte.x20].
Definition newer_token : Token := [Byte.x30].
Definition pair1 : bytes := [Byte.x07].
Definition pair2 : bytes := [Byte.x08].

Definition disk (faults : list Fault) : FileCredentialStore :=
  {| fs_records := ∅; fs_staged := ∅; fs_unsynced := ∅; fs_faults := faults |}.

(** A host paired with [ex_peer]. *)
Definition ex_fresh (tok pid : bytes) (seen : option bytes) : HandshakeCommit :=
  {| hc_ticket := None; hc_token := tok; hc_resumed := false; hc_candidate_pair_id := pid;
     hc_candidate_event_key := [Byte.x0a]; hc_observed_revocation := seen;
     hc_observed_token := None |}.
Definition ex_resume (tok seen : bytes) : HandshakeCommit :=
  {| hc_ticket := None; hc_token := tok; hc_resumed := true; hc_candidate_pair_id := pair2;
     hc_candidate_event_key := [Byte.x0b]; hc_observed_revocation := None;
     hc_observed_token := Some seen |}.

Definition ex_empty : PeerStore (S := FileCredentialStore) :=
  {| map := ∅; pair_state := ∅; revocations := ∅; grace := ∅; last_connected := None;
     store := disk [] |}.
Definition ex_paired := (commit_handshake ex_peer (ex_fresh old_token pair1 None) ex_empty).2.
Definition ex_revocation : RevocationRecord :=
  {| event_id := [Byte.xaa]; revoked_pair_id := Some pair1; revoked_event_key := Some [Byte.x0a];
     revoked_at_unix := 1700000000 |}.
Definition ex_revoked := (revoke [Byte.xaa] 1700000000 ex_peer ex_paired).2.
Definition ex_repaired := (commit_handshake ex_peer (ex_fresh new_token pair2 (Some [Byte.xaa])) ex_revoked).2.
(** The resume that was under way when the revocation arrived, and a failing
    attempt to note the last host. *)
Definition ex_late : list PeerOp :=
  [OpHostCommit ex_peer (ex_resume new_token old_token) CurrentToken;
   OpCommit ex_peer (ex_fresh new_token pair2 None); OpForget ex_peer; OpSetLastHost ex_peer].
Definition ex_resumed := (commit_host_handshake ex_peer (ex_resume new_token old_token) CurrentToken ex_paired).2.

Lemma reboot_self (st : FileCredentialStore) : Reboot st st.
Proof. intros n. by left. Qed.

(** A synced record has one value. *)
Lemma settled (st : FileCredentialStore) n v :
  default [] (fs_unsynced st !! n) = [] → file_after_crash st n v → v = fs_records st !! n.
Proof. intros He [->|Hv]; [done|]. rewrite He in Hv. by apply not_elem_of_nil in Hv. Qed.

Lemma revoke_is_durable_witness :
  token_of ex_paired ex_peer = Some old_token ∧
  is_revoked ex_revoked ex_peer = true ∧ pair_id_of ex_revoked ex_peer = None ∧
  (∀ tok, ¬ authorises ex_revoked ex_peer tok) ∧
  ∀ st ps2 st2 tok, Reboot (store ex_revoked) st → load_from st = (Ok ps2, st2) → none_missed loaded_records st →
    is_revoked ps2 ex_peer = true ∧ ¬ authorises ps2 ex_peer tok.
Proof.
  split; [by_vm|].
  apply (revoke_is_durable [Byte.xaa] 1700000000 ex_peer ex_paired ex_revocation ex_revoked).
  by_fst.
Defined.

Lemma corrupt_revocations_fail_closed_witness :
  let bad := {| fs_records := {[ REVOCATIONS_RECORD := [Byte.xff] ]}; fs_staged := ∅;
                fs_unsynced := ∅; fs_faults := [] |} in
  decode (A := gmap DeviceId RevocationRecord) [Byte.xff] = None ∧
  ∀ ps, (load_from bad).1 ≠ Ok ps.
Proof.
  split; [by_vm|].
  apply (corrupt_revocations_fail_closed _ [Byte.xff]); [by_vm|by_vm|]. split_and!; try done; intros H; vm_compute in H; discriminate.
Defined.

(** The store loaded again after the re-pair. *)
Definition ex_reloaded : PeerStore :=
  unwrap_or (load_from (store ex_repaired)).1 ex_empty.

Lemma repair_never_revives_the_old_token_witness :
  token_of ex_reloaded ex_peer = Some new_token ∧
  (is_revoked ex_reloaded ex_peer = true ∨
   (authorises ex_reloaded ex_peer old_token → old_token = new_token)).
Proof.
  split; [by_vm|].
  refine (repair_never_revives_the_old_token ex_peer (ex_fresh new_token pair2 (Some [Byte.xaa]))
    ex_revoked (Ok pair2) ex_repaired (store ex_repaired) ex_reloaded (load_from (store ex_repaired)).2 old_token
    _ _ _ _ _ _ _).
  - intros v Hv. exists (default [] (fs_records (store ex_revoked) !! REVOCATIONS_RECORD)),
      {[ ex_peer := ex_revocation ]}. split; [|split; [by_vm|exists ex_revocation; by_vm]].
    etrans; [apply (settled (store ex_revoked) REVOCATIONS_RECORD v); [by_vm|exact Hv]|by_vm].
  - reflexivity.
  - intros g gm (b & Hb & _) _. exfalso.
    apply (settled (store ex_revoked) GRACE_RECORD (Some b)) in Hb; [|by_vm].
    assert (fs_records (store ex_revoked) !! GRACE_RECORD = None) as He by by_vm.
    exact (eq_ind None (λ o, match o with None => True | Some _ => False end) I _
             (eq_sym (eq_trans Hb He))).
  - by_fst.
  - apply reboot_self.
  - apply fst_eq, unwrap_or_ok. by_vm.
  - repeat split; intros H; vm_compute in H |- *; done.
Defined.

Definition ex_rotated := (commit_handshake ex_peer (ex_resume new_token old_token) ex_paired).2.

(** The slower of two resumes that proved the same token changes nothing. *)
Lemma resume_commit_is_compare_and_swap_witness :
  tokens ex_rotated = <[ex_peer := new_token]> (tokens ex_paired) ∧
  ∃ st, (commit_handshake ex_peer (ex_resume newer_token old_token) ex_rotated).2
        = set_store ex_rotated st.
Proof.
  split.
  - destruct (resume_commit_is_compare_and_swap ex_peer (ex_resume new_token old_token) ex_paired
      (Ok pair1) ex_rotated eq_refl) as [H _]; [by_fst|].
    apply (H pair1 eq_refl).
  - destruct (resume_commit_is_compare_and_swap ex_peer (ex_resume newer_token old_token) ex_rotated
      (Err PermissionDenied) (commit_handshake ex_peer (ex_resume newer_token old_token) ex_rotated).2
      eq_refl) as [_ H]; [by_fst|].
    apply (H PermissionDenied eq_refl).
Defined.


(** After a crash that lost the clean-up of the peer records: the tombstone and
    the stale token are both there, and the next write fails. *)
Definition ex_stale : PeerStore :=
  {| map := {[ ex_peer := {| ticket := None; token := old_token |} ]}; pair_state := ∅;
     revocations := {[ ex_peer := ex_revocation ]}; grace := ∅; last_connected := None;
     store := disk [Some (OtherIo, 0%nat)] |}.

(** The tombstone and, its clean-up lost in a crash, the old peer record are on disk; a
    load that fails to look for the tombstone takes it for absent and lets the revoked
    peer back in. *)
Definition ex_unseen (k : nat) : FileCredentialStore :=
  {| fs_records := <[PEERS_RECORD := default [] (fs_records (store ex_paired) !! PEERS_RECORD)]> (fs_records (store ex_revoked));
     fs_staged := ∅; fs_unsynced := ∅; fs_faults := replicate k None ++ [Some (OtherIo, 0%nat)] |}.
Lemma an_unseen_tombstone_lets_the_peer_in :
  bool_decide (is_Some (fs_records (ex_unseen 11) !! REVOCATIONS_RECORD)) = true ∧
  token_of (unwrap_or (load_from (ex_unseen 12)).1 ex_empty) ex_peer = None ∧
  token_of (unwrap_or (load_from (ex_unseen 11)).1 ex_empty) ex_peer = Some old_token.
Proof. split; [by_vm|]. split; by_vm. Qed.

Lemma failed_second_revoke_revives_witness :
  token_of ex_stale ex_peer = None ∧
  token_of (revoke [Byte.xbb] 1700000001 ex_peer ex_stale).2 ex_peer = Some old_token.
Proof.
  apply (failed_second_revoke_revives [Byte.xbb] 1700000001 ex_peer ex_stale ex_revocation
           {| ticket := None; token := old_token |} OtherIo); [by_vm|by_vm|by_fst].
Defined.

Definition ex_healed :=
  (commit_host_handshake ex_peer (ex_resume newer_token new_token) PreviousToken ex_resumed).2.

Lemma host_resume_refines_token_window_witness :
  token_window ex_resumed ex_peer = (Some new_token, Some old_token) ∧
  token_window ex_healed ex_peer = (Some newer_token, None).
Proof.
  split.
  - destruct (host_resume_refines_token_window ex_peer (ex_resume new_token old_token)
      CurrentToken ex_paired (Ok pair1) ex_resumed eq_refl) as [H _]; [by_fst|].
    destruct (H pair1 eq_refl) as [_ ->]. by_vm.
  - destruct (host_resume_refines_token_window ex_peer (ex_resume newer_token new_token)
      PreviousToken ex_resumed (Ok pair1) ex_healed eq_refl) as [H _]; [by_fst|].
    destruct (H pair1 eq_refl) as [_ ->]. by_vm.
Defined.

End PeerExamples.
