(* ===== verification/Protocol.v ===== *)
(** * Protocol: the messages of phone, host and relay

    [crates/protocol/src/lib.rs]: the data carried between phone and host and
    the direction each frame may travel in. A constructor [E::C] of the source
    is [E_C] here. *)

From S2P Require Import Prelude.

Abbreviation SessionId := Z (only parsing).
Abbreviation TransferId := Z (only parsing).

Definition FILE_CHUNK_BYTES : Z := 16 * 1024.

Inductive SessionKind := SessionKind_Shell | SessionKind_Agent.
Inductive SessionSource := SessionSource_Spawned | SessionSource_Adopted.

Record SessionInfo := {
  info_id : SessionId;
  info_title : string;
  info_kind : SessionKind;
  info_source : SessionSource;
  info_has_activity : bool;
}.

Inductive PermissionOptionKind := AllowOnce | AllowAlways | RejectOnce | RejectAlways.

Record PermissionOption := {
  option_id : string;
  option_name : string;
  option_kind : PermissionOptionKind;
}.

Record ToolCallCard := { card_tool_call_id : string; card_title : string }.

Inductive AgentProvider := ClaudeCode | OpenCode | Codex | Goose.
#[global] Instance AgentProvider_eq_dec : EqDecision AgentProvider.
Proof. solve_decision. Defined.

Inductive AgentToolKind :=
| Tool_Read | Tool_Edit | Tool_Delete | Tool_Move | Tool_Search | Tool_Execute | Tool_Think
| Tool_Fetch | Tool_Other.

Inductive PermissionCategory :=
| Category_Read | Category_Write | Category_Execute | Category_Network | Category_Destructive
| Category_Unknown.

Inductive WorkspaceScope := Scope_Project | Scope_Broad.
Inductive PushProvider := Apns | Fcm.
#[global] Instance PushProvider_eq_dec : EqDecision PushProvider.
Proof. solve_decision. Defined.
Inductive AgentToolStatus := Status_Pending | Status_InProgress | Status_Completed | Status_Failed.
Inductive AgentPlanStatus := Plan_Pending | Plan_InProgress | Plan_Completed.

Record AgentPlanEntry := { plan_content : string; plan_status : AgentPlanStatus }.
Record AgentCommand := {
  command_name : string; command_description : string; command_input_hint : option string }.
Record AgentSessionSummary := {
  summary_acp_session_id : string;
  summary_provider : AgentProvider;
  summary_title : string;
  summary_label : option string;
  summary_last_active_at_unix_ms : Z;
}.
Record AgentProviderAvailability := {
  avail_provider : AgentProvider; avail_available : bool; avail_detail : option string }.
Record AgentMode := { mode_id : string; mode_name : string; mode_description : option string }.
Inductive AgentConfigValue := Config_Select (s : string) | Config_Boolean (b : bool).
Record AgentConfigChoice := {
  choice_value : string; choice_name : string; choice_description : option string;
  choice_group : option string }.
Record AgentConfigOption := {
  config_id : string; config_name : string; config_description : option string;
  config_category : option string; config_current_value : AgentConfigValue;
  config_choices : list AgentConfigChoice }.
Record AgentAuthMethod := {
  auth_id : string; auth_name : string; auth_description : option string }.

Inductive AgentEvent :=
| AgentEvent_SessionStarted (provider : AgentProvider)
| AgentEvent_UserMessage (text : string)
| AgentEvent_TurnStarted
| AgentEvent_MessageChunk (text : string)
| AgentEvent_ThoughtChunk (text : string)
| AgentEvent_ToolCall (tool_call_id title : string) (kind : AgentToolKind)
    (status : AgentToolStatus) (detail : option string)
| AgentEvent_ToolCallUpdate (tool_call_id : string) (title : option string)
    (kind : option AgentToolKind) (status : option AgentToolStatus) (detail : option string)
| AgentEvent_Plan (entries : list AgentPlanEntry)
| AgentEvent_TurnFinished (stop_reason : string)
| AgentEvent_Error (message : string)
| AgentEvent_AvailableCommands (commands : list AgentCommand)
| AgentEvent_ModeState (current_mode_id : string) (available_modes : list AgentMode)
| AgentEvent_ConfigOptions (options : list AgentConfigOption)
| AgentEvent_SessionInfo (title : option string)
| AgentEvent_Replaying (active : bool)
| AgentEvent_AuthRequired (methods : list AgentAuthMethod)
| AgentEvent_Usage (used_tokens max_tokens : Z) (cost : option string).

Record AgentTimelineEvent := { event_seq : Z; event_event : AgentEvent }.

Inductive TerminalRoot := Root_Workspace | Root_Home.

Inductive RequestKind :=
| RequestKind_NewSession (cwd title : option string)
| RequestKind_Attach (id : SessionId)
| RequestKind_KillSession (id : SessionId)
| RequestKind_RenameSession (id : SessionId) (title : string)
| RequestKind_NewSessionSized (cwd title : option string) (cols rows : Z)
| RequestKind_NewAgentSession (provider : AgentProvider) (title : option string)
| RequestKind_AgentPrompt (id : SessionId) (text : string)
| RequestKind_AgentCancel (id : SessionId)
| RequestKind_AgentSetMode (id : SessionId) (mode_id : string)
| RequestKind_AgentSetConfigOption (id : SessionId) (config_id : string) (value : AgentConfigValue)
| RequestKind_AgentAuthenticate (id : SessionId) (method_id : string)
| RequestKind_ListWorkspaceDirs (rel : string)
| RequestKind_NewAgentSessionIn (provider : AgentProvider) (title : option string) (rel : string)
| RequestKind_ListAgentSessions (rel : string)
| RequestKind_ResumeAgentSession (rel acp_session_id : string)
| RequestKind_ListAgentProviders
| RequestKind_NewSessionIn (title : option string) (rel : string)
| RequestKind_ListTerminalRoots
| RequestKind_ListDirsIn (root : TerminalRoot) (rel : string)
| RequestKind_NewSessionInRoot (root : TerminalRoot) (rel : string) (title : option string)
| RequestKind_ListAgentSessionsFor (rel : string) (provider : AgentProvider).

Inductive CommandOutcome :=
| CommandOutcome_Ok (session : option SessionId)
| CommandOutcome_Error (message : string).

Inductive PermissionResolution := Resolution_Allowed | Resolution_Rejected | Resolution_Cancelled.
Inductive PermissionResolver := Resolver_Phone | Resolver_Laptop | Resolver_System.

Inductive Frame :=
| Frame_SessionList (sessions : list SessionInfo)
| Frame_SessionAdded (info : SessionInfo)
| Frame_SessionRemoved (id : SessionId)
| Frame_Attach (id : SessionId)
| Frame_Detach
| Frame_Input (id : SessionId) (data : bytes)
| Frame_Output (id : SessionId) (data : bytes)
| Frame_ActivityBlip (id : SessionId)
| Frame_Resize (id : SessionId) (cols rows : Z)
| Frame_NewSession (cwd title : option string)
| Frame_KillSession (id : SessionId)
| Frame_RequestPermission (id : SessionId) (tool_call : ToolCallCard)
    (options : list PermissionOption)
| Frame_PermissionDecision (tool_call_id : string) (option_id : option string)
| Frame_PauseStream
| Frame_ResumeStream
| Frame_RenameSession (id : SessionId) (title : string)
| Frame_CommandError (message : string)
| Frame_ScreenReset (id : SessionId) (generation : Z)
| Frame_Request (req_id : Z) (kind : RequestKind)
| Frame_CommandResult (req_id : Z) (outcome : CommandOutcome)
| Frame_SessionSize (id : SessionId) (cols rows : Z)
| Frame_AgentSnapshot (id : SessionId) (events : list AgentTimelineEvent)
| Frame_AgentTimeline (id : SessionId) (event : AgentTimelineEvent)
| Frame_AgentPermissionDecision (id : SessionId) (tool_call_id : string) (option_id : option string)
| Frame_AgentPermissionResolved (id : SessionId) (tool_call_id : string)
| Frame_SequencedOutput (id : SessionId) (seq : Z) (data : bytes)
| Frame_OutputResume (id : SessionId) (after_seq generation : Z)
| Frame_FileGetReq (id : TransferId) (path : string) (start_seq : Z) (allow_outside_home : bool)
| Frame_FilePutReq (id : TransferId) (path : string) (size : Z) (mode : option Z)
    (allow_outside_home : bool)
| Frame_FileChunk (id : TransferId) (seq : Z) (data : bytes)
| Frame_FileDone (id : TransferId) (size : Z) (checksum : bytes)
| Frame_FileErr (id : TransferId) (reason : string)
| Frame_FileRetry (id : TransferId) (from_seq : Z)
| Frame_PolicyPermissionRequest (id : SessionId) (tool_call : ToolCallCard)
    (options : list PermissionOption) (category : PermissionCategory) (scope : WorkspaceScope)
| Frame_PushRegister (provider : PushProvider) (token : string) (sealed_wake_blob : bytes)
| Frame_PushRegisterAck (ok : bool) (detail : option string)
| Frame_UnpairSelf (request_id : Z) (pair_id : bytes)
| Frame_UnpairResult (request_id : Z) (pair_id : bytes) (committed : bool) (detail : option string)
| Frame_PairRevoked (pair_id event_id : bytes)
| Frame_AgentPermissionResolvedInfo (id : SessionId) (tool_call_id : string)
    (resolution : PermissionResolution) (by_ : PermissionResolver)
| Frame_WorkspaceDirs (req_id : Z) (rel : string) (names : list string)
| Frame_AgentSessions (req_id : Z) (rel : string) (sessions : list AgentSessionSummary)
| Frame_AgentProviders (req_id : Z) (providers : list AgentProviderAvailability)
| Frame_TerminalRoots (req_id : Z) (roots : list TerminalRoot).

Inductive FrameDirection := PhoneToHost | HostToPhone | Bidirectional.

Definition allows_phone_to_host (d : FrameDirection) : bool :=
  match d with PhoneToHost | Bidirectional => true | HostToPhone => false end.
Definition allows_host_to_phone (d : FrameDirection) : bool :=
  match d with HostToPhone | Bidirectional => true | PhoneToHost => false end.

Definition direction (f : Frame) : FrameDirection :=
  match f with
  | Frame_SessionList _ | Frame_SessionAdded _ | Frame_SessionRemoved _ | Frame_Output _ _
  | Frame_ActivityBlip _ | Frame_RequestPermission _ _ _ | Frame_CommandError _
  | Frame_ScreenReset _ _ | Frame_CommandResult _ _ | Frame_SessionSize _ _ _
  | Frame_AgentSnapshot _ _ | Frame_AgentTimeline _ _ | Frame_AgentPermissionResolved _ _
  | Frame_AgentPermissionResolvedInfo _ _ _ _ | Frame_SequencedOutput _ _ _
  | Frame_PolicyPermissionRequest _ _ _ _ _ | Frame_PushRegisterAck _ _
  | Frame_UnpairResult _ _ _ _ | Frame_PairRevoked _ _ | Frame_WorkspaceDirs _ _ _
  | Frame_AgentSessions _ _ _ | Frame_AgentProviders _ _ | Frame_TerminalRoots _ _ => HostToPhone
  | Frame_Attach _ | Frame_Detach | Frame_Input _ _ | Frame_Resize _ _ _ | Frame_NewSession _ _
  | Frame_KillSession _ | Frame_PermissionDecision _ _ | Frame_PauseStream | Frame_ResumeStream
  | Frame_RenameSession _ _ | Frame_Request _ _ | Frame_AgentPermissionDecision _ _ _
  | Frame_OutputResume _ _ _ | Frame_FileGetReq _ _ _ _ | Frame_FilePutReq _ _ _ _ _
  | Frame_PushRegister _ _ _ | Frame_UnpairSelf _ _ => PhoneToHost
  | Frame_FileChunk _ _ _ | Frame_FileDone _ _ _ | Frame_FileErr _ _ | Frame_FileRetry _ _ =>
      Bidirectional
  end.
