(* ===== verification/Output.v ===== *)
(** * Output: scrollback, attach and resume of a terminal session

    The output path of [crates/host/src/session.rs] (the scrollback ring,
    [push_output], [snapshot_and_subscribe], [delta_since_and_subscribe]), the
    frames [crates/host/src/iroh_serve.rs] makes of it ([attach],
    [attach_resume], the live forwarder) and the phone's side of them in
    [app/src-tauri/src/lib.rs]. *)

From S2P Require Import Prelude Protocol.

Definition blen (b : bytes) : Z := Z.of_nat (length b).

Record OutputChunk := { oc_seq : Z; oc_bytes : bytes }.
#[global] Instance OutputChunk_eq_dec : EqDecision OutputChunk.
Proof. solve_decision. Defined.

(** The bytes of a run of chunks. *)
Definition bytes_of (cs : list OutputChunk) : bytes := concat (oc_bytes <$> cs).

(** ** The scrollback ring *)
Module Ring.

Record ScrollbackRing := {
  chunks : list OutputChunk;
  ring_bytes : Z;
  min_full_seq : Z;
}.

Definition ring_default : ScrollbackRing :=
  {| chunks := []; ring_bytes := 0; min_full_seq := 0 |}.

(** The eviction loop of [push]: whole chunks from the front, never the last. *)
Fixpoint evict (cap : Z) (cs : list OutputChunk) (n min_full : Z) : ScrollbackRing :=
  match cs with
  | old :: rest =>
      if (cap <? n) && negb (bool_decide (rest = []))
      then evict cap rest (n - blen (oc_bytes old)) (oc_seq old + 1)
      else {| chunks := cs; ring_bytes := n; min_full_seq := min_full |}
  | [] => {| chunks := cs; ring_bytes := n; min_full_seq := min_full |}
  end.

(** The tail of [push]: a single chunk over the cap loses its front. *)
Definition trim_front (cap : Z) (r : ScrollbackRing) : ScrollbackRing :=
  if cap <? ring_bytes r then
    match chunks r with
    | front :: rest =>
        let excess := ring_bytes r - cap in
        {| chunks := {| oc_seq := oc_seq front;
                        oc_bytes := drop (Z.to_nat excess) (oc_bytes front) |} :: rest;
           ring_bytes := ring_bytes r - excess;
           min_full_seq := oc_seq front + 1 |}
    | [] => r
    end
  else r.

Definition push (chunk : OutputChunk) (cap : Z) (r : ScrollbackRing) : ScrollbackRing :=
  trim_front cap (evict cap (chunks r ++ [chunk]) (ring_bytes r + blen (oc_bytes chunk))
                    (min_full_seq r)).

(** [concat]: every retained byte. *)
Definition ring_concat (r : ScrollbackRing) : bytes := bytes_of (chunks r).

Definition since (after_seq : Z) (r : ScrollbackRing) : option (list OutputChunk) :=
  if after_seq + 1 <? min_full_seq r then None
  else Some (filter (λ c, after_seq < oc_seq c) (chunks r)).

End Ring.

(** ** One session *)
Module Session.
Import Ring.

(** The output half of [SessionInner]: [reserved] is the chunk of a reader that
    has taken its sequence number and not yet the scrollback lock; [receivers]
    are the queues of the subscribers, oldest subscriber first. *)
Record SessionInner := {
  scrollback : ScrollbackRing;
  cap : Z;
  next_output_seq : Z;
  has_unseen_activity : bool;
  reserved : option OutputChunk;
  receivers : list (list OutputChunk);
}.

Definition session_new (cap : Z) : SessionInner :=
  {| scrollback := ring_default; cap := cap; next_output_seq := 1;
     has_unseen_activity := false; reserved := None; receivers := [] |}.

(** [push_output], before the lock: [fetch_add] on the sequence number. *)
Definition push_reserve (b : bytes) (s : SessionInner) : SessionInner :=
  {| scrollback := scrollback s; cap := cap s;
     next_output_seq := wrapping_add u64_max (next_output_seq s) 1;
     has_unseen_activity := has_unseen_activity s;
     reserved := Some {| oc_seq := next_output_seq s; oc_bytes := b |};
     receivers := receivers s |}.

(** [push_output], under the lock: ring, unseen flag, broadcast. The result
    says whether an [Activity] event is sent. *)
Definition push_publish (s : SessionInner) : bool * SessionInner :=
  match reserved s with
  | None => (false, s)
  | Some chunk =>
      (negb (has_unseen_activity s),
       {| scrollback := push chunk (cap s) (scrollback s); cap := cap s;
          next_output_seq := next_output_seq s; has_unseen_activity := true;
          reserved := None; receivers := (λ q, q ++ [chunk]) <$> receivers s |})
  end.

Definition push_output (b : bytes) (s : SessionInner) : bool * SessionInner :=
  push_publish (push_reserve b s).

(** [subscribe] and [mark_seen], under the lock. *)
Definition subscribe (s : SessionInner) : SessionInner :=
  {| scrollback := scrollback s; cap := cap s; next_output_seq := next_output_seq s;
     has_unseen_activity := false; reserved := reserved s; receivers := receivers s ++ [[]] |}.

Definition through_seq (s : SessionInner) : Z := Z.max 0 (next_output_seq s - 1).

Definition snapshot_and_subscribe (s : SessionInner) : (bytes * Z) * SessionInner :=
  ((ring_concat (scrollback s), through_seq s), subscribe s).

Definition delta_since_and_subscribe (after_seq : Z) (s : SessionInner)
    : option (list OutputChunk * Z) * SessionInner :=
  if through_seq s <? after_seq then (None, s)
  else match since after_seq (scrollback s) with
       | None => (None, s)
       | Some cs => (Some (cs, through_seq s), subscribe s)
       end.

(** A receiver that fell more than the channel's capacity behind has lost chunks, and
    its next receive says so; the forwarder then takes a fresh snapshot and a fresh
    receiver ([resync_after_lag]). *)
Definition BROADCAST_CAPACITY : nat := 256.

Definition mark_seen (s : SessionInner) : SessionInner :=
  {| scrollback := scrollback s; cap := cap s; next_output_seq := next_output_seq s;
     has_unseen_activity := false; reserved := reserved s; receivers := receivers s |}.

Definition with_receivers (s : SessionInner) (rs : list (list OutputChunk)) : SessionInner :=
  {| scrollback := scrollback s; cap := cap s; next_output_seq := next_output_seq s;
     has_unseen_activity := has_unseen_activity s; reserved := reserved s; receivers := rs |}.

Definition resync_after_lag (i : nat) (s : SessionInner) : (bytes * Z) * SessionInner :=
  ((ring_concat (scrollback s), through_seq s), mark_seen (with_receivers s (<[i := []]> (receivers s)))).

End Session.

(** ** Frames *)
Module Stream.

Definition SNAPSHOT_CHUNK_BYTES : Z := 256 * 1024.
Definition COALESCE_BYTES : Z := 32 * 1024.

(** [slice::chunks]. *)
Fixpoint slice_chunks (fuel : nat) (n : Z) (b : bytes) : list bytes :=
  match fuel, b with
  | O, _ | _, [] => []
  | S fuel', _ => take (Z.to_nat n) b :: slice_chunks fuel' n (drop (Z.to_nat n) b)
  end.

(** [attach] of a terminal: reset, size, snapshot in pieces, checkpoint. *)
Definition attach_frames (id generation cols rows : Z) (snap : bytes) (through : Z) : list Frame :=
  Frame_ScreenReset id generation :: Frame_SessionSize id cols rows ::
  (Frame_Output id <$> slice_chunks (length snap) SNAPSHOT_CHUNK_BYTES snap)
  ++ [Frame_SequencedOutput id through []].

(** The merge loop of [attach_resume]. *)
Fixpoint merge_loop (id : Z) (cs : list OutputChunk) (merged : bytes) (merged_seq : Z) : list Frame :=
  match cs with
  | [] => if decide (merged = []) then [] else [Frame_SequencedOutput id merged_seq merged]
  | c :: cs' =>
      let merged' := merged ++ oc_bytes c in
      if SNAPSHOT_CHUNK_BYTES <=? blen merged'
      then Frame_SequencedOutput id (oc_seq c) merged' :: merge_loop id cs' [] (oc_seq c)
      else merge_loop id cs' merged' (oc_seq c)
  end.

Definition resume_frames (id cols rows after_seq : Z) (cs : list OutputChunk) (through : Z)
    : list Frame :=
  Frame_SessionSize id cols rows :: merge_loop id cs [] after_seq
  ++ [Frame_SequencedOutput id through []].

(** [attach_resume] of a terminal session: another host lifetime, or a boundary
    that is gone, falls back to [attach]. *)
Definition attach_resume (id host_generation cols rows after_seq client_generation : Z)
    (s : Session.SessionInner) : list Frame * Session.SessionInner :=
  let attach :=
    let '((snap, through), s') := Session.snapshot_and_subscribe s in
    (attach_frames id host_generation cols rows snap through, s') in
  if negb (client_generation =? host_generation) then attach
  else match Session.delta_since_and_subscribe after_seq s with
       | (None, _) => attach
       | (Some (cs, through), s') => (resume_frames id cols rows after_seq cs through, s')
       end.

(** One round of the live forwarder: what is queued, merged up to the cap. *)
Fixpoint coalesce (queue : list OutputChunk) (merged : bytes) (last_seq : Z)
    : bytes * Z * list OutputChunk :=
  match queue with
  | more :: queue' =>
      if blen merged <? COALESCE_BYTES
      then coalesce queue' (merged ++ oc_bytes more) (oc_seq more)
      else (merged, last_seq, queue)
  | [] => (merged, last_seq, [])
  end.

Definition forward_once (id : Z) (queue : list OutputChunk) : list Frame * list OutputChunk :=
  match queue with
  | [] => ([], [])
  | c :: queue' =>
      let '(merged, last_seq, rest) := coalesce queue' (oc_bytes c) (oc_seq c) in
      ([Frame_SequencedOutput id last_seq merged], rest)
  end.

(** *** The phone *)

(** What the phone holds for one session: the bytes on its screen since the
    last reset, and what it will ask a resume with. *)
Record PhoneView := {
  screen : bytes;
  last_seen_seq : option Z;
  last_seen_generation : option Z;
}.

Definition phone_new : PhoneView :=
  {| screen := []; last_seen_seq := None; last_seen_generation := None |}.

Definition phone_apply (v : PhoneView) (f : Frame) : PhoneView :=
  match f with
  | Frame_Output _ b =>
      {| screen := screen v ++ b; last_seen_seq := last_seen_seq v;
         last_seen_generation := last_seen_generation v |}
  | Frame_SequencedOutput _ seq b =>
      {| screen := screen v ++ b; last_seen_seq := Some seq;
         last_seen_generation := last_seen_generation v |}
  | Frame_ScreenReset _ generation =>
      {| screen := []; last_seen_seq := last_seen_seq v;
         last_seen_generation := Some generation |}
  | _ => v
  end.

(** [resume_output]: the boundary and generation the phone asks with. *)
Definition resume_output (v : PhoneView) : Z * Z :=
  (default 0 (last_seen_seq v), default 0 (last_seen_generation v)).

End Stream.

(** ** The ring against the whole history

    The history of a session is every chunk it ever published, numbered from
    one. *)
Module RingProofs.
Import Ring.

Definition numbered (hist : list OutputChunk) : Prop :=
  ∀ i c, hist !! i = Some c → oc_seq c = Z.of_nat i + 1.

(** A chunk that lost its first [e] bytes. *)
Definition trimmed (e : nat) (c : OutputChunk) : OutputChunk :=
  {| oc_seq := oc_seq c; oc_bytes := drop e (oc_bytes c) |}.

(** The retained chunks: the history from its [k]-th chunk, whose first [e]
    bytes are gone. *)
Definition retained (hist : list OutputChunk) (k e : nat) : list OutputChunk :=
  match drop k hist with [] => [] | c :: rest => trimmed e c :: rest end.

(** From which sequence number on output is complete. *)
Definition full_from (k e : nat) : Z :=
  match e with
  | O => match k with O => 0 | S _ => Z.of_nat k + 1 end
  | S _ => Z.of_nat k + 2
  end.

(** The ring invariant; [owed]: what is no longer complete did not fit. *)
Record ring_inv (cap : Z) (hist : list OutputChunk) (r : ScrollbackRing) (k e : nat) : Prop := {
  inv_chunks : chunks r = retained hist k e;
  inv_index : (k <= length hist)%nat;
  inv_fresh : k = length hist → e = 0%nat;
  inv_trim : ∀ c, hist !! k = Some c → (e <= length (oc_bytes c))%nat;
  inv_bytes : ring_bytes r = blen (bytes_of (chunks r));
  inv_full : min_full_seq r = full_from k e;
  inv_owed : ∀ j, (Z.of_nat j + 1 < full_from k e)%Z → cap < blen (bytes_of (drop j hist));
}.

Lemma bytes_of_cons c cs : bytes_of (c :: cs) = oc_bytes c ++ bytes_of cs.
Proof. done. Qed.
Lemma bytes_of_app cs ds : bytes_of (cs ++ ds) = bytes_of cs ++ bytes_of ds.
Proof. unfold bytes_of. by rewrite fmap_app, concat_app. Qed.
Lemma blen_app a b : blen (a ++ b) = blen a + blen b.
Proof. unfold blen. rewrite length_app. lia. Qed.
Lemma blen_nonneg b : 0 <= blen b.
Proof. unfold blen. lia. Qed.

Lemma trimmed_0 c : trimmed 0 c = c.
Proof. by destruct c. Qed.

Lemma retained_0 hist k : retained hist k 0 = drop k hist.
Proof. unfold retained. destruct (drop k hist); [done|]. by rewrite trimmed_0. Qed.

Lemma retained_cons hist k e c rest :
  retained hist k e = c :: rest →
  ∃ c0, hist !! k = Some c0 ∧ c = trimmed e c0 ∧ rest = drop (S k) hist.
Proof.
  unfold retained. destruct (drop k hist) as [|c0 rest0] eqn:E; [done|]. intros [= <- <-].
  exists c0. split_and!; [|done|].
  - pose proof (lookup_drop hist k 0) as Hl. rewrite Nat.add_0_r, E in Hl. done.
  - replace (S k) with (k + 1)%nat by lia. rewrite <-drop_drop, E. done.
Qed.

Lemma blen_drop_le hist j k : (j <= k)%nat → blen (bytes_of (drop k hist)) <= blen (bytes_of (drop j hist)).
Proof.
  intros Hjk. replace k with (j + (k - j))%nat by lia. rewrite <-drop_drop.
  rewrite <-(take_drop (k - j) (drop j hist)) at 2. rewrite bytes_of_app, blen_app.
  pose proof (blen_nonneg (bytes_of (take (k - j) (drop j hist)))). lia.
Qed.

Lemma retained_le hist k e : blen (bytes_of (retained hist k e)) <= blen (bytes_of (drop k hist)).
Proof.
  unfold retained. destruct (drop k hist); [done|]. rewrite !bytes_of_cons, !blen_app.
  unfold blen. simpl. rewrite length_drop. lia.
Qed.

(** Eviction keeps the invariant. *)
Lemma evict_inv cap hist cs n m k e :
  numbered hist →
  ring_inv cap hist {| chunks := cs; ring_bytes := n; min_full_seq := m |} k e →
  ∃ k' e', ring_inv cap hist (evict cap cs n m) k' e' ∧
    (ring_bytes (evict cap cs n m) <= cap ∨ ∃ c, chunks (evict cap cs n m) = [c] ∨ cs = []).
Proof.
  intros Hn. revert n m k e. induction cs as [|old rest IH]; intros n m k e Hi; simpl.
  { exists k, e. split; [done|]. right. exists {| oc_seq := 0; oc_bytes := [] |}. auto. }
  destruct (cap <? n) eqn:Ec; simpl; last first.
  { exists k, e. split; [done|]. left. simpl. lia. }
  case_bool_decide as Hr; simpl.
  { exists k, e. split; [done|]. right. exists old. left. by rewrite Hr. }
  pose proof (inv_chunks _ _ _ _ _ Hi) as Hc. simpl in Hc. symmetry in Hc.
  pose proof Hc as Hc0. apply retained_cons in Hc as (c0 & Hk & -> & Hrest).
  pose proof (inv_bytes _ _ _ _ _ Hi) as Hb. simpl in Hb. rewrite bytes_of_cons, blen_app in Hb.
  assert (Hnew : ring_inv cap hist {| chunks := rest; ring_bytes := n - blen (oc_bytes (trimmed e c0));
                   min_full_seq := oc_seq (trimmed e c0) + 1 |} (S k) 0).
  { split; simpl.
    - by rewrite retained_0.
    - apply lookup_lt_Some in Hk. lia.
    - done.
    - lia.
    - simpl in Hb. lia.
    - rewrite (Hn _ _ Hk). lia.
    - intros j Hj. pose proof (retained_le hist k e) as Hle. rewrite Hc0 in Hle.
      rewrite bytes_of_cons, blen_app in Hle.
      pose proof (blen_drop_le hist j k ltac:(lia)). lia. }
  destruct (IH _ _ _ _ Hnew) as (k' & e' & Hi' & Hcase). exists k', e'. split; [done|].
  destruct Hcase as [?|[c [?| ->]]]; [by left|right; eauto|done].
Qed.

Lemma trim_front_inv cap hist r k e c :
  numbered hist → 0 <= cap → ring_inv cap hist r k e →
  ring_bytes r <= cap ∨ chunks r = [c] →
  ∃ e', ring_inv cap hist (trim_front cap r) k e' ∧ ring_bytes (trim_front cap r) <= cap.
Proof.
  intros Hn Hcap Hi Hcase. unfold trim_front. destruct (cap <? ring_bytes r) eqn:Ec; last first.
  { exists e. split; [done|lia]. }
  destruct Hcase as [?|Hc]; [lia|]. rewrite Hc.
  pose proof (inv_chunks _ _ _ _ _ Hi) as Hr. rewrite Hc in Hr. symmetry in Hr.
  apply retained_cons in Hr as (c0 & Hk & -> & Hnil).
  pose proof (inv_bytes _ _ _ _ _ Hi) as Hb. rewrite Hc, bytes_of_cons, app_nil_r in Hb.
  pose proof (inv_trim _ _ _ _ _ Hi _ Hk) as He.
  pose proof (retained_le hist k e) as Hle. rewrite <-(inv_chunks _ _ _ _ _ Hi), Hc in Hle.
  rewrite bytes_of_cons, app_nil_r in Hle.
  set (excess := Z.to_nat (ring_bytes r - cap)). exists (e + excess)%nat.
  unfold blen in Hb. simpl in Hb. rewrite length_drop in Hb.
  split; [|simpl; lia]. split; simpl.
  - unfold retained. rewrite (drop_S _ _ _ Hk), <-Hnil. unfold trimmed. simpl. by rewrite drop_drop.
  - apply (inv_index _ _ _ _ _ Hi).
  - intros ->. apply lookup_lt_Some in Hk. lia.
  - intros c1 Hk1. rewrite Hk in Hk1. injection Hk1 as <-. lia.
  - rewrite bytes_of_cons, app_nil_r. unfold blen. simpl. rewrite !length_drop. lia.
  - rewrite (Hn _ _ Hk). unfold full_from. destruct (e + excess)%nat eqn:E; lia.
  - intros j Hj. assert (Z.of_nat j <= Z.of_nat k).
    { unfold full_from in Hj. destruct (e + excess)%nat; destruct k; lia. }
    pose proof (blen_drop_le hist j k ltac:(lia)). unfold blen in *. simpl in *.
    rewrite length_drop in Hle. lia.
Qed.

Lemma retained_snoc cap hist r k e c :
  ring_inv cap hist r k e → retained (hist ++ [c]) k e = retained hist k e ++ [c].
Proof.
  intros Hi. unfold retained. pose proof (inv_index _ _ _ _ _ Hi) as Hk.
  destruct (decide (k = length hist)) as [Heq|Hne].
  - rewrite (inv_fresh _ _ _ _ _ Hi Heq), Heq.
    rewrite drop_app_length, drop_all. simpl. by rewrite trimmed_0.
  - rewrite drop_app_le by lia. destruct (drop k hist) eqn:E; [|done].
    apply (f_equal length) in E. rewrite length_drop in E. simpl in E. lia.
Qed.

Lemma push_inv cap hist r k e c :
  numbered (hist ++ [c]) → 0 <= cap → ring_inv cap hist r k e →
  ∃ k' e', ring_inv cap (hist ++ [c]) (push c cap r) k' e' ∧ ring_bytes (push c cap r) <= cap.
Proof.
  intros Hn Hcap Hi. unfold push.
  assert (Hi0 : ring_inv cap (hist ++ [c])
    {| chunks := chunks r ++ [c]; ring_bytes := ring_bytes r + blen (oc_bytes c);
       min_full_seq := min_full_seq r |} k e).
  { split; simpl.
    - rewrite (retained_snoc _ _ _ _ _ _ Hi). f_equal. apply (inv_chunks _ _ _ _ _ Hi).
    - rewrite length_app. pose proof (inv_index _ _ _ _ _ Hi). lia.
    - rewrite length_app. simpl. pose proof (inv_index _ _ _ _ _ Hi). lia.
    - intros c1 Hc1. apply lookup_app_Some in Hc1 as [Hc1|[Hl Hc1]].
      + by apply (inv_trim _ _ _ _ _ Hi).
      + rewrite (inv_fresh _ _ _ _ _ Hi); [lia|]. pose proof (inv_index _ _ _ _ _ Hi). lia.
    - rewrite bytes_of_app, blen_app, (inv_bytes _ _ _ _ _ Hi). unfold bytes_of at 3. simpl.
      by rewrite app_nil_r.
    - apply (inv_full _ _ _ _ _ Hi).
    - intros j Hj. pose proof (inv_owed _ _ _ _ _ Hi j Hj) as Ho.
      assert (j <= length hist)%nat.
      { pose proof (inv_index _ _ _ _ _ Hi). pose proof (inv_fresh _ _ _ _ _ Hi).
        unfold full_from in Hj. destruct e, k; lia. }
      rewrite drop_app_le, bytes_of_app, blen_app by done.
      pose proof (blen_nonneg (bytes_of [c])). lia. }
  destruct (evict_inv _ _ _ _ _ _ _ Hn Hi0) as (k' & e' & Hi1 & Hcase).
  assert (∃ c1, ring_bytes (evict cap (chunks r ++ [c]) (ring_bytes r + blen (oc_bytes c))
    (min_full_seq r)) <= cap ∨ chunks (evict cap (chunks r ++ [c])
    (ring_bytes r + blen (oc_bytes c)) (min_full_seq r)) = [c1]) as (c1 & Hc1).
  { destruct Hcase as [?|(c1 & [?|Hnil])]; [exists c; by left|exists c1; by right|].
    by apply app_nil in Hnil as [_ ?]. }
  destruct (trim_front_inv _ _ _ _ _ c1 Hn Hcap Hi1 Hc1) as (e2 & Hi2 & Hle).
  by exists k', e2.
Qed.

(** Filtering by sequence number is dropping by position. *)
Lemma filter_numbered hist k a :
  numbered hist → (k <= a)%nat →
  filter (λ c, Z.of_nat a < oc_seq c) (drop k hist) = drop a hist.
Proof.
  intros Hn Hka. rewrite <-(take_drop (a - k) (drop k hist)), filter_app, drop_drop.
  replace (k + (a - k))%nat with a by lia.
  rewrite list_filter_none, list_filter_all; [done| |].
  - apply Forall_lookup. intros i c Hi. rewrite lookup_drop in Hi. rewrite (Hn _ _ Hi). lia.
  - apply Forall_lookup. intros i c Hi. apply lookup_take_Some in Hi as [Hi Hlt].
    rewrite lookup_drop in Hi. rewrite (Hn _ _ Hi). lia.
Qed.

Lemma since_spec cap hist r k e a :
  numbered hist → ring_inv cap hist r k e →
  match since (Z.of_nat a) r with
  | Some cs => cs = drop a hist
  | None => cap < blen (bytes_of (drop a hist))
  end.
Proof.
  intros Hn Hi. unfold since. rewrite (inv_full _ _ _ _ _ Hi).
  destruct (Z.of_nat a + 1 <? full_from k e) eqn:Ef; [apply (inv_owed _ _ _ _ _ Hi); lia|].
  rewrite (inv_chunks _ _ _ _ _ Hi). unfold full_from in Ef. destruct e.
  - rewrite retained_0. apply filter_numbered; [done|]. apply Z.ltb_ge in Ef.
    destruct k; lia.
  - unfold retained. destruct (drop k hist) as [|c rest] eqn:E.
    + destruct (decide (k = length hist)) as [Heq|].
      * pose proof (inv_fresh _ _ _ _ _ Hi Heq). lia.
      * apply (f_equal length) in E. rewrite length_drop in E. simpl in E.
        pose proof (inv_index _ _ _ _ _ Hi). lia.
    + pose proof (inv_chunks _ _ _ _ _ Hi) as Hc. unfold retained in Hc. rewrite E in Hc.
      assert (hist !! k = Some c) as Hk.
      { pose proof (lookup_drop hist k 0) as Hl. rewrite Nat.add_0_r, E in Hl. done. }
      rewrite filter_cons, decide_False by (simpl; rewrite (Hn _ _ Hk); lia).
      rewrite (drop_S _ _ _ Hk) in E. injection E as <-. apply filter_numbered; [done|lia].
Qed.

(** The retained bytes are a suffix of everything written. *)
Lemma concat_suffix cap hist r k e :
  ring_inv cap hist r k e → ring_concat r `suffix_of` bytes_of hist.
Proof.
  intros Hi. unfold ring_concat. rewrite (inv_chunks _ _ _ _ _ Hi). unfold retained.
  rewrite <-(take_drop k hist) at 2. rewrite bytes_of_app.
  destruct (drop k hist) as [|c rest]; [apply suffix_app_r; exists []; by rewrite app_nil_r|].
  rewrite !bytes_of_cons. simpl. exists (bytes_of (take k hist) ++ take e (oc_bytes c)).
  rewrite <-!(assoc (++)). f_equal. rewrite (assoc (++)). by rewrite take_drop.
Qed.

End RingProofs.

(** ** Readers, viewers and their interleavings *)
Module Viewing.
Import Ring Session RingProofs.

(** One reader thread publishes output in two steps; viewers attach, resume and
    look at any moment. *)
Inductive OutOp :=
| OpReserve (b : bytes)
| OpPublish
| OpAttach
| OpResume (after_seq : nat)
| OpRecv (viewer : nat)       (* a forwarder's receive *)
| OpSeen.                     (* its [mark_seen] *)

(** What a viewer was given when it joined, how much had been published, and what its
    forwarder has received since. A viewer that lagged joined anew. *)
Record Viewer := {
  v_after : option nat;
  v_initial : bytes;
  v_through : Z;
  v_joined : nat;
  v_read : list OutputChunk;
}.

Definition reads (v : Viewer) (c : OutputChunk) : Viewer :=
  {| v_after := v_after v; v_initial := v_initial v; v_through := v_through v; v_joined := v_joined v;
     v_read := v_read v ++ [c] |}.

(** The session with everything published so far and the viewers, in the order
    of their receivers. *)
Record OutSys := { sys_session : SessionInner; sys_hist : list OutputChunk; sys_viewers : list Viewer }.

Definition sys_new (cap : Z) : OutSys :=
  {| sys_session := session_new cap; sys_hist := []; sys_viewers := [] |}.

Definition out_step (op : OutOp) (y : OutSys) : OutSys :=
  let s := sys_session y in
  let join (after : option nat) (initial : bytes) (through : Z) (s' : SessionInner) :=
    {| sys_session := s'; sys_hist := sys_hist y;
       sys_viewers := sys_viewers y ++
         [{| v_after := after; v_initial := initial; v_through := through;
             v_joined := length (sys_hist y); v_read := [] |}] |} in
  match op with
  | OpReserve b =>
      match reserved s with
      | Some _ => y
      | None => {| sys_session := push_reserve b s; sys_hist := sys_hist y;
                   sys_viewers := sys_viewers y |}
      end
  | OpPublish =>
      {| sys_session := (push_publish s).2;
         sys_hist := sys_hist y ++ option_list (reserved s);
         sys_viewers := sys_viewers y |}
  | OpAttach =>
      let '((snap, through), s') := snapshot_and_subscribe s in join None snap through s'
  | OpResume a =>
      match delta_since_and_subscribe (Z.of_nat a) s with
      | (Some (cs, through), s') => join (Some a) (bytes_of cs) through s'
      | (None, _) => y
      end
  | OpRecv i =>
      match sys_viewers y !! i, receivers s !! i with
      | Some v, Some queue =>
          if BROADCAST_CAPACITY <? length queue then
            let '((snap, through), s') := resync_after_lag i s in
            {| sys_session := s'; sys_hist := sys_hist y;
               sys_viewers := <[i := {| v_after := None; v_initial := snap; v_through := through;
                                        v_joined := length (sys_hist y); v_read := [] |}]> (sys_viewers y) |}
          else match queue with
               | [] => y
               | c :: rest =>
                   {| sys_session := with_receivers s (<[i := rest]> (receivers s)); sys_hist := sys_hist y;
                      sys_viewers := <[i := reads v c]> (sys_viewers y) |}
               end
      | _, _ => y
      end
  | OpSeen => {| sys_session := mark_seen s; sys_hist := sys_hist y; sys_viewers := sys_viewers y |}
  end%nat.

Definition out_run (ops : list OutOp) (y : OutSys) : OutSys := foldl (flip out_step) y ops.

(** A snapshot of [hist] kept under a cap: its end, and all of it that fits the cap
    chunk by chunk. *)
Definition kept (cap : Z) (hist : list OutputChunk) (snap : bytes) : Prop :=
  snap `suffix_of` bytes_of hist ∧ blen snap <= cap ∧
  ∀ j, blen (bytes_of (drop j hist)) <= cap → bytes_of (drop j hist) `suffix_of` snap.

(** A viewer has everything it should: what was published after it joined it received
    or is in its receiver; what it got on joining is the retained end of the output
    (an attach) or exactly the output after its boundary (a resume). *)
Definition viewer_ok (cap : Z) (hist : list OutputChunk) (v : Viewer) (rx : list OutputChunk) : Prop :=
  (v_joined v <= length hist)%nat ∧ v_read v ++ rx = drop (v_joined v) hist ∧
  Z.of_nat (v_joined v) <= v_through v <= Z.of_nat (v_joined v) + 1 ∧
  match v_after v with
  | None => kept cap (take (v_joined v) hist) (v_initial v)
  | Some a => v_initial v = bytes_of (drop a (take (v_joined v) hist)) ∧ Z.of_nat a <= v_through v
  end.

Record sys_inv (y : OutSys) : Prop := {
  si_numbered : numbered (sys_hist y);
  si_reserved : ∀ c, reserved (sys_session y) = Some c → oc_seq c = Z.of_nat (length (sys_hist y)) + 1;
  si_next : next_output_seq (sys_session y)
            = Z.of_nat (length (sys_hist y)) + 1 + Z.of_nat (length (option_list (reserved (sys_session y))));
  si_ring : ∃ k e, ring_inv (cap (sys_session y)) (sys_hist y) (scrollback (sys_session y)) k e;
  si_fits : ring_bytes (scrollback (sys_session y)) <= cap (sys_session y);
  si_cap : 0 <= cap (sys_session y);
  si_viewers : Forall2 (viewer_ok (cap (sys_session y)) (sys_hist y)) (sys_viewers y) (receivers (sys_session y));
}.

(** The number of chunks numbered so far. *)
Definition numbers_used (y : OutSys) : Z := next_output_seq (sys_session y).

Lemma numbered_snoc hist c :
  numbered hist → oc_seq c = Z.of_nat (length hist) + 1 → numbered (hist ++ [c]).
Proof.
  intros Hn Hc i d Hi. apply lookup_app_Some in Hi as [Hi|[Hl Hi]]; [by apply Hn|].
  apply list_lookup_singleton_Some in Hi as [Hi <-]. rewrite Hc. lia.
Qed.

Lemma numbered_nil : numbered [].
Proof. intros i c Hi. done. Qed.

Lemma viewer_ok_snoc cap hist c v rx : viewer_ok cap hist v rx → viewer_ok cap (hist ++ [c]) v (rx ++ [c]).
Proof.
  intros (Hj & Hrx & Ht & Hv). split; [|split; [|split; [exact Ht|]]].
  - rewrite length_app. lia.
  - by rewrite drop_app_le, app_assoc, Hrx.
  - by rewrite take_app_le.
Qed.

Lemma ring_kept cap hist r k e :
  ring_inv cap hist r k e → ring_bytes r <= cap → kept cap hist (ring_concat r).
Proof.
  intros Hi Hfit. split; [by eapply concat_suffix|]. split.
  { unfold ring_concat. by rewrite <- (inv_bytes _ _ _ _ _ Hi). }
  intros j Hj. destruct (Z.lt_ge_cases (Z.of_nat j + 1) (full_from k e)) as [Hlt|Hge].
  { pose proof (inv_owed _ _ _ _ _ Hi j Hlt). lia. }
  assert (Hsub : ∀ i (l : list OutputChunk), bytes_of (drop i l) `suffix_of` bytes_of l).
  { intros i l. exists (bytes_of (take i l)). by rewrite <- bytes_of_app, take_drop. }
  unfold ring_concat. rewrite (inv_chunks _ _ _ _ _ Hi). unfold full_from in Hge. destruct e as [|e].
  - rewrite retained_0. replace j with (k + (j - k))%nat by (destruct k; lia). rewrite <- drop_drop. apply Hsub.
  - unfold retained. replace j with (k + S (j - k - 1))%nat by lia. rewrite <- drop_drop.
    destruct (drop k hist) as [|c rest]; [done|]. rewrite bytes_of_cons. simpl drop.
    apply suffix_app_r, Hsub.
Qed.

Lemma viewer_ok_join y :
  sys_inv y → viewer_ok (cap (sys_session y)) (sys_hist y)
    {| v_after := None; v_initial := ring_concat (scrollback (sys_session y));
       v_through := through_seq (sys_session y); v_joined := length (sys_hist y); v_read := [] |} [].
Proof.
  intros Hy. destruct (si_ring _ Hy) as (k & e & Hi). split_and!; simpl; [done|by rewrite drop_all| | |].
  1,2: unfold through_seq; pose proof (si_next _ Hy); destruct (reserved _); simpl in *; lia.
  rewrite firstn_all. eapply ring_kept; [done|apply Hy].
Qed.

Lemma sys_inv_new c : 0 <= c → sys_inv (sys_new c).
Proof.
  intros Hc. split; simpl; try done.
  exists 0%nat, 0%nat. split; simpl; try done. lia.
Qed.

Lemma out_step_inv op y : numbers_used y < u64_max → sys_inv y → sys_inv (out_step op y).
Proof.
  intros Hlt Hy. pose proof (si_next _ Hy) as Hnext. destruct op as [b| | |a|i|]; simpl.
  - destruct (reserved (sys_session y)) eqn:Er; [done|]. unfold numbers_used in Hlt.
    simpl in Hnext. split; simpl; try apply Hy.
    + intros c [= <-]. simpl. lia.
    + unfold wrapping_add. rewrite Z.mod_small by (unfold u64_max in *; lia). lia.
  - unfold push_publish. destruct (reserved (sys_session y)) as [c|] eqn:Er; simpl; last first.
    { rewrite app_nil_r. destruct y; exact Hy. }
    pose proof (si_reserved _ Hy c Er) as Hc.
    pose proof (numbered_snoc _ _ (si_numbered _ Hy) Hc) as Hn.
    destruct (si_ring _ Hy) as (k & e & Hi).
    destruct (push_inv _ _ _ _ _ _ Hn (si_cap _ Hy) Hi) as (k' & e' & Hi' & Hfits).
    split; simpl; [done|done| |eauto|done|apply Hy|].
    + rewrite length_app, Hnext. simpl. lia.
    + apply Forall2_fmap_r. eapply Forall2_impl; [apply Hy|]. intros v rx Hv. by apply viewer_ok_snoc.
  - split; simpl; try apply Hy. apply Forall2_app; [apply Hy|]. constructor; [|constructor].
    by apply viewer_ok_join.
  - unfold delta_since_and_subscribe. destruct (through_seq _ <? _) eqn:Et; [done|].
    destruct (si_ring _ Hy) as (k & e & Hi).
    pose proof (since_spec _ _ _ _ _ a (si_numbered _ Hy) Hi) as Hs.
    destruct (since _ _) as [cs|]; [|done]. rewrite Hs.
    split; simpl; try apply Hy. apply Forall2_app; [apply Hy|]. constructor; [|constructor].
    destruct (viewer_ok_join y Hy) as (Hj & Hrx & Ht & _). split; [exact Hj|]. split; [exact Hrx|].
    split; [exact Ht|]. simpl. split; [by rewrite firstn_all|lia].
  - destruct (sys_viewers y !! i) as [v|] eqn:Hv; [|done].
    destruct (receivers (sys_session y) !! i) as [queue|] eqn:Hq; [|done].
    pose proof (Forall2_lookup_lr _ _ _ _ _ _ (si_viewers _ Hy) Hv Hq) as Hok.
    destruct (_ <? _)%nat.
    + split; simpl; try apply Hy. apply Forall2_insert; [apply Hy|by apply viewer_ok_join].
    + destruct queue as [|c rest]; [done|]. split; simpl; try apply Hy. apply Forall2_insert; [apply Hy|].
      destruct Hok as (? & Hrx & ?). split; [done|]. split; [|done]. simpl. by rewrite <- app_assoc.
  - split; simpl; apply Hy.
Qed.

Lemma out_step_numbers op y :
  numbers_used y < u64_max → sys_inv y → numbers_used (out_step op y) <= numbers_used y + 1.
Proof.
  intros Hlt Hy. unfold numbers_used in *. pose proof (si_next _ Hy). destruct op; simpl.
  - destruct (reserved _); simpl; [lia|]. unfold wrapping_add.
    rewrite Z.mod_small by (unfold u64_max in *; lia). lia.
  - unfold push_publish. destruct (reserved _); simpl; lia.
  - lia.
  - unfold delta_since_and_subscribe. destruct (_ <? _); [lia|]. destruct (since _ _); simpl; lia.
  - destruct (sys_viewers y !! viewer), (receivers (sys_session y) !! viewer) as [queue|]; try lia.
    destruct (_ <? _)%nat; simpl; [lia|]. destruct queue; simpl; lia.
  - lia.
Qed.

Lemma out_run_inv ops y :
  numbers_used y + Z.of_nat (length ops) <= u64_max → sys_inv y →
  sys_inv (out_run ops y) ∧ numbers_used (out_run ops y) <= numbers_used y + Z.of_nat (length ops).
Proof.
  unfold out_run. revert y. induction ops as [|op ops IH]; intros y Hlt Hy; simpl in *; [split; [done|lia]|].
  pose proof (out_step_numbers op y ltac:(lia) Hy).
  destruct (IH (out_step op y)) as [? ?]; [lia|apply out_step_inv; [lia|done]|].
  split; [done|]. simpl in *. lia.
Qed.

Lemma reachable_inv ops c :
  0 <= c → Z.of_nat (length ops) < u64_max →
  sys_inv (out_run ops (sys_new c)) ∧
  numbers_used (out_run ops (sys_new c)) <= 1 + Z.of_nat (length ops).
Proof. intros Hc Hl. apply out_run_inv; [|by apply sys_inv_new]. unfold numbers_used. simpl. lia. Qed.

Lemma out_run_cap ops c : cap (sys_session (out_run ops (sys_new c))) = c.
Proof.
  unfold out_run. induction ops as [|op ops IH] using rev_ind; [done|]. rewrite foldl_app. simpl.
  set (y := foldl (flip out_step) (sys_new c) ops) in *. unfold flip. transitivity (cap (sys_session y)); [|exact IH]. destruct op; simpl.
  - by destruct (reserved _).
  - unfold push_publish. by destruct (reserved _).
  - done.
  - unfold delta_since_and_subscribe. destruct (_ <? _); [done|]. by destruct (since _ _).
  - destruct (sys_viewers y !! viewer), (receivers (sys_session y) !! viewer) as [queue|]; try done.
    destruct (_ <? _)%nat; [done|]. by destruct queue.
  - done.
Qed.


(** A resume is answered with exactly the chunks after its
    boundary, whenever the output it misses fits the scrollback cap and the
    boundary is not in the future; otherwise it is refused, and the caller
    falls back to a full attach. The snapshot of an attach is at most the cap. *)
Theorem delta_served_exactly ops c a :
  0 <= c → Z.of_nat (length ops) < u64_max →
  let y := out_run ops (sys_new c) in
  match (delta_since_and_subscribe (Z.of_nat a) (sys_session y)).1 with
  | Some (cs, through) => cs = drop a (sys_hist y) ∧ Z.of_nat a <= through
  | None => (length (sys_hist y) < a)%nat ∨ cap (sys_session y) < blen (bytes_of (drop a (sys_hist y)))
  end ∧ blen (snapshot_and_subscribe (sys_session y)).1.1 <= cap (sys_session y).
Proof.
  intros Hc Hl y. destruct (reachable_inv ops c Hc Hl) as [Hy _]. fold y in Hy.
  destruct (si_ring _ Hy) as (k & e & Hi). split.
  - unfold delta_since_and_subscribe. pose proof (si_next _ Hy) as Hn.
    destruct (through_seq _ <? _) eqn:Et; simpl.
    { left. unfold through_seq in Et. lia. }
    pose proof (since_spec _ _ _ _ _ a (si_numbered _ Hy) Hi) as Hs.
    destruct (since _ _); simpl; [split; [done|lia]|by right].
  - simpl. unfold ring_concat. rewrite <-(inv_bytes _ _ _ _ _ Hi). apply Hy.
Qed.

(** Resuming at the end of the output is an empty delta. *)
Lemma delta_at_end y n :
  sys_inv y → through_seq (sys_session y) = Z.of_nat n → (length (sys_hist y) <= n)%nat →
  (delta_since_and_subscribe (Z.of_nat n) (sys_session y)).1 = Some ([], Z.of_nat n).
Proof.
  intros Hy Ht Hn. destruct (si_ring _ Hy) as (k & e & Hi).
  pose proof (since_spec _ _ _ _ _ n (si_numbered _ Hy) Hi) as Hs. pose proof (si_cap _ Hy).
  unfold delta_since_and_subscribe. rewrite Ht, Z.ltb_irrefl. rewrite drop_ge in Hs by done.
  destruct (since _ _) as [cs|]; [by rewrite Hs|]. unfold blen in Hs. simpl in Hs. lia.
Qed.

(** The checkpoint of an attach can run ahead of its snapshot:
    between the moment the reader takes a sequence number and the moment it
    publishes, an attach is told the boundary of a chunk its snapshot lacks. A
    phone that loses its link there and resumes from that boundary is never
    sent the chunk. *)
Theorem checkpoint_can_outrun_snapshot ops c b :
  0 <= c → Z.of_nat (length ops) + 3 < u64_max →
  reserved (sys_session (out_run ops (sys_new c))) = None →
  let y := out_run (ops ++ [OpReserve b; OpAttach; OpPublish]) (sys_new c) in
  ∃ v n, last (sys_viewers y) = Some v ∧ v_through v = Z.of_nat n ∧
    (length (sys_hist y) = n ∧ last (sys_hist y) = Some {| oc_seq := Z.of_nat n; oc_bytes := b |}) ∧
    v_initial v `suffix_of` bytes_of (take (n - 1) (sys_hist y)) ∧
    (delta_since_and_subscribe (v_through v) (sys_session y)).1
      = Some ([], Z.of_nat n).
Proof.
  intros Hc Hl Hr y. destruct (reachable_inv ops c Hc ltac:(lia)) as [H0 Hnum].
  destruct (reachable_inv (ops ++ [OpReserve b; OpAttach; OpPublish]) c Hc) as [Hy _].
  { rewrite length_app. simpl. lia. }
  fold y in Hy. subst y. unfold out_run in *. rewrite foldl_app in *.
  set (y0 := foldl (flip out_step) (sys_new c) ops) in *. unfold numbers_used in Hnum.
  pose proof (si_next _ H0) as Hn0. rewrite Hr in Hn0. simpl in Hn0.
  assert (Hw : wrapping_add u64_max (next_output_seq (sys_session y0)) 1
               = next_output_seq (sys_session y0) + 1).
  { unfold wrapping_add. rewrite Z.mod_small; lia. }
  set (n := S (length (sys_hist y0))). destruct (si_ring _ H0) as (k0 & e0 & Hi0).
  match type of Hy with sys_inv ?z => set (y := z) in *; pose proof (delta_at_end y n Hy) as Hd end.
  assert (Hh : sys_hist y = sys_hist y0 ++ [{| oc_seq := Z.of_nat n; oc_bytes := b |}]).
  { subst y. cbn [foldl flip out_step snapshot_and_subscribe]. rewrite Hr. simpl.
    do 3 f_equal. lia. }
  assert (Ht : through_seq (sys_session y) = Z.of_nat n).
  { subst y. cbn [foldl flip out_step snapshot_and_subscribe]. rewrite Hr. simpl.
    unfold through_seq. simpl. rewrite Hw. lia. }
  assert (Hv : sys_viewers y = sys_viewers y0 ++ [{| v_after := None;
    v_initial := ring_concat (scrollback (sys_session y0)); v_through := Z.of_nat n;
    v_joined := length (sys_hist y0); v_read := [] |}]).
  { subst y. cbn [foldl flip out_step snapshot_and_subscribe]. rewrite Hr. simpl.
    do 3 f_equal. unfold through_seq. simpl. rewrite Hw. lia. }
  rewrite Hv, Hh. eexists _, n. rewrite last_snoc. split; [reflexivity|]. simpl.
  rewrite last_snoc. split_and!; [done|by rewrite length_app; simpl; lia|done| |].
  - rewrite take_app_le by lia. rewrite firstn_all2 by lia. by eapply concat_suffix.
  - apply Hd; [done|]. rewrite Hh, length_app. simpl. lia.
Qed.

End Viewing.

(** ** What the phone shows *)
Module Screen.
Import Ring Session RingProofs Stream.

(** A phone's position in the output: its resume boundary. *)
Definition cursor (v : PhoneView) : Z := default 0 (last_seen_seq v).
Definition render (v : PhoneView) (fs : list Frame) : PhoneView := foldl phone_apply v fs.

(** The view moved from position [n] to [m] of the output. *)
Definition advanced (hist : list OutputChunk) (n m : nat) (v v' : PhoneView) : Prop :=
  (n <= m)%nat ∧ (m <= length hist)%nat ∧ cursor v' = Z.of_nat m ∧
  screen v' = screen v ++ bytes_of (drop n (take m hist)) ∧
  last_seen_generation v' = last_seen_generation v.

(** The merge loop, stopped after any number of frames. [ms] are the chunks
    already merged, the loop stands at [base]. *)
Lemma merge_loop_prefix id cs : ∀ ms base v p,
  (∀ i c, (ms ++ cs) !! i = Some c → oc_seq c = base + Z.of_nat i + 1) →
  ∃ j, (j <= length (ms ++ cs))%nat ∧
    render v (take p (merge_loop id cs (bytes_of ms) (base + Z.of_nat (length ms)))) =
      {| screen := screen v ++ bytes_of (take j (ms ++ cs));
         last_seen_seq := match j with O => last_seen_seq v | S _ => Some (base + Z.of_nat j) end;
         last_seen_generation := last_seen_generation v |} ∧
    (length (merge_loop id cs (bytes_of ms) (base + Z.of_nat (length ms))) <= p →
     bytes_of (take j (ms ++ cs)) = bytes_of (ms ++ cs))%nat.
Proof.
  assert (Hv : ∀ v, v = {| screen := screen v ++ []; last_seen_seq := last_seen_seq v;
                           last_seen_generation := last_seen_generation v |}).
  { intros []. simpl. by rewrite app_nil_r. }
  induction cs as [|c cs IH]; intros ms base v p Hn; simpl merge_loop.
  - rewrite app_nil_r in *. case_decide as Hm.
    + exists 0%nat. rewrite take_nil, Hm. split_and!; [lia|apply Hv|done].
    + destruct p as [|p].
      * exists 0%nat. split_and!; [lia|apply Hv|simpl; lia].
      * exists (length ms). rewrite firstn_all. split_and!; [done| |done]. simpl. rewrite take_nil.
        destruct ms; [done|reflexivity].
  - assert (Hc : oc_seq c = base + Z.of_nat (length ms) + 1).
    { apply Hn. rewrite list_lookup_middle; done. }
    assert (Hm : bytes_of ms ++ oc_bytes c = bytes_of (ms ++ [c])).
    { rewrite bytes_of_app. unfold bytes_of at 3. simpl. by rewrite app_nil_r. }
    rewrite Hm, Hc. destruct (_ <=? _).
    + destruct p as [|p].
      { exists 0%nat. split_and!; [lia|apply Hv|simpl; lia]. }
      set (v1 := phone_apply v (Frame_SequencedOutput id (base + Z.of_nat (length ms) + 1)
                   (bytes_of (ms ++ [c])))).
      destruct (IH [] (base + Z.of_nat (length ms) + 1) v1 p) as (j & Hj & Hr & Hall).
      { intros i d Hi. simpl in Hi. rewrite (Hn (length ms + S i)%nat d); [lia|].
        rewrite lookup_app_r by lia. replace (length ms + S i - length ms)%nat with (S i) by lia. done. }
      simpl app in *. simpl length in *. change (bytes_of []) with (@nil Byte.byte) in *.
      rewrite Z.add_0_r in *.
      exists (length ms + S j)%nat. split_and!.
      * rewrite length_app. simpl. lia.
      * simpl take. change (render v (?f :: ?fs)) with (render v1 fs). rewrite Hr. subst v1. simpl.
        replace (ms ++ c :: cs) with ((ms ++ [c]) ++ cs) by (by rewrite <-(assoc (++))).
        rewrite take_app_ge by (rewrite length_app; simpl; lia).
        replace (length ms + S j - length (ms ++ [c]))%nat with j by (rewrite length_app; simpl; lia).
        f_equal; [by rewrite !bytes_of_app, !(assoc (++))|].
        destruct (length ms + S j)%nat eqn:E; [lia|]. destruct j; simpl; f_equal; lia.
      * intros Hp. simpl in Hp.
        replace (ms ++ c :: cs) with ((ms ++ [c]) ++ cs) by (by rewrite <-(assoc (++))).
        rewrite take_app_ge by (rewrite length_app; simpl; lia).
        replace (length ms + S j - length (ms ++ [c]))%nat with j by (rewrite length_app; simpl; lia).
        rewrite !bytes_of_app. f_equal. apply Hall. lia.
    + replace (base + Z.of_nat (length ms) + 1) with (base + Z.of_nat (length (ms ++ [c])))
        by (rewrite length_app; simpl; lia).
      replace (ms ++ c :: cs) with ((ms ++ [c]) ++ cs) in * by (by rewrite <-(assoc (++))).
      by apply IH.
Qed.

Lemma resume_prefix hist n v id cols rows p :
  numbered hist → (n <= length hist)%nat → cursor v = Z.of_nat n →
  let frames := resume_frames id cols rows (Z.of_nat n) (drop n hist) (Z.of_nat (length hist)) in
  ∃ m, advanced hist n m v (render v (take p frames)) ∧
       ((length frames <= p)%nat → m = length hist).
Proof.
  intros Hn Hle Hcur frames. unfold frames, resume_frames.
  destruct p as [|p].
  { exists n. simpl. split; [|lia]. split_and!; try done. rewrite drop_ge by (rewrite length_take; lia).
    by rewrite app_nil_r. }
  simpl take. change (render v (Frame_SessionSize _ _ _ :: ?fs)) with (render v fs).
  rewrite take_app. unfold render. rewrite foldl_app.
  destruct (merge_loop_prefix id (drop n hist) [] (Z.of_nat n) v p) as (j & Hj & Hr & Hall).
  { intros i c Hi. simpl in Hi. rewrite lookup_drop in Hi. rewrite (Hn _ _ Hi). lia. }
  simpl in Hj, Hr, Hall. rewrite Z.add_0_r in *. change (bytes_of []) with (@nil Byte.byte) in *.
  rewrite length_drop in Hj. unfold render in Hr. rewrite Hr. set (q := (p - length _)%nat).
  assert (Hbytes : bytes_of (take j (drop n hist)) = bytes_of (drop n (take (n + j) hist))).
  { by rewrite take_drop_commute. }
  destruct q as [|q0] eqn:Eq.
  - exists (n + j)%nat. split; [|simpl; rewrite length_app; simpl; intros; lia].
    split_and!; [lia|lia| |simpl; by rewrite Hbytes|done].
    unfold cursor. destruct j; [rewrite Nat.add_0_r; exact Hcur|].
    cbn. rewrite Nat2Z.inj_add. done.
  - exists (length hist). split; [|done].
    split_and!; simpl; rewrite ?take_nil; simpl; [done|done|done| |done].
    rewrite app_nil_r, firstn_all. f_equal. apply Hall. lia.
Qed.

(** A warm resume is exact however much of it arrives: if the phone
    shows the output up to its boundary and the link dies after any number of
    the resume's frames, what was added to the screen is precisely the output
    from the old boundary to the new one; if all frames arrive, it is
    everything. *)
Theorem interrupted_resume_is_exact hist n v id cols rows p :
  numbered hist → (n <= length hist)%nat → cursor v = Z.of_nat n →
  let frames := resume_frames id cols rows (Z.of_nat n) (drop n hist) (Z.of_nat (length hist)) in
  ∃ m, advanced hist n m v (render v (take p frames)) ∧
       ((length frames <= p)%nat → m = length hist).
Proof. apply resume_prefix. Qed.

Lemma slice_chunks_spec n fuel b :
  0 < n → (length b <= fuel)%nat →
  concat (slice_chunks fuel n b) = b ∧ Forall (λ p, blen p <= n) (slice_chunks fuel n b).
Proof.
  intros Hn. revert b. induction fuel as [|fuel IH]; intros b Hb.
  { destruct b; simpl in *; [split; [done|constructor]|lia]. }
  destruct b as [|x b]; [split; [done|constructor]|].
  cbn [slice_chunks]. set (b0 := x :: b) in *.
  destruct (IH (drop (Z.to_nat n) b0)) as [IH1 IH2].
  { rewrite length_drop. subst b0. simpl in *. lia. }
  split.
  - simpl. by rewrite IH1, take_drop.
  - constructor; [|done]. unfold blen. rewrite length_take. lia.
Qed.

Lemma render_outputs id ps v :
  render v (Frame_Output id <$> ps) =
    {| screen := screen v ++ concat ps; last_seen_seq := last_seen_seq v;
       last_seen_generation := last_seen_generation v |}.
Proof.
  revert v. induction ps as [|p ps IH]; intros v; simpl.
  - rewrite app_nil_r. by destruct v.
  - change (render v (?f :: ?fs)) with (render (phone_apply v f) fs).
    rewrite IH. simpl. by rewrite (assoc (++)).
Qed.

(** The frames of an attach but for the final checkpoint. *)
Lemma attach_without_checkpoint id gen cols rows snap through v :
  render v (take (length (attach_frames id gen cols rows snap through) - 1)
              (attach_frames id gen cols rows snap through)) =
    {| screen := snap; last_seen_seq := last_seen_seq v; last_seen_generation := Some gen |}.
Proof.
  unfold attach_frames. set (pieces := Frame_Output id <$> _).
  replace (length (_ :: _ :: pieces ++ _) - 1)%nat with (S (S (length pieces)))
    by (simpl; rewrite length_app; simpl; lia).
  cbn [take]. rewrite take_app_length. change (render v (?f :: ?g :: ?fs))
    with (render (phone_apply (phone_apply v f) g) fs).
  unfold pieces. rewrite render_outputs.
  rewrite (proj1 (slice_chunks_spec SNAPSHOT_CHUNK_BYTES (length snap) snap
             ltac:(unfold SNAPSHOT_CHUNK_BYTES; lia) (le_n _))).
  done.
Qed.

(** An attach repaints: whatever the phone showed, the frames
    leave exactly the snapshot on its screen and its boundary at the checkpoint,
    in pieces that each fit a wire frame. *)
Theorem attach_repaints id gen cols rows snap through v :
  render v (attach_frames id gen cols rows snap through) =
    {| screen := snap; last_seen_seq := Some through; last_seen_generation := Some gen |} ∧
  Forall (λ f, match f with
               | Frame_Output _ b | Frame_SequencedOutput _ _ b => blen b <= SNAPSHOT_CHUNK_BYTES
               | _ => True
               end) (attach_frames id gen cols rows snap through).
Proof.
  assert (H0 : 0 < SNAPSHOT_CHUNK_BYTES) by (unfold SNAPSHOT_CHUNK_BYTES; lia).
  destruct (slice_chunks_spec _ (length snap) snap H0 (le_n _)) as [Hc Hf].
  split; unfold attach_frames.
  - change (render v (?f :: ?g :: ?fs)) with (render (phone_apply (phone_apply v f) g) fs).
    unfold render. rewrite foldl_app. fold (render (phone_apply (phone_apply v
      (Frame_ScreenReset id gen)) (Frame_SessionSize id cols rows)) (Frame_Output id <$>
      slice_chunks (length snap) SNAPSHOT_CHUNK_BYTES snap)).
    rewrite render_outputs, Hc. simpl. by rewrite app_nil_r.
  - repeat constructor. apply Forall_app. split.
    + apply Forall_fmap. eapply Forall_impl; [exact Hf|]. done.
    + constructor; [|done]. done.
Qed.

(** ** The live forwarder *)

Lemma coalesce_spec queue merged last m l rest :
  coalesce queue merged last = (m, l, rest) →
  ∃ taken, queue = taken ++ rest ∧ m = merged ++ bytes_of taken ∧
    l = default last (oc_seq <$> list.last taken).
Proof.
  revert merged last. induction queue as [|c queue IH]; intros merged last; simpl.
  - intros [= <- <- <-]. exists []. split_and!; [done|by rewrite app_nil_r|done].
  - destruct (_ <? _); last first.
    { intros [= <- <- <-]. exists []. split_and!; [done|by rewrite app_nil_r|done]. }
    intros (taken & -> & -> & ->)%IH. exists (c :: taken). split_and!; [done| |].
    + by rewrite bytes_of_cons, (assoc (++)).
    + rewrite last_cons. by destruct (list.last taken).
Qed.

(** The forwarder's rounds until its receiver is empty. *)
Fixpoint forward_all (fuel : nat) (id : Z) (queue : list OutputChunk) : list Frame :=
  match fuel, queue with
  | S fuel', _ :: _ =>
      let '(fs, rest) := forward_once id queue in fs ++ forward_all fuel' id rest
  | _, _ => []
  end.

(** The live forwarder drains its receiver: within as many
    rounds as there are chunks queued, the phone has been sent every byte of
    them in order, and its boundary is the last chunk's number; coalescing
    never holds anything back. *)
Theorem forwarder_drains fuel id queue v :
  (length queue <= fuel)%nat →
  render v (forward_all fuel id queue) =
    {| screen := screen v ++ bytes_of queue;
       last_seen_seq := from_option (λ c, Some (oc_seq c)) (last_seen_seq v) (list.last queue);
       last_seen_generation := last_seen_generation v |}.
Proof.
  revert queue v. induction fuel as [|fuel IH]; intros queue v Hf.
  { destruct queue; simpl in *; [|lia]. rewrite app_nil_r. by destruct v. }
  destruct queue as [|c queue]; simpl.
  { rewrite app_nil_r. by destruct v. }
  destruct (coalesce queue _ _) as [[m l] rest] eqn:E.
  apply coalesce_spec in E as (taken & -> & -> & ->). simpl.
  change (render v (?f :: ?fs)) with (render (phone_apply v f) fs).
  rewrite IH by (simpl in Hf; rewrite length_app in Hf; lia). simpl.
  rewrite bytes_of_cons, bytes_of_app, !(assoc (++)). f_equal.
  rewrite last_cons, last_app. by destruct (list.last rest), (list.last taken).
Qed.

(** ** An attach cut short *)

(** What fits the cap is retained whole. *)
Lemma fits_retained cap hist r k e :
  ring_inv cap hist r k e → blen (bytes_of hist) <= cap → chunks r = hist ∧ min_full_seq r = 0.
Proof.
  intros Hi Hfit. pose proof (inv_owed _ _ _ _ _ Hi 0%nat) as Ho. rewrite drop_0 in Ho.
  rewrite (inv_chunks _ _ _ _ _ Hi), (inv_full _ _ _ _ _ Hi).
  destruct e, k; simpl in *; try lia. by rewrite retained_0.
Qed.

(** An attach cut off before its checkpoint leaves the phone with a
    painted screen and its old boundary. The warm resume that follows is served
    from that boundary on top of the paint: a phone that never had a boundary
    shows the whole output twice. *)
Theorem interrupted_attach_repeats_output y id gen cols rows :
  Viewing.sys_inv y → reserved (Viewing.sys_session y) = None →
  blen (bytes_of (Viewing.sys_hist y)) <= cap (Viewing.sys_session y) →
  let s := Viewing.sys_session y in
  let '((snap, through), s1) := snapshot_and_subscribe s in
  let frames := attach_frames id gen cols rows snap through in
  let v1 := render phone_new (take (length frames - 1) frames) in
  let '(after_seq, generation) := resume_output v1 in
  let v2 := render v1 (attach_resume id gen cols rows after_seq generation s1).1 in
  screen v2 = bytes_of (Viewing.sys_hist y) ++ bytes_of (Viewing.sys_hist y).
Proof.
  intros Hy Hr Hfit s. destruct (Viewing.si_ring _ Hy) as (k & e & Hi).
  destruct (fits_retained _ _ _ _ _ Hi Hfit) as [Hch Hmin].
  pose proof (Viewing.si_next _ Hy) as Hn. rewrite Hr in Hn. simpl in Hn.
  cbn [snapshot_and_subscribe]. unfold s, ring_concat. rewrite Hch, attach_without_checkpoint.
  assert (Ht : through_seq (Viewing.sys_session y) = Z.of_nat (length (Viewing.sys_hist y)))
    by (unfold through_seq; lia).
  cbn [resume_output last_seen_seq last_seen_generation phone_new default from_option].
  unfold attach_resume. rewrite Z.eqb_refl. simpl negb. cbv iota.
  unfold delta_since_and_subscribe, since.
  change (through_seq (subscribe ?x)) with (through_seq x).
  change (scrollback (subscribe ?x)) with (scrollback x). rewrite Ht, Hmin, Hch.
  rewrite (proj2 (Z.ltb_ge _ _)) by lia. rewrite (proj2 (Z.ltb_ge _ _)) by lia.
  rewrite list_filter_all.
  2: { apply Forall_lookup. intros i c Hc. rewrite (Viewing.si_numbered _ Hy _ _ Hc). lia. }
  cbn [fst]. set (v1 := {| screen := _; last_seen_seq := None |}).
  set (frames := resume_frames _ _ _ _ _ _).
  destruct (resume_prefix (Viewing.sys_hist y) 0 v1 id cols rows (length frames)
              (Viewing.si_numbered _ Hy) ltac:(lia) eq_refl) as (m & Hadv & Hm).
  rewrite drop_0 in *. change (Z.of_nat 0) with 0 in *. fold frames in Hadv, Hm.
  rewrite (Hm (le_n _)), firstn_all in Hadv. destruct Hadv as (_ & _ & _ & Hs & _).
  rewrite firstn_all, drop_0 in Hs. exact Hs.
Qed.


End Screen.

(** ** Examples *)
Module OutputExamples.
Import Ring Session RingProofs Viewing Stream Screen.

(** Closed side conditions. *)
Ltac closed := solve [done | unfold u64_max; simpl; lia | reflexivity].

Definition ex_ops : list OutOp :=
  [OpReserve [Byte.x61]; OpPublish; OpAttach; OpReserve [Byte.x62]; OpPublish; OpResume 1;
   OpReserve [Byte.x63; Byte.x64]; OpPublish; OpRecv 0; OpSeen].
Definition ex_sys : OutSys := out_run ex_ops (sys_new 3).


(** The cap holds the last two chunks: the resume from 1 is served, the one
    from 0 is not. *)
Lemma delta_served_exactly_witness :
  ((delta_since_and_subscribe 1 (sys_session ex_sys)).1
   = Some (drop 1 (sys_hist ex_sys), 3)) ∧
  ((length (sys_hist ex_sys) < 0)%nat ∨
   cap (sys_session ex_sys) < blen (bytes_of (drop 0 (sys_hist ex_sys)))).
Proof.
  split; [reflexivity|].
  destruct (delta_served_exactly ex_ops 3 0) as [H _]; [closed|closed|].
  change (delta_since_and_subscribe (Z.of_nat 0) (sys_session (out_run ex_ops (sys_new 3))))
    with (@None (list OutputChunk * Z), sys_session ex_sys) in H. exact H.
Defined.

Lemma checkpoint_can_outrun_snapshot_witness :
  let y := out_run (ex_ops ++ [OpReserve [Byte.x65]; OpAttach; OpPublish]) (sys_new 3) in
  ∃ v n, last (sys_viewers y) = Some v ∧ v_through v = Z.of_nat n ∧
    (length (sys_hist y) = n ∧
     last (sys_hist y) = Some {| oc_seq := Z.of_nat n; oc_bytes := [Byte.x65] |}) ∧
    v_initial v `suffix_of` bytes_of (take (n - 1) (sys_hist y)) ∧
    (delta_since_and_subscribe (v_through v) (sys_session y)).1 = Some ([], Z.of_nat n).
Proof. apply (checkpoint_can_outrun_snapshot ex_ops 3 [Byte.x65]); closed. Defined.

(** A resume from 1 whose link dies after the first two frames. *)
Definition ex_view : PhoneView :=
  {| screen := [Byte.x61]; last_seen_seq := Some 1; last_seen_generation := Some 7 |}.

Lemma interrupted_resume_is_exact_witness :
  let frames := resume_frames 1 80 24 1 (drop 1 (sys_hist ex_sys)) 3 in
  screen (render ex_view (take 2 frames)) = [Byte.x61; Byte.x62; Byte.x63; Byte.x64] ∧
  ∃ m, advanced (sys_hist ex_sys) 1 m ex_view (render ex_view (take 2 frames)) ∧
       ((length frames <= 2)%nat → m = length (sys_hist ex_sys)).
Proof.
  split; [reflexivity|].
  apply (interrupted_resume_is_exact (sys_hist ex_sys) 1 ex_view 1 80 24 2).
  - intros i c Hi. do 3 (destruct i as [|i]; [by injection Hi as <-|]). done.
  - simpl. lia.
  - done.
Defined.

Lemma forwarder_drains_witness :
  render ex_view (forward_all 2 1 (drop 1 (sys_hist ex_sys))) =
    {| screen := [Byte.x61; Byte.x62; Byte.x63; Byte.x64]; last_seen_seq := Some 3;
       last_seen_generation := Some 7 |}.
Proof. apply (forwarder_drains 2 1 (drop 1 (sys_hist ex_sys)) ex_view). simpl. lia. Defined.

Definition ex_small : OutSys := out_run [OpReserve [Byte.x61]; OpPublish] (sys_new 3).

Lemma interrupted_attach_repeats_output_witness :
  let frames := attach_frames 1 7 80 24 [Byte.x61] 1 in
  let v1 := render phone_new (take (length frames - 1) frames) in
  screen (render v1 (attach_resume 1 7 80 24 0 7 (subscribe (sys_session ex_small))).1)
    = [Byte.x61; Byte.x61].
Proof.
  apply (interrupted_attach_repeats_output ex_small 1 7 80 24).
  - apply reachable_inv; closed.
  - done.
  - done.
Defined.

End OutputExamples.
