(* ===== verification/Utf8.v ===== *)
(** * Utf8: terminal bytes as text

    [decode_terminal_utf8] and [append_terminal_output] of
    [crates/host/src/session.rs], which turn the byte output of an agent's
    terminal into text as it arrives, and the text clamps of the same file. A
    Rust [String] is the list of its UTF-8 bytes. *)

From S2P Require Import Prelude.

(** ** [std::str::from_utf8]

    One step of validation, on the bytes from some position. *)
Inductive Step :=
| StepEnd                  (** no bytes left *)
| StepChar (width : nat)   (** a valid character *)
| StepInvalid (n : nat)    (** [error_len() == Some(n)] *)
| StepPartial.             (** [error_len() == None]: the input ends inside a character *)

Definition in_range (lo hi b : Z) : bool := (lo <=? b) && (b <=? hi).
Definition is_continuation (b : Byte.byte) : bool := in_range 128 191 (byte_val b).

(** The width a leading byte announces, 0 for none. *)
Definition utf8_char_width (b : Byte.byte) : nat :=
  let v := byte_val b in
  if v <=? 127 then 1 else if in_range 194 223 v then 2
  else if in_range 224 239 v then 3 else if in_range 240 244 v then 4 else 0.

(** Whether the second byte can follow the first, for widths 3 and 4. *)
Definition second_ok (first second : Byte.byte) : bool :=
  let v := byte_val second in
  match byte_val first with
  | 224 => in_range 160 191 v
  | 237 => in_range 128 159 v
  | 240 => in_range 144 191 v
  | 244 => in_range 128 143 v
  | _ => in_range 128 191 v
  end.

Definition utf8_step (b : bytes) : Step :=
  match b with
  | [] => StepEnd
  | b0 :: r0 =>
      match utf8_char_width b0 with
      | 1%nat => StepChar 1
      | 2%nat =>
          match r0 with
          | [] => StepPartial
          | b1 :: _ => if is_continuation b1 then StepChar 2 else StepInvalid 1
          end
      | 3%nat =>
          match r0 with
          | [] => StepPartial
          | b1 :: r1 =>
              if second_ok b0 b1 then
                match r1 with
                | [] => StepPartial
                | b2 :: _ => if is_continuation b2 then StepChar 3 else StepInvalid 2
                end
              else StepInvalid 1
          end
      | 4%nat =>
          match r0 with
          | [] => StepPartial
          | b1 :: r1 =>
              if second_ok b0 b1 then
                match r1 with
                | [] => StepPartial
                | b2 :: r2 =>
                    if is_continuation b2 then
                      match r2 with
                      | [] => StepPartial
                      | b3 :: _ => if is_continuation b3 then StepChar 4 else StepInvalid 3
                      end
                    else StepInvalid 2
                end
              else StepInvalid 1
          end
      | _ => StepInvalid 1
      end
  end.

(** [from_utf8]: [Ok], or [valid_up_to] with [error_len]. [fuel] is the number
    of bytes. *)
Inductive Utf8Result :=
| Utf8Ok
| Utf8Err (valid_up_to : nat) (error_len : option nat).

Fixpoint from_utf8_at (fuel pos : nat) (b : bytes) : Utf8Result :=
  match utf8_step b, fuel with
  | StepEnd, _ | StepChar _, O => Utf8Ok
  | StepChar w, S fuel' => from_utf8_at fuel' (pos + w) (drop w b)
  | StepInvalid n, _ => Utf8Err pos (Some n)
  | StepPartial, _ => Utf8Err pos None
  end.
Definition from_utf8 (b : bytes) : Utf8Result := from_utf8_at (length b) 0 b.

(** [char::REPLACEMENT_CHARACTER] in UTF-8. *)
Definition REPLACEMENT_CHARACTER : bytes := [Byte.xef; Byte.xbf; Byte.xbd].

(** [String::from_utf8_lossy]: one replacement character for each invalid run. *)
Fixpoint lossy_at (fuel : nat) (b : bytes) : bytes :=
  match utf8_step b, fuel with
  | StepEnd, _ | _, O => []
  | StepChar w, S fuel' => take w b ++ lossy_at fuel' (drop w b)
  | StepInvalid n, S fuel' => REPLACEMENT_CHARACTER ++ lossy_at fuel' (drop n b)
  | StepPartial, S _ => REPLACEMENT_CHARACTER
  end.
Definition from_utf8_lossy (b : bytes) : bytes := lossy_at (length b) b.

(** ** Characters *)

(** The UTF-8 bytes of a character. *)
Definition utf8_encode (c : Z) : list Z :=
  if c <? 128 then [c]
  else if c <? 2048 then [192 + c / 64; 128 + c mod 64]
  else if c <? 65536 then [224 + c / 4096; 128 + (c / 64) mod 64; 128 + c mod 64]
  else [240 + c / 262144; 128 + (c / 4096) mod 64; 128 + (c / 64) mod 64; 128 + c mod 64].

(** The characters of valid UTF-8. *)
Fixpoint utf8_decode (fuel : nat) (b : bytes) : chars :=
  match fuel, b with
  | S fuel, b0 :: rest =>
      let w := Nat.max 1 (utf8_char_width b0) in
      let v := byte_val b0 in
      let lead := match w with 1%nat => v | 2%nat => v - 192 | 3%nat => v - 224 | _ => v - 240 end in
      foldl (λ c x, c * 64 + (byte_val x - 128)) lead (take (w - 1) rest)
        :: utf8_decode fuel (drop (w - 1) rest)
  | _, _ => []
  end.
Definition string_chars (s : string) : chars :=
  let b := str_bytes s in utf8_decode (length b) b.
Definition chars_bytes (cs : chars) : bytes := byte_of <$> (cs ≫= utf8_encode).
Definition chars_string (cs : chars) : string := String.string_of_list_byte (chars_bytes cs).

(** ** [decode_terminal_utf8]

    The loop over [pending]: what was decoded, and what stays pending. Every
    round but the last consumes a byte, so the length is fuel enough. *)
Fixpoint decode_loop (fuel : nat) (pending decoded : bytes) : bytes * bytes :=
  match fuel, pending with
  | O, _ | _, [] => (decoded, pending)
  | S fuel', _ =>
      match from_utf8 pending with
      | Utf8Ok => (decoded ++ pending, [])
      | Utf8Err valid error_len =>
          let decoded1 := decoded ++ take valid pending in
          let rest := drop valid pending in
          match error_len with
          | Some invalid => decode_loop fuel' (drop invalid rest) (decoded1 ++ REPLACEMENT_CHARACTER)
          | None => (decoded1, rest)
          end
      end
  end.

Definition decode_terminal_utf8 (pending new : bytes) (eof : bool) : bytes * bytes :=
  let all := pending ++ new in
  let '(decoded, rest) := decode_loop (length all) all [] in
  if eof && negb (bool_decide (rest = [])) then (decoded ++ from_utf8_lossy rest, [])
  else (decoded, rest).

(** ** [append_terminal_output] *)

Record AcpTerminalState := { output : bytes; truncated : bool; output_limit : nat }.

(** [str::is_char_boundary]. *)
Definition is_char_boundary (b : bytes) (i : nat) : bool :=
  match b !! i with
  | Some c => negb (is_continuation c)
  | None => (i =? length b)%nat
  end.

(** [while remove < len && !is_char_boundary(remove) { remove += 1 }] *)
Fixpoint boundary_from (fuel : nat) (b : bytes) (i : nat) : nat :=
  match fuel with
  | O => i
  | S fuel' =>
      if (i <? length b)%nat && negb (is_char_boundary b i) then boundary_from fuel' b (S i) else i
  end.

Definition append_terminal_output (text : bytes) (st : AcpTerminalState) : AcpTerminalState :=
  let out := output st ++ text in
  if (output_limit st <? length out)%nat then
    let remove := boundary_from (length out) out (length out - output_limit st) in
    {| output := drop remove out; truncated := true; output_limit := output_limit st |}
  else {| output := out; truncated := truncated st; output_limit := output_limit st |}.

(** ** Clamps: [clamp_agent_text] and [clamp_agent_short_text] *)

Definition MAX_AGENT_EVENT_TEXT_BYTES : nat := Z.to_nat (64 * 1024).
Definition MAX_AGENT_SHORT_TEXT_BYTES : nat := Z.to_nat 1024.

(** [while !is_char_boundary(end) { end -= 1 }] *)
Fixpoint boundary_back (b : bytes) (i : nat) : nat :=
  if is_char_boundary b i then i
  else match i with O => O | S i' => boundary_back b i' end.

Definition clamp_text (max : nat) (suffix text : bytes) : bytes :=
  if (max <? length text)%nat
  then take (boundary_back text (max - length suffix)) text ++ suffix
  else text.

(** "…" in UTF-8. *)
Definition ELLIPSIS : bytes := [Byte.xe2; Byte.x80; Byte.xa6].
Definition clamp_agent_text (text : bytes) : bytes :=
  clamp_text MAX_AGENT_EVENT_TEXT_BYTES
    ([Byte.x0a] ++ ELLIPSIS ++ str_bytes " truncated by Portty " ++ ELLIPSIS) text.
Definition clamp_agent_short_text (text : bytes) : bytes :=
  clamp_text MAX_AGENT_SHORT_TEXT_BYTES ELLIPSIS text.

(** ** One step *)

(** What a step says of the bytes at hand. *)
Definition step_bounds (b : bytes) (s : Step) : Prop :=
  match s with
  | StepEnd => b = []
  | StepChar w => (0 < w <= length b)%nat
  | StepInvalid n => (0 < n <= length b)%nat
  | StepPartial => b ≠ [] ∧ (length b <= 3)%nat
  end.

Ltac step_cases b :=
  unfold utf8_step in *; destruct b as [|?b0 [|?b1 [|?b2 [|?b3 ?r]]]]; simpl;
  try destruct (utf8_char_width _) as [|[|[|[|[|?]]]]];
  repeat match goal with
    | |- context [second_ok ?x ?y] => destruct (second_ok x y)
    | |- context [is_continuation ?x] => destruct (is_continuation x)
    end.

Lemma utf8_step_bounds b : step_bounds b (utf8_step b).
Proof. step_cases b; simpl; try done; try (split; [done|lia]); lia. Qed.

(** More bytes do not change a decided step. *)
Lemma utf8_step_app b c :
  utf8_step (b ++ c) = utf8_step b ∨ utf8_step b = StepEnd ∨ utf8_step b = StepPartial.
Proof. step_cases b; simpl; auto. Qed.

Lemma utf8_step_app_char b c w : utf8_step b = StepChar w → utf8_step (b ++ c) = StepChar w.
Proof. intros H. destruct (utf8_step_app b c) as [->|[?|?]]; congruence. Qed.
Lemma utf8_step_app_invalid b c n : utf8_step b = StepInvalid n → utf8_step (b ++ c) = StepInvalid n.
Proof. intros H. destruct (utf8_step_app b c) as [->|[?|?]]; congruence. Qed.

(** ** Lossy decoding, without its fuel *)

Lemma lossy_fuel2 f1 : ∀ f2 b,
  (length b <= f1)%nat → (length b <= f2)%nat → lossy_at f1 b = lossy_at f2 b.
Proof.
  induction f1 as [|f1 IH]; intros f2 b H1 H2.
  - assert (b = []) as -> by (destruct b; simpl in *; [done|lia]). by destruct f2.
  - destruct f2 as [|f2].
    { assert (b = []) as -> by (destruct b; simpl in *; [done|lia]). done. }
    pose proof (utf8_step_bounds b) as Hb. simpl.
    destruct (utf8_step b); simpl in Hb; [done| | |done]; (erewrite IH; [reflexivity|..]); rewrite length_drop; lia.
Qed.
Lemma lossy_fuel fuel b : (length b <= fuel)%nat → lossy_at fuel b = from_utf8_lossy b.
Proof. intros H. by apply lossy_fuel2. Qed.

Lemma lossy_nil : from_utf8_lossy [] = [].
Proof. done. Qed.

Lemma lossy_eq b :
  from_utf8_lossy b =
    match utf8_step b with
    | StepEnd => []
    | StepChar w => take w b ++ from_utf8_lossy (drop w b)
    | StepInvalid n => REPLACEMENT_CHARACTER ++ from_utf8_lossy (drop n b)
    | StepPartial => REPLACEMENT_CHARACTER
    end.
Proof.
  pose proof (utf8_step_bounds b) as Hb. unfold from_utf8_lossy at 1.
  destruct (length b) as [|m] eqn:Em; simpl.
  - apply nil_length_inv in Em as ->. done.
  - destruct (utf8_step b) as [|w|k|]; simpl in Hb; try done;
      (rewrite lossy_fuel; [done|]); rewrite length_drop; lia.
Qed.

Lemma lossy_char b w c :
  utf8_step b = StepChar w → from_utf8_lossy (b ++ c) = take w b ++ from_utf8_lossy (drop w b ++ c).
Proof.
  intros Hs. pose proof (utf8_step_bounds b) as Hb. rewrite Hs in Hb. simpl in Hb.
  rewrite lossy_eq, (utf8_step_app_char _ _ _ Hs).
  by rewrite take_app_le, drop_app_le by lia.
Qed.
Lemma lossy_invalid b n c :
  utf8_step b = StepInvalid n →
  from_utf8_lossy (b ++ c) = REPLACEMENT_CHARACTER ++ from_utf8_lossy (drop n b ++ c).
Proof.
  intros Hs. pose proof (utf8_step_bounds b) as Hb. rewrite Hs in Hb. simpl in Hb.
  rewrite lossy_eq, (utf8_step_app_invalid _ _ _ Hs). by rewrite drop_app_le by lia.
Qed.

(** ** [from_utf8] and the decoding loop *)

Lemma from_utf8_at_spec fuel : ∀ pos b, (length b <= fuel)%nat →
  match from_utf8_at fuel pos b with
  | Utf8Ok => ∀ c, from_utf8_lossy (b ++ c) = b ++ from_utf8_lossy c
  | Utf8Err p e =>
      ∃ v, p = (pos + v)%nat ∧ (v <= length b)%nat ∧
        (∀ c, from_utf8_lossy (b ++ c) = take v b ++ from_utf8_lossy (drop v b ++ c)) ∧
        utf8_step (drop v b) = match e with Some n => StepInvalid n | None => StepPartial end
  end.
Proof.
  induction fuel as [|fuel IH]; intros pos b Hl; pose proof (utf8_step_bounds b) as Hb.
  - assert (b = []) as -> by (destruct b; simpl in *; [done|lia]). done.
  - simpl. destruct (utf8_step b) as [|w|k|] eqn:Es; simpl in Hb.
    + by subst b.
    + specialize (IH (pos + w)%nat (drop w b)). rewrite length_drop in IH.
      specialize (IH ltac:(lia)). destruct (from_utf8_at fuel (pos + w) (drop w b)) as [|p e].
      * intros c. rewrite (lossy_char _ _ _ Es), IH, (assoc (++)). by rewrite take_drop.
      * destruct IH as (v & -> & Hv & Hc & Hs). exists (w + v)%nat.
        rewrite drop_drop in Hs. rewrite drop_drop in Hc. split_and!; [lia|lia| |done].
        intros c. rewrite (lossy_char _ _ _ Es), Hc, (assoc (++)). f_equal.
        by rewrite take_take_drop.
    + exists 0%nat. rewrite drop_0. split_and!; [lia|lia|done|done].
    + exists 0%nat. rewrite drop_0. split_and!; [lia|lia|done|done].
Qed.

(** The loop emits what lossy decoding would, and keeps at most the start of
    one character. *)
Lemma decode_loop_spec fuel : ∀ p d, (length p <= fuel)%nat →
  ∃ o rest, decode_loop fuel p d = (d ++ o, rest) ∧
    (∀ c, from_utf8_lossy (p ++ c) = o ++ from_utf8_lossy (rest ++ c)) ∧
    (rest = [] ∨ utf8_step rest = StepPartial).
Proof.
  induction fuel as [|fuel IH]; intros p d Hl.
  { assert (p = []) as -> by (destruct p; simpl in *; [done|lia]).
    exists [], []. rewrite app_nil_r. auto. }
  destruct p as [|x p]; [exists [], []; rewrite app_nil_r; auto|].
  cbn [decode_loop]. remember (x :: p) as p0 eqn:Hp0.
  pose proof (from_utf8_at_spec (length p0) 0 p0 (le_n _)) as Hf. fold (from_utf8 p0) in Hf.
  destruct (from_utf8 p0) as [|v e].
  - exists p0, []. auto.
  - destruct Hf as (v' & -> & Hv & Hc & Hs). simpl. destruct e as [n|].
    + pose proof (utf8_step_bounds (drop v' p0)) as Hb. rewrite Hs in Hb. simpl in Hb.
      rewrite length_drop in Hb.
      destruct (IH (drop n (drop v' p0)) ((d ++ take v' p0) ++ REPLACEMENT_CHARACTER))
        as (o & rest & -> & Hr & Hcase).
      { rewrite !length_drop. lia. }
      exists (take v' p0 ++ REPLACEMENT_CHARACTER ++ o), rest. rewrite !(assoc (++)). split_and!; try done.
      intros c. rewrite Hc, (lossy_invalid _ _ _ Hs), Hr. by rewrite !(assoc (++)).
    + exists (take v' p0), (drop v' p0). auto.
Qed.

(** ** Streaming *)

(** A terminal's output, decoded as its chunks are read and flushed at the end. *)
Fixpoint decode_chunks (pending : bytes) (chunks : list bytes) : bytes * bytes :=
  match chunks with
  | [] => ([], pending)
  | c :: cs =>
      let '(d, p) := decode_terminal_utf8 pending c false in
      let '(ds, p') := decode_chunks p cs in (d ++ ds, p')
  end.
Definition decode_stream (chunks : list bytes) : bytes :=
  let '(d, p) := decode_chunks [] chunks in d ++ (decode_terminal_utf8 p [] true).1.

Lemma decode_chunks_spec chunks : ∀ pending,
  pending = [] ∨ utf8_step pending = StepPartial →
  ∃ o rest, decode_chunks pending chunks = (o, rest) ∧
    from_utf8_lossy (pending ++ concat chunks) = o ++ from_utf8_lossy rest ∧
    (rest = [] ∨ utf8_step rest = StepPartial).
Proof.
  induction chunks as [|c chunks IH]; intros pending Hp; simpl.
  - exists [], pending. by rewrite app_nil_r.
  - unfold decode_terminal_utf8.
    destruct (decode_loop_spec (length (pending ++ c)) (pending ++ c) [] (le_n _))
      as (o & rest & -> & Hc & Hcase). simpl.
    destruct (IH rest Hcase) as (os & rest' & -> & Hd & Hcase').
    exists (o ++ os), rest'. split_and!; [done| |done].
    by rewrite (assoc (++)), Hc, Hd, (assoc (++)).
Qed.

(** C27 (equivalence). Decoding a terminal's output as it arrives gives the same
    text however the bytes are cut into reads, inside a character or not: it is
    the lossy decoding of the whole output, and between reads at most three
    bytes are held back. *)
Theorem streaming_decode_is_lossy_decode chunks :
  decode_stream chunks = from_utf8_lossy (concat chunks) ∧
  (length (decode_chunks [] chunks).2 <= 3)%nat.
Proof.
  destruct (decode_chunks_spec chunks [] (or_introl eq_refl)) as (o & rest & Hd & Hl & Hcase).
  unfold decode_stream. rewrite Hd. simpl in *. split.
  - rewrite Hl. f_equal. unfold decode_terminal_utf8. rewrite app_nil_r.
    destruct (decode_loop_spec (length rest) rest [] (le_n _)) as (o2 & rest2 & -> & Hc & Hcase2).
    specialize (Hc []). rewrite !app_nil_r in Hc. rewrite Hc. simpl.
    case_bool_decide as Hr; simpl; [|done]. by rewrite Hr, lossy_nil, app_nil_r.
  - destruct Hcase as [->|Hs]; simpl; [lia|].
    pose proof (utf8_step_bounds rest) as Hb. rewrite Hs in Hb. apply Hb.
Qed.

(** ** The bounded output of a terminal *)

Lemma boundary_from_spec fuel b : ∀ i,
  (i <= length b)%nat → (length b - i <= fuel)%nat →
  let j := boundary_from fuel b i in
  (i <= j <= length b)%nat ∧ is_char_boundary b j = true ∧
  ∀ k, (i <= k < j)%nat → is_char_boundary b k = false.
Proof.
  assert (Hend : is_char_boundary b (length b) = true).
  { unfold is_char_boundary. rewrite lookup_ge_None_2 by lia. apply Nat.eqb_refl. }
  induction fuel as [|fuel IH]; intros i Hi Hf; simpl.
  - assert (i = length b) as -> by lia. split_and!; [lia|lia|done|lia].
  - destruct (i <? length b)%nat eqn:El; simpl; last first.
    { apply Nat.ltb_ge in El. assert (i = length b) as -> by lia. split_and!; [lia|lia|done|lia]. }
    apply Nat.ltb_lt in El. destruct (is_char_boundary b i) eqn:Eb; simpl.
    { split_and!; [lia|lia|done|lia]. }
    destruct (IH (S i)) as (Hj & Hb & Hk); [lia|lia|]. split_and!; [lia|lia|done|].
    intros k Hkk. destruct (decide (k = i)) as [->|]; [done|]. apply Hk. lia.
Qed.

(** The text kept of a terminal never exceeds its limit, is always
    the end of everything written, starts at a character, and is only ever cut
    at the first character boundary that fits. *)
Theorem terminal_output_is_bounded text st :
  let st' := append_terminal_output text st in
  let out := output st ++ text in
  output_limit st' = output_limit st ∧ (length (output st') <= output_limit st)%nat ∧
  ∃ n, output st' = drop n out ∧ (n <= length out)%nat ∧ is_char_boundary out n = true ∨
       n = 0%nat ∧ output st' = out ∧ truncated st' = truncated st.
Proof.
  unfold append_terminal_output. set (out := output st ++ text).
  destruct (Nat.ltb_spec (output_limit st) (length out)) as [Hlt|Hge]; simpl.
  - destruct (boundary_from_spec (length out) out (length out - output_limit st))
      as (Hj & Hb & _); [lia|lia|].
    split_and!; [done|rewrite length_drop; lia|]. eexists. left. split_and!; [done|lia|done].
  - split_and!; [done|lia|]. exists 0%nat. by right.
Qed.

(** A clamped text fits its maximum; it is the text or a prefix of it followed
    by the suffix. *)
Lemma clamp_text_fits max suffix text :
  (length suffix <= max)%nat →
  (length (clamp_text max suffix text) <= max)%nat ∧
  (clamp_text max suffix text = text ∨
   ∃ n, clamp_text max suffix text = take n text ++ suffix ∧ (n <= max - length suffix)%nat).
Proof.
  intros Hs. unfold clamp_text. destruct (Nat.ltb_spec max (length text)) as [Hlt|]; [|auto].
  assert (Hb : ∀ i, (boundary_back text i <= i)%nat).
  { induction i as [|i IH]; simpl; destruct (is_char_boundary _ _); lia. }
  specialize (Hb (max - length suffix)%nat). split.
  - rewrite length_app, length_take. lia.
  - right. eexists. split; [done|lia].
Qed.

(** ** Characters and their bytes *)

(** A [char]: a Unicode scalar value. *)
Definition scalar (c : Z) : Prop := 0 <= c < 55296 ∨ 57344 <= c < 1114112.

Lemma byte_val_small z : 0 <= z < 256 → byte_val (byte_of z) = z.
Proof. intros H. rewrite byte_val_of. by apply Z.mod_small. Qed.

Lemma in_range_spec lo hi v : in_range lo hi v = true ↔ lo <= v <= hi.
Proof. unfold in_range. rewrite andb_true_iff, !Z.leb_le. done. Qed.

(** Sextets. *)
Lemma sextet z : 128 <= 128 + z mod 64 <= 191.
Proof. pose proof (Z.mod_pos_bound z 64). lia. Qed.

Lemma continuation_sextet z : is_continuation (byte_of (128 + z mod 64)) = true.
Proof. pose proof (sextet z). unfold is_continuation. rewrite byte_val_small by lia. by apply in_range_spec. Qed.

Lemma width_of z : 0 <= z < 256 →
  utf8_char_width (byte_of z) =
    if z <=? 127 then 1%nat else if in_range 194 223 z then 2%nat
    else if in_range 224 239 z then 3%nat else if in_range 240 244 z then 4%nat else 0%nat.
Proof. intros H. unfold utf8_char_width. by rewrite byte_val_small. Qed.

Lemma second_of_three c : 2048 <= c < 65536 → scalar c →
  second_ok (byte_of (224 + c / 4096)) (byte_of (128 + (c / 64) mod 64)) = true.
Proof.
  intros Hc Hs. pose proof (sextet (c / 64)) as Hx.
  assert (Hq : 0 <= c / 4096 <= 15) by (split; [apply Z.div_pos; lia|apply Z.lt_succ_r, Z.div_lt_upper_bound; lia]).
  assert (Hd : c / 64 = 64 * (c / 4096) + (c / 64) mod 64).
  { assert (c / 4096 = c / 64 / 64) as -> by by rewrite Z.div_div by lia. apply Z.div_mod. lia. }
  pose proof (Z.mul_div_le c 64 ltac:(lia)). pose proof (Z.mul_succ_div_gt c 64 ltac:(lia)).
  unfold second_ok. rewrite !byte_val_small by lia. unfold scalar in Hs.
  assert (c / 4096 ∈ [0; 1; 2; 3; 4; 5; 6; 7; 8; 9; 10; 11; 12; 13; 14; 15]) as Hin.
  { rewrite !elem_of_cons. lia. }
  repeat (apply elem_of_cons in Hin as [He|Hin]; [rewrite He in *; apply in_range_spec; lia|]). by apply elem_of_nil in Hin.
Qed.

Lemma second_of_four c : 65536 <= c < 1114112 →
  second_ok (byte_of (240 + c / 262144)) (byte_of (128 + (c / 4096) mod 64)) = true.
Proof.
  intros Hc. pose proof (sextet (c / 4096)) as Hx.
  assert (Hq : 0 <= c / 262144 <= 4) by (split; [apply Z.div_pos; lia|apply Z.lt_succ_r, Z.div_lt_upper_bound; lia]).
  assert (Hd : c / 4096 = 64 * (c / 262144) + (c / 4096) mod 64).
  { assert (c / 262144 = c / 4096 / 64) as -> by by rewrite Z.div_div by lia. apply Z.div_mod. lia. }
  pose proof (Z.mul_div_le c 4096 ltac:(lia)). pose proof (Z.mul_succ_div_gt c 4096 ltac:(lia)).
  unfold second_ok. rewrite !byte_val_small by lia.
  assert (c / 262144 ∈ [0; 1; 2; 3; 4]) as Hin by (rewrite !elem_of_cons; lia).
  repeat (apply elem_of_cons in Hin as [He|Hin]; [rewrite He in *; apply in_range_spec; lia|]). by apply elem_of_nil in Hin.
Qed.

Lemma utf8_step_encode c b : scalar c →
  utf8_step ((byte_of <$> utf8_encode c) ++ b) = StepChar (length (utf8_encode c)).
Proof.
  intros Hs. unfold utf8_encode.
  destruct (Z.ltb_spec c 128); [|destruct (Z.ltb_spec c 2048); [|destruct (Z.ltb_spec c 65536)]]; unfold scalar in Hs.
  - cbn -[byte_of]. rewrite width_of by lia. by destruct (Z.leb_spec c 127); [|lia].
  - assert (2 <= c / 64 < 32) by (split; [apply Z.div_le_lower_bound|apply Z.div_lt_upper_bound]; lia).
    cbn -[byte_of Z.div Z.modulo]. rewrite width_of by lia. rewrite (proj2 (Z.leb_gt _ _)) by lia.
    rewrite (proj2 (in_range_spec 194 223 _)) by lia. by rewrite continuation_sextet.
  - assert (0 <= c / 4096 < 16) by (split; [apply Z.div_pos|apply Z.div_lt_upper_bound]; lia).
    cbn -[byte_of Z.div Z.modulo]. rewrite width_of by lia. rewrite (proj2 (Z.leb_gt _ _)) by lia.
    destruct (in_range 194 223 _) eqn:Hr; [apply in_range_spec in Hr; lia|].
    rewrite (proj2 (in_range_spec 224 239 _)) by lia.
    by rewrite second_of_three, continuation_sextet by (unfold scalar; lia).
  - assert (0 <= c / 262144 < 5) by (split; [apply Z.div_pos|apply Z.div_lt_upper_bound]; lia).
    cbn -[byte_of Z.div Z.modulo]. rewrite width_of by lia. rewrite (proj2 (Z.leb_gt _ _)) by lia.
    destruct (in_range 194 223 _) eqn:Hr; [apply in_range_spec in Hr; lia|].
    destruct (in_range 224 239 _) eqn:Hr2; [apply in_range_spec in Hr2; lia|].
    rewrite (proj2 (in_range_spec 240 244 _)) by lia.
    by rewrite second_of_four, !continuation_sextet by lia.
Qed.

Lemma utf8_decode_encode fuel c b : scalar c →
  utf8_decode (S fuel) ((byte_of <$> utf8_encode c) ++ b) = c :: utf8_decode fuel b.
Proof.
  intros Hs. unfold utf8_encode.
  destruct (Z.ltb_spec c 128); [|destruct (Z.ltb_spec c 2048); [|destruct (Z.ltb_spec c 65536)]]; unfold scalar in Hs.
  - cbn -[byte_of utf8_char_width]. rewrite width_of by lia. rewrite (proj2 (Z.leb_le _ _)) by lia. cbn -[byte_of].
    by rewrite byte_val_small by lia.
  - assert (2 <= c / 64 < 32) by (split; [apply Z.div_le_lower_bound|apply Z.div_lt_upper_bound]; lia).
    cbn -[byte_of Z.div Z.modulo utf8_char_width]. rewrite width_of by lia. rewrite (proj2 (Z.leb_gt _ _)) by lia.
    rewrite (proj2 (in_range_spec 194 223 _)) by lia. cbn -[byte_of Z.div Z.modulo Z.mul].
    pose proof (sextet c). rewrite !byte_val_small, take_0, drop_0 by lia. cbn [foldl]. f_equal. pose proof (Z.div_mod c 64 ltac:(lia)). lia.
  - assert (0 <= c / 4096 < 16) by (split; [apply Z.div_pos|apply Z.div_lt_upper_bound]; lia).
    assert (c / 4096 = c / 64 / 64) as He by by rewrite Z.div_div by lia.
    pose proof (sextet c). pose proof (sextet (c / 64)).
    cbn -[byte_of Z.div Z.modulo utf8_char_width]. rewrite width_of by lia. rewrite (proj2 (Z.leb_gt _ _)) by lia.
    destruct (in_range 194 223 _) eqn:Hr; [apply in_range_spec in Hr; lia|].
    rewrite (proj2 (in_range_spec 224 239 _)) by lia. cbn -[byte_of Z.div Z.modulo Z.mul].
    rewrite !byte_val_small, take_0, drop_0 by lia. cbn [foldl]. f_equal. pose proof (Z.div_mod c 64 ltac:(lia)). pose proof (Z.div_mod (c / 64) 64 ltac:(lia)). lia.
  - assert (0 <= c / 262144 < 5) by (split; [apply Z.div_pos|apply Z.div_lt_upper_bound]; lia).
    assert (c / 4096 = c / 64 / 64) as He by by rewrite Z.div_div by lia.
    assert (c / 262144 = c / 4096 / 64) as He' by by rewrite Z.div_div by lia.
    pose proof (sextet c). pose proof (sextet (c / 64)). pose proof (sextet (c / 4096)).
    cbn -[byte_of Z.div Z.modulo utf8_char_width]. rewrite width_of by lia. rewrite (proj2 (Z.leb_gt _ _)) by lia.
    destruct (in_range 194 223 _) eqn:Hr; [apply in_range_spec in Hr; lia|].
    destruct (in_range 224 239 _) eqn:Hr2; [apply in_range_spec in Hr2; lia|].
    rewrite (proj2 (in_range_spec 240 244 _)) by lia. cbn -[byte_of Z.div Z.modulo Z.mul].
    rewrite !byte_val_small, take_0, drop_0 by lia. cbn [foldl]. f_equal.
    pose proof (Z.div_mod c 64 ltac:(lia)). pose proof (Z.div_mod (c / 64) 64 ltac:(lia)). pose proof (Z.div_mod (c / 4096) 64 ltac:(lia)). lia.
Qed.

Lemma utf8_encode_length c : (0 < length (utf8_encode c) <= 4)%nat.
Proof. unfold utf8_encode. repeat case_match; simpl; lia. Qed.

Lemma chars_bytes_cons c cs : chars_bytes (c :: cs) = (byte_of <$> utf8_encode c) ++ chars_bytes cs.
Proof. unfold chars_bytes. by rewrite bind_cons, fmap_app. Qed.

Lemma utf8_decode_chars cs : ∀ fuel, Forall scalar cs → (length cs <= fuel)%nat →
  utf8_decode fuel (chars_bytes cs) = cs.
Proof.
  induction cs as [|c cs IH]; intros fuel Hs Hf; [by destruct fuel|]. inversion_clear Hs as [|? ? Hc Hcs].
  destruct fuel as [|fuel]; [simpl in Hf; lia|]. rewrite chars_bytes_cons, utf8_decode_encode by done.
  f_equal. apply IH; [done|simpl in Hf; lia].
Qed.

Lemma from_utf8_chars cs : ∀ fuel pos, Forall scalar cs → from_utf8_at fuel pos (chars_bytes cs) = Utf8Ok.
Proof.
  induction cs as [|c cs IH]; intros fuel pos Hs; [by destruct fuel|]. inversion_clear Hs as [|? ? Hc Hcs].
  rewrite chars_bytes_cons. destruct fuel as [|fuel]; cbn [from_utf8_at]; rewrite utf8_step_encode by done; [done|].
  rewrite drop_app_length' by by rewrite length_fmap. by apply IH.
Qed.

Lemma length_chars_bytes cs : (length cs <= length (chars_bytes cs))%nat.
Proof.
  induction cs as [|c cs IH]; [simpl; lia|]. rewrite chars_bytes_cons, length_app, length_fmap.
  pose proof (utf8_encode_length c). simpl. lia.
Qed.

(** Text survives its encoding. *)
Lemma utf8_roundtrip cs : Forall scalar cs →
  from_utf8 (chars_bytes cs) = Utf8Ok ∧ utf8_decode (length (chars_bytes cs)) (chars_bytes cs) = cs.
Proof. intros Hs. split; [by apply from_utf8_chars|]. apply utf8_decode_chars; [done|apply length_chars_bytes]. Qed.
