(* ===== verification/Agents.v ===== *)
(** * Agents: the timeline of a coding-agent session

    [crates/host/src/session.rs]: the bounded event history that late viewers
    are given ([AgentHistory], [sticky_agent_event], [push_agent_event],
    [agent_snapshot]), for every interleaving of the tasks that push. *)

From stdpp Require Import sorting.
From S2P Require Import Prelude Protocol Utf8.

(** ** The timeline *)
Module History.

Definition MAX_AGENT_HISTORY_BYTES : Z := 512 * 1024.

Inductive StickyAgentEvent :=
| Sticky_Commands | Sticky_Mode | Sticky_Config | Sticky_SessionInfo | Sticky_Replaying
| Sticky_Auth | Sticky_Usage.

#[global] Instance StickyAgentEvent_eq_dec : EqDecision StickyAgentEvent.
Proof. solve_decision. Defined.
#[global] Instance StickyAgentEvent_countable : Countable StickyAgentEvent.
Proof.
  refine (inj_countable'
    (λ k, match k with
          | Sticky_Commands => 0 | Sticky_Mode => 1 | Sticky_Config => 2 | Sticky_SessionInfo => 3
          | Sticky_Replaying => 4 | Sticky_Auth => 5 | Sticky_Usage => 6 end)
    (λ z, match z with
          | 0 => Sticky_Commands | 1 => Sticky_Mode | 2 => Sticky_Config | 3 => Sticky_SessionInfo
          | 4 => Sticky_Replaying | 5 => Sticky_Auth | _ => Sticky_Usage end) _).
  by intros [].
Defined.

Definition sticky_agent_event (e : AgentEvent) : option StickyAgentEvent :=
  match e with
  | AgentEvent_AvailableCommands _ => Some Sticky_Commands
  | AgentEvent_ModeState _ _ => Some Sticky_Mode
  | AgentEvent_ConfigOptions _ => Some Sticky_Config
  | AgentEvent_SessionInfo _ => Some Sticky_SessionInfo
  | AgentEvent_Replaying _ => Some Sticky_Replaying
  | AgentEvent_AuthRequired _ => Some Sticky_Auth
  | AgentEvent_Usage _ _ _ => Some Sticky_Usage
  | _ => None
  end.

Section WithSize.
(** The length of an event's derived [Debug] text. *)
Context (debug_len : AgentEvent → N).

(** The largest length of a buffer, [isize::MAX]. *)
Definition i64_max : Z := 2 ^ 63 - 1.

Definition agent_event_size (e : AgentTimelineEvent) : Z := 32 + Z.of_N (debug_len (event_event e)).

Record AgentHistory := {
  events : list AgentTimelineEvent;
  sticky : gmap StickyAgentEvent AgentTimelineEvent;
  hist_bytes : Z;
}.

Definition history_default : AgentHistory := {| events := []; sticky := ∅; hist_bytes := 0 |}.

(** The pruning loop of [push]. *)
Fixpoint prune (es : list AgentTimelineEvent) (n : Z) : list AgentTimelineEvent * Z :=
  match es with
  | old :: rest =>
      if (MAX_AGENT_HISTORY_BYTES <? n) && negb (bool_decide (rest = []))
      then prune rest (Z.max 0 (n - agent_event_size old))
      else (es, n)
  | [] => (es, n)
  end.

Definition history_push (e : AgentTimelineEvent) (h : AgentHistory) : AgentHistory :=
  let n := saturating_add u64_max (hist_bytes h) (agent_event_size e) in
  let st := match sticky_agent_event (event_event e) with
            | Some kind => <[kind := e]> (sticky h)
            | None => sticky h
            end in
  let '(es, n') := prune (events h ++ [e]) n in
  {| events := es; sticky := st; hist_bytes := n' |}.

(** Ordering by sequence number, [sort_by_key]. *)
Definition by_seq (a b : AgentTimelineEvent) : Prop := event_seq a <= event_seq b.
#[export] Instance by_seq_dec : RelDecision by_seq.
Proof. intros a b. unfold by_seq. apply _. Defined.
#[export] Instance by_seq_total : Total by_seq.
Proof. intros a b. unfold by_seq. lia. Qed.
#[export] Instance by_seq_trans : Transitive by_seq.
Proof. intros a b c. unfold by_seq. lia. Qed.

(** The sticky events that are not in the list yet, added one by one; [order]
    is the order in which the map is walked. *)
Definition add_sticky (es order : list AgentTimelineEvent) : list AgentTimelineEvent :=
  foldl (λ es e, if existsb (λ c, event_seq c =? event_seq e) es then es else es ++ [e]) es order.

Definition history_snapshot (order : list AgentTimelineEvent) (h : AgentHistory)
    : list AgentTimelineEvent :=
  merge_sort by_seq (add_sticky (events h) order).

(** ** Pushing from several tasks

    [push_agent_event] draws its sequence number from an atomic counter before it
    takes the history's lock, so two tasks can commit in the other order. *)
Record Timeline := {
  next_seq : Z;
  drawn : list AgentTimelineEvent;   (* numbered, not yet in the history *)
  history : AgentHistory;
  has_unseen_activity : bool;
}.

Definition timeline_new : Timeline :=
  {| next_seq := 1; drawn := []; history := history_default; has_unseen_activity := false |}.

Definition draw_seq (e : AgentEvent) (t : Timeline) : Timeline :=
  {| next_seq := wrapping_add u64_max (next_seq t) 1;
     drawn := drawn t ++ [{| event_seq := next_seq t; event_event := e |}];
     history := history t; has_unseen_activity := has_unseen_activity t |}.

(** The rest of the call for the [i]-th drawn event: the history, then the
    [AgentTimeline] message, then an [Activity] one unless one is owed already. *)
Definition commit_event (i : nat) (t : Timeline) : option (AgentTimelineEvent * bool * Timeline) :=
  e ← drawn t !! i;
  Some (e, negb (has_unseen_activity t),
        {| next_seq := next_seq t; drawn := delete i (drawn t);
           history := history_push e (history t); has_unseen_activity := true |}).

Inductive TimelineOp := Draw (e : AgentEvent) | Commit (i : nat) | MarkSeen.

(** A run of such steps, with the events in the order they were committed. *)
Fixpoint timeline_run (ops : list TimelineOp) (t : Timeline) : Timeline * list AgentTimelineEvent :=
  match ops with
  | [] => (t, [])
  | Draw e :: ops => timeline_run ops (draw_seq e t)
  | Commit i :: ops =>
      match commit_event i t with
      | Some (e, _, t') => let '(u, es) := timeline_run ops t' in (u, e :: es)
      | None => timeline_run ops t
      end
  | MarkSeen :: ops =>
      timeline_run ops {| next_seq := next_seq t; drawn := drawn t; history := history t;
                          has_unseen_activity := false |}
  end.

(** ** Against everything that was ever pushed *)

(** The latest event of its sticky kind. *)
Definition latest (all : list AgentTimelineEvent) (k : StickyAgentEvent) : option AgentTimelineEvent :=
  last (filter (λ e, sticky_agent_event (event_event e) = Some k) all).

Definition sizes (es : list AgentTimelineEvent) : Z := foldr (λ e n, agent_event_size e + n) 0 es.

Lemma sizes_app a b : sizes (a ++ b) = sizes a + sizes b.
Proof. induction a; simpl; lia. Qed.
Lemma sizes_one e : sizes [e] = agent_event_size e.
Proof. unfold sizes. cbn [foldr]. lia. Qed.
Lemma agent_event_size_pos e : 32 <= agent_event_size e.
Proof. unfold agent_event_size. lia. Qed.
Lemma sizes_nonneg es : 0 <= sizes es.
Proof. induction es as [|e es IH]; simpl; [done|]. pose proof (agent_event_size_pos e). lia. Qed.

Record history_inv (all : list AgentTimelineEvent) (h : AgentHistory) (k : nat) : Prop := {
  hi_events : events h = drop k all;
  hi_index : (k <= length all)%nat ∧ (k = length all → all = []);
  hi_bytes : hist_bytes h = sizes (events h);
  hi_sticky : ∀ kind, sticky h !! kind = latest all kind;
  hi_fits : sizes (events h) <= MAX_AGENT_HISTORY_BYTES ∨ length (events h) = 1%nat;
  hi_owed : k ≠ 0%nat → MAX_AGENT_HISTORY_BYTES < sizes (drop (k - 1) all);
}.

Lemma prune_spec es : ∀ n, n = sizes es → es ≠ [] →
  ∃ j, prune es n = (drop j es, sizes (drop j es)) ∧ (j < length es)%nat ∧
    (sizes (drop j es) <= MAX_AGENT_HISTORY_BYTES ∨ length (drop j es) = 1%nat) ∧
    (j ≠ 0%nat → MAX_AGENT_HISTORY_BYTES < sizes (drop (j - 1) es)).
Proof.
  induction es as [|e es IH]; intros n -> Hne; [done|]. cbn [prune].
  destruct (MAX_AGENT_HISTORY_BYTES <? sizes (e :: es)) eqn:En; simpl andb; last first.
  { exists 0%nat. rewrite drop_0. split_and!; [done|simpl; lia|left; lia|done]. }
  case_bool_decide as Hes; simpl negb; cbv iota.
  { subst es. exists 0%nat. rewrite drop_0. split_and!; [done|simpl; lia|by right|done]. }
  replace (Z.max 0 (sizes (e :: es) - agent_event_size e)) with (sizes es)
    by (pose proof (sizes_nonneg es); simpl; lia).
  destruct (IH (sizes es) eq_refl Hes) as (j & -> & Hj & Hfit & Howed).
  exists (S j). simpl drop. split_and!; [done|simpl; lia|done|]. intros _.
  replace (S j - 1)%nat with j by lia. destruct j as [|j]; [rewrite drop_0; lia|].
  simpl drop. replace j with (S j - 1)%nat at 1 by lia. apply Howed. lia.
Qed.

Lemma latest_snoc all e kind :
  latest (all ++ [e]) kind =
    if decide (sticky_agent_event (event_event e) = Some kind) then Some e else latest all kind.
Proof.
  unfold latest. rewrite filter_app. case_decide; [rewrite filter_cons_True by done|rewrite filter_cons_False by done]; rewrite filter_nil.
  - by rewrite last_snoc.
  - by rewrite app_nil_r.
Qed.

Lemma history_push_inv all h k e :
  Forall (λ e, agent_event_size e <= i64_max) (all ++ [e]) → history_inv all h k → ∃ k', history_inv (all ++ [e]) (history_push e h) k'.
Proof.
  intros Hmax Hi. unfold history_push. rewrite (hi_bytes _ _ _ Hi).
  destruct (hi_index _ _ _ Hi) as [Hk Hk0].
  assert (Hd : drop k (all ++ [e]) = events h ++ [e])
    by (rewrite (hi_events _ _ _ Hi); by apply drop_app_le).
  assert (Hsz : sizes (events h ++ [e]) <= u64_max).
  { rewrite sizes_app, sizes_one. apply Forall_app in Hmax as [Hall Hmax]. rewrite Forall_singleton in Hmax.
    assert (sizes (events h) <= i64_max) as Hh; [|revert Hh Hmax; unfold i64_max, u64_max; lia].
    destruct (hi_fits _ _ _ Hi) as [Hf|Hf].
    { revert Hf. unfold MAX_AGENT_HISTORY_BYTES, i64_max. lia. }
    rewrite (hi_events _ _ _ Hi) in Hf |- *. apply (Forall_drop _ k) in Hall.
    destruct (drop k all) as [|x [|y r]]; try done. rewrite Forall_singleton in Hall. by rewrite sizes_one. }
  assert (Hsat : saturating_add u64_max (sizes (events h)) (agent_event_size e) = sizes (events h ++ [e])).
  { unfold saturating_add. rewrite sizes_app, sizes_one in *. lia. }
  rewrite Hsat. destruct (prune_spec (events h ++ [e]) _ eq_refl) as (j & -> & Hj & Hfit & Howed).
  { by destruct (events h). }
  rewrite <-Hd in Hj, Hfit, Howed |- *. rewrite !drop_drop in *. rewrite length_drop in Hj.
  exists (k + j)%nat. split; simpl; rewrite ?drop_drop.
  - done.
  - split; [lia|]. intros Hq. lia.
  - done.
  - intros kind. rewrite latest_snoc. destruct (sticky_agent_event (event_event e)) as [kd|].
    + case_decide as Hd'; simplify_eq.
      * by rewrite lookup_insert_eq.
      * rewrite lookup_insert_ne by congruence. apply Hi.
    + rewrite decide_False by done. apply Hi.
  - done.
  - intros Hkj. destruct j as [|j].
    + rewrite Nat.add_0_r in *. pose proof (hi_owed _ _ _ Hi Hkj) as Ho.
      rewrite drop_app_le, sizes_app by lia. simpl. pose proof (agent_event_size_pos e). lia.
    + replace (k + S j - 1)%nat with (k + (S j - 1))%nat by lia. apply Howed. lia.
Qed.

Lemma history_default_inv : history_inv [] history_default 0.
Proof.
  split; simpl; [done|split; [lia|done]|done| |by left|done].
  intros kind. by rewrite lookup_empty.
Qed.

(** Numbers identify events. *)
Definition seq_key (es : list AgentTimelineEvent) : Prop :=
  ∀ a b, a ∈ es → b ∈ es → event_seq a = event_seq b → a = b.

Lemma seq_key_mono es es' : seq_key es → es' ⊆ es → seq_key es'.
Proof. intros H Hsub a b Ha Hb. apply H; by apply Hsub. Qed.

Lemma add_sticky_cons es e order :
  seq_key (es ++ e :: order) → ∃ es', add_sticky es (e :: order) = add_sticky es' order ∧
    (es' = es ∧ e ∈ es ∨ es' = es ++ [e] ∧ e ∉ es).
Proof.
  intros Hk. unfold add_sticky. simpl. eexists. split; [done|].
  destruct (existsb _ es) eqn:Ex.
  - apply existsb_exists in Ex as (c & Hc & Hs%Z.eqb_eq). apply list_elem_of_In in Hc.
    assert (c = e) as -> by (apply Hk; [set_solver..|done]). by left.
  - right. split; [done|]. intros Hin. apply Bool.not_true_iff_false in Ex. apply Ex.
    apply existsb_exists. exists e. rewrite Z.eqb_refl. split; [by apply list_elem_of_In|done].
Qed.

Lemma add_sticky_spec order : ∀ es, seq_key (es ++ order) → NoDup es →
  NoDup (add_sticky es order) ∧ (∀ e, e ∈ add_sticky es order ↔ e ∈ es ∨ e ∈ order).
Proof.
  induction order as [|o order IH]; intros es Hk Hn; [unfold add_sticky; set_solver|].
  destruct (add_sticky_cons es o order Hk) as (es' & -> & [[-> Ho]|[-> Ho]]).
  - destruct (IH es) as [Hn' He]; [|done|].
    { eapply seq_key_mono; [done|set_solver]. }
    split; [done|]. intros e. rewrite He. set_solver.
  - destruct (IH (es ++ [o])) as [Hn' He].
    { eapply seq_key_mono; [done|set_solver]. }
    { apply NoDup_app. split_and!; [done|set_solver|apply NoDup_singleton]. }
    split; [done|]. intros e. rewrite He. set_solver.
Qed.

(** Distinct events sorted by number are strictly sorted. *)
Lemma StronglySorted_strict es :
  StronglySorted by_seq es → NoDup es → seq_key es →
  StronglySorted (λ a b, event_seq a < event_seq b) es.
Proof.
  induction es as [|e es IH]; intros Hs Hn Hk; [constructor|].
  apply StronglySorted_cons in Hs as [Hall Hs]. apply NoDup_cons in Hn as [Hne Hn].
  apply StronglySorted_cons. split.
  - rewrite Forall_forall in Hall |- *. intros x Hx. specialize (Hall x Hx). unfold by_seq in Hall.
    destruct (decide (event_seq e = event_seq x)) as [E|]; [|lia].
    exfalso. apply Hne. rewrite (Hk e x); [done|set_solver..|done].
  - apply IH; [done..|]. eapply seq_key_mono; [done|set_solver].
Qed.

Lemma latest_elem all kind e : latest all kind = Some e → e ∈ all.
Proof.
  unfold latest. intros H%last_Some_elem_of. by apply list_elem_of_filter in H as [_ H].
Qed.

(** What a viewer is given, once the history is the one [history_inv] describes. *)
Lemma snapshot_spec all h k order :
  history_inv all h k → order ≡ₚ (map_to_list (sticky h)).*2 → NoDup all → seq_key all →
  StronglySorted (λ a b, event_seq a < event_seq b) (history_snapshot order h) ∧
  (∀ e, e ∈ history_snapshot order h ↔ e ∈ drop k all ∨ ∃ kind, latest all kind = Some e).
Proof.
  intros Hi Hord Hn Hk. unfold history_snapshot. rewrite (hi_events _ _ _ Hi).
  assert (Ho : ∀ e, e ∈ order ↔ ∃ kind, latest all kind = Some e).
  { intros e. rewrite Hord, list_elem_of_fmap. setoid_rewrite <-(hi_sticky _ _ _ Hi). split.
    - intros ([kind e'] & -> & Hin%elem_of_map_to_list). eauto.
    - intros [kind Hin]. exists (kind, e). by rewrite elem_of_map_to_list. }
  assert (Hsub : drop k all ++ order ⊆ all).
  { intros e [Hin|[kind Hin]%Ho]%elem_of_app; [|by eapply latest_elem].
    apply list_elem_of_lookup in Hin as [i Hin]. rewrite lookup_drop in Hin.
    by eapply list_elem_of_lookup_2. }
  assert (Hkd : seq_key (drop k all ++ order)) by by eapply seq_key_mono.
  assert (Hd : NoDup (drop k all)).
  { rewrite <-(take_drop k all) in Hn. by apply NoDup_app in Hn as (_ & _ & ?). }
  destruct (add_sticky_spec order (drop k all) Hkd Hd) as [Hnd He]. split.
  - apply StronglySorted_strict.
    + apply StronglySorted_merge_sort; apply _.
    + by rewrite merge_sort_Permutation.
    + intros a b. rewrite !merge_sort_Permutation, !He, <-!elem_of_app. apply Hkd.
  - intros e. by rewrite merge_sort_Permutation, He, Ho.
Qed.

(** The committed and the drawn events carry distinct numbers below the counter. *)
Record timeline_inv (all : list AgentTimelineEvent) (t : Timeline) : Prop := {
  ti_history : ∃ k, history_inv all (history t) k;
  ti_distinct : NoDup (event_seq <$> all ++ drawn t);
  ti_below : Forall (λ e, event_seq e < next_seq t) (all ++ drawn t);
}.

Lemma draw_seq_inv all e t :
  0 <= next_seq t < u64_max → timeline_inv all t → timeline_inv all (draw_seq e t).
Proof.
  intros Hn Hi. assert (Hw : wrapping_add u64_max (next_seq t) 1 = next_seq t + 1).
  { apply Z.mod_small. revert Hn. unfold u64_max. lia. }
  pose proof (ti_below _ _ Hi) as Hb. split; simpl.
  - apply Hi.
  - rewrite app_assoc, fmap_app. apply NoDup_app. split_and!; [apply Hi| |apply NoDup_singleton].
    intros q (x & -> & Hx)%list_elem_of_fmap Hq%list_elem_of_singleton. simpl in Hq.
    rewrite Forall_forall in Hb. specialize (Hb x Hx). lia.
  - rewrite app_assoc, Hw. apply Forall_app. split.
    + eapply Forall_impl; [exact Hb|]. simpl. lia.
    + apply Forall_singleton. simpl. lia.
Qed.

Lemma commit_event_inv all i e b t t' :
  Forall (λ e, agent_event_size e <= i64_max) (all ++ [e]) →
  commit_event i t = Some (e, b, t') → timeline_inv all t → timeline_inv (all ++ [e]) t'.
Proof.
  intros Hsz Hc Hi. unfold commit_event in Hc. destruct (drawn t !! i) as [x|] eqn:Hx; simplify_eq/=.
  assert (Hp : (all ++ [e]) ++ delete i (drawn t) ≡ₚ all ++ drawn t).
  { rewrite <-app_assoc. f_equiv. simpl. symmetry. by apply delete_Permutation. }
  split; simpl.
  - destruct (ti_history _ _ Hi) as [k Hk]. by eapply history_push_inv.
  - rewrite Hp. apply Hi.
  - rewrite Hp. apply Hi.
Qed.

Lemma timeline_run_inv ops : ∀ all t u es,
  timeline_run ops t = (u, es) → 0 <= next_seq t → next_seq t + Z.of_nat (length ops) <= u64_max →
  Forall (λ e, agent_event_size e <= i64_max) (all ++ es) →
  timeline_inv all t → timeline_inv (all ++ es) u.
Proof.
  induction ops as [|[e|i|] ops IH]; intros all t u es Hr H0 Hm Hsz Hi; simpl in Hr, Hm.
  - simplify_eq. by rewrite app_nil_r.
  - eapply IH; [done| | |done|apply draw_seq_inv; [lia|done]]; simpl; unfold wrapping_add;
      rewrite Z.mod_small by (revert Hm; unfold u64_max; lia); lia.
  - destruct (commit_event i t) as [[[e b] t']|] eqn:Hc; [|eapply IH; [done|lia|lia|done|done]].
    destruct (timeline_run ops t') as [u' es'] eqn:Hr'. simplify_eq.
    rewrite cons_middle, app_assoc in *.
    assert (next_seq t' = next_seq t) as Hn by (revert Hc; unfold commit_event; by destruct (_ !! i); intros; simplify_eq/=).
    eapply IH; [done|lia|lia|done|]. eapply commit_event_inv; [|done|done].
    by apply Forall_app in Hsz as [? _].
  - eapply IH; [done|simpl; lia|simpl; lia|done|]. destruct Hi. by split.
Qed.

(** C26 (functional). However the pushing tasks interleave, the history a late
    viewer is given lists, in the order of the sequence numbers and without
    repetition, exactly the last [length all - k] committed events together with
    the last committed event of each sticky kind; what was pruned is owed to the
    byte cap, and the retained suffix is within it unless it is a single event. *)
Theorem late_viewer_gets_suffix_and_sticky ops t all order
    (Hrun : timeline_run ops timeline_new = (t, all))
    (Hcount : 1 + Z.of_nat (length ops) <= u64_max)
    (Hsize : Forall (λ e, agent_event_size e <= i64_max) all)
    (Horder : order ≡ₚ (map_to_list (sticky (history t))).*2) :
  ∃ k, (k ≤ length all)%nat ∧
    StronglySorted (λ a b, event_seq a < event_seq b) (history_snapshot order (history t)) ∧
    (∀ e, e ∈ history_snapshot order (history t) ↔
      e ∈ drop k all ∨ ∃ kind, latest all kind = Some e) ∧
    (sizes (drop k all) <= MAX_AGENT_HISTORY_BYTES ∨ length (drop k all) = 1%nat) ∧
    (k ≠ 0%nat → MAX_AGENT_HISTORY_BYTES < sizes (drop (k - 1) all)).
Proof.
  assert (timeline_inv all t) as [[k Hk] Hd _].
  { eapply (timeline_run_inv ops []); [done|done|done|done|]. split; simpl; [|constructor..].
    exists 0%nat. apply history_default_inv. }
  rewrite fmap_app in Hd. apply NoDup_app in Hd as (Hd & _ & _).
  destruct (snapshot_spec all (history t) k order) as [Hs He]; [done|done| | |].
  { by eapply NoDup_fmap_1. }
  { intros a b Ha Hb Hab. apply list_elem_of_lookup in Ha as [i Ha], Hb as [j Hb].
    assert (i = j) as ->; [|congruence]. eapply NoDup_lookup; [exact Hd|..];
      rewrite list_lookup_fmap; [by rewrite Ha|by rewrite Hb; simpl; rewrite Hab]. }
  destruct Hk as [He' [Hi _] _ _ Hf Ho]. rewrite He' in Hf. eauto 10.
Qed.

End WithSize.

Module HistoryExamples.
#[local] Transparent gmap_empty.

(** Two of these are over the cap. *)
Definition big (_ : AgentEvent) : N := 300000.
Definition mode : AgentEvent := AgentEvent_ModeState "plan" [].
Definition racing : list TimelineOp :=
  [Draw mode; Draw (AgentEvent_UserMessage "a"); Commit 1; Commit 0;
   Draw (AgentEvent_MessageChunk "b"); Commit 0].
Definition racing_end : Timeline * list AgentTimelineEvent := timeline_run big racing timeline_new.

(** The second task commits first; the mode is pruned and still handed out. *)
Lemma late_viewer_witness : ∃ k, (k ≤ length racing_end.2)%nat ∧
  StronglySorted (λ a b, event_seq a < event_seq b)
    (history_snapshot (map_to_list (sticky (history racing_end.1))).*2 (history racing_end.1)) ∧
  (∀ e, e ∈ history_snapshot (map_to_list (sticky (history racing_end.1))).*2 (history racing_end.1) ↔
    e ∈ drop k racing_end.2 ∨ ∃ kind, latest racing_end.2 kind = Some e) ∧
  (sizes big (drop k racing_end.2) <= MAX_AGENT_HISTORY_BYTES ∨
    length (drop k racing_end.2) = 1%nat) ∧
  (k ≠ 0%nat → MAX_AGENT_HISTORY_BYTES < sizes big (drop (k - 1) racing_end.2)).
Proof.
  apply (late_viewer_gets_suffix_and_sticky big racing).
  - apply surjective_pairing.
  - vm_compute. discriminate.
  - repeat constructor; vm_compute; discriminate.
  - reflexivity.
Defined.
End HistoryExamples.
End History.
