(* ===== verification/Approvals.v ===== *)
(** * Approvals: an agent asks, a viewer answers

    [crates/host/src/session.rs]: the approval requests of an ACP agent from
    their arrival over the viewers' answers to the reply ([permission_outcome],
    [Session::resolve_permission], [SessionManager::resolve_permission],
    [cancel_pending_permissions], the end of [SessionManager::kill], and the
    request handler of [run_acp_session]). The handlers of several requests, the
    viewers and the controls of the session interleave freely: the state is
    changed by a list of steps, each of which holds the map's lock once. *)

From S2P Require Import Prelude Protocol Utf8.

(** ** What the agent sends *)

(** The tool kinds and the option kinds of the ACP schema are open enumerations:
    a value the source does not name is [_Unlisted]. *)
Inductive AcpToolKind :=
| AcpTool_Read | AcpTool_Edit | AcpTool_Delete | AcpTool_Move | AcpTool_Search | AcpTool_Execute
| AcpTool_Think | AcpTool_Fetch | AcpTool_Unlisted (name : string).

Inductive AcpPermissionOptionKind :=
| AcpAllowOnce | AcpAllowAlways | AcpRejectOnce | AcpRejectAlways | AcpKind_Unlisted (name : string).

Record AcpPermissionOption := {
  acp_option_id : string;
  acp_option_name : string;
  acp_option_kind : AcpPermissionOptionKind;
}.

Record RequestPermissionRequest := {
  req_tool_call_id : string;
  req_title : option string;
  req_kind : option AcpToolKind;
  req_options : list AcpPermissionOption;
}.

Inductive RequestPermissionOutcome := Outcome_Selected (id : string) | Outcome_Cancelled.

Definition map_tool_kind (kind : AcpToolKind) : AgentToolKind :=
  match kind with
  | AcpTool_Read => Tool_Read
  | AcpTool_Edit => Tool_Edit
  | AcpTool_Delete => Tool_Delete
  | AcpTool_Move => Tool_Move
  | AcpTool_Search => Tool_Search
  | AcpTool_Execute => Tool_Execute
  | AcpTool_Think => Tool_Think
  | AcpTool_Fetch => Tool_Fetch
  | AcpTool_Unlisted _ => Tool_Other
  end.

Definition permission_category (kind : AgentToolKind) : PermissionCategory :=
  match kind with
  | Tool_Read | Tool_Search => Category_Read
  | Tool_Edit | Tool_Move => Category_Write
  | Tool_Execute => Category_Execute
  | Tool_Fetch => Category_Network
  | Tool_Delete => Category_Destructive
  | Tool_Think | Tool_Other => Category_Unknown
  end.

Definition map_perm_kind (k : AcpPermissionOptionKind) : PermissionOptionKind :=
  match k with
  | AcpAllowOnce => AllowOnce
  | AcpAllowAlways => AllowAlways
  | AcpRejectOnce => RejectOnce
  | AcpRejectAlways => RejectAlways
  | AcpKind_Unlisted _ => RejectOnce
  end.

(** ** What an answer means *)

Definition permission_outcome (chosen : option string) (options : list PermissionOption)
    : option string * PermissionResolution :=
  let kind :=
    id ← chosen;
    option_kind <$> List.find (λ o, bool_decide (option_id o = id)) options in
  match chosen, kind with
  | Some id, Some (AllowOnce | AllowAlways) => (Some id, Resolution_Allowed)
  | Some id, Some (RejectOnce | RejectAlways) => (Some id, Resolution_Rejected)
  | Some _, None => (None, Resolution_Cancelled)
  | None, _ => (None, Resolution_Rejected)
  end.

(** ** The state of a session's approvals *)

(** The one-shot channel from whoever answers to the handler that waits: without a
    value yet, with one, without a sender, without a receiver. *)
Inductive Oneshot := Open | Sent (decision : option string) | Dropped | Expired.

(** Requests, and with them their channels, are numbered as they arrive. *)
Record PendingAgentPermission := {
  responder : nat;
  tool_call : ToolCallCard;
  options : list PermissionOption;
  category : PermissionCategory;
}.

Record Approvals := {
  pending : gmap string PendingAgentPermission;
  channels : gmap nat Oneshot;
  waiting : gmap nat string;       (* handlers that await their channel *)
  requests : nat;
}.

Definition approvals_new : Approvals :=
  {| pending := ∅; channels := ∅; waiting := ∅; requests := 0 |}.

(** What the outside sees: the feed of the session, the events all viewers get,
    and the replies to the agent. *)
Inductive Effect :=
| Feed (e : AgentEvent)
| AgentPermission (tool_call : ToolCallCard) (options : list PermissionOption)
    (category : PermissionCategory) (workspace_scope : WorkspaceScope)
| AgentPermissionResolved (tool_call_id : string) (resolution : PermissionResolution)
    (by_ : PermissionResolver)
| Respond (request : nat) (outcome : RequestPermissionOutcome).

(** An open channel gets its end; on any other nothing happens. *)
Definition settle (c : Oneshot) (r : nat) (cs : gmap nat Oneshot) : gmap nat Oneshot :=
  match cs !! r with Some Open => <[r := c]> cs | _ => cs end.

(** [responder.send(d)], and the sender going away unused. *)
Definition oneshot_send (d : option string) : nat → gmap nat Oneshot → gmap nat Oneshot :=
  settle (Sent d).
Definition oneshot_drop : nat → gmap nat Oneshot → gmap nat Oneshot := settle Dropped.

(** An entry that leaves the map takes its sender along. *)
Definition drop_entry (o : option PendingAgentPermission) (cs : gmap nat Oneshot) : gmap nat Oneshot :=
  match o with Some p => oneshot_drop (responder p) cs | None => cs end.

(** ** The request handler *)
Definition MAX_PERMISSION_OPTIONS : nat := 32.

Definition clamp_short (s : string) : string :=
  String.string_of_list_byte (clamp_agent_short_text (str_bytes s)).

Definition short_enough (s : string) : bool := Nat.leb (String.length s) MAX_AGENT_SHORT_TEXT_BYTES.

Definition offered_options (os : list AcpPermissionOption) : list PermissionOption :=
  omap (λ o, if short_enough (acp_option_id o)
             then Some {| option_id := acp_option_id o;
                          option_name := clamp_short (acp_option_name o);
                          option_kind := map_perm_kind (acp_option_kind o) |}
             else None)
    (take MAX_PERMISSION_OPTIONS os).

Definition request_card (req : RequestPermissionRequest) : ToolCallCard :=
  {| card_tool_call_id := req_tool_call_id req;
     card_title := match req_title req with Some t => clamp_short t | None => "agent action" end |}.

Definition request_category (req : RequestPermissionRequest) : PermissionCategory :=
  match req_kind req with
  | Some k => permission_category (map_tool_kind k)
  | None => Category_Unknown
  end.

Definition oversized_id_text : string := "Denied a permission request with an oversized id".
Definition unrepresentable_text : string := "Denied a permission request with unrepresentable options".

(** Up to the point where the handler waits. *)
Definition receive_request (scope : WorkspaceScope) (req : RequestPermissionRequest) (s : Approvals)
    : Approvals * list Effect :=
  let r := requests s in
  let refuse msg :=
    ({| pending := pending s; channels := channels s; waiting := waiting s; requests := S r |},
     [Feed (AgentEvent_Error msg); Respond r Outcome_Cancelled]) in
  if negb (short_enough (req_tool_call_id req)) then refuse oversized_id_text
  else
    let os := offered_options (req_options req) in
    match os, req_options req with
    | [], _ :: _ => refuse unrepresentable_text
    | _, _ =>
        let id := req_tool_call_id req in
        let p := {| responder := r; tool_call := request_card req; options := os;
                    category := request_category req |} in
        ({| pending := <[id := p]> (pending s);
            channels := drop_entry (pending s !! id) (<[r := Open]> (channels s));
            waiting := <[r := id]> (waiting s); requests := S r |},
         [AgentPermission (request_card req) os (request_category req) scope])
    end.

(** The deadline passes: the receiver is dropped with the timeout. *)
Definition deadline (r : nat) (s : Approvals) : option Approvals :=
  match channels s !! r with
  | Some Open => Some {| pending := pending s; channels := <[r := Expired]> (channels s);
                         waiting := waiting s; requests := requests s |}
  | _ => None
  end.

(** What the wait ends with, [None] while it goes on. *)
Definition wait_result (c : Oneshot) : option (option string) :=
  match c with Open => None | Sent d => Some d | Dropped | Expired => Some None end.

Definition reply (decision : option string) : RequestPermissionOutcome :=
  match decision with Some opt => Outcome_Selected opt | None => Outcome_Cancelled end.

(** The rest of the handler: whatever entry stands under the id is removed and
    the agent gets its reply. *)
Definition finish_request (r : nat) (s : Approvals) : option (Approvals * list Effect) :=
  id ← waiting s !! r;
  c ← channels s !! r;
  decision ← wait_result c;
  Some ({| pending := delete id (pending s);
           channels := delete r (drop_entry (pending s !! id) (channels s));
           waiting := delete r (waiting s); requests := requests s |},
        [Respond r (reply decision)]).

(** ** Answers and cancellations *)

Definition resolve_permission (tool_call_id : string) (chosen : option string)
    (by_ : PermissionResolver) (s : Approvals) : Approvals * list Effect :=
  match pending s !! tool_call_id with
  | Some p =>
      let '(decision, resolution) := permission_outcome chosen (options p) in
      ({| pending := delete tool_call_id (pending s);
          channels := oneshot_send decision (responder p) (channels s);
          waiting := waiting s; requests := requests s |},
       [AgentPermissionResolved tool_call_id resolution by_])
  | None => (s, [])
  end.

(** The map is taken and walked in the order [ps]. *)
Definition cancel_pending_permissions (ps : list (string * PendingAgentPermission)) (s : Approvals)
    : Approvals * list Effect :=
  ({| pending := ∅;
      channels := foldl (λ cs p, oneshot_send None (responder p.2) cs) (channels s) ps;
      waiting := waiting s; requests := requests s |},
   (λ p, AgentPermissionResolved p.1 Resolution_Cancelled Resolver_System) <$> ps).

(** [kill]: [handle.pending.lock().unwrap().clear()]. *)
Definition clear_pending (s : Approvals) : Approvals :=
  {| pending := ∅;
     channels := foldl (λ cs p, oneshot_drop (responder p.2) cs) (channels s) (map_to_list (pending s));
     waiting := waiting s; requests := requests s |}.

Definition agent_permission_pending (tool_call_id : string) (s : Approvals) : bool :=
  bool_decide (is_Some (pending s !! tool_call_id)).
Definition has_pending_permission (s : Approvals) : bool := negb (bool_decide (pending s = ∅)).

(** The replay for an attaching viewer, in the order the map is walked. *)
Definition agent_permissions (ps : list (string * PendingAgentPermission))
    : list (ToolCallCard * list PermissionOption * PermissionCategory) :=
  (λ p, (tool_call p.2, options p.2, category p.2)) <$> ps.

(** ** The unscoped answer of older phones, routed by [SessionManager]

    An entry is [None] for a session that is no agent. *)
Definition manager_resolve_permission (tool_call_id : string) (chosen : option string)
    (by_ : PermissionResolver) (sessions : gmap SessionId (option Approvals))
    : gmap SessionId (option Approvals) * list (SessionId * Effect) :=
  let holders :=
    omap (λ e, s ← e.2; if agent_permission_pending tool_call_id s then Some (e.1, s) else None)
      (map_to_list sessions) in
  match holders with
  | [(i, s)] =>
      let '(s', es) := resolve_permission tool_call_id chosen by_ s in
      (<[i := Some s']> sessions, pair i <$> es)
  | _ => (sessions, [])
  end.

(** ** Steps and runs *)
Inductive Action :=
| Request (req : RequestPermissionRequest)
| Answer (tool_call_id : string) (chosen : option string) (by_ : PermissionResolver)
| Cancel
| Kill
| Deadline (r : nat)
| Finish (r : nat).

Inductive step (scope : WorkspaceScope) : Approvals → Action → list Effect → Approvals → Prop :=
| step_request s req s' es :
    receive_request scope req s = (s', es) → step scope s (Request req) es s'
| step_answer s id chosen by_ s' es :
    resolve_permission id chosen by_ s = (s', es) → step scope s (Answer id chosen by_) es s'
| step_cancel s ps s' es :
    ps ≡ₚ map_to_list (pending s) → cancel_pending_permissions ps s = (s', es) →
    step scope s Cancel es s'
| step_kill s : step scope s Kill [] (clear_pending s)
| step_deadline s r s' : deadline r s = Some s' → step scope s (Deadline r) [] s'
| step_finish s r s' es : finish_request r s = Some (s', es) → step scope s (Finish r) es s'.

Abbreviation trace := (list (Action * list Effect)).

Inductive run (scope : WorkspaceScope) : Approvals → trace → Approvals → Prop :=
| run_nil s : run scope s [] s
| run_snoc s tr s' a es s'' :
    run scope s tr s' → step scope s' a es s'' → run scope s (tr ++ [(a, es)]) s''.

(** The steps as a function: a disabled one is skipped. *)
Definition exec_step (scope : WorkspaceScope) (a : Action) (s : Approvals)
    : option (Approvals * list Effect) :=
  match a with
  | Request req => Some (receive_request scope req s)
  | Answer id chosen by_ => Some (resolve_permission id chosen by_ s)
  | Cancel => Some (cancel_pending_permissions (map_to_list (pending s)) s)
  | Kill => Some (clear_pending s, [])
  | Deadline r => (λ s', (s', [])) <$> deadline r s
  | Finish r => finish_request r s
  end.

Fixpoint exec (scope : WorkspaceScope) (acts : list Action) (s : Approvals) (tr : trace)
    : Approvals * trace :=
  match acts with
  | [] => (s, tr)
  | a :: acts =>
      match exec_step scope a s with
      | Some (s', es) => exec scope acts s' (tr ++ [(a, es)])
      | None => exec scope acts s tr
      end
  end.

(** The requests of a trace, in the order of their numbers. *)
Definition requested (tr : trace) : list RequestPermissionRequest :=
  omap (λ a, match a.1 with Request req => Some req | _ => None end) tr.
Definition asked (tr : trace) (r : nat) : option RequestPermissionRequest := requested tr !! r.

(** The requests that were replied to. *)
Definition responded (tr : trace) : list nat :=
  omap (λ e, match e with Respond r _ => Some r | _ => None end) (tr.*2 ≫= id).

(** ** Channels *)
#[local] Arguments settle : simpl never.
#[local] Arguments oneshot_drop : simpl never.
#[local] Arguments oneshot_send : simpl never.
Definition close (c : Oneshot) (o : option Oneshot) : option Oneshot :=
  match o with Some Open => Some c | _ => o end.

Lemma lookup_settle c r cs q :
  settle c r cs !! q = if decide (q = r) then close c (cs !! q) else cs !! q.
Proof.
  unfold settle, close. case_decide as Hq; [subst q|]; destruct (cs !! r) as [[]|] eqn:Hr;
    rewrite ?lookup_insert_eq, ?lookup_insert_ne by done; try done.
Qed.

Lemma lookup_settle_all c (ps : list (string * PendingAgentPermission)) : c ≠ Open → ∀ cs q,
  foldl (λ cs p, settle c (responder p.2) cs) cs ps !! q =
    if decide (q ∈ (λ p, responder p.2) <$> ps) then close c (cs !! q) else cs !! q.
Proof.
  intros Hc. induction ps as [|p ps IH]; intros cs q; simpl; [done|].
  rewrite IH, lookup_settle. repeat case_decide; subst; try set_solver.
  destruct (cs !! _) as [[]|]; simpl; destruct c; done.
Qed.

Lemma lookup_drop_entry o cs q :
  drop_entry o cs !! q =
    if decide (responder <$> o = Some q) then close Dropped (cs !! q) else cs !! q.
Proof.
  destruct o as [p|]; simpl; [|done]. unfold oneshot_drop. rewrite lookup_settle.
  repeat case_decide; congruence.
Qed.

Lemma close_Open c o : c ≠ Open → close c o ≠ Some Open.
Proof. by intros Hc; destruct o as [[]|]; simpl; congruence. Qed.
Lemma close_is_Some c o : is_Some (close c o) ↔ is_Some o.
Proof. destruct o as [[]|]; simpl; split; eauto. Qed.
Lemma settle_is_Some c r cs q : is_Some (settle c r cs !! q) ↔ is_Some (cs !! q).
Proof. rewrite lookup_settle. case_decide; rewrite ?close_is_Some; done. Qed.
Lemma drop_entry_is_Some o cs q : is_Some (drop_entry o cs !! q) ↔ is_Some (cs !! q).
Proof. destruct o; simpl; [apply settle_is_Some|done]. Qed.
Lemma settle_all_is_Some c (ps : list (string * PendingAgentPermission)) cs q :
  is_Some (foldl (λ cs p, settle c (responder p.2) cs) cs ps !! q) ↔ is_Some (cs !! q).
Proof.
  revert cs. induction ps as [|p ps IH]; intros cs; simpl; [done|]. by rewrite IH, settle_is_Some.
Qed.

(** ** The invariant of the state: the map holds exactly the handlers that wait
    on an open channel, and perhaps some whose deadline has just passed *)
Record approvals_inv (s : Approvals) : Prop := {
  inv_entry : ∀ id p, pending s !! id = Some p →
    waiting s !! responder p = Some id ∧
    (channels s !! responder p = Some Open ∨ channels s !! responder p = Some Expired);
  inv_open : ∀ r id, waiting s !! r = Some id → channels s !! r = Some Open →
    ∃ p, pending s !! id = Some p ∧ responder p = r;
  inv_channel : ∀ r, is_Some (waiting s !! r) ↔ is_Some (channels s !! r);
  inv_fresh : ∀ r, is_Some (waiting s !! r) → (r < requests s)%nat;
}.

Lemma approvals_new_inv : approvals_inv approvals_new.
Proof.
  split; simpl; intros *; rewrite ?lookup_empty; try done.
Qed.

(** The entry of a request that the handler surfaces, and the state after. *)
Definition request_entry (r : nat) (req : RequestPermissionRequest) : PendingAgentPermission :=
  {| responder := r; tool_call := request_card req; options := offered_options (req_options req);
     category := request_category req |}.

Definition surfaced (req : RequestPermissionRequest) (s : Approvals) : Approvals :=
  let id := req_tool_call_id req in
  let r := requests s in
  {| pending := <[id := request_entry r req]> (pending s);
     channels := drop_entry (pending s !! id) (<[r := Open]> (channels s));
     waiting := <[r := id]> (waiting s); requests := S r |}.

Definition refused (s : Approvals) : Approvals :=
  {| pending := pending s; channels := channels s; waiting := waiting s; requests := S (requests s) |}.

Lemma receive_request_cases scope req s s' es :
  receive_request scope req s = (s', es) →
  (s' = refused s ∧ ∃ msg, es = [Feed (AgentEvent_Error msg); Respond (requests s) Outcome_Cancelled]) ∨
  (s' = surfaced req s ∧ es = [AgentPermission (request_card req) (offered_options (req_options req))
                                 (request_category req) scope]).
Proof.
  unfold receive_request, surfaced, request_entry. intros H.
  repeat case_match; simplify_eq; eauto.
Qed.

Lemma receive_request_inv scope req s s' es :
  receive_request scope req s = (s', es) → approvals_inv s → approvals_inv s'.
Proof.
  intros Hr Hi. destruct (receive_request_cases _ _ _ _ _ Hr) as [(-> & _)|[-> _]].
  { destruct Hi as [He Ho Hc Hf]. split; simpl; [done..|]. intros r Hw. specialize (Hf r Hw). lia. }
  set (r := requests s). set (id := req_tool_call_id req).
  assert (Hw : waiting s !! r = None).
  { apply eq_None_not_Some. intros Hw%(inv_fresh _ Hi). unfold r in Hw. lia. }
  assert (Hc : channels s !! r = None).
  { apply eq_None_not_Some. rewrite <-(inv_channel _ Hi), Hw. by intros []. }
  assert (Hold : ∀ q, responder <$> pending s !! id = Some q → is_Some (waiting s !! q)).
  { intros q Hq. destruct (pending s !! id) as [o|] eqn:Ho; simplify_eq/=.
    by destruct (inv_entry _ Hi _ _ Ho) as [-> _]. }
  split; simpl; fold r id.
  - intros id' p [[<- <-]|[Hne Hp]]%lookup_insert_Some; simpl; rewrite lookup_drop_entry.
    { rewrite !lookup_insert_eq, decide_False; [auto|]. intros Hq%Hold. rewrite Hw in Hq. by destruct Hq. }
    destruct (inv_entry _ Hi _ _ Hp) as [Hw' Hc'].
    rewrite !lookup_insert_ne by congruence. rewrite decide_False; [done|]. intros Hq.
    destruct (pending s !! id) as [o|] eqn:Ho; simplify_eq/=.
    destruct (inv_entry _ Hi _ _ Ho) as [Hw'' _]. congruence.
  - intros q id'. rewrite lookup_drop_entry. case_decide as Hq.
    { intros _ Ho. by apply close_Open in Ho. }
    intros [[<- <-]|[Hne Hwq]]%lookup_insert_Some.
    { intros _. rewrite lookup_insert_eq. eauto. }
    rewrite lookup_insert_ne by done. intros Hcq.
    destruct (inv_open _ Hi _ _ Hwq Hcq) as (p & Hp & <-). exists p.
    rewrite lookup_insert_ne; [done|]. intros <-. by rewrite Hp in Hq.
  - intros q. rewrite drop_entry_is_Some, !lookup_insert_is_Some, (inv_channel _ Hi). done.
  - intros q [<-|[_ Hwq%(inv_fresh _ Hi)]]%lookup_insert_is_Some; unfold r in *; lia.
Qed.

Lemma resolve_permission_inv id chosen by_ s s' es :
  resolve_permission id chosen by_ s = (s', es) → approvals_inv s → approvals_inv s'.
Proof.
  unfold resolve_permission. intros Hr Hi.
  destruct (pending s !! id) as [p|] eqn:Hp; [|by simplify_eq].
  destruct (permission_outcome chosen (options p)) as [d res]. simplify_eq/=. split; simpl.
  - intros id' q [Hne Hq]%lookup_delete_Some. destruct (inv_entry _ Hi _ _ Hq) as [Hw Hc].
    split; [done|]. unfold oneshot_send. rewrite lookup_settle. case_decide as Hrp; [|done].
    destruct (inv_entry _ Hi _ _ Hp) as [Hw' _]. congruence.
  - intros r id'. unfold oneshot_send. rewrite lookup_settle. case_decide as Hrp.
    { intros _ Ho. by apply close_Open in Ho. }
    intros Hw Ho. destruct (inv_open _ Hi _ _ Hw Ho) as (q & Hq & <-). exists q.
    rewrite lookup_delete_ne; [done|]. intros <-. congruence.
  - intros r. unfold oneshot_send. rewrite settle_is_Some. apply Hi.
  - apply Hi.
Qed.

(** Emptying the map while every sender in it is used or dropped. *)
Lemma emptied_inv c ps s :
  c ≠ Open → ps ≡ₚ map_to_list (pending s) → approvals_inv s →
  approvals_inv {| pending := ∅;
    channels := foldl (λ cs p, settle c (responder p.2) cs) (channels s) ps;
    waiting := waiting s; requests := requests s |}.
Proof.
  intros Hc Hps Hi. split; simpl.
  - intros id p. by rewrite lookup_empty.
  - intros r id Hw. rewrite lookup_settle_all by done. case_decide as Hin.
    { intros Ho. by apply close_Open in Ho. }
    intros Ho. destruct (inv_open _ Hi _ _ Hw Ho) as (p & Hp & <-). destruct Hin.
    apply list_elem_of_fmap. exists (id, p). split; [done|]. rewrite Hps. by apply elem_of_map_to_list.
  - intros r. rewrite settle_all_is_Some. apply Hi.
  - apply Hi.
Qed.

Lemma deadline_inv r s s' : deadline r s = Some s' → approvals_inv s → approvals_inv s'.
Proof.
  unfold deadline. intros Hd Hi. destruct (channels s !! r) as [[]|] eqn:Hr; simplify_eq. split; simpl.
  - intros id p Hp. destruct (inv_entry _ Hi _ _ Hp) as [Hw Hc]. split; [done|].
    destruct (decide (r = responder p)) as [->|]; [|by rewrite lookup_insert_ne].
    rewrite lookup_insert_eq. by right.
  - intros q id Hw [[_ ?]|[_ Ho]]%lookup_insert_Some; [done|]. by eapply inv_open.
  - intros q. rewrite lookup_insert_is_Some, (inv_channel _ Hi).
    destruct (decide (r = q)) as [<-|]; [rewrite Hr; split; eauto|]. split; [auto|intros [?|[_ ?]]; done].
  - apply Hi.
Qed.

Lemma finish_request_cases r s s' es :
  finish_request r s = Some (s', es) →
  ∃ id c d, waiting s !! r = Some id ∧ channels s !! r = Some c ∧ wait_result c = Some d ∧
    s' = {| pending := delete id (pending s);
            channels := delete r (drop_entry (pending s !! id) (channels s));
            waiting := delete r (waiting s); requests := requests s |} ∧
    es = [Respond r (reply d)].
Proof.
  unfold finish_request. intros H. destruct (waiting s !! r) as [id|]; simplify_eq/=.
  destruct (channels s !! r) as [c|]; simplify_eq/=. destruct (wait_result c) eqn:Hd; simplify_eq/=.
  by exists id, c, o.
Qed.

Lemma finish_request_inv r s s' es :
  finish_request r s = Some (s', es) → approvals_inv s → approvals_inv s'.
Proof.
  intros (id & c & d & Hw & Hc & Hd & -> & _)%finish_request_cases Hi.
  split; simpl.
  - intros id' p [Hne Hp]%lookup_delete_Some. destruct (inv_entry _ Hi _ _ Hp) as [Hw' Hc'].
    rewrite !lookup_delete_ne by congruence. split; [done|].
    rewrite lookup_drop_entry, decide_False; [done|]. intros Hq.
    destruct (pending s !! id) as [o|] eqn:Ho; simplify_eq/=.
    destruct (inv_entry _ Hi _ _ Ho) as [Hw'' _]. congruence.
  - intros q id' [Hne Hwq]%lookup_delete_Some. rewrite lookup_delete_ne by done.
    rewrite lookup_drop_entry. case_decide as Hq.
    { intros Ho. by apply close_Open in Ho. }
    intros Hcq. destruct (inv_open _ Hi _ _ Hwq Hcq) as (p & Hp & <-). exists p.
    rewrite lookup_delete_ne; [done|]. intros <-. by rewrite Hp in Hq.
  - intros q. rewrite !lookup_delete_is_Some, drop_entry_is_Some, (inv_channel _ Hi). done.
  - intros q [_ Hwq]%lookup_delete_is_Some. by apply Hi.
Qed.

Lemma step_inv scope s a es s' : step scope s a es s' → approvals_inv s → approvals_inv s'.
Proof.
  intros [] Hi; eauto using receive_request_inv, resolve_permission_inv, deadline_inv, finish_request_inv.
  - match goal with H : cancel_pending_permissions _ _ = _ |- _ => injection H as <- _ end.
    by apply emptied_inv.
  - by apply emptied_inv.
Qed.

Lemma run_inv scope s tr s' : run scope s tr s' → approvals_inv s → approvals_inv s'.
Proof. induction 1; eauto using step_inv. Qed.


(** ** What runs keep of their trace *)
Lemma asked_app tr tr' r q : asked tr r = Some q → asked (tr ++ tr') r = Some q.
Proof. unfold asked, requested. rewrite omap_app. apply lookup_app_l_Some. Qed.

Lemma responded_app tr tr' : responded (tr ++ tr') = responded tr ++ responded tr'.
Proof. unfold responded. by rewrite fmap_app, bind_app, omap_app. Qed.

Definition answered (tr : trace) (id : string) (opt : string) : Prop :=
  ∃ by_ es, (Answer id (Some opt) by_, es) ∈ tr.

(** Some viewer chose an option of the [r]-th request. *)
Definition chosen_in (tr : trace) (r : nat) (opt : string) : Prop :=
  ∃ req, asked tr r = Some req ∧ opt ∈ option_id <$> offered_options (req_options req) ∧
    answered tr (req_tool_call_id req) opt.

Record trace_inv (tr : trace) (s : Approvals) : Prop := {
  tri_requests : requests s = length (requested tr);
  tri_waiting : ∀ r id, waiting s !! r = Some id →
    ∃ req, asked tr r = Some req ∧ req_tool_call_id req = id;
  tri_pending : ∀ id p, pending s !! id = Some p →
    ∃ req, asked tr (responder p) = Some req ∧ p = request_entry (responder p) req;
  tri_sent : ∀ r opt, channels s !! r = Some (Sent (Some opt)) → chosen_in tr r opt;
  tri_responded : ∀ r, r ∈ responded tr ↔ (r < requests s)%nat ∧ waiting s !! r = None;
  tri_once : NoDup (responded tr);
}.

Lemma permission_outcome_offered chosen os opt :
  (permission_outcome chosen os).1 = Some opt → chosen = Some opt ∧ opt ∈ option_id <$> os.
Proof.
  unfold permission_outcome. destruct chosen as [id|]; simpl; [|done].
  destruct (List.find _ os) as [o|] eqn:Hf; simpl; [|done]. intros Hd.
  assert (id = opt) as -> by (destruct (option_kind o); simplify_eq/=; done). split; [done|].
  apply List.find_some in Hf as [Hin Ho]. apply bool_decide_eq_true in Ho. subst.
  apply list_elem_of_fmap. exists o. split; [done|]. by apply list_elem_of_In.
Qed.

Lemma answered_app tr tr' id opt : answered tr id opt → answered (tr ++ tr') id opt.
Proof. intros (b & es & H). exists b, es. apply elem_of_app. by left. Qed.

Lemma chosen_in_app tr tr' r opt : chosen_in tr r opt → chosen_in (tr ++ tr') r opt.
Proof.
  intros (req & Hq & Hin & Ha). exists req. split_and!; [by apply asked_app|done|by apply answered_app].
Qed.

Lemma trace_inv_new : trace_inv [] approvals_new.
Proof.
  split; simpl; intros *; rewrite ?lookup_empty; try done; [|constructor].
  split; [set_solver|intros [? _]; lia].
Qed.

(** A step that neither brings a request nor replies to one. *)
Lemma trace_inv_quiet tr s a es s' :
  requested [(a, es)] = [] → responded [(a, es)] = [] → requests s' = requests s →
  waiting s' = waiting s →
  (∀ id p, pending s' !! id = Some p → pending s !! id = Some p) →
  (∀ r opt, channels s' !! r = Some (Sent (Some opt)) →
    channels s !! r = Some (Sent (Some opt)) ∨ chosen_in (tr ++ [(a, es)]) r opt) →
  trace_inv tr s → trace_inv (tr ++ [(a, es)]) s'.
Proof.
  intros Ha He Hr Hw Hp Hc Hi. split.
  - rewrite Hr, (tri_requests _ _ Hi). unfold requested in *. by rewrite omap_app, Ha, app_nil_r.
  - intros r id Hid. rewrite Hw in Hid. destruct (tri_waiting _ _ Hi _ _ Hid) as (req & Hq & <-).
    eauto using asked_app.
  - intros id p Hid%Hp. destruct (tri_pending _ _ Hi _ _ Hid) as (req & Hq & ->).
    eauto using asked_app.
  - intros r opt [Hs|?]%Hc; [|done]. apply chosen_in_app. by apply Hi.
  - intros r. rewrite responded_app, He, app_nil_r, Hr, Hw. apply Hi.
  - rewrite responded_app, He, app_nil_r. apply Hi.
Qed.

Lemma close_Sent c o opt :
  close c o = Some (Sent (Some opt)) → c = Sent (Some opt) ∧ o = Some Open ∨ o = Some (Sent (Some opt)).
Proof. destruct o as [[]|]; simpl; intros; simplify_eq; auto. Qed.

Lemma trace_inv_answer tr s id chosen by_ s' es :
  resolve_permission id chosen by_ s = (s', es) → approvals_inv s → trace_inv tr s →
  trace_inv (tr ++ [(Answer id chosen by_, es)]) s'.
Proof.
  unfold resolve_permission. intros Hr Hi Ht.
  destruct (pending s !! id) as [p|] eqn:Hp; [|simplify_eq; by apply (trace_inv_quiet _ s'); auto].
  destruct (permission_outcome chosen (options p)) as [d res] eqn:Hd. simplify_eq/=.
  apply (trace_inv_quiet _ s); [done..| | |done]; simpl.
  - by intros id' q [_ Hq]%lookup_delete_Some.
  - intros r opt. unfold oneshot_send. rewrite lookup_settle. case_decide as Hrp; [|auto].
    intros [[[= ->] Ho]|Ho]%close_Sent; [right|auto]. subst r.
    destruct (permission_outcome_offered chosen (options p) opt) as [-> Hin]; [by rewrite Hd|].
    destruct (tri_pending _ _ Ht _ _ Hp) as (req & Hq & Heq). exists req.
    destruct (tri_waiting _ _ Ht (responder p) id) as (req' & Hq' & Hid); [by apply Hi|].
    rewrite Heq in Hin. assert (req' = req) as -> by congruence. rewrite Hid.
    split_and!; [by apply asked_app|done|]. eexists _, _. apply elem_of_app. right. by apply list_elem_of_singleton.
Qed.

Lemma trace_inv_request scope tr s req s' es :
  receive_request scope req s = (s', es) → approvals_inv s → trace_inv tr s →
  trace_inv (tr ++ [(Request req, es)]) s'.
Proof.
  intros Hr Hi Ht. pose proof (tri_requests _ _ Ht) as Hn.
  assert (Hask : asked (tr ++ [(Request req, es)]) (requests s) = Some req).
  { unfold asked, requested in *. rewrite omap_app, Hn. by apply list_lookup_middle. }
  assert (Hlen : length (requested (tr ++ [(Request req, es)])) = S (requests s)).
  { unfold requested in *. rewrite omap_app, length_app, Hn. simpl. lia. }
  assert (Hsent : ∀ r opt, channels s !! r = Some (Sent (Some opt)) →
    chosen_in (tr ++ [(Request req, es)]) r opt).
  { intros r opt Hs. apply chosen_in_app. by apply Ht. }
  destruct (receive_request_cases _ _ _ _ _ Hr) as [(-> & msg & ->)|[-> ->]]; split; simpl.
  - done.
  - intros r id Hid. destruct (tri_waiting _ _ Ht _ _ Hid) as (q & Hq & <-). eauto using asked_app.
  - intros id p Hid. destruct (tri_pending _ _ Ht _ _ Hid) as (q & Hq & ->). eauto using asked_app.
  - done.
  - intros r. rewrite responded_app, elem_of_app, (tri_responded _ _ Ht).
    change (responded [(Request _, _)]) with [requests s]. rewrite list_elem_of_singleton.
    split; [intros [[? ?]| ->]; (split; [lia|])|intros [? ?]]; [done| |].
    + apply eq_None_not_Some. intros Hw%(inv_fresh _ Hi). lia.
    + destruct (decide (r = requests s)); [by right|left]. split; [lia|done].
  - rewrite responded_app. apply NoDup_app. split_and!; [apply Ht| |apply NoDup_singleton].
    intros r Hr' ->%list_elem_of_singleton. apply (tri_responded _ _ Ht) in Hr'. lia.
  - done.
  - intros r id [[<- <-]|[_ Hid]]%lookup_insert_Some; [eauto|].
    destruct (tri_waiting _ _ Ht _ _ Hid) as (q & Hq & <-). eauto using asked_app.
  - intros id p [[<- <-]|[_ Hid]]%lookup_insert_Some; [simpl; eauto|].
    destruct (tri_pending _ _ Ht _ _ Hid) as (q & Hq & ->). eauto using asked_app.
  - intros r opt. rewrite lookup_drop_entry.
    assert (∀ o, <[requests s := Open]> (channels s) !! r = Some o → o = Sent (Some opt) →
      channels s !! r = Some (Sent (Some opt))) as Hold.
    { intros o [[? <-]|[_ ?]]%lookup_insert_Some ?; simplify_eq; done. }
    case_decide; [|eauto]. intros [[? _]|Ho]%close_Sent; [done|eauto].
  - intros r. rewrite responded_app, app_nil_r, (tri_responded _ _ Ht), lookup_insert_None.
    split; intros [? ?]; (split; [lia|]); [split; [done|lia]|naive_solver].
  - rewrite responded_app, app_nil_r. apply Ht.
Qed.

Lemma trace_inv_finish tr s r s' es :
  finish_request r s = Some (s', es) → trace_inv tr s →
  trace_inv (tr ++ [(Finish r, es)]) s'.
Proof.
  intros (id & c & d & Hw & Hc & Hd & -> & ->)%finish_request_cases Ht. split; simpl.
  - rewrite (tri_requests _ _ Ht). unfold requested. by rewrite omap_app, app_nil_r.
  - intros q id' [_ Hid]%lookup_delete_Some.
    destruct (tri_waiting _ _ Ht _ _ Hid) as (req & Hq & <-). eauto using asked_app.
  - intros id' p [_ Hid]%lookup_delete_Some.
    destruct (tri_pending _ _ Ht _ _ Hid) as (req & Hq & ->). eauto using asked_app.
  - intros q opt [_ Hs]%lookup_delete_Some. rewrite lookup_drop_entry in Hs.
    assert (channels s !! q = Some (Sent (Some opt))) as Hs'.
    { case_decide; [|done]. by apply close_Sent in Hs as [[? _]|?]. }
    apply chosen_in_app. by apply Ht.
  - assert (Hlt : (r < requests s)%nat).
    { destruct (tri_waiting _ _ Ht _ _ Hw) as (req & Hq%lookup_lt_Some & _).
      by rewrite (tri_requests _ _ Ht). }
    intros q. rewrite responded_app, elem_of_app, (tri_responded _ _ Ht), lookup_delete_None.
    change (responded [(Finish _, _)]) with [r]. rewrite list_elem_of_singleton. naive_solver.
  - rewrite responded_app. apply NoDup_app. split_and!; [apply Ht| |apply NoDup_singleton].
    intros q Hq ->%list_elem_of_singleton. apply (tri_responded _ _ Ht) in Hq as [_ Hq]. congruence.
Qed.

Lemma run_trace_inv scope tr s :
  run scope approvals_new tr s → approvals_inv s ∧ trace_inv tr s.
Proof.
  intros Hrun. remember approvals_new as s0 eqn:E0.
  induction Hrun as [s|s tr s' a es s'' Hrun IH Hstep]; subst.
  { split; [apply approvals_new_inv|apply trace_inv_new]. }
  destruct (IH eq_refl) as [Hi Ht]. split; [by eapply step_inv|]. destruct Hstep.
  - by eapply trace_inv_request.
  - by eapply trace_inv_answer.
  - match goal with H : cancel_pending_permissions _ _ = _ |- _ => injection H as <- <- end.
    eapply (trace_inv_quiet _ s); [done| |done|done| | |done]; simpl.
    + clear. unfold responded. simpl. rewrite app_nil_r. by induction ps.
    + intros id p. by rewrite lookup_empty.
    + intros r opt. unfold oneshot_send. rewrite lookup_settle_all by done. case_decide; [|auto].
      intros [[? _]|?]%close_Sent; auto; done.
  - eapply (trace_inv_quiet _ s); [done..| | |done]; simpl.
    + intros id p. by rewrite lookup_empty.
    + intros r opt. unfold oneshot_drop. rewrite lookup_settle_all by done. case_decide; [|auto].
      intros [[? _]|?]%close_Sent; auto; done.
  - unfold deadline in *. repeat case_match; simplify_eq. eapply (trace_inv_quiet _ s); [done..| |done]; simpl.
    intros q opt [[_ ?]|[_ ?]]%lookup_insert_Some; [done|auto].
  - by eapply trace_inv_finish.
Qed.

Lemma run_app scope s tr1 s1 tr2 s2 :
  run scope s tr1 s1 → run scope s1 tr2 s2 → run scope s (tr1 ++ tr2) s2.
Proof.
  intros H1 H2. induction H2; [by rewrite app_nil_r|]. rewrite app_assoc. econstructor; eauto.
Qed.

Lemma run_snoc_inv scope s tr x s' :
  run scope s (tr ++ [x]) s' → ∃ s1, run scope s tr s1 ∧ step scope s1 x.1 x.2 s'.
Proof.
  intros Hr. remember (tr ++ [x]) as t eqn:Ht.
  destruct Hr as [|s tr' s1 a es s2 Hrun Hstep]; [by destruct tr|].
  apply app_inj_tail in Ht as [-> <-]. eauto.
Qed.

Lemma run_split scope s tr1 tr2 s' :
  run scope s (tr1 ++ tr2) s' → ∃ s1, run scope s tr1 s1 ∧ run scope s1 tr2 s'.
Proof.
  revert s'. induction tr2 as [|[a es] tr2 IH] using rev_ind; intros s'.
  { rewrite app_nil_r. eauto using run_nil. }
  rewrite app_assoc. intros (s1 & Hrun & Hstep)%run_snoc_inv.
  destruct (IH _ Hrun) as (s2 & ? & ?). eauto using run_snoc.
Qed.

Lemma run_nil_inv scope s s' : run scope s [] s' → s' = s.
Proof. intros H. remember [] as t eqn:Ht. destruct H; [done|by destruct tr]. Qed.

(** A used channel keeps its answer until its handler has taken it. *)
Definition kept (r : nat) (d : option string) (s : Approvals) : Prop :=
  (r < requests s)%nat ∧
  ((channels s !! r = Some (Sent d)) ∨ (channels s !! r = None ∧ waiting s !! r = None)).

Lemma close_kept c d o : o = Some (Sent d) ∨ o = None → close c o = o.
Proof. by intros [-> | ->]. Qed.

Lemma kept_lookup r d s : kept r d s → channels s !! r = Some (Sent d) ∨ channels s !! r = None.
Proof. intros (_ & [?|[? _]]); auto. Qed.

Lemma kept_same r d s s' :
  kept r d s → (requests s ≤ requests s')%nat → waiting s' !! r = waiting s !! r →
  channels s' !! r = channels s !! r → kept r d s'.
Proof. intros [Hr Hc] Hn Hw Hc'. unfold kept. rewrite Hw, Hc'. split; [lia|done]. Qed.

Lemma step_kept scope s a es s' r d : step scope s a es s' → kept r d s → kept r d s'.
Proof.
  intros Hstep Hk. pose proof (kept_lookup _ _ _ Hk) as Hl.
  destruct Hstep as [s req s' es H|s id chosen by_ s' es H|s ps s' es _ H|s|s q s' H|s q s' es H].
  - pose proof Hk as [Hr Hc].
    destruct (receive_request_cases _ _ _ _ _ H) as [(-> & _)|[-> _]];
      (apply (kept_same r d s); [done|simpl; lia|..]; simpl; [|]); try done.
    + by rewrite lookup_insert_ne by lia.
    + rewrite lookup_drop_entry, lookup_insert_ne, (close_kept _ d) by (done || lia). by case_decide.
  - unfold resolve_permission in H. destruct (pending s !! id) as [p|]; [|by simplify_eq].
    destruct (permission_outcome _ _). simplify_eq/=.
    apply (kept_same r d s); [done..|]. simpl. unfold oneshot_send.
    rewrite lookup_settle, (close_kept _ d) by done. by case_decide.
  - injection H as <- _. apply (kept_same r d s); [done..|]. simpl. unfold oneshot_send.
    rewrite lookup_settle_all, (close_kept _ d) by done. by case_decide.
  - apply (kept_same r d s); [done..|]. simpl. unfold oneshot_drop.
    rewrite lookup_settle_all, (close_kept _ d) by done. by case_decide.
  - unfold deadline in H. repeat case_match; simplify_eq.
    apply (kept_same r d s); [done..|]. simpl. rewrite lookup_insert_ne; [done|].
    intros ->. destruct Hl; congruence.
  - apply finish_request_cases in H as (id & c & d' & Hw & Hc & _ & -> & _).
    destruct (decide (q = r)) as [->|Hne].
    + split; simpl; [apply Hk|right]. by rewrite !lookup_delete_eq.
    + apply (kept_same r d s); [done..| |]; simpl; rewrite lookup_delete_ne by done; [done|].
      rewrite lookup_drop_entry, (close_kept _ d) by done. by case_decide.
Qed.

Lemma run_kept scope s tr s' r d : run scope s tr s' → kept r d s → kept r d s'.
Proof. induction 1; eauto using step_kept. Qed.

(** ** Single steps *)
Lemma offered_options_sub opt os :
  opt ∈ option_id <$> offered_options os → opt ∈ acp_option_id <$> os.
Proof.
  unfold offered_options. rewrite !list_elem_of_fmap. intros (o & -> & Ho).
  apply list_elem_of_omap in Ho as (a & Ha & Hin). case_match; simplify_eq/=.
  exists a. split; [done|]. rewrite <-(take_drop MAX_PERMISSION_OPTIONS os). apply elem_of_app. by left.
Qed.

Lemma step_selected scope s a es s' r opt :
  step scope s a es s' → Respond r (Outcome_Selected opt) ∈ es →
  a = Finish r ∧ channels s !! r = Some (Sent (Some opt)).
Proof.
  intros Hstep Hin. destruct Hstep as [s req s' es H|s id chosen by_ s' es H|s ps s' es _ H|s|s q s' H|s q s' es H].
  - destruct (receive_request_cases _ _ _ _ _ H) as [(-> & msg & ->)|[-> ->]]; set_solver.
  - unfold resolve_permission in H. destruct (pending s !! id); [|simplify_eq; set_solver].
    destruct (permission_outcome _ _). simplify_eq. set_solver.
  - injection H as _ <-. apply list_elem_of_fmap in Hin as (? & ? & _). done.
  - set_solver.
  - set_solver.
  - apply finish_request_cases in H as (id & c & d & Hw & Hc & Hd & _ & ->).
    apply list_elem_of_singleton in Hin as [= -> Hr]. split; [done|]. rewrite Hc. f_equal.
    destruct c as [|[]| |]; simplify_eq/=; by simplify_eq.
Qed.

Definition answered_state (id : string) (p : PendingAgentPermission) (d : option string) (s : Approvals)
    : Approvals :=
  {| pending := delete id (pending s); channels := oneshot_send d (responder p) (channels s);
     waiting := waiting s; requests := requests s |}.

Lemma resolve_pending id p chosen by_ d res s :
  pending s !! id = Some p → permission_outcome chosen (options p) = (d, res) →
  resolve_permission id chosen by_ s = (answered_state id p d s, [AgentPermissionResolved id res by_]).
Proof. intros Hp Ho. unfold resolve_permission. by rewrite Hp, Ho. Qed.

Lemma step_answer_inv scope s id chosen by_ es s' p d res :
  step scope s (Answer id chosen by_) es s' → pending s !! id = Some p →
  permission_outcome chosen (options p) = (d, res) →
  es = [AgentPermissionResolved id res by_] ∧ s' = answered_state id p d s.
Proof.
  intros Hstep Hp Ho. inversion Hstep as [|? ? ? ? ? ? H| | | |]; subst.
  rewrite (resolve_pending _ _ _ _ _ _ _ Hp Ho) in H. by simplify_eq.
Qed.

Lemma answered_kept s id p d :
  approvals_inv s → pending s !! id = Some p → channels s !! responder p = Some Open →
  kept (responder p) d (answered_state id p d s).
Proof.
  intros Hi Hp Hc. split; simpl.
  - apply Hi. destruct (inv_entry _ Hi _ _ Hp) as [-> _]. eauto.
  - left. unfold oneshot_send. by rewrite lookup_settle, decide_True, Hc.
Qed.

Lemma step_finish_kept scope s r d es s' :
  kept r d s → step scope s (Finish r) es s' → es = [Respond r (reply d)].
Proof.
  intros Hk Hstep. inversion Hstep as [| | | | |? ? ? ? H]; subst.
  apply finish_request_cases in H as (id & c & d' & Hw & Hc & Hd & _ & ->).
  destruct (kept_lookup _ _ _ Hk); simplify_eq/=. congruence.
Qed.

Lemma finish_steps scope s r id c d :
  waiting s !! r = Some id → channels s !! r = Some c → wait_result c = Some d →
  step scope s (Finish r) [Respond r (reply d)]
    {| pending := delete id (pending s);
       channels := delete r (drop_entry (pending s !! id) (channels s));
       waiting := delete r (waiting s); requests := requests s |}.
Proof. intros Hw Hc Hd. constructor. unfold finish_request. by rewrite Hw; simpl; rewrite Hc; simpl; rewrite Hd. Qed.

Lemma answer_then_finish scope s id p chosen by_ d res :
  approvals_inv s → pending s !! id = Some p → channels s !! responder p = Some Open →
  permission_outcome chosen (options p) = (d, res) →
  ∃ s1 s2, step scope s (Answer id chosen by_) [AgentPermissionResolved id res by_] s1 ∧
    step scope s1 (Finish (responder p)) [Respond (responder p) (reply d)] s2.
Proof.
  intros Hi Hp Hc Ho. eexists _, _. split.
  { constructor. by apply resolve_pending. }
  constructor. unfold finish_request. simpl. destruct (inv_entry _ Hi _ _ Hp) as [-> _]. simpl.
  unfold oneshot_send. rewrite lookup_settle, decide_True, Hc by done. simpl. done.
Qed.

Lemma permission_outcome_spec chosen os :
  match permission_outcome chosen os with
  | (d, Resolution_Allowed) => ∃ o, o ∈ os ∧ reply d = Outcome_Selected (option_id o) ∧
      (option_kind o = AllowOnce ∨ option_kind o = AllowAlways)
  | (d, Resolution_Rejected) => reply d = Outcome_Cancelled ∨
      ∃ o, o ∈ os ∧ reply d = Outcome_Selected (option_id o) ∧
      (option_kind o = RejectOnce ∨ option_kind o = RejectAlways)
  | (d, Resolution_Cancelled) => reply d = Outcome_Cancelled
  end.
Proof.
  unfold permission_outcome. destruct chosen as [id|]; simpl; [|by left].
  destruct (List.find _ os) as [o|] eqn:Hf; simpl; [|done].
  apply List.find_some in Hf as [Hin%list_elem_of_In Ho%bool_decide_eq_true]. subst id.
  destruct (option_kind o) eqn:Hk; simpl; eauto 10.
Qed.

(** ** What the agent is told, and what the viewers are told *)

(** C25 (safety). Whatever requests, answers, cancellations, deadlines and a kill
    interleave: the agent is told that an option was selected only if that option
    is one the request offered and some viewer had chosen exactly it, for the
    request's own tool call, before. *)
Theorem selected_only_if_a_viewer_chose_it scope tr1 a es tr2 s r opt
    (Hrun : run scope approvals_new (tr1 ++ (a, es) :: tr2) s)
    (Hsel : Respond r (Outcome_Selected opt) ∈ es) :
  ∃ req by_ es', asked tr1 r = Some req ∧ opt ∈ acp_option_id <$> req_options req ∧
    (Answer (req_tool_call_id req) (Some opt) by_, es') ∈ tr1.
Proof.
  rewrite cons_middle, app_assoc in Hrun. apply run_split in Hrun as (s2 & Hrun & _).
  apply run_snoc_inv in Hrun as (s1 & Hrun & Hstep). simpl in Hstep.
  destruct (run_trace_inv _ _ _ Hrun) as [Hi Ht].
  destruct (step_selected _ _ _ _ _ _ _ Hstep Hsel) as [_ Hc].
  destruct (tri_sent _ _ Ht _ _ Hc) as (req & Hq & Hin & by_ & es' & Ha).
  exists req, by_, es'. split_and!; [done|by apply offered_options_sub|done].
Qed.

(** Every request is replied to at most once, and one that has no
    reply yet is exactly one whose handler still waits. *)
Theorem every_request_replied_once_or_waiting scope tr s
    (Hrun : run scope approvals_new tr s) :
  NoDup (responded tr) ∧
  ∀ r, r ∈ responded tr ↔ (r < length (requested tr))%nat ∧ waiting s !! r = None.
Proof.
  destruct (run_trace_inv _ _ _ Hrun) as [_ Ht]. split; [apply Ht|].
  rewrite <-(tri_requests _ _ Ht). apply Ht.
Qed.

(** No agent is left behind a prompt that cannot be answered: a
    handler that waits can either finish at once, or its card is still pending,
    and then any answer to it lets the handler finish with that answer. *)
Theorem waiting_request_can_always_be_answered scope tr s r id
    (Hrun : run scope approvals_new tr s) (Hwait : waiting s !! r = Some id) :
  (∃ out s', step scope s (Finish r) [Respond r out] s') ∨
  (agent_permission_pending id s = true ∧
   ∃ req, asked tr r = Some req ∧ req_tool_call_id req = id ∧
   ∀ chosen by_, ∃ d res s1 s2,
     permission_outcome chosen (offered_options (req_options req)) = (d, res) ∧
     step scope s (Answer id chosen by_) [AgentPermissionResolved id res by_] s1 ∧
     step scope s1 (Finish r) [Respond r (reply d)] s2).
Proof.
  destruct (run_trace_inv _ _ _ Hrun) as [Hi Ht].
  destruct (channels s !! r) as [c|] eqn:Hc; last first.
  { apply eq_None_not_Some in Hc. destruct Hc. rewrite <-(inv_channel _ Hi). eauto. }
  destruct (wait_result c) as [d|] eqn:Hd.
  { left. exists (reply d). eexists. constructor. unfold finish_request. rewrite Hwait. simpl.
    rewrite Hc. simpl. by rewrite Hd. }
  assert (c = Open) as -> by (by destruct c). right.
  destruct (inv_open _ Hi _ _ Hwait Hc) as (p & Hp & <-).
  split; [unfold agent_permission_pending; by rewrite Hp|].
  destruct (tri_pending _ _ Ht _ _ Hp) as (req & Hq & Heq). exists req.
  destruct (tri_waiting _ _ Ht _ _ Hwait) as (req' & Hq' & Hid).
  split_and!; [done|congruence|]. intros chosen by_.
  destruct (permission_outcome chosen (offered_options (req_options req))) as [d res] eqn:Ho.
  destruct (answer_then_finish scope s id p chosen by_ d res) as (s1 & s2 & ? & ?); eauto 10.
  rewrite Heq. done.
Qed.

(** While the deadline of the request has not passed, what the
    viewers are told is what the agent will be told, whatever happens in between:
    a card reported as allowed is replied with an option that allows, one
    reported as rejected never with such an option, a cancelled one with a
    cancellation. *)
Theorem report_matches_reply scope tr1 s1 id p chosen by_ es s2 tr2 s3 es' s4
    (Hrun : run scope approvals_new tr1 s1)
    (Hp : pending s1 !! id = Some p) (Hopen : channels s1 !! responder p = Some Open)
    (Hanswer : step scope s1 (Answer id chosen by_) es s2)
    (Hbetween : run scope s2 tr2 s3)
    (Hfinish : step scope s3 (Finish (responder p)) es' s4) :
  ∃ res out, es = [AgentPermissionResolved id res by_] ∧ es' = [Respond (responder p) out] ∧
    match res with
    | Resolution_Allowed => ∃ o, o ∈ options p ∧ out = Outcome_Selected (option_id o) ∧
        (option_kind o = AllowOnce ∨ option_kind o = AllowAlways)
    | Resolution_Rejected => out = Outcome_Cancelled ∨
        ∃ o, o ∈ options p ∧ out = Outcome_Selected (option_id o) ∧
        (option_kind o = RejectOnce ∨ option_kind o = RejectAlways)
    | Resolution_Cancelled => out = Outcome_Cancelled
    end.
Proof.
  destruct (run_trace_inv _ _ _ Hrun) as [Hi _].
  destruct (permission_outcome chosen (options p)) as [d res] eqn:Ho.
  destruct (step_answer_inv _ _ _ _ _ _ _ _ _ _ Hanswer Hp Ho) as [-> ->].
  assert (Hk : kept (responder p) d s3).
  { eapply run_kept; [done|]. by apply answered_kept. }
  exists res, (reply d). split; [done|]. split; [by eapply step_finish_kept|].
  pose proof (permission_outcome_spec chosen (options p)) as Hspec. by rewrite Ho in Hspec.
Qed.

(** The answer of a viewer that comes in between the deadline of the
    request and the clean-up of its entry is announced to every viewer as if it
    had taken effect, and the agent is told the request was cancelled. *)
Theorem late_answer_is_announced_but_lost scope tr s id p chosen by_
    (Hrun : run scope approvals_new tr s)
    (Hp : pending s !! id = Some p) (Hexpired : channels s !! responder p = Some Expired) :
  ∃ s1 s2,
    step scope s (Answer id chosen by_)
      [AgentPermissionResolved id (permission_outcome chosen (options p)).2 by_] s1 ∧
    step scope s1 (Finish (responder p)) [Respond (responder p) Outcome_Cancelled] s2.
Proof.
  destruct (run_trace_inv _ _ _ Hrun) as [Hi _].
  destruct (permission_outcome chosen (options p)) as [d res] eqn:Ho.
  eexists _, _. split; [constructor; by apply resolve_pending|].
  constructor. unfold finish_request. simpl. destruct (inv_entry _ Hi _ _ Hp) as [-> _]. simpl.
  unfold oneshot_send. rewrite lookup_settle, decide_True, Hexpired by done. done.
Qed.

(** A second request under a tool-call id whose first request is
    still pending cancels both: the entry of the first is overwritten, its
    handler wakes and removes the entry of the second. No viewer has answered and
    none is told. *)
Theorem reused_tool_call_id_cancels_both scope tr s id p req s1 es
    (Hrun : run scope approvals_new tr s)
    (Hp : pending s !! id = Some p) (Hopen : channels s !! responder p = Some Open)
    (Hid : req_tool_call_id req = id)
    (Hreq : step scope s (Request req) es s1)
    (Hask : es = [AgentPermission (request_card req) (offered_options (req_options req))
                    (request_category req) scope]) :
  ∃ s2 s3,
    step scope s1 (Finish (responder p)) [Respond (responder p) Outcome_Cancelled] s2 ∧
    step scope s2 (Finish (requests s)) [Respond (requests s) Outcome_Cancelled] s3.
Proof.
  destruct (run_trace_inv _ _ _ Hrun) as [Hi _]. destruct (inv_entry _ Hi _ _ Hp) as [Hw _].
  assert (Hlt : (responder p < requests s)%nat) by (apply Hi; eauto).
  inversion Hreq as [? ? ? ? H| | | | |]; subst.
  destruct (receive_request_cases _ _ _ _ _ H) as [(_ & msg & ?)|[-> _]]; [done|].
  eexists _, _. split.
  - apply (finish_steps _ _ _ (req_tool_call_id req) Dropped None); simpl; [| |done].
    + by rewrite lookup_insert_ne by lia.
    + by rewrite lookup_drop_entry, Hp, decide_True, lookup_insert_ne, Hopen by (done || lia).
  - apply (finish_steps _ _ _ (req_tool_call_id req) Dropped None); simpl; [| |done].
    + by rewrite lookup_delete_ne, lookup_insert_eq by lia.
    + rewrite lookup_delete_ne by lia. rewrite lookup_drop_entry, lookup_insert_eq, decide_True by done.
      rewrite lookup_drop_entry, lookup_insert_eq, Hp, decide_False; [done|].
      simpl. intros Heq. injection Heq. lia.
Qed.

Lemma holders_elem id (sessions : gmap SessionId (option Approvals)) i s :
  (i, s) ∈ omap (λ e, s ← e.2; if agent_permission_pending id s then Some (e.1, s) else None)
            (map_to_list sessions) ↔
  sessions !! i = Some (Some s) ∧ agent_permission_pending id s = true.
Proof.
  rewrite list_elem_of_omap. split.
  - intros ([j o] & Hin%elem_of_map_to_list & He). destruct o as [t|]; simplify_eq/=.
    case_match; by simplify_eq.
  - intros [Hs Hp]. exists (i, Some s). rewrite elem_of_map_to_list. simpl. by rewrite Hp.
Qed.

(** An answer without a session id takes effect only in the one
    agent session that has such a card: with two or more sessions holding the
    id, or none, nothing happens at all; with one, every other session is left
    as it is. *)
Theorem unscoped_answer_needs_a_single_holder id chosen by_ sessions :
  (∃ i s, sessions !! i = Some (Some s) ∧ agent_permission_pending id s = true ∧
    (∀ j t, sessions !! j = Some (Some t) → agent_permission_pending id t = true → j = i) ∧
    manager_resolve_permission id chosen by_ sessions =
      (<[i := Some (resolve_permission id chosen by_ s).1]> sessions,
       pair i <$> (resolve_permission id chosen by_ s).2)) ∨
  (manager_resolve_permission id chosen by_ sessions = (sessions, []) ∧
   ¬ ∃ i s, sessions !! i = Some (Some s) ∧ agent_permission_pending id s = true ∧
     ∀ j t, sessions !! j = Some (Some t) → agent_permission_pending id t = true → j = i).
Proof.
  unfold manager_resolve_permission. pose proof (holders_elem id sessions) as Hh.
  assert (Hnd : NoDup (omap (λ e : SessionId * option Approvals,
      s ← e.2; if agent_permission_pending id s then Some (e.1, s) else None)
    (map_to_list sessions)).*1).
  { pose proof (NoDup_fst_map_to_list sessions) as Hn. revert Hn. clear Hh.
    induction (map_to_list sessions) as [|[i [s|]] l IH]; simpl; intros Hn; [constructor|..];
      apply NoDup_cons in Hn as [Hni Hn]; [|by apply IH].
    destruct (agent_permission_pending id s); [|by apply IH]. simpl. constructor; [|by apply IH].
    intros ([j t] & -> & Ht)%list_elem_of_fmap. apply Hni. simpl.
    apply list_elem_of_omap in Ht as ([k o] & Hk & Hko). apply list_elem_of_fmap. exists (k, o).
    split; [|done]. destruct o; simplify_eq/=. case_match; by simplify_eq. }
  destruct (omap _ _) as [|[i s] [|[j t] l]].
  - right. split; [done|]. intros (i & s & Hs & Hp & _). by apply (elem_of_nil (i, s)), Hh.
  - left. destruct (proj1 (Hh i s)) as [Hs Hp]; [set_solver|]. exists i, s. split_and!; [done|done| |].
    + intros j t Ht Hpt. assert ((j, t) ∈ [(i, s)]) as [= -> ->]%list_elem_of_singleton by by apply Hh. done.
    + by destruct (resolve_permission id chosen by_ s).
  - right. split; [done|]. intros (k & u & _ & _ & Huniq).
    destruct (proj1 (Hh i s)) as [Hs Hp]; [set_solver|].
    destruct (proj1 (Hh j t)) as [Ht Hq]; [set_solver|].
    rewrite (Huniq _ _ Hs Hp), (Huniq _ _ Ht Hq) in Hnd. simpl in Hnd.
    apply NoDup_cons in Hnd as [Hnd _]. set_solver.
Qed.

(** ** The theorems at work *)
Lemma exec_step_step scope a s s' es : exec_step scope a s = Some (s', es) → step scope s a es s'.
Proof.
  destruct a; simpl; intros H; simplify_eq.
  - by constructor.
  - by constructor.
  - by econstructor.
  - by constructor.
  - destruct (deadline r s) eqn:Hd; simplify_eq/=. by constructor.
  - by constructor.
Qed.

Lemma exec_run scope acts : ∀ s0 s tr,
  run scope s0 tr s → run scope s0 (exec scope acts s tr).2 (exec scope acts s tr).1.
Proof.
  induction acts as [|a acts IH]; intros s0 s tr Hr; simpl; [done|].
  destruct (exec_step scope a s) as [[s' es]|] eqn:Ha; [|by apply IH].
  apply IH. econstructor; [done|]. by apply exec_step_step.
Qed.

Module ApprovalExamples.
#[local] Transparent gmap_empty.

Definition write_file (id : string) : RequestPermissionRequest :=
  {| req_tool_call_id := id; req_title := Some "Write main.rs"; req_kind := Some AcpTool_Edit;
     req_options :=
       [{| acp_option_id := "yes"; acp_option_name := "Allow"; acp_option_kind := AcpAllowOnce |};
        {| acp_option_id := "no"; acp_option_name := "Deny"; acp_option_kind := AcpRejectOnce |}] |}.

Definition after (acts : list Action) : Approvals * trace :=
  exec Scope_Project acts approvals_new [].

Lemma after_run acts : run Scope_Project approvals_new (after acts).2 (after acts).1.
Proof. apply exec_run. constructor. Qed.

Definition answered_acts : list Action :=
  [Request (write_file "t1"); Answer "t1" (Some "yes") Resolver_Phone; Finish 0].

Lemma selected_witness : ∃ req by_ es',
  asked (take 2 (after answered_acts).2) 0 = Some req ∧ "yes" ∈ acp_option_id <$> req_options req ∧
  (Answer (req_tool_call_id req) (Some "yes") by_, es') ∈ take 2 (after answered_acts).2.
Proof.
  apply (selected_only_if_a_viewer_chose_it Scope_Project (take 2 (after answered_acts).2)
    (Finish 0) [Respond 0 (Outcome_Selected "yes")] [] (after answered_acts).1 0 "yes").
  - exact (after_run answered_acts).
  - apply list_elem_of_singleton. reflexivity.
Defined.

Lemma replied_once_witness :
  NoDup (responded (after answered_acts).2) ∧
  ∀ r, r ∈ responded (after answered_acts).2 ↔
    (r < length (requested (after answered_acts).2))%nat ∧
    waiting (after answered_acts).1 !! r = None.
Proof.
  exact (every_request_replied_once_or_waiting Scope_Project _ _ (after_run answered_acts)).
Defined.

(** One request on the screen. *)
Definition asked_state : Approvals := (after [Request (write_file "t1")]).1.
Definition asked_trace : trace := (after [Request (write_file "t1")]).2.
Definition card0 : PendingAgentPermission := request_entry 0 (write_file "t1").

Lemma waiting_witness :
  (∃ out s', step Scope_Project asked_state (Finish 0) [Respond 0 out] s') ∨
  (agent_permission_pending "t1" asked_state = true ∧
   ∃ req, asked asked_trace 0 = Some req ∧ req_tool_call_id req = "t1"%string ∧
   ∀ chosen by_, ∃ d res s1 s2,
     permission_outcome chosen (offered_options (req_options req)) = (d, res) ∧
     step Scope_Project asked_state (Answer "t1" chosen by_) [AgentPermissionResolved "t1" res by_] s1 ∧
     step Scope_Project s1 (Finish 0) [Respond 0 (reply d)] s2).
Proof.
  apply (waiting_request_can_always_be_answered Scope_Project asked_trace asked_state 0 "t1").
  - exact (after_run [Request (write_file "t1")]).
  - by_vm.
Defined.

Definition yes_state : Approvals := (resolve_permission "t1" (Some "yes"%string) Resolver_Phone asked_state).1.
Definition yes_done : Approvals :=
  (default (yes_state, []) (finish_request 0 (clear_pending yes_state))).1.

(** The answer of a phone, then a kill, then the handler wakes. *)
Lemma report_witness : ∃ res out,
  [AgentPermissionResolved "t1" Resolution_Allowed Resolver_Phone] =
    [AgentPermissionResolved "t1" res Resolver_Phone] ∧
  [Respond 0 (Outcome_Selected "yes")] = [Respond (responder card0) out] ∧
  match res with
  | Resolution_Allowed => ∃ o, o ∈ options card0 ∧ out = Outcome_Selected (option_id o) ∧
      (option_kind o = AllowOnce ∨ option_kind o = AllowAlways)
  | Resolution_Rejected => out = Outcome_Cancelled ∨
      ∃ o, o ∈ options card0 ∧ out = Outcome_Selected (option_id o) ∧
      (option_kind o = RejectOnce ∨ option_kind o = RejectAlways)
  | Resolution_Cancelled => out = Outcome_Cancelled
  end.
Proof.
  apply (report_matches_reply Scope_Project asked_trace asked_state "t1" card0 (Some "yes"%string)
    Resolver_Phone _ yes_state [(Kill, [])] (clear_pending yes_state) _ yes_done).
  - exact (after_run [Request (write_file "t1")]).
  - by_vm.
  - by_vm.
  - constructor. by_vm.
  - apply (run_snoc _ _ [] yes_state); constructor.
  - constructor. by_vm.
Defined.

(** The deadline passes, the phone answers before the entry is cleaned up. *)
Definition late_state : Approvals := (after [Request (write_file "t1"); Deadline 0]).1.

Lemma late_answer_witness : ∃ s1 s2,
  step Scope_Project late_state (Answer "t1" (Some "yes"%string) Resolver_Phone)
    [AgentPermissionResolved "t1" Resolution_Allowed Resolver_Phone] s1 ∧
  step Scope_Project s1 (Finish 0) [Respond 0 Outcome_Cancelled] s2.
Proof.
  apply (late_answer_is_announced_but_lost Scope_Project
    (after [Request (write_file "t1"); Deadline 0]).2 late_state "t1" card0 (Some "yes"%string)
    Resolver_Phone).
  - exact (after_run [Request (write_file "t1"); Deadline 0]).
  - by_vm.
  - by_vm.
Defined.

Lemma reused_id_witness : ∃ s2 s3,
  step Scope_Project (receive_request Scope_Project (write_file "t1") asked_state).1 (Finish 0)
    [Respond 0 Outcome_Cancelled] s2 ∧
  step Scope_Project s2 (Finish 1) [Respond 1 Outcome_Cancelled] s3.
Proof.
  apply (reused_tool_call_id_cancels_both Scope_Project asked_trace asked_state "t1" card0
    (write_file "t1") (receive_request Scope_Project (write_file "t1") asked_state).1
    (receive_request Scope_Project (write_file "t1") asked_state).2).
  - exact (after_run [Request (write_file "t1")]).
  - by_vm.
  - by_vm.
  - reflexivity.
  - constructor. apply surjective_pairing.
  - by_vm.
Defined.
End ApprovalExamples.
