(* ===== verification/Timestamps.v ===== *)
(** * Timestamps: when a conversation was last touched

    [crates/host/src/session.rs]: [unix_ms_from_rfc3339] and [days_from_civil].
    The date arithmetic is compared with a calendar that counts years, months and
    days one by one, and the parser with what JavaScript's [toISOString] prints. *)

From S2P Require Import Prelude Utf8.

(** ** Text *)

Definition is_ascii_digit (b : Z) : bool := (48 <=? b) && (b <=? 57).

(** The value of decimal digits. *)
Definition digits_value (ds : list Z) : Z := foldl (λ n d, n * 10 + (d - 48)) 0 ds.

(** [str::parse::<i64>]: one sign, then at least one digit and nothing else. *)
Definition parse_i64 (s : list Z) : option Z :=
  let digits (neg : bool) ds :=
    if bool_decide (ds = []) || negb (forallb is_ascii_digit ds) then None
    else let v := if neg then - digits_value ds else digits_value ds in
         if (- 2 ^ 63 <=? v) && (v <=? 2 ^ 63 - 1) then Some v else None in
  match s with
  | c :: ds => if c =? 43 then digits false ds else if c =? 45 then digits true ds else digits false s
  | [] => None
  end.

(** ** Dates *)
Definition days_from_civil (year month day : Z) : Z :=
  let year := year - (if month <=? 2 then 1 else 0) in
  let era := Z.quot (if 0 <=? year then year else year - 399) 400 in
  let year_of_era := year - era * 400 in
  let day_of_year :=
    Z.quot (153 * (month + (if 2 <? month then -3 else 9)) + 2) 5 + day - 1 in
  let day_of_era :=
    year_of_era * 365 + Z.quot year_of_era 4 - Z.quot year_of_era 100 + day_of_year in
  era * 146097 + day_of_era - 719468.

(** ** The parser *)

(** [number(a..b)]: digits only. *)
Definition number (s : list Z) (a b : nat) : option Z :=
  let slice := take (b - a) (drop a s) in
  if (length slice <? b - a)%nat || negb (forallb is_ascii_digit slice) then None
  else parse_i64 slice.

Definition byte_is (s : list Z) (i : nat) (b : Z) : bool := bool_decide (s !! i = Some b).

Fixpoint take_digits (s : list Z) : list Z :=
  match s with
  | c :: s' => if is_ascii_digit c then c :: take_digits s' else []
  | [] => []
  end.

(** The fraction, as milliseconds, and what follows it. *)
Definition parse_fraction (rest : list Z) : option (Z * list Z) :=
  match rest with
  | c :: fraction =>
      if c =? 46 then
        let digits := take_digits fraction in
        if bool_decide (digits = []) then None
        else
          let padded := take 3 digits in
          let padded := padded ++ replicate (3 - length padded) 48 in
          millis ← parse_i64 padded;
          Some (millis, drop (1 + length digits) rest)
      else Some (0, rest)
  | [] => Some (0, rest)
  end.

(** The zone, as minutes east of Greenwich. *)
Definition parse_offset (rest : list Z) : option Z :=
  match rest with
  | sign :: _ =>
      if ((sign =? 90) || (sign =? 122)) && (length rest =? 1)%nat then Some 0
      else if ((sign =? 43) || (sign =? 45)) && (length rest =? 6)%nat && byte_is rest 3 58 then
        hours ← parse_i64 (take 2 (drop 1 rest));
        minutes ← parse_i64 (take 2 (drop 4 rest));
        if (23 <? hours) || (59 <? minutes) then None
        else let magnitude := hours * 60 + minutes in
             Some (if sign =? 45 then - magnitude else magnitude)
      else None
  | [] => None
  end.

Definition checked_i64 (z : Z) : option Z :=
  if (- 2 ^ 63 <=? z) && (z <=? 2 ^ 63 - 1) then Some z else None.

Definition unix_ms_from_rfc3339 (text : chars) : option Z :=
  let s := trim text ≫= utf8_encode in
  if (length s <? 20)%nat
     || negb (byte_is s 10 84 || byte_is s 10 116 || byte_is s 10 32) then None
  else if negb (byte_is s 4 45 && byte_is s 7 45 && byte_is s 13 58 && byte_is s 16 58) then None
  else
    year ← number s 0 4;
    month ← number s 5 7;
    day ← number s 8 10;
    hour ← number s 11 13;
    minute ← number s 14 16;
    second ← number s 17 19;
    if negb ((1 <=? month) && (month <=? 12)) || negb ((1 <=? day) && (day <=? 31))
       || (23 <? hour) || (59 <? minute) || (60 <? second) then None
    else
      '(millis, rest) ← parse_fraction (drop 19 s);
      offset_minutes ← parse_offset rest;
      let days := days_from_civil year month day in
      let seconds := days * 86400 + hour * 3600 + minute * 60 + second - offset_minutes * 60 in
      ms ← checked_i64 (seconds * 1000);
      ms ← checked_i64 (ms + millis);
      if 0 <=? ms then Some ms else None.

(** ** A calendar that counts *)
Definition leap (y : Z) : bool := (y mod 4 =? 0) && (negb (y mod 100 =? 0) || (y mod 400 =? 0)).
Definition days_in_month (y m : Z) : Z :=
  if m =? 2 then (if leap y then 29 else 28)
  else if (m =? 4) || (m =? 6) || (m =? 9) || (m =? 11) then 30 else 31.
Definition days_in_year (y : Z) : Z := if leap y then 366 else 365.

(** Days from 1970-01-01 to the first of a year, and from there to the first of a month. *)
Fixpoint days_before_year (n : nat) : Z :=
  match n with O => 0 | S n => days_before_year n + days_in_year (1970 + Z.of_nat n) end.
Fixpoint days_before_month (y : Z) (n : nat) : Z :=
  match n with O => 0 | S n => days_before_month y n + days_in_month y (1 + Z.of_nat n) end.

Definition valid_date (y m d : Z) : Prop := 1 <= m <= 12 ∧ 1 <= d <= days_in_month y m.

Definition calendar_days (y m d : Z) : Z :=
  days_before_year (Z.to_nat (y - 1970)) + days_before_month y (Z.to_nat (m - 1)) + (d - 1).

(** Days up to a year that starts in March, and the leap day in those terms. *)
Definition march_days (y : Z) : Z := 365 * y + y / 4 - y / 100 + y / 400.

Lemma leap_march y : march_days y - march_days (y - 1) = (if leap y then 366 else 365).
Proof.
  unfold march_days, leap.
  destruct (Z.eqb_spec (y mod 4) 0), (Z.eqb_spec (y mod 100) 0), (Z.eqb_spec (y mod 400) 0); simpl;
    Z.to_euclidean_division_equations; lia.
Qed.

Lemma days_from_civil_march y m d : 0 <= y - (if m <=? 2 then 1 else 0) → 1 <= m →
  days_from_civil y m d =
    march_days (y - (if m <=? 2 then 1 else 0))
    + (153 * (m + (if 2 <? m then -3 else 9)) + 2) / 5 + d - 719469.
Proof.
  intros Hy Hm. unfold days_from_civil, march_days. set (Y := y - _) in *.
  rewrite (proj2 (Z.leb_le 0 Y)) by lia.
  set (k := m + _). assert (0 <= k) by (unfold k; destruct (Z.ltb_spec 2 m); lia).
  rewrite (Z.quot_div_nonneg Y 400) by lia.
  assert (0 <= Y - Y / 400 * 400) by (Z.to_euclidean_division_equations; lia).
  rewrite !Z.quot_div_nonneg by lia. Z.to_euclidean_division_equations; lia.
Qed.
Lemma days_before_month_spec y n : (n < 12)%nat →
  days_before_month y n =
    let m := 1 + Z.of_nat n in
    (153 * (m + (if 2 <? m then -3 else 9)) + 2) / 5 - 306 + (if m <=? 2 then 0 else days_in_year y).
Proof.
  intros Hn. do 12 (destruct n as [|n]; [unfold days_in_year; cbn -[Z.add Z.mul Z.div]; unfold days_in_month; simpl;
    destruct (leap y); reflexivity|]). lia.
Qed.

Lemma march_days_year n :
  march_days (1970 + Z.of_nat n - 1) = 719162 + days_before_year n.
Proof.
  induction n as [|n IH]; [reflexivity|]. cbn [days_before_year]. unfold days_in_year.
  rewrite <-leap_march, Z.add_assoc, <-IH. replace (1970 + Z.of_nat (S n) - 1) with (1970 + Z.of_nat n) by lia.
  lia.
Qed.

Lemma days_from_civil_is_calendar y m d :
  1970 <= y → 1 <= m <= 12 → days_from_civil y m d = calendar_days y m d.
Proof.
  intros Hy Hm. unfold calendar_days. pose proof (march_days_year (Z.to_nat (y - 1970))) as Hyear.
  pose proof (days_before_month_spec y (Z.to_nat (m - 1)) ltac:(lia)) as Hmonth.
  replace (1970 + Z.of_nat (Z.to_nat (y - 1970)) - 1) with (y - 1) in Hyear by lia.
  replace (1 + Z.of_nat (Z.to_nat (m - 1))) with m in Hmonth by lia. cbv zeta in Hmonth.
  pose proof (leap_march y) as Hleap. fold (days_in_year y) in Hleap.
  rewrite days_from_civil_march by (destruct (m <=? 2); lia).
  destruct (m <=? 2); [|replace (y - 0) with y by lia]; lia.
Qed.

(** The date arithmetic is the calendar: for every date from
    1970 on, of whatever length its month, the number it gives is what counting
    the days of the years and months before it gives. *)
Theorem days_from_civil_is_the_calendar y m d (Hy : 1970 <= y) (Hm : 1 <= m <= 12) :
  days_from_civil y m d = calendar_days y m d.
Proof. by apply days_from_civil_is_calendar. Qed.

(** ** Printed timestamps *)
Definition dec2 (z : Z) : list Z := [48 + z / 10; 48 + z mod 10].
Definition dec4 (z : Z) : list Z :=
  [48 + z / 1000; 48 + z / 100 mod 10; 48 + z / 10 mod 10; 48 + z mod 10].

(** A zone: [Z], or hours and minutes east or west of Greenwich. *)
Inductive Zone := Zulu | Zone_East (hours minutes : Z) | Zone_West (hours minutes : Z).
Definition zone_minutes (z : Zone) : Z :=
  match z with Zulu => 0 | Zone_East h m => h * 60 + m | Zone_West h m => - (h * 60 + m) end.
Definition zone_ok (z : Zone) : Prop :=
  match z with Zulu => True | Zone_East h m | Zone_West h m => 0 <= h <= 23 ∧ 0 <= m <= 59 end.
Definition print_zone (z : Zone) : chars :=
  match z with
  | Zulu => [90]
  | Zone_East h m => 43 :: dec2 h ++ 58 :: dec2 m
  | Zone_West h m => 45 :: dec2 h ++ 58 :: dec2 m
  end.

Definition print_fraction (digits : list Z) : chars :=
  if bool_decide (digits = []) then [] else 46 :: digits.
(** The fraction in whole milliseconds, the digits beyond dropped. *)
Definition fraction_ms (digits : list Z) : Z :=
  digits_value (take 3 digits ++ replicate (3 - length (take 3 digits)) 48).

Definition print_rfc3339 (y mo d h mi sec : Z) (digits : list Z) (z : Zone) : chars :=
  dec4 y ++ 45 :: dec2 mo ++ 45 :: dec2 d ++ 84 :: dec2 h ++ 58 :: dec2 mi ++ 58 :: dec2 sec
  ++ print_fraction digits ++ print_zone z.

Definition digit (c : Z) : Prop := 48 <= c <= 57.

Lemma digit_is c : digit c → is_ascii_digit c = true.
Proof. unfold digit, is_ascii_digit. intros. apply andb_true_intro. split; apply Z.leb_le; lia. Qed.

Lemma dec2_digits z : 0 <= z <= 99 → Forall digit (dec2 z).
Proof. intros. unfold dec2, digit. repeat constructor; Z.to_euclidean_division_equations; lia. Qed.
Lemma dec4_digits z : 0 <= z <= 9999 → Forall digit (dec4 z).
Proof. intros. unfold dec4, digit. repeat constructor; Z.to_euclidean_division_equations; lia. Qed.
Lemma dec2_value z : digits_value (dec2 z) = z.
Proof. unfold digits_value, dec2. simpl. Z.to_euclidean_division_equations; lia. Qed.
Lemma dec4_value z : digits_value (dec4 z) = z.
Proof. unfold digits_value, dec4. simpl. Z.to_euclidean_division_equations; lia. Qed.

Lemma forallb_digits ds : Forall digit ds → forallb is_ascii_digit ds = true.
Proof. intros H. apply forallb_forall. intros c Hc%list_elem_of_In. rewrite Forall_forall in H. by apply digit_is, H. Qed.

Lemma digits_value_bound ds : Forall digit ds → 0 <= digits_value ds < 10 ^ Z.of_nat (length ds).
Proof.
  induction ds as [|d ds IH] using rev_ind; intros H; [by cbn|].
  apply Forall_app in H as [Hds Hd]. rewrite Forall_singleton in Hd. destruct (IH Hds) as [H0 H1].
  unfold digits_value in *. rewrite foldl_app, length_app. simpl.
  rewrite Nat2Z.inj_add, Z.pow_add_r by lia. unfold digit in Hd.
  change (10 ^ Z.of_nat 1) with 10. lia.
Qed.

Lemma parse_digits ds :
  Forall digit ds → ds ≠ [] → (length ds <= 4)%nat → parse_i64 ds = Some (digits_value ds).
Proof.
  intros Hd Hne Hl. pose proof (digits_value_bound ds Hd) as Hb.
  assert (10 ^ Z.of_nat (length ds) <= 10 ^ 4) by (apply Z.pow_le_mono_r; lia).
  assert (Hgo : (if bool_decide (ds = []) || negb (forallb is_ascii_digit ds) then None
    else if (- 2 ^ 63 <=? digits_value ds) && (digits_value ds <=? 2 ^ 63 - 1)
         then Some (digits_value ds) else None) = Some (digits_value ds)).
  { rewrite bool_decide_eq_false_2, forallb_digits by done. simpl orb. cbv iota.
    rewrite (proj2 (Z.leb_le _ _)), (proj2 (Z.leb_le _ _)) by lia. done. }
  unfold parse_i64. destruct ds as [|c ds]; [done|].
  assert (digit c) as Hc by (by apply Forall_cons in Hd as [? _]). unfold digit in Hc.
  by rewrite (proj2 (Z.eqb_neq c 43)), (proj2 (Z.eqb_neq c 45)) by lia.
Qed.

Lemma trim_id c s e :
  is_whitespace c = false → is_whitespace e = false → trim (c :: s ++ [e]) = c :: s ++ [e].
Proof.
  intros Hc He. unfold trim. cbn [trim_start]. rewrite Hc.
  rewrite reverse_cons, reverse_snoc. cbn [trim_start app]. rewrite He.
  by rewrite reverse_cons, reverse_snoc, reverse_involutive.
Qed.

Lemma encode_ascii s : Forall (λ c, c < 128) s → s ≫= utf8_encode = s.
Proof.
  induction 1 as [|c s Hc _ IH]; [done|]. rewrite bind_cons, IH. unfold utf8_encode.
  by rewrite (proj2 (Z.ltb_lt _ _)).
Qed.

Lemma number_digits pre ds post :
  Forall digit ds → ds ≠ [] → (length ds <= 4)%nat →
  number (pre ++ ds ++ post) (length pre) (length pre + length ds) = Some (digits_value ds).
Proof.
  intros Hd Hne Hl. unfold number. replace (length pre + length ds - length pre)%nat with (length ds) by lia.
  rewrite drop_app_length, take_app_length, Nat.ltb_irrefl, forallb_digits by done.
  by apply parse_digits.
Qed.

Lemma take_digits_app ds rest :
  Forall digit ds → match rest with c :: _ => is_ascii_digit c = false | [] => True end →
  take_digits (ds ++ rest) = ds.
Proof.
  intros Hd Hr. induction Hd as [|d ds Hd _ IH]; simpl.
  - destruct rest as [|c rest]; simpl; [done|]. by rewrite Hr.
  - rewrite (digit_is d Hd). by rewrite IH.
Qed.

Lemma parse_fraction_print digits rest :
  Forall digit digits →
  match rest with c :: _ => is_ascii_digit c = false ∧ c ≠ 46 | [] => True end →
  parse_fraction (print_fraction digits ++ rest) =
    Some (if bool_decide (digits = []) then 0 else fraction_ms digits, rest).
Proof.
  intros Hd Hr. unfold print_fraction. case_bool_decide as Hne.
  - simpl. unfold parse_fraction. destruct rest as [|c rest]; [done|].
    by rewrite (proj2 (Z.eqb_neq c 46)) by tauto.
  - simpl app. unfold parse_fraction. rewrite Z.eqb_refl, take_digits_app; [|done|].
    2: { destruct rest; [done|tauto]. }
    rewrite bool_decide_eq_false_2 by done. cbv zeta.
    rewrite parse_digits.
    + simpl. do 2 f_equal. by rewrite drop_app_length.
    + apply Forall_app. split; [by apply Forall_take|]. apply Forall_replicate. unfold digit. lia.
    + by destruct digits.
    + rewrite length_app, length_replicate, length_take. lia.
Qed.

Lemma parse_offset_print z : zone_ok z → parse_offset (print_zone z) = Some (zone_minutes z).
Proof.
  assert (Hgo : ∀ h m, 0 <= h <= 23 ∧ 0 <= m <= 59 →
    parse_i64 (dec2 h) = Some h ∧ parse_i64 (dec2 m) = Some m ∧ (23 <? h) || (59 <? m) = false).
  { intros h m [Hh Hm]. rewrite !parse_digits, !dec2_value by (apply dec2_digits || done || simpl; lia).
    split_and!; [done|done|]. apply orb_false_intro; apply Z.ltb_ge; lia. }
  assert (Hsig : ∀ g h m, g = 43 ∨ g = 45 → 0 <= h <= 23 ∧ 0 <= m <= 59 →
    parse_offset (g :: dec2 h ++ 58 :: dec2 m) =
      Some (if g =? 45 then - (h * 60 + m) else h * 60 + m)).
  { intros g h m Hg (Hh & Hm & Hr)%Hgo.
    transitivity (hours ← parse_i64 (dec2 h); minutes ← parse_i64 (dec2 m);
      if (23 <? hours) || (59 <? minutes) then None
      else let magnitude := hours * 60 + minutes in
           Some (if g =? 45 then - magnitude else magnitude)).
    - by destruct Hg as [-> | ->].
    - rewrite Hh, Hm. simpl. by rewrite Hr. }
  destruct z as [|h m|h m]; [done|..]; intros Hz; apply Hsig; auto.
Qed.

(** What the parser makes of its fields once they are read. *)
Definition ms_of (y mo d h mi sec frac offset : Z) : option Z :=
  let seconds := days_from_civil y mo d * 86400 + h * 3600 + mi * 60 + sec - offset * 60 in
  ms ← checked_i64 (seconds * 1000);
  ms ← checked_i64 (ms + frac);
  if 0 <=? ms then Some ms else None.

Lemma checked_i64_ok z : - 10 ^ 18 <= z <= 10 ^ 18 → checked_i64 z = Some z.
Proof.
  intros Hz. unfold checked_i64.
  by rewrite (proj2 (Z.leb_le (- 2 ^ 63) z)), (proj2 (Z.leb_le z (2 ^ 63 - 1))) by lia.
Qed.

Lemma ms_of_range y mo d h mi sec frac offset :
  1970 <= y <= 9999 → 1 <= mo <= 12 → 1 <= d <= 31 → 0 <= h <= 23 → 0 <= mi <= 59 → 0 <= sec <= 60 →
  0 <= frac <= 999 → - 1439 <= offset <= 1439 →
  ms_of y mo d h mi sec frac offset =
    let ms := (calendar_days y mo d * 86400 + h * 3600 + mi * 60 + sec - offset * 60) * 1000 + frac in
    if 0 <=? ms then Some ms else None.
Proof.
  intros Hy Hmo Hd Hh Hmi Hs Hf Ho. unfold ms_of.
  assert (Hdays : -719469 <= days_from_civil y mo d <= 4000000).
  { rewrite days_from_civil_march by (destruct (mo <=? 2); lia). unfold march_days.
    destruct (mo <=? 2), (Z.ltb_spec 2 mo); Z.to_euclidean_division_equations; lia. }
  rewrite <-days_from_civil_is_calendar by lia.
  cbv zeta. rewrite checked_i64_ok by lia. simpl. by rewrite checked_i64_ok by lia.
Qed.

Lemma fraction_ms_range digits : Forall digit digits → 0 <= fraction_ms digits <= 999.
Proof.
  intros Hd. unfold fraction_ms. set (ds := _ ++ _).
  assert (Forall digit ds) as H.
  { apply Forall_app. split; [by apply Forall_take|]. apply Forall_replicate. unfold digit. lia. }
  assert (length ds = 3%nat) as Hl.
  { unfold ds. rewrite length_app, length_replicate, length_take. lia. }
  apply digits_value_bound in H. rewrite Hl in H. change (10 ^ Z.of_nat 3) with 1000 in H. lia.
Qed.

Lemma digit_not_space c : digit c → is_whitespace c = false.
Proof.
  unfold digit. intros Hc.
  assert (c = 48 ∨ c = 49 ∨ c = 50 ∨ c = 51 ∨ c = 52 ∨ c = 53 ∨ c = 54 ∨ c = 55 ∨ c = 56 ∨ c = 57)
    as Hd by lia.
  by repeat destruct Hd as [-> | Hd]; subst.
Qed.

Lemma print_zone_ends z : zone_ok z → ∃ pre e, print_zone z = pre ++ [e] ∧ is_whitespace e = false.
Proof.
  assert (Hd : ∀ m, 0 <= m <= 59 → is_whitespace (48 + m mod 10) = false).
  { intros m Hm. apply digit_not_space. unfold digit. Z.to_euclidean_division_equations; lia. }
  destruct z as [|h m|h m]; intros Hz.
  - by exists [], 90.
  - exists (43 :: dec2 h ++ [58; 48 + m / 10]), (48 + m mod 10). split; [done|apply Hd, Hz].
  - exists (45 :: dec2 h ++ [58; 48 + m / 10]), (48 + m mod 10). split; [done|apply Hd, Hz].
Qed.

(** The nineteen characters before the fraction. *)
Definition print_head (y mo d h mi sec : Z) : chars :=
  dec4 y ++ 45 :: dec2 mo ++ 45 :: dec2 d ++ 84 :: dec2 h ++ 58 :: dec2 mi ++ 58 :: dec2 sec.

Definition fields_ok (y mo d h mi sec : Z) : Prop :=
  1970 <= y <= 9999 ∧ 1 <= mo <= 12 ∧ 1 <= d <= 31 ∧ 0 <= h <= 23 ∧ 0 <= mi <= 59 ∧ 0 <= sec <= 60.

Lemma head_numbers y mo d h mi sec tail (s := print_head y mo d h mi sec ++ tail) :
  fields_ok y mo d h mi sec →
  number s 0 4 = Some y ∧ number s 5 7 = Some mo ∧ number s 8 10 = Some d ∧
  number s 11 13 = Some h ∧ number s 14 16 = Some mi ∧ number s 17 19 = Some sec.
Proof.
  intros (Hy & Hmo & Hd & Hh & Hmi & Hs).
  assert (H2 : ∀ z pre post, 0 <= z <= 60 ∨ 0 <= z <= 99 →
    number (pre ++ dec2 z ++ post) (length pre) (length pre + 2) = Some z).
  { intros z pre post Hz. transitivity (Some (digits_value (dec2 z))); [|by rewrite dec2_value]. apply (number_digits pre (dec2 z)); [|done|simpl; lia].
    apply dec2_digits. lia. }
  split_and!.
  - transitivity (Some (digits_value (dec4 y))); [|by rewrite dec4_value]. apply (number_digits [] (dec4 y)); [|done|simpl; lia]. apply dec4_digits. lia.
  - apply (H2 mo (dec4 y ++ [45]) (45 :: _)). lia.
  - apply (H2 d (dec4 y ++ 45 :: dec2 mo ++ [45]) (84 :: _)). lia.
  - apply (H2 h (dec4 y ++ 45 :: dec2 mo ++ 45 :: dec2 d ++ [84]) (58 :: _)). lia.
  - apply (H2 mi (dec4 y ++ 45 :: dec2 mo ++ 45 :: dec2 d ++ 84 :: dec2 h ++ [58]) (58 :: _)). lia.
  - apply (H2 sec (dec4 y ++ 45 :: dec2 mo ++ 45 :: dec2 d ++ 84 :: dec2 h ++ 58 :: dec2 mi ++ [58]) tail). lia.
Qed.

Lemma print_rfc3339_split y mo d h mi sec digits z :
  print_rfc3339 y mo d h mi sec digits z =
    print_head y mo d h mi sec ++ print_fraction digits ++ print_zone z.
Proof. done. Qed.

Lemma digits_ascii ds : Forall digit ds → Forall (λ c, c < 128) ds.
Proof. intros H. eapply Forall_impl; [exact H|]. unfold digit. lia. Qed.

Lemma print_ascii y mo d h mi sec digits z :
  fields_ok y mo d h mi sec → Forall digit digits → zone_ok z →
  Forall (λ c, c < 128) (print_rfc3339 y mo d h mi sec digits z).
Proof.
  intros (Hy & Hmo & Hd & Hh & Hmi & Hs) Hdig Hz. unfold print_rfc3339, print_fraction.
  repeat first [rewrite Forall_app | rewrite Forall_cons]. split_and!; try lia;
    try (apply digits_ascii, dec2_digits; lia); try (apply digits_ascii, dec4_digits; lia).
  - case_bool_decide; [constructor|]. apply Forall_cons. split; [lia|by apply digits_ascii].
  - assert (Hz2 : ∀ g hh mm, g < 128 → 0 <= hh <= 23 ∧ 0 <= mm <= 59 →
      Forall (λ c, c < 128) (g :: dec2 hh ++ 58 :: dec2 mm)).
    { intros g hh mm Hg [Hhh Hmm]. rewrite Forall_cons, Forall_app, Forall_cons.
      split_and!; try lia; apply digits_ascii, dec2_digits; lia. }
    destruct z as [|zh zm|zh zm]; simpl in Hz; [|apply Hz2; [lia|done]..].
    simpl. apply Forall_singleton. lia.
Qed.

Lemma print_trim y mo d h mi sec digits z :
  fields_ok y mo d h mi sec → zone_ok z →
  trim (print_rfc3339 y mo d h mi sec digits z) = print_rfc3339 y mo d h mi sec digits z.
Proof.
  intros (Hy & _) Hz. rewrite print_rfc3339_split.
  destruct (print_zone_ends z Hz) as (pre & e & -> & He).
  assert (is_whitespace (48 + y / 1000) = false) as Hc.
  { apply digit_not_space. unfold digit. Z.to_euclidean_division_equations; lia. }
  set (c := 48 + y / 1000) in *. rewrite !(assoc_L (++)).
  refine (trim_id c (drop 1 (print_head y mo d h mi sec) ++ print_fraction digits ++ pre) e Hc He).
Qed.

Lemma print_zone_head z :
  zone_ok z → match print_zone z with c :: _ => is_ascii_digit c = false ∧ c ≠ 46 | [] => True end.
Proof. by destruct z. Qed.

Lemma zone_minutes_range z : zone_ok z → - 1439 <= zone_minutes z <= 1439.
Proof. destruct z; simpl; lia. Qed.

(** Every timestamp of the profile is read as the instant it
    denotes: whatever date from 1970 to 9999, time of day (a leap second
    included), fraction of any length and zone are printed, the parser returns
    the milliseconds since the epoch that counting days gives, less the offset of
    the zone, digits beyond the third dropped; nothing if that lies before 1970. *)
Theorem rfc3339_is_read_as_the_instant y mo d h mi sec digits z
    (Hfields : fields_ok y mo d h mi sec) (Hdigits : Forall digit digits) (Hzone : zone_ok z) :
  unix_ms_from_rfc3339 (print_rfc3339 y mo d h mi sec digits z) =
    let ms := (calendar_days y mo d * 86400 + h * 3600 + mi * 60 + sec - zone_minutes z * 60) * 1000
              + (if bool_decide (digits = []) then 0 else fraction_ms digits) in
    if 0 <=? ms then Some ms else None.
Proof.
  unfold unix_ms_from_rfc3339. rewrite print_trim, encode_ascii by auto using print_ascii.
  rewrite print_rfc3339_split. set (tail := print_fraction digits ++ print_zone z).
  destruct (head_numbers y mo d h mi sec tail Hfields) as (-> & -> & -> & -> & -> & ->).
  assert ((length (print_head y mo d h mi sec ++ tail) <? 20)%nat = false) as ->.
  { apply Nat.ltb_ge. rewrite length_app. unfold tail. rewrite length_app.
    assert (1 <= length (print_zone z))%nat by (destruct z; simpl; lia).
    change (length (print_head y mo d h mi sec)) with 19%nat. lia. }
  change (drop 19 (print_head y mo d h mi sec ++ tail)) with tail.
  change (byte_is (print_head y mo d h mi sec ++ tail) 10 84) with true.
  change (byte_is (print_head y mo d h mi sec ++ tail) 4 45) with true.
  change (byte_is (print_head y mo d h mi sec ++ tail) 7 45) with true.
  change (byte_is (print_head y mo d h mi sec ++ tail) 13 58) with true.
  change (byte_is (print_head y mo d h mi sec ++ tail) 16 58) with true.
  cbn [orb andb negb mbind option_bind]. destruct Hfields as (Hy & Hmo & Hd & Hh & Hmi & Hs).
  rewrite (proj2 (Z.leb_le 1 mo)), (proj2 (Z.leb_le mo 12)), (proj2 (Z.leb_le 1 d)),
    (proj2 (Z.leb_le d 31)), (proj2 (Z.ltb_ge 23 h)), (proj2 (Z.ltb_ge 59 mi)),
    (proj2 (Z.ltb_ge 60 sec)) by lia.
  cbn [orb andb negb]. unfold tail. rewrite parse_fraction_print; [|done|by apply print_zone_head].
  cbn [mbind option_bind]. rewrite parse_offset_print by done. cbn [mbind option_bind].
  rewrite <-ms_of_range; [done|lia..| |by apply zone_minutes_range].
  case_bool_decide; [lia|by apply fraction_ms_range].
Qed.

(** What is read although no such instant exists: a day past the end
    of its month is counted into the next one, and a zone whose numbers carry
    signs of their own is taken at its word. *)
Theorem impossible_timestamps_are_read :
  unix_ms_from_rfc3339 (str_chars "2026-02-31T00:00:00Z") =
    unix_ms_from_rfc3339 (str_chars "2026-03-03T00:00:00Z") ∧
  unix_ms_from_rfc3339 (str_chars "2026-03-03T00:00:00+-1:-9") =
    unix_ms_from_rfc3339 (str_chars "2026-03-03T00:00:00-01:09") ∧
  is_Some (unix_ms_from_rfc3339 (str_chars "2026-03-03T00:00:00Z")).
Proof. vm_compute. split_and!; eauto. Qed.

Lemma rfc3339_is_read_as_the_instant_witness :
  unix_ms_from_rfc3339 (print_rfc3339 2026 8 6 8 53 9 [56; 53; 50; 57] (Zone_East 2 0)) =
    (let ms := (calendar_days 2026 8 6 * 86400 + 8 * 3600 + 53 * 60 + 9
                - zone_minutes (Zone_East 2 0) * 60) * 1000
              + (if bool_decide ([56; 53; 50; 57] = []) then 0 else fraction_ms [56; 53; 50; 57]) in
    if 0 <=? ms then Some ms else None).
Proof.
  apply (rfc3339_is_read_as_the_instant 2026 8 6 8 53 9 [56; 53; 50; 57] (Zone_East 2 0)).
  - unfold fields_ok. lia.
  - unfold digit. repeat constructor; lia.
  - simpl. lia.
Defined.

Lemma days_from_civil_is_the_calendar_witness :
  days_from_civil 2024 2 29 = calendar_days 2024 2 29.
Proof. apply (days_from_civil_is_the_calendar 2024 2 29); lia. Defined.
