(* ===== verification/Listing.v ===== *)
(** * Listing: the conversations a phone can continue

    [crates/host/src/session.rs]: Portty's own cache of agent conversations, what
    the agents report when asked, the index of what was reported, the memo of
    recent answers, and the one list the phone is shown. Paths are opaque keys:
    only their equality matters here. *)

From stdpp Require Import sorting.
From S2P Require Import Prelude Protocol Utf8 Timestamps.

Abbreviation path := string.

(** ** Text helpers *)

(** [text.lines().next().unwrap_or_default()]. *)
Fixpoint until_newline (s : chars) : chars :=
  match s with
  | c :: s' => if c =? 10 then [] else c :: until_newline s'
  | [] => []
  end.
Definition first_line_of (s : chars) : chars :=
  let line := until_newline s in
  if bool_decide (last line = Some 13) && (length line <? length s)%nat
  then take (length line - 1) line else line.

Definition clamp_cache_label (text : string) : string :=
  String.string_of_list_byte
    (clamp_text 80 ELLIPSIS (chars_bytes (trim (first_line_of (string_chars text))))).

(** ** The data *)
Record CachedAcpSession := {
  c_provider : AgentProvider;
  c_cwd : path;
  c_acp_session_id : string;
  c_title : string;
  c_first_prompt_label : option string;
  c_last_active_at_unix_ms : Z;
  c_desired_mode : option string;
  c_desired_config : list (string * AgentConfigValue);
}.

Record DiscoveredAcpSession := {
  d_provider : AgentProvider;
  d_cwd : path;
  d_acp_session_id : string;
  d_title : string;
  d_last_active_at_unix_ms : option Z;
}.

Definition MAX_CACHED_ACP_SESSIONS : nat := 64.
Definition MAX_ACP_CACHE_BYTES : Z := 8 * 1024 * 1024.
Definition MAX_LISTED_AGENT_SESSIONS : nat := 50.
Definition MAX_MEMOIZED_PROBES : nat := 8.
Definition MAX_DISCOVERED_ACP_SESSIONS : nat := 256.
Definition ACP_SESSION_LIST_TTL : Z := secs 30.

(** Newest first, stable: [sort_by_key] with [Reverse]. *)
Fixpoint insert_desc {A} (time : A → Z) (x : A) (l : list A) : list A :=
  match l with
  | y :: l' => if time y <? time x then x :: l else y :: insert_desc time x l'
  | [] => [x]
  end.
Definition sort_desc {A} (time : A → Z) (l : list A) : list A := foldl (flip (insert_desc time)) [] l.

(** ** The cache file *)
Section Cache.
(** The JSON codec: the length of what is written, and what reading gives. *)
Context (json_len : list CachedAcpSession → Z).

(** [entries.pop()] until the text fits or one entry is left. *)
Fixpoint pop_until_fits (fuel : nat) (entries : list CachedAcpSession) : list CachedAcpSession :=
  match fuel with
  | O => entries
  | S fuel =>
      if (json_len entries <=? MAX_ACP_CACHE_BYTES) || (length entries <=? 1)%nat then entries
      else pop_until_fits fuel (take (length entries - 1) entries)
  end.

(** The file: absent or unreadable, or the entries it encodes. *)
Abbreviation cache_file := (option (list CachedAcpSession)).

Definition read_acp_cache_unlocked (file : cache_file) : list CachedAcpSession :=
  match file with
  | Some entries => if MAX_ACP_CACHE_BYTES <? json_len entries then [] else entries
  | None => []
  end.

(** [io] tells how far the system calls get: the directory, the temporary file
    and the rename, or the mode bits after it. *)
Inductive CacheIo := Io_Ok | Io_FailsBeforeRename | Io_FailsAfterRename.

Definition write_acp_cache_unlocked (io : CacheIo) (entries : list CachedAcpSession)
    (file : cache_file) : bool * cache_file :=
  let entries := take MAX_CACHED_ACP_SESSIONS (sort_desc c_last_active_at_unix_ms entries) in
  let entries := pop_until_fits (length entries) entries in
  match io with
  | Io_Ok => (true, Some entries)
  | Io_FailsBeforeRename => (false, file)
  | Io_FailsAfterRename => (false, Some entries)
  end.

Definition same_conversation (p : AgentProvider) (id : string) (e : CachedAcpSession) : bool :=
  bool_decide (c_provider e = p) && bool_decide (c_acp_session_id e = id).

Definition write_cached_acp_session (io : CacheIo) (cached : CachedAcpSession) (file : cache_file)
    : cache_file :=
  let entries := read_acp_cache_unlocked file in
  let same := same_conversation (c_provider cached) (c_acp_session_id cached) in
  let original_first_prompt := e ← List.find same entries; c_first_prompt_label e in
  let entries := List.filter (λ e, negb (same e)) entries in
  let cached :=
    {| c_provider := c_provider cached; c_cwd := c_cwd cached;
       c_acp_session_id := c_acp_session_id cached; c_title := c_title cached;
       c_first_prompt_label := match original_first_prompt with
                               | Some l => Some l
                               | None => c_first_prompt_label cached
                               end;
       c_last_active_at_unix_ms := c_last_active_at_unix_ms cached;
       c_desired_mode := c_desired_mode cached; c_desired_config := c_desired_config cached |} in
  (write_acp_cache_unlocked io (entries ++ [cached]) file).2.

Definition prune_cached_acp_session (io : CacheIo) (provider : option AgentProvider) (id : string)
    (file : cache_file) : cache_file :=
  match provider with
  | None => file
  | Some p =>
      (write_acp_cache_unlocked io
         (List.filter (λ e, negb (same_conversation p id e)) (read_acp_cache_unlocked file)) file).2
  end.

(** [max_by_key]: the last of the newest. *)
Definition newest (l : list CachedAcpSession) : option CachedAcpSession :=
  foldl (λ best e, match best with
                   | Some b => if c_last_active_at_unix_ms e <? c_last_active_at_unix_ms b
                               then Some b else Some e
                   | None => Some e
                   end) None l.

Definition cached_acp_session (provider : option AgentProvider) (cwd : path) (file : cache_file)
    : option CachedAcpSession :=
  p ← provider;
  newest (List.filter (λ e, bool_decide (c_provider e = p) && bool_decide (c_cwd e = cwd))
            (read_acp_cache_unlocked file)).

Definition select_sessions_for_cwd (entries : list CachedAcpSession) (cwd : path)
    : list CachedAcpSession :=
  sort_desc c_last_active_at_unix_ms (List.filter (λ e, bool_decide (c_cwd e = cwd)) entries).
Definition list_cached_acp_sessions (cwd : path) (file : cache_file) : list CachedAcpSession :=
  select_sessions_for_cwd (read_acp_cache_unlocked file) cwd.

Definition select_session_by_id (entries : list CachedAcpSession) (cwd : path) (id : string)
    : option CachedAcpSession :=
  List.find (λ e, bool_decide (c_cwd e = cwd) && bool_decide (c_acp_session_id e = id)) entries.
Definition cached_acp_session_by_id (cwd : path) (id : string) (file : cache_file)
    : option CachedAcpSession :=
  select_session_by_id (read_acp_cache_unlocked file) cwd id.
End Cache.

(** ** What the agents report *)

(** A row of [session/list]. *)
Record AcpSessionInfo := {
  i_session_id : string;
  i_cwd : path;
  i_title : option string;
  i_updated_at : option string;
}.

Definition report_title (t : option string) : string :=
  match t with
  | Some t =>
      let t := trim (string_chars t) in
      if bool_decide (t = []) then "conversation" else clamp_cache_label (chars_string t)
  | None => "conversation"
  end.

(** The filters in their order, with the ids [seen] so far. *)
Fixpoint discovered_rows (provider : AgentProvider) (cwd target : path)
    (canonicalize : path → option path) (seen : list string) (listed : list AcpSessionInfo)
    : list DiscoveredAcpSession :=
  match listed with
  | [] => []
  | info :: rest =>
      if negb (bool_decide (canonicalize (i_cwd info) = Some target))
      then discovered_rows provider cwd target canonicalize seen rest
      else
        let id := i_session_id info in
        if bool_decide (id = "") || negb (Nat.leb (String.length id) MAX_AGENT_SHORT_TEXT_BYTES)
           || bool_decide (id ∈ seen)
        then discovered_rows provider cwd target canonicalize seen rest
        else
          {| d_provider := provider; d_cwd := cwd; d_acp_session_id := id;
             d_title := report_title (i_title info);
             d_last_active_at_unix_ms := t ← i_updated_at info; unix_ms_from_rfc3339 (string_chars t) |}
          :: discovered_rows provider cwd target canonicalize (id :: seen) rest
  end.

Definition discovered_from_session_infos (provider : AgentProvider) (cwd : path)
    (listed : list AcpSessionInfo) (canonicalize : path → option path) : list DiscoveredAcpSession :=
  let target := default cwd (canonicalize cwd) in
  take MAX_LISTED_AGENT_SESSIONS (discovered_rows provider cwd target canonicalize [] listed).

(** The pages of one probe: [ask] is the agent, which hands out the cursors. *)
Record SessionPage := { page_sessions : list AcpSessionInfo; page_next_cursor : option string }.
Definition MAX_ACP_SESSION_LIST_PAGES : nat := 8.

Fixpoint walk_pages (n : nat) (ask : option string → option SessionPage) (cursor : option string)
    (rows : list AcpSessionInfo) : option (list AcpSessionInfo) :=
  match n with
  | O => Some rows
  | S n =>
      page ← ask cursor;
      let room := (MAX_LISTED_AGENT_SESSIONS - length rows)%nat in
      let rows := rows ++ take room (page_sessions page) in
      if (MAX_LISTED_AGENT_SESSIONS <=? length rows)%nat then Some rows
      else match page_next_cursor page with
           | Some next => walk_pages n ask (Some next) rows
           | None => Some rows
           end
  end.

(** ** The index of reported conversations *)
Definition same_report (a b : DiscoveredAcpSession) : bool :=
  bool_decide (d_provider a = d_provider b) && bool_decide (d_cwd a = d_cwd b)
  && bool_decide (d_acp_session_id a = d_acp_session_id b).

Definition remember_one (index : list DiscoveredAcpSession) (s : DiscoveredAcpSession)
    : list DiscoveredAcpSession :=
  List.filter (λ e, negb (same_report e s)) index ++ [s].

Definition remember (sessions index : list DiscoveredAcpSession) : list DiscoveredAcpSession :=
  let index := foldl remember_one index sessions in
  drop (length index - MAX_DISCOVERED_ACP_SESSIONS) index.

Definition find_discovered (cwd : path) (id : string) (index : list DiscoveredAcpSession)
    : option DiscoveredAcpSession :=
  match List.filter (λ e, bool_decide (d_cwd e = cwd) && bool_decide (d_acp_session_id e = id)) index with
  | first :: others =>
      if existsb (λ o, negb (bool_decide (d_provider o = d_provider first))) others then None
      else Some first
  | [] => None
  end.

(** ** The memo of recent answers *)
Record ProbeMemo := {
  memo_provider : AgentProvider;
  memo_cwd : path;
  memo_taken_at : Z;
  memo_sessions : list DiscoveredAcpSession;
}.

Definition memo_get (p : AgentProvider) (cwd : path) (now : Z) (memos : list ProbeMemo)
    : option (list DiscoveredAcpSession) :=
  memo_sessions <$>
    List.find (λ m, bool_decide (memo_provider m = p) && bool_decide (memo_cwd m = cwd)
                    && (elapsed now (memo_taken_at m) <? ACP_SESSION_LIST_TTL)) memos.

Definition memo_store (memo : ProbeMemo) (memos : list ProbeMemo) : list ProbeMemo :=
  let memos :=
    List.filter (λ e, negb (bool_decide (memo_provider e = memo_provider memo)
                            && bool_decide (memo_cwd e = memo_cwd memo))) memos ++ [memo] in
  drop (length memos - MAX_MEMOIZED_PROBES) memos.

(** ** The one list *)
Definition cached_row (e : CachedAcpSession) : AgentSessionSummary :=
  {| summary_acp_session_id := c_acp_session_id e; summary_provider := c_provider e;
     summary_title := c_title e; summary_label := c_first_prompt_label e;
     summary_last_active_at_unix_ms := c_last_active_at_unix_ms e |}.

Definition touch (ms : Z) (r : AgentSessionSummary) : AgentSessionSummary :=
  {| summary_acp_session_id := summary_acp_session_id r; summary_provider := summary_provider r;
     summary_title := summary_title r; summary_label := summary_label r;
     summary_last_active_at_unix_ms := Z.max (summary_last_active_at_unix_ms r) ms |}.

Definition discovered_row (e : DiscoveredAcpSession) : AgentSessionSummary :=
  {| summary_acp_session_id := d_acp_session_id e; summary_provider := d_provider e;
     summary_title := d_title e; summary_label := None;
     summary_last_active_at_unix_ms := default 0 (d_last_active_at_unix_ms e) |}.

(** The first row of the id is touched, or a new row is added at the end. *)
Fixpoint merge_one (rows : list AgentSessionSummary) (e : DiscoveredAcpSession)
    : list AgentSessionSummary :=
  match rows with
  | r :: rows' =>
      if bool_decide (summary_acp_session_id r = d_acp_session_id e)
      then touch (default 0 (d_last_active_at_unix_ms e)) r :: rows'
      else r :: merge_one rows' e
  | [] => [discovered_row e]
  end.

Definition merge_agent_sessions (provider : AgentProvider) (cached : list CachedAcpSession)
    (discovered : list DiscoveredAcpSession) : list AgentSessionSummary :=
  let rows := cached_row <$> List.filter (λ e, bool_decide (c_provider e = provider)) cached in
  let rows := foldl merge_one rows discovered in
  take MAX_LISTED_AGENT_SESSIONS (sort_desc summary_last_active_at_unix_ms rows).

(** ** The host's lists together: [list_agent_sessions_for], [resumable_conversation] *)
Section Lists.
Context (json_len : list CachedAcpSession → Z) (canonicalize : path → option path).

Record Lists := {
  cache_of : option (list CachedAcpSession);
  probes : list ProbeMemo;
  discovered : list DiscoveredAcpSession;
}.

(** One probe of an adapter; any failure is an empty answer. *)
Definition probe_agent_sessions (provider : AgentProvider) (cwd : path)
    (ask : option string → option SessionPage) : list DiscoveredAcpSession :=
  match walk_pages MAX_ACP_SESSION_LIST_PAGES ask None [] with
  | Some listed => discovered_from_session_infos provider cwd listed canonicalize
  | None => []
  end.

(** The clock is read for the first memo look-up, for the one after the slot, and
    after the probe; [slot] tells whether the slot came free in time, [ask] is the
    adapter. *)
Definition list_agent_sessions_for (provider : AgentProvider) (cwd : path)
    (now1 now2 now3 : Z) (slot : bool) (ask : option string → option SessionPage) (s : Lists)
    : list AgentSessionSummary * Lists :=
  let cached := list_cached_acp_sessions json_len cwd (cache_of s) in
  let finish found s :=
    (merge_agent_sessions provider cached found,
     {| cache_of := cache_of s; probes := probes s; discovered := remember found (discovered s) |}) in
  match memo_get provider cwd now1 (probes s) with
  | Some memoized => finish memoized s
  | None =>
      if negb slot then (merge_agent_sessions provider cached [], s)
      else match memo_get provider cwd now2 (probes s) with
           | Some memoized => finish memoized s
           | None =>
               let fresh := probe_agent_sessions provider cwd ask in
               finish fresh
                 {| cache_of := cache_of s;
                    probes := memo_store {| memo_provider := provider; memo_cwd := cwd;
                                            memo_taken_at := now3; memo_sessions := fresh |} (probes s);
                    discovered := discovered s |}
           end
  end.

Definition cached_of_discovered (e : DiscoveredAcpSession) : CachedAcpSession :=
  {| c_provider := d_provider e; c_cwd := d_cwd e; c_acp_session_id := d_acp_session_id e;
     c_title := d_title e; c_first_prompt_label := None;
     c_last_active_at_unix_ms := default 0 (d_last_active_at_unix_ms e);
     c_desired_mode := None; c_desired_config := [] |}.

Definition resumable_conversation (cwd : path) (id : string) (s : Lists) : option CachedAcpSession :=
  match cached_acp_session_by_id json_len cwd id (cache_of s) with
  | Some e => Some e
  | None => cached_of_discovered <$> find_discovered cwd id (discovered s)
  end.
End Lists.

(** ** Sorting *)
Section Sorting.
Context {A : Type} (time : A → Z).

Lemma insert_desc_perm x l : insert_desc time x l ≡ₚ x :: l.
Proof.
  induction l as [|y l IH]; simpl; [done|]. case_match; [done|]. rewrite IH. apply Permutation_swap.
Qed.

Lemma sort_desc_perm l : sort_desc time l ≡ₚ l.
Proof.
  unfold sort_desc. assert (H : ∀ l acc, foldl (flip (insert_desc time)) acc l ≡ₚ l ++ acc).
  { clear l. induction l as [|x l IH]; intros acc; simpl; [done|].
    rewrite IH. unfold flip. rewrite insert_desc_perm. by rewrite Permutation_middle. }
  by rewrite H, app_nil_r.
Qed.

Abbreviation desc := (StronglySorted (λ a b, time b <= time a)).

Lemma insert_desc_sorted x l : desc l → desc (insert_desc time x l).
Proof.
  induction l as [|y l IH]; intros Hs; simpl; [by repeat constructor|].
  apply StronglySorted_inv in Hs as Hs'. destruct Hs' as [Hl Hy].
  destruct (Z.ltb_spec (time y) (time x)) as [Hlt|Hge].
  - constructor; [done|]. constructor; [lia|]. eapply Forall_impl; [exact Hy|]. simpl. lia.
  - constructor; [by apply IH|]. rewrite insert_desc_perm. by constructor.
Qed.

Lemma sort_desc_sorted l : desc (sort_desc time l).
Proof.
  unfold sort_desc. assert (H : ∀ l acc, desc acc → desc (foldl (flip (insert_desc time)) acc l)).
  { clear l. induction l as [|x l IH]; intros acc Hacc; simpl; [done|]. apply IH. by apply insert_desc_sorted. }
  apply H. constructor.
Qed.

(** Truncating a sorted list keeps the newest. *)
Lemma desc_take n l : desc l →
  desc (take n l) ∧ ∀ a b, a ∈ take n l → b ∈ drop n l → time b <= time a.
Proof.
  intros Hs. rewrite <-(take_drop n l) in Hs. split; [by apply StronglySorted_app_1_l in Hs|].
  intros a b Ha Hb. by apply (StronglySorted_app_1_elem_of _ _ _ a b Hs).
Qed.
End Sorting.

(** ** The merge is a join *)
Definition report_for (id : string) (ds : list DiscoveredAcpSession) : option DiscoveredAcpSession :=
  List.find (λ d, bool_decide (d_acp_session_id d = id)) ds.

Definition join_row (ds : list DiscoveredAcpSession) (r : AgentSessionSummary) : AgentSessionSummary :=
  match report_for (summary_acp_session_id r) ds with
  | Some d => touch (default 0 (d_last_active_at_unix_ms d)) r
  | None => r
  end.

(** What the list says: the cached conversations, each with the later of the two
    times, and those only the agent knows. *)
Definition joined (rows : list AgentSessionSummary) (ds : list DiscoveredAcpSession)
    : list AgentSessionSummary :=
  (join_row ds <$> rows) ++
  (discovered_row <$> List.filter
     (λ d, negb (bool_decide (d_acp_session_id d ∈ summary_acp_session_id <$> rows))) ds).

Lemma merge_one_in rows d :
  NoDup (summary_acp_session_id <$> rows) → d_acp_session_id d ∈ summary_acp_session_id <$> rows →
  merge_one rows d = join_row [d] <$> rows.
Proof.
  induction rows as [|r rows IH]; simpl; intros Hn Hin; [set_solver|].
  apply NoDup_cons in Hn as [Hr Hn]. unfold join_row at 1. unfold report_for. simpl.
  destruct (decide (summary_acp_session_id r = d_acp_session_id d)) as [E|E].
  - rewrite !bool_decide_eq_true_2 by done. f_equal. symmetry.
    rewrite <-(list_fmap_id rows) at 2. apply list_fmap_ext. intros i x Hx. simpl.
    unfold join_row, report_for. simpl. rewrite bool_decide_eq_false_2; [done|]. intros E'.
    apply Hr. rewrite E, E'. apply list_elem_of_fmap. exists x. split; [done|]. by eapply list_elem_of_lookup_2.
  - rewrite !bool_decide_eq_false_2 by congruence. f_equal. apply IH; [done|set_solver].
Qed.

Lemma merge_one_out rows d :
  d_acp_session_id d ∉ summary_acp_session_id <$> rows → merge_one rows d = rows ++ [discovered_row d].
Proof.
  induction rows as [|r rows IH]; simpl; intros Hin; [done|].
  rewrite bool_decide_eq_false_2 by set_solver. by rewrite IH by set_solver.
Qed.

Lemma join_row_id ds r : summary_acp_session_id (join_row ds r) = summary_acp_session_id r.
Proof. unfold join_row. by case_match. Qed.
Lemma join_rows_ids ds (rows : list AgentSessionSummary) :
  summary_acp_session_id <$> (join_row ds <$> rows) = summary_acp_session_id <$> rows.
Proof. rewrite <-list_fmap_compose. apply list_fmap_ext. intros i x _. apply join_row_id. Qed.

Lemma report_for_None id (ds : list DiscoveredAcpSession) : id ∉ d_acp_session_id <$> ds → report_for id ds = None.
Proof.
  intros Hin. unfold report_for. destruct (List.find _ ds) as [d|] eqn:Hf; [|done].
  apply List.find_some in Hf as [Hd%list_elem_of_In He%bool_decide_eq_true].
  exfalso. apply Hin. apply list_elem_of_fmap. eauto.
Qed.

Lemma merge_is_join ds : ∀ rows,
  NoDup (summary_acp_session_id <$> rows) → NoDup (d_acp_session_id <$> ds) →
  foldl merge_one rows ds = joined rows ds.
Proof.
  unfold joined. induction ds as [|d ds IH]; intros rows Hr Hd; simpl.
  { rewrite app_nil_r, <-(list_fmap_id rows) at 1. by apply list_fmap_ext. }
  apply NoDup_cons in Hd as [Hnd Hd].
  destruct (decide (d_acp_session_id d ∈ summary_acp_session_id <$> rows)) as [Hin|Hin].
  - rewrite merge_one_in by done. rewrite IH by (rewrite ?join_rows_ids; done).
    rewrite join_rows_ids, bool_decide_eq_true_2 by done. simpl. f_equal.
    rewrite <-list_fmap_compose. apply list_fmap_ext. intros i r _. simpl.
    unfold join_row at 1. rewrite join_row_id. unfold join_row at 2. unfold report_for at 2. simpl.
    destruct (decide (d_acp_session_id d = summary_acp_session_id r)) as [E|E].
    + rewrite bool_decide_eq_true_2 by done. rewrite report_for_None by (by rewrite <-E).
      unfold join_row, report_for. simpl. by rewrite bool_decide_eq_true_2.
    + rewrite bool_decide_eq_false_2 by done. unfold join_row, report_for at 1 3. simpl.
      rewrite bool_decide_eq_false_2 by done. done.
  - rewrite merge_one_out by done. rewrite IH; [|rewrite fmap_app; apply NoDup_app; split_and!|done].
    2: done. 2: simpl; set_solver. 2: simpl; apply NoDup_singleton.
    rewrite bool_decide_eq_false_2 by done. simpl. rewrite fmap_app, <-app_assoc. simpl. f_equal.
    + apply list_fmap_ext. intros i r Hi. unfold join_row, report_for. simpl.
      rewrite (bool_decide_eq_false_2 (d_acp_session_id d = _)); [done|].
      intros E. apply Hin. rewrite E. apply list_elem_of_fmap. exists r. split; [done|]. by eapply list_elem_of_lookup_2.
    + f_equal.
      * unfold join_row. simpl. by rewrite report_for_None.
      * f_equal. apply List.filter_ext_in. intros x Hx%list_elem_of_In. f_equal.
        apply bool_decide_ext. rewrite fmap_app, elem_of_app. simpl. split; [|by left].
        intros [?|E%list_elem_of_singleton]; [done|]. simpl in E. exfalso. apply Hnd. rewrite <-E.
        apply list_elem_of_fmap. eauto.
Qed.

Lemma joined_ids rows ds :
  NoDup (summary_acp_session_id <$> rows) → NoDup (d_acp_session_id <$> ds) →
  NoDup (summary_acp_session_id <$> joined rows ds).
Proof.
  intros Hr Hd. unfold joined. rewrite fmap_app, join_rows_ids. apply NoDup_app. split_and!; [done| |].
  - intros id Hid Hin. apply list_elem_of_fmap in Hin as (r & -> & Hin).
    apply list_elem_of_fmap in Hin as (d & -> & Hin%list_elem_of_In).
    apply filter_In in Hin as [_ Hn%negb_true_iff%bool_decide_eq_false]. done.
  - rewrite <-list_fmap_compose. change (summary_acp_session_id ∘ discovered_row) with d_acp_session_id.
    revert Hd. clear. set (P := λ d, negb _). induction ds as [|d ds IH]; simpl; [done|].
    intros [Hd Hn]%NoDup_cons. specialize (IH Hn). destruct (P d); [|done].
    simpl. constructor; [|done]. intros Hin. apply Hd.
    apply list_elem_of_fmap in Hin as (x & Hx & Hin%list_elem_of_In). apply filter_In in Hin as [Hin _].
    apply list_elem_of_fmap. exists x. split; [done|]. by apply list_elem_of_In.
Qed.

Definition rows_of (provider : AgentProvider) (cached : list CachedAcpSession) : list AgentSessionSummary :=
  cached_row <$> List.filter (λ e, bool_decide (c_provider e = provider)) cached.

(** ** What is believed of a report *)
Lemma discovered_rows_spec provider cwd target canonicalize listed : ∀ seen d,
  d ∈ discovered_rows provider cwd target canonicalize seen listed →
  d_provider d = provider ∧ d_cwd d = cwd ∧ d_acp_session_id d ∉ seen ∧
  d_acp_session_id d ≠ ""%string ∧
  (String.length (d_acp_session_id d) ≤ MAX_AGENT_SHORT_TEXT_BYTES)%nat ∧
  ∃ i, i ∈ listed ∧ i_session_id i = d_acp_session_id d ∧ canonicalize (i_cwd i) = Some target.
Proof.
  induction listed as [|i listed IH]; intros seen d; simpl; [set_solver|].
  assert (Hlater : ∀ seen', seen ⊆ seen' →
    d ∈ discovered_rows provider cwd target canonicalize seen' listed →
    d_provider d = provider ∧ d_cwd d = cwd ∧ d_acp_session_id d ∉ seen ∧
    d_acp_session_id d ≠ ""%string ∧
    (String.length (d_acp_session_id d) ≤ MAX_AGENT_SHORT_TEXT_BYTES)%nat ∧
    ∃ j, j ∈ i :: listed ∧ i_session_id j = d_acp_session_id d ∧ canonicalize (i_cwd j) = Some target).
  { intros seen' Hs Hd. destruct (IH _ _ Hd) as (? & ? & ? & ? & ? & j & ? & ? & ?).
    split_and!; [done|done|set_solver|done|done|]. exists j. set_solver. }
  case_bool_decide as Hc; simpl; [|by apply Hlater].
  case_bool_decide as He; simpl; [by apply Hlater|].
  destruct (Nat.leb_spec (String.length (i_session_id i)) MAX_AGENT_SHORT_TEXT_BYTES) as [Hl|]; simpl;
    [|by apply Hlater].
  case_bool_decide as Hs; simpl; [by apply Hlater|].
  intros [->|Hd]%elem_of_cons; [|by apply (Hlater (i_session_id i :: seen)); [set_solver|]].
  simpl. split_and!; try done. exists i. set_solver.
Qed.

Lemma discovered_rows_NoDup provider cwd target canonicalize listed : ∀ seen,
  NoDup (d_acp_session_id <$> discovered_rows provider cwd target canonicalize seen listed).
Proof.
  induction listed as [|i listed IH]; intros seen; simpl; [constructor|].
  repeat case_match; try apply IH. simpl. constructor; [|apply IH].
  intros (d & Hd & Hin)%list_elem_of_fmap.
  destruct (discovered_rows_spec _ _ _ _ _ _ _ Hin) as (_ & _ & Hn & _). set_solver.
Qed.

(** The conversations reported for one provider and directory. *)
Definition reports_ok (p : AgentProvider) (cwd : path) (ds : list DiscoveredAcpSession) : Prop :=
  NoDup (d_acp_session_id <$> ds) ∧ (length ds <= MAX_LISTED_AGENT_SESSIONS)%nat ∧
  ∀ d, d ∈ ds → d_provider d = p ∧ d_cwd d = cwd.

Lemma elem_of_take' {A} n (x : A) l : x ∈ take n l → x ∈ l.
Proof. intros H. rewrite <-(take_drop n l). apply elem_of_app. by left. Qed.

Lemma discovered_ok provider cwd listed canonicalize :
  reports_ok provider cwd (discovered_from_session_infos provider cwd listed canonicalize).
Proof.
  unfold discovered_from_session_infos. split_and!.
  - rewrite fmap_take. eapply sublist_NoDup; [|apply sublist_take]. apply discovered_rows_NoDup.
  - rewrite length_take. lia.
  - intros d Hd%elem_of_take'. by destruct (discovered_rows_spec _ _ _ _ _ _ _ Hd) as (? & ? & _).
Qed.

(** ** The index keeps what was just remembered *)
Lemma remember_one_spec index s e :
  e ∈ remember_one index s ↔ e = s ∨ (e ∈ index ∧ same_report e s = false).
Proof.
  unfold remember_one. rewrite elem_of_app, list_elem_of_singleton.
  split; [intros [Hin%list_elem_of_In|?]|intros [?|[Hin Hs]]]; [|by left|by right|left].
  - apply filter_In in Hin as [Hin Hs%negb_true_iff]. right. split; [by apply list_elem_of_In|done].
  - apply list_elem_of_In, filter_In. split; [by apply list_elem_of_In|by rewrite Hs].
Qed.

Lemma same_report_true a b :
  same_report a b = true ↔ d_provider a = d_provider b ∧ d_cwd a = d_cwd b ∧
    d_acp_session_id a = d_acp_session_id b.
Proof. unfold same_report. rewrite !andb_true_iff, !bool_decide_eq_true. tauto. Qed.

Lemma filter_true {A} (f : A → bool) l : Forall (λ e, f e = true) l → List.filter f l = l.
Proof. induction 1 as [|e l He _ IH]; simpl; [done|]. by rewrite He, IH. Qed.

(** Remembering distinct reports appends them to whatever is left of the index. *)
Lemma remember_all_suffix ds : ∀ index,
  NoDup (d_acp_session_id <$> ds) → ∃ front, foldl remember_one index ds = front ++ ds ∧ front ⊆ index.
Proof.
  intros index. induction ds as [|d ds IH] using rev_ind; intros Hn.
  { exists index. by rewrite app_nil_r. }
  rewrite fmap_app in Hn. apply NoDup_app in Hn as (Hn & Hd & _).
  destruct (IH Hn) as (front & Hf & Hsub). rewrite foldl_snoc, Hf. unfold remember_one.
  exists (List.filter (λ e, negb (same_report e d)) front). split.
  - rewrite List.filter_app, <-app_assoc. do 2 f_equal.
    assert (H : Forall (λ e, negb (same_report e d) = true) ds).
    { apply Forall_forall. intros e He. apply negb_true_iff, not_true_iff_false.
      intros (_ & _ & Hid)%same_report_true. apply (Hd (d_acp_session_id e)).
      - apply list_elem_of_fmap. eauto.
      - simpl. rewrite Hid. by apply list_elem_of_singleton. }
    by apply filter_true.
  - intros e He%list_elem_of_In. apply filter_In in He as [He _]. apply Hsub. by apply list_elem_of_In.
Qed.

Lemma remember_keeps p cwd ds index d :
  reports_ok p cwd ds → d ∈ ds → d ∈ remember ds index.
Proof.
  intros (Hn & Hl & _) Hd. unfold remember. destruct (remember_all_suffix ds index Hn) as (front & -> & _).
  rewrite length_app. set (k := (_ - _)%nat). assert (k <= length front)%nat.
  { unfold k. unfold MAX_LISTED_AGENT_SESSIONS in Hl. unfold MAX_DISCOVERED_ACP_SESSIONS. lia. }
  rewrite drop_app_le by done. apply elem_of_app. by right.
Qed.

Lemma find_discovered_spec cwd id index p :
  (∃ d, d ∈ index ∧ d_cwd d = cwd ∧ d_acp_session_id d = id) →
  (∀ d, d ∈ index → d_cwd d = cwd → d_acp_session_id d = id → d_provider d = p) →
  ∃ d, find_discovered cwd id index = Some d ∧ d_provider d = p ∧ d_cwd d = cwd ∧ d_acp_session_id d = id.
Proof.
  intros (d0 & Hd0 & Hc0 & Hi0) Hall. unfold find_discovered.
  assert (Hf : ∀ d, d ∈ List.filter (λ e, bool_decide (d_cwd e = cwd) && bool_decide (d_acp_session_id e = id)) index ↔
    d ∈ index ∧ d_cwd d = cwd ∧ d_acp_session_id d = id).
  { intros d. rewrite list_elem_of_In, filter_In, <-list_elem_of_In, andb_true_iff, !bool_decide_eq_true. done. }
  destruct (List.filter _ index) as [|first others].
  { exfalso. by apply (elem_of_nil d0), Hf. }
  assert (Hp : ∀ d, d ∈ first :: others → d_provider d = p) by (intros d (? & ? & ?)%Hf; by apply Hall).
  destruct (existsb _ others) eqn:Ex.
  - apply existsb_exists in Ex as (o & Ho%list_elem_of_In & Hne%negb_true_iff%bool_decide_eq_false).
    destruct Hne. rewrite (Hp o), (Hp first) by set_solver. done.
  - exists first. destruct (proj1 (Hf first)) as (? & ? & ?); [set_solver|]. by rewrite Hp by set_solver.
Qed.

(** ** The picker *)
Lemma elem_of_joined r rows ds :
  r ∈ joined rows ds →
  summary_acp_session_id r ∈ summary_acp_session_id <$> rows ∨
  ∃ d, d ∈ ds ∧ d_acp_session_id d = summary_acp_session_id r.
Proof.
  unfold joined. intros [Hin|Hin]%elem_of_app; apply list_elem_of_fmap in Hin as (x & -> & Hin).
  - left. rewrite join_row_id. apply list_elem_of_fmap. eauto.
  - right. apply list_elem_of_In, filter_In in Hin as [Hin _]. exists x. split; [by apply list_elem_of_In|done].
Qed.

(** Without any assumption, the rows of a merge come from its two sources. *)
Lemma merge_one_ids rows d r :
  r ∈ merge_one rows d → summary_acp_session_id r ∈ summary_acp_session_id <$> rows ∨
    summary_acp_session_id r = d_acp_session_id d.
Proof.
  induction rows as [|x rows IH]; simpl.
  - intros ->%list_elem_of_singleton. by right.
  - case_bool_decide; intros [->|Hin]%elem_of_cons; simpl.
    + left. apply elem_of_cons. by left.
    + left. apply elem_of_cons. right. apply list_elem_of_fmap. eauto.
    + left. apply elem_of_cons. by left.
    + destruct (IH Hin); [left|by right]. apply elem_of_cons. by right.
Qed.

Lemma merge_fold_ids ds : ∀ rows r,
  r ∈ foldl merge_one rows ds → summary_acp_session_id r ∈ summary_acp_session_id <$> rows ∨
    ∃ d, d ∈ ds ∧ d_acp_session_id d = summary_acp_session_id r.
Proof.
  induction ds as [|d ds IH]; intros rows r; simpl.
  - intros Hr. left. apply list_elem_of_fmap. eauto.
  - intros [Hin|(x & Hx & Hid)]%IH; [|right; exists x; set_solver].
    apply list_elem_of_fmap in Hin as (y & Hy & [Hin|Hin]%merge_one_ids); rewrite Hy.
    + by left.
    + right. exists d. set_solver.
Qed.

Lemma elem_of_merge provider cached ds r :
  r ∈ merge_agent_sessions provider cached ds →
  (∃ e, e ∈ cached ∧ c_provider e = provider ∧ c_acp_session_id e = summary_acp_session_id r) ∨
  ∃ d, d ∈ ds ∧ d_acp_session_id d = summary_acp_session_id r.
Proof.
  unfold merge_agent_sessions. intros Hin%elem_of_take'. rewrite sort_desc_perm in Hin.
  apply merge_fold_ids in Hin as [Hin|?]; [left|by right].
  apply list_elem_of_fmap in Hin as (y & -> & Hin). apply list_elem_of_fmap in Hin as (e & -> & Hin).
  apply list_elem_of_In, filter_In in Hin as [Hin Hp%bool_decide_eq_true].
  exists e. split_and!; [by apply list_elem_of_In|done|done].
Qed.

(** What the picker shows of one agent is a join: with one row
    per id on either side, the rows before the cut are the cached conversations,
    each touched at the later of the two times, and those only the agent knows;
    the list is newest first, names no id twice, has at most fifty rows, and
    nothing cut off is newer than anything shown. *)
Theorem merged_list_is_the_join provider cached ds
    (Hcached : NoDup (summary_acp_session_id <$> rows_of provider cached))
    (Hds : NoDup (d_acp_session_id <$> ds)) :
  let shown := merge_agent_sessions provider cached ds in
  StronglySorted (λ a b, summary_last_active_at_unix_ms b <= summary_last_active_at_unix_ms a) shown ∧
  NoDup (summary_acp_session_id <$> shown) ∧ (length shown <= 50)%nat ∧
  ∃ cut, shown ++ cut ≡ₚ joined (rows_of provider cached) ds ∧
    ∀ a b, a ∈ shown → b ∈ cut → summary_last_active_at_unix_ms b <= summary_last_active_at_unix_ms a.
Proof.
  cbv zeta. unfold merge_agent_sessions. fold (rows_of provider cached).
  rewrite (merge_is_join ds _ Hcached Hds). set (all := joined _ ds).
  destruct (desc_take summary_last_active_at_unix_ms MAX_LISTED_AGENT_SESSIONS
    (sort_desc summary_last_active_at_unix_ms all)) as [Hs Hcut]; [apply sort_desc_sorted|].
  split_and!; [done| |rewrite length_take; unfold MAX_LISTED_AGENT_SESSIONS; lia|].
  - rewrite fmap_take. eapply sublist_NoDup; [|apply sublist_take].
    rewrite sort_desc_perm. by apply joined_ids.
  - exists (drop MAX_LISTED_AGENT_SESSIONS (sort_desc summary_last_active_at_unix_ms all)).
    rewrite take_drop. split; [apply sort_desc_perm|done].
Qed.

Section Picker.
Context (json_len : list CachedAcpSession → Z) (canonicalize : path → option path).

(** Every memo holds reports of its own agent and directory. *)
Definition lists_inv (s : Lists) : Prop :=
  ∀ m, m ∈ probes s → reports_ok (memo_provider m) (memo_cwd m) (memo_sessions m).

Lemma memo_get_ok p cwd now s found :
  lists_inv s → memo_get p cwd now (probes s) = Some found → reports_ok p cwd found.
Proof.
  unfold memo_get. intros Hi (m & Hf & ->)%fmap_Some_1.
  apply List.find_some in Hf as [Hin Hm]. apply list_elem_of_In in Hin.
  apply andb_true_iff in Hm as [Hm _]. apply andb_true_iff in Hm as [Hp%bool_decide_eq_true Hc%bool_decide_eq_true].
  subst. by apply Hi.
Qed.

Lemma memo_store_inv memo memos m : m ∈ memo_store memo memos → m = memo ∨ m ∈ memos.
Proof.
  unfold memo_store. set (l := _ ++ _). intros Hm.
  assert (m ∈ l) as Hin by (rewrite <-(take_drop (length l - MAX_MEMOIZED_PROBES) l); apply elem_of_app; by right).
  unfold l in Hin. apply elem_of_app in Hin as [Hin%list_elem_of_In|Hin%list_elem_of_singleton]; [right|by left].
  apply filter_In in Hin as [Hin _]. by apply list_elem_of_In.
Qed.

Lemma probe_ok p cwd ask : reports_ok p cwd (probe_agent_sessions canonicalize p cwd ask).
Proof.
  unfold probe_agent_sessions. case_match; [apply discovered_ok|].
  split_and!; [constructor|simpl; lia|intros d; set_solver].
Qed.

(** A listing is the merge of the cache with some reports of that agent for that
    directory, and unless there are none the index has just been told of them. *)
Lemma listing_cases p cwd t1 t2 t3 slot ask s rows s' :
  lists_inv s → list_agent_sessions_for json_len canonicalize p cwd t1 t2 t3 slot ask s = (rows, s') →
  lists_inv s' ∧ cache_of s' = cache_of s ∧ ∃ found,
    reports_ok p cwd found ∧ rows = merge_agent_sessions p (list_cached_acp_sessions json_len cwd (cache_of s)) found ∧
    (found = [] ∨ discovered s' = remember found (discovered s)).
Proof.
  intros Hi. unfold list_agent_sessions_for.
  destruct (memo_get p cwd t1 (probes s)) as [found|] eqn:H1.
  { intros [= <- <-]. apply (memo_get_ok _ _ _ _ _ Hi) in H1. split_and!; [done|done|]. eauto 10. }
  destruct slot; simpl; last first.
  { intros [= <- <-]. split_and!; [done|done|]. exists []. split_and!; [|done|by left].
    split_and!; [constructor|simpl; lia|intros d; set_solver]. }
  destruct (memo_get p cwd t2 (probes s)) as [found|] eqn:H2.
  { intros [= <- <-]. apply (memo_get_ok _ _ _ _ _ Hi) in H2. split_and!; [done|done|]. eauto 10. }
  intros [= <- <-]. split_and!; [|done|].
  - intros m [->|Hm]%memo_store_inv; [apply probe_ok|by apply Hi].
  - eexists. split_and!; [apply (probe_ok p cwd ask)|done|by right].
Qed.

(** C28 (safety). Whatever a picker shows can be continued, by the agent whose
    picker it is and in the directory it was opened on: after a listing, from the
    cache, a memo or a fresh probe, each row's id resolves to a record of that
    agent and directory, provided no other agent uses the same id there. *)
Theorem listed_conversation_resumes_with_its_agent p cwd t1 t2 t3 slot ask s rows s' r
    (Hinv : lists_inv s)
    (Hlist : list_agent_sessions_for json_len canonicalize p cwd t1 t2 t3 slot ask s = (rows, s'))
    (Hrow : r ∈ rows)
    (Hcache : ∀ e, e ∈ read_acp_cache_unlocked json_len (cache_of s') → c_cwd e = cwd →
      c_acp_session_id e = summary_acp_session_id r → c_provider e = p)
    (Hindex : ∀ d, d ∈ discovered s' → d_cwd d = cwd →
      d_acp_session_id d = summary_acp_session_id r → d_provider d = p) :
  ∃ e, resumable_conversation json_len cwd (summary_acp_session_id r) s' = Some e ∧
    c_provider e = p ∧ c_cwd e = cwd ∧ c_acp_session_id e = summary_acp_session_id r.
Proof.
  destruct (listing_cases _ _ _ _ _ _ _ _ _ _ Hinv Hlist) as (_ & Hcs & found & Hok & -> & Hdisc).
  unfold resumable_conversation, cached_acp_session_by_id, select_session_by_id.
  set (id := summary_acp_session_id r) in *.
  destruct (List.find _ _) as [e|] eqn:Hf.
  { apply List.find_some in Hf as [Hin He]. apply list_elem_of_In in Hin.
    apply andb_true_iff in He as [Hc%bool_decide_eq_true Hid%bool_decide_eq_true]. eauto 10. }
  apply elem_of_merge in Hrow as [(e & Hin & Hp & Hid)|(d & Hd & Hid)].
  - exfalso. unfold list_cached_acp_sessions, select_sessions_for_cwd in Hin. rewrite sort_desc_perm in Hin.
    apply list_elem_of_In, filter_In in Hin as [Hin Hc].
    rewrite <-Hcs in Hin. pose proof (List.find_none _ _ Hf e Hin) as Hn. simpl in Hn.
    by rewrite Hc, bool_decide_eq_true_2 in Hn.
  - destruct Hdisc as [->|Hdisc]; [set_solver|]. destruct Hok as (Hn & Hl & Hall) eqn:E.
    destruct (Hall d Hd) as [Hdp Hdc].
    assert (Hin : d ∈ discovered s') by (rewrite Hdisc; by eapply remember_keeps).
    destruct (find_discovered_spec cwd id (discovered s') p) as (x & -> & ? & ? & ?); [by exists d|done|].
    simpl. eauto 10.
Qed.

End Picker.

(** A report is believed only as far as it goes: every conversation
    offered belongs to the agent that was asked, carries the directory the host
    resolved and never the agent's spelling of it, comes from a row whose own
    directory resolves to that same place, and has an id that fits in a frame;
    ids are distinct and there are at most fifty. *)
Theorem reports_are_confined provider cwd listed canonicalize :
  let ds := discovered_from_session_infos provider cwd listed canonicalize in
  NoDup (d_acp_session_id <$> ds) ∧ (length ds <= 50)%nat ∧
  ∀ d, d ∈ ds → d_provider d = provider ∧ d_cwd d = cwd ∧ d_acp_session_id d ≠ ""%string ∧
    Z.of_nat (String.length (d_acp_session_id d)) <= 1024 ∧
    ∃ i, i ∈ listed ∧ i_session_id i = d_acp_session_id d ∧
      canonicalize (i_cwd i) = Some (default cwd (canonicalize cwd)).
Proof.
  cbv zeta. destruct (discovered_ok provider cwd listed canonicalize) as (Hn & Hl & _).
  split_and!; [done|done|]. intros d Hd%elem_of_take'.
  destruct (discovered_rows_spec _ _ _ _ _ _ _ Hd) as (? & ? & _ & ? & Hlen & ?).
  split_and!; try done. revert Hlen. unfold MAX_AGENT_SHORT_TEXT_BYTES. lia.
Qed.

(** ** The cache file *)
Section CacheFile.
Context (json_len : list CachedAcpSession → Z).

Lemma length_pos {A} (l : list A) : l ≠ [] → (0 < length l)%nat.
Proof. destruct l; [congruence|simpl; lia]. Qed.

Lemma pop_until_fits_spec fuel : ∀ l, l ≠ [] → (length l <= fuel)%nat →
  ∃ n, pop_until_fits json_len fuel l = take n l ∧ (0 < n)%nat ∧
    (json_len (take n l) <= MAX_ACP_CACHE_BYTES ∨ length (take n l) = 1%nat).
Proof.
  induction fuel as [|fuel IH]; intros l Hne Hf; [apply length_pos in Hne; lia|]. cbn [pop_until_fits].
  destruct (Z.leb_spec (json_len l) MAX_ACP_CACHE_BYTES) as [Hfit|_]; simpl.
  { exists (length l). rewrite take_ge by lia. split_and!; [done|by apply length_pos|by left]. }
  destruct (Nat.leb_spec (length l) 1) as [H1|H1].
  { exists (length l). rewrite take_ge by lia. destruct l as [|x [|]]; try done; simpl in *; try lia.
    split_and!; [done|lia|by right]. }
  destruct (IH (take (length l - 1) l)) as (n & -> & Hn & Hfit).
  { intros E. apply (f_equal length) in E. rewrite length_take in E. simpl in E. lia. }
  { rewrite length_take. lia. }
  rewrite take_take in Hfit |- *. exists (n `min` (length l - 1))%nat. split_and!; [done|lia|done].
Qed.

Lemma sort_desc_newest {A} (time : A → Z) l x :
  Forall (λ y, time y < time x) l → sort_desc time (l ++ [x]) = x :: sort_desc time l.
Proof.
  intros Hall. unfold sort_desc. rewrite foldl_snoc. unfold flip at 1.
  assert (Forall (λ y, time y < time x) (foldl (flip (insert_desc time)) [] l)) as H.
  { change (Forall (λ y, time y < time x) (sort_desc time l)). by rewrite sort_desc_perm. }
  destruct (foldl _ [] l) as [|y r]; [done|]. apply Forall_cons in H as [Hy _]. simpl.
  by rewrite (proj2 (Z.ltb_lt _ _)).
Qed.

Definition conversation (e : CachedAcpSession) : AgentProvider * string :=
  (c_provider e, c_acp_session_id e).

Lemma same_conversation_spec p id e : same_conversation p id e = true ↔ conversation e = (p, id).
Proof.
  unfold same_conversation, conversation. rewrite andb_true_iff, !bool_decide_eq_true.
  split; [by intros [-> ->]|by intros [= -> ->]].
Qed.

Lemma find_conversation p id l :
  List.find (same_conversation p id) l = List.find (λ e, bool_decide (conversation e = (p, id))) l.
Proof.
  induction l as [|e l IH]; simpl; [done|].
  assert (same_conversation p id e = bool_decide (conversation e = (p, id))) as ->; [|by rewrite IH].
  apply eq_true_iff_eq. by rewrite same_conversation_spec, bool_decide_eq_true.
Qed.

Lemma read_back l : l ≠ [] → (json_len l <= MAX_ACP_CACHE_BYTES ∨ length l = 1%nat) →
  (∀ x, l = [x] → json_len [x] <= MAX_ACP_CACHE_BYTES) →
  read_acp_cache_unlocked json_len (Some l) = l.
Proof.
  intros Hne Hfit Hone. unfold read_acp_cache_unlocked.
  assert (json_len l <= MAX_ACP_CACHE_BYTES) as Hl.
  { destruct Hfit as [|H1]; [done|]. destruct l as [|x [|]]; try done. by apply Hone. }
  by rewrite (proj2 (Z.ltb_ge _ _)).
Qed.

(** Writing a conversation back to the cache is an upsert: what
    is read afterwards starts with that conversation, under the label of its
    first prompt as it was first recorded, followed by others of the old entries,
    newest first, none of them the same conversation, and at most sixty-four in
    all. *)
Theorem cache_write_is_an_upsert x file
    (Hnewest : ∀ e, e ∈ read_acp_cache_unlocked json_len file → conversation e ≠ conversation x →
      c_last_active_at_unix_ms e < c_last_active_at_unix_ms x)
    (Hfits : ∀ y, conversation y = conversation x → json_len [y] <= MAX_ACP_CACHE_BYTES) :
  let old := read_acp_cache_unlocked json_len file in
  ∃ y others, read_acp_cache_unlocked json_len (write_cached_acp_session json_len Io_Ok x file) = y :: others ∧
    conversation y = conversation x ∧ c_cwd y = c_cwd x ∧
    c_last_active_at_unix_ms y = c_last_active_at_unix_ms x ∧
    c_first_prompt_label y =
      match List.find (λ e, bool_decide (conversation e = conversation x)) old with
      | Some e => match c_first_prompt_label e with Some l => Some l | None => c_first_prompt_label x end
      | None => c_first_prompt_label x
      end ∧
    (∀ e, e ∈ others → e ∈ old ∧ conversation e ≠ conversation x) ∧
    StronglySorted (λ a b, c_last_active_at_unix_ms b <= c_last_active_at_unix_ms a) (y :: others) ∧
    (length (y :: others) <= 64)%nat.
Proof.
  intros old. unfold write_cached_acp_session. fold old.
  set (same := same_conversation (c_provider x) (c_acp_session_id x)).
  set (rest := List.filter (λ e, negb (same e)) old). set (y := Build_CachedAcpSession _ _ _ _ _ _ _ _).
  assert (Hrest : ∀ e, e ∈ rest → e ∈ old ∧ conversation e ≠ conversation x).
  { intros e He%list_elem_of_In. apply filter_In in He as [He Hn%negb_true_iff%not_true_iff_false].
    split; [by apply list_elem_of_In|]. intros Hc. apply Hn. by apply same_conversation_spec. }
  unfold write_acp_cache_unlocked. rewrite sort_desc_newest.
  2: { apply Forall_forall. intros e He. destruct (Hrest e He). by apply Hnewest. }
  set (l := take MAX_CACHED_ACP_SESSIONS (y :: sort_desc c_last_active_at_unix_ms rest)).
  destruct (pop_until_fits_spec (length l) l ltac:(done) ltac:(lia)) as (n & Hpop & Hn & Hfit).
  cbv zeta. rewrite Hpop. cbn [snd]. destruct n as [|n]; [lia|].
  unfold l in Hfit |- *. unfold MAX_CACHED_ACP_SESSIONS in Hfit |- *.
  change (take 64 (y :: ?r)) with (y :: take 63 r) in *. rewrite !firstn_cons, !take_take in *.
  set (m := (n `min` 63)%nat) in *.
  rewrite read_back; [|done|done|intros z [= <- _]; by apply Hfits].
  exists y, (take m (sort_desc c_last_active_at_unix_ms rest)). split_and!; try done.
  - simpl. assert (List.find same old = List.find (λ e, bool_decide (conversation e = conversation x)) old)
      as -> by apply find_conversation.
    generalize (List.find (λ e, bool_decide (conversation e = conversation x)) old). intros [e|]; [|done].
    simpl. by destruct (c_first_prompt_label e).
  - intros e He%elem_of_take'. rewrite sort_desc_perm in He. by apply Hrest.
  - destruct (desc_take c_last_active_at_unix_ms m _ (sort_desc_sorted c_last_active_at_unix_ms rest)) as [Hs _].
    constructor; [done|]. apply Forall_forall. intros e He%elem_of_take'. rewrite sort_desc_perm in He.
    destruct (Hrest e He) as [Hin Hne]. specialize (Hnewest e Hin Hne). unfold y. simpl. lia.
  - simpl. rewrite length_take. lia.
Qed.
End CacheFile.

Module PickerExamples.
(** Claude Code's conversation "s1" is cached for /w; OpenCode has one under the
    same id there. *)
Definition claude : CachedAcpSession :=
  {| c_provider := ClaudeCode; c_cwd := "/w"; c_acp_session_id := "s1"; c_title := "claude";
     c_first_prompt_label := Some "fix it"%string; c_last_active_at_unix_ms := 5;
     c_desired_mode := None; c_desired_config := [] |}.
Definition before : Lists := {| cache_of := Some [claude]; probes := []; discovered := [] |}.
Definition opencode_page (id : string) (_ : option string) : option SessionPage :=
  Some {| page_sessions := [{| i_session_id := id; i_cwd := "/w"; i_title := Some " opencode "%string;
                               i_updated_at := Some "1970-01-01T00:00:00.009Z"%string |}];
          page_next_cursor := None |}.
Definition small (_ : list CachedAcpSession) : Z := 100.
Definition listed (id : string) : list AgentSessionSummary * Lists :=
  list_agent_sessions_for small Some OpenCode "/w" 0 1 2 true (opencode_page id) before.
Definition other_row (id : string) : AgentSessionSummary :=
  {| summary_acp_session_id := id; summary_provider := OpenCode; summary_title := "opencode";
     summary_label := None; summary_last_active_at_unix_ms := 9 |}.

Lemma resumes_witness : ∃ e,
  resumable_conversation small "/w" "s2" (listed "s2").2 = Some e ∧
  c_provider e = OpenCode ∧ c_cwd e = "/w"%string ∧ c_acp_session_id e = "s2"%string.
Proof.
  apply (listed_conversation_resumes_with_its_agent small Some OpenCode "/w" 0 1 2 true
    (opencode_page "s2") before (listed "s2").1 (listed "s2").2 (other_row "s2")).
  - intros m Hm. by apply elem_of_nil in Hm.
  - apply surjective_pairing.
  - change (listed "s2").1 with [other_row "s2"]. by apply list_elem_of_singleton.
  - intros e He. change (e ∈ [claude]) in He. apply list_elem_of_singleton in He as ->. intros _ Hid. discriminate Hid.
  - intros d Hd. vm_compute in Hd. apply list_elem_of_singleton in Hd as ->. reflexivity.
Defined.

Lemma join_witness :
  let shown := merge_agent_sessions ClaudeCode [claude] [] in
  StronglySorted (λ a b, summary_last_active_at_unix_ms b <= summary_last_active_at_unix_ms a) shown ∧
  NoDup (summary_acp_session_id <$> shown) ∧ (length shown <= 50)%nat ∧
  ∃ cut, shown ++ cut ≡ₚ joined (rows_of ClaudeCode [claude]) [] ∧
    ∀ a b, a ∈ shown → b ∈ cut → summary_last_active_at_unix_ms b <= summary_last_active_at_unix_ms a.
Proof.
  apply (merged_list_is_the_join ClaudeCode [claude] []).
  - apply NoDup_singleton.
  - constructor.
Defined.

Definition claude_later : CachedAcpSession :=
  {| c_provider := ClaudeCode; c_cwd := "/w"; c_acp_session_id := "s1"; c_title := "claude";
     c_first_prompt_label := Some "and now"%string; c_last_active_at_unix_ms := 7;
     c_desired_mode := None; c_desired_config := [] |}.

Lemma upsert_witness :
  let old := read_acp_cache_unlocked small (Some [claude]) in
  ∃ y others,
    read_acp_cache_unlocked small (write_cached_acp_session small Io_Ok claude_later (Some [claude]))
      = y :: others ∧
    conversation y = conversation claude_later ∧ c_cwd y = c_cwd claude_later ∧
    c_last_active_at_unix_ms y = c_last_active_at_unix_ms claude_later ∧
    c_first_prompt_label y =
      match List.find (λ e, bool_decide (conversation e = conversation claude_later)) old with
      | Some e => match c_first_prompt_label e with
                  | Some l => Some l
                  | None => c_first_prompt_label claude_later
                  end
      | None => c_first_prompt_label claude_later
      end ∧
    (∀ e, e ∈ others → e ∈ old ∧ conversation e ≠ conversation claude_later) ∧
    StronglySorted (λ a b, c_last_active_at_unix_ms b <= c_last_active_at_unix_ms a) (y :: others) ∧
    (length (y :: others) <= 64)%nat.
Proof.
  apply (cache_write_is_an_upsert small claude_later (Some [claude])).
  - intros e He. change (e ∈ [claude]) in He. apply list_elem_of_singleton in He as ->. intros _. reflexivity.
  - intros y _. discriminate.
Defined.

(** Without that proviso the cache alone decides: the row OpenCode's
    picker shows is resumed with Claude Code. *)
Theorem shared_id_resumes_the_other_agent :
  (listed "s1").1 = [other_row "s1"] ∧
  resumable_conversation small "/w" "s1" (listed "s1").2 = Some claude ∧
  c_provider claude ≠ summary_provider (other_row "s1").
Proof. split_and!; [by vm_compute|by vm_compute|done]. Qed.
End PickerExamples.
