(* ===== verification/Transfer.v ===== *)
(** * Transfer: files to and from the phone

    [crates/host/src/file_transfer.rs]: uploads written to a temporary sibling
    and committed by a rename after verification, downloads streamed in chunks
    that a phone can resume, and the registry of temporaries that a restart
    cleans up. The file system is a map of names to inodes, because an upload
    holds its file open while names move; every system call may fail. *)

From Stdlib Require Import Ascii.
From S2P Require Import Prelude Protocol.

(** ** Paths: the components of an absolute Unix path *)
Abbreviation path := (list string).

Fixpoint split_slash (s : string) : list string :=
  match s with
  | EmptyString => [EmptyString]
  | String c s' =>
      if Ascii.eqb c "/"%char then EmptyString :: split_slash s'
      else match split_slash s' with
           | w :: ws => String c w :: ws
           | [] => [String c EmptyString]
           end
  end.

Definition path_components (s : string) : path :=
  List.filter (λ c, negb (bool_decide (c = ""%string) || bool_decide (c = "."%string))) (split_slash s).
Definition is_absolute_text (s : string) : bool :=
  match s with String c _ => Ascii.eqb c "/"%char | EmptyString => false end.

Definition parent (p : path) : option path :=
  match p with [] => None | _ => Some (take (length p - 1) p) end.
Definition file_name (p : path) : option string :=
  match last p with
  | Some n => if bool_decide (n = ".."%string) then None else Some n
  | None => None
  end.
Definition starts_with (p prefix : path) : bool := bool_decide (take (length prefix) p = prefix).

(** ** Decimal numbers and the names of temporaries *)
Fixpoint dec_digits (fuel : nat) (n : Z) (acc : bytes) : bytes :=
  match fuel with
  | O => acc
  | S fuel =>
      let acc := byte_of (48 + n mod 10) :: acc in
      if n / 10 =? 0 then acc else dec_digits fuel (n / 10) acc
  end.
Definition decimal (n : Z) : bytes := dec_digits 20 n [].

Definition UPLOAD_PREFIX : bytes := str_bytes ".portty-upload-".
Definition UPLOAD_SUFFIX : bytes := str_bytes ".part".

Definition temporary_name (id : TransferId) : string :=
  String.string_of_list_byte (UPLOAD_PREFIX ++ decimal id ++ UPLOAD_SUFFIX).

Definition strip_prefix (p s : bytes) : option bytes :=
  if bool_decide (take (length p) s = p) then Some (drop (length p) s) else None.
Definition strip_suffix (p s : bytes) : option bytes :=
  if bool_decide (drop (length s - length p) s = p) && (length p <=? length s)%nat
  then Some (take (length s - length p) s) else None.

Definition is_digit (b : Byte.byte) : bool := (48 <=? byte_val b) && (byte_val b <=? 57).

(** Paths of the model are absolute. *)
Definition valid_upload_temporary (p : path) : bool :=
  match file_name p with
  | None => false
  | Some name =>
      match strip_prefix UPLOAD_PREFIX (str_bytes name) ≫= strip_suffix UPLOAD_SUFFIX with
      | None => false
      | Some id => negb (bool_decide (id = [])) && forallb is_digit id
      end
  end.

(** ** The file system *)
Record Fs := { names : gmap path nat; inodes : gmap nat bytes; next_inode : nat }.

Definition fs_read (p : path) (fs : Fs) : option bytes := i ← names fs !! p; inodes fs !! i.

(** [true] when the file is gone afterwards: removed, or not there. *)
Definition remove_file (ok : bool) (p : path) (fs : Fs) : bool * Fs :=
  match names fs !! p with
  | None => (true, fs)
  | Some _ =>
      if ok then (true, {| names := delete p (names fs); inodes := inodes fs; next_inode := next_inode fs |})
      else (false, fs)
  end.

(** [create_new(true)]: the new inode, or nothing. *)
Definition create_new (ok : bool) (p : path) (fs : Fs) : option nat * Fs :=
  match names fs !! p with
  | Some _ => (None, fs)
  | None =>
      if ok then
        let i := next_inode fs in
        (Some i, {| names := <[p := i]> (names fs); inodes := <[i := []]> (inodes fs); next_inode := S i |})
      else (None, fs)
  end.

Definition append_inode (i : nat) (data : bytes) (fs : Fs) : Fs :=
  {| names := names fs; inodes := <[i := default [] (inodes fs !! i) ++ data]> (inodes fs);
     next_inode := next_inode fs |}.

Definition rename (from to : path) (fs : Fs) : option Fs :=
  i ← names fs !! from;
  Some {| names := <[to := i]> (delete from (names fs)); inodes := inodes fs; next_inode := next_inode fs |}.

(** ** The registry of temporaries *)
Record UploadCleanup := { tracked : gset path; on_disk : gset path }.

(** What a write of the record comes to: done, failed with the old or with the
    new contents in place. *)
Inductive PersistOutcome := Persist_Ok | Persist_FailedOld | Persist_FailedNew.

Definition persist (o : PersistOutcome) (c : UploadCleanup) : bool * UploadCleanup :=
  match o with
  | Persist_Ok => (true, {| tracked := tracked c; on_disk := tracked c |})
  | Persist_FailedOld => (false, c)
  | Persist_FailedNew => (false, {| tracked := tracked c; on_disk := tracked c |})
  end.

Definition track (o : PersistOutcome) (p : path) (c : UploadCleanup) : bool * UploadCleanup :=
  if negb (valid_upload_temporary p) then (false, c)
  else if bool_decide (p ∈ tracked c) then (false, c)
  else match persist o {| tracked := {[p]} ∪ tracked c; on_disk := on_disk c |} with
       | (true, c') => (true, c')
       | (false, c') => (false, {| tracked := tracked c' ∖ {[p]}; on_disk := on_disk c' |})
       end.

Definition forget (o : PersistOutcome) (p : path) (c : UploadCleanup) : UploadCleanup :=
  if negb (bool_decide (p ∈ tracked c)) then c
  else match persist o {| tracked := tracked c ∖ {[p]}; on_disk := on_disk c |} with
       | (true, c') => c'
       | (false, c') => {| tracked := {[p]} ∪ tracked c'; on_disk := on_disk c' |}
       end.

(** [UploadCleanup::open] on the record [ps]; [ok] tells which removals succeed. *)
Fixpoint clean_all (ok : path → bool) (ps : list path) (remaining : gset path) (fs : Fs)
    : option (gset path) * Fs :=
  match ps with
  | [] => (Some remaining, fs)
  | p :: ps =>
      if negb (valid_upload_temporary p) then (None, fs)
      else match remove_file (ok p) p fs with
           | (true, fs') => clean_all ok ps remaining fs'
           | (false, fs') => clean_all ok ps ({[p]} ∪ remaining) fs'
           end
  end.

Definition cleanup_open (ok : path → bool) (o : PersistOutcome) (ps : list path) (fs : Fs)
    : option UploadCleanup * Fs :=
  match clean_all ok ps ∅ fs with
  | (None, fs') => (None, fs')
  | (Some remaining, fs') =>
      match persist o {| tracked := remaining; on_disk := list_to_set ps |} with
      | (true, c) => (Some c, fs')
      | (false, _) => (None, fs')
      end
  end.

(** ** The transfers of a connection *)
Definition MAX_REMEMBERED_DOWNLOADS : nat := 8.
Definition MAX_ACTIVE_TRANSFERS : nat := 4.
Definition DEFAULT_MAX_TRANSFER_BYTES : Z := 4 * 1024 * 1024 * 1024.

(** How [write_all] comes out. [tokio::fs::File] writes in the background: a write that
    fails after [n] bytes is reported at once or, [late], by the next write or flush. *)
Inductive WriteOutcome := WriteOk | WriteFails (n : nat) (late : bool).
Definition landed (w : WriteOutcome) (data : bytes) : bytes :=
  match w with WriteOk => data | WriteFails n _ => take n data end.

(** [late_error]: a write failed and nothing has said so yet. *)
Record Upload := {
  target : path;
  temporary : path;
  u_inode : nat;             (* the open file *)
  expected_size : Z;
  written : Z;
  u_next_seq : Z;
  mode : option Z;
  hashed : bytes;            (* what the hasher has taken in *)
  late_error : bool;
}.

(** A download's task is streaming or finished. *)
Record Transfers := {
  home : path;
  max_transfer_bytes : Z;
  downloads : gmap TransferId path;
  download_order : list TransferId;
  active_downloads : gmap TransferId bool;   (* [true]: finished *)
  uploads : gmap TransferId Upload;
}.

Record World := { fs : Fs; cleanup : UploadCleanup; transfers : Transfers }.

Definition with_uploads (us : gmap TransferId Upload) (t : Transfers) : Transfers :=
  {| home := home t; max_transfer_bytes := max_transfer_bytes t; downloads := downloads t;
     download_order := download_order t; active_downloads := active_downloads t; uploads := us |}.
Definition with_active (a : gmap TransferId bool) (t : Transfers) : Transfers :=
  {| home := home t; max_transfer_bytes := max_transfer_bytes t; downloads := downloads t;
     download_order := download_order t; active_downloads := a; uploads := uploads t |}.
Definition with_downloads (d : gmap TransferId path) (o : list TransferId) (t : Transfers) : Transfers :=
  {| home := home t; max_transfer_bytes := max_transfer_bytes t; downloads := d;
     download_order := o; active_downloads := active_downloads t; uploads := uploads t |}.

Definition text (b : bytes) : string := String.string_of_list_byte b.

Definition check_size (n : Z) (t : Transfers) : result string unit :=
  if (0 <? max_transfer_bytes t) && (max_transfer_bytes t <? n) then
    Err (text (str_bytes "transfer of " ++ decimal n ++ str_bytes " bytes exceeds the host cap of "
               ++ decimal (max_transfer_bytes t) ++ str_bytes " (PORTTY_MAX_TRANSFER_BYTES)"))
  else Ok tt.

Definition prune_finished_downloads (t : Transfers) : Transfers :=
  with_active (filter (λ e, e.2 = false) (active_downloads t)) t.

Definition check_active_slot (t : Transfers) : result string unit * Transfers :=
  let t := prune_finished_downloads t in
  (if (MAX_ACTIVE_TRANSFERS <=? size (active_downloads t) + size (uploads t))%nat
   then Err "connection already has 4 active file transfers"%string else Ok tt, t).

(** The loop that evicts the oldest remembered downloads. *)
Fixpoint evict_downloads (order : list TransferId) (n : nat) (d : gmap TransferId path)
    : gmap TransferId path * list TransferId :=
  match n, order with
  | S n, old :: rest => evict_downloads rest n (delete old d)
  | _, _ => (d, order)
  end.

Definition remember_download (id : TransferId) (p : path) (t : Transfers) : Transfers :=
  match downloads t !! id with
  | Some _ => with_downloads (<[id := p]> (downloads t)) (download_order t) t
  | None =>
      let order := download_order t ++ [id] in
      let '(d, order) := evict_downloads order (length order - MAX_REMEMBERED_DOWNLOADS) (downloads t) in
      with_downloads (<[id := p]> d) order t
  end.

Definition candidate (p : string) (t : Transfers) : result string path :=
  if bool_decide (p = ""%string) then Err "file path is empty"%string
  else if is_absolute_text p then Ok (path_components p)
  else Ok (home t ++ path_components p).

Definition check_inside_home (canonical : path) (allow_outside : bool) (t : Transfers)
    : result string unit :=
  if allow_outside || starts_with canonical (home t) then Ok tt
  else Err "path is outside the host user's home directory"%string.

Section Ops.
(** BLAKE3, and the file system's resolution of links, which may fail. *)
Context (blake3 : bytes → bytes) (canonicalize : path → result string path).

(** A task that [start_download] or [retry_download] has spawned. *)
Inductive Spawned := Spawn (id : TransferId) (p : path) (start_seq : Z).

(** ** Downloads *)
Definition start_download (id : TransferId) (p : string) (start_seq : Z) (allow_outside : bool) (w : World)
    : (Spawned + Frame) * World :=
  let '(slot, t) := check_active_slot (transfers w) in
  let w := {| fs := fs w; cleanup := cleanup w; transfers := t |} in
  let outcome : result string path :=
    _ ← slot;
    if bool_decide (is_Some (active_downloads t !! id)) || bool_decide (is_Some (uploads t !! id))
    then Err "transfer id is already active"%string
    else
      requested ← candidate p t;
      canonical ← canonicalize requested;
      _ ← check_inside_home canonical allow_outside t;
      content ← ok_or (fs_read canonical (fs w)) "requested path is not a regular file"%string;
      _ ← check_size (Z.of_nat (length content)) t;
      Ok canonical in
  match outcome with
  | Ok canonical =>
      let t := remember_download id canonical t in
      (inl (Spawn id canonical start_seq),
       {| fs := fs w; cleanup := cleanup w;
          transfers := with_active (<[id := false]> (active_downloads t)) t |})
  | Err reason => (inr (Frame_FileErr id reason), w)
  end.

Definition retry_download (id : TransferId) (from_seq : Z) (w : World) : (Spawned + Frame) * World :=
  let t := with_active (delete id (active_downloads (transfers w))) (transfers w) in
  let '(slot, t) := check_active_slot t in
  let w := {| fs := fs w; cleanup := cleanup w; transfers := t |} in
  match slot with
  | Err reason => (inr (Frame_FileErr id reason), w)
  | Ok _ =>
      match downloads t !! id with
      | Some p =>
          (inl (Spawn id p from_seq),
           {| fs := fs w; cleanup := cleanup w;
              transfers := with_active (<[id := false]> (active_downloads t)) t |})
      | None => (inr (Frame_FileErr id "transfer is no longer available; start it again"%string), w)
      end
  end.

Definition cancel_download (id : TransferId) (w : World) : World :=
  let t := with_active (delete id (active_downloads (transfers w))) (transfers w) in
  let t := match downloads t !! id with
           | Some _ => with_downloads (delete id (downloads t))
                         (List.filter (λ d, negb (d =? id)) (download_order t)) t
           | None => t
           end in
  {| fs := fs w; cleanup := cleanup w; transfers := t |}.

(** *** The streaming task *)
Inductive ReadEvent := ReadOk (n : nat) | ReadFails (e : string).

(** Filling the buffer to [want] bytes: each read gives at least one byte while
    there are any, and at most what is asked for; the rest of the file and of the
    [reads] is handed on. With the events used up every read is complete. *)
Fixpoint fill (reads : list ReadEvent) (want : nat) (rest acc : bytes)
    : result string (bytes * bytes * list ReadEvent) :=
  match reads with
  | [] => Ok (acc ++ take want rest, drop want rest, [])
  | ReadFails e :: _ => if (want =? 0)%nat then Ok (acc, rest, reads) else Err e
  | ReadOk n :: reads' =>
      if (want =? 0)%nat then Ok (acc, rest, reads)
      else
        let n := Nat.min (Nat.max 1 n) want in
        match rest with
        | [] => Ok (acc, [], reads')
        | _ => fill reads' (want - length (take n rest)) (drop n rest) (acc ++ take n rest)
        end
  end.

Definition CHUNK : nat := Z.to_nat FILE_CHUNK_BYTES.

(** The pass over the file: the chunks sent, or the failure that ends it. *)
Fixpoint stream (buf_len fuel : nat) (id : TransferId) (start_seq seq : Z) (reads : list ReadEvent) (rest : bytes)
    : list Frame * result string unit :=
  match fuel with
  | O => ([], Ok tt)
  | S fuel =>
      match fill reads buf_len rest [] with
      | Err e => ([], Err (text (str_bytes "cannot read download: " ++ str_bytes e)))
      | Ok (buf, rest', reads') =>
          if bool_decide (buf = []) then ([], Ok tt)
          else
            let frames := if start_seq <=? seq then [Frame_FileChunk id seq buf] else [] in
            if (length buf <? buf_len)%nat then (frames, Ok tt)
            else let '(fs, r) := stream buf_len fuel id start_seq (seq + 1) reads' rest' in (frames ++ fs, r)
      end
  end.

(** The frames of one task, [content] being what its one pass reads and [changed]
    whether length or time differ at the end. *)
Definition spawn_download (id : TransferId) (start_seq : Z) (content : bytes) (original_len : Z)
    (changed : bool) (reads : list ReadEvent) : list Frame :=
  if original_len <? Z.min u64_max (start_seq * FILE_CHUNK_BYTES)
  then [Frame_FileErr id "resume point is beyond the end of the file"%string]
  else
    let '(frames, r) := stream CHUNK (S (length content)) id start_seq 0 reads content in
    match r with
    | Err e => frames ++ [Frame_FileErr id e]
    | Ok _ =>
        if changed then frames ++ [Frame_FileErr id "file changed during download; start the transfer again"%string]
        else frames ++ [Frame_FileDone id original_len (blake3 content)]
    end.

(** ** Uploads *)

(** How the system calls of an operation come out. The message of an operating
    system error, which the code appends to its own, is left out. *)
Record UploadIo := {
  io_track : PersistOutcome;
  io_create : bool;
  io_write : WriteOutcome;
  io_flush : bool;
  io_sync : bool;
  io_chmod : bool;
  io_rename : bool;
  io_sync_dir : bool;
  io_remove : bool;
  io_forget : PersistOutcome;
}.

Definition start_upload (io : UploadIo) (id : TransferId) (p : string) (n : Z) (md : option Z)
    (allow_outside : bool) (w : World) : result string unit * World :=
  let '(slot, t) := check_active_slot (transfers w) in
  let w := {| fs := fs w; cleanup := cleanup w; transfers := t |} in
  let checked : result string (path * path) :=
    _ ← slot;
    if bool_decide (is_Some (uploads t !! id)) || bool_decide (is_Some (active_downloads t !! id))
    then Err "upload id is already active"%string
    else
      _ ← check_size n t;
      tgt ← candidate p t;
      dir ← ok_or (parent tgt) "upload path has no parent directory"%string;
      dir ← map_err (λ e, text (str_bytes "cannot open upload directory: " ++ str_bytes e)) (canonicalize dir);
      _ ← check_inside_home dir allow_outside t;
      name ← ok_or (file_name tgt) "upload path has no file name"%string;
      Ok (dir ++ [name], dir ++ [temporary_name id]) in
  match checked with
  | Err e => (Err e, w)
  | Ok (tgt, tmp) =>
      match track (io_track io) tmp (cleanup w) with
      | (false, c) =>
          (Err "cannot register upload temporary file"%string, {| fs := fs w; cleanup := c; transfers := t |})
      | (true, c) =>
          match create_new (io_create io) tmp (fs w) with
          | (None, f) =>
              (Err "cannot create upload temporary file"%string,
               {| fs := f; cleanup := forget (io_forget io) tmp c; transfers := t |})
          | (Some i, f) =>
              (Ok tt,
               {| fs := f; cleanup := c;
                  transfers := with_uploads
                    (<[id := {| target := tgt; temporary := tmp; u_inode := i; expected_size := n;
                                written := 0; u_next_seq := 0; mode := md; hashed := []; late_error := false |}]> (uploads t)) t |})
          end
      end
  end.

Definition upload_chunk (io : UploadIo) (id : TransferId) (seq : Z) (data : bytes) (w : World)
    : result string (option Frame) * World :=
  let t := transfers w in
  match uploads t !! id with
  | None => (Err "unknown upload id"%string, w)
  | Some u =>
      if negb (seq =? u_next_seq u) then (Ok (Some (Frame_FileRetry id (u_next_seq u))), w)
      else if FILE_CHUNK_BYTES <? Z.of_nat (length data)
      then (Err "file chunk exceeds the 16 KiB limit"%string, w)
      else
        let next_size := saturating_add u64_max (written u) (Z.of_nat (length data)) in
        if expected_size u <? next_size then (Err "upload exceeds its declared size"%string, w)
        else if late_error u then (Err "could not write upload"%string, w)
        else
          let f := append_inode (u_inode u) (landed (io_write io) data) (fs w) in
          match io_write io with
          | WriteFails _ false =>
              (Err "could not write upload"%string, {| fs := f; cleanup := cleanup w; transfers := t |})
          | _ =>
              let u' := {| target := target u; temporary := temporary u; u_inode := u_inode u;
                           expected_size := expected_size u; written := next_size;
                           u_next_seq := u_next_seq u + 1; mode := mode u; hashed := hashed u ++ data;
                           late_error := match io_write io with WriteOk => false | WriteFails _ _ => true end |} in
              (Ok None,
               {| fs := f; cleanup := cleanup w; transfers := with_uploads (<[id := u']> (uploads t)) t |})
          end
  end.

(** The end of an upload's temporary: removed if possible, then forgotten. *)
Definition discard (io : UploadIo) (u : Upload) (w : World) : World :=
  match remove_file (io_remove io) (temporary u) (fs w) with
  | (true, f) => {| fs := f; cleanup := forget (io_forget io) (temporary u) (cleanup w);
                    transfers := transfers w |}
  | (false, f) => {| fs := f; cleanup := cleanup w; transfers := transfers w |}
  end.

Definition cancel_upload (io : UploadIo) (id : TransferId) (w : World) : World :=
  match uploads (transfers w) !! id with
  | None => w
  | Some u =>
      discard io u {| fs := fs w; cleanup := cleanup w;
                      transfers := with_uploads (delete id (uploads (transfers w))) (transfers w) |}
  end.

(** Verification and commit; on success the names have changed. *)
Definition commit_upload (io : UploadIo) (id : TransferId) (n : Z) (checksum : bytes) (u : Upload) (f : Fs)
    : result string Frame * Fs :=
  if negb (n =? expected_size u) || negb (written u =? expected_size u)
  then (Err (text (str_bytes "upload size mismatch (expected " ++ decimal (expected_size u)
                   ++ str_bytes ", received " ++ decimal (written u) ++ str_bytes ")")), f)
  else
    let actual := blake3 (hashed u) in
    if negb (bool_decide (actual = checksum)) then (Err "upload checksum mismatch"%string, f)
    else if late_error u || negb (io_flush io) then (Err "could not flush upload"%string, f)
    else if negb (io_sync io) then (Err "could not sync upload"%string, f)
    else if bool_decide (is_Some (mode u)) && negb (io_chmod io)
    then (Err "could not set upload mode"%string, f)
    else if negb (io_rename io) then (Err "could not commit upload"%string, f)
    else match rename (temporary u) (target u) f with
         | None => (Err "could not commit upload"%string, f)
         | Some f' =>
             if io_sync_dir io then (Ok (Frame_FileDone id n actual), f')
             else (Err "could not commit upload"%string, f')
         end.

Definition finish_upload (io : UploadIo) (id : TransferId) (n : Z) (checksum : bytes) (w : World)
    : result string Frame * World :=
  match uploads (transfers w) !! id with
  | None => (Err "unknown upload id"%string, w)
  | Some u =>
      let t := with_uploads (delete id (uploads (transfers w))) (transfers w) in
      let '(r, f) := commit_upload io id n checksum u (fs w) in
      match r with
      | Ok _ => (r, {| fs := f; cleanup := forget (io_forget io) (temporary u) (cleanup w); transfers := t |})
      | Err _ => (r, discard io u {| fs := f; cleanup := cleanup w; transfers := t |})
      end
  end.

(** [Drop]: the uploads in the order the map is drained. *)
Definition drop_transfers (io : TransferId → UploadIo) (us : list (TransferId * Upload)) (w : World) : World :=
  foldl (λ w e, discard (io e.1) e.2 w)
    {| fs := fs w; cleanup := cleanup w; transfers := with_uploads ∅ (transfers w) |} us.

(** ** The frames of a connection ([handle_connection]) *)
Inductive TransferOp :=
| GetReq (id : TransferId) (p : string) (start_seq : Z) (allow : bool)
| PutReq (io : UploadIo) (id : TransferId) (p : string) (n : Z) (md : option Z) (allow : bool)
| Chunk (io : UploadIo) (id : TransferId) (seq : Z) (data : bytes)
| Done (io : UploadIo) (id : TransferId) (n : Z) (checksum : bytes)
| Retry (id : TransferId) (from_seq : Z)
| Abort_ (io : UploadIo) (id : TransferId)
| TaskFinishes (id : TransferId).

Definition transfer_step (op : TransferOp) (w : World) : list Frame * World :=
  match op with
  | GetReq id p s a => let '(o, w) := start_download id p s a w in
                       (match o with inl _ => [] | inr f => [f] end, w)
  | PutReq io id p n md a =>
      let '(r, w) := start_upload io id p n md a w in
      (match r with Ok _ => [] | Err reason => [Frame_FileErr id reason] end, w)
  | Chunk io id seq data =>
      let '(r, w) := upload_chunk io id seq data w in
      match r with
      | Ok (Some f) => ([f], w)
      | Ok None => ([], w)
      | Err reason => ([Frame_FileErr id reason], cancel_upload io id w)
      end
  | Done io id n c =>
      let '(r, w) := finish_upload io id n c w in
      ([match r with Ok f => f | Err reason => Frame_FileErr id reason end], w)
  | Retry id s => let '(o, w) := retry_download id s w in
                  (match o with inl _ => [] | inr f => [f] end, w)
  | Abort_ io id => ([], cancel_upload io id (cancel_download id w))
  | TaskFinishes id =>
      let t := transfers w in
      ([], {| fs := fs w; cleanup := cleanup w;
              transfers := with_active (alter (λ _, true) id (active_downloads t)) t |})
  end.

Definition transfer_run (ops : list TransferOp) (w : World) : World :=
  foldl (λ w op, (transfer_step op w).2) w ops.
End Ops.

(** ** What the world keeps *)

(** A frame that does not name a temporary as its target, and a size that is one. *)
Definition op_ok (h : path) (op : TransferOp) : Prop :=
  match op with
  | PutReq _ _ p n _ _ =>
      n < u64_max ∧ valid_upload_temporary (path_components p) = false ∧
      valid_upload_temporary (h ++ path_components p) = false
  | _ => True
  end.

Record world_inv (w0 w : World) : Prop := {
  wi_inode : ∀ p i, names (fs w) !! p = Some i → (i < next_inode (fs w))%nat;
  wi_upload : ∀ id u, uploads (transfers w) !! id = Some u →
    names (fs w) !! temporary u = Some (u_inode u) ∧
    (late_error u = false → inodes (fs w) !! u_inode u = Some (hashed u)) ∧
    written u = Z.of_nat (length (hashed u)) ∧ expected_size u < u64_max ∧
    valid_upload_temporary (temporary u) = true ∧ valid_upload_temporary (target u) = false;
  wi_alone : ∀ id u p, uploads (transfers w) !! id = Some u →
    names (fs w) !! p = Some (u_inode u) → p = temporary u;
  wi_distinct : ∀ id u id' u', uploads (transfers w) !! id = Some u →
    uploads (transfers w) !! id' = Some u' → u_inode u = u_inode u' → id = id';
  wi_temporaries : ∀ p, is_Some (names (fs w) !! p) → valid_upload_temporary p = true →
    is_Some (names (fs w0) !! p) ∨ (p ∈ tracked (cleanup w) ∧ p ∈ on_disk (cleanup w));
  wi_home : home (transfers w) = home (transfers w0);
}.

(** The invariant does not look at downloads. *)
Lemma world_inv_transfers w0 w t :
  uploads t = uploads (transfers w) → home t = home (transfers w) → world_inv w0 w →
  world_inv w0 {| fs := fs w; cleanup := cleanup w; transfers := t |}.
Proof. intros Hu Hh []. split; simpl; rewrite ?Hu, ?Hh; done. Qed.

Lemma check_active_slot_same t :
  uploads (check_active_slot t).2 = uploads t ∧ home (check_active_slot t).2 = home t.
Proof. done. Qed.

Lemma remember_download_same id p t :
  uploads (remember_download id p t) = uploads t ∧ home (remember_download id p t) = home t.
Proof. unfold remember_download. case_match; [done|]. by destruct (evict_downloads _ _ _). Qed.

(** *** Removing an upload and its file *)
Lemma uploads_delete_inv w0 w id :
  world_inv w0 w →
  world_inv w0 {| fs := fs w; cleanup := cleanup w;
                  transfers := with_uploads (delete id (uploads (transfers w))) (transfers w) |}.
Proof.
  intros []. split; simpl; try done; intros *; rewrite ?lookup_delete_Some; naive_solver.
Qed.

Lemma forget_spec o p c q :
  (q ∈ tracked c ∧ q ∈ on_disk c) → q ≠ p → q ∈ tracked (forget o p c) ∧ q ∈ on_disk (forget o p c).
Proof.
  intros [Ht Hd] Hne. unfold forget. case_bool_decide; simpl; [|done].
  destruct o; simpl; set_solver.
Qed.

Lemma discard_inv w0 io u w :
  world_inv w0 w →
  (∀ id v, uploads (transfers w) !! id = Some v → temporary v ≠ temporary u) →
  world_inv w0 (discard io u w).
Proof.
  intros Hi Hfree. unfold discard, remove_file.
  assert (Hforget : ∀ f : Fs, (∀ p i, names f !! p = Some i → names (fs w) !! p = Some i ∧ p ≠ temporary u) →
    (∀ p, p ≠ temporary u → names f !! p = names (fs w) !! p) →
    inodes f = inodes (fs w) → next_inode f = next_inode (fs w) →
    world_inv w0 {| fs := f; cleanup := forget (io_forget io) (temporary u) (cleanup w);
                    transfers := transfers w |}).
  { intros f Hsub Hkeep Hino Hnext. split; simpl; rewrite ?Hino, ?Hnext.
    - intros p i [Hp _]%Hsub. by eapply wi_inode.
    - intros id v Hv. destruct (wi_upload _ _ Hi _ _ Hv) as (? & ?).
      rewrite Hkeep by (by eapply Hfree). done.
    - intros id v p Hv [Hp _]%Hsub. by eapply wi_alone.
    - apply Hi.
    - intros p [i Hp] Hvalid. destruct (Hsub _ _ Hp) as [Hp' Hne].
      destruct (wi_temporaries _ _ Hi p) as [|H]; [by eauto|done|by left|right]. by apply forget_spec.
    - apply Hi. }
  destruct (names (fs w) !! temporary u) as [i|] eqn:Hn; [destruct (io_remove io)|].
  - apply Hforget; simpl; try done.
    + intros p j [Hne Hp]%lookup_delete_Some. done.
    + intros p Hne. by rewrite lookup_delete_ne.
  - by destruct w.
  - apply Hforget; try done. intros p j Hp. split; [done|congruence].
Qed.

Lemma other_temporaries w0 w id u : world_inv w0 w → uploads (transfers w) !! id = Some u →
  ∀ id' v, delete id (uploads (transfers w)) !! id' = Some v → temporary v ≠ temporary u.
Proof.
  intros Hi Hu id' v [Hne Hv]%lookup_delete_Some Heq. apply Hne.
  destruct (wi_upload _ _ Hi _ _ Hu) as [Hnu _], (wi_upload _ _ Hi _ _ Hv) as [Hnv _].
  rewrite Heq in Hnv. eapply (wi_distinct _ _ Hi); [done..|congruence].
Qed.

Lemma cancel_upload_inv w0 io id w : world_inv w0 w → world_inv w0 (cancel_upload io id w).
Proof.
  intros Hi. unfold cancel_upload. destruct (uploads (transfers w) !! id) as [u|] eqn:Hu; [|done].
  apply discard_inv; [by apply uploads_delete_inv|]. simpl. by eapply other_temporaries.
Qed.

Lemma file_name_snoc dir name : name ≠ ".."%string → file_name (dir ++ [name]) = Some name.
Proof. intros Hn. unfold file_name. rewrite last_snoc. by rewrite bool_decide_eq_false_2. Qed.

Lemma valid_temporary_by_name p q :
  file_name p = file_name q → valid_upload_temporary p = valid_upload_temporary q.
Proof. unfold valid_upload_temporary. by intros ->. Qed.

Lemma file_name_not_dots p name : file_name p = Some name → name ≠ ".."%string.
Proof. unfold file_name. destruct (last p); [|done]. case_bool_decide; naive_solver. Qed.

Lemma track_true o p c c' :
  track o p c = (true, c') →
  valid_upload_temporary p = true ∧ tracked c' = {[p]} ∪ tracked c ∧ on_disk c' = {[p]} ∪ tracked c.
Proof.
  unfold track. destruct (valid_upload_temporary p); simpl; [|done].
  case_bool_decide; [done|]. destruct o; simpl; by intros [= <-].
Qed.

Lemma track_false o p c c' q :
  track o p c = (false, c') → q ∈ tracked c ∧ q ∈ on_disk c → q ∈ tracked c' ∧ q ∈ on_disk c'.
Proof.
  unfold track. destruct (valid_upload_temporary p); simpl; [|by intros [= <-]].
  case_bool_decide as Hp; [by intros [= <-]|].
  destruct o; simpl; [done|..]; intros [= <-] [Ht Hd]; simpl;
    (assert (q ≠ p) by congruence); set_solver.
Qed.

(** Changing only the registry, as long as it keeps what is needed. *)
Lemma world_inv_cleanup w0 w c :
  (∀ q, is_Some (names (fs w) !! q) → q ∈ tracked (cleanup w) ∧ q ∈ on_disk (cleanup w) →
    q ∈ tracked c ∧ q ∈ on_disk c) →
  world_inv w0 w → world_inv w0 {| fs := fs w; cleanup := c; transfers := transfers w |}.
Proof.
  intros Hq Hi. split; simpl; try apply Hi.
  intros p Hp Hv. destruct (wi_temporaries _ _ Hi p Hp Hv) as [|H]; [by left|right]. by apply Hq.
Qed.

(** A temporary was tracked and then given up again. *)
Lemma track_forget_kept o o' p c c' q :
  track o p c = (true, c') → q ∈ tracked c ∧ q ∈ on_disk c →
  q ∈ tracked (forget o' p c') ∧ q ∈ on_disk (forget o' p c').
Proof.
  intros Ht [Hqt Hqd]. destruct (track_true _ _ _ _ Ht) as (_ & Htc & Hdc).
  assert (p ∉ tracked c) as Hp.
  { unfold track in Ht. destruct (valid_upload_temporary p); [|done]. simpl in Ht. by case_bool_decide. }
  apply forget_spec; [rewrite Htc, Hdc; set_solver|congruence].
Qed.

Section Invariant.
Context (blake3 : bytes → bytes) (canonicalize : path → result string path).

(** What the checks of [start_upload] establish. *)
Lemma start_upload_targets (c : path → result string path) t p tgt dir name tmp :
  candidate p t = Ok tgt → file_name tgt = Some name →
  valid_upload_temporary (path_components p) = false →
  valid_upload_temporary (home t ++ path_components p) = false →
  valid_upload_temporary (dir ++ [name]) = false ∧
  (valid_upload_temporary (dir ++ [tmp]) = true → dir ++ [name] ≠ dir ++ [tmp]).
Proof.
  intros Hc Hn Hv1 Hv2. assert (Htgt : valid_upload_temporary tgt = false).
  { unfold candidate in Hc. case_bool_decide; [done|]. case_match; by simplify_eq. }
  assert (Hd : valid_upload_temporary (dir ++ [name]) = false).
  { rewrite (valid_temporary_by_name _ tgt); [done|].
    rewrite Hn. by eapply file_name_snoc, file_name_not_dots. }
  split; [done|]. intros Ht Heq. rewrite Heq in Hd. congruence.
Qed.

(** The upload that [start_upload] registers, on top of a registry that lists its
    temporary. *)
Lemma new_upload_inv w0 w id tgt tmp n md c :
  world_inv w0 w → n < u64_max → uploads (transfers w) !! id = None →
  names (fs w) !! tmp = None → valid_upload_temporary tmp = true → valid_upload_temporary tgt = false →
  (∀ q, q ∈ tracked (cleanup w) → q ∈ tracked c) → tmp ∈ tracked c → (∀ q, q ∈ tracked c → q ∈ on_disk c) →
  world_inv w0
    {| fs := {| names := <[tmp := next_inode (fs w)]> (names (fs w));
                inodes := <[next_inode (fs w) := []]> (inodes (fs w)); next_inode := S (next_inode (fs w)) |};
       cleanup := c;
       transfers := with_uploads
         (<[id := {| target := tgt; temporary := tmp; u_inode := next_inode (fs w); expected_size := n;
                     written := 0; u_next_seq := 0; mode := md; hashed := []; late_error := false |}]> (uploads (transfers w)))
         (transfers w) |}.
Proof.
  intros Hi Hn Hid Htmp Hv Hvt Hsub Htr Hdisk.
  assert (Hold : ∀ id' u, uploads (transfers w) !! id' = Some u → (u_inode u < next_inode (fs w))%nat).
  { intros id' u Hu. destruct (wi_upload _ _ Hi _ _ Hu) as [Hnu _]. by eapply wi_inode. }
  split; simpl.
  - intros p i [[<- <-]|[Hne Hp]]%lookup_insert_Some; [lia|]. apply (wi_inode _ _ Hi) in Hp. lia.
  - intros id' u [[<- <-]|[Hne Hu]]%lookup_insert_Some; simpl.
    { rewrite !lookup_insert_eq. split_and!; done. }
    destruct (wi_upload _ _ Hi _ _ Hu) as (Hnu & Hin & Hrest).
    rewrite !lookup_insert_ne; [done| |].
    + specialize (Hold _ _ Hu). lia.
    + intros Heq. rewrite <-Heq in Hnu. congruence.
  - intros id' u p [[<- <-]|[Hne Hu]]%lookup_insert_Some; simpl;
      intros [[<- Heq]|[Hnp Hp]]%lookup_insert_Some; try done.
    + apply (wi_inode _ _ Hi) in Hp. lia.
    + specialize (Hold _ _ Hu). lia.
    + by eapply wi_alone.
  - intros id1 u1 id2 u2 [[<- <-]|[Hne1 Hu1]]%lookup_insert_Some [[<- <-]|[Hne2 Hu2]]%lookup_insert_Some; simpl;
      intros Heq; try done.
    + specialize (Hold _ _ Hu2). lia.
    + specialize (Hold _ _ Hu1). lia.
    + by eapply wi_distinct.
  - intros p Hp Hvp. destruct (decide (p = tmp)) as [->|Hne]; [right; auto|].
    rewrite lookup_insert_ne in Hp by done.
    destruct (wi_temporaries _ _ Hi p Hp Hvp) as [|[Ht _]]; [by left|right; auto].
  - apply Hi.
Qed.

Lemma start_upload_inv w0 w io id p n md a r w' :
  start_upload canonicalize io id p n md a w = (r, w') →
  op_ok (home (transfers w0)) (PutReq io id p n md a) → world_inv w0 w → world_inv w0 w'.
Proof.
  unfold start_upload. intros Hs (Hn & Hv1 & Hv2) Hi.
  destruct (check_active_slot (transfers w)) as [slot t] eqn:Et.
  destruct (check_active_slot_same (transfers w)) as [Hus Hhome]. rewrite Et in Hus, Hhome. simpl in Hus, Hhome.
  pose proof (world_inv_transfers w0 w t Hus Hhome Hi) as Hi'.
  rewrite <-(wi_home _ _ Hi'), <-?Hhome in Hv2. simpl in Hv2.
  match type of Hs with (match ?c with _ => _ end = _) => destruct c as [[tgt tmp]|e] eqn:Hc end;
    [|by simplify_eq].
  destruct slot as [[]|]; [|done]. cbn [mbind result_bind] in Hc.
  destruct (bool_decide (is_Some (uploads t !! id))) eqn:Hbusy; [done|]. simpl in Hc.
  apply bool_decide_eq_false, eq_None_not_Some in Hbusy.
  destruct (bool_decide (is_Some (active_downloads t !! id))); [done|].
  destruct (check_size n t); [|done]. cbn [mbind result_bind] in Hc.
  destruct (candidate p t) as [full|] eqn:Hcand; [|done]. cbn [mbind result_bind] in Hc.
  destruct (ok_or (parent full) _) as [dir0|]; [|done]. cbn [mbind result_bind] in Hc.
  destruct (map_err _ (canonicalize dir0)) as [dir|]; [|done]. cbn [mbind result_bind] in Hc.
  destruct (check_inside_home dir a t); [|done]. cbn [mbind result_bind] in Hc.
  destruct (file_name full) as [name|] eqn:Hname; [|done]. simpl in Hc. injection Hc as <- <-.
  destruct (start_upload_targets canonicalize t p full dir name (temporary_name id) Hcand Hname Hv1 Hv2) as [Hvt _].
  simpl in Hs. destruct (track _ _ _) as [[] c] eqn:Htr; last first.
  { simplify_eq. apply (world_inv_cleanup w0 {| fs := fs w; cleanup := cleanup w; transfers := t |}); [|done].
    intros q _. by eapply track_false. }
  destruct (track_true _ _ _ _ Htr) as (Hv & Htc & Hdc).
  unfold create_new in Hs. destruct (names (fs w) !! (dir ++ [temporary_name id])) as [i|] eqn:Hex;
    [|destruct (io_create io)]; simplify_eq/=.
  - apply (world_inv_cleanup w0 {| fs := fs w; cleanup := cleanup w; transfers := t |}); [|done].
    intros q _. by eapply track_forget_kept.
  - apply (new_upload_inv w0 {| fs := fs w; cleanup := cleanup w; transfers := t |}); simpl; try done.
    + intros q. rewrite Htc. set_solver.
    + rewrite Htc. set_solver.
    + intros q. by rewrite Htc, Hdc.
  - apply (world_inv_cleanup w0 {| fs := fs w; cleanup := cleanup w; transfers := t |}); [|done].
    intros q _. by eapply track_forget_kept.
Qed.

(** Appending to the file an upload holds. *)
Lemma append_inv w0 w id u data us :
  world_inv w0 w → uploads (transfers w) !! id = Some u →
  (∀ id' v, us !! id' = Some v → ∃ v', uploads (transfers w) !! id' = Some v' ∧
     temporary v = temporary v' ∧ target v = target v' ∧ u_inode v = u_inode v' ∧
     expected_size v = expected_size v' ∧
     (id' = id → (late_error v = false → late_error u = false ∧ hashed v = hashed u ++ data) ∧
        written v = Z.of_nat (length (hashed v))) ∧
     (id' ≠ id → v = v')) →
  world_inv w0 {| fs := append_inode (u_inode u) data (fs w); cleanup := cleanup w;
                  transfers := with_uploads us (transfers w) |}.
Proof.
  intros Hi Hu Hus. destruct (wi_upload _ _ Hi _ _ Hu) as (Hnu & Hin & _).
  split; simpl; try apply Hi.
  - intros id' v Hv. destruct (Hus _ _ Hv) as (v' & Hv' & -> & -> & -> & -> & Hsame & Hother).
    destruct (wi_upload _ _ Hi _ _ Hv') as (Hn' & Hi' & Hw' & He' & Ht' & Hg').
    destruct (decide (id' = id)) as [->|Hne].
    + simplify_eq. destruct (Hsame eq_refl) as [Hlate ->]. split_and!; try done. intros Hv1.
      destruct (Hlate Hv1) as [Hu0 ->]. by rewrite lookup_insert_eq, (Hin Hu0).
    + rewrite lookup_insert_ne; [|intros Heq; apply Hne; by eapply (wi_distinct _ _ Hi)].
      by rewrite (Hother Hne).
  - intros id' v p Hv. destruct (Hus _ _ Hv) as (v' & Hv' & -> & _ & -> & _). by eapply wi_alone.
  - intros id1 u1 id2 u2 H1 H2. destruct (Hus _ _ H1) as (v1 & Hv1 & _ & _ & -> & _),
      (Hus _ _ H2) as (v2 & Hv2 & _ & _ & -> & _). by eapply wi_distinct.
Qed.

(** One chunk, and the cancellation that follows a failure. *)
Lemma upload_chunk_inv w0 w io id seq data r w' :
  upload_chunk io id seq data w = (r, w') → world_inv w0 w →
  world_inv w0 (match r with Ok _ => w' | Err _ => cancel_upload io id w' end).
Proof.
  unfold upload_chunk. intros Hs Hi. destruct (uploads (transfers w) !! id) as [u|] eqn:Hu;
    [|simplify_eq/=; by apply cancel_upload_inv].
  destruct (seq =? u_next_seq u); [|by simplify_eq/=]. simpl in Hs.
  destruct (FILE_CHUNK_BYTES <? _); [simplify_eq/=; by apply cancel_upload_inv|].
  destruct (Z.ltb_spec (expected_size u) (saturating_add u64_max (written u) (Z.of_nat (length data)))) as [|Hsz];
    [simplify_eq/=; by apply cancel_upload_inv|].
  destruct (wi_upload _ _ Hi _ _ Hu) as (_ & _ & Hw & He & _).
  destruct (late_error u) eqn:Hlate; [simplify_eq/=; by apply cancel_upload_inv|].
  assert (Hgoes_on : ∀ late, (late = false → landed (io_write io) data = data) →
    world_inv w0 {| fs := append_inode (u_inode u) (landed (io_write io) data) (fs w); cleanup := cleanup w;
      transfers := with_uploads (<[id := {| target := target u; temporary := temporary u; u_inode := u_inode u;
        expected_size := expected_size u; written := saturating_add u64_max (written u) (Z.of_nat (length data));
        u_next_seq := u_next_seq u + 1; mode := mode u; hashed := hashed u ++ data; late_error := late |}]>
        (uploads (transfers w))) (transfers w) |}).
  { intros late Hland. apply (append_inv w0 w id u); [done|done|].
    intros id' v [[<- <-]|[Hne Hv]]%lookup_insert_Some; [exists u|exists v]; simpl; [|naive_solver].
    split_and!; try done. intros _. split; [intros ->; by rewrite Hland|].
    rewrite length_app. unfold saturating_add in *. lia. }
  destruct (io_write io) as [|k [|]] eqn:Ew; simplify_eq/=; [by apply Hgoes_on..|].
  unfold cancel_upload. simpl. rewrite Hu. apply discard_inv; simpl; [|by eapply other_temporaries].
  apply (append_inv w0 w id u); [done|done|]. intros id' v [Hne Hv]%lookup_delete_Some. exists v. naive_solver.
Qed.

(** Committing: what happens to the names, and what the target then holds. *)
Lemma commit_upload_cases io id n c u f r f' :
  commit_upload blake3 io id n c u f = (r, f') →
  (f' = f ∧ ∃ e, r = Err e) ∨
  (rename (temporary u) (target u) f = Some f' ∧ late_error u = false ∧ n = expected_size u ∧ written u = n ∧
   blake3 (hashed u) = c ∧ (r = Ok (Frame_FileDone id n c) ∨ ∃ e, r = Err e)).
Proof.
  unfold commit_upload. intros H.
  destruct (Z.eqb_spec n (expected_size u)), (Z.eqb_spec (written u) (expected_size u)); simpl in H;
    try (left; by simplify_eq; eauto).
  destruct (bool_decide (blake3 (hashed u) = c)) eqn:Hc; simpl in H; [|left; by simplify_eq; eauto].
  apply bool_decide_eq_true in Hc.
  destruct (late_error u || negb (io_flush io)) eqn:Hl; [left; by simplify_eq; eauto|]. apply orb_false_iff in Hl as [Hl _].
  destruct (io_sync io); simpl in H; [|left; by simplify_eq; eauto].
  destruct (bool_decide (is_Some (mode u)) && negb (io_chmod io)); [left; by simplify_eq; eauto|].
  destruct (io_rename io); simpl in H; [|left; by simplify_eq; eauto].
  destruct (rename _ _ _) as [g|] eqn:Hr; [|left; by simplify_eq; eauto].
  right. destruct (io_sync_dir io); simplify_eq; split_and!; eauto; congruence.
Qed.

Lemma renamed_inv w0 w id u f' :
  world_inv w0 w → uploads (transfers w) !! id = Some u →
  rename (temporary u) (target u) (fs w) = Some f' →
  world_inv w0 {| fs := f'; cleanup := cleanup w;
                  transfers := with_uploads (delete id (uploads (transfers w))) (transfers w) |} ∧
  names f' = <[target u := u_inode u]> (delete (temporary u) (names (fs w))) ∧ inodes f' = inodes (fs w).
Proof.
  intros Hi Hu Hr. destruct (wi_upload _ _ Hi _ _ Hu) as (Hnu & Hin & Hw & He & Hvt & Hvg).
  unfold rename in Hr. rewrite Hnu in Hr. simplify_eq/=. split; [|done]. split; simpl.
  - intros p i [[<- <-]|[_ [_ Hp]%lookup_delete_Some]]%lookup_insert_Some; by eapply wi_inode.
  - intros id' v [Hne Hv]%lookup_delete_Some.
    destruct (wi_upload _ _ Hi _ _ Hv) as (Hnv & Hiv & ? & ? & Hvv & ?).
    rewrite lookup_insert_ne by congruence. rewrite lookup_delete_ne; [done|].
    intros Heq. rewrite <-Heq, Hnu in Hnv. apply Hne. eapply (wi_distinct _ _ Hi); [done..|congruence].
  - intros id' v p [Hne Hv]%lookup_delete_Some.
    intros [[<- Heq]|[_ [_ Hp]%lookup_delete_Some]]%lookup_insert_Some; [|by eapply wi_alone].
    exfalso. apply Hne. by eapply (wi_distinct _ _ Hi).
  - intros id1 u1 id2 u2 [_ H1]%lookup_delete_Some [_ H2]%lookup_delete_Some. by eapply wi_distinct.
  - intros p [i [[<- _]|[_ [_ Hp]%lookup_delete_Some]]%lookup_insert_Some] Hv; [congruence|].
    eapply (wi_temporaries _ _ Hi); [by eauto|done].
  - apply Hi.
Qed.

Lemma finish_upload_inv w0 w io id n c r w' :
  finish_upload blake3 io id n c w = (r, w') → world_inv w0 w → world_inv w0 w'.
Proof.
  unfold finish_upload. intros Hs Hi. destruct (uploads (transfers w) !! id) as [u|] eqn:Hu; [|by simplify_eq].
  destruct (commit_upload _ _ _ _ _ _ _) as [r' f'] eqn:Hc.
  assert (Hmid : world_inv w0 {| fs := f'; cleanup := cleanup w;
    transfers := with_uploads (delete id (uploads (transfers w))) (transfers w) |} ∧
    (∀ e, r' = Ok e → names f' !! temporary u = None)).
  { destruct (commit_upload_cases _ _ _ _ _ _ _ _ Hc) as [(-> & e & ->)|(Hr & _)].
    - split; [by apply uploads_delete_inv|done].
    - destruct (renamed_inv _ _ _ _ _ Hi Hu Hr) as (Hinv & Hnames & _). split; [done|].
      intros _ _. destruct (wi_upload _ _ Hi _ _ Hu) as (_ & _ & _ & _ & Hvt & Hvg).
      rewrite Hnames, lookup_insert_ne by congruence. apply lookup_delete_eq. }
  destruct Hmid as [Hmid Hgone]. destruct r' as [fr|e]; simplify_eq.
  - apply (world_inv_cleanup w0 {| fs := f'; cleanup := cleanup w;
      transfers := with_uploads (delete id (uploads (transfers w))) (transfers w) |}); [|done].
    simpl. intros q [i Hq] Hin. apply forget_spec; [done|]. intros ->.
    by rewrite (Hgone fr eq_refl) in Hq.
  - apply discard_inv; [done|]. simpl. by eapply other_temporaries.
Qed.

Lemma transfer_step_inv w0 op w :
  op_ok (home (transfers w0)) op → world_inv w0 w →
  world_inv w0 (transfer_step blake3 canonicalize op w).2.
Proof.
  intros Hop Hi. destruct op as [id p s a|io id p n md a|io id seq data|io id n c|id s|io id|id]; simpl.
  - unfold start_download. destruct (check_active_slot (transfers w)) as [slot t] eqn:Et.
    destruct (check_active_slot_same (transfers w)) as [Hus Hh]. rewrite Et in Hus, Hh. simpl in Hus, Hh.
    pose proof (world_inv_transfers w0 w t Hus Hh Hi) as Hi'.
    match goal with |- context [match ?c with Ok _ => _ | Err _ => _ end] => destruct c as [cp|e] end; simpl; [|done].
    destruct (remember_download_same id cp t) as [Hu' Hh'].
    apply (world_inv_transfers w0 {| fs := fs w; cleanup := cleanup w; transfers := t |}); simpl; done.
  - destruct (start_upload _ _ _ _ _ _ _ _) as [r w'] eqn:E. by eapply start_upload_inv.
  - destruct (upload_chunk _ _ _ _ _) as [r w'] eqn:E. pose proof (upload_chunk_inv _ _ _ _ _ _ _ _ E Hi).
    by destruct r as [[]|].
  - destruct (finish_upload _ _ _ _ _ _) as [r w'] eqn:E. by eapply finish_upload_inv.
  - unfold retry_download. set (t0 := with_active _ _). destruct (check_active_slot t0) as [slot t] eqn:Et.
    destruct (check_active_slot_same t0) as [Hus Hh]. rewrite Et in Hus, Hh. simpl in Hus, Hh.
    pose proof (world_inv_transfers w0 w t Hus Hh Hi) as Hi'.
    destruct slot; [|done]. destruct (downloads t !! id); [|done].
    apply (world_inv_transfers w0 {| fs := fs w; cleanup := cleanup w; transfers := t |}); simpl; done.
  - apply cancel_upload_inv. unfold cancel_download. apply (world_inv_transfers w0 w); [..|done];
      simpl; by case_match.
  - by apply (world_inv_transfers w0 w).
Qed.

Lemma transfer_run_inv w0 ops : ∀ w,
  Forall (op_ok (home (transfers w0))) ops → world_inv w0 w →
  world_inv w0 (transfer_run blake3 canonicalize ops w).
Proof.
  induction ops as [|op ops IH]; intros w Hops Hi; [done|]. apply Forall_cons in Hops as [Hop Hops].
  apply IH; [done|]. by apply transfer_step_inv.
Qed.

(** *** Files that are no temporaries *)
Lemma remove_file_read ok p q f : q ≠ p → fs_read q (remove_file ok p f).2 = fs_read q f.
Proof.
  intros Hne. unfold remove_file, fs_read. destruct (names f !! p); [destruct ok|]; simpl; try done.
  by rewrite lookup_delete_ne.
Qed.

Lemma discard_read io u w q : q ≠ temporary u → fs_read q (fs (discard io u w)) = fs_read q (fs w).
Proof.
  intros Hne. unfold discard. pose proof (remove_file_read (io_remove io) (temporary u) q (fs w) Hne) as H.
  by destruct (remove_file _ _ _) as [[] f].
Qed.

Lemma not_temporary w0 w id u q : world_inv w0 w → uploads (transfers w) !! id = Some u →
  valid_upload_temporary q = false → q ≠ temporary u ∧ names (fs w) !! q ≠ Some (u_inode u).
Proof.
  intros Hi Hu Hq. destruct (wi_upload _ _ Hi _ _ Hu) as (_ & _ & _ & _ & Hv & _). split; [congruence|].
  intros Hn. apply (wi_alone _ _ Hi _ _ _ Hu) in Hn. congruence.
Qed.

Lemma append_read i data q f : names f !! q ≠ Some i → fs_read q (append_inode i data f) = fs_read q f.
Proof.
  intros Hne. unfold fs_read. simpl. destruct (names f !! q) as [j|]; simpl; [|done].
  rewrite lookup_insert_ne; congruence.
Qed.

Lemma cancel_upload_read w0 io id w q :
  world_inv w0 w → valid_upload_temporary q = false →
  fs_read q (fs (cancel_upload io id w)) = fs_read q (fs w).
Proof.
  intros Hi Hq. unfold cancel_upload. destruct (uploads (transfers w) !! id) as [u|] eqn:Hu; [|done].
  destruct (not_temporary _ _ _ _ _ Hi Hu Hq). by rewrite discard_read.
Qed.

Lemma start_upload_read w0 io id p n md a w q :
  world_inv w0 w → valid_upload_temporary q = false →
  fs_read q (fs (start_upload canonicalize io id p n md a w).2) = fs_read q (fs w).
Proof.
  intros Hi Hq. unfold start_upload. destruct (check_active_slot (transfers w)) as [slot t].
  match goal with |- context [match ?c with Ok _ => _ | Err _ => _ end] => destruct c as [[tgt tmp]|e] end; [|done].
  simpl. destruct (track _ _ _) as [[] c] eqn:Htr; [|done].
  destruct (track_true _ _ _ _ Htr) as (Hv & _). assert (q ≠ tmp) by congruence.
  unfold create_new. destruct (names (fs w) !! tmp) as [i|]; [done|]. destruct (io_create io); [|done].
  unfold fs_read. simpl. rewrite lookup_insert_ne by done.
  destruct (names (fs w) !! q) as [j|] eqn:Hj; simpl; [|done].
  apply (wi_inode _ _ Hi) in Hj. rewrite lookup_insert_ne; [done|lia].
Qed.

Lemma upload_chunk_read w0 io id seq data w q :
  world_inv w0 w → valid_upload_temporary q = false →
  fs_read q (fs (transfer_step blake3 canonicalize (Chunk io id seq data) w).2) = fs_read q (fs w).
Proof.
  intros Hi Hq. simpl. unfold upload_chunk.
  destruct (uploads (transfers w) !! id) as [u|] eqn:Hu; [|by eapply cancel_upload_read].
  destruct (not_temporary _ _ _ _ _ Hi Hu Hq) as [Hne Hni].
  destruct (seq =? u_next_seq u); [|done]. simpl.
  destruct (FILE_CHUNK_BYTES <? _); [by eapply cancel_upload_read|].
  destruct (expected_size u <? _); [by eapply cancel_upload_read|].
  destruct (late_error u); [by eapply cancel_upload_read|].
  destruct (io_write io) as [|k [|]]; simpl; [by apply append_read..|].
  unfold cancel_upload. simpl. rewrite Hu, discard_read by done. simpl. by apply append_read.
Qed.

Lemma finish_upload_read w0 io id n c w q :
  world_inv w0 w → valid_upload_temporary q = false →
  let '(r, w') := finish_upload blake3 io id n c w in
  (fs_read q (fs w') = fs_read q (fs w) ∧ (∀ f, r = Ok f → False)) ∨
  ∃ u content, uploads (transfers w) !! id = Some u ∧
    fs_read (target u) (fs w') = Some content ∧ Z.of_nat (length content) = n ∧ blake3 content = c ∧
    (q ≠ target u → fs_read q (fs w') = fs_read q (fs w)) ∧
    (∀ f, r = Ok f → f = Frame_FileDone id n c).
Proof.
  intros Hi Hq. unfold finish_upload. destruct (uploads (transfers w) !! id) as [u|] eqn:Hu; [|by left].
  destruct (not_temporary _ _ _ _ _ Hi Hu Hq) as [Hne Hni].
  destruct (wi_upload _ _ Hi _ _ Hu) as (Hnu & Hin & Hw & He & Hvt & Hvg).
  destruct (commit_upload _ _ _ _ _ _ _) as [r f'] eqn:Hc.
  destruct (commit_upload_cases _ _ _ _ _ _ _ _ Hc) as [(-> & e & ->)|(Hr & Hlate & Hn & Hwn & Hb & Hres)].
  { left. split; [by rewrite discard_read|done]. }
  destruct (renamed_inv _ _ _ _ _ Hi Hu Hr) as (_ & Hnames & Hino).
  assert (Htgt : fs_read (target u) f' = Some (hashed u)).
  { unfold fs_read. rewrite Hnames, lookup_insert_eq, Hino. by apply Hin. }
  assert (Hothers : q ≠ target u → fs_read q f' = fs_read q (fs w)).
  { intros Hqt. unfold fs_read. rewrite Hnames, lookup_insert_ne, lookup_delete_ne, Hino by done. done. }
  destruct r as [fr|e]; right; exists u, (hashed u).
  - split_and!; [done|done|lia|done|done|]. intros f [= <-]. destruct Hres as [[= ->]|[e ?]]; done.
  - rewrite !discard_read by congruence. simpl. split_and!; [done|done|lia|done|done|done].
Qed.

Lemma start_download_cases id p s a w :
  let '(o, w') := start_download canonicalize id p s a w in
  fs w' = fs w ∧ ((∃ sp, o = inl sp) ∨ ∃ reason, o = inr (Frame_FileErr id reason)).
Proof.
  unfold start_download. destruct (check_active_slot (transfers w)) as [slot t].
  match goal with |- context [match ?c with Ok _ => _ | Err _ => _ end] => destruct c end; simpl; eauto.
Qed.

Lemma retry_download_cases id s w :
  let '(o, w') := retry_download id s w in
  fs w' = fs w ∧ ((∃ sp, o = inl sp) ∨ ∃ reason, o = inr (Frame_FileErr id reason)).
Proof.
  unfold retry_download. destruct (check_active_slot _) as [[] t]; simpl; eauto.
  destruct (downloads t !! id); simpl; eauto.
Qed.

(** Every step but the end of an upload. *)
Lemma step_quiet w0 op w :
  world_inv w0 w → (¬ ∃ io id n c, op = Done io id n c) →
  (∀ q, valid_upload_temporary q = false →
    fs_read q (fs (transfer_step blake3 canonicalize op w).2) = fs_read q (fs w)) ∧
  ∀ id n c, Frame_FileDone id n c ∉ (transfer_step blake3 canonicalize op w).1.
Proof.
  intros Hi Hnot. destruct op as [id p s a|io id p n md a|io id seq data|io id n c|id s|io id|id].
  - simpl. pose proof (start_download_cases id p s a w) as H.
    destruct (start_download canonicalize id p s a w) as [o w']. destruct H as [Hf Ho]. simpl. rewrite Hf.
    split; [done|]. intros id' n c. destruct Ho as [[sp ->]|[e ->]]; set_solver.
  - split; intros *.
    + intros Hq. pose proof (start_upload_read w0 io id p n md a w q Hi Hq) as H. simpl.
      by destruct (start_upload _ _ _ _ _ _ _ _) as [r w'].
    + simpl. destruct (start_upload _ _ _ _ _ _ _ _) as [[] w']; set_solver.
  - split; intros *; [by eapply upload_chunk_read|]. simpl. unfold upload_chunk.
    repeat case_match; simplify_eq/=; set_solver.
  - exfalso. apply Hnot. eauto.
  - simpl. pose proof (retry_download_cases id s w) as H.
    destruct (retry_download id s w) as [o w']. destruct H as [Hf Ho]. simpl. rewrite Hf.
    split; [done|]. intros id' n c. destruct Ho as [[sp ->]|[e ->]]; set_solver.
  - simpl. split; [|set_solver]. intros q Hq. rewrite (cancel_upload_read w0); [done| |done].
    unfold cancel_download. apply (world_inv_transfers w0 w); [..|done]; simpl; by case_match.
  - simpl. split; [done|set_solver].
Qed.

(** Cleaning up: what is listed is gone, nothing else is touched. *)
Lemma clean_all_spec ok ps : (∀ p, ok p = true) → ∀ rem f rem' f',
  clean_all ok ps rem f = (Some rem', f') →
  (∀ p, p ∈ ps → names f' !! p = None) ∧ (∀ p i, names f' !! p = Some i → names f !! p = Some i) ∧
  (∀ p, valid_upload_temporary p = false → fs_read p f' = fs_read p f).
Proof.
  intros Hok. induction ps as [|p ps IH]; intros rem f rem' f' H; simpl in H.
  { simplify_eq. split_and!; [set_solver|done|done]. }
  destruct (valid_upload_temporary p) eqn:Hv; simpl in H; [|done]. rewrite Hok in H.
  assert (Hrm : remove_file true p f = (true, (remove_file true p f).2) ∧ names (remove_file true p f).2 = delete p (names f)).
  { unfold remove_file. destruct (names f !! p) eqn:Hp; simpl; [done|]. by rewrite delete_id. }
  destruct Hrm as [Hrm Hnames]. rewrite Hrm in H.
  destruct (IH _ _ _ _ H) as (Hgone & Hsub & Hkeep). rewrite Hnames in Hsub. split_and!.
  - intros q [->|Hq]%elem_of_cons; [|by apply Hgone]. apply eq_None_not_Some. intros [i Hi].
    apply Hsub in Hi. by rewrite lookup_delete_eq in Hi.
  - intros q i Hq%Hsub. by apply lookup_delete_Some in Hq as [_ ?].
  - intros q Hq. rewrite Hkeep by done. apply remove_file_read. congruence.
Qed.

Definition fresh_world (w : World) : Prop :=
  uploads (transfers w) = ∅ ∧ ∀ p i, names (fs w) !! p = Some i → (i < next_inode (fs w))%nat.

Lemma fresh_world_inv w : fresh_world w → world_inv w w.
Proof.
  intros [Hu Hn]. split; try done; try (intros *; by rewrite Hu, lookup_empty). intros p Hp _. by left.
Qed.


(** After a crash at any moment, whatever was in flight, the
    next start removes every temporary an upload had left: with the removals
    allowed, no file of that kind remains that was not there before, and nothing
    else is touched. *)
Theorem restart_removes_the_temporaries w0 ops ok o ps f c
    (Hfresh : fresh_world w0) (Hops : Forall (op_ok (home (transfers w0))) ops)
    (w := transfer_run blake3 canonicalize ops w0)
    (Hrecord : list_to_set ps = on_disk (cleanup w))
    (Hok : ∀ p, ok p = true)
    (Hopen : cleanup_open ok o ps (fs w) = (Some c, f)) :
  (∀ p, valid_upload_temporary p = true → is_Some (names f !! p) → is_Some (names (fs w0) !! p)) ∧
  (∀ p, valid_upload_temporary p = false → fs_read p f = fs_read p (fs w)).
Proof.
  assert (Hi : world_inv w0 w) by (apply transfer_run_inv; [done|by apply fresh_world_inv]).
  clearbody w. unfold cleanup_open in Hopen.
  destruct (clean_all ok ps ∅ (fs w)) as [[rem|] f1] eqn:Hc; [|done].
  assert (f = f1) as -> by (destruct (persist _ _) as [[] ?]; by simplify_eq).
  destruct (clean_all_spec ok ps Hok _ _ _ _ Hc) as (Hgone & Hsub & Hkeep). split; [|done].
  intros p Hv [i Hp]. destruct (wi_temporaries _ _ Hi p) as [|[_ Hd]]; [exists i; by apply Hsub|done|done|].
  rewrite <-Hrecord in Hd. apply elem_of_list_to_set in Hd. by rewrite (Hgone p Hd) in Hp.
Qed.
End Invariant.

(** ** Downloads *)
Lemma CHUNK_pos : (0 < CHUNK)%nat.
Proof. unfold CHUNK, FILE_CHUNK_BYTES. lia. Qed.
#[local] Opaque CHUNK.

Section Chunks.
Context (size : nat).

Fixpoint chunks_from (fuel : nat) (c : bytes) : list bytes :=
  match fuel, c with
  | S fuel, _ :: _ => take size c :: chunks_from fuel (drop size c)
  | _, _ => []
  end.
(** A file as the chunks both sides number. *)
Definition chunks (c : bytes) : list bytes := chunks_from (length c) c.

Fixpoint frames_from (id start_seq seq : Z) (l : list bytes) : list Frame :=
  match l with
  | [] => []
  | b :: l => (if start_seq <=? seq then [Frame_FileChunk id seq b] else []) ++ frames_from id start_seq (seq + 1) l
  end.

Context (Hsize : (0 < size)%nat).

Lemma chunks_from_more f1 : ∀ f2 c, (length c <= f1)%nat → (length c <= f2)%nat →
  chunks_from f1 c = chunks_from f2 c.
Proof using Hsize.
  induction f1 as [|f1 IH]; intros f2 c H1 H2.
  { destruct c; [|simpl in H1; lia]. by destruct f2. }
  destruct c as [|b c]; [by destruct f2|]. destruct f2 as [|f2]; [simpl in H2; lia|].
  cbn [chunks_from]. f_equal. apply IH; rewrite length_drop; simpl in *; lia.
Qed.

Lemma chunks_cons c : c ≠ [] → chunks c = take size c :: chunks (drop size c).
Proof using Hsize.
  intros Hne. unfold chunks at 1. destruct c as [|b c]; [done|]. cbn [length chunks_from]. f_equal.
  apply chunks_from_more; rewrite length_drop; simpl; lia.
Qed.

Lemma concat_chunks n : ∀ c, (length c <= n)%nat → concat (chunks c) = c.
Proof using Hsize.
  induction n as [|n IH]; intros c Hn; [by destruct c; [|simpl in Hn; lia]|].
  destruct (decide (c = [])) as [->|Hne]; [done|]. rewrite chunks_cons by done. cbn [concat].
  rewrite IH; [apply take_drop|]. rewrite length_drop. lia.
Qed.

Lemma chunks_concat k : ∀ c, concat (drop k (chunks c)) = drop (k * size) c.
Proof using Hsize.
  induction k as [|k IH]; intros c; [by apply (concat_chunks (length c))|].
  destruct (decide (c = [])) as [->|Hne]; [by rewrite !drop_nil|].
  rewrite chunks_cons by done. cbn [drop]. by rewrite IH, drop_drop.
Qed.
End Chunks.

Lemma fill_spec reads : ∀ want rest acc,
  match fill reads want rest acc with
  | Ok (buf, rest', reads') => buf = acc ++ take want rest ∧ rest' = drop want rest ∧ reads' ⊆ reads
  | Err e => ReadFails e ∈ reads
  end.
Proof.
  induction reads as [|[n|e] reads IH]; intros want rest acc; simpl; [done|..].
  - destruct (Nat.eqb_spec want 0) as [->|Hw]; [by rewrite take_0, drop_0, app_nil_r|].
    destruct rest as [|b rest]; [rewrite take_nil, drop_nil, app_nil_r; set_solver|].
    set (m := (Nat.min (Nat.max 1 n) want)). set (l := b :: rest).
    specialize (IH (want - length (take m l))%nat (drop m l) (acc ++ take m l)).
    destruct (fill _ _ _ _) as [[[buf rest'] r']|e]; [|set_solver].
    destruct IH as (-> & -> & Hr). rewrite length_take, drop_drop, <-app_assoc.
    split_and!; [| |set_solver].
    + f_equal. destruct (Nat.le_gt_cases m (length l)) as [Hle|Hgt].
      * rewrite Nat.min_l by done. rewrite <-(take_drop m l) at 3.
        rewrite take_app_ge; rewrite length_take, Nat.min_l by done; [done|lia].
      * by rewrite (drop_ge l), take_nil, app_nil_r, !take_ge by lia.
    + destruct (Nat.le_gt_cases m (length l)) as [Hle|Hgt].
      * rewrite Nat.min_l by done. f_equal. lia.
      * by rewrite !(drop_ge l) by lia.
  - destruct (Nat.eqb_spec want 0) as [->|Hw]; [by rewrite take_0, drop_0, app_nil_r|set_solver].
Qed.

Lemma stream_spec size id start_seq fuel : (0 < size)%nat → ∀ seq reads rest,
  (length rest < fuel)%nat →
  match stream size fuel id start_seq seq reads rest with
  | (frames, Ok _) => frames = frames_from id start_seq seq (chunks size rest)
  | (frames, Err _) => frames `prefix_of` frames_from id start_seq seq (chunks size rest) ∧
      ∃ e, ReadFails e ∈ reads
  end.
Proof.
  intros Hsize. induction fuel as [|fuel IH]; intros seq reads rest Hf; [lia|]. cbn [stream].
  pose proof (fill_spec reads size rest []) as Hfill.
  destruct (fill reads size rest []) as [[[buf rest'] reads']|e].
  2: { split; [apply prefix_nil|eauto]. }
  destruct Hfill as (Hbuf & -> & Hsub). simpl in Hbuf. subst buf.
  case_bool_decide as Hnil.
  { destruct rest as [|b rest]; [done|]. destruct size; [lia|done]. }
  assert (rest ≠ []) as Hrest by (intros ->; by rewrite take_nil in Hnil).
  rewrite (chunks_cons size Hsize rest Hrest). cbn [frames_from].
  destruct (Nat.ltb_spec (length (take size rest)) size) as [Hshort|Hfull].
  { rewrite length_take in Hshort. rewrite (drop_ge rest) by lia. simpl. by rewrite app_nil_r. }
  rewrite length_take in Hfull. specialize (IH (seq + 1) reads' (drop size rest)).
  rewrite length_drop in IH. specialize (IH ltac:(lia)).
  destruct (stream _ _ _ _ _ _ _) as [frames [[]|e]].
  - by rewrite IH.
  - destruct IH as [Hp [e' He]]. split; [by apply prefix_app|]. exists e'. by apply Hsub.
Qed.

Lemma frames_from_imap id start_seq l : ∀ seq,
  frames_from id start_seq seq l =
    imap (λ i b, Frame_FileChunk id (Z.max start_seq seq + Z.of_nat i) b) (drop (Z.to_nat (start_seq - seq)) l).
Proof.
  induction l as [|b l IH]; intros seq; [by rewrite drop_nil|]. cbn [frames_from]. rewrite IH.
  destruct (Z.leb_spec start_seq seq) as [Hle|Hlt].
  - replace (Z.to_nat (start_seq - seq)) with 0%nat by lia.
    replace (Z.to_nat (start_seq - (seq + 1))) with 0%nat by lia. rewrite !drop_0. cbn [imap app].
    f_equal; [f_equal; lia|]. apply imap_ext. intros i x _. simpl. f_equal. lia.
  - replace (Z.to_nat (start_seq - seq)) with (S (Z.to_nat (start_seq - (seq + 1)))) by lia. simpl.
    apply imap_ext. intros i x _. f_equal. lia.
Qed.

(** However the reads fall, a download that is reported done has
    sent exactly the 16 KiB chunks of the file from the requested one on, in
    order and under their numbers, so that a phone which holds the chunks before
    it ends up with the whole file, whose length and checksum the last frame
    carries; a download that fails has sent a prefix of these chunks and says so;
    it fails only when the resume point is beyond the end, a read fails or the
    file changed. *)
Theorem download_is_a_resumable_stream blake3 id start_seq content changed reads
    (Hstart : 0 <= start_seq) (k := Z.to_nat start_seq)
    (cs := imap (λ i b, Frame_FileChunk id (start_seq + Z.of_nat i) b) (drop k (chunks CHUNK content)))
    (frames := spawn_download blake3 id start_seq content (Z.of_nat (length content)) changed reads) :
  take (k * CHUNK) content ++ concat (drop k (chunks CHUNK content)) = content ∧
  (frames = cs ++ [Frame_FileDone id (Z.of_nat (length content)) (blake3 content)] ∨
   (∃ sent reason, sent `prefix_of` cs ∧ frames = sent ++ [Frame_FileErr id reason] ∧
     (Z.of_nat (length content) < start_seq * FILE_CHUNK_BYTES ∨ changed = true ∨
      ∃ e, ReadFails e ∈ reads))).
Proof.
  split; [rewrite chunks_concat by apply CHUNK_pos; apply take_drop|]. unfold frames, spawn_download.
  destruct (Z.ltb_spec (Z.of_nat (length content)) (Z.min u64_max (start_seq * FILE_CHUNK_BYTES))) as [Hlt|Hge].
  { right. exists [], "resume point is beyond the end of the file"%string.
    split_and!; [apply prefix_nil|done|left; lia]. }
  pose proof (stream_spec CHUNK id start_seq (S (length content)) CHUNK_pos 0 reads content ltac:(lia)) as Hs.
  rewrite frames_from_imap in Hs. replace (start_seq - 0) with start_seq in Hs by lia.
  rewrite (Z.max_l start_seq 0) in Hs by lia. fold k cs in Hs.
  destruct (stream _ _ _ _ _ _ _) as [fr [[]|e]].
  - subst fr. destruct changed; [right|by left]. eexists cs, _. split_and!; [done|done|auto].
  - destruct Hs as [Hp He]. right. eexists fr, _. split_and!; [done|done|auto].
Qed.

(** ** The theorems at work *)
Module TransferExamples.
#[local] Transparent gmap_empty CHUNK.

(** A checksum that is the content itself, and a home without links. *)
Definition sum (b : bytes) : bytes := b.
Definition no_links (p : path) : result string path := Ok p.
Definition io_fine : UploadIo :=
  {| io_track := Persist_Ok; io_create := true; io_write := WriteOk; io_flush := true; io_sync := true; io_chmod := true; io_rename := true;
     io_sync_dir := true; io_remove := true; io_forget := Persist_Ok |}.
Definition home_world : World :=
  {| fs := {| names := {[ ["h"; "a"] := 0%nat ]}; inodes := {[ 0%nat := [Byte.x2e] ]}; next_inode := 1 |};
     cleanup := {| tracked := ∅; on_disk := ∅ |};
     transfers := {| home := ["h"]; max_transfer_bytes := 0; downloads := ∅; download_order := [];
                     active_downloads := ∅; uploads := ∅ |} |}.

Lemma home_world_fresh : fresh_world home_world.
Proof.
  split; [done|]. intros p i Hp. change (({[ ["h"; "a"]%string := 0%nat ]} : gmap path nat) !! p = Some i) in Hp.
  apply lookup_singleton_Some in Hp as [_ <-]. simpl. lia.
Qed.

Definition put_a : list TransferOp :=
  [PutReq io_fine 7 "a" 1 None false; Chunk io_fine 7 0 [Byte.x41]].
Definition put_done : TransferOp := Done io_fine 7 1 [Byte.x41].
Definition step_of (op : TransferOp) (ops : list TransferOp) : list Frame * World :=
  transfer_step sum no_links op (transfer_run sum no_links ops home_world).

Lemma put_a_ok : Forall (op_ok (home (transfers home_world))) put_a.
Proof. repeat constructor; vm_compute; done. Qed.


Lemma restart_witness :
  let w := transfer_run sum no_links put_a home_world in
  let f := (cleanup_open (λ _, true) Persist_Ok [["h"; ".portty-upload-7.part"]] (fs w)).2 in
  (∀ p, valid_upload_temporary p = true → is_Some (names f !! p) →
    is_Some (names (fs home_world) !! p)) ∧
  (∀ p, valid_upload_temporary p = false → fs_read p f = fs_read p (fs w)).
Proof.
  apply (restart_removes_the_temporaries sum no_links home_world put_a (λ _, true) Persist_Ok
    [["h"; ".portty-upload-7.part"]] _ {| tracked := ∅; on_disk := ∅ |}).
  - exact home_world_fresh.
  - exact put_a_ok.
  - by_vm.
  - reflexivity.
  - by_fst.
Defined.

Lemma download_witness : let content := [Byte.x41; Byte.x42] in
  let frames := spawn_download sum 1 0 content 2 false [ReadOk 1] in
  let cs := imap (λ i b, Frame_FileChunk 1 (0 + Z.of_nat i) b) (drop 0 (chunks CHUNK content)) in
  take (0 * CHUNK) content ++ concat (drop 0 (chunks CHUNK content)) = content ∧
  (frames = cs ++ [Frame_FileDone 1 2 (sum content)] ∨
   (∃ sent reason, sent `prefix_of` cs ∧ frames = sent ++ [Frame_FileErr 1 reason] ∧
     (2 < 0 * FILE_CHUNK_BYTES ∨ false = true ∨ ∃ e, ReadFails e ∈ [ReadOk 1]))).
Proof. exact (download_is_a_resumable_stream sum 1 0 [Byte.x41; Byte.x42] false [ReadOk 1] (Z.le_refl 0)). Defined.

(** A phone that names another upload's temporary as its target
    replaces the name under that upload: the first is reported done, and then the
    second is, with a checksum its target does not have. *)
Theorem aliased_target_certifies_other_content :
  let acts := [PutReq io_fine 7 "a" 1 None false; Chunk io_fine 7 0 [Byte.x41];
               PutReq io_fine 5 ".portty-upload-7.part" 1 None false; Chunk io_fine 5 0 [Byte.x42];
               Done io_fine 5 1 [Byte.x42]] in
  (step_of (Done io_fine 7 1 [Byte.x41]) acts).1 = [Frame_FileDone 7 1 [Byte.x41]] ∧
  fs_read ["h"; "a"] (fs (step_of (Done io_fine 7 1 [Byte.x41]) acts).2) = Some [Byte.x42].
Proof. split; by vm_compute. Qed.
End TransferExamples.
