(* ===== verification/PushRelay.v ===== *)
(** * PushRelay: the blind push doorbell

    [crates/push-relay/src/main.rs]: the fixed-window limiters, the checks on
    what a host presents, the registration table with its reclamation, and the
    handlers [register], [wake] and [revoke]. The relay runs many requests at
    once: a handler is a program counter with its local variables, the system
    is the shared state with the handlers in flight, and a step runs one handler
    from one point where it waits for a lock, a slot or the push provider to the
    next, or drops it (a client that disconnects). *)

From stdpp Require Import sorting.
From S2P Require Import Prelude Crypto.

(** ** Limits *)
Definition MAX_BLOB_BYTES : Z := 4096.
Definition MIN_WAKE_INTERVAL : Z := secs 3.
Definition MAX_DEVICES : Z := 10000.
Definition MAX_DEVICES_PER_HOST : Z := 32.
Definition REGISTRATION_TTL : Z := secs (30 * 24 * 60 * 60).
Definition RECLAIM_FRACTION : Z := 10.
Definition PROVIDER_CONCURRENCY : Z := 32.
Definition RATE_LIMIT_WINDOW : Z := secs 60.
Definition RATE_LIMIT_MAX : Z := 60.
Definition MAX_PSEUDONYMS_PER_TOKEN : Z := 8.
Definition WAKE_BUDGET_WINDOW : Z := secs 300.
Definition WAKE_BUDGET_MAX : Z := 60.
Definition HOST_HANDLE_CONTEXT : bytes := str_bytes "portty-push-host-handle-v2".

(** ** The fixed-window limiters *)

Inductive IpAddr := Ip_V4 (address : Z) | Ip_V6 (address : Z).
#[global] Instance IpAddr_eq_dec : EqDecision IpAddr.
Proof. solve_decision. Defined.
#[global] Instance IpAddr_countable : Countable IpAddr.
Proof.
  refine (inj_countable' (λ i, match i with Ip_V4 a => inl a | Ip_V6 a => inr a end)
    (λ s, match s with inl a => Ip_V4 a | inr a => Ip_V6 a end) _).
  by intros [].
Defined.

(** A budget per key: the start of the key's window and the hits in it. *)
Record Limiter (K : Type) `{Countable K} := {
  window : Z;
  max_hits : Z;
  hits : gmap K (Z * Z);
}.
Arguments Build_Limiter {K _ _}.
Arguments window {K _ _}.
Arguments max_hits {K _ _}.
Arguments hits {K _ _}.

Section limiter.
Context {K : Type} `{Countable K}.

Definition limiter_new (window max : Z) : Limiter K :=
  {| window := window; max_hits := max; hits := ∅ |}.

Definition set_hits (l : Limiter K) (h : gmap K (Z * Z)) : Limiter K :=
  {| window := window l; max_hits := max_hits l; hits := h |}.

(** [hits.retain(...)]: only windows that have not ended. *)
Definition retain_live (now w : Z) (h : gmap K (Z * Z)) : gmap K (Z * Z) :=
  filter (λ e, elapsed now e.2.1 < w) h.

Definition limiter_allow (l : Limiter K) (k : K) (now : Z) : Limiter K * bool :=
  let h := retain_live now (window l) (hits l) in
  match h !! k with
  | Some (start, count) =>
      if elapsed now start <? window l then
        if max_hits l <=? count then (set_hits l h, false)
        else (set_hits l (<[k := (start, count + 1)]> h), true)
      else (set_hits l (<[k := (now, 1)]> h), true)
  | None => (set_hits l (<[k := (now, 1)]> h), true)
  end.
End limiter.

Definition PerIpLimiter : Type := Limiter IpAddr.
Definition PerTokenLimiter : Type := Limiter string.
Definition ip_allow (l : PerIpLimiter) (ip : IpAddr) (now : Z) : PerIpLimiter * bool :=
  limiter_allow l ip now.
Definition token_allow (l : PerTokenLimiter) (token : string) (now : Z) : PerTokenLimiter * bool :=
  limiter_allow l token now.

(** ** What goes over the wire *)
Inductive Provider := Apns | Fcm.

Record Device := {
  provider : Provider;
  device_token : string;
  sealed_wake_blob : string;
  refreshed : Z;
}.

Record RegisterRequest := {
  reg_host_pseudonym : string;
  reg_registration_id : string;
  reg_provider : Provider;
  reg_device_token : string;
  reg_sealed_wake_blob : string;
}.

Record WakeRequest := { wake_host_pseudonym : string }.

Record RevokeRequest := {
  rev_host_pseudonym : string;
  rev_registration_id : string;
}.

Inductive RegistrationAuth := Auth_Admin (token : string) | Auth_Open.

Inductive NotificationKind := Notify_Wake | Notify_Revoked.

Inductive StatusCode :=
| NO_CONTENT | BAD_REQUEST | UNAUTHORIZED | FORBIDDEN | NOT_FOUND | TOO_MANY_REQUESTS
| BAD_GATEWAY | SERVICE_UNAVAILABLE.

(** The headers of a request, as [get] followed by [to_str] finds them. *)
Definition HeaderMap : Type := string → option string.

Definition is_ascii_hexdigit (b : Byte.byte) : bool :=
  let v := byte_val b in
  ((48 <=? v) && (v <=? 57)) || ((65 <=? v) && (v <=? 70)) || ((97 <=? v) && (v <=? 102)).

Definition valid_id (value : string) : bool :=
  (Z.of_nat (String.length value) =? 64) && forallb is_ascii_hexdigit (str_bytes value).
Definition valid_registration_id (value : string) : bool := valid_id value.
Definition valid_blob (value : string) : bool :=
  (Z.of_nat (String.length value) <=? MAX_BLOB_BYTES) && forallb is_ascii_hexdigit (str_bytes value).

Definition strip_prefix (p s : string) : option string :=
  if String.prefix p s
  then Some (String.substring (String.length p) (String.length s - String.length p) s)
  else None.

Definition bearer (headers : HeaderMap) : option string :=
  headers "authorization" ≫= strip_prefix "Bearer ".

(** SHA-256 and the [hex] crate. *)
Class PushPrims := {
  sha256 : bytes → bytes;
  hex_encode : bytes → string;
  hex_decode : string → option bytes;
}.

(** The order in which a [HashMap] happens to yield its entries: any. *)
Record HashOrder := {
  in_order :> list ((string * string) * Device) → list ((string * string) * Device);
  in_order_perm : ∀ l, in_order l ≡ₚ l;
}.

Definition unordered : HashOrder := {| in_order := λ l, l; in_order_perm := λ l, reflexivity l |}.

Section relay.
Context `{PushPrims}.

Definition host_secret_matches (presented host_pseudonym : string) : bool :=
  match hex_decode presented with
  | None => false
  | Some secret =>
      if negb (Nat.eqb (length secret) 32) || negb (valid_id host_pseudonym) then false
      else bool_decide (hex_encode (sha256 (HOST_HANDLE_CONTEXT ++ secret)) = host_pseudonym)
  end.

Definition host_bearer_matches (headers : HeaderMap) (host_pseudonym : string) : bool :=
  match bearer headers with
  | Some secret => host_secret_matches secret host_pseudonym
  | None => false
  end.

Definition host_registration_proof_matches (headers : HeaderMap) (host_pseudonym : string) : bool :=
  match headers "x-portty-host-authorization" with
  | Some secret => host_secret_matches secret host_pseudonym
  | None => false
  end.

(** ** The registration table *)
Abbreviation Key := (string * string)%type.
Abbreviation Table := (gmap (string * string) Device).

Definition drop_count : Z := Z.max (MAX_DEVICES / RECLAIM_FRACTION) 1.

Definition older (a b : Key * Device) : Prop := refreshed a.2 ≤ refreshed b.2.
#[global] Instance older_dec : RelDecision older.
Proof. intros a b. unfold older. apply _. Defined.

Definition evict_oldest (hash_order : HashOrder) (devices : Table) : Table :=
  let ages := merge_sort older (hash_order (map_to_list devices)) in
  foldl (λ d e, delete e.1 d) devices (take (Z.to_nat drop_count) ages).

Definition live_registrations (now : Z) (devices : Table) : Table :=
  filter (λ e, elapsed now (refreshed e.2) < REGISTRATION_TTL) devices.

Definition reclaim_registrations (hash_order : HashOrder) (devices : Table) (now : Z) : Table :=
  let devices := live_registrations now devices in
  if Z.of_nat (size devices) <? MAX_DEVICES then devices else evict_oldest hash_order devices.

Definition registrations_of (host : string) (devices : Table) : Table :=
  filter (λ e, e.1.1 = host) devices.

Definition host_count (devices : Table) (host : string) : Z :=
  Z.of_nat (size (registrations_of host devices)).

(** The pseudonyms other than [host] that hold a registration of [token]. *)
Definition other_pseudonyms (devices : Table) (token host : string) : gset string :=
  list_to_set ((λ e, e.1.1) <$>
    filter (λ e, device_token e.2 = token ∧ e.1.1 ≠ host) (map_to_list devices)).

Definition pseudonyms_for_token (devices : Table) (token host : string) : Z :=
  Z.of_nat (size (other_pseudonyms devices token host)).

(** [register] under the lock of the table. *)
Definition register_locked (hash_order : HashOrder) (now : Z) (request : RegisterRequest)
    (devices : Table) : Table * StatusCode :=
  let host := reg_host_pseudonym request in
  let key := (host, reg_registration_id request) in
  let is_new := bool_decide (devices !! key = None) in
  let devices := if is_new then reclaim_registrations hash_order devices now else devices in
  if is_new && ((MAX_DEVICES <=? Z.of_nat (size devices))
      || (MAX_DEVICES_PER_HOST <=? host_count devices host)) then (devices, SERVICE_UNAVAILABLE)
  else if MAX_PSEUDONYMS_PER_TOKEN <=? pseudonyms_for_token devices (reg_device_token request) host
  then (devices, FORBIDDEN)
  else
    (<[key := {| provider := reg_provider request; device_token := reg_device_token request;
                 sealed_wake_blob := reg_sealed_wake_blob request; refreshed := now |}]> devices,
     NO_CONTENT).

Definition touch (now : Z) (d : Device) : Device :=
  {| provider := provider d; device_token := device_token d;
     sealed_wake_blob := sealed_wake_blob d; refreshed := now |}.

(** [wake] under the lock of the table: the host's registrations, stamped. *)
Definition stamp (now : Z) (host : string) (devices : Table) : Table :=
  map_imap (λ k d, Some (if bool_decide (k.1 = host) then touch now d else d)) devices.

Definition targets_of (hash_order : HashOrder) (host : string) (devices : Table) : list Device :=
  snd <$> filter (λ e, e.1.1 = host) (hash_order (map_to_list devices)).

(** ** The handlers *)
Record AppState := {
  devices : Table;
  last_wake : gmap string Z;
  registration : RegistrationAuth;
  ip_limiter : PerIpLimiter;
  token_limiter : PerTokenLimiter;
  provider_slots : Z;      (* permits left *)
}.

Definition build_state (registration : RegistrationAuth) : AppState :=
  {| devices := ∅; last_wake := ∅; registration := registration;
     ip_limiter := limiter_new RATE_LIMIT_WINDOW RATE_LIMIT_MAX;
     token_limiter := limiter_new WAKE_BUDGET_WINDOW WAKE_BUDGET_MAX;
     provider_slots := PROVIDER_CONCURRENCY |}.

Definition set_devices (s : AppState) (d : Table) : AppState :=
  {| devices := d; last_wake := last_wake s; registration := registration s;
     ip_limiter := ip_limiter s; token_limiter := token_limiter s;
     provider_slots := provider_slots s |}.
Definition set_last_wake (s : AppState) (w : gmap string Z) : AppState :=
  {| devices := devices s; last_wake := w; registration := registration s;
     ip_limiter := ip_limiter s; token_limiter := token_limiter s;
     provider_slots := provider_slots s |}.
Definition set_ip_limiter (s : AppState) (l : PerIpLimiter) : AppState :=
  {| devices := devices s; last_wake := last_wake s; registration := registration s;
     ip_limiter := l; token_limiter := token_limiter s; provider_slots := provider_slots s |}.
Definition set_token_limiter (s : AppState) (l : PerTokenLimiter) : AppState :=
  {| devices := devices s; last_wake := last_wake s; registration := registration s;
     ip_limiter := ip_limiter s; token_limiter := l; provider_slots := provider_slots s |}.
Definition set_slots (s : AppState) (n : Z) : AppState :=
  {| devices := devices s; last_wake := last_wake s; registration := registration s;
     ip_limiter := ip_limiter s; token_limiter := token_limiter s; provider_slots := n |}.

(** Where a handler waits. *)
Inductive Handler :=
| Registering (request : RegisterRequest)                  (* the table's lock *)
| WakeStamping (host : string)                             (* the table's lock *)
| WakeThrottling (host : string) (targets : list Device)   (* the lock of [last_wake] *)
| WakeEntering (targets : list Device)                     (* before the clock of the loop is read *)
| WakeRinging (now : Z) (targets : list Device) (delivered : bool)
| WakeSending (now : Z) (targets : list Device) (delivered : bool)   (* holds a slot *)
| RevokeRemoving (host registration_id : string)           (* the table's lock *)
| RevokeLooking (host : string) (device : Device)          (* the table's lock, again *)
| RevokeForgetting (host : string) (device : Device)       (* the lock of [last_wake] *)
| RevokeAcquiring (device : Device)
| RevokeSending.                                           (* holds a slot *)

(** A notification handed to the push provider. *)
Record Push := { push_kind : NotificationKind; push_device : Device; push_at : Z }.

(** What a step of a handler comes to: it goes on, or it replies. *)
Inductive Progress := Continue (h : Handler) | Reply (code : StatusCode).

Inductive Request :=
| Request_Register (headers : HeaderMap) (peer : IpAddr) (request : RegisterRequest)
| Request_Wake (headers : HeaderMap) (peer : IpAddr) (request : WakeRequest)
| Request_Revoke (headers : HeaderMap) (request : RevokeRequest).

Definition register_authorized (auth : RegistrationAuth) (headers : HeaderMap) (host : string) : bool :=
  match auth, bearer headers with
  | Auth_Admin token, Some presented =>
      bool_decide (presented = token) && host_registration_proof_matches headers host
  | Auth_Open, Some _ => host_bearer_matches headers host
  | _, None => false
  end.

Definition register_well_formed (request : RegisterRequest) : bool :=
  negb (negb (valid_id (reg_host_pseudonym request))
    || negb (valid_registration_id (reg_registration_id request))
    || Nat.eqb (String.length (reg_device_token request)) 0
    || (4096 <? Z.of_nat (String.length (reg_device_token request)))
    || negb (valid_blob (reg_sealed_wake_blob request))).

(** [register], [wake] and [revoke] up to their first lock of the table. *)
Definition register (s : AppState) (now : Z) (headers : HeaderMap) (peer : IpAddr)
    (request : RegisterRequest) : AppState * Progress :=
  let '(l, allowed) := ip_allow (ip_limiter s) peer now in
  let s := set_ip_limiter s l in
  if negb allowed then (s, Reply TOO_MANY_REQUESTS)
  else if negb (register_authorized (registration s) headers (reg_host_pseudonym request))
  then (s, Reply UNAUTHORIZED)
  else if negb (register_well_formed request) then (s, Reply BAD_REQUEST)
  else (s, Continue (Registering request)).

Definition wake (s : AppState) (now : Z) (headers : HeaderMap) (peer : IpAddr)
    (request : WakeRequest) : AppState * Progress :=
  let '(l, allowed) := ip_allow (ip_limiter s) peer now in
  let s := set_ip_limiter s l in
  if negb allowed then (s, Reply TOO_MANY_REQUESTS)
  else if negb (host_bearer_matches headers (wake_host_pseudonym request)) then (s, Reply UNAUTHORIZED)
  else (s, Continue (WakeStamping (wake_host_pseudonym request))).

Definition revoke (s : AppState) (headers : HeaderMap) (request : RevokeRequest) : AppState * Progress :=
  if negb (host_bearer_matches headers (rev_host_pseudonym request))
    || negb (valid_registration_id (rev_registration_id request)) then (s, Reply UNAUTHORIZED)
  else (s, Continue (RevokeRemoving (rev_host_pseudonym request) (rev_registration_id request))).

Definition handle (s : AppState) (now : Z) (r : Request) : AppState * Progress :=
  match r with
  | Request_Register headers peer request => register s now headers peer request
  | Request_Wake headers peer request => wake s now headers peer request
  | Request_Revoke headers request => revoke s headers request
  end.

(** The rest of [register]. *)
Definition register_rest (s : AppState) (hash_order : HashOrder) (now : Z) (request : RegisterRequest)
    : AppState * Progress :=
  let '(d, code) := register_locked hash_order now request (devices s) in
  (set_devices s d, Reply code).

(** [wake]: the table, the throttle per pseudonym, then the targets one by one. *)
Definition wake_stamp (s : AppState) (hash_order : HashOrder) (now : Z) (host : string)
    : AppState * Progress :=
  let s' := set_devices s (stamp now host (devices s)) in
  match targets_of hash_order host (devices s') with
  | [] => (s', Reply NOT_FOUND)
  | targets => (s', Continue (WakeThrottling host targets))
  end.

Definition throttled (s : AppState) (host : string) (now : Z) : bool :=
  match last_wake s !! host with
  | Some last => elapsed now last <? MIN_WAKE_INTERVAL
  | None => false
  end.

Definition wake_throttle (s : AppState) (now now' : Z) (host : string) (targets : list Device)
    : AppState * Progress :=
  if throttled s host now then (s, Reply TOO_MANY_REQUESTS)
  else (set_last_wake s (<[host := now']> (last_wake s)), Continue (WakeEntering targets)).

Definition wake_ring (s : AppState) (at_ now : Z) (targets : list Device) (delivered : bool)
    : AppState * Progress * list Push :=
  match targets with
  | [] => (s, Reply (if delivered then NO_CONTENT else BAD_GATEWAY), [])
  | device :: rest =>
      let '(l, allowed) := token_allow (token_limiter s) (device_token device) now in
      let s := set_token_limiter s l in
      if negb allowed then (s, Continue (WakeRinging now rest delivered), [])
      else if provider_slots s <=? 0 then (s, Continue (WakeRinging now rest delivered), [])
      else (set_slots s (provider_slots s - 1), Continue (WakeSending now rest delivered),
        [{| push_kind := Notify_Wake; push_device := device; push_at := at_ |}])
  end.

Definition wake_sent (s : AppState) (now : Z) (rest : list Device) (delivered sent_ok : bool)
    : AppState * Progress :=
  (set_slots s (provider_slots s + 1), Continue (WakeRinging now rest (delivered || sent_ok))).

(** [revoke]: the entry, then whether it was the host's last, then the courtesy
    notice. *)
Definition revoke_remove (s : AppState) (host registration_id : string) : AppState * Progress :=
  match devices s !! (host, registration_id) with
  | None => (s, Reply NOT_FOUND)
  | Some device =>
      (set_devices s (delete (host, registration_id) (devices s)), Continue (RevokeLooking host device))
  end.

Definition revoke_look (s : AppState) (host : string) (device : Device) : AppState * Progress :=
  if existsb (λ e, bool_decide (e.1.1 = host)) (map_to_list (devices s))
  then (s, Continue (RevokeAcquiring device))
  else (s, Continue (RevokeForgetting host device)).

Definition revoke_forget (s : AppState) (host : string) (device : Device) : AppState * Progress :=
  (set_last_wake s (delete host (last_wake s)), Continue (RevokeAcquiring device)).

Definition revoke_acquire (s : AppState) (at_ : Z) (device : Device) : AppState * Progress * list Push :=
  if provider_slots s <=? 0 then (s, Reply SERVICE_UNAVAILABLE, [])
  else (set_slots s (provider_slots s - 1), Continue RevokeSending,
    [{| push_kind := Notify_Revoked; push_device := device; push_at := at_ |}]).

Definition revoke_sent (s : AppState) (sent_ok : bool) : AppState * Progress :=
  (set_slots s (provider_slots s + 1), Reply (if sent_ok then NO_CONTENT else BAD_GATEWAY)).

(** ** The relay as a whole *)
Record System := {
  state : AppState;
  handlers : gmap nat Handler;
  arrived : list Request;
  pushes : list Push;
  replies : list (nat * StatusCode);
}.

Definition start (auth : RegistrationAuth) : System :=
  {| state := build_state auth; handlers := ∅; arrived := []; pushes := []; replies := [] |}.

(** A request arrives; a handler runs on, reading the clock at most twice, with
    an order for the table it may walk and the provider's verdict on what it may
    have sent; a client goes away. *)
Inductive Event :=
| Arrive (id : nat) (now : Z) (r : Request)
| Run (id : nat) (now now' : Z) (order : HashOrder) (sent_ok : bool)
| Disconnect (id : nat).

Definition run_handler (s : AppState) (now now' : Z) (order : HashOrder) (sent_ok : bool)
    (h : Handler) : AppState * Progress * list Push :=
  match h with
  | Registering request => (register_rest s order now request, [])
  | WakeStamping host => (wake_stamp s order now host, [])
  | WakeThrottling host targets => (wake_throttle s now now' host targets, [])
  | WakeEntering targets => (s, Continue (WakeRinging now targets false), [])
  | WakeRinging now0 targets delivered => wake_ring s now now0 targets delivered
  | WakeSending now0 rest delivered => (wake_sent s now0 rest delivered sent_ok, [])
  | RevokeRemoving host registration_id => (revoke_remove s host registration_id, [])
  | RevokeLooking host device => (revoke_look s host device, [])
  | RevokeForgetting host device => (revoke_forget s host device, [])
  | RevokeAcquiring device => revoke_acquire s now device
  | RevokeSending => (revoke_sent s sent_ok, [])
  end.

Definition holds_slot (h : Handler) : bool :=
  match h with WakeSending _ _ _ | RevokeSending => true | _ => false end.

Definition progress (y : System) (id : nat) (o : AppState * Progress * list Push) : System :=
  let '(s, p, out) := o in
  {| state := s;
     handlers := match p with
                 | Continue h => <[id := h]> (handlers y)
                 | Reply _ => delete id (handlers y)
                 end;
     arrived := arrived y;
     pushes := pushes y ++ out;
     replies := match p with Reply code => replies y ++ [(id, code)] | Continue _ => replies y end |}.

Definition arrive (y : System) (r : Request) : System :=
  {| state := state y; handlers := handlers y; arrived := arrived y ++ [r];
     pushes := pushes y; replies := replies y |}.

(** A dropped handler gives its slot back. *)
Definition disconnect (y : System) (id : nat) (h : Handler) : System :=
  {| state := if holds_slot h then set_slots (state y) (provider_slots (state y) + 1) else state y;
     handlers := delete id (handlers y); arrived := arrived y; pushes := pushes y;
     replies := replies y |}.

Definition step (y : System) (e : Event) : System :=
  match e with
  | Arrive id now r =>
      match handlers y !! id with
      | Some _ => y
      | None => progress (arrive y r) id (handle (state y) now r, [])
      end
  | Run id now now' order sent_ok =>
      match handlers y !! id with
      | Some h => progress y id (run_handler (state y) now now' order sent_ok h)
      | None => y
      end
  | Disconnect id =>
      match handlers y !! id with Some h => disconnect y id h | None => y end
  end.

Definition run (y : System) (es : list Event) : System := foldl step y es.

(** A clock that does not go back. *)
Fixpoint clocked (t : Z) (es : list Event) : Prop :=
  match es with
  | [] => True
  | Arrive _ now _ :: es => t ≤ now ∧ clocked now es
  | Run _ now now' _ _ :: es => t ≤ now ∧ now ≤ now' ∧ clocked now' es
  | Disconnect _ :: es => clocked t es
  end.

(** No wake rings a target more than [lag] after it read the clock. *)
Definition prompt (lag : Z) (y : System) (e : Event) : Prop :=
  match e with
  | Run id now _ _ _ =>
      match handlers y !! id with
      | Some (WakeRinging now0 _ _) => now - now0 ≤ lag
      | _ => True
      end
  | _ => True
  end.
Fixpoint all_prompt (lag : Z) (y : System) (es : list Event) : Prop :=
  match es with
  | [] => True
  | e :: es => prompt lag y e ∧ all_prompt lag (step y e) es
  end.

(** ** The limiters: what a window lets through *)
End relay.

Section limiter_facts.
Context {K : Type} `{Countable K}.
Implicit Types (l : Limiter K) (k : K) (h : gmap K (Z * Z)).

Lemma retain_live_Some now w h k e :
  retain_live now w h !! k = Some e ↔ h !! k = Some e ∧ elapsed now e.1 < w.
Proof. unfold retain_live. by rewrite map_lookup_filter_Some. Qed.

Lemma retain_live_None now w h k :
  retain_live now w h !! k = None ↔ ∀ e, h !! k = Some e → w ≤ elapsed now e.1.
Proof.
  unfold retain_live. rewrite map_lookup_filter_None. split.
  - intros [Hn|Hn] e He; [congruence|]. apply Hn in He. simpl in He. lia.
  - intros Hn. destruct (h !! k) as [e|] eqn:He; [right|by left].
    intros e' [= <-]. specialize (Hn e eq_refl). simpl. lia.
Qed.

(** One call, from the entry the key had. *)
Lemma limiter_allow_spec l k now :
  let h := retain_live now (window l) (hits l) in
  limiter_allow l k now =
  match h !! k with
  | Some (start, count) =>
      if max_hits l <=? count then (set_hits l h, false)
      else (set_hits l (<[k := (start, count + 1)]> h), true)
  | None => (set_hits l (<[k := (now, 1)]> h), true)
  end.
Proof.
  intros h. unfold limiter_allow. fold h. destruct (h !! k) as [[start count]|] eqn:Hk; [|done].
  apply retain_live_Some in Hk as [_ Hlive]. simpl in Hlive.
  by rewrite (proj2 (Z.ltb_lt _ _) Hlive).
Qed.

Lemma limiter_allow_params l k now :
  window (limiter_allow l k now).1 = window l ∧ max_hits (limiter_allow l k now).1 = max_hits l.
Proof. rewrite limiter_allow_spec. cbv zeta. by repeat split_match. Qed.

(** *** The windows of one key

    Calls name a time [now] that may lie up to [lag] behind the clock. [Windows]
    counts, up to the clock [t], the [n] calls for [k] let through from [a] on,
    in [m] windows opened there up to [b]: consecutive ones are at least
    [window - lag] apart. *)
Definition Windows (lag a b : Z) (k : K) (l : Limiter K) (t n : Z) : Prop :=
  let w := window l - lag in
  ∃ m, 0 ≤ m ∧ (m = 0 ∨ a + (m - 1) * w ≤ b) ∧
    match hits l !! k with
    | Some (start, count) =>
        0 ≤ count ≤ max_hits l ∧ n ≤ max_hits l * m + count ∧ (m = 0 ∨ a + (m - 1) * w ≤ start + lag)
    | None => n ≤ max_hits l * (m + 1) ∧ (m = 0 ∨ a + m * w ≤ t)
    end.

Definition window_bound (lag a b : Z) (l : Limiter K) : Z :=
  max_hits l * (2 + (b - a) / (window l - lag)).

Record Paced (lag a b : Z) (k : K) (l : Limiter K) (t n : Z) : Prop := {
  paced_bound : n ≤ window_bound lag a b l;
  paced_before : t < a → n ≤ 0;
  paced_windows : t ≤ b → Windows lag a b k l t n;
}.

Context (lag a b : Z) (k : K) (Hab : a ≤ b).

Lemma windows_bound l t n :
  0 < window l - lag → 0 ≤ max_hits l → Windows lag a b k l t n → n ≤ window_bound lag a b l.
Proof using Hab.
  intros Hw Hmax (m & Hm & Hopen & Hn). unfold window_bound.
  assert (Hbound : m ≤ 1 + (b - a) / (window l - lag)).
  { destruct Hopen as [->|Hopen].
    - pose proof (Z.div_pos (b - a) (window l - lag)). lia.
    - assert (m - 1 ≤ (b - a) / (window l - lag)); [|lia]. apply Z.div_le_lower_bound; lia. }
  assert (n ≤ max_hits l * (m + 1)) by (destruct (hits l !! k) as [[start count]|]; nia).
  nia.
Qed.

Lemma paced_new w mx t : 0 < w - lag → 0 ≤ mx → Paced lag a b k (limiter_new w mx) t 0.
Proof using Hab.
  intros Hw Hmx. assert (Hws : Windows lag a b k (limiter_new w mx) t 0).
  { exists 0. split; [lia|]. split; [by left|]. simpl. rewrite lookup_empty. split; [lia|by left]. }
  split; [by eapply windows_bound|lia|done].
Qed.

Lemma paced_mono l t t' n n' :
  t ≤ t' → n' ≤ n → Paced lag a b k l t n → Paced lag a b k l t' n'.
Proof using Hab.
  intros Ht Hn [Hbound Hbefore Hws]. split; [lia|lia|]. intros Htb.
  destruct Hws as (m & Hm & Hopen & Hst); [lia|]. exists m. split; [done|]. split; [done|].
  destruct (hits l !! k) as [[start count]|]; intuition lia.
Qed.

(** Dropping the windows that have ended. *)
Lemma windows_retain l t n now :
  0 < window l - lag → 0 < window l → now ≤ t → Windows lag a b k l t n →
  Windows lag a b k (set_hits l (retain_live now (window l) (hits l))) t n.
Proof.
  intros Hw Hw0 Hnow (m & Hm & Hopen & Hst). exists m. split; [done|]. split; [done|]. simpl.
  destruct (retain_live _ _ _ !! k) as [e|] eqn:Hk.
  - apply retain_live_Some in Hk as [Hk _]. by rewrite Hk in Hst.
  - destruct (hits l !! k) as [[start count]|] eqn:Hk'; [|done].
    pose proof (proj1 (retain_live_None now (window l) (hits l) k) Hk _ Hk') as Hended.
    unfold elapsed in Hended. simpl in Hended. split; [nia|]. destruct Hst as (_ & _ & [->|Hs]); [by left|].
    right. nia.
Qed.

(** A call, counted when it is one for [k] let through between [a] and [b]. *)
Definition counted (t : Z) (k' : K) (allowed : bool) : Z :=
  if bool_decide (k' = k) && allowed && (a <=? t) && (t <=? b) then 1 else 0.

Lemma windows_allow l t n k' now :
  0 < window l - lag → 1 ≤ max_hits l → now ≤ t → t - now ≤ lag → (t < a → n ≤ 0) → t ≤ b →
  Windows lag a b k l t n →
  Windows lag a b k (limiter_allow l k' now).1 t
    (n + counted t k' (limiter_allow l k' now).2).
Proof.
  intros Hw Hmax Hnow Hlag Hbefore Htb Hp. apply (windows_retain l t n now) in Hp; try done; try lia.
  rewrite limiter_allow_spec. cbv zeta. set (h := retain_live now (window l) (hits l)) in *.
  destruct Hp as (m & Hm & Hopen & Hst). simpl in *.
  destruct (decide (k' = k)) as [->|Hne].
  - unfold counted. rewrite bool_decide_true by done. destruct (h !! k) as [[start count]|] eqn:Hk.
    + destruct (max_hits l <=? count) eqn:Hfull; exists m; simpl.
      * rewrite Hk, Z.add_0_r. done.
      * rewrite lookup_insert_eq. split; [done|]. split; [done|].
        destruct ((a <=? t) && (t <=? b)); intuition lia.
    + simpl. rewrite (proj2 (Z.leb_le t b)), andb_true_r by done. destruct (a <=? t) eqn:Hat.
      * exists (if m =? 0 then 1 else m + 1). simpl. rewrite lookup_insert_eq.
        destruct (m =? 0) eqn:Hm0; intuition nia.
      * exists 0. simpl. rewrite lookup_insert_eq. intuition (try nia).
  - unfold counted. rewrite bool_decide_false by done. rewrite Z.add_0_r.
    repeat split_match; exists m; simpl; rewrite ?lookup_insert_ne by done; done.
Qed.

Lemma paced_allow l t n k' now :
  0 < window l - lag → 1 ≤ max_hits l → now ≤ t → t - now ≤ lag →
  Paced lag a b k l t n →
  Paced lag a b k (limiter_allow l k' now).1 t (n + counted t k' (limiter_allow l k' now).2).
Proof using Hab.
  intros Hw Hmax Hnow Hlag [Hbound Hbefore Hws].
  assert (Hws' : t ≤ b → Windows lag a b k (limiter_allow l k' now).1 t
    (n + counted t k' (limiter_allow l k' now).2)) by (intros; by apply windows_allow; auto).
  pose proof (limiter_allow_params l k' now) as [Ew Em]. split; [| |done].
  - destruct (decide (t ≤ b)) as [Htb|Htb].
    + apply (windows_bound _ t); [lia|lia|by apply Hws'].
    + unfold window_bound, counted. rewrite Ew, Em. rewrite (proj2 (Z.leb_gt t b)) by lia.
      rewrite andb_false_r, Z.add_0_r. done.
  - intros Hta. unfold counted. rewrite (proj2 (Z.leb_gt a t)) by lia.
    rewrite andb_false_r. simpl. rewrite Z.add_0_r. by apply Hbefore.
Qed.
End limiter_facts.

(** ** How a run unfolds *)
#[global] Instance NotificationKind_eq_dec : EqDecision NotificationKind.
Proof. solve_decision. Defined.
#[global] Instance Provider_eq_dec : EqDecision Provider.
Proof. solve_decision. Defined.

Section relay_facts.
Context `{PushPrims}.
Implicit Types (y : System) (s : AppState) (h : Handler) (es : list Event).

(** The clock after an event. *)
Definition clock_after (t : Z) (e : Event) : Z :=
  match e with Arrive _ now _ => now | Run _ _ now' _ _ => now' | Disconnect _ => t end.

Definition event_clocked (t : Z) (e : Event) : Prop :=
  match e with
  | Arrive _ now _ => t ≤ now
  | Run _ now now' _ _ => t ≤ now ∧ now ≤ now'
  | Disconnect _ => True
  end.

#[global] Instance prompt_dec lag y e : Decision (prompt lag y e).
Proof. unfold prompt. repeat split_match; apply _. Defined.
#[global] Instance all_prompt_dec lag y es : Decision (all_prompt lag y es).
Proof. revert y. induction es as [|e es IH]; intros y; simpl; apply _. Defined.

Lemma clocked_cons t e es : clocked t (e :: es) ↔ event_clocked t e ∧ clocked (clock_after t e) es.
Proof. destruct e; simpl; tauto. Qed.

(** Invariants of a run whose clock does not go back. *)
Lemma run_invariant (P : Z → System → Prop) lag t y es :
  (∀ t y e, event_clocked t e → prompt lag y e → P t y → P (clock_after t e) (step y e)) →
  clocked t es → all_prompt lag y es → P t y → ∃ t', P t' (run y es).
Proof.
  intros Hstep. revert t y. induction es as [|e es IH]; intros t y Hc Hp HP; [by exists t|].
  apply clocked_cons in Hc as [He Hc]. destruct Hp as [Hp Hps]. apply (IH _ _ Hc Hps). by apply Hstep.
Qed.

(** Invariants of any run. *)
Lemma run_invariant' (P : System → Prop) y es :
  (∀ y e, P y → P (step y e)) → P y → P (run y es).
Proof. intros Hstep. revert y. induction es as [|e es IH]; intros y HP; [done|]. apply IH. by apply Hstep. Qed.

(** ** The budget of a token *)

Definition wakes_in (token : string) (a b : Z) (ps : list Push) : Z :=
  Z.of_nat (length (filter (λ p, push_kind p = Notify_Wake ∧ device_token (push_device p) = token ∧
    a ≤ push_at p ∧ push_at p ≤ b) ps)).

Lemma wakes_in_app token a b ps ps' :
  wakes_in token a b (ps ++ ps') = wakes_in token a b ps + wakes_in token a b ps'.
Proof. unfold wakes_in. rewrite filter_app, length_app. lia. Qed.

(** The instant a handler's loop goes by. *)
Definition loop_clock (h : Handler) : option Z :=
  match h with WakeRinging n _ _ | WakeSending n _ _ => Some n | _ => None end.

Record Budgeted (lag a b : Z) (token : string) (t : Z) (y : System) : Prop := {
  budget_window : window (token_limiter (state y)) = WAKE_BUDGET_WINDOW;
  budget_max : max_hits (token_limiter (state y)) = WAKE_BUDGET_MAX;
  budget_paced : Paced lag a b token (token_limiter (state y)) t (wakes_in token a b (pushes y));
  budget_loops : ∀ id h n, handlers y !! id = Some h → loop_clock h = Some n → n ≤ t;
}.

Lemma handle_keeps s now r :
  let '(s', p) := handle s now r in
  token_limiter s' = token_limiter s ∧ (∀ h, p = Continue h → loop_clock h = None).
Proof.
  destruct r; simpl; unfold register, wake, revoke; repeat (split_match; simpl);
    (split; [done|intros h [= <-]; done]) || (split; [done|done]).
Qed.

(** What a step other than the ring of a wake leaves alone. *)
Lemma run_handler_keeps s now now' order ok h :
  (∀ n ts d, h ≠ WakeRinging n ts d) →
  let '(s', p, out) := run_handler s now now' order ok h in
  token_limiter s' = token_limiter s ∧ (∀ p, p ∈ out → push_kind p = Notify_Revoked) ∧
  (∀ h' n, p = Continue h' → loop_clock h' = Some n → loop_clock h = Some n ∨ n = now).
Proof.
  intros Hne. destruct h; simpl.
  all: unfold register_rest, wake_stamp, wake_throttle, wake_sent, revoke_remove, revoke_look,
    revoke_forget, revoke_acquire; repeat (split_match; simpl).
  all: try (by exfalso; eapply Hne).
  all: split; [done|]; split; [intros q Hq; set_solver|].
  all: intros h' n0 Hp; try done; injection Hp as <-; simpl; intros Hn; simplify_eq; auto.
Qed.

Lemma wakes_in_revoked token a b ps :
  (∀ p, p ∈ ps → push_kind p = Notify_Revoked) → wakes_in token a b ps = 0.
Proof.
  intros Hps. unfold wakes_in. rewrite list_filter_none; [done|]. apply Forall_forall.
  intros p Hp [Hk _]. rewrite (Hps p Hp) in Hk. done.
Qed.

(** Budgets as the handlers that stay, go on or are new. *)
Lemma budgeted_progress lag a b token t t' y id s p out :
  a ≤ b → t ≤ t' → Budgeted lag a b token t y →
  window (token_limiter s) = WAKE_BUDGET_WINDOW → max_hits (token_limiter s) = WAKE_BUDGET_MAX →
  Paced lag a b token (token_limiter s) t' (wakes_in token a b (pushes y) + wakes_in token a b out) →
  (∀ h n, p = Continue h → loop_clock h = Some n → n ≤ t') →
  Budgeted lag a b token t' (progress y id (s, p, out)).
Proof.
  intros Hab Ht [Hw Hm Hp Hl] Hw' Hm' Hp' Hh. split; simpl; [done|done|by rewrite wakes_in_app|].
  intros id' h n Hid Hn. destruct p as [h'|code].
  - destruct (decide (id = id')) as [->|Hne].
    + rewrite lookup_insert_eq in Hid. injection Hid as ->. by eapply Hh.
    + rewrite lookup_insert_ne in Hid by done. specialize (Hl _ _ _ Hid Hn). lia.
  - apply lookup_delete_Some in Hid as [_ Hid]. specialize (Hl _ _ _ Hid Hn). lia.
Qed.

Lemma budgeted_ring lag a b token t y id now0 targets d now :
  a ≤ b → lag < WAKE_BUDGET_WINDOW → t ≤ now → now0 ≤ now → now - now0 ≤ lag →
  Budgeted lag a b token t y →
  Budgeted lag a b token now (progress y id (wake_ring (state y) now now0 targets d)).
Proof.
  intros Hab Hlag Ht Hn0 Hprompt Hy. pose proof Hy as [Hw Hm Hp Hl].
  unfold wake_ring. destruct targets as [|dev rest].
  { eapply (budgeted_progress lag a b token t); try done. rewrite Z.add_0_r. by apply (paced_mono lag a b token Hab _ t _ (wakes_in token a b (pushes y))). }
  pose proof (paced_allow lag a b token Hab (token_limiter (state y)) now
    (wakes_in token a b (pushes y)) (device_token dev) now0) as Hallow.
  pose proof (limiter_allow_params (token_limiter (state y)) (device_token dev) now0) as [Ew Em].
  unfold token_allow. destruct (limiter_allow _ _ _) as [l allowed]. simpl in Hallow, Ew, Em.
  rewrite Hw in Hallow, Ew. rewrite Hm in Hallow, Em.
  specialize (Hallow ltac:(lia) ltac:(done) Hn0 Hprompt ltac:(by apply (paced_mono lag a b token Hab _ t _ (wakes_in token a b (pushes y))))).
  assert (Hskip : ∀ out, wakes_in token a b out ≤ counted a b token now (device_token dev) allowed →
    ∀ s, token_limiter s = l → ∀ h, (∀ n, loop_clock h = Some n → n ≤ now) →
    Budgeted lag a b token now (progress y id (s, Continue h, out))).
  { intros out Hout s' Hs h Hh. eapply (budgeted_progress lag a b token t); rewrite ?Hs; try done.
    - eapply (paced_mono lag a b token Hab _ now); [done| |exact Hallow]. lia.
    - intros h' n [= <-]. by apply Hh. }
  assert (Hnil : wakes_in token a b [] ≤ counted a b token now (device_token dev) allowed).
  { unfold counted. case_match; done. }
  destruct allowed; cbn [negb]; [destruct (_ <=? 0)|]; apply Hskip; try done; try (intros n [= <-]; lia).
  unfold wakes_in, counted. rewrite filter_cons, filter_nil. case_decide as Hin; [|by case_match].
  simpl in *. destruct Hin as (_ & Htok & Ha & Hb). rewrite bool_decide_true by done.
  rewrite (proj2 (Z.leb_le _ _) Ha), (proj2 (Z.leb_le _ _) Hb). done.
Qed.

Lemma budgeted_step lag a b token t y e :
  a ≤ b → lag < WAKE_BUDGET_WINDOW → event_clocked t e → prompt lag y e →
  Budgeted lag a b token t y → Budgeted lag a b token (clock_after t e) (step y e).
Proof.
  intros Hab Hlag He Hprompt Hy. pose proof Hy as [Hw Hm Hp Hl].
  assert (Hstay : ∀ t', t ≤ t' → Budgeted lag a b token t' y).
  { intros t' Ht'. split; [done|done|eapply (paced_mono lag a b token Hab); [|done|eassumption]; done|].
    intros id h n Hid Hn. specialize (Hl _ _ _ Hid Hn). lia. }
  destruct e as [id now r|id now now' order ok|id]; cbn [step clock_after event_clocked prompt] in *.
  - destruct (handlers y !! id); [by apply Hstay|].
    pose proof (handle_keeps (state y) now r) as Hk. destruct (handle _ _ _) as [s p].
    destruct Hk as [Htl Hh]. destruct (Hstay now He) as [Hw' Hm' Hp' Hl'].
    eapply (budgeted_progress lag a b token now _ (arrive y r)); rewrite ?Htl; try done.
    + by rewrite Z.add_0_r.
    + intros h n Hc Hn. rewrite (Hh _ Hc) in Hn. done.
  - destruct He as [Ht Hnow]. destruct (handlers y !! id) as [h|] eqn:Hid; [|apply Hstay; lia].
    assert (Hring : (∃ n ts d, h = WakeRinging n ts d) ∨ ∀ n ts d, h ≠ WakeRinging n ts d).
    { destruct h; eauto. }
    destruct Hring as [(n & ts & d & ->)|Hring].
    + assert (Hb : Budgeted lag a b token now (progress y id (wake_ring (state y) now n ts d))).
      { apply (budgeted_ring lag a b token t); try done. specialize (Hl _ _ n Hid eq_refl). lia. }
      destruct Hb as [Hw' Hm' Hp' Hl']. split; [done|done|eapply (paced_mono lag a b token Hab); [|done|eassumption]; done|].
      intros id' h' n' Hid' Hn'. specialize (Hl' _ _ _ Hid' Hn'). lia.
    + pose proof (run_handler_keeps (state y) now now' order ok h Hring) as Hk.
      destruct (run_handler _ _ _ _ _ _) as [[s p] out]. destruct Hk as (Htl & Hout & Hh).
      eapply (budgeted_progress lag a b token t); rewrite ?Htl; try done; [lia| |].
      * rewrite (wakes_in_revoked _ _ _ out) by done. rewrite Z.add_0_r. apply (paced_mono lag a b token Hab _ t _ (wakes_in token a b (pushes y))); [lia|done|done].
      * intros h' n Hc Hn. destruct (Hh _ _ Hc Hn) as [Hn'| ->]; [|done].
        specialize (Hl _ _ _ Hid Hn'). lia.
  - destruct (handlers y !! id) as [h|]; [|done]. unfold disconnect.
    split; simpl; [by destruct (holds_slot h)..|].
    intros id' h' n [_ Hid']%lookup_delete_Some. by eapply Hl.
Qed.

(** Over any run of the relay, with any number of hosts, addresses and
    pseudonyms and in any interleaving of their requests, the wakes rung at one
    push token between two instants are at most one budget per window that can
    begin there, and one for a window begun before: provided no wake takes longer
    than [lag] from reading the clock to ringing its last target, two windows
    begin at least a window less [lag] apart. *)
Theorem wakes_to_a_token_bounded auth es t lag token a b :
  a ≤ b → 0 ≤ lag < WAKE_BUDGET_WINDOW →
  clocked t es → all_prompt lag (start auth) es →
  wakes_in token a b (pushes (run (start auth) es)) ≤
    WAKE_BUDGET_MAX * (2 + (b - a) / (WAKE_BUDGET_WINDOW - lag)).
Proof.
  intros Hab Hlag Hc Hp.
  destruct (run_invariant (Budgeted lag a b token) lag t (start auth) es) as [t' Hy]; try done.
  - intros. apply (budgeted_step lag a b token t0); done || lia.
  - split; simpl; [done|done| |by intros ??? ?%lookup_empty_Some].
    apply (paced_new lag a b token Hab); [lia|done].
  - destruct Hy as [Hw Hm Hp' _]. pose proof (paced_bound _ _ _ _ _ _ _ Hp') as Hb.
    unfold window_bound in Hb. by rewrite Hw, Hm in Hb.
Qed.

(** ** Who may have a push sent *)

(** Somebody who showed the secret of [host] asked for this. *)
Definition woken (rs : list Request) (host : string) : Prop :=
  ∃ headers peer, Request_Wake headers peer {| wake_host_pseudonym := host |} ∈ rs ∧
    host_bearer_matches headers host = true.

Definition revoked (rs : list Request) (host : string) : Prop :=
  ∃ headers id, Request_Revoke headers {| rev_host_pseudonym := host; rev_registration_id := id |} ∈ rs ∧
    host_bearer_matches headers host = true.

(** On an open relay the bearer is the host's secret; on a gated one the bearer is
    the operator's token and the secret comes in a header of its own. *)
Definition may_register (auth : RegistrationAuth) (headers : HeaderMap) (host : string) : Prop :=
  match auth with
  | Auth_Open => host_bearer_matches headers host = true
  | Auth_Admin token =>
      bearer headers = Some token ∧ host_registration_proof_matches headers host = true
  end.

Definition well_formed (r : RegisterRequest) : Prop :=
  valid_id (reg_host_pseudonym r) = true ∧ valid_id (reg_registration_id r) = true ∧
  reg_device_token r ≠ ""%string ∧ Z.of_nat (String.length (reg_device_token r)) ≤ 4096 ∧
  valid_blob (reg_sealed_wake_blob r) = true.

Definition accepted (auth : RegistrationAuth) (rs : list Request) (r : RegisterRequest) : Prop :=
  ∃ headers peer, Request_Register headers peer r ∈ rs ∧
    may_register auth headers (reg_host_pseudonym r) ∧ well_formed r.

Lemma register_authorized_spec auth headers host :
  register_authorized auth headers host = true → may_register auth headers host.
Proof.
  unfold register_authorized, may_register. destruct auth as [token|]; destruct (bearer headers); try done.
  intros [->%bool_decide_eq_true Hp]%andb_true_iff. done.
Qed.

Lemma register_well_formed_spec r : register_well_formed r = true → well_formed r.
Proof.
  unfold register_well_formed, well_formed, valid_registration_id.
  rewrite negb_true_iff, !orb_false_iff, !negb_false_iff, Z.ltb_ge.
  intros ((((Hh & Hi) & Ht) & Hl) & Hb). split; [done|]. split; [done|]. split; [|done].
  intros Hempty. by rewrite Hempty in Ht.
Qed.

Definition registered_as (auth : RegistrationAuth) (rs : list Request) (host : string) (d : Device) : Prop :=
  ∃ r, accepted auth rs r ∧ reg_host_pseudonym r = host ∧ reg_provider r = provider d ∧
    reg_device_token r = device_token d ∧ reg_sealed_wake_blob r = sealed_wake_blob d.

Definition handler_ok (auth : RegistrationAuth) (rs : list Request) (h : Handler) : Prop :=
  let targets_ok host ts := Forall (registered_as auth rs host) ts in
  match h with
  | Registering r => accepted auth rs r
  | WakeStamping host => woken rs host
  | WakeThrottling host ts => woken rs host ∧ targets_ok host ts
  | WakeEntering ts | WakeRinging _ ts _ | WakeSending _ ts _ => ∃ host, woken rs host ∧ targets_ok host ts
  | RevokeRemoving host _ => revoked rs host
  | RevokeLooking host d | RevokeForgetting host d => revoked rs host ∧ registered_as auth rs host d
  | RevokeAcquiring d => ∃ host, revoked rs host ∧ registered_as auth rs host d
  | RevokeSending => True
  end.

Definition push_ok (auth : RegistrationAuth) (rs : list Request) (p : Push) : Prop :=
  ∃ host, registered_as auth rs host (push_device p) ∧
    match push_kind p with Notify_Wake => woken rs host | Notify_Revoked => revoked rs host end.

Definition table_origin (auth : RegistrationAuth) (rs : list Request) (d : gmap (string * string) Device)
    : Prop := ∀ k dev, d !! k = Some dev → registered_as auth rs k.1 dev.

Record Authorised (auth : RegistrationAuth) (y : System) : Prop := {
  auth_fixed : registration (state y) = auth;
  auth_table : table_origin auth (arrived y) (devices (state y));
  auth_handlers : ∀ id h, handlers y !! id = Some h → handler_ok auth (arrived y) h;
  auth_pushes : Forall (push_ok auth (arrived y)) (pushes y);
}.

(** More requests take nothing away. *)
Lemma registered_as_mono auth rs rs' host d :
  rs ⊆ rs' → registered_as auth rs host d → registered_as auth rs' host d.
Proof. intros Hrs (r & (hd & pe & Hin & Hr) & Hd). exists r. split; [|done]. exists hd, pe. auto. Qed.
Lemma woken_mono rs rs' host : rs ⊆ rs' → woken rs host → woken rs' host.
Proof. intros Hrs (hd & pe & Hin & Hr). exists hd, pe. auto. Qed.
Lemma revoked_mono rs rs' host : rs ⊆ rs' → revoked rs host → revoked rs' host.
Proof. intros Hrs (hd & pe & Hin & Hr). exists hd, pe. auto. Qed.
Hint Resolve registered_as_mono woken_mono revoked_mono : portty.

Lemma handler_ok_mono auth rs rs' h : rs ⊆ rs' → handler_ok auth rs h → handler_ok auth rs' h.
Proof.
  intros Hrs. assert (Hall : ∀ host ts, Forall (registered_as auth rs host) ts →
    Forall (registered_as auth rs' host) ts).
  { intros host ts Hts. eapply Forall_impl; [exact Hts|]. eauto with portty. }
  destruct h; simpl; [|naive_solver eauto with portty..].
  intros (hd & pe & Hin & Hr). exists hd, pe. auto.
Qed.

Lemma authorised_arrive auth y r : Authorised auth y → Authorised auth (arrive y r).
Proof.
  intros [Hf Ht Hh Hp]. assert (Hrs : arrived y ⊆ arrived y ++ [r]) by set_solver.
  split; simpl; [done| | |].
  - intros k dev Hk. by eapply registered_as_mono, Ht.
  - intros id h Hid. by eapply handler_ok_mono, Hh.
  - eapply Forall_impl; [exact Hp|]. intros p (host & Hr & Hk). exists host.
    split; [by eapply registered_as_mono|]. destruct (push_kind p); eauto with portty.
Qed.

(** A handler's step keeps what it has to. *)
Definition step_ok (auth : RegistrationAuth) (rs : list Request) (o : AppState * Progress * list Push) : Prop :=
  let '(s, p, out) := o in
  registration s = auth ∧ table_origin auth rs (devices s) ∧
  (∀ h, p = Continue h → handler_ok auth rs h) ∧ Forall (push_ok auth rs) out.

Lemma authorised_progress auth y id o :
  Authorised auth y → step_ok auth (arrived y) o → Authorised auth (progress y id o).
Proof.
  intros [Hf Ht Hh Hp]. destruct o as [[s p] out]. intros (Hs & Hd & Hc & Hout). split; simpl; [done|done| |].
  - intros id' h. destruct p as [h'|code]; [|intros [_ ?]%lookup_delete_Some; by eapply Hh].
    intros [[_ <-]|[_ ?]]%lookup_insert_Some; [by apply Hc|by eapply Hh].
  - apply Forall_app. done.
Qed.

(** Tables that only lose entries or restamp them keep their origin. *)
Definition content (d : Device) : Provider * string * string :=
  (provider d, device_token d, sealed_wake_blob d).

Definition covered (d' d : gmap (string * string) Device) : Prop :=
  ∀ k dev', d' !! k = Some dev' → ∃ dev, d !! k = Some dev ∧ content dev' = content dev.

#[global] Instance covered_preorder : PreOrder covered.
Proof.
  split; [intros d k dev Hk; by exists dev|].
  intros d1 d2 d3 H12 H23 k dev1 (dev2 & Hk2 & ->)%H12. by apply H23.
Qed.

Lemma covered_subseteq d' d : d' ⊆ d → covered d' d.
Proof. intros Hsub k dev Hk. exists dev. split; [by eapply lookup_weaken|done]. Qed.

Lemma covered_stamp now host d : covered (stamp now host d) d.
Proof.
  intros k dev'. unfold stamp. rewrite map_lookup_imap. destruct (d !! k) as [dev|]; [|done].
  intros [= <-]. exists dev. split; [done|]. by case_bool_decide.
Qed.

Lemma evict_oldest_subseteq order d : evict_oldest order d ⊆ d.
Proof.
  unfold evict_oldest. generalize (take (Z.to_nat drop_count) (merge_sort older (order (map_to_list d)))).
  intros l. revert d. induction l as [|e l IH]; intros d; [done|]. simpl.
  etrans; [apply IH|apply delete_subseteq].
Qed.

Lemma reclaim_subseteq order d now : reclaim_registrations order d now ⊆ d.
Proof.
  unfold reclaim_registrations. assert (Hl : live_registrations now d ⊆ d) by apply map_filter_subseteq.
  case_match; [done|]. by etrans; [apply evict_oldest_subseteq|].
Qed.

Lemma table_origin_covered auth rs d d' : covered d' d → table_origin auth rs d → table_origin auth rs d'.
Proof.
  intros Hc Ho k dev' (dev & Hk & Heq)%Hc. destruct (Ho _ _ Hk) as (r & Hr & Hh & Hpr & Htk & Hb).
  injection Heq as E1 E2 E3. exists r. by rewrite E1, E2, E3.
Qed.

Definition device_of (now : Z) (r : RegisterRequest) : Device :=
  {| provider := reg_provider r; device_token := reg_device_token r;
     sealed_wake_blob := reg_sealed_wake_blob r; refreshed := now |}.
Definition key_of (r : RegisterRequest) : string * string := (reg_host_pseudonym r, reg_registration_id r).

(** [register]'s critical section: refused, over a table that lost entries, or
    entered there. *)
Lemma register_locked_cases order now r d :
  ∃ d0, d0 ⊆ d ∧ (d !! key_of r ≠ None → d0 = d) ∧
    ((register_locked order now r d).1 = d0 ∧
       (register_locked order now r d).2 ∈ [SERVICE_UNAVAILABLE; FORBIDDEN]
     ∨ register_locked order now r d = (<[key_of r := device_of now r]> d0, NO_CONTENT) ∧
       (d !! key_of r = None → Z.of_nat (size d0) < MAX_DEVICES ∧
         host_count d0 (reg_host_pseudonym r) < MAX_DEVICES_PER_HOST) ∧
       pseudonyms_for_token d0 (reg_device_token r) (reg_host_pseudonym r) < MAX_PSEUDONYMS_PER_TOKEN).
Proof.
  unfold register_locked. fold (key_of r). fold (device_of now r).
  set (d0 := if bool_decide (d !! key_of r = None) then reclaim_registrations order d now else d).
  exists d0. split; [unfold d0; case_bool_decide; [apply reclaim_subseteq|done]|].
  split; [intros Hk; unfold d0; by rewrite bool_decide_false|].
  destruct (bool_decide _ && _) eqn:Hcap; [left; set_solver|].
  destruct (MAX_PSEUDONYMS_PER_TOKEN <=? _) eqn:Htok; [left; set_solver|]. right.
  apply Z.leb_gt in Htok. split; [done|]. split; [|done].
  intros Hk. rewrite bool_decide_true in Hcap by done. simpl in Hcap.
  apply orb_false_iff in Hcap as [?%Z.leb_gt ?%Z.leb_gt]. done.
Qed.

Lemma handle_ok auth y now r :
  Authorised auth y → step_ok auth (arrived y ++ [r]) (handle (state y) now r, []).
Proof.
  intros Hy%(authorised_arrive _ _ r). destruct Hy as [Hf Ht _ _]. simpl in *.
  assert (Hin : r ∈ arrived y ++ [r]) by set_solver.
  destruct r as [hd pe r|hd pe [host]|hd [host id]]; simpl; unfold register, wake, revoke; simpl.
  - destruct (ip_allow _ _ _) as [l allowed]. destruct allowed; simpl; [|done].
    destruct (register_authorized _ _ _) eqn:Ha; simpl; [|done].
    destruct (register_well_formed r) eqn:Hw; simpl; [|done].
    split; [done|]. split; [done|]. split; [|done]. intros h [= <-]. exists hd, pe.
    split; [done|]. rewrite <- Hf. split; [by apply register_authorized_spec|by apply register_well_formed_spec].
  - destruct (ip_allow _ _ _) as [l allowed]. destruct allowed; simpl; [|done].
    destruct (host_bearer_matches _ _) eqn:Hb; simpl; [|done].
    split; [done|]. split; [done|]. split; [|done]. intros h [= <-]. by exists hd, pe.
  - destruct (host_bearer_matches _ _) eqn:Hb; simpl; [|done].
    destruct (valid_registration_id _); simpl; [|done].
    split; [done|]. split; [done|]. split; [|done]. intros h [= <-]. by exists hd, id.
Qed.

Lemma targets_of_ok auth rs order host d :
  table_origin auth rs d → Forall (registered_as auth rs host) (targets_of order host d).
Proof.
  intros Ho. unfold targets_of. apply Forall_fmap, Forall_forall.
  intros [[h id] dev] [Hh Hin]%list_elem_of_filter. simpl in *. subst.
  rewrite (in_order_perm order) in Hin. apply elem_of_map_to_list in Hin. apply (Ho _ _ Hin).
Qed.

Lemma register_rest_ok auth rs s order now r :
  registration s = auth → table_origin auth rs (devices s) → accepted auth rs r →
  step_ok auth rs (register_rest s order now r, []).
Proof.
  intros Hf Ht Hr. unfold register_rest.
  destruct (register_locked_cases order now r (devices s)) as (d0 & Hsub & _ & Hcase).
  assert (Ht0 : table_origin auth rs d0) by (eapply table_origin_covered, Ht; by apply covered_subseteq).
  destruct Hcase as [[<- _]|[-> _]].
  - destruct (register_locked _ _ _ _) as [d c]. simpl in *. done.
  - simpl. split; [done|]. split; [|done]. intros k dev [[<- <-]|[_ Hk]]%lookup_insert_Some; [|by apply Ht0].
    exists r. done.
Qed.

Lemma run_handler_ok auth y now now' order ok id h :
  Authorised auth y → handlers y !! id = Some h →
  step_ok auth (arrived y) (run_handler (state y) now now' order ok h).
Proof.
  intros [Hf Ht Hh _] Hid. specialize (Hh _ _ Hid). clear Hid.
  destruct h as [r|host|host ts|ts|n ts dl|n ts dl|host rid|host dev|host dev|dev|]; simpl in Hh;
    cbn [run_handler].
  - by apply register_rest_ok.
  - pose proof (covered_stamp now host (devices (state y))) as Hc.
    assert (Ht' : table_origin auth (arrived y) (stamp now host (devices (state y))))
      by by eapply table_origin_covered.
    pose proof (targets_of_ok _ _ order host _ Ht') as Hts. unfold wake_stamp. simpl.
    destruct (targets_of _ _ _); [done|]. simpl. split; [done|]. split; [done|]. split; [|done].
    by intros h [= <-].
  - unfold wake_throttle. destruct (throttled _ _ _); [done|]. simpl. destruct Hh as [Hw Hts].
    split; [done|]. split; [done|]. split; [|done]. intros h [= <-]. by exists host.
  - split; [done|]. split; [done|]. split; [|done]. by intros h [= <-].
  - destruct ts as [|dev rest]; [done|]. destruct Hh as (host & Hw & [Hd Hts]%Forall_cons). simpl.
    destruct (token_allow _ _ _) as [l allowed]. destruct allowed; simpl; [destruct (_ <=? 0)|]; simpl.
    all: split; [done|]; split; [done|]; split; [intros h [= <-]; by exists host|]; try done.
    apply Forall_singleton. by exists host.
  - simpl. split; [done|]. split; [done|]. split; [|done]. by intros h [= <-].
  - unfold revoke_remove. destruct (devices _ !! _) as [dev|] eqn:Hk; [|done]. simpl.
    split; [done|]. split; [|split; [|done]].
    + eapply table_origin_covered, Ht. apply covered_subseteq, delete_subseteq.
    + intros h [= <-]. split; [done|]. apply (Ht _ _ Hk).
  - unfold revoke_look. case_match; (split; [done|]; split; [done|]; split; [|done]); intros h [= <-];
      [by exists host|done].
  - simpl. split; [done|]. split; [done|]. split; [|done]. intros h [= <-]. by exists host.
  - destruct Hh as (host & Hr & Hd). unfold revoke_acquire. destruct (_ <=? 0); simpl; [done|].
    split; [done|]. split; [done|]. split; [by intros h [= <-]|]. apply Forall_singleton. by exists host.
  - done.
Qed.

Lemma authorised_step auth y e : Authorised auth y → Authorised auth (step y e).
Proof.
  intros Hy. destruct e as [id now r|id now now' order ok|id]; cbn [step].
  - destruct (handlers y !! id); [done|]. apply authorised_progress; [by apply authorised_arrive|].
    by apply handle_ok.
  - destruct (handlers y !! id) eqn:Hid; [|done]. apply authorised_progress; [done|].
    by eapply run_handler_ok.
  - destruct (handlers y !! id) as [h|]; [|done]. destruct Hy as [Hf Ht Hh Hp].
    split; simpl; [by destruct (holds_slot h)..| |done].
    intros id' h' [_ Hid]%lookup_delete_Some. by eapply Hh.
Qed.

(** C29 (safety). Whatever requests arrive and however their handlers interleave or are
    dropped, every push the relay hands to a provider goes, with the blob sealed
    for it, to a device that a well-formed request registered under a pseudonym
    whose secret that request showed (and, on a gated relay, together with the
    operator's token); and somebody who showed the same pseudonym's secret asked
    for this wake, or for the revocation the notice tells of. *)
Theorem every_push_is_authorised auth es p :
  let y := run (start auth) es in
  p ∈ pushes y → push_ok auth (arrived y) p.
Proof.
  intros y. assert (Hy : Authorised auth y).
  { apply run_invariant'; [apply authorised_step|]. split; simpl; [done| | |done].
    - by intros k dev ?%lookup_empty_Some.
    - by intros id h ?%lookup_empty_Some. }
  destruct Hy as [_ _ _ Hp]. rewrite Forall_forall in Hp. apply Hp.
Qed.

(** ** The caps *)

Definition pseudonyms (d : gmap (string * string) Device) (token : string) : gset string :=
  list_to_set ((λ e, e.1.1) <$> filter (λ e, device_token e.2 = token) (map_to_list d)).

Record TableOk (d : gmap (string * string) Device) : Prop := {
  table_size : Z.of_nat (size d) ≤ MAX_DEVICES;
  table_hosts : ∀ host, host_count d host ≤ MAX_DEVICES_PER_HOST;
  table_tokens : ∀ token, Z.of_nat (size (pseudonyms d token)) ≤ MAX_PSEUDONYMS_PER_TOKEN;
}.

Lemma elem_of_pseudonyms d token host :
  host ∈ pseudonyms d token ↔ ∃ id dev, d !! (host, id) = Some dev ∧ device_token dev = token.
Proof.
  unfold pseudonyms. rewrite elem_of_list_to_set, list_elem_of_fmap. split.
  - intros ([[h id] dev] & -> & [Htok Hin]%list_elem_of_filter). apply elem_of_map_to_list in Hin. eauto.
  - intros (id & dev & Hk & Htok). exists ((host, id), dev). split; [done|].
    apply list_elem_of_filter. split; [done|]. by apply elem_of_map_to_list.
Qed.

Lemma elem_of_other_pseudonyms d token host o :
  o ∈ other_pseudonyms d token host ↔ o ∈ pseudonyms d token ∧ o ≠ host.
Proof.
  rewrite elem_of_pseudonyms. unfold other_pseudonyms. rewrite elem_of_list_to_set, list_elem_of_fmap. split.
  - intros ([[h' id] dev] & -> & [[Htok Hne] Hin]%list_elem_of_filter).
    apply elem_of_map_to_list in Hin. simpl in *. eauto.
  - intros [(id & dev & Hk & Htok) Hne]. exists ((o, id), dev). split; [done|].
    apply list_elem_of_filter. split; [done|]. by apply elem_of_map_to_list.
Qed.

Lemma host_count_covered d d' host : covered d' d → host_count d' host ≤ host_count d host.
Proof.
  intros Hc. unfold host_count, registrations_of. rewrite <- !size_dom.
  apply inj_le, subseteq_size. intros k [dev' [Hk Hh]%map_lookup_filter_Some]%elem_of_dom.
  destruct (Hc _ _ Hk) as (dev & Hk' & _). apply elem_of_dom. exists dev. by apply map_lookup_filter_Some.
Qed.

Lemma table_ok_covered d d' : covered d' d → TableOk d → TableOk d'.
Proof.
  intros Hc [Hs Hh Ht]. split.
  - rewrite <- size_dom in *. assert (size (dom d') ≤ size (dom d))%nat; [|lia]. apply subseteq_size.
    intros k [dev' Hk]%elem_of_dom. destruct (Hc _ _ Hk) as (dev & Hk' & _). by apply elem_of_dom.
  - intros host. etrans; [by apply host_count_covered|done].
  - intros token. etrans; [apply inj_le, subseteq_size|apply (Ht token)].
    intros host (id & dev' & Hk & Htok)%elem_of_pseudonyms. apply elem_of_pseudonyms.
    destruct (Hc _ _ Hk) as (dev & Hk' & Heq). exists id, dev. split; [done|]. injection Heq. congruence.
Qed.

Lemma table_ok_empty : TableOk ∅.
Proof.
  split; [done| |].
  - intros host. unfold host_count, registrations_of. by rewrite map_filter_empty.
  - intros token. unfold pseudonyms. by rewrite map_to_list_empty.
Qed.

Lemma host_count_insert d k dev host :
  host_count (<[k := dev]> d) host ≤
    host_count d host + (if bool_decide (k.1 = host ∧ d !! k = None) then 1 else 0).
Proof.
  unfold host_count, registrations_of. destruct (decide (k.1 = host)) as [Hk|Hk].
  - rewrite map_filter_insert_True by done. destruct (d !! k) eqn:Hd.
    + rewrite bool_decide_false by naive_solver. rewrite map_size_insert_Some; [lia|].
      exists d0. by apply map_lookup_filter_Some.
    + rewrite bool_decide_true by done. rewrite map_size_insert_None; [lia|].
      apply map_lookup_filter_None. by left.
  - rewrite map_filter_insert_not by done. case_bool_decide; lia.
Qed.

Lemma table_ok_insert d r now :
  TableOk d →
  (d !! key_of r = None → Z.of_nat (size d) < MAX_DEVICES ∧
     host_count d (reg_host_pseudonym r) < MAX_DEVICES_PER_HOST) →
  pseudonyms_for_token d (reg_device_token r) (reg_host_pseudonym r) < MAX_PSEUDONYMS_PER_TOKEN →
  TableOk (<[key_of r := device_of now r]> d).
Proof.
  intros [Hs Hh Ht] Hnew Htok. split.
  - destruct (d !! key_of r) eqn:Hk; [rewrite map_size_insert_Some by done; done|].
    rewrite map_size_insert_None by done. destruct (Hnew eq_refl). lia.
  - intros host. pose proof (host_count_insert d (key_of r) (device_of now r) host). specialize (Hh host).
    case_bool_decide as Hc; [|lia]. destruct Hc as [<- Hk]. destruct (Hnew Hk). simpl in *. lia.
  - intros token. destruct (decide (token = reg_device_token r)) as [->|Hne].
    + unfold pseudonyms_for_token in Htok.
      assert (size (pseudonyms (<[key_of r := device_of now r]> d) (reg_device_token r)) ≤
        size ({[reg_host_pseudonym r]} ∪ other_pseudonyms d (reg_device_token r) (reg_host_pseudonym r)))%nat.
      { apply subseteq_size. intros h (id & dev & Hk & Hd)%elem_of_pseudonyms.
        destruct (decide (h = reg_host_pseudonym r)) as [->|Hh']; [set_solver|].
        apply elem_of_union_r, elem_of_other_pseudonyms. split; [|done]. apply elem_of_pseudonyms.
        exists id, dev. split; [|done]. rewrite lookup_insert_ne in Hk; [done|]. intros [=]. congruence. }
      pose proof (size_union_alt {[reg_host_pseudonym r]}
        (other_pseudonyms d (reg_device_token r) (reg_host_pseudonym r))) as Hu.
      rewrite size_singleton in Hu.
      pose proof (subseteq_size (other_pseudonyms d (reg_device_token r) (reg_host_pseudonym r)
        ∖ {[reg_host_pseudonym r]}) (other_pseudonyms d (reg_device_token r) (reg_host_pseudonym r))
        ltac:(set_solver)). lia.
    + etrans; [apply inj_le, subseteq_size|apply (Ht token)].
      intros h (id & dev & Hk & Hd)%elem_of_pseudonyms. apply elem_of_pseudonyms. exists id, dev.
      split; [|done]. apply lookup_insert_Some in Hk as [[_ <-]|[_ Hk]]; [|done]. by rewrite <- Hd in Hne.
Qed.

Lemma register_locked_table_ok order now r d : TableOk d → TableOk (register_locked order now r d).1.
Proof.
  intros Hd. destruct (register_locked_cases order now r d) as (d0 & Hsub & Hold & Hcase).
  assert (Hd0 : TableOk d0) by (eapply table_ok_covered, Hd; by apply covered_subseteq).
  destruct Hcase as [[<- _]|(-> & Hnew & Htok)]; [done|]. simpl. apply table_ok_insert; [done| |done].
  intros Hk0. apply Hnew. destruct (d !! key_of r) eqn:Hk; [|done]. rewrite Hold in Hk0; congruence.
Qed.

(** Provider calls in flight. *)
Definition sending (hs : gmap nat Handler) : Z := count_where holds_slot hs.

Definition progress_slot (p : Progress) : Z :=
  match p with Continue h => Z.b2z (holds_slot h) | Reply _ => 0 end.

Record Capped (y : System) : Prop := {
  capped_table : TableOk (devices (state y));
  capped_slots : 0 ≤ provider_slots (state y);
  capped_sending : sending (handlers y) + provider_slots (state y) = PROVIDER_CONCURRENCY;
}.

Lemma capped_progress y id s p out :
  TableOk (devices s) → 0 ≤ provider_slots s →
  sending (delete id (handlers y)) + progress_slot p + provider_slots s = PROVIDER_CONCURRENCY →
  Capped (progress y id (s, p, out)).
Proof.
  intros Ht Hs Hp. split; simpl; [done|done|]. destruct p as [h|code]; simpl in *; [|lia].
  rewrite <- insert_delete_eq. unfold sending in *. rewrite count_where_insert_new by apply lookup_delete_eq.
  lia.
Qed.

(** Every step of a handler keeps the table within its caps and accounts for its
    slot. *)
Lemma run_handler_capped s now now' order ok h :
  TableOk (devices s) → 0 ≤ provider_slots s →
  let '(s', p, _) := run_handler s now now' order ok h in
  TableOk (devices s') ∧ 0 ≤ provider_slots s' ∧
  progress_slot p + provider_slots s' = Z.b2z (holds_slot h) + provider_slots s.
Proof.
  intros Ht Hs. destruct h; cbn [run_handler].
  - pose proof (register_locked_table_ok order now request (devices s) Ht). unfold register_rest.
    destruct (register_locked _ _ _ _). by simpl in *.
  - pose proof (table_ok_covered _ _ (covered_stamp now host (devices s)) Ht). unfold wake_stamp. simpl.
    by destruct (targets_of _ _ _).
  - unfold wake_throttle. by destruct (throttled _ _ _).
  - done.
  - destruct targets as [|dev rest]; simpl; [done|]. destruct (token_allow _ _ _) as [l allowed].
    destruct allowed; simpl; [|done]. destruct (_ <=? 0) eqn:Hle; simpl; [done|].
    apply Z.leb_gt in Hle. split; [done|]. lia.
  - simpl. split; [done|]. lia.
  - unfold revoke_remove. destruct (devices s !! _); [|done]. simpl. split; [|done].
    eapply table_ok_covered, Ht. apply covered_subseteq, delete_subseteq.
  - unfold revoke_look. by destruct (existsb _ _).
  - done.
  - unfold revoke_acquire. destruct (_ <=? 0) eqn:Hle; simpl; [done|]. apply Z.leb_gt in Hle.
    split; [done|]. lia.
  - simpl. split; [done|]. lia.
Qed.

Lemma handle_capped s now r :
  let '(s', p) := handle s now r in
  devices s' = devices s ∧ provider_slots s' = provider_slots s ∧ progress_slot p = 0.
Proof. destruct r; simpl; unfold register, wake, revoke; by repeat (split_match; simpl). Qed.

Lemma capped_step y e : Capped y → Capped (step y e).
Proof.
  intros Hy. pose proof Hy as [Ht Hs Hsum]. destruct e as [id now r|id now now' order ok|id]; cbn [step].
  - destruct (handlers y !! id) eqn:Hid; [done|]. pose proof (handle_capped (state y) now r) as Hh.
    destruct (handle _ _ _) as [s p]. destruct Hh as (Hd & Hp & Hslot).
    apply capped_progress; [by rewrite Hd|by rewrite Hp|]. simpl. rewrite delete_id by done. lia.
  - destruct (handlers y !! id) as [h|] eqn:Hid; [|done].
    pose proof (run_handler_capped (state y) now now' order ok h Ht Hs) as Hh.
    destruct (run_handler _ _ _ _ _ _) as [[s p] out]. destruct Hh as (Hd & Hp & Hslot).
    pose proof (count_where_delete holds_slot _ _ _ Hid). apply capped_progress; [done|done|].
    unfold sending in *. lia.
  - destruct (handlers y !! id) as [h|] eqn:Hid; [|done]. pose proof (count_where_delete holds_slot _ _ _ Hid).
    unfold sending in *. split; simpl; unfold sending; destruct (holds_slot h); simpl in *; done || lia.
Qed.

(** Whatever arrives, the registrations stay within the cap of the table, of
    each host, and of the pseudonyms that share one push token; and no more
    provider calls are in flight than there are slots. *)
Theorem relay_stays_bounded auth es :
  let y := run (start auth) es in
  Z.of_nat (size (devices (state y))) ≤ MAX_DEVICES ∧
  (∀ host, host_count (devices (state y)) host ≤ MAX_DEVICES_PER_HOST) ∧
  (∀ token, Z.of_nat (size (pseudonyms (devices (state y)) token)) ≤ MAX_PSEUDONYMS_PER_TOKEN) ∧
  sending (handlers y) ≤ PROVIDER_CONCURRENCY.
Proof.
  intros y. assert (Hy : Capped y).
  { apply run_invariant'; [apply capped_step|]. split; simpl; [apply table_ok_empty|done|done]. }
  destruct Hy as [[Hs Hh Ht] Hslots Hsum]. split; [done|]. split; [done|]. split; [done|]. lia.
Qed.

(** ** Reclamation *)

Lemma foldl_delete_prefix (l1 l2 : list ((string * string) * Device)) :
  NoDup ((l1 ++ l2).*1) →
  foldl (λ d e, delete e.1 d) (list_to_map (l1 ++ l2)) l1 =@{gmap (string * string) Device} list_to_map l2.
Proof.
  induction l1 as [|[k dev] l1 IH]; simpl; [done|]. intros [Hk Hnd]%NoDup_cons.
  rewrite delete_insert_id by by apply not_elem_of_list_to_map_1. by apply IH.
Qed.

(** The table after an eviction is the tail of its entries in order of age. *)
Lemma evict_oldest_spec order d :
  ∃ ages, ages ≡ₚ map_to_list d ∧ StronglySorted older ages ∧
    evict_oldest order d = list_to_map (drop (Z.to_nat drop_count) ages).
Proof.
  unfold evict_oldest. set (ages := merge_sort older (order (map_to_list d))). exists ages.
  assert (Hperm : ages ≡ₚ map_to_list d).
  { unfold ages. by rewrite merge_sort_Permutation, (in_order_perm order). }
  split; [done|]. split.
  - apply StronglySorted_merge_sort; [|intros a b; unfold older; lia].
    intros a b c; unfold older; lia.
  - generalize (Z.to_nat drop_count). intros n.
    assert (Hnd : NoDup ages.*1) by (rewrite Hperm; apply NoDup_fst_map_to_list).
    rewrite <- (take_drop n ages) in Hnd.
    rewrite <- (foldl_delete_prefix (take n ages) (drop n ages)) by done. rewrite take_drop.
    f_equal. rewrite <- (list_to_map_to_list d) at 1. apply list_to_map_proper; [|done].
    apply NoDup_fst_map_to_list.
Qed.

Lemma strongly_sorted_app_le {A} (R : A → A → Prop) l1 l2 x x' :
  StronglySorted R (l1 ++ l2) → x ∈ l1 → x' ∈ l2 → R x x'.
Proof.
  induction l1 as [|z l1 IH]; simpl; [by intros _ ?%not_elem_of_nil|].
  intros [Hs Hz]%StronglySorted_inv [->|Hx]%elem_of_cons Hy; [|by apply IH].
  rewrite Forall_forall in Hz. apply Hz. apply elem_of_app. by right.
Qed.

(** What a reclamation frees: room for one more, at the cost of registrations
    past their time and, if these were none, of the longest untouched. *)
Lemma reclaim_makes_room order now d :
  TableOk d → Z.of_nat (size (reclaim_registrations order d now)) < MAX_DEVICES.
Proof.
  intros [Hs _ _]. unfold reclaim_registrations. destruct (_ <? _) eqn:Hlt; [by apply Z.ltb_lt|].
  apply Z.ltb_ge in Hlt. destruct (evict_oldest_spec order (live_registrations now d)) as (ages & Hp & _ & ->).
  set (l := live_registrations now d) in *.
  assert (Hsize : (size l ≤ size d)%nat) by (apply map_subseteq_size, map_filter_subseteq).
  assert (Hages : length ages = size l) by (rewrite Hp; apply length_map_to_list).
  assert (Hnd : NoDup (drop (Z.to_nat drop_count) ages).*1).
  { assert (Hall : NoDup ages.*1) by (rewrite Hp; apply NoDup_fst_map_to_list).
    rewrite <- (take_drop (Z.to_nat drop_count) ages), fmap_app in Hall. by apply NoDup_app in Hall as (_ & _ & ?). }
  rewrite map_size_list_to_map, length_drop by done. assert (0 < drop_count) by done. unfold MAX_DEVICES in *. lia.
Qed.

Lemma reclaim_keeps_the_recent order now d k dev :
  d !! k = Some dev → reclaim_registrations order d now !! k = None →
  REGISTRATION_TTL ≤ elapsed now (refreshed dev) ∨
  MAX_DEVICES ≤ Z.of_nat (size (live_registrations now d)) ∧
    ∀ k' dev', reclaim_registrations order d now !! k' = Some dev' → refreshed dev ≤ refreshed dev'.
Proof.
  intros Hk. unfold reclaim_registrations.
  destruct (decide (REGISTRATION_TTL ≤ elapsed now (refreshed dev))) as [|Hlive]; [by left|].
  assert (Hk' : live_registrations now d !! k = Some dev).
  { unfold live_registrations. apply map_lookup_filter_Some. split; [done|]. simpl. lia. }
  destruct (_ <? _) eqn:Hlt; [congruence|]. apply Z.ltb_ge in Hlt. intros Hgone. right. split; [done|].
  destruct (evict_oldest_spec order (live_registrations now d)) as (ages & Hp & Hs & Heq).
  rewrite Heq in Hgone |- *. revert Hs Hgone. intros Hs Hgone k' dev' Hin%elem_of_list_to_map_2.
  rewrite <- (take_drop (Z.to_nat drop_count) ages) in Hs.
  refine (strongly_sorted_app_le _ _ _ (k, dev) (k', dev') Hs _ Hin).
  assert (Hages : (k, dev) ∈ ages) by (rewrite Hp; by apply elem_of_map_to_list).
  rewrite <- (take_drop (Z.to_nat drop_count) ages) in Hages. apply elem_of_app in Hages as [Ht|Hd]; [done|].
  exfalso. apply not_elem_of_list_to_map_2 in Hgone. apply Hgone. apply (list_elem_of_fmap_2 fst) in Hd. done.
Qed.

(** A full table never keeps a new host out: a host below its own cap, for a
    token below its cap of pseudonyms, always enters; what it displaces is past
    its time, or is one of the registrations longest untouched in a table full of
    live ones. *)
Theorem full_table_still_admits order now r d :
  TableOk d →
  host_count d (reg_host_pseudonym r) < MAX_DEVICES_PER_HOST →
  pseudonyms_for_token d (reg_device_token r) (reg_host_pseudonym r) < MAX_PSEUDONYMS_PER_TOKEN →
  ∃ d', register_locked order now r d = (d', NO_CONTENT) ∧
    d' !! key_of r = Some (device_of now r) ∧
    ∀ k dev, k ≠ key_of r → d !! k = Some dev → d' !! k = None →
      REGISTRATION_TTL ≤ elapsed now (refreshed dev) ∨
      MAX_DEVICES ≤ Z.of_nat (size (live_registrations now d)) ∧
        ∀ k' dev', k' ≠ key_of r → d' !! k' = Some dev' → refreshed dev ≤ refreshed dev'.
Proof.
  intros Hd Hhost Htok. set (d0 := if bool_decide (d !! key_of r = None)
    then reclaim_registrations order d now else d).
  assert (Hsub : d0 ⊆ d) by (unfold d0; case_bool_decide; [apply reclaim_subseteq|done]).
  exists (<[key_of r := device_of now r]> d0). split.
  - unfold register_locked. fold (key_of r). fold (device_of now r). fold d0.
    pose proof (host_count_covered _ _ (reg_host_pseudonym r) (covered_subseteq _ _ Hsub)).
    rewrite (proj2 (Z.leb_gt _ (host_count d0 _))) by lia.
    assert (Hps : pseudonyms_for_token d0 (reg_device_token r) (reg_host_pseudonym r) ≤
      pseudonyms_for_token d (reg_device_token r) (reg_host_pseudonym r)).
    { unfold pseudonyms_for_token. apply inj_le, subseteq_size. intros o.
      rewrite !elem_of_other_pseudonyms, !elem_of_pseudonyms. intros [(id & dev & Hk & Ht) Hne].
      split; [|done]. exists id, dev. split; [by eapply lookup_weaken|done]. }
    rewrite (proj2 (Z.leb_gt _ (pseudonyms_for_token d0 _ _))) by lia.
    destruct (bool_decide _) eqn:Hnew; [|done]. simpl.
    rewrite (proj2 (Z.leb_gt MAX_DEVICES _)); [done|]. unfold d0. by apply reclaim_makes_room.
  - rewrite lookup_insert_eq. split; [done|]. intros k dev Hne Hk. rewrite lookup_insert_ne by done.
    unfold d0. case_bool_decide; [|congruence]. intros Hgone.
    destruct (reclaim_keeps_the_recent _ _ _ _ _ Hk Hgone) as [|[Hfull Hold]]; [by left|right].
    split; [done|]. intros k' dev' Hne'. rewrite lookup_insert_ne by done. apply Hold.
Qed.

(** ** What the budget and the table's caps do not cover *)

(** A request an open relay takes from this host. *)
Definition open_request (hd : HeaderMap) (r : RegisterRequest) : Prop :=
  host_bearer_matches hd (reg_host_pseudonym r) = true ∧ register_well_formed r = true.

Lemma open_request_authorized hd r :
  open_request hd r → register_authorized Auth_Open hd (reg_host_pseudonym r) = true.
Proof.
  intros [Hb _]. pose proof Hb as Hb'. unfold host_bearer_matches in Hb'. unfold register_authorized.
  by destruct (bearer hd).
Qed.

(** A registration in a table whose entries have all expired. *)
Lemma register_locked_fresh order now r d :
  (∀ k dev, d !! k = Some dev → REGISTRATION_TTL ≤ elapsed now (refreshed dev)) → d !! key_of r = None →
  register_locked order now r d = ({[key_of r := device_of now r]}, NO_CONTENT).
Proof.
  intros Hold Hk. unfold register_locked. fold (key_of r). fold (device_of now r).
  assert (Hempty : live_registrations now d = ∅).
  { apply map_eq. intros k. rewrite lookup_empty. unfold live_registrations.
    apply map_lookup_filter_None. destruct (d !! k) as [dev|] eqn:Hd; [right|by left].
    intros dev' [= <-]. specialize (Hold _ _ Hd). simpl. lia. }
  rewrite bool_decide_true by done. unfold reclaim_registrations. rewrite Hempty.
  rewrite (proj2 (Z.ltb_lt _ _)) by done. unfold host_count, registrations_of. rewrite map_filter_empty.
  unfold pseudonyms_for_token, other_pseudonyms. rewrite map_to_list_empty. done.
Qed.

(** A first hit, and a second one at the same moment. *)
Lemma limiter_first_hit {K} `{Countable K} (l : Limiter K) k now :
  (∀ e, hits l !! k = Some e → window l ≤ elapsed now e.1) →
  limiter_allow l k now = (set_hits l (<[k := (now, 1)]> (retain_live now (window l) (hits l))), true).
Proof.
  intros Hn%retain_live_None. rewrite limiter_allow_spec. cbv zeta. by rewrite Hn.
Qed.

Lemma limiter_next_hit {K} `{Countable K} (l : Limiter K) k now start count :
  hits l !! k = Some (start, count) → elapsed now start < window l → count < max_hits l →
  limiter_allow l k now =
    (set_hits l (<[k := (start, count + 1)]> (retain_live now (window l) (hits l))), true).
Proof.
  intros Hk Hlive Hc. rewrite limiter_allow_spec. cbv zeta.
  rewrite (proj2 (retain_live_Some _ _ _ _ _) (conj Hk Hlive)).
  by rewrite (proj2 (Z.leb_gt _ _)).
Qed.

(** A host that registers a token and revokes it at once. *)
Definition register_and_revoke (t : Z) (order : HashOrder) (hd : HeaderMap) (r : RegisterRequest)
    (ip : IpAddr) : list Event :=
  [Arrive 0 t (Request_Register hd ip r); Run 0 t t order true;
   Arrive 0 t (Request_Revoke hd {| rev_host_pseudonym := reg_host_pseudonym r;
                                    rev_registration_id := reg_registration_id r |});
   Run 0 t t order true; Run 0 t t order true; Run 0 t t order true; Run 0 t t order true;
   Run 0 t t order true].

(** An open relay between two such rounds, with addresses it has not heard from. *)
Record Idle (ips : list IpAddr) (y : System) : Prop := {
  idle_open : registration (state y) = Auth_Open;
  idle_table : devices (state y) = ∅;
  idle_handlers : handlers y = ∅;
  idle_slots : provider_slots (state y) = PROVIDER_CONCURRENCY;
  idle_ips : ∀ ip, ip ∈ ips → hits (ip_limiter (state y)) !! ip = None;
}.

Definition notice (t : Z) (r : RegisterRequest) : Push :=
  {| push_kind := Notify_Revoked; push_device := device_of t r; push_at := t |}.

(** Runs, a step at a time. *)
Lemma run_arrive y id now r s p es :
  handlers y !! id = None → handle (state y) now r = (s, p) →
  run y (Arrive id now r :: es) = run (progress (arrive y r) id (s, p, [])) es.
Proof. intros Hid Hh. unfold run. cbn [foldl step]. by rewrite Hid, Hh. Qed.

Lemma run_run y id now now' order ok h o es :
  handlers y !! id = Some h → run_handler (state y) now now' order ok h = o →
  run y (Run id now now' order ok :: es) = run (progress y id o) es.
Proof. intros Hid Hh. unfold run. cbn [foldl step]. by rewrite Hid, Hh. Qed.

Lemma handle_register s t hd ip r :
  registration s = Auth_Open → open_request hd r →
  (∀ e, hits (ip_limiter s) !! ip = Some e → window (ip_limiter s) ≤ elapsed t e.1) →
  handle s t (Request_Register hd ip r) =
    (set_ip_limiter s (set_hits (ip_limiter s)
       (<[ip := (t, 1)]> (retain_live t (window (ip_limiter s)) (hits (ip_limiter s))))),
     Continue (Registering r)).
Proof.
  intros Ho Hreq Hip. pose proof (open_request_authorized _ _ Hreq) as Hauth. destruct Hreq as [_ Hw].
  simpl. unfold register, ip_allow. rewrite limiter_first_hit by done. simpl. by rewrite Ho, Hauth, Hw.
Qed.

Lemma handle_revoke s t hd r :
  open_request hd r →
  handle s t (Request_Revoke hd {| rev_host_pseudonym := reg_host_pseudonym r;
                                   rev_registration_id := reg_registration_id r |}) =
    (s, Continue (RevokeRemoving (reg_host_pseudonym r) (reg_registration_id r))).
Proof.
  intros [Hb Hw]. simpl. unfold revoke. simpl. rewrite Hb. unfold register_well_formed in Hw.
  destruct (valid_registration_id _); [done|]. simpl in Hw. by rewrite orb_true_r in Hw.
Qed.

Ltac step_in := cbn [handlers progress arrive run_handler revoke_forget revoke_sent]; rewrite lookup_insert_eq; reflexivity.
Ltac step_out := cbn [handlers progress arrive]; rewrite lookup_delete_eq; reflexivity.

Lemma register_and_revoke_round t order hd r ip ips y :
  open_request hd r → NoDup (ip :: ips) → Idle (ip :: ips) y →
  let y' := run y (register_and_revoke t order hd r ip) in
  Idle ips y' ∧ pushes y' = pushes y ++ [notice t r].
Proof.
  intros Hreq [Hip _]%NoDup_cons [Ho Ht Hh Hs Hi]. unfold register_and_revoke. cbv zeta.
  erewrite run_arrive; [|by rewrite Hh|apply handle_register; [done|done|]].
  2: { intros e. by rewrite Hi by set_solver. }
  erewrite run_run; [|step_in|reflexivity]. cbn [run_handler state progress arrive].
  unfold register_rest. cbn [devices set_ip_limiter]. rewrite Ht.
  rewrite register_locked_fresh by (try apply lookup_empty; by intros ?? ?%lookup_empty_Some).
  erewrite run_arrive; [|step_out|by apply handle_revoke].
  erewrite run_run; [|step_in|].
  2: { cbn [run_handler state progress arrive]. unfold revoke_remove, key_of. cbn [devices set_devices].
       rewrite lookup_singleton_eq. reflexivity. }
  erewrite run_run; [|step_in|].
  2: { cbn [run_handler state progress arrive]. unfold revoke_look. cbn [devices set_devices].
       rewrite delete_singleton_eq, map_to_list_empty. cbn [existsb]. reflexivity. }
  erewrite run_run; [|step_in|reflexivity].
  erewrite run_run; [|step_in|].
  2: { unfold run_handler, revoke_forget, revoke_acquire.
       cbn [state progress arrive provider_slots set_last_wake set_devices set_ip_limiter]. rewrite Hs. change (PROVIDER_CONCURRENCY <=? 0) with false. cbv iota. reflexivity. }
  erewrite run_run; [|step_in|reflexivity]. split; [|by cbn; rewrite !app_nil_r]. split.
  - done.
  - done.
  - cbn. by rewrite !insert_insert_eq, !delete_insert_eq, delete_delete_eq, Hh, delete_empty.
  - done.
  - intros o Hin. cbn. rewrite lookup_insert_ne by set_solver. apply retain_live_None.
    intros e. by rewrite Hi by set_solver.
Qed.

Definition notices_to (token : string) (t : Z) (ps : list Push) : nat :=
  length (filter (λ p, push_kind p = Notify_Revoked ∧ device_token (push_device p) = token ∧
    push_at p = t) ps).

Lemma notices_run t order hd r ips y :
  open_request hd r → NoDup ips → Idle ips y →
  notices_to (reg_device_token r) t (pushes (run y (ips ≫= register_and_revoke t order hd r))) =
    (notices_to (reg_device_token r) t (pushes y) + length ips)%nat.
Proof.
  intros Hreq. revert y. induction ips as [|ip ips IH]; intros y Hnd Hy; [simpl; lia|].
  rewrite bind_cons. unfold run. rewrite foldl_app. fold (run y (register_and_revoke t order hd r ip)).
  destruct (register_and_revoke_round t order hd r ip ips y Hreq Hnd Hy) as [Hy' Hp].
  apply NoDup_cons in Hnd as [_ Hnd]. specialize (IH _ Hnd Hy'). unfold run in IH. unfold run. rewrite IH.
  fold (run y (register_and_revoke t order hd r ip)). rewrite Hp. unfold notices_to.
  rewrite filter_app, length_app, filter_cons, filter_nil, decide_True by done. simpl. lia.
Qed.

(** The budget of a token holds wakes only: on an open relay one host that
    registers a token and revokes it again, once from each of any number of
    addresses, has as many notices of a revocation pushed to that token, all at
    the same instant. *)
Theorem revocation_notices_escape_the_budget hd r (ips : list IpAddr) t :
  open_request hd r → NoDup ips →
  ∃ es, clocked t es ∧
    notices_to (reg_device_token r) t (pushes (run (start Auth_Open) es)) = length ips.
Proof.
  intros Hreq Hnd. set (order := unordered).
  exists (ips ≫= register_and_revoke t order hd r). split.
  - clear Hnd. induction ips as [|ip ips IH]; [done|]. rewrite bind_cons.
    simpl. repeat (split; [lia|]). done.
  - rewrite notices_run; [done|done|done|]. by split.
Qed.

(** A host registers, rings once, and is not heard from again. *)
Definition register_and_wake (t : Z) (order : HashOrder) (ip : IpAddr) (q : HeaderMap * RegisterRequest)
    : list Event :=
  [Arrive 0 t (Request_Register q.1 ip q.2); Run 0 t t order true;
   Arrive 0 t (Request_Wake q.1 ip {| wake_host_pseudonym := reg_host_pseudonym q.2 |});
   Run 0 t t order true; Run 0 t t order true; Disconnect 0].

(** One host after another, each once the registration before has expired. *)
Fixpoint one_by_one (t : Z) (order : HashOrder) (ip : IpAddr) (qs : list (HeaderMap * RegisterRequest))
    : list Event :=
  match qs with
  | [] => []
  | q :: qs => register_and_wake t order ip q ++ one_by_one (t + REGISTRATION_TTL) order ip qs
  end.

Record Lingering (t : Z) (ip : IpAddr) (qs : list (HeaderMap * RegisterRequest)) (n : nat) (y : System)
    : Prop := {
  linger_open : registration (state y) = Auth_Open;
  linger_handlers : handlers y = ∅;
  linger_window : window (ip_limiter (state y)) = RATE_LIMIT_WINDOW;
  linger_max : max_hits (ip_limiter (state y)) = RATE_LIMIT_MAX;
  linger_hits : ∀ e, hits (ip_limiter (state y)) !! ip = Some e → RATE_LIMIT_WINDOW ≤ elapsed t e.1;
  linger_table : ∀ k dev, devices (state y) !! k = Some dev → REGISTRATION_TTL ≤ elapsed t (refreshed dev);
  linger_size : (size (devices (state y)) ≤ 1)%nat;
  linger_wakes : size (last_wake (state y)) = n;
  linger_new : ∀ q, q ∈ qs → last_wake (state y) !! reg_host_pseudonym q.2 = None ∧
    devices (state y) !! key_of q.2 = None;
}.

Lemma handle_wake s t hd ip r start count :
  open_request hd r → hits (ip_limiter s) !! ip = Some (start, count) →
  elapsed t start < window (ip_limiter s) → count < max_hits (ip_limiter s) →
  handle s t (Request_Wake hd ip {| wake_host_pseudonym := reg_host_pseudonym r |}) =
    (set_ip_limiter s (set_hits (ip_limiter s)
       (<[ip := (start, count + 1)]> (retain_live t (window (ip_limiter s)) (hits (ip_limiter s))))),
     Continue (WakeStamping (reg_host_pseudonym r))).
Proof.
  intros [Hb _] Hk Hl Hc. simpl. unfold wake, ip_allow. rewrite (limiter_next_hit _ _ _ _ _ Hk Hl Hc).
  simpl. by rewrite Hb.
Qed.

Lemma wake_stamp_singleton s order now t r :
  devices s = {[key_of r := device_of t r]} →
  wake_stamp s order now (reg_host_pseudonym r) =
    (set_devices s {[key_of r := device_of now r]},
     Continue (WakeThrottling (reg_host_pseudonym r) [device_of now r])).
Proof.
  intros Hd. unfold wake_stamp. rewrite Hd.
  assert (Hs : stamp now (reg_host_pseudonym r) {[key_of r := device_of t r]} =
    {[key_of r := device_of now r]}).
  { unfold stamp, singletonM, map_singleton. rewrite (map_imap_insert_Some _ _ _ _ (device_of now r)), map_imap_empty; [done|].
    simpl. by rewrite bool_decide_true. }
  rewrite Hs. unfold targets_of. cbn [devices set_devices]. rewrite map_to_list_singleton.
  pose proof (in_order_perm order [(key_of r, device_of now r)]) as ->%Permutation_singleton_r.
  rewrite filter_cons, filter_nil, decide_True by done. done.
Qed.

Lemma register_and_wake_round t order ip q qs n y :
  open_request q.1 q.2 → NoDup ((λ q, reg_host_pseudonym q.2) <$> q :: qs) → Lingering t ip (q :: qs) n y →
  Lingering (t + REGISTRATION_TTL) ip qs (S n) (run y (register_and_wake t order ip q)).
Proof.
  intros Hreq [Hq _]%NoDup_cons [Ho Hh Hw Hm Hhits Ht Hs Hl Hnew]. destruct q as [hd r].
  cbn [fst snd] in *. destruct (Hnew (hd, r)) as [Hlw Hk]; [set_solver|]. cbn [fst snd] in *.
  unfold register_and_wake. cbn [fst snd].
  erewrite run_arrive; [|by rewrite Hh|apply handle_register; [done|done|by rewrite Hw]].
  erewrite run_run; [|step_in|reflexivity]. cbn [run_handler state progress arrive].
  unfold register_rest. cbn [devices set_ip_limiter]. rewrite register_locked_fresh by done.
  erewrite run_arrive; [|step_out|].
  2: { cbn [state progress arrive]. apply handle_wake with (start := t) (count := 1); [done|..].
       - cbn. by rewrite lookup_insert_eq.
       - cbn. rewrite Hw. unfold elapsed. by rewrite Z.sub_diag.
       - cbn. by rewrite Hm. }
  erewrite run_run; [|step_in|].
  2: { cbn [run_handler state progress arrive]. erewrite wake_stamp_singleton; reflexivity. }
  erewrite run_run; [|step_in|].
  2: { cbn [run_handler state progress arrive]. unfold wake_throttle, throttled.
       cbn [last_wake set_devices set_ip_limiter]. rewrite Hlw. reflexivity. }
  unfold run. cbn [foldl step progress handlers]. rewrite lookup_insert_eq. unfold disconnect. cbn.
  assert (Hlong : RATE_LIMIT_WINDOW ≤ elapsed (t + REGISTRATION_TTL) t).
  { unfold elapsed. replace (t + REGISTRATION_TTL - t) with REGISTRATION_TTL by lia. done. }
  split; cbn.
  - done.
  - by rewrite !insert_insert_eq, !delete_insert_eq, delete_delete_eq, Hh, delete_empty.
  - done.
  - done.
  - intros e. rewrite lookup_insert_eq. intros [= <-]. done.
  - intros k dev [_ <-]%lookup_singleton_Some. simpl. unfold elapsed. lia.
  - rewrite map_size_insert_None by apply lookup_empty. by rewrite map_size_empty.
  - rewrite map_size_insert_None by done. by rewrite Hl.
  - intros q' Hin. destruct (Hnew q') as [Hlw' _]; [set_solver|].
    assert (Hne : reg_host_pseudonym r ≠ reg_host_pseudonym q'.2).
    { intros Heq. apply Hq. rewrite Heq. apply (list_elem_of_fmap_2 (λ q, reg_host_pseudonym q.2)). done. }
    rewrite lookup_insert_ne by done. split; [done|]. rewrite lookup_insert_ne; [apply lookup_empty|].
    intros [=]. congruence.
Qed.

Lemma lingering_run order ip qs t n y :
  Forall (λ q, open_request q.1 q.2) qs → NoDup ((λ q, reg_host_pseudonym q.2) <$> qs) →
  Lingering t ip qs n y →
  ∃ t', Lingering t' ip [] (n + length qs) (run y (one_by_one t order ip qs)).
Proof.
  revert t n y. induction qs as [|q qs IH]; intros t n y Hreq Hnd Hy.
  - exists t. rewrite Nat.add_0_r. done.
  - apply Forall_cons in Hreq as [Hq Hreq]. cbn [one_by_one]. unfold run. rewrite foldl_app.
    pose proof (register_and_wake_round t order ip q qs n y Hq Hnd Hy) as Hy'.
    rewrite fmap_cons in Hnd. apply NoDup_cons in Hnd as [_ Hnd].
    destruct (IH _ _ _ Hreq Hnd Hy') as [t' Hend]. exists t'. simpl length. by rewrite <- Nat.add_succ_comm.
Qed.

(** The state of the throttle outlives the registrations it belongs to: hosts
    that register in turn, ring once and then let their registration expire leave
    one entry each in it, while the table holds a single registration. *)
Theorem throttle_outgrows_the_table t (qs : list (HeaderMap * RegisterRequest)) :
  Forall (λ q, open_request q.1 q.2) qs → NoDup ((λ q, reg_host_pseudonym q.2) <$> qs) →
  ∃ es, clocked t es ∧
    let y := run (start Auth_Open) es in
    (size (devices (state y)) ≤ 1)%nat ∧ size (last_wake (state y)) = length qs.
Proof.
  intros Hreq Hnd. set (order := unordered).
  set (ip := Ip_V4 0). exists (one_by_one t order ip qs). split.
  - clear Hreq Hnd. revert t. assert (0 ≤ REGISTRATION_TTL) by done.
    assert (Hlater : ∀ qs t t', t' ≤ t → clocked t' (one_by_one t order ip qs)); [|intros; by apply Hlater].
    clear qs. induction qs as [|q qs IH]; intros t t' Ht; [done|]. simpl.
    repeat (split; [lia|]). apply IH. lia.
  - destruct (lingering_run order ip qs t 0 (start Auth_Open)) as [t' [_ _ _ _ _ _ Hs Hl _]]; try done.
    split; try done.
    simpl. rewrite map_size_empty. lia.
Qed.
End relay_facts.

(** ** A run in full *)
Module PushExamples.

#[local] Transparent gmap_empty.

(** Hexadecimal as the [hex] crate writes and reads it, over a toy digest. *)
Definition hex_digit (n : Z) : Byte.byte := byte_of (if n <? 10 then 48 + n else 87 + n).
Definition hex_value (b : Byte.byte) : option Z :=
  let v := byte_val b in
  if (48 <=? v) && (v <=? 57) then Some (v - 48)
  else if (65 <=? v) && (v <=? 70) then Some (v - 55)
  else if (97 <=? v) && (v <=? 102) then Some (v - 87)
  else None.
Fixpoint hex_bytes (bs : bytes) : option bytes :=
  match bs with
  | [] => Some []
  | [_] => None
  | a :: b :: bs =>
      x ← hex_value a; y ← hex_value b; rest ← hex_bytes bs; Some (byte_of (16 * x + y) :: rest)
  end.

#[export] Instance toy_push : PushPrims := {|
  sha256 := Toy.digest;
  hex_encode := λ bs, String.string_of_list_byte
    (bs ≫= λ b, [hex_digit (byte_val b / 16); hex_digit (byte_val b mod 16)]);
  hex_decode := λ s, hex_bytes (str_bytes s);
|}.

Definition secret_of (b : Byte.byte) : string := hex_encode (replicate 32 b).
Definition host_of (b : Byte.byte) : string :=
  hex_encode (sha256 (HOST_HANDLE_CONTEXT ++ replicate 32 b)).
Definition headers_of (b : Byte.byte) : HeaderMap :=
  λ name, if String.eqb name "authorization" then Some (String.append "Bearer " (secret_of b)) else None.
Definition request_of (b : Byte.byte) : RegisterRequest :=
  {| reg_host_pseudonym := host_of b; reg_registration_id := secret_of b; reg_provider := Apns;
     reg_device_token := "phone"; reg_sealed_wake_blob := "c0de" |}.

Lemma open_request_of b : b ∈ [Byte.x01; Byte.x02; Byte.x03] → open_request (headers_of b) (request_of b).
Proof.
  intros Hb. repeat (apply elem_of_cons in Hb as [->|Hb]); [..|by apply not_elem_of_nil in Hb];
    split; vm_compute; reflexivity.
Qed.

(** Register, then wake: the blob goes out to the phone that registered. *)
Definition doorbell : list Event :=
  [Arrive 0 0 (Request_Register (headers_of Byte.x01) (Ip_V4 1) (request_of Byte.x01));
   Run 0 0 0 unordered true;
   Arrive 1 5 (Request_Wake (headers_of Byte.x01) (Ip_V4 1) {| wake_host_pseudonym := host_of Byte.x01 |});
   Run 1 5 5 unordered true; Run 1 5 5 unordered true; Run 1 5 5 unordered true;
   Run 1 7 7 unordered true; Run 1 8 8 unordered true; Run 1 8 8 unordered true].

Definition rung : Push :=
  {| push_kind := Notify_Wake; push_device := device_of 5 (request_of Byte.x01); push_at := 7 |}.

Example doorbell_rings :
  pushes (run (start Auth_Open) doorbell) = [rung] ∧
  replies (run (start Auth_Open) doorbell) = [(0%nat, NO_CONTENT); (1%nat, NO_CONTENT)].
Proof. split; by_vm. Qed.

Lemma wakes_bounded_witness :
  clocked 0 doorbell ∧ all_prompt (secs 30) (start Auth_Open) doorbell ∧
  wakes_in "phone" 0 (secs 299) (pushes (run (start Auth_Open) doorbell)) ≤
    WAKE_BUDGET_MAX * (2 + (secs 299 - 0) / (WAKE_BUDGET_WINDOW - secs 30)).
Proof.
  assert (Hc : clocked 0 doorbell) by (unfold doorbell, clocked; lia).
  assert (Hp : all_prompt (secs 30) (start Auth_Open) doorbell).
  { apply (bool_decide_unpack _). vm_compute. exact I. }
  split; [exact Hc|]. split; [exact Hp|].
  apply (wakes_to_a_token_bounded Auth_Open doorbell 0 (secs 30)); [done|split; done|exact Hc|exact Hp].
Defined.

Lemma push_authorised_witness :
  rung ∈ pushes (run (start Auth_Open) doorbell) ∧
  push_ok Auth_Open (arrived (run (start Auth_Open) doorbell)) rung.
Proof.
  assert (Hin : rung ∈ pushes (run (start Auth_Open) doorbell)).
  { rewrite (proj1 doorbell_rings). apply list_elem_of_singleton. reflexivity. }
  split; [exact Hin|]. apply (every_push_is_authorised Auth_Open doorbell rung). exact Hin.
Defined.

(** A table with one registration, which expires before the next host comes. *)
Definition one_registration : gmap (string * string) Device :=
  (register_locked unordered 0 (request_of Byte.x01) ∅).1.

Lemma still_admits_witness :
  ∃ d', register_locked unordered REGISTRATION_TTL (request_of Byte.x02) one_registration = (d', NO_CONTENT) ∧
    d' !! key_of (request_of Byte.x02) = Some (device_of REGISTRATION_TTL (request_of Byte.x02)) ∧
    ∀ k dev, k ≠ key_of (request_of Byte.x02) → one_registration !! k = Some dev → d' !! k = None →
      REGISTRATION_TTL ≤ elapsed REGISTRATION_TTL (refreshed dev) ∨
      MAX_DEVICES ≤ Z.of_nat (size (live_registrations REGISTRATION_TTL one_registration)) ∧
        ∀ k' dev', k' ≠ key_of (request_of Byte.x02) → d' !! k' = Some dev' → refreshed dev ≤ refreshed dev'.
Proof.
  apply (full_table_still_admits unordered REGISTRATION_TTL (request_of Byte.x02) one_registration).
  - apply register_locked_table_ok, table_ok_empty.
  - vm_compute. reflexivity.
  - vm_compute. reflexivity.
Defined.

Lemma notices_witness :
  ∃ es, clocked 0 es ∧
    notices_to "phone" 0 (pushes (run (start Auth_Open) es)) = length (Ip_V4 <$> seqZ 0 100).
Proof.
  apply (revocation_notices_escape_the_budget (headers_of Byte.x01) (request_of Byte.x01)).
  - apply open_request_of. set_solver.
  - apply NoDup_fmap_2; [intros a b [= Hab]; exact Hab|apply NoDup_seqZ].
Defined.

Lemma throttle_witness :
  ∃ es, clocked 0 es ∧
    let y := run (start Auth_Open) es in
    (size (devices (state y)) ≤ 1)%nat ∧ size (last_wake (state y)) = 3%nat.
Proof.
  apply (throttle_outgrows_the_table 0 [(headers_of Byte.x01, request_of Byte.x01); (headers_of Byte.x02, request_of Byte.x02);
    (headers_of Byte.x03, request_of Byte.x03)]).
  - repeat constructor; apply open_request_of; set_solver.
  - apply (bool_decide_unpack _). vm_compute. exact I.
Defined.
End PushExamples.
