(* ===== verification/PushProvider.v ===== *)
(** * PushProvider: the push relay's credentials

    [crates/push-relay/src/provider_auth.rs] and [build_provider_request] of
    [main.rs]: the configuration read from the environment, the check of every
    endpoint a credential is handed to, the cached APNs token and the cached FCM
    access token, and the requests to APNs and FCM. Strings are lists of
    characters; an error is a constructor rather than its message. *)

From S2P Require Import Prelude Utf8 Timestamps Listing PushRelay.

(** ** The environment and the crates it goes through *)

Record Url := {
  url_scheme : chars;
  url_username : chars;
  url_password : option chars;
  url_host : option chars;
}.

Record ServiceAccountFile := {
  sa_project_id : option chars;
  sa_private_key_id : option chars;
  sa_client_email : chars;
  sa_private_key : chars;
  sa_token_uri : option chars;    (* absent: [default_google_token_uri] *)
}.

Record GoogleClaims := {
  gc_iss : chars; gc_scope : chars; gc_aud : chars; gc_iat : Z; gc_exp : Z;
}.

Record OAuthTokenResponse := { access_token : chars; expires_in : Z }.

Inductive Body :=
| Apns_Body (alert sound : chars) (badge : Z) (wake : chars)
| Fcm_Body (token title body wake : chars).

Record ProviderRequest := {
  request_url : chars;
  request_bearer : chars;
  request_headers : list (chars * chars);
  request_body : Body;
}.

(** [Url::parse], the PEM readers and the signer of [jsonwebtoken], serde's
    reading of a service account, [RequestBuilder::build]. *)
Class ProviderPrims := {
  url_parse : chars → option Url;
  EncodingKey : Type;
  from_ec_pem : bytes → option EncodingKey;
  from_rsa_pem : chars → option EncodingKey;
  encode_es256 : EncodingKey → chars → chars → Z → option chars;   (* kid, iss, iat *)
  encode_rs256 : EncodingKey → option chars → GoogleClaims → option chars;
  parse_service_account : chars → option ServiceAccountFile;
  request_builds : ProviderRequest → bool;
}.

Record Environment := {
  env_var : string → option chars;
  read_file : chars → option bytes;
  read_to_string : chars → option chars;
}.

Inductive ProviderError :=
| Err_InvalidUrl (var : string) | Err_EmbeddedCredentials (var : string) | Err_NoHost (var : string)
| Err_NotHttps (var : string) | Err_NotOfficial (var : string)
| Err_BadProject | Err_BothApns | Err_NoApnsKeyId | Err_NoApnsTeamId | Err_ApnsKeyUnreadable
| Err_BadApnsKey | Err_BothFcm | Err_AccountUnreadable | Err_AccountUnparsable | Err_BadFcmKey
| Err_NoApnsTopic | Err_NoFcmProject | Err_ApnsNotConfigured | Err_FcmNotConfigured
| Err_CachePoisoned | Err_ClockBeforeEpoch | Err_SignFailed | Err_ExchangeFailed
| Err_InstantOverflow (* the addition panics and the handler's task ends *) | Err_BuildFailed.

(** ** Constants *)
Definition APNS_REFRESH_AFTER_SECS : Z := 50 * 60.
Definition FCM_ASSERTION_LIFETIME_SECS : Z := 60 * 60.
Definition FCM_REFRESH_MARGIN_SECS : Z := 60.
Definition FCM_SCOPE : chars := str_chars "https://www.googleapis.com/auth/firebase.messaging".
Definition GOOGLE_TOKEN_URI : chars := str_chars "https://oauth2.googleapis.com/token".
Definition DEFAULT_APNS_URL : chars := str_chars "https://api.push.apple.com/3/device".
Definition DEFAULT_FCM_URL : chars := str_chars "https://fcm.googleapis.com/v1/projects".
Definition APNS_HOSTS : list chars :=
  str_chars <$> ["api.push.apple.com"; "api.sandbox.push.apple.com"]%string.
Definition FCM_HOSTS : list chars := [str_chars "fcm.googleapis.com"].
Definition OAUTH_HOSTS : list chars :=
  str_chars <$> ["oauth2.googleapis.com"; "accounts.google.com"]%string.
Definition LOOPBACK_HOSTS : list chars := str_chars <$> ["localhost"; "127.0.0.1"; "::1"]%string.

(** The last moment an [Instant] can be. *)
Definition INSTANT_MAX : Z := secs (2 ^ 63) - 1.

Section provider.
Context `{ProviderPrims}.

Definition allow_custom_endpoints (env : Environment) : bool :=
  match env_var env "PORTTY_PUSH_ALLOW_CUSTOM_ENDPOINTS" with
  | Some v => bool_decide (v = str_chars "1") || bool_decide (v = str_chars "true")
  | None => false
  end.

(** ** What may be sent to *)

Definition to_ascii_lowercase (s : chars) : chars := ascii_lower <$> s.
Definition is_nonempty (s : chars) : bool := negb (bool_decide (s = [])).

Definition validated_endpoint (var : string) (raw : chars) (official : list chars) (allow_custom : bool)
    : result ProviderError chars :=
  let raw := trim raw in
  url ← ok_or (url_parse raw) (Err_InvalidUrl var);
  if is_nonempty (url_username url) || negb (bool_decide (url_password url = None))
  then Err (Err_EmbeddedCredentials var)
  else
    host ← ok_or (url_host url) (Err_NoHost var);
    let host := to_ascii_lowercase host in
    let loopback := bool_decide (host ∈ LOOPBACK_HOSTS) in
    if negb (bool_decide (url_scheme url = str_chars "https")) && negb (loopback && allow_custom)
    then Err (Err_NotHttps var)
    else if negb (bool_decide (host ∈ official)) && negb allow_custom
    then Err (Err_NotOfficial var)
    else Ok raw.

(** The characters allowed are ASCII, so that counting characters or bytes is the
    same where it matters. *)
Definition project_char (c : Z) : bool :=
  ((97 <=? c) && (c <=? 122)) || ((48 <=? c) && (c <=? 57)) || (c =? 45) || (c =? 46) || (c =? 58).

Definition validated_fcm_project (project : chars) : result ProviderError chars :=
  let project := trim project in
  if is_nonempty project && (Z.of_nat (length project) <=? 64) && forallb project_char project
  then Ok project else Err Err_BadProject.

(** ** The APNs token *)
Record CachedApnsToken := { apns_value : chars; issued_at : Z }.

Record ApnsSigningKey := {
  apns_key_id : chars;
  apns_team_id : chars;
  apns_key : EncodingKey;
  apns_cached : Mutex (option CachedApnsToken);
}.

Definition apns_from_pem (key_id team_id : chars) (pem : bytes) : result ProviderError ApnsSigningKey :=
  key ← ok_or (from_ec_pem pem) Err_BadApnsKey;
  Ok {| apns_key_id := key_id; apns_team_id := team_id; apns_key := key;
        apns_cached := {| mutex_value := None; mutex_poisoned := false |} |}.

Definition apns_fresh (now : Z) (token : CachedApnsToken) : bool :=
  (issued_at token <=? now) && (Z.max 0 (now - issued_at token) <? APNS_REFRESH_AFTER_SECS).

Definition bearer_at (k : ApnsSigningKey) (now : Z) : ApnsSigningKey * result ProviderError chars :=
  let sign :=
    match encode_es256 (apns_key k) (apns_key_id k) (apns_team_id k) now with
    | None => (k, Err Err_SignFailed)
    | Some value =>
        ({| apns_key_id := apns_key_id k; apns_team_id := apns_team_id k; apns_key := apns_key k;
            apns_cached := unlock (apns_cached k) (Some {| apns_value := value; issued_at := now |}) |},
         Ok value)
    end in
  match lock (apns_cached k) with
  | None => (k, Err Err_CachePoisoned)
  | Some (Some token) => if apns_fresh now token then (k, Ok (apns_value token)) else sign
  | Some None => sign
  end.

(** [unix_time] is an argument: [None] when the clock stands before 1970. *)
Definition apns_key_bearer (k : ApnsSigningKey) (unix_time : option Z)
    : ApnsSigningKey * result ProviderError chars :=
  match unix_time with
  | None => (k, Err Err_ClockBeforeEpoch)
  | Some now => bearer_at k now
  end.

(** ** The FCM access token *)
Record CachedOAuthToken := { oauth_value : chars; refresh_at : Z }.

Record FcmServiceAccount := {
  client_email : chars;
  fcm_key_id : option chars;
  token_uri : chars;
  fcm_key : EncodingKey;
  fcm_cached : option CachedOAuthToken;
}.

Definition from_file (env : Environment) (path : chars) (allow_custom : bool)
    : result ProviderError (FcmServiceAccount * option chars) :=
  contents ← ok_or (read_to_string env path) Err_AccountUnreadable;
  account ← ok_or (parse_service_account contents) Err_AccountUnparsable;
  key ← ok_or (from_rsa_pem (sa_private_key account)) Err_BadFcmKey;
  uri ← validated_endpoint "token_uri" (default GOOGLE_TOKEN_URI (sa_token_uri account)) OAUTH_HOSTS
    allow_custom;
  Ok ({| client_email := sa_client_email account; fcm_key_id := sa_private_key_id account;
         token_uri := uri; fcm_key := key; fcm_cached := None |}, sa_project_id account).

(** What a call meets: the clocks it reads and the token endpoint's answer. *)
Record Call := {
  call_started : Z;                      (* [Instant::now] before *)
  call_unix : option Z;
  call_answer : chars → chars → option OAuthTokenResponse;
  call_finished : Z;                     (* [Instant::now] after the exchange *)
}.

Definition fcm_fresh (now : Z) (token : CachedOAuthToken) : bool := now <? refresh_at token.

(** The result, and what was sent to which token endpoint. *)
Definition bearer_with (a : FcmServiceAccount) (c : Call)
    : FcmServiceAccount * result ProviderError chars * list (chars * chars) :=
  let refresh :=
    match call_unix c with
    | None => (a, Err Err_ClockBeforeEpoch, [])
    | Some now =>
        match encode_rs256 (fcm_key a) (fcm_key_id a)
            {| gc_iss := client_email a; gc_scope := FCM_SCOPE; gc_aud := token_uri a; gc_iat := now;
               gc_exp := wrapping_add u64_max now FCM_ASSERTION_LIFETIME_SECS |} with
        | None => (a, Err Err_SignFailed, [])
        | Some assertion =>
            let sent := [(token_uri a, assertion)] in
            match call_answer c (token_uri a) assertion with
            | None => (a, Err Err_ExchangeFailed, sent)
            | Some token =>
                let until := call_finished c + secs (Z.max 0 (expires_in token - FCM_REFRESH_MARGIN_SECS)) in
                if INSTANT_MAX <? until then (a, Err Err_InstantOverflow, sent)
                else
                  ({| client_email := client_email a; fcm_key_id := fcm_key_id a;
                      token_uri := token_uri a; fcm_key := fcm_key a;
                      fcm_cached := Some {| oauth_value := access_token token; refresh_at := until |} |},
                   Ok (access_token token), sent)
            end
        end
    end in
  match fcm_cached a with
  | Some token =>
      if fcm_fresh (call_started c) token then (a, Ok (oauth_value token), []) else refresh
  | None => refresh
  end.

(** ** The configuration *)
Inductive ApnsAuth := Apns_Static (token : chars) | Apns_Signing (key : ApnsSigningKey).
Inductive FcmAuth := Fcm_Static (token : chars) | Fcm_ServiceAccount (account : FcmServiceAccount).

Record ProviderConfig := {
  apns_url : chars;
  apns_auth : option ApnsAuth;
  apns_topic : option chars;
  fcm_base_url : chars;
  fcm_project : option chars;
  fcm_auth : option FcmAuth;
}.

Definition apns_auth_from_env (env : Environment) : result ProviderError (option ApnsAuth) :=
  match env_var env "PORTTY_APNS_BEARER", env_var env "PORTTY_APNS_KEY_PATH" with
  | Some _, Some _ => Err Err_BothApns
  | Some token, None => Ok (Some (Apns_Static token))
  | None, Some path =>
      key_id ← ok_or (env_var env "PORTTY_APNS_KEY_ID") Err_NoApnsKeyId;
      team_id ← ok_or (env_var env "PORTTY_APNS_TEAM_ID") Err_NoApnsTeamId;
      pem ← ok_or (read_file env path) Err_ApnsKeyUnreadable;
      signer ← apns_from_pem key_id team_id pem;
      Ok (Some (Apns_Signing signer))
  | None, None => Ok None
  end.

(** The credentials of FCM and, from a service account, its project. *)
Definition fcm_auth_from_env (env : Environment) (allow_custom : bool)
    : result ProviderError (option FcmAuth * option chars) :=
  let account_path :=
    match env_var env "PORTTY_FCM_SERVICE_ACCOUNT" with
    | Some path => Some path
    | None => env_var env "GOOGLE_APPLICATION_CREDENTIALS"
    end in
  match env_var env "PORTTY_FCM_BEARER", account_path with
  | Some _, Some _ => Err Err_BothFcm
  | Some token, None => Ok (Some (Fcm_Static token), None)
  | None, Some path =>
      '(account, project) ← from_file env path allow_custom;
      Ok (Some (Fcm_ServiceAccount account), project)
  | None, None => Ok (None, None)
  end.

Definition endpoint_from_env (env : Environment) (var : string) (official : list chars)
    (default_url : chars) (allow_custom : bool) : result ProviderError chars :=
  match env_var env var with
  | Some raw => validated_endpoint var raw official allow_custom
  | None => Ok default_url
  end.

Definition is_configured {A} (o : option A) : bool := match o with Some _ => true | None => false end.

Definition from_env (env : Environment) : result ProviderError ProviderConfig :=
  let allow_custom := allow_custom_endpoints env in
  apns_auth ← apns_auth_from_env env;
  '(fcm_auth, account_project) ← fcm_auth_from_env env allow_custom;
  let fcm_project :=
    match env_var env "PORTTY_FCM_PROJECT" with Some p => Some p | None => account_project end in
  fcm_project ← match fcm_project with
                | Some project => Some <$> validated_fcm_project project
                | None => Ok None
                end;
  let apns_topic := env_var env "PORTTY_APNS_TOPIC" in
  if is_configured apns_auth && negb (is_configured apns_topic) then Err Err_NoApnsTopic
  else if is_configured fcm_auth && negb (is_configured fcm_project) then Err Err_NoFcmProject
  else
    apns_url ← endpoint_from_env env "PORTTY_APNS_URL" APNS_HOSTS DEFAULT_APNS_URL allow_custom;
    fcm_base_url ← endpoint_from_env env "PORTTY_FCM_URL" FCM_HOSTS DEFAULT_FCM_URL allow_custom;
    Ok {| apns_url := apns_url; apns_auth := apns_auth; apns_topic := apns_topic;
          fcm_base_url := fcm_base_url; fcm_project := fcm_project; fcm_auth := fcm_auth |}.

Definition set_apns_auth (cfg : ProviderConfig) (a : option ApnsAuth) : ProviderConfig :=
  {| apns_url := apns_url cfg; apns_auth := a; apns_topic := apns_topic cfg;
     fcm_base_url := fcm_base_url cfg; fcm_project := fcm_project cfg; fcm_auth := fcm_auth cfg |}.
Definition set_fcm_auth (cfg : ProviderConfig) (a : option FcmAuth) : ProviderConfig :=
  {| apns_url := apns_url cfg; apns_auth := apns_auth cfg; apns_topic := apns_topic cfg;
     fcm_base_url := fcm_base_url cfg; fcm_project := fcm_project cfg; fcm_auth := a |}.

Definition apns_bearer (cfg : ProviderConfig) (unix_time : option Z)
    : ProviderConfig * result ProviderError chars :=
  match apns_auth cfg with
  | Some (Apns_Static token) => (cfg, Ok token)
  | Some (Apns_Signing key) =>
      let '(key, r) := apns_key_bearer key unix_time in (set_apns_auth cfg (Some (Apns_Signing key)), r)
  | None => (cfg, Err Err_ApnsNotConfigured)
  end.

Definition fcm_bearer (cfg : ProviderConfig) (c : Call)
    : ProviderConfig * result ProviderError chars * list (chars * chars) :=
  match fcm_auth cfg with
  | Some (Fcm_Static token) => (cfg, Ok token, [])
  | Some (Fcm_ServiceAccount account) =>
      let '(account, r, sent) := bearer_with account c in
      (set_fcm_auth cfg (Some (Fcm_ServiceAccount account)), r, sent)
  | None => (cfg, Err Err_FcmNotConfigured, [])
  end.

(** [trim_end_matches('/')]. *)
Fixpoint drop_slashes (s : chars) : chars :=
  match s with
  | c :: s' => if c =? 47 then drop_slashes s' else s
  | [] => []
  end.
Definition trim_end_slashes (s : chars) : chars := reverse (drop_slashes (reverse s)).

(** [format!("{}/{}", base.trim_end_matches('/'), path)]. *)
Definition under (base path : chars) : chars := trim_end_slashes base ++ 47 :: path.

Definition fcm_send_url (cfg : ProviderConfig) : result ProviderError chars :=
  project ← ok_or (fcm_project cfg) Err_NoFcmProject;
  Ok (under (fcm_base_url cfg) (project ++ str_chars "/messages:send")).

(** ** The requests *)

Definition notification_text (kind : NotificationKind) : chars * chars * chars :=
  match kind with
  | Notify_Wake =>
      (str_chars "Portty has a pending approval", str_chars "Portty", str_chars "Pending approval")
  | Notify_Revoked =>
      (str_chars "This Portty pair was ended on the laptop", str_chars "Portty pair ended",
       str_chars "Open Portty to synchronize securely")
  end.

Definition build (r : ProviderRequest) : result ProviderError ProviderRequest :=
  if request_builds r then Ok r else Err Err_BuildFailed.

Definition apns_request (cfg : ProviderConfig) (device : Device) (alert bearer topic : chars)
    : ProviderRequest :=
  {| request_url := under (apns_url cfg) (string_chars (device_token device));
     request_bearer := bearer;
     request_headers := [(str_chars "apns-topic", topic); (str_chars "apns-push-type", str_chars "alert");
                         (str_chars "apns-priority", str_chars "10")];
     request_body := Apns_Body alert (str_chars "default") 1 (string_chars (sealed_wake_blob device)) |}.

Definition build_provider_request (cfg : ProviderConfig) (c : Call) (device : Device)
    (kind : NotificationKind)
    : ProviderConfig * result ProviderError ProviderRequest * list (chars * chars) :=
  let '(alert, title, body) := notification_text kind in
  match provider device with
  | Apns =>
      let '(cfg', bearer) := apns_bearer cfg (call_unix c) in
      (cfg',
       (bearer ← bearer; topic ← ok_or (apns_topic cfg') Err_NoApnsTopic;
        build (apns_request cfg' device alert bearer topic)), [])
  | Fcm =>
      match fcm_send_url cfg with
      | Err e => (cfg, Err e, [])
      | Ok url =>
          let '(cfg', bearer, sent) := fcm_bearer cfg c in
          (cfg',
           (bearer ← bearer;
            build {| request_url := url; request_bearer := bearer; request_headers := [];
                     request_body := Fcm_Body (string_chars (device_token device)) title body
                       (string_chars (sealed_wake_blob device)) |}), sent)
      end
  end.

(** A sequence of notifications, and what leaves the relay with a credential in it:
    the requests, and the assertions with their endpoints. *)
Fixpoint notify_all (cfg : ProviderConfig) (ns : list (Call * Device * NotificationKind))
    : list ProviderRequest * list (chars * chars) :=
  match ns with
  | [] => ([], [])
  | (c, device, kind) :: ns =>
      let '(cfg', r, sent) := build_provider_request cfg c device kind in
      let '(rs, sents) := notify_all cfg' ns in
      (match r with Ok req => req :: rs | Err _ => rs end, sent ++ sents)
  end.

(** Calls one after the other, with what each returns and sends. *)
Fixpoint apns_calls (k : ApnsSigningKey) (nows : list Z) : list (Z * result ProviderError chars) :=
  match nows with
  | [] => []
  | now :: nows => let '(k', r) := bearer_at k now in (now, r) :: apns_calls k' nows
  end.

Fixpoint fcm_calls (a : FcmServiceAccount) (cs : list Call)
    : list (Call * result ProviderError chars * list (chars * chars)) :=
  match cs with
  | [] => []
  | c :: cs => let '(a', r, sent) := bearer_with a c in (c, r, sent) :: fcm_calls a' cs
  end.

(** ** Where credentials go *)

Definition allowed (official : list chars) (allow_custom : bool) (u : Url) : Prop :=
  url_username u = [] ∧ url_password u = None ∧
  ∃ host, url_host u = Some host ∧
    (url_scheme u = str_chars "https" ∨ to_ascii_lowercase host ∈ LOOPBACK_HOSTS ∧ allow_custom = true) ∧
    (to_ascii_lowercase host ∈ official ∨ allow_custom = true).

Definition endpoint_ok (official : list chars) (allow_custom : bool) (raw : chars) : Prop :=
  ∃ u, url_parse raw = Some u ∧ allowed official allow_custom u.

Lemma ok_or_Ok {E A} (o : option A) (e : E) a : ok_or o e = Ok a → o = Some a.
Proof. destruct o; simpl; congruence. Qed.

(** What a chain of [?] came through. *)
Lemma bind_Ok {E A B} (r : result E A) (f : A → result E B) b :
  r ≫= f = Ok b → ∃ a, r = Ok a ∧ f a = Ok b.
Proof. destruct r as [a|e]; [by exists a|]. intros Hr. discriminate Hr. Qed.

Lemma validated_endpoint_ok var raw official allow_custom out :
  validated_endpoint var raw official allow_custom = Ok out → endpoint_ok official allow_custom out.
Proof.
  unfold validated_endpoint. intros (u & Hu%ok_or_Ok & Hr)%bind_Ok.
  destruct (is_nonempty _ || _) eqn:Hcred; [done|].
  apply orb_false_iff in Hcred as [Huser%negb_false_iff%bool_decide_eq_true
    Hpass%negb_false_iff%bool_decide_eq_true].
  apply bind_Ok in Hr as (host & Hhost%ok_or_Ok & Hr).
  destruct (negb _ && negb (_ && _)) eqn:Htls; [done|].
  destruct (negb _ && negb allow_custom) eqn:Hoff; [done|]. injection Hr as <-.
  exists u. split; [done|]. split; [done|]. split; [done|]. exists host. split; [done|].
  apply andb_false_iff in Htls. apply andb_false_iff in Hoff. rewrite !negb_false_iff in Htls, Hoff.
  rewrite !bool_decide_eq_true, andb_true_iff, bool_decide_eq_true in Htls.
  rewrite bool_decide_eq_true in Hoff. done.
Qed.

(** The URL standard: what follows a [/] after the authority leaves scheme,
    credentials and host as they are; and the defaults are what they read. *)
Class UrlLaws : Prop := {
  url_under : ∀ base path u u',
    url_parse base = Some u → url_host u ≠ None → url_parse (under base path) = Some u' →
    url_scheme u' = url_scheme u ∧ url_username u' = url_username u ∧
    url_password u' = url_password u ∧ url_host u' = url_host u;
  url_default_apns : url_parse DEFAULT_APNS_URL = Some
    {| url_scheme := str_chars "https"; url_username := []; url_password := None;
       url_host := Some (str_chars "api.push.apple.com") |};
  url_default_fcm : url_parse DEFAULT_FCM_URL = Some
    {| url_scheme := str_chars "https"; url_username := []; url_password := None;
       url_host := Some (str_chars "fcm.googleapis.com") |};
}.

Context `{UrlLaws}.

Lemma endpoint_ok_under official ac base path u :
  endpoint_ok official ac base → url_parse (under base path) = Some u → allowed official ac u.
Proof using Type*.
  intros (u0 & Hu0 & Huser & Hpass & host & Hhost & Hal) Hu.
  destruct (url_under base path u0 u Hu0) as (E1 & E2 & E3 & E4); [congruence|done|].
  split; [congruence|]. split; [congruence|]. exists host. rewrite E1, E4. done.
Qed.

Lemma endpoint_from_env_ok env var official d ac out :
  endpoint_ok official ac d → endpoint_from_env env var official d ac = Ok out → endpoint_ok official ac out.
Proof.
  intros Hd. unfold endpoint_from_env. destruct (env_var env var); [apply validated_endpoint_ok|].
  by intros [= <-].
Qed.

Record ConfigOk (ac : bool) (cfg : ProviderConfig) : Prop := {
  config_apns : endpoint_ok APNS_HOSTS ac (apns_url cfg);
  config_fcm : endpoint_ok FCM_HOSTS ac (fcm_base_url cfg);
  config_account : ∀ account, fcm_auth cfg = Some (Fcm_ServiceAccount account) →
    endpoint_ok OAUTH_HOSTS ac (token_uri account);
}.

Lemma fcm_auth_from_env_ok env ac auth project account :
  fcm_auth_from_env env ac = Ok (auth, project) → auth = Some (Fcm_ServiceAccount account) →
  endpoint_ok OAUTH_HOSTS ac (token_uri account).
Proof.
  unfold fcm_auth_from_env. intros Hr ->. repeat split_match_in Hr; try done.
  all: apply bind_Ok in Hr as ([account' project'] & Hfile & [= -> _]).
  all: unfold from_file in Hfile; repeat (apply bind_Ok in Hfile as (? & ? & Hfile));
    injection Hfile as <- _; simpl; by eapply validated_endpoint_ok.
Qed.

Lemma from_env_ok env cfg : from_env env = Ok cfg → ConfigOk (allow_custom_endpoints env) cfg.
Proof using Type*.
  unfold from_env. set (ac := allow_custom_endpoints env).
  intros (apns & Hapns & Hr)%bind_Ok. apply bind_Ok in Hr as ([fcm project] & Hfcm & Hr).
  apply bind_Ok in Hr as (project' & _ & Hr). repeat case_match; try done.
  apply bind_Ok in Hr as (aurl & Haurl & Hr). apply bind_Ok in Hr as (furl & Hfurl & [= <-]).
  split; simpl.
  - eapply endpoint_from_env_ok, Haurl. eexists. split; [apply url_default_apns|].
    split; [done|]. split; [done|]. eexists. split; [done|]. split; [by left|left].
    apply (bool_decide_unpack _). vm_compute. exact I.
  - eapply endpoint_from_env_ok, Hfurl. eexists. split; [apply url_default_fcm|].
    split; [done|]. split; [done|]. eexists. split; [done|]. split; [by left|left].
    apply (bool_decide_unpack _). vm_compute. exact I.
  - intros account Hacc. by eapply fcm_auth_from_env_ok.
Qed.

(** The party a request or an assertion is handed to. *)
Definition request_ok (ac : bool) (r : ProviderRequest) : Prop :=
  ∀ u, url_parse (request_url r) = Some u →
    allowed match request_body r with Apns_Body _ _ _ _ => APNS_HOSTS | Fcm_Body _ _ _ _ => FCM_HOSTS end
      ac u.
Definition assertion_ok (ac : bool) (sent : chars * chars) : Prop := endpoint_ok OAUTH_HOSTS ac sent.1.

Lemma build_Ok r r' : build r = Ok r' → r' = r.
Proof. unfold build. destruct (request_builds r); congruence. Qed.

Lemma bearer_with_keeps a c :
  let '(a', _, sent) := bearer_with a c in
  token_uri a' = token_uri a ∧ Forall (λ s, s.1 = token_uri a) sent.
Proof. unfold bearer_with, fcm_fresh. repeat split_match; simpl; (split; [done|]); auto. Qed.

Lemma apns_bearer_keeps cfg t ac :
  ConfigOk ac cfg → ConfigOk ac (apns_bearer cfg t).1 ∧ apns_url (apns_bearer cfg t).1 = apns_url cfg.
Proof.
  intros Hc. unfold apns_bearer. destruct (apns_auth cfg) as [[token|key]|]; try done.
  destruct (apns_key_bearer key t) as [key' r]. destruct Hc. by repeat split.
Qed.

Lemma fcm_bearer_keeps cfg c ac :
  ConfigOk ac cfg →
  let '(cfg', _, sent) := fcm_bearer cfg c in ConfigOk ac cfg' ∧ Forall (assertion_ok ac) sent.
Proof.
  intros Hc. unfold fcm_bearer. destruct (fcm_auth cfg) as [[token|a]|] eqn:Ha; try (by split).
  pose proof (bearer_with_keeps a c) as Hk. destruct (bearer_with a c) as [[a' r] sent].
  destruct Hk as [Huri Hsent]. destruct Hc as [H1 H2 H3]. specialize (H3 _ Ha). split.
  - split; simpl; [done|done|]. intros account [= <-]. by rewrite Huri.
  - eapply Forall_impl; [exact Hsent|]. intros s Hs. unfold assertion_ok. by rewrite Hs.
Qed.

Lemma build_provider_request_ok cfg c device kind ac :
  ConfigOk ac cfg →
  let '(cfg', r, sent) := build_provider_request cfg c device kind in
  ConfigOk ac cfg' ∧ (∀ req, r = Ok req → request_ok ac req) ∧ Forall (assertion_ok ac) sent.
Proof using Type*.
  intros Hc. unfold build_provider_request.
  destruct (notification_text kind) as [[alert title] body]. destruct (provider device).
  - pose proof (apns_bearer_keeps cfg (call_unix c) ac Hc) as [Hc' Hurl].
    destruct (apns_bearer cfg (call_unix c)) as [cfg' bearer]. simpl in *. split; [done|]. split; [|done].
    intros req (b & _ & (topic & _ & ->%build_Ok)%bind_Ok)%bind_Ok. intros u. simpl.
    apply endpoint_ok_under. by destruct Hc'.
  - destruct (fcm_send_url cfg) as [url|e] eqn:Hurl; [|by split].
    pose proof (fcm_bearer_keeps cfg c ac Hc) as Hk. destruct (fcm_bearer cfg c) as [[cfg' bearer] sent].
    destruct Hk as [Hc' Hsent]. split; [done|]. split; [|done].
    intros req (b & _ & ->%build_Ok)%bind_Ok. intros u. simpl.
    unfold fcm_send_url in Hurl. apply bind_Ok in Hurl as (project & _ & [= <-]).
    apply endpoint_ok_under. by destruct Hc.
Qed.

(** C30 (safety). Whatever the environment, if the relay starts, then every request that
    carries its credentials goes to an official push host of the right provider,
    over TLS and without credentials in the URL, and every signed assertion to an
    official token endpoint; unless the operator opted out, which lifts the list
    of hosts, and TLS for loopback, and nothing else. A registrant's device token
    cannot change the host. *)
Theorem credentials_go_to_allowed_hosts env cfg ns rs sents :
  from_env env = Ok cfg → notify_all cfg ns = (rs, sents) →
  Forall (request_ok (allow_custom_endpoints env)) rs ∧
  Forall (assertion_ok (allow_custom_endpoints env)) sents.
Proof using Type*.
  intros Hc%from_env_ok. revert Hc. generalize (allow_custom_endpoints env). intros ac.
  revert cfg rs sents. induction ns as [|[[c device] kind] ns IH]; intros cfg rs sents Hc; simpl.
  { by intros [= <- <-]. }
  pose proof (build_provider_request_ok cfg c device kind ac Hc) as Hb.
  destruct (build_provider_request cfg c device kind) as [[cfg' r] sent]. destruct Hb as (Hc' & Hr & Hs).
  destruct (notify_all cfg' ns) as [rs' sents'] eqn:Hn. destruct (IH _ _ _ Hc' Hn) as [Hrs Hss].
  intros [= <- <-]. split; [|by apply Forall_app]. destruct r as [req|e]; [|done].
  constructor; [by apply Hr|done].
Qed.

(** ** How old a token may be *)

Definition apns_signed (k : ApnsSigningKey) (at_ : Z) (v : chars) : Prop :=
  encode_es256 (apns_key k) (apns_key_id k) (apns_team_id k) at_ = Some v.

(** The cached token is the one signed when it says. *)
Definition apns_cache_ok (k : ApnsSigningKey) : Prop :=
  ∀ t, mutex_value (apns_cached k) = Some t → apns_signed k (issued_at t) (apns_value t).

Lemma bearer_at_spec k now :
  apns_cache_ok k →
  let '(k', r) := bearer_at k now in
  apns_cache_ok k' ∧ (∀ i v, apns_signed k' i v ↔ apns_signed k i v) ∧
  ∀ v, r = Ok v → ∃ i, i ≤ now ∧ now - i < APNS_REFRESH_AFTER_SECS ∧ apns_signed k i v.
Proof.
  intros Hk. unfold bearer_at, lock. set (sign := match encode_es256 _ _ _ now with Some _ => _ | None => _ end).
  assert (Hsign : let '(k', r) := sign in apns_cache_ok k' ∧
    (∀ i v, apns_signed k' i v ↔ apns_signed k i v) ∧
    ∀ v, r = Ok v → ∃ i, i ≤ now ∧ now - i < APNS_REFRESH_AFTER_SECS ∧ apns_signed k i v).
  { unfold sign. destruct (encode_es256 _ _ _ now) as [value|] eqn:He; [|done]. split; [|split; [done|]].
    - by intros t [= <-].
    - intros v [= <-]. exists now. split; [lia|]. split; [|done]. unfold APNS_REFRESH_AFTER_SECS. lia. }
  destruct (mutex_poisoned (apns_cached k)); [done|].
  destruct (mutex_value (apns_cached k)) as [t|] eqn:Ht; [|done].
  destruct (apns_fresh now t) eqn:Hfresh; [|done]. split; [done|]. split; [done|]. intros v [= <-].
  unfold apns_fresh in Hfresh. apply andb_true_iff in Hfresh as [Hle%Z.leb_le Hlt%Z.ltb_lt].
  exists (issued_at t). split; [done|]. split; [lia|]. by apply Hk.
Qed.

(** Whatever way the clock moves between calls, the APNs token a call returns
    was signed for a moment at most fifty minutes before the call and never for a
    moment in its future. *)
Theorem apns_token_is_recent key_id team_id pem k nows now v :
  apns_from_pem key_id team_id pem = Ok k → (now, Ok v) ∈ apns_calls k nows →
  ∃ i, i ≤ now ∧ now - i < APNS_REFRESH_AFTER_SECS ∧ encode_es256 (apns_key k) key_id team_id i = Some v.
Proof.
  unfold apns_from_pem. intros (key & _ & [= <-])%bind_Ok. set (k := Build_ApnsSigningKey _ _ _ _).
  change (encode_es256 (apns_key k) key_id team_id) with (encode_es256 (apns_key k) (apns_key_id k) (apns_team_id k)).
  assert (Hk : apns_cache_ok k) by done. revert Hk. generalize k. clear k.
  induction nows as [|now0 nows IH]; intros k Hk; simpl; [by intros ?%not_elem_of_nil|].
  pose proof (bearer_at_spec k now0 Hk) as Hs. destruct (bearer_at k now0) as [k' r].
  destruct Hs as (Hk' & Hsame & Hr). intros [[= -> <-]|Hin]%elem_of_cons; [by apply Hr|].
  destruct (IH k' Hk' Hin) as (i & Hi & Hi' & Hv). exists i. split; [done|]. split; [done|].
  by apply Hsame.
Qed.

(** The exchange a token of the cache comes from. *)
Definition answered (c : Call) (r : OAuthTokenResponse) : Prop := ∃ uri assertion, call_answer c uri assertion = Some r.

Definition lifetime (r : OAuthTokenResponse) : Z := secs (Z.max 0 (expires_in r - FCM_REFRESH_MARGIN_SECS)).

Definition fcm_cache_ok (past : list Call) (a : FcmServiceAccount) : Prop :=
  ∀ t, fcm_cached a = Some t → ∃ c r, c ∈ past ∧ answered c r ∧ oauth_value t = access_token r ∧
    refresh_at t = call_finished c + lifetime r.

(** A call answers from the cache and sends nothing, or sends at most one
    assertion, whose answer it returns and keeps. *)
Lemma bearer_with_spec past a c :
  fcm_cache_ok past a →
  let '(a', res, sent) := bearer_with a c in
  fcm_cache_ok (past ++ [c]) a' ∧
  ∀ v, res = Ok v →
    (∃ c0 r, c0 ∈ past ∧ answered c0 r ∧ v = access_token r ∧ sent = [] ∧
       call_started c < call_finished c0 + lifetime r) ∨
    (∃ r, answered c r ∧ v = access_token r ∧ length sent = 1%nat).
Proof.
  intros Ha. assert (Hkeep : fcm_cache_ok (past ++ [c]) a).
  { intros t Ht. destruct (Ha t Ht) as (c0 & r & Hin & Hr). exists c0, r. split; [set_solver|done]. }
  unfold bearer_with. set (refresh := match call_unix c with Some _ => _ | None => _ end).
  assert (Hrefresh : let '(a', res, sent) := refresh in fcm_cache_ok (past ++ [c]) a' ∧
    ∀ v, res = Ok v → ∃ r, answered c r ∧ v = access_token r ∧ length sent = 1%nat).
  { unfold refresh. repeat split_match; try done. split.
    - intros t [= <-]. simpl. exists c. eexists. split; [set_solver|]. split; [by eexists _, _|]. done.
    - intros v [= <-]. eexists. split; [by eexists _, _|]. done. }
  destruct (fcm_cached a) as [t|] eqn:Ht.
  - destruct (fcm_fresh (call_started c) t) eqn:Hfresh.
    + split; [done|]. intros v [= <-]. left. destruct (Ha t Ht) as (c0 & r & Hin & Hans & Hv & Hat).
      exists c0, r. unfold fcm_fresh in Hfresh. apply Z.ltb_lt in Hfresh. rewrite Hat in Hfresh. done.
    + destruct refresh as [[a' res] sent]. destruct Hrefresh as [H1 H2]. split; [done|]. auto.
  - destruct refresh as [[a' res] sent]. destruct Hrefresh as [H1 H2]. split; [done|]. auto.
Qed.

(** A call for the FCM access token returns what the token endpoint answered
    to its own assertion, the only one it sends, or, sending nothing, what the
    endpoint answered to an earlier call, no later than a minute before that
    expires. *)
Theorem fcm_token_is_live a cs c v sent :
  fcm_cached a = None → (c, Ok v, sent) ∈ fcm_calls a cs →
  (∃ c0 r, c0 ∈ cs ∧ answered c0 r ∧ v = access_token r ∧ sent = [] ∧
     call_started c < call_finished c0 + lifetime r) ∨
  (∃ r, answered c r ∧ v = access_token r ∧ length sent = 1%nat).
Proof.
  intros Ha. assert (Hcache : fcm_cache_ok [] a) by (intros t Ht; congruence).
  assert (Hall : ∀ past, fcm_cache_ok past a → (c, Ok v, sent) ∈ fcm_calls a cs →
    (∃ c0 r, c0 ∈ past ++ cs ∧ answered c0 r ∧ v = access_token r ∧ sent = [] ∧
       call_started c < call_finished c0 + lifetime r) ∨
    (∃ r, answered c r ∧ v = access_token r ∧ length sent = 1%nat)); [|by apply (Hall [])].
  clear Ha Hcache. revert a. induction cs as [|c1 cs IH]; intros a past Ha; simpl;
    [by intros ?%not_elem_of_nil|].
  pose proof (bearer_with_spec past a c1 Ha) as Hs. destruct (bearer_with a c1) as [[a' res] sent1].
  destruct Hs as [Ha' Hres]. intros [[= -> <- ->]|Hin]%elem_of_cons.
  - destruct (Hres v eq_refl) as [(c0 & r & Hin & Hr)|Hr]; [left|by right].
    exists c0, r. split; [set_solver|done].
  - destruct (IH a' _ Ha' Hin) as [(c0 & r & Hin0 & Hr)|Hr]; [left|by right].
    exists c0, r. split; [set_solver|done].
Qed.

(** An IPv6 loopback proxy is refused even after the opt-out: [Url::host_str] puts
    an IPv6 address in brackets, and the list of loopback hosts has none. *)
Lemma ipv6_loopback_is_refused var raw official u :
  url_parse (trim raw) = Some u → url_scheme u = str_chars "http" → url_username u = [] →
  url_password u = None → url_host u = Some (str_chars "[::1]") →
  validated_endpoint var raw official true = Err (Err_NotHttps var).
Proof. intros Hu Hs Huser Hpass Hhost. unfold validated_endpoint. rewrite Hu. simpl. by rewrite Huser, Hpass, Hhost, Hs. Qed.
End provider.

(** ** A configuration in full *)
Module ProviderExamples.

(** A [Url::parse] that knows three hosts. *)
Definition hosts : list string :=
  ["api.push.apple.com"; "fcm.googleapis.com"; "oauth2.googleapis.com"]%string.
Definition origin (host : string) : chars := str_chars "https://" ++ str_chars host.
Definition starts_with (p s : chars) : bool := bool_decide (take (length p) s = p).
Definition toy_url (s : chars) : option Url :=
  h ← List.find (λ h, starts_with (origin h ++ [47]) s) hosts;
  Some {| url_scheme := str_chars "https"; url_username := []; url_password := None;
          url_host := Some (str_chars h) |}.

Definition toy_account : ServiceAccountFile :=
  {| sa_project_id := Some (str_chars "portty-1"); sa_private_key_id := None;
     sa_client_email := str_chars "push"; sa_private_key := str_chars "key"; sa_token_uri := None |}.

#[export] Instance toy_provider : ProviderPrims := {|
  url_parse := toy_url;
  EncodingKey := unit;
  from_ec_pem := λ _, Some tt;
  from_rsa_pem := λ _, Some tt;
  encode_es256 := λ _ kid iss iat, Some (kid ++ iss ++ [iat]);
  encode_rs256 := λ _ _ claims, Some (gc_iss claims ++ [gc_iat claims]);
  parse_service_account := λ _, Some toy_account;
  request_builds := λ _, true;
|}.

(** Trimming slashes stops before a path's first one. *)
Lemma drop_slashes_app l c q :
  c ≠ 47 → ∃ l', drop_slashes (l ++ 47 :: c :: q) = c :: q ∨ drop_slashes (l ++ 47 :: c :: q) = l' ++ 47 :: c :: q.
Proof.
  intros Hc. induction l as [|x l IH]; simpl.
  - exists []. left. by rewrite (proj2 (Z.eqb_neq c 47)).
  - destruct (x =? 47); [done|]. exists (x :: l). by right.
Qed.

Lemma under_origin p c rest path :
  c ≠ 47 → ∃ rest', under (p ++ [c; 47] ++ rest) path = p ++ [c; 47] ++ rest'.
Proof.
  intros Hc. unfold under, trim_end_slashes.
  rewrite !reverse_app. replace (reverse [c; 47]) with [47; c] by done. rewrite <- app_assoc. simpl.
  destruct (drop_slashes_app (reverse rest) c (reverse p) Hc) as [l' [->| ->]].
  - exists path. rewrite reverse_cons, reverse_involutive, <- app_assoc. done.
  - exists (reverse l' ++ 47 :: path). rewrite reverse_app, !reverse_cons, reverse_involutive.
    rewrite <- !app_assoc. done.
Qed.

Lemma starts_with_true p s : starts_with p s = true ↔ ∃ rest, s = p ++ rest.
Proof.
  unfold starts_with. rewrite bool_decide_eq_true. split.
  - intros Hp. exists (drop (length p) s). by rewrite <- Hp at 1; rewrite take_drop.
  - intros [rest ->]. by rewrite take_app_length.
Qed.

Lemma toy_url_Some s h rest :
  h ∈ hosts → s = origin h ++ [47] ++ rest →
  toy_url s = Some {| url_scheme := str_chars "https"; url_username := []; url_password := None;
                      url_host := Some (str_chars h) |}.
Proof. intros Hh ->. repeat (apply elem_of_cons in Hh as [->|Hh]); [done..|by apply not_elem_of_nil in Hh]. Qed.

#[export] Instance toy_url_laws : UrlLaws.
Proof.
  split; [|by vm_compute..]. intros base path u u' Hu _ Hu'. simpl in *. unfold toy_url in Hu.
  destruct (List.find _ hosts) as [h|] eqn:Hf; [|done]. injection Hu as <-.
  apply List.find_some in Hf as [Hin Hs]. apply starts_with_true in Hs as [rest ->].
  assert (Hunder : ∃ rest', under ((origin h ++ [47]) ++ rest) path = origin h ++ [47] ++ rest').
  { apply list_elem_of_In in Hin.
    assert (Hm : ∃ p, origin h = p ++ [109]).
    { exists (take (length (origin h) - 1) (origin h)).
      repeat (apply elem_of_cons in Hin as [->|Hin]); [done..|by apply not_elem_of_nil in Hin]. }
    destruct Hm as [p Hp]. destruct (under_origin p 109 rest path) as [rest' Hr]; [done|].
    exists rest'. rewrite Hp, <- !app_assoc. exact Hr. }
  destruct Hunder as [rest' Hr]. erewrite toy_url_Some in Hu'; [|by apply list_elem_of_In|exact Hr].
  by injection Hu' as <-.
Qed.

Definition toy_env : Environment :=
  {| env_var := λ v,
       if String.eqb v "PORTTY_APNS_KEY_PATH" then Some (str_chars "apns.p8")
       else if String.eqb v "PORTTY_APNS_KEY_ID" then Some (str_chars "kid")
       else if String.eqb v "PORTTY_APNS_TEAM_ID" then Some (str_chars "team")
       else if String.eqb v "PORTTY_APNS_TOPIC" then Some (str_chars "app.portty")
       else if String.eqb v "PORTTY_FCM_SERVICE_ACCOUNT" then Some (str_chars "fcm.json")
       else if String.eqb v "PORTTY_FCM_URL" then Some (str_chars " https://fcm.googleapis.com/v1/projects/ ")
       else None;
     read_file := λ _, Some [];
     read_to_string := λ _, Some [] |}.

Definition toy_call : Call :=
  {| call_started := 0; call_unix := Some 1000; call_finished := secs 1;
     call_answer := λ _ _, Some {| access_token := str_chars "ya29"; expires_in := 3600 |} |}.
Definition later_call : Call :=
  {| call_started := secs 3500; call_unix := Some 4500; call_finished := secs 3500; call_answer := λ _ _, None |}.

(** The token of a registrant that tries to climb out of the path. *)
Definition phone (p : Provider) : Device :=
  {| provider := p; device_token := "../../@evil.example/x"; sealed_wake_blob := "c0de"; refreshed := 0 |}.

Definition toy_config : ProviderConfig := unwrap_or (from_env toy_env)
  {| apns_url := []; apns_auth := None; apns_topic := None; fcm_base_url := []; fcm_project := None;
     fcm_auth := None |}.

Definition toy_notifications : list (Call * Device * NotificationKind) :=
  [(toy_call, phone Apns, Notify_Wake); (toy_call, phone Fcm, Notify_Wake);
   (later_call, phone Fcm, Notify_Revoked)].

Example toy_requests :
  request_url <$> (notify_all toy_config toy_notifications).1 =
    [str_chars "https://api.push.apple.com/3/device/../../@evil.example/x";
     str_chars "https://fcm.googleapis.com/v1/projects/portty-1/messages:send";
     str_chars "https://fcm.googleapis.com/v1/projects/portty-1/messages:send"] ∧
  (notify_all toy_config toy_notifications).2 = [(GOOGLE_TOKEN_URI, str_chars "push" ++ [1000])].
Proof. split; by_vm. Qed.

Lemma toy_config_ok : from_env toy_env = Ok toy_config.
Proof. apply unwrap_or_ok. by_vm. Qed.

Lemma credentials_witness :
  from_env toy_env = Ok toy_config ∧
  Forall (request_ok (allow_custom_endpoints toy_env)) (notify_all toy_config toy_notifications).1 ∧
  Forall (assertion_ok (allow_custom_endpoints toy_env)) (notify_all toy_config toy_notifications).2.
Proof.
  split; [exact toy_config_ok|].
  apply (credentials_go_to_allowed_hosts toy_env toy_config toy_notifications); [exact toy_config_ok|].
  apply surjective_pairing.
Defined.

Definition toy_key : ApnsSigningKey :=
  {| apns_key_id := [1]; apns_team_id := [2]; apns_key := tt;
     apns_cached := {| mutex_value := None; mutex_poisoned := false |} |}.

(** A reuse, a renewal, and a clock set back. *)
Lemma apns_token_witness :
  apns_calls toy_key [100; 3099; 3100; 50] =
    [(100, Ok [1; 2; 100]); (3099, Ok [1; 2; 100]); (3100, Ok [1; 2; 3100]); (50, Ok [1; 2; 50])] ∧
  ∃ i, i ≤ 3099 ∧ 3099 - i < APNS_REFRESH_AFTER_SECS ∧ encode_es256 (tt : EncodingKey) [1] [2] i = Some [1; 2; 100].
Proof.
  split; [reflexivity|].
  apply (apns_token_is_recent [1] [2] [] toy_key [100; 3099; 3100; 50] 3099 [1; 2; 100]); [reflexivity|].
  simpl. apply elem_of_cons. right. apply elem_of_cons. left. reflexivity.
Defined.

Definition account : FcmServiceAccount :=
  {| client_email := [1]; fcm_key_id := None; token_uri := GOOGLE_TOKEN_URI; fcm_key := tt; fcm_cached := None |}.

Lemma fcm_token_witness :
  (∃ c0 r, c0 ∈ [toy_call; later_call] ∧ answered c0 r ∧ str_chars "ya29" = access_token r ∧
     ([] : list (chars * chars)) = [] ∧ call_started later_call < call_finished c0 + lifetime r) ∨
  (∃ r, answered later_call r ∧ str_chars "ya29" = access_token r ∧
     length ([] : list (chars * chars)) = 1%nat).
Proof.
  apply (fcm_token_is_live account [toy_call; later_call] later_call (str_chars "ya29") []); [reflexivity|].
  simpl. apply elem_of_cons. right. apply elem_of_cons. left. reflexivity.
Defined.
End ProviderExamples.
