(* ===== verification/PairConfirm.v ===== *)
(** * PairConfirm: a human confirms a first pair

    [crates/host/src/pair_confirm.rs] and [serve_pairing_console] of
    [relay_pipe.rs]: the broker that hands a pairing request to every attached
    console and waits for the first answer. Consoles come and go, read and answer
    at any moment; the one confirmation in flight takes its steps in between. *)

From S2P Require Import Prelude Handshake.

(** ** The broker *)

Definition CONFIRM_TIMEOUT : Z := secs 120.

(** A request; its number stands for the reply channel made for it. *)
Record PairRequest := {
  request_no : nat;
  pr_device_id : DeviceId;
  pr_display_name : string;
  pr_code : chars;
}.

#[global] Instance PairRequest_eq_dec : EqDecision PairRequest.
Proof. solve_decision. Defined.

(** The confirmation in flight: the consoles still to be handed the request, how
    many took it, and the answers that arrived. *)
Record Waiting := {
  asked : PairRequest;
  to_send : list nat;
  delivered : nat;
  answers_in : list bool;
}.

Record PairConfirm := {
  consoles : Mutex (list nat);                   (* the registry *)
  channels : gmap nat (option PairRequest);      (* consoles that still receive *)
  next_id : nat;
  next_request : nat;
  in_flight : option Waiting;
  reading : list (nat * PairRequest);            (* requests a console has read *)
}.

Definition confirm_new : PairConfirm :=
  {| consoles := {| mutex_value := []; mutex_poisoned := false |}; channels := ∅; next_id := 0;
     next_request := 0; in_flight := None; reading := [] |}.

(** [attach]; dropping the guard; dropping the receiver, with what it holds. *)
Definition attach (b : PairConfirm) : PairConfirm :=
  {| consoles := match lock (consoles b) with
                 | Some ids => unlock (consoles b) (ids ++ [next_id b])
                 | None => consoles b
                 end;
     channels := <[next_id b := None]> (channels b);
     next_id := S (next_id b); next_request := next_request b; in_flight := in_flight b;
     reading := reading b |}.

Definition drop_guard (id : nat) (b : PairConfirm) : PairConfirm :=
  {| consoles := match lock (consoles b) with
                 | Some ids => unlock (consoles b) (filter (λ i, i ≠ id) ids)
                 | None => consoles b
                 end;
     channels := channels b; next_id := next_id b; next_request := next_request b;
     in_flight := in_flight b; reading := reading b |}.

Definition hang_up (id : nat) (b : PairConfirm) : PairConfirm :=
  {| consoles := consoles b; channels := delete id (channels b); next_id := next_id b;
     next_request := next_request b; in_flight := in_flight b; reading := reading b |}.

Definition set_in_flight (b : PairConfirm) (w : option Waiting) : PairConfirm :=
  {| consoles := consoles b; channels := channels b; next_id := next_id b;
     next_request := next_request b; in_flight := w; reading := reading b |}.

(** [confirm] up to the first send: refused at once while another confirmation is
    in flight or when nobody is attached. *)
Definition confirm_begin (device : DeviceId) (name : string) (code : chars) (b : PairConfirm)
    : PairConfirm * PairRequest * option bool :=
  let r := {| request_no := next_request b; pr_device_id := device; pr_display_name := name;
              pr_code := code |} in
  let b := {| consoles := consoles b; channels := channels b; next_id := next_id b;
              next_request := S (next_request b); in_flight := in_flight b; reading := reading b |} in
  match in_flight b with
  | Some _ => (b, r, Some false)
  | None =>
      let targets := default [] (lock (consoles b)) in
      if bool_decide (targets = []) then (b, r, Some false)
      else (set_in_flight b (Some {| asked := r; to_send := targets; delivered := 0; answers_in := [] |}),
            r, None)
  end.

(** [target.try_send(request)]: the channel of a console holds one request. *)
Definition send_one (b : PairConfirm) : PairConfirm :=
  match in_flight b with
  | Some w =>
      match to_send w with
      | [] => b
      | id :: rest =>
          let accepts := bool_decide (channels b !! id = Some None) in
          {| consoles := consoles b;
             channels := if accepts then <[id := Some (asked w)]> (channels b) else channels b;
             next_id := next_id b; next_request := next_request b;
             in_flight := Some {| asked := asked w; to_send := rest;
                                  delivered := if accepts then S (delivered w) else delivered w;
                                  answers_in := answers_in w |};
             reading := reading b |}
      end
  | None => b
  end.

(** A console reads its request, and answers it or drops it. *)
Definition read_request (id : nat) (b : PairConfirm) : PairConfirm :=
  match channels b !! id with
  | Some (Some r) =>
      {| consoles := consoles b; channels := <[id := None]> (channels b); next_id := next_id b;
         next_request := next_request b; in_flight := in_flight b; reading := reading b ++ [(id, r)] |}
  | _ => b
  end.

Definition take_reading (id : nat) (b : PairConfirm) : option (PairRequest * PairConfirm) :=
  p ← List.find (λ p, Nat.eqb p.1 id) (reading b);
  Some (p.2, {| consoles := consoles b; channels := channels b; next_id := next_id b;
                next_request := next_request b; in_flight := in_flight b;
                reading := filter (λ q, q.1 ≠ id) (reading b) |}).

(** An answer to a request that no longer waits goes nowhere. *)
Definition give_answer (r : PairRequest) (accept : bool) (b : PairConfirm) : PairConfirm :=
  match in_flight b with
  | Some w =>
      if Nat.eqb (request_no r) (request_no (asked w)) then
        set_in_flight b (Some {| asked := asked w; to_send := to_send w; delivered := delivered w;
                                 answers_in := answers_in w ++ [accept] |})
      else b
  | None => b
  end.

(** Somebody can still answer: a console that holds the request unread or read. *)
Definition is_request (no : nat) (r : PairRequest) : bool := Nat.eqb (request_no r) no.
Definition answerable (no : nat) (b : PairConfirm) : bool :=
  existsb (λ c, match c.2 with Some r => is_request no r | None => false end) (map_to_list (channels b))
  || existsb (λ p, is_request no p.2) (reading b).

(** What [confirm] returns when it is polled, [None] while it waits: the first
    answer; a refusal when no console took the request, when none is left to
    answer, or after [CONFIRM_TIMEOUT]. *)
Definition poll (timed_out : bool) (b : PairConfirm) : option (PairRequest * bool) :=
  w ← in_flight b;
  match to_send w with
  | _ :: _ => None
  | [] =>
      if Nat.eqb (delivered w) 0 then Some (asked w, false)
      else match answers_in w with
           | answer :: _ => Some (asked w, answer)
           | [] => if negb (answerable (request_no (asked w)) b) || timed_out
                   then Some (asked w, false) else None
           end
  end.

(** ** Runs *)
Inductive Event :=
| Attach
| DropGuard (console : nat)
| HangUp (console : nat)
| Confirm (device : DeviceId) (name : string) (code : chars)
| SendOne
| Read (console : nat)
| Answer (console : nat) (accept : bool)
| DropRead (console : nat)
| Poll (timed_out : bool)
| Abandon.                      (* the task that waits is dropped *)

(** The broker with what happened: the requests made, the answers given, and the
    verdicts. *)
Record World := {
  broker : PairConfirm;
  requests : list PairRequest;
  given : list (PairRequest * bool);
  verdicts : list (PairRequest * bool);
}.

Definition world_new : World := {| broker := confirm_new; requests := []; given := []; verdicts := [] |}.

Definition with_broker (w : World) (b : PairConfirm) : World :=
  {| broker := b; requests := requests w; given := given w; verdicts := verdicts w |}.

Definition world_step (w : World) (e : Event) : World :=
  match e with
  | Attach => with_broker w (attach (broker w))
  | DropGuard id => with_broker w (drop_guard id (broker w))
  | HangUp id => with_broker w (hang_up id (broker w))
  | Confirm device name code =>
      let '(b, r, v) := confirm_begin device name code (broker w) in
      {| broker := b; requests := requests w ++ [r]; given := given w;
         verdicts := match v with Some v => verdicts w ++ [(r, v)] | None => verdicts w end |}
  | SendOne => with_broker w (send_one (broker w))
  | Read id => with_broker w (read_request id (broker w))
  | Answer id accept =>
      match take_reading id (broker w) with
      | Some (r, b) => {| broker := give_answer r accept b; requests := requests w;
                          given := given w ++ [(r, accept)]; verdicts := verdicts w |}
      | None => w
      end
  | DropRead id =>
      match take_reading id (broker w) with Some (_, b) => with_broker w b | None => w end
  | Poll timed_out =>
      match poll timed_out (broker w) with
      | Some v => {| broker := set_in_flight (broker w) None; requests := requests w; given := given w;
                     verdicts := verdicts w ++ [v] |}
      | None => w
      end
  | Abandon => with_broker w (set_in_flight (broker w) None)
  end.

Definition world_run (es : list Event) : World := foldl world_step world_new es.

(** ** What a verdict means *)

(** The answers given to a request, in order. *)
Definition answers_to (r : PairRequest) (gs : list (PairRequest * bool)) : list bool :=
  snd <$> filter (λ g, g.1 = r) gs.

Lemma answers_to_app r gs gs' : answers_to r (gs ++ gs') = answers_to r gs ++ answers_to r gs'.
Proof. unfold answers_to. by rewrite filter_app, fmap_app. Qed.

(** A request that was made: its number tells it apart. *)
Definition made (w : World) (r : PairRequest) : Prop := requests w !! request_no r = Some r.

(** What circulates was made, and the answers that arrived are those given to the
    request in flight. *)
Record Honest (w : World) : Prop := {
  honest_count : next_request (broker w) = length (requests w);
  honest_channels : ∀ id r, channels (broker w) !! id = Some (Some r) → made w r;
  honest_reading : ∀ p, p ∈ reading (broker w) → made w p.2;
  honest_given : ∀ g, g ∈ given w → made w g.1;
  honest_waiting : ∀ v, in_flight (broker w) = Some v →
    made w (asked v) ∧ answers_in v = answers_to (asked v) (given w);
  honest_yes : ∀ r, (r, true) ∈ verdicts w → ∃ rest, answers_to r (given w) = true :: rest;
}.

Lemma made_inj w r r' : made w r → made w r' → request_no r = request_no r' → r = r'.
Proof. unfold made. intros Hr Hr' Heq. rewrite Heq in Hr. congruence. Qed.

(** Steps that only move requests about. *)
Lemma honest_with_broker w b :
  Honest w → next_request b = next_request (broker w) →
  (∀ id r, channels b !! id = Some (Some r) → made w r) →
  (∀ p, p ∈ reading b → made w p.2) →
  (∀ v, in_flight b = Some v → made w (asked v) ∧ answers_in v = answers_to (asked v) (given w)) →
  Honest (with_broker w b).
Proof. intros [Hn Hc Hr Hg Hw Hy] Hn' Hc' Hr' Hw'. split; simpl; try done. by rewrite Hn'. Qed.

Lemma honest_read id w : Honest w → Honest (with_broker w (read_request id (broker w))).
Proof.
  intros Hw. pose proof Hw as [Hn Hc Hr Hg Hi Hy]. unfold read_request.
  destruct (channels (broker w) !! id) as [[r|]|] eqn:Hid; [|by apply honest_with_broker..].
  apply honest_with_broker; simpl; try done.
  - intros id' r' [[_ ?]|[_ ?]]%lookup_insert_Some; [done|by eapply Hc].
  - intros p [Hp|Hp]%elem_of_app; [by apply Hr|]. apply list_elem_of_singleton in Hp as ->. by eapply Hc.
Qed.

Lemma honest_send_one w : Honest w → Honest (with_broker w (send_one (broker w))).
Proof.
  intros Hw. pose proof Hw as [Hn Hc Hr Hg Hi Hy]. unfold send_one.
  destruct (in_flight (broker w)) as [v|] eqn:Hv; [|by apply honest_with_broker; rewrite ?Hv].
  destruct (to_send v) as [|id rest] eqn:Hts; [by apply honest_with_broker; rewrite ?Hv|].
  destruct (Hi _ eq_refl) as [Hm Ha]. apply honest_with_broker; simpl; try done.
  - intros id' r. case_bool_decide; [|by apply Hc].
    intros [[_ [= <-]]|[_ ?]]%lookup_insert_Some; [done|by eapply Hc].
  - by intros v' [= <-].
Qed.

Lemma honest_confirm device name code w :
  Honest w → Honest (world_step w (Confirm device name code)).
Proof.
  intros [Hn Hc Hr Hg Hi Hy]. simpl. unfold confirm_begin. cbn [in_flight consoles].
  set (r := {| request_no := next_request (broker w) |}).
  assert (Hmade : ∀ b vs r', made w r' →
    made {| broker := b; requests := requests w ++ [r]; given := given w; verdicts := vs |} r').
  { intros b vs r' Hm. unfold made in *. simpl. by apply lookup_app_l_Some. }
  assert (Hnew : ∀ b vs, made {| broker := b; requests := requests w ++ [r]; given := given w; verdicts := vs |} r).
  { intros b vs. unfold made. simpl. rewrite Hn, lookup_app_r, Nat.sub_diag by lia. done. }
  assert (Hfresh : answers_to r (given w) = []).
  { unfold answers_to. rewrite list_filter_none; [done|]. apply Forall_forall. intros g Hin Heq.
    apply Hg in Hin. unfold made in Hin. rewrite Heq in Hin. apply lookup_lt_Some in Hin.
    simpl in Hin. lia. }
  assert (Hdenied : ∀ r', (r', true) ∈ verdicts w ++ [(r, false)] → (r', true) ∈ verdicts w).
  { intros r' [?|Hin]%elem_of_app; [done|]. by apply list_elem_of_singleton in Hin. }
  destruct (in_flight (broker w)) as [v|] eqn:Hv; [|case_bool_decide].
  all: split; simpl; rewrite ?length_app, ?Hv; simpl; try lia; eauto; try (by intros v' [= <-]).
  intros v' [= <-]. destruct (Hi v eq_refl). eauto.
Qed.

Lemma take_reading_Some id b r b' :
  take_reading id b = Some (r, b') →
  (∃ p, p ∈ reading b ∧ p.2 = r) ∧ next_request b' = next_request b ∧ channels b' = channels b ∧
  in_flight b' = in_flight b ∧ (∀ p, p ∈ reading b' → p ∈ reading b).
Proof.
  unfold take_reading. intros (p & Hp & [= <- <-])%bind_Some. simpl.
  apply List.find_some in Hp as [Hin _]. split; [|split; [done|split; [done|split; [done|]]]].
  - exists p. split; [by apply list_elem_of_In|done].
  - by intros q [_ ?]%list_elem_of_filter.
Qed.

Lemma honest_drop_read id w : Honest w → Honest (world_step w (DropRead id)).
Proof.
  intros Hw. pose proof Hw as [Hn Hc Hr Hg Hi Hy]. simpl.
  destruct (take_reading id (broker w)) as [[r b]|] eqn:Ht; [|done].
  apply take_reading_Some in Ht as (_ & Hn' & Hc' & Hi' & Hr').
  apply honest_with_broker; rewrite ?Hc', ?Hi'; auto.
Qed.

Lemma honest_answer id accept w : Honest w → Honest (world_step w (Answer id accept)).
Proof.
  intros Hw. pose proof Hw as [Hn Hc Hr Hg Hi Hy]. simpl.
  destruct (take_reading id (broker w)) as [[r b]|] eqn:Ht; [|done].
  apply take_reading_Some in Ht as ((p & Hp & <-) & Hn' & Hc' & Hi' & Hr').
  set (w' := {| broker := give_answer _ _ _ |}). pose proof (Hr _ Hp) as Hmade.
  assert (Hgiven : ∀ r', answers_to r' (given w ++ [(p.2, accept)]) =
    answers_to r' (given w) ++ (if bool_decide (p.2 = r') then [accept] else [])).
  { intros r'. rewrite answers_to_app. f_equal. unfold answers_to. rewrite filter_cons, filter_nil.
    simpl. by repeat case_decide || case_bool_decide. }
  assert (Hsame : ∀ v, in_flight b = Some v →
    Nat.eqb (request_no p.2) (request_no (asked v)) = bool_decide (p.2 = asked v)).
  { intros v Hv. rewrite Hi' in Hv. destruct (Hi _ Hv) as [Hm _]. case_bool_decide as Heq.
    - rewrite Heq. apply Nat.eqb_refl.
    - apply Nat.eqb_neq. intros Hno. by apply Heq, (made_inj w). }
  assert (Hb : next_request (broker w') = next_request b ∧ channels (broker w') = channels b ∧
    reading (broker w') = reading b).
  { unfold w'. simpl. unfold give_answer. destruct (in_flight b); [|done]. by destruct (Nat.eqb _ _). }
  destruct Hb as (E1 & E2 & E3). split; rewrite ?E1, ?E2, ?E3; simpl.
  - by rewrite Hn'.
  - rewrite Hc'. done.
  - intros q Hq. by apply Hr, Hr'.
  - intros g [?|Hin]%elem_of_app; [by apply Hg|]. by apply list_elem_of_singleton in Hin as ->.
  - unfold give_answer. destruct (in_flight b) as [v|] eqn:Hv; [|by rewrite Hv].
    rewrite (Hsame v eq_refl). destruct (Hi v (eq_sym Hi')) as [Hm Ha].
    case_bool_decide as Heq; simpl.
    + intros v' [= <-]. simpl. split; [done|]. by rewrite Hgiven, bool_decide_true, Ha.
    + rewrite Hv. intros v' [= <-]. split; [done|]. by rewrite Hgiven, bool_decide_false, app_nil_r.
  - intros r' Hin. destruct (Hy _ Hin) as [rest Hrest]. rewrite Hgiven, Hrest. by eexists.
Qed.

Lemma honest_poll timed_out w : Honest w → Honest (world_step w (Poll timed_out)).
Proof.
  intros Hw. pose proof Hw as [Hn Hc Hr Hg Hi Hy]. simpl.
  destruct (poll timed_out (broker w)) as [[r verdict]|] eqn:Hp; [|done].
  split; simpl; try done. intros r' [Hin|Hin]%elem_of_app; [by apply Hy|].
  apply list_elem_of_singleton in Hin. injection Hin as -> <-.
  unfold poll in Hp. apply bind_Some in Hp as (v & Hv & Hp). destruct (Hi v Hv) as [_ Ha].
  destruct (to_send v); [|done]. destruct (Nat.eqb (delivered v) 0); [done|].
  destruct (answers_in v) as [|answer rest] eqn:Hans.
  - by destruct (negb _ || _).
  - injection Hp as <- ->. exists rest. by rewrite <- Ha.
Qed.

Lemma honest_step w e : Honest w → Honest (world_step w e).
Proof.
  intros Hw. pose proof Hw as [Hn Hc Hr Hg Hi Hy].
  destruct e as [|id|id|device name code| |id|id accept|id|timed_out|].
  - apply honest_with_broker; simpl; try done.
    intros id r [[_ ?]|[_ ?]]%lookup_insert_Some; [done|by eapply Hc].
  - by apply honest_with_broker.
  - apply honest_with_broker; simpl; try done. intros id' r [_ ?]%lookup_delete_Some. by eapply Hc.
  - by apply honest_confirm.
  - by apply honest_send_one.
  - by apply honest_read.
  - by apply honest_answer.
  - by apply honest_drop_read.
  - by apply honest_poll.
  - by apply honest_with_broker.
Qed.

Lemma honest_run es : Honest (world_run es).
Proof.
  unfold world_run. assert (Hw : Honest world_new).
  { split; simpl; try done; try (by intros ? ?%not_elem_of_nil). }
  revert Hw. generalize world_new. induction es as [|e es IH]; intros w Hw; simpl; [done|].
  by apply IH, honest_step.
Qed.

(** A confirmation says yes only if the first answer any console gave to that
    very request was yes: not on silence, not on an answer that came after a no,
    and not on an answer somebody gave, however late, to an earlier request. *)
Theorem confirmed_only_by_first_yes es r :
  (r, true) ∈ verdicts (world_run es) →
  ∃ rest, answers_to r (given (world_run es)) = true :: rest.
Proof. apply honest_run. Qed.

(** ** Every confirmation ends *)

(** Nobody holds the request any more, read or unread. *)
Definition out_of_hands (r : PairRequest) (b : PairConfirm) : Prop :=
  (∀ id, channels b !! id ≠ Some (Some r)) ∧ ∀ p, p ∈ reading b → p.2 ≠ r.

(** A request that nobody took is in nobody's hands and has no answer. *)
Definition Handed (w : World) : Prop :=
  ∀ v, in_flight (broker w) = Some v → delivered v = 0%nat →
    out_of_hands (asked v) (broker w) ∧ answers_in v = [].

Lemma handed_same w w' :
  Handed w → in_flight (broker w') = in_flight (broker w) →
  (∀ id r, channels (broker w') !! id = Some (Some r) → ∃ id', channels (broker w) !! id' = Some (Some r)) →
  (∀ p, p ∈ reading (broker w') → (∃ q, q ∈ reading (broker w) ∧ q.2 = p.2) ∨
    ∃ id', channels (broker w) !! id' = Some (Some p.2)) → Handed w'.
Proof.
  intros Hw Hi Hc Hr v. rewrite Hi. intros Hv Hd. destruct (Hw v Hv Hd) as [[Hc0 Hr0] Ha].
  split; [split|done].
  - intros id Hid. destruct (Hc _ _ Hid) as [id' Hid']. by apply (Hc0 id').
  - intros p Hp Heq. destruct (Hr p Hp) as [(q & Hq & E)|[id' Hid']].
    + apply (Hr0 q Hq). by rewrite E.
    + apply (Hc0 id'). by rewrite <- Heq.
Qed.

Lemma handed_send_one w : Handed w → Handed (with_broker w (send_one (broker w))).
Proof.
  intros Hw. unfold send_one. destruct (in_flight (broker w)) as [v|] eqn:Hv; [|by apply (handed_same w); eauto].
  destruct (to_send v) as [|id rest]; [by apply (handed_same w); eauto|].
  intros v'. simpl. intros [= <-]. simpl. case_bool_decide as Hid; [done|]. intros Hd. by apply (Hw v).
Qed.

Lemma handed_confirm device name code w :
  Honest w → Handed w → Handed (world_step w (Confirm device name code)).
Proof.
  intros [Hn Hc Hr Hg Hi Hy] Hw. simpl. unfold confirm_begin. cbn [in_flight consoles].
  set (r := {| request_no := next_request (broker w) |}).
  assert (Hfresh : ∀ r', made w r' → r' ≠ r).
  { intros r' Hm ->. apply lookup_lt_Some in Hm. simpl in Hm. lia. }
  destruct (in_flight (broker w)) as [v|] eqn:Hv; [|case_bool_decide].
  1,2: by apply (handed_same w); simpl; eauto.
  intros v' [= <-] _. simpl. split; [split|done].
  - intros id Hid. by apply (Hfresh r); [by eapply Hc|].
  - intros p Hp. apply Hfresh. by apply Hr.
Qed.

Lemma handed_step w e : Honest w → Handed w → Handed (world_step w e).
Proof.
  intros Hh Hw. destruct e as [|id|id|device name code| |id|id accept|id|timed_out|]; simpl.
  - apply (handed_same w); simpl; eauto. intros id r [[_ ?]|[_ ?]]%lookup_insert_Some; [done|eauto].
  - apply (handed_same w); simpl; eauto.
  - apply (handed_same w); simpl; eauto. intros id' r [_ ?]%lookup_delete_Some. eauto.
  - by apply handed_confirm.
  - by apply handed_send_one.
  - unfold read_request. destruct (channels (broker w) !! id) as [[r|]|] eqn:Hid; [|by apply (handed_same w); eauto..].
    apply (handed_same w); simpl; eauto.
    + intros id' r' [[_ ?]|[_ ?]]%lookup_insert_Some; [done|eauto].
    + intros p [Hp|Hp]%elem_of_app; [eauto|]. apply list_elem_of_singleton in Hp as ->. eauto.
  - destruct (take_reading id (broker w)) as [[r b]|] eqn:Ht; [|done].
    apply take_reading_Some in Ht as ((p & Hp & Hpr) & _ & Hc & Hi & Hr).
    unfold give_answer. destruct (in_flight b) as [v|] eqn:Hv.
    + destruct (Nat.eqb _ _) eqn:Hno.
      * intros v' [= <-]. simpl. intros Hd. exfalso.
        destruct (Hw v (eq_sym Hi) Hd) as [[_ Hr0] _].
        apply (Hr0 p Hp). rewrite Hpr. apply Nat.eqb_eq in Hno.
        apply (made_inj w); [subst r; by apply (honest_reading w)|by apply (honest_waiting w)|done].
      * apply (handed_same w); simpl; rewrite ?Hv; eauto. intros id' r'. rewrite Hc. eauto.
    + apply (handed_same w); simpl; rewrite ?Hv; eauto. intros id' r'. rewrite Hc. eauto.
  - destruct (take_reading id (broker w)) as [[r b]|] eqn:Ht; [|done].
    apply take_reading_Some in Ht as (_ & _ & Hc & Hi & Hr).
    apply (handed_same w); simpl; eauto. intros id' r'. rewrite Hc. eauto.
  - destruct (poll _ _); [|done]. by intros v'.
  - by intros v'.
Qed.

Lemma handed_run es : Handed (world_run es).
Proof.
  induction es as [|e es IH] using rev_ind; [done|].
  unfold world_run. rewrite foldl_app. simpl. apply handed_step; [apply honest_run|exact IH].
Qed.

(** What the others do while a confirmation waits: the consoles, the confirmations
    turned away, and the sends of this one. *)
Definition meanwhile (e : Event) : bool := match e with Poll _ | Abandon => false | _ => true end.
Definition is_send (e : Event) : bool := match e with SendOne => true | _ => false end.
Definition sends (es : list Event) : nat := length (List.filter is_send es).

Lemma meanwhile_step w e v :
  in_flight (broker w) = Some v → meanwhile e = true →
  ∃ v', in_flight (broker (world_step w e)) = Some v' ∧ asked v' = asked v ∧
    (length (to_send v') ≤ length (to_send v) - sends [e])%nat.
Proof.
  intros Hv He. unfold sends.
  destruct e as [|id|id|device name code| |id|id accept|id|timed_out|]; try done; simpl.
  all: try (exists v; split; [done|split; [done|lia]]).
  - unfold confirm_begin. simpl. rewrite Hv. simpl. exists v. split; [done|split; [done|lia]].
  - unfold send_one. rewrite Hv. destruct (to_send v) as [|id rest] eqn:Ht; simpl.
    + exists v. rewrite Ht. split; [done|split; [done|simpl; lia]].
    + eexists. split; [done|]. simpl. split; [done|lia].
  - exists v. split; [|split; [done|lia]]. unfold read_request. by destruct (channels (broker w) !! id) as [[?|]|].
  - destruct (take_reading id (broker w)) as [[r b]|] eqn:Ht; [|exists v; split; [done|split; [done|lia]]].
    apply take_reading_Some in Ht as (_ & _ & _ & Hi & _). simpl. unfold give_answer. rewrite Hi, Hv.
    destruct (Nat.eqb _ _); simpl; eexists; (split; [first [done|by rewrite Hi]|]); simpl; (split; [done|lia]).
  - exists v. split; [|split; [done|lia]]. destruct (take_reading id (broker w)) as [[r b]|] eqn:Ht; [|done].
    apply take_reading_Some in Ht as (_ & _ & _ & Hi & _). simpl. by rewrite Hi.
Qed.

Lemma meanwhile_run es w v :
  in_flight (broker w) = Some v → Forall (λ e, meanwhile e = true) es → (length (to_send v) ≤ sends es)%nat →
  ∃ v', in_flight (broker (foldl world_step w es)) = Some v' ∧ asked v' = asked v ∧ to_send v' = [].
Proof.
  revert w v. induction es as [|e es IH]; intros w v Hv Hes Hlen; simpl.
  - exists v. unfold sends in Hlen. simpl in Hlen. destruct (to_send v) eqn:Ht; simpl in Hlen; [done|lia].
  - apply Forall_cons in Hes as [He Hes].
    destruct (meanwhile_step w e v Hv He) as (v1 & Hv1 & Ha1 & Hl1).
    assert (Hs : sends (e :: es) = (sends [e] + sends es)%nat).
    { unfold sends. rewrite <- length_app, <- List.filter_app. done. }
    destruct (IH _ v1 Hv1 Hes) as (v' & Hv' & Ha & Ht); [lia|]. exists v'. by rewrite Ha, Ha1.
Qed.

(** Nobody can answer exactly when nobody holds the request. *)
Lemma answerable_spec w r :
  Honest w → made w r → answerable (request_no r) (broker w) = false ↔ out_of_hands r (broker w).
Proof.
  intros Hh Hm. unfold answerable, out_of_hands, is_request. rewrite orb_false_iff, <- !not_true_iff_false, !existsb_exists.
  split.
  - intros [Hc Hr]. split.
    + intros id Hid. apply Hc. exists (id, Some r). rewrite <- list_elem_of_In, elem_of_map_to_list.
      split; [done|]. apply Nat.eqb_refl.
    + intros p Hp Heq. apply Hr. exists p. rewrite <- list_elem_of_In. split; [done|]. rewrite Heq. apply Nat.eqb_refl.
  - intros [Hc Hr]. split.
    + intros ([id [r'|]] & Hin & Hno); [|done]. simpl in Hno. rewrite <- list_elem_of_In, elem_of_map_to_list in Hin.
      apply Nat.eqb_eq in Hno. pose proof (honest_channels w Hh id r' Hin) as Hm'.
      rewrite (made_inj w r' r Hm' Hm Hno) in Hin. by apply (Hc id).
    + intros (p & Hin & Hno). rewrite <- list_elem_of_In in Hin. apply Nat.eqb_eq in Hno.
      apply (Hr p Hin). apply (made_inj w); [by apply (honest_reading w)|done|done].
Qed.

(** C13 (termination). No confirmation hangs, whatever the consoles do and however many of them
    there are. Once the request is handed out, which takes one step per console
    attached when it was made, the deadline ends it, and before the deadline an answer
    does or the loss of everybody who held the request; until one of these it waits.
    The verdict is the first answer given to this request, and no if there is none. *)
Theorem confirmation_comes_to_a_verdict es es' v :
  let w := world_run (es ++ es') in
  let answers := answers_to (asked v) (given w) in
  in_flight (broker (world_run es)) = Some v →
  Forall (λ e, meanwhile e = true) es' → (length (to_send v) ≤ sends es')%nat →
  ∀ timed_out,
    (timed_out = true ∨ answers ≠ [] ∨ out_of_hands (asked v) (broker w) →
       in_flight (broker (world_step w (Poll timed_out))) = None ∧
       verdicts (world_step w (Poll timed_out)) =
         verdicts w ++ [(asked v, match answers with answer :: _ => answer | [] => false end)]) ∧
    (timed_out = false → answers = [] → ¬ out_of_hands (asked v) (broker w) →
       world_step w (Poll timed_out) = w).
Proof.
  intros w answers Hv Hes Hlen timed_out.
  pose proof (honest_run (es ++ es')) as Hh. pose proof (handed_run (es ++ es')) as Hd.
  destruct (meanwhile_run es' _ v Hv Hes Hlen) as (v' & Hv' & Ha & Ht).
  unfold world_run in Hv'. rewrite <- foldl_app in Hv'. fold (world_run (es ++ es')) in Hv'.
  fold w in Hv', Hh, Hd.
  destruct (honest_waiting w Hh v' Hv') as [Hm Hans]. rewrite Ha in *. fold answers in Hans.
  pose proof (answerable_spec w (asked v) Hh Hm) as Hspec. specialize (Hd v' Hv').
  simpl. unfold poll. rewrite Hv'. simpl. rewrite Ht, Ha, Hans in *. split.
  - intros Hwhy. destruct (Nat.eqb_spec (delivered v') 0) as [H0|H0]; simpl.
    + destruct (Hd H0) as [_ ->]. done.
    + destruct answers as [|answer rest]; [|done].
      assert (Hor : negb (answerable (request_no (asked v)) (broker w)) || timed_out = true).
      { destruct Hwhy as [->|[?|Hout]]; [apply orb_true_r|done|]. by rewrite (proj2 Hspec Hout). }
      by rewrite Hor.
  - intros -> Hnone Hout. destruct (Nat.eqb_spec (delivered v') 0) as [H0|H0]; simpl.
    + by destruct (Hd H0).
    + rewrite Hnone. destruct (answerable _ _) eqn:E; [done|]. by destruct Hout; apply Hspec.
Qed.

(** ** Two runs in full *)
Module ConfirmExamples.

#[local] Transparent gmap_empty.

Definition ask (name : string) : Event := Confirm [] name (str_chars "123456").
Definition request (n : nat) (name : string) : PairRequest :=
  {| request_no := n; pr_device_id := []; pr_display_name := name; pr_code := str_chars "123456" |}.

(** The console reads the request of one phone, the confirmation times out, the next
    phone's request goes to a second console, and then the first one says yes to
    what it read: the second phone is refused by the second console's no. *)
Definition late_yes : list Event :=
  [Attach; ask "old phone"; SendOne; Read 0; Poll true; Attach; ask "new phone"; SendOne; SendOne;
   Read 1; Answer 0 true; Answer 1 false; Poll false].

Example late_yes_is_lost :
  verdicts (world_run late_yes) = [(request 0 "old phone", false); (request 1 "new phone", false)] ∧
  given (world_run late_yes) = [(request 0 "old phone", true); (request 1 "new phone", false)].
Proof. split; by_vm. Qed.

Definition pairing : list Event := [Attach; Attach; ask "phone"; SendOne; SendOne; Read 1; Answer 1 true; Poll false].

Lemma confirmed_witness :
  (request 0 "phone", true) ∈ verdicts (world_run pairing) ∧
  ∃ rest, answers_to (request 0 "phone") (given (world_run pairing)) = true :: rest.
Proof.
  assert (Hin : (request 0 "phone", true) ∈ verdicts (world_run pairing)).
  { apply (bool_decide_unpack _). vm_compute. exact I. }
  split; [exact Hin|]. apply (confirmed_only_by_first_yes pairing). exact Hin.
Defined.

(** A request with two consoles; one hangs up before it is handed anything, the other
    drops what it read without an answer. *)
Definition asked_two : list Event := [Attach; Attach; ask "phone"].
Definition both_lost : list Event := [HangUp 0; SendOne; ask "other phone"; SendOne; Read 1; DropRead 1].

Lemma verdict_witness :
  verdicts (world_step (world_run (asked_two ++ both_lost)) (Poll false)) =
    [(request 1 "other phone", false); (request 0 "phone", false)].
Proof.
  destruct (confirmation_comes_to_a_verdict asked_two both_lost
    {| asked := request 0 "phone"; to_send := [0%nat; 1%nat]; delivered := 0; answers_in := [] |}
    ltac:(vm_compute; reflexivity) ltac:(repeat constructor) ltac:(vm_compute; lia) false) as [H _].
  destruct H as [_ ->].
  - right. right. apply (answerable_spec _ (request 0 "phone")); [apply honest_run|vm_compute; reflexivity|vm_compute; reflexivity].
  - vm_compute. reflexivity.
Defined.
End ConfirmExamples.
