(* ===== verification/Admission.v ===== *)
(** * Admission: from a dial to an acknowledged phone

    [accept_loop] of [crates/host/src/iroh_serve.rs] with its two pools of
    capacity, the per-source gate in front of them, and the order in which a
    connection is finalised: a serving slot, a human's word, the enrollment
    claim, the durable commit, and only then the acknowledgement. Every
    connection is a task; the system is the shared state with all tasks, and a
    step runs one of them from one point where it waits to the next. The pairing
    state is that of [Pairing], the human's word comes through [PairConfirm]. *)

From S2P Require Import Prelude Pairing Handshake PairConfirm.
Import Secret Enrollment.

(** ** Capacity *)
Definition MAX_ACTIVE_CONNECTIONS : Z := 8.
Definition MAX_STAGING_CONNECTIONS : Z := 24.
Definition MAX_STAGING_PER_SOURCE : nat := 2.
Definition STAGING_RESERVE_FOR_KNOWN_PEERS : Z := 4.

(** Where a dial comes from, as far as is known before any handshake; the strings
    are what [Display] and [Debug] print. *)
Inductive IncomingAddr :=
| Addr_Ip (ip : string)
| Addr_Relay (endpoint_id : bytes) (shown : string)
| Addr_Other (shown : string).

Definition staging_source_key (addr : IncomingAddr) : string :=
  match addr with
  | Addr_Ip ip => String.append "ip:" ip
  | Addr_Relay _ shown => String.append "node:" shown
  | Addr_Other shown => String.append "other:" shown
  end.

(** The gate: how many staged handshakes each source holds. *)
Abbreviation StagingGate := (gmap string nat).

Definition try_enter (key : string) (max : nat) (in_flight : StagingGate) : option StagingGate :=
  let count := default 0%nat (in_flight !! key) in
  if Nat.leb max count then None else Some (<[key := S count]> in_flight).

(** What a refused dial leaves in the map: its entry, unless that is zero. *)
Definition try_enter_refused (key : string) (in_flight : StagingGate) : StagingGate :=
  let count := default 0%nat (in_flight !! key) in
  if Nat.eqb count 0 then delete key in_flight else <[key := count]> in_flight.

(** Dropping a slot. *)
Definition leave (key : string) (in_flight : StagingGate) : StagingGate :=
  match in_flight !! key with
  | Some count => if Nat.eqb (count - 1) 0 then delete key in_flight else <[key := (count - 1)%nat]> in_flight
  | None => in_flight
  end.

(** ** Connections *)

(** What the host's handshake reports. *)
Record HandshakeOutcome := {
  peer_device_id : DeviceId;
  peer_display_name : string;
  verification_code : chars;
  resumed : bool;
  previous_token : bool;
  enrollment_epoch : option Z;
}.

(** A connection in staging holds its source's slot and a permit of one of the
    two staging pools; from [Graduated] on it holds a serving permit instead. *)
Inductive Phase :=
| Handshaking
| Proved (o : HandshakeOutcome)
| LastWords                                  (* a refusal of the handshake, in staging *)
| Graduated (o : HandshakeOutcome)
| AwaitingHuman (o : HandshakeOutcome) (r : PairRequest)
| Claiming (o : HandshakeOutcome)
| Committing (o : HandshakeOutcome)
| Acknowledging (o : HandshakeOutcome)
| Connected (o : HandshakeOutcome)
| Refusing (reason : string).                (* a refusal after the proof *)

Record Connection := {
  source : string;
  from_reserve : bool;
  looks_known : bool;
  authed_device : DeviceId;
  phase : Phase;
}.

Definition in_staging (p : Phase) : bool :=
  match p with Handshaking | Proved _ | LastWords => true | _ => false end.

(** What a connection went through. *)
Inductive Milestone :=
| GotServingSlot
| HumanConfirmed (r : PairRequest)
| EnrollmentClaimed (epoch : Z)
| TokenCommitted
| Acknowledged (device : DeviceId).

#[global] Instance Milestone_eq_dec : EqDecision Milestone.
Proof. solve_decision. Defined.

Record Host := {
  gate : StagingGate;
  staging_sem : Z;
  known_staging_sem : Z;
  conn_sem : Z;
  connections : gmap nat Connection;
  pairing_ops : list PairOp;        (* what was done to the pairing state, in order *)
  world : World;                    (* the confirmation broker *)
  log : list (nat * Milestone);
  numbered : nat;                   (* connections so far *)
}.

Definition host_new : Host :=
  {| gate := ∅; staging_sem := MAX_STAGING_CONNECTIONS;
     known_staging_sem := STAGING_RESERVE_FOR_KNOWN_PEERS; conn_sem := MAX_ACTIVE_CONNECTIONS;
     connections := ∅; pairing_ops := []; world := world_new; log := []; numbered := 0 |}.

(** [closed_pairing_guard]: a host starts with no credential and no window; and
    the pairing state after what was done to it. *)
Definition closed_pairing : PairingState := pairing_new [].
Definition pairing (h : Host) : PairingState := (run_ops (pairing_ops h) closed_pairing).2.
Definition pairing_events (h : Host) : list PairEvent := (run_ops (pairing_ops h) closed_pairing).1.

Section admission.
(** The public-key check and hash behind a device id. *)
Context (device_id_from_node_id : bytes → option DeviceId).

Definition dial_claims_known_peer (addr : IncomingAddr) (known : list DeviceId) : bool :=
  match addr with
  | Addr_Relay endpoint_id _ =>
      match device_id_from_node_id endpoint_id with
      | Some device => bool_decide (device ∈ known)
      | None => false
      end
  | _ => false
  end.

(** ** Steps *)
Inductive HostEvent :=
| Dial (addr : IncomingAddr) (known : list DeviceId)
| HandshakeFailed (id : nat) (sent_refusal : bool)
| HandshakeDone (id : nat) (authed : DeviceId) (o : HandshakeOutcome)
| Graduate (id : nat)
| AskHuman (id : nat)
| HearHuman (id : nat) (timed_out : bool)
| Claim (id : nat) (now : Z)
| Commit (id : nat) (ok : bool)
| Acknowledge (id : nat) (ok : bool)
| Close (id : nat)                    (* a task ends, wherever it is *)
| Console (e : PairConfirm.Event)     (* consoles, and the sends of a confirmation *)
| GateFirstPair (t1 t2 : Z) (snap : option Z)    (* a handshake passes the window *)
| Reopen (now : Z) (secrets : list PairingSecret).   (* [portty pair] *)

Definition set_conns (h : Host) (c : gmap nat Connection) : Host :=
  {| gate := gate h; staging_sem := staging_sem h; known_staging_sem := known_staging_sem h;
     conn_sem := conn_sem h; connections := c; pairing_ops := pairing_ops h; world := world h;
     log := log h; numbered := numbered h |}.

Definition set_world (h : Host) (w : World) : Host :=
  {| gate := gate h; staging_sem := staging_sem h; known_staging_sem := known_staging_sem h;
     conn_sem := conn_sem h; connections := connections h; pairing_ops := pairing_ops h; world := w;
     log := log h; numbered := numbered h |}.

Definition do_pairing (h : Host) (op : PairOp) : Host :=
  {| gate := gate h; staging_sem := staging_sem h; known_staging_sem := known_staging_sem h;
     conn_sem := conn_sem h; connections := connections h; pairing_ops := pairing_ops h ++ [op];
     world := world h; log := log h; numbered := numbered h |}.

Definition with_phase (c : Connection) (p : Phase) : Connection :=
  {| source := source c; from_reserve := from_reserve c; looks_known := looks_known c;
     authed_device := authed_device c; phase := p |}.

Definition go (h : Host) (id : nat) (c : Connection) (p : Phase) : Host :=
  set_conns h (<[id := with_phase c p]> (connections h)).

Definition reach (h : Host) (id : nat) (m : Milestone) : Host :=
  {| gate := gate h; staging_sem := staging_sem h; known_staging_sem := known_staging_sem h;
     conn_sem := conn_sem h; connections := connections h; pairing_ops := pairing_ops h;
     world := world h; log := log h ++ [(id, m)]; numbered := numbered h |}.

(** Staging capacity goes back; so does a serving permit. *)
Definition release_staging (h : Host) (c : Connection) : Host :=
  {| gate := leave (source c) (gate h);
     staging_sem := if from_reserve c then staging_sem h else staging_sem h + 1;
     known_staging_sem := if from_reserve c then known_staging_sem h + 1 else known_staging_sem h;
     conn_sem := conn_sem h; connections := connections h; pairing_ops := pairing_ops h;
     world := world h; log := log h; numbered := numbered h |}.

Definition add_serving (h : Host) (n : Z) : Host :=
  {| gate := gate h; staging_sem := staging_sem h; known_staging_sem := known_staging_sem h;
     conn_sem := conn_sem h + n; connections := connections h; pairing_ops := pairing_ops h;
     world := world h; log := log h; numbered := numbered h |}.

(** A task ends: everything it holds is dropped. *)
Definition finish (h : Host) (id : nat) (c : Connection) : Host :=
  let h := match phase c with
           | AwaitingHuman _ r =>
               match in_flight (broker (world h)) with
               | Some w => if bool_decide (asked w = r) then set_world h (world_step (world h) Abandon) else h
               | None => h
               end
           | _ => h
           end in
  let h := if in_staging (phase c) then release_staging h c else add_serving h 1 in
  set_conns h (delete id (connections h)).

(** A dial: the gate, the general pool, the reserve. *)
Definition dial (h : Host) (addr : IncomingAddr) (known : list DeviceId) : Host :=
  let key := staging_source_key addr in
  match try_enter key MAX_STAGING_PER_SOURCE (gate h) with
  | None =>
      {| gate := try_enter_refused key (gate h); staging_sem := staging_sem h;
         known_staging_sem := known_staging_sem h; conn_sem := conn_sem h;
         connections := connections h; pairing_ops := pairing_ops h; world := world h; log := log h;
         numbered := numbered h |}
  | Some g =>
      let looks_known := dial_claims_known_peer addr known in
      let stage (reserve : bool) :=
        {| gate := g;
           staging_sem := if reserve then staging_sem h else staging_sem h - 1;
           known_staging_sem := if reserve then known_staging_sem h - 1 else known_staging_sem h;
           conn_sem := conn_sem h;
           connections := <[numbered h := {| source := key; from_reserve := reserve;
                              looks_known := looks_known; authed_device := []; phase := Handshaking |}]>
                            (connections h);
           pairing_ops := pairing_ops h; world := world h; log := log h;
           numbered := S (numbered h) |} in
      if 0 <? staging_sem h then stage false
      else if (0 <? known_staging_sem h) && looks_known then stage true
      else
        {| gate := leave key g; staging_sem := staging_sem h; known_staging_sem := known_staging_sem h;
           conn_sem := conn_sem h; connections := connections h; pairing_ops := pairing_ops h;
           world := world h; log := log h; numbered := numbered h |}
  end.

Definition handshake_done (h : Host) (id : nat) (c : Connection) (authed : DeviceId)
    (o : HandshakeOutcome) : Host :=
  let c := {| source := source c; from_reserve := from_reserve c; looks_known := looks_known c;
              authed_device := authed; phase := phase c |} in
  if bool_decide (peer_device_id o = authed) then go h id c (Proved o) else finish h id c.

(** Step 1: a serving slot, and the staging capacity goes back. *)
Definition graduate (h : Host) (id : nat) (c : Connection) (o : HandshakeOutcome) : Host :=
  if conn_sem h <=? 0 then finish h id c
  else go (reach (add_serving (release_staging h c) (-1)) id GotServingSlot) id c (Graduated o).

(** Step 2: a human's word, on a first pair only. *)
Definition ask_human (h : Host) (id : nat) (c : Connection) (o : HandshakeOutcome) : Host :=
  if resumed o then go h id c (Claiming o)
  else
    let e := Confirm (peer_device_id o) (peer_display_name o) (verification_code o) in
    let '(_, r, v) := confirm_begin (peer_device_id o) (peer_display_name o) (verification_code o)
                        (broker (world h)) in
    go (set_world h (world_step (world h) e)) id c
      (match v with Some _ => Refusing "Cancelled" | None => AwaitingHuman o r end).

Definition hear_human (h : Host) (id : nat) (c : Connection) (o : HandshakeOutcome) (r : PairRequest)
    (timed_out : bool) : Host :=
  match poll timed_out (broker (world h)) with
  | Some (r', verdict) =>
      if bool_decide (r' = r) then
        let h := set_world h (world_step (world h) (Poll timed_out)) in
        if verdict then go (reach h id (HumanConfirmed r)) id c (Claiming o)
        else go h id c (Refusing "Cancelled")
      else h
  | None => h
  end.

(** Step 3: the enrollment opportunity of a first pair. *)
Definition claim (h : Host) (id : nat) (c : Connection) (o : HandshakeOutcome) (now : Z) : Host :=
  match enrollment_epoch o with
  | None => go h id c (Committing o)
  | Some e =>
      let '(claimed, _) := consume_first_pair now e (pairing h) in
      let h := do_pairing h (OpConsume now e) in
      if claimed then go (reach h id (EnrollmentClaimed e)) id c (Committing o)
      else go h id c (Refusing "PairingClosed")
  end.

(** Step 4: the commit. Step 5: the acknowledgement. *)
Definition commit (h : Host) (id : nat) (c : Connection) (o : HandshakeOutcome) (ok : bool) : Host :=
  if ok then go (reach h id TokenCommitted) id c (Acknowledging o) else finish h id c.

Definition acknowledge (h : Host) (id : nat) (c : Connection) (o : HandshakeOutcome) (ok : bool) : Host :=
  if ok then go (reach h id (Acknowledged (peer_device_id o))) id c (Connected o) else finish h id c.

(** What the consoles and the sends of a confirmation may do to the broker. *)
Definition console_event (e : PairConfirm.Event) : bool :=
  match e with Confirm _ _ _ | Poll _ | Abandon => false | _ => true end.

Definition on (h : Host) (id : nat) (f : Connection → Host) : Host :=
  match connections h !! id with Some c => f c | None => h end.

Definition host_step (h : Host) (e : HostEvent) : Host :=
  match e with
  | Dial addr known => dial h addr known
  | HandshakeFailed id sent_refusal =>
      on h id (λ c, match phase c with
                    | Handshaking => if sent_refusal then go h id c LastWords else finish h id c
                    | _ => h
                    end)
  | HandshakeDone id authed o =>
      on h id (λ c, match phase c with Handshaking => handshake_done h id c authed o | _ => h end)
  | Graduate id => on h id (λ c, match phase c with Proved o => graduate h id c o | _ => h end)
  | AskHuman id => on h id (λ c, match phase c with Graduated o => ask_human h id c o | _ => h end)
  | HearHuman id timed_out =>
      on h id (λ c, match phase c with AwaitingHuman o r => hear_human h id c o r timed_out | _ => h end)
  | Claim id now => on h id (λ c, match phase c with Claiming o => claim h id c o now | _ => h end)
  | Commit id ok => on h id (λ c, match phase c with Committing o => commit h id c o ok | _ => h end)
  | Acknowledge id ok =>
      on h id (λ c, match phase c with Acknowledging o => acknowledge h id c o ok | _ => h end)
  | Close id => on h id (λ c, finish h id c)
  | Console e => if console_event e then set_world h (world_step (world h) e) else h
  | GateFirstPair t1 t2 snap => do_pairing h (OpGate t1 t2 snap)
  | Reopen now secrets => do_pairing h (OpRotate now secrets ENROLLMENT_WINDOW)
  end.

Definition host_run (es : list HostEvent) : Host := foldl host_step host_new es.
End admission.

(** ** Capacity is accounted for *)

Definition general (c : Connection) : bool := in_staging (phase c) && negb (from_reserve c).
Definition reserved (c : Connection) : bool := in_staging (phase c) && from_reserve c.
Definition serving (c : Connection) : bool := negb (in_staging (phase c)).
Definition staged_from (key : string) (c : Connection) : bool :=
  in_staging (phase c) && bool_decide (source c = key).

(** The gate counts the staged connections of each source. *)
Definition gate_ok (g : StagingGate) (conns : gmap nat Connection) : Prop :=
  ∀ key, Z.of_nat (default 0%nat (g !! key)) = count_where (staged_from key) conns ∧
    g !! key ≠ Some 0%nat ∧ (default 0 (g !! key) ≤ MAX_STAGING_PER_SOURCE)%nat.

Record Accounted (h : Host) : Prop := {
  acc_gate : gate_ok (gate h) (connections h);
  acc_general : staging_sem h + count_where general (connections h) = MAX_STAGING_CONNECTIONS;
  acc_reserve : known_staging_sem h + count_where reserved (connections h) = STAGING_RESERVE_FOR_KNOWN_PEERS;
  acc_serving : conn_sem h + count_where serving (connections h) = MAX_ACTIVE_CONNECTIONS;
  acc_free : 0 ≤ staging_sem h ∧ 0 ≤ known_staging_sem h ∧ 0 ≤ conn_sem h;
  acc_known : ∀ id c, connections h !! id = Some c → from_reserve c = true → looks_known c = true;
  acc_ids : ∀ id c, connections h !! id = Some c → (id < numbered h)%nat;
}.

Lemma counted_staged c :
  in_staging (phase c) = true →
  general c = negb (from_reserve c) ∧ reserved c = from_reserve c ∧ serving c = false.
Proof. intros Hp. unfold general, reserved, serving. by rewrite Hp. Qed.
Lemma counted_serving c :
  in_staging (phase c) = false → general c = false ∧ reserved c = false ∧ serving c = true.
Proof. intros Hp. unfold general, reserved, serving. by rewrite Hp. Qed.

(** Entering and leaving the gate. *)
Lemma leave_lookup key g k :
  g !! key ≠ Some 0%nat →
  default 0%nat (leave key g !! k) =
    (default 0%nat (g !! k) - (if bool_decide (key = k) then 1 else 0))%nat.
Proof.
  intros Hkey. unfold leave. case_bool_decide as Heq.
  - subst k. destruct (g !! key) as [n|] eqn:Hn; [|by rewrite Hn].
    destruct (Nat.eqb_spec (n - 1) 0); [rewrite lookup_delete_eq; simpl; lia|by rewrite lookup_insert_eq].
  - rewrite Nat.sub_0_r. destruct (g !! key) as [n|]; [|done].
    destruct (Nat.eqb _ _); by rewrite ?lookup_delete_ne, ?lookup_insert_ne by done.
Qed.

Lemma leave_nonzero key g k : g !! k ≠ Some 0%nat → leave key g !! k ≠ Some 0%nat.
Proof.
  intros Hk. unfold leave. destruct (g !! key) as [n|] eqn:Hn; [|done].
  destruct (decide (key = k)) as [->|Hne].
  - destruct (Nat.eqb_spec (n - 1) 0); [by rewrite lookup_delete_eq|]. rewrite lookup_insert_eq. congruence.
  - destruct (Nat.eqb _ _); by rewrite ?lookup_delete_ne, ?lookup_insert_ne by done.
Qed.

Lemma try_enter_Some key max g g' :
  try_enter key max g = Some g' →
  (default 0 (g !! key) < max)%nat ∧ g' = <[key := S (default 0%nat (g !! key))]> g.
Proof.
  unfold try_enter. destruct (Nat.leb_spec max (default 0%nat (g !! key))); [done|]. by intros [= <-].
Qed.

(** Giving a slot back undoes taking it. *)
Lemma leave_enter key max g g' :
  g !! key ≠ Some 0%nat → try_enter key max g = Some g' → leave key g' = g.
Proof.
  intros Hz [_ ->]%try_enter_Some. unfold leave. rewrite lookup_insert_eq. simpl. rewrite Nat.sub_0_r.
  destruct (g !! key) as [[|n]|] eqn:Hg; simpl; [done| |].
  - rewrite insert_insert_eq. by apply insert_id.
  - rewrite delete_insert_eq. by apply delete_id.
Qed.

Lemma try_enter_refused_id key g :
  g !! key ≠ Some 0%nat → try_enter_refused key g = g.
Proof.
  intros Hz. unfold try_enter_refused. destruct (g !! key) as [[|n]|] eqn:Hg; simpl; [done| |].
  - by apply insert_id.
  - by apply delete_id.
Qed.

(** A task that moves on without changing sides. *)
Lemma accounted_go h id c p c' :
  Accounted h → connections h !! id = Some c → in_staging p = in_staging (phase c) →
  source c' = source c → from_reserve c' = from_reserve c → looks_known c' = looks_known c →
  Accounted (go h id c' p).
Proof.
  intros [Hg H1 H2 H3 Hf Hk Hi] Hc Hp Hs Hr Hl.
  assert (Hcount : ∀ f, f (with_phase c' p) = f c →
    count_where f (<[id := with_phase c' p]> (connections h)) = count_where f (connections h)).
  { intros f Heq. rewrite (count_where_insert f _ _ _ _ Hc), Heq. lia. }
  assert (Hf1 : general (with_phase c' p) = general c) by (unfold general; simpl; by rewrite Hp, Hr).
  assert (Hf2 : reserved (with_phase c' p) = reserved c) by (unfold reserved; simpl; by rewrite Hp, Hr).
  assert (Hf3 : serving (with_phase c' p) = serving c) by (unfold serving; simpl; by rewrite Hp).
  split; simpl; rewrite ?Hcount by done; try done.
  - intros key. rewrite Hcount; [apply Hg|]. unfold staged_from. simpl. by rewrite Hp, Hs.
  - intros id' c0 [[<- <-]|[_ Hc0]]%lookup_insert_Some; [simpl; rewrite Hr, Hl; by eapply Hk|by eapply Hk].
  - intros id' c0 [[<- _]|[_ Hc0]]%lookup_insert_Some; by eapply Hi.
Qed.

(** Releasing the staging capacity of a connection that is taken off. *)
Lemma gate_ok_leave g conns id c conns' :
  gate_ok g conns → conns !! id = Some c → in_staging (phase c) = true →
  (∀ key, count_where (staged_from key) conns' =
     count_where (staged_from key) conns - Z.b2z (staged_from key c)) →
  gate_ok (leave (source c) g) conns'.
Proof.
  intros Hg Hc Hp Hcount key. destruct (Hg key) as (Heq & Hz & Hle). destruct (Hg (source c)) as (Heq' & Hz' & _).
  rewrite leave_lookup by done. rewrite Hcount. split; [|split; [by apply leave_nonzero|]].
  - pose proof (count_where_pos (staged_from (source c)) _ _ _ Hc) as Hpos. unfold staged_from in *.
    rewrite Hp, bool_decide_true in Hpos by done. specialize (Hpos eq_refl). rewrite Hp. simpl.
    case_bool_decide as Hk; simpl; [subst key; simpl in *; lia|lia].
  - etrans; [|exact Hle]. lia.
Qed.

Lemma accounted_finish_core h id c :
  Accounted h → connections h !! id = Some c →
  let h' := if in_staging (phase c) then release_staging h c else add_serving h 1 in
  Accounted (set_conns h' (delete id (connections h'))).
Proof.
  intros [Hg H1 H2 H3 Hf Hk Hi] Hc.
  assert (Hcount : ∀ f, count_where f (delete id (connections h)) = count_where f (connections h) - Z.b2z (f c)).
  { intros f. by apply count_where_delete. }
  destruct (in_staging (phase c)) eqn:Hp; cbv zeta.
  - destruct (counted_staged c Hp) as (E1 & E2 & E3).
    split; simpl; rewrite ?Hcount, ?E1, ?E2, ?E3.
    + eapply gate_ok_leave; [done|done|done|]. intros key. apply Hcount.
    + destruct (from_reserve c); simpl; lia.
    + destruct (from_reserve c); simpl; lia.
    + simpl; lia.
    + destruct (from_reserve c); lia.
    + intros id' c' [_ ?]%lookup_delete_Some. by eapply Hk.
    + intros id' c' [_ ?]%lookup_delete_Some. by eapply Hi.
  - destruct (counted_serving c Hp) as (E1 & E2 & E3).
    split; simpl; rewrite ?Hcount, ?E1, ?E2, ?E3; simpl; try lia.
    + intros key. rewrite Hcount. unfold staged_from. rewrite Hp. simpl. rewrite Z.sub_0_r. apply Hg.
    + intros id' c' [_ ?]%lookup_delete_Some. by eapply Hk.
    + intros id' c' [_ ?]%lookup_delete_Some. by eapply Hi.
Qed.

Lemma accounted_set_world h w : Accounted h → Accounted (set_world h w).
Proof. intros []. by split. Qed.
Lemma accounted_do_pairing h op : Accounted h → Accounted (do_pairing h op).
Proof. intros []. by split. Qed.
Lemma accounted_reach h id m : Accounted h → Accounted (reach h id m).
Proof. intros []. by split. Qed.
Hint Resolve accounted_set_world accounted_do_pairing accounted_reach : portty.

Lemma accounted_finish h id c : Accounted h → connections h !! id = Some c → Accounted (finish h id c).
Proof.
  intros Hh Hc. unfold finish. cbv zeta.
  assert (Hw : ∀ h0, Accounted h0 → connections h0 = connections h →
    Accounted (set_conns (if in_staging (phase c) then release_staging h0 c else add_serving h0 1)
      (delete id (connections (if in_staging (phase c) then release_staging h0 c else add_serving h0 1))))).
  { intros h0 H0 E. apply accounted_finish_core; [done|by rewrite E]. }
  destruct (phase c); try by apply Hw.
  destruct (in_flight _) as [w|]; [|by apply Hw]. case_bool_decide; [|by apply Hw].
  apply Hw; [by apply accounted_set_world|done].
Qed.

Lemma accounted_graduate h id c o :
  Accounted h → connections h !! id = Some c → phase c = Proved o → Accounted (graduate h id c o).
Proof.
  intros Hh Hc Hp. unfold graduate. destruct (conn_sem h <=? 0) eqn:Hfull; [by apply accounted_finish|].
  apply Z.leb_gt in Hfull. destruct Hh as [Hg H1 H2 H3 Hf Hk Hi].
  set (c' := with_phase c (Graduated o)).
  assert (Hcount : ∀ f, count_where f (<[id := c']> (connections h)) =
    count_where f (connections h) - Z.b2z (f c) + Z.b2z (f c')).
  { intros f. by apply count_where_insert. }
  assert (Hs : in_staging (phase c) = true) by by rewrite Hp.
  destruct (counted_staged c Hs) as (E1 & E2 & E3).
  destruct (counted_serving c' eq_refl) as (E1' & E2' & E3').
  split; simpl; fold c'; rewrite ?Hcount, ?E1, ?E2, ?E3, ?E1', ?E2', ?E3'; simpl.
  - eapply gate_ok_leave; [done|done|by rewrite Hp|]. intros key. rewrite Hcount. unfold staged_from at 3. simpl. lia.
  - destruct (from_reserve c); simpl; lia.
  - destruct (from_reserve c); simpl; lia.
  - lia.
  - destruct (from_reserve c); lia.
  - intros id' c0 [[<- <-]|[_ Hc0]]%lookup_insert_Some; [simpl; by eapply Hk|by eapply Hk].
  - intros id' c0 [[<- _]|[_ Hc0]]%lookup_insert_Some; by eapply Hi.
Qed.

(** A new task in staging. *)
Lemma accounted_stage h g key (reserve known : bool) :
  Accounted h → try_enter key MAX_STAGING_PER_SOURCE (gate h) = Some g →
  (if reserve then 0 < known_staging_sem h ∧ known = true else 0 < staging_sem h) →
  Accounted
    {| gate := g;
       staging_sem := if reserve then staging_sem h else staging_sem h - 1;
       known_staging_sem := if reserve then known_staging_sem h - 1 else known_staging_sem h;
       conn_sem := conn_sem h;
       connections := <[numbered h := {| source := key; from_reserve := reserve; looks_known := known;
                          authed_device := []; phase := Handshaking |}]> (connections h);
       pairing_ops := pairing_ops h; world := world h; log := log h; numbered := S (numbered h) |}.
Proof.
  intros [Hg H1 H2 H3 Hf Hk Hi] [Hlt ->]%try_enter_Some Hfree.
  set (c := {| source := key; from_reserve := reserve; looks_known := known; authed_device := [];
              phase := Handshaking |}).
  assert (Hnew : connections h !! numbered h = None).
  { destruct (connections h !! numbered h) eqn:Hc; [|done]. apply Hi in Hc. lia. }
  assert (Hcount : ∀ f, count_where f (<[numbered h := c]> (connections h)) =
    count_where f (connections h) + Z.b2z (f c)) by (intros f; by apply count_where_insert_new).
  destruct (counted_staged c eq_refl) as (E1 & E2 & E3).
  split; simpl; fold c; rewrite ?Hcount, ?E1, ?E2, ?E3; simpl.
  - intros k. destruct (Hg k) as (Heq & Hz & Hle). rewrite Hcount. unfold staged_from at 2. simpl.
    case_bool_decide as Hkey; simpl.
    + subst k. rewrite lookup_insert_eq. simpl. split; [lia|]. split; [congruence|lia].
    + rewrite lookup_insert_ne by done. rewrite Z.add_0_r. done.
  - destruct reserve; simpl; lia.
  - destruct reserve; simpl; lia.
  - lia.
  - destruct reserve; lia.
  - intros id c0 [[<- <-]|[_ Hc0]]%lookup_insert_Some; [|by eapply Hk].
    simpl. intros ->. by destruct Hfree.
  - intros id c0 [[<- _]|[_ Hc0]]%lookup_insert_Some; [lia|]. apply Hi in Hc0. lia.
Qed.

Section steps.
Context (device_id_from_node_id : bytes → option DeviceId).
Abbreviation step := (host_step device_id_from_node_id).
Abbreviation runs := (host_run device_id_from_node_id).

Lemma accounted_dial h addr known :
  Accounted h → Accounted (dial device_id_from_node_id h addr known).
Proof.
  intros Hh. unfold dial. set (key := staging_source_key addr).
  destruct (acc_gate h Hh key) as (_ & Hz & _).
  destruct (try_enter key MAX_STAGING_PER_SOURCE (gate h)) as [g|] eqn:Hg; cbv zeta.
  - destruct (0 <? staging_sem h) eqn:H0.
    { apply (accounted_stage h g key false); [done|done|]. by apply Z.ltb_lt. }
    destruct ((0 <? known_staging_sem h) && _) eqn:H1.
    + apply andb_true_iff in H1 as [H1%Z.ltb_lt H2].
      apply (accounted_stage h g key true); [done|done|]. by rewrite H2.
    + rewrite (leave_enter _ _ _ _ Hz Hg). by destruct Hh.
  - rewrite (try_enter_refused_id _ _ Hz). by destruct Hh.
Qed.

Lemma accounted_step h e : Accounted h → Accounted (step h e).
Proof.
  intros Hh. assert (Hon : ∀ id f, (∀ c, connections h !! id = Some c → Accounted (f c)) → Accounted (on h id f)).
  { intros id f Hf. unfold on. destruct (connections h !! id) eqn:Hc; [by apply Hf|done]. }
  destruct e; simpl.
  - by apply accounted_dial.
  - apply Hon. intros c Hc. destruct (phase c) eqn:Hp; try done. destruct sent_refusal; [|by apply accounted_finish].
    by eapply accounted_go; rewrite ?Hp.
  - apply Hon. intros c Hc. destruct (phase c) eqn:Hp; try done. unfold handshake_done.
    case_bool_decide; [by eapply accounted_go; rewrite ?Hp|].
    assert (E : ∀ a, finish h id {| source := source c; from_reserve := from_reserve c;
      looks_known := looks_known c; authed_device := a; phase := phase c |} = finish h id c).
    { intros a. unfold finish. simpl. by rewrite Hp. }
    rewrite E. by apply accounted_finish.
  - apply Hon. intros c Hc. destruct (phase c) eqn:Hp; try done. by apply accounted_graduate.
  - apply Hon. intros c Hc. destruct (phase c) eqn:Hp; try done. unfold ask_human.
    destruct (resumed o); [by eapply accounted_go; rewrite ?Hp|].
    destruct (confirm_begin _ _ _ _) as [[b r] v].
    eapply accounted_go; [by apply accounted_set_world|exact Hc|rewrite Hp; by destruct v|done..].
  - apply Hon. intros c Hc. destruct (phase c) eqn:Hp; try done. unfold hear_human.
    destruct (poll _ _) as [[r' verdict]|]; [|done]. case_bool_decide; [|done].
    destruct verdict; eapply accounted_go; eauto using accounted_set_world, accounted_reach; by rewrite Hp.
  - apply Hon. intros c Hc. destruct (phase c) eqn:Hp; try done. unfold claim.
    destruct (enrollment_epoch o) as [e|]; [|by eapply accounted_go; rewrite ?Hp].
    destruct (consume_first_pair _ _ _) as [claimed ?].
    destruct claimed; eapply accounted_go; eauto using accounted_do_pairing, accounted_reach; by rewrite Hp.
  - apply Hon. intros c Hc. destruct (phase c) eqn:Hp; try done. unfold commit.
    destruct ok; [|by apply accounted_finish].
    eapply accounted_go; eauto using accounted_reach; by rewrite Hp.
  - apply Hon. intros c Hc. destruct (phase c) eqn:Hp; try done. unfold acknowledge.
    destruct ok; [|by apply accounted_finish].
    eapply accounted_go; eauto using accounted_reach; by rewrite Hp.
  - apply Hon. intros c Hc. by apply accounted_finish.
  - destruct (console_event e); [by apply accounted_set_world|done].
  - by apply accounted_do_pairing.
  - by apply accounted_do_pairing.
Qed.

Lemma host_run_invariant (P : Host → Prop) es :
  P host_new → (∀ h e, P h → P (step h e)) → P (runs es).
Proof.
  intros H0 Hs. unfold host_run. revert H0. generalize host_new.
  induction es as [|e es IH]; intros h Hh; simpl; [done|]. by apply IH, Hs.
Qed.

Lemma accounted_run es : Accounted (runs es).
Proof.
  apply host_run_invariant; [|apply accounted_step]. split; simpl; try done.
  intros key. rewrite lookup_empty, count_where_empty. simpl. split; [done|]. split; [done|]. lia.
Qed.

(** Capacity never leaks and is never exceeded: however tasks interleave, fail
    or are dropped, at most 24 connections are staged in the general pool and 4 in
    the reserve, at most 2 of one source, at most 8 are past their handshake; every
    permit that is not held is free, and the gate knows exactly the sources that
    are staged. *)
Theorem capacity_is_accounted_for es :
  let h := host_run device_id_from_node_id es in
  staging_sem h = MAX_STAGING_CONNECTIONS - count_where general (connections h) ∧ 0 ≤ staging_sem h ∧
  known_staging_sem h = STAGING_RESERVE_FOR_KNOWN_PEERS - count_where reserved (connections h) ∧
  0 ≤ known_staging_sem h ∧
  conn_sem h = MAX_ACTIVE_CONNECTIONS - count_where serving (connections h) ∧ 0 ≤ conn_sem h ∧
  ∀ key, Z.of_nat (default 0%nat (gate h !! key)) = count_where (staged_from key) (connections h) ∧
    gate h !! key ≠ Some 0%nat ∧ (default 0 (gate h !! key) ≤ MAX_STAGING_PER_SOURCE)%nat.
Proof.
  intros h. destruct (accounted_run es) as [Hg H1 H2 H3 Hf _ _]. fold h in Hg, H1, H2, H3, Hf.
  split_and!; try lia. exact Hg.
Qed.

(** Connections in the reserve, or of a source, that look like a paired device. *)
Definition known_staged (c : Connection) : bool := in_staging (phase c) && looks_known c.

(** A flood of strangers cannot keep a paired phone out: whatever else is
    staged, a dial that looks like a paired device gets a place as long as its own
    source holds fewer than two and fewer than four such devices are being
    staged. *)
Theorem known_peers_get_in es addr known :
  let h := host_run device_id_from_node_id es in
  dial_claims_known_peer device_id_from_node_id addr known = true →
  count_where (staged_from (staging_source_key addr)) (connections h) < Z.of_nat MAX_STAGING_PER_SOURCE →
  count_where known_staged (connections h) < STAGING_RESERVE_FOR_KNOWN_PEERS →
  ∃ c, connections (step h (Dial addr known)) !! numbered h = Some c ∧ phase c = Handshaking ∧
    source c = staging_source_key addr.
Proof.
  intros h Hknown Hsource Hfew. destruct (accounted_run es) as [Hg H1 H2 H3 Hf Hk _]. fold h in Hg, H1, H2, H3, Hf, Hk.
  simpl. unfold dial. rewrite Hknown. destruct (Hg (staging_source_key addr)) as (Heq & _ & _).
  unfold try_enter. destruct (Nat.leb_spec MAX_STAGING_PER_SOURCE (default 0%nat (gate h !! staging_source_key addr))); [lia|].
  cbv zeta. destruct (0 <? staging_sem h); [eexists; simpl; rewrite lookup_insert_eq; by split|].
  assert (Hle : count_where reserved (connections h) ≤ count_where known_staged (connections h)).
  { unfold count_where. apply inj_le. apply map_subseteq_size. apply map_filter_strong_subseteq_ext.
    intros id c [Hr Hc]. split; [|done]. simpl in *. unfold reserved in Hr. apply andb_true_iff in Hr as [Hp Hr].
    unfold known_staged. rewrite Hp. by apply (Hk id c). }
  rewrite (proj2 (Z.ltb_lt 0 (known_staging_sem h))) by lia. simpl.
  eexists. rewrite lookup_insert_eq. by split.
Qed.

(** ** The order of finalisation *)

Definition milestones (id : nat) (h : Host) : list Milestone := snd <$> filter (λ e, e.1 = id) (log h).

Definition human_part (o : HandshakeOutcome) (r : PairRequest) : list Milestone :=
  if resumed o then [] else [HumanConfirmed r].
Definition claim_part (o : HandshakeOutcome) : list Milestone :=
  match enrollment_epoch o with Some e => [EnrollmentClaimed e] | None => [] end.

(** What a connection goes through on its way to the phone being told. *)
Definition script (o : HandshakeOutcome) (r : PairRequest) : list Milestone :=
  (GotServingSlot :: human_part o r ++ claim_part o) ++ [TokenCommitted; Acknowledged (peer_device_id o)].

(** The request a human was shown is about this phone and this exchange. *)
Definition asked_for (o : HandshakeOutcome) (r : PairRequest) : Prop :=
  pr_device_id r = peer_device_id o ∧ pr_display_name r = peer_display_name o ∧
  pr_code r = verification_code o.

Definition word_given (o : HandshakeOutcome) (r : PairRequest) (vs : list (PairRequest * bool)) : Prop :=
  resumed o = false → asked_for o r ∧ (r, true) ∈ vs.

(** How far a connection that ended had come; [R] is what its handshake reported. *)
Definition ended (R : HandshakeOutcome → Prop) (ms : list Milestone) (vs : list (PairRequest * bool)) : Prop :=
  ms `prefix_of` [GotServingSlot] ∨ ∃ o r, R o ∧ word_given o r vs ∧ ms `prefix_of` script o r.

Definition phase_ok (R : HandshakeOutcome → Prop) (ms : list Milestone) (vs : list (PairRequest * bool))
    (p : Phase) : Prop :=
  match p with
  | Handshaking | LastWords => ms = []
  | Proved o => R o ∧ ms = []
  | Graduated o => R o ∧ ms = [GotServingSlot]
  | AwaitingHuman o r => R o ∧ ms = [GotServingSlot] ∧ resumed o = false ∧ asked_for o r
  | Claiming o => R o ∧ ∃ r, word_given o r vs ∧ ms = GotServingSlot :: human_part o r
  | Committing o => R o ∧ ∃ r, word_given o r vs ∧ ms = GotServingSlot :: human_part o r ++ claim_part o
  | Acknowledging o =>
      R o ∧ ∃ r, word_given o r vs ∧ ms = (GotServingSlot :: human_part o r ++ claim_part o) ++ [TokenCommitted]
  | Connected o => R o ∧ ∃ r, word_given o r vs ∧ ms = script o r
  | Refusing _ => ended R ms vs
  end.

Lemma word_given_mono o r vs vs' : vs ⊆ vs' → word_given o r vs → word_given o r vs'.
Proof. intros Hvs Hw Hr. destruct (Hw Hr). split; [done|set_solver]. Qed.
Hint Resolve word_given_mono : portty.

Lemma ended_mono (R R' : HandshakeOutcome → Prop) ms vs vs' :
  (∀ o, R o → R' o) → vs ⊆ vs' → ended R ms vs → ended R' ms vs'.
Proof. intros HR Hvs [?|(o & r & Ho & Hw & Hp)]; [by left|right]. exists o, r. eauto 6 with portty. Qed.

Lemma phase_ok_mono (R R' : HandshakeOutcome → Prop) ms vs vs' p :
  (∀ o, R o → R' o) → vs ⊆ vs' → phase_ok R ms vs p → phase_ok R' ms vs' p.
Proof.
  intros HR Hvs. destruct p; simpl; try done; try (intros [Ho H]; split; [by apply HR|exact H]);
    try (intros (Ho & r & Hw & Hm); split; [by apply HR|]; exists r; eauto with portty).
  by apply ended_mono.
Qed.

Lemma phase_ok_ended R ms vs p : phase_ok R ms vs p → ended R ms vs.
Proof.
  assert (Hp : ∀ o r rest, R o → word_given o r vs → script o r = ms ++ rest → ended R ms vs).
  { intros o r rest Ho Hw Hs. right. exists o, r. split; [done|]. split; [done|]. rewrite Hs. by exists rest. }
  destruct p; simpl; try (intros ->; left; by exists [GotServingSlot]);
    try (intros (_ & ->); left; first [by exists [GotServingSlot] | by exists []]).
  - intros (_ & -> & _). left. by exists [].
  - intros (Ho & r & Hw & ->). eapply Hp; [exact Ho|exact Hw|]. unfold script. simpl. by rewrite <- !app_assoc.
  - intros (Ho & r & Hw & ->). eapply Hp; [exact Ho|exact Hw|]. reflexivity.
  - intros (Ho & r & Hw & ->). eapply Hp; [exact Ho|exact Hw|]. unfold script. simpl. by rewrite <- !app_assoc.
  - intros (Ho & r & Hw & ->). apply (Hp _ _ [] Ho Hw). by rewrite app_nil_r.
  - done.
Qed.

(** [R id o]: the handshake of connection [id] reported [o]. *)
Record Ordered (R : nat → HandshakeOutcome → Prop) (h : Host) : Prop := {
  ord_live : ∀ id c, connections h !! id = Some c →
    phase_ok (R id) (milestones id h) (verdicts (world h)) (phase c);
  ord_ended : ∀ id, ended (R id) (milestones id h) (verdicts (world h));
  ord_log : ∀ e, e ∈ log h → (e.1 < numbered h)%nat;
  ord_ids : ∀ id c, connections h !! id = Some c → (id < numbered h)%nat;
  ord_world : Honest (world h);
}.

Lemma ordered_mono (R R' : nat → HandshakeOutcome → Prop) h :
  (∀ id o, R id o → R' id o) → Ordered R h → Ordered R' h.
Proof.
  intros HR [Hl He Hlog Hids Hw]. split; try done.
  - intros id c Hc. eapply phase_ok_mono; [by apply HR|done|by apply Hl].
  - intros id. eapply ended_mono; [by apply HR|done|by apply He].
Qed.

Lemma verdicts_step w e : verdicts w ⊆ verdicts (world_step w e).
Proof. destruct e; simpl; repeat split_match; simpl; set_solver. Qed.

Lemma milestones_app id h l :
  log h = l → ∀ id' m, snd <$> filter (λ e, e.1 = id) (l ++ [(id', m)]) =
    milestones id h ++ (if bool_decide (id' = id) then [m] else []).
Proof.
  intros <- id' m. unfold milestones. rewrite filter_app, fmap_app. f_equal.
  rewrite filter_cons, filter_nil. simpl. by repeat case_decide || case_bool_decide.
Qed.

(** One task moves: its connection changes or goes, and it may reach a milestone. *)
Lemma ordered_update R h h' id c new m :
  Ordered R h → connections h !! id = Some c →
  connections h' = match new with Some c' => <[id := c']> (connections h) | None => delete id (connections h) end →
  log h' = log h ++ match m with Some m => [(id, m)] | None => [] end →
  numbered h' = numbered h → verdicts (world h) ⊆ verdicts (world h') → Honest (world h') →
  match new with
  | Some c' => phase_ok (R id) (milestones id h ++ option_list m) (verdicts (world h')) (phase c')
  | None => m = None
  end → Ordered R h'.
Proof.
  intros [Hl He Hlog Hids Hw] Hc Hconns Hlog' Hnum Hvs Hw' Hnew.
  assert (Hms : ∀ id', milestones id' h' = milestones id' h ++ (if bool_decide (id = id') then option_list m else [])).
  { intros id'. unfold milestones at 1. rewrite Hlog'. destruct m as [m|]; simpl.
    - by rewrite (milestones_app id' h _ eq_refl).
    - rewrite app_nil_r. case_bool_decide; by rewrite app_nil_r. }
  split; [| | | |done].
  - intros id' c0. rewrite Hconns, Hms. destruct new as [c'|].
    + intros [[-> ->]|[Hne Hc0]]%lookup_insert_Some; [by rewrite bool_decide_true|].
      rewrite bool_decide_false, app_nil_r by done. eapply phase_ok_mono; [by intros|done|by apply Hl].
    + intros [Hne Hc0]%lookup_delete_Some. rewrite bool_decide_false, app_nil_r by done.
      eapply phase_ok_mono; [by intros|done|by apply Hl].
  - intros id'. rewrite Hms. case_bool_decide as Heq; [|rewrite app_nil_r; eapply ended_mono; [by intros|done|done]].
    subst id'. destruct new as [c'|]; [by eapply phase_ok_ended|]. subst m. rewrite app_nil_r. eapply ended_mono; [by intros|done|done].
  - intros e. rewrite Hlog', Hnum. intros [?|Hin]%elem_of_app; [by apply Hlog|].
    destruct m as [m|]; [|by apply not_elem_of_nil in Hin]. apply list_elem_of_singleton in Hin as ->. by eapply Hids.
  - intros id' c0. rewrite Hconns, Hnum. destruct new as [c'|].
    + intros [[-> _]|[_ Hc0]]%lookup_insert_Some; by eapply Hids.
    + intros [_ Hc0]%lookup_delete_Some. by eapply Hids.
Qed.

Lemma ordered_finish R h id c c0 :
  Ordered R h → connections h !! id = Some c0 → Ordered R (finish h id c).
Proof.
  intros Hh Hc. pose proof (ord_world R h Hh) as Hw. eapply (ordered_update R h _ id c0 None None Hh Hc); try done.
  all: unfold finish; destruct (phase c); try (destruct (in_flight _)); try case_bool_decide; simpl;
    rewrite ?app_nil_r; try done.
  - by apply (honest_step _ Abandon).
Qed.

(** Steps that no task takes. *)
Lemma ordered_world R h w :
  Ordered R h → verdicts (world h) ⊆ verdicts w → Honest w → Ordered R (set_world h w).
Proof.
  intros [Hl He Hlog Hids Hw] Hvs Hw'. split; simpl; try done.
  - intros id c Hc. apply (phase_ok_mono (R id) _ _ (verdicts (world h))); [by intros|done|by apply Hl].
  - intros id. apply (ended_mono (R id) _ _ (verdicts (world h))); [by intros|done|apply He].
Qed.

(** The rest of the state does not matter. *)
Lemma ordered_same R h h' :
  Ordered R h → connections h' = connections h → log h' = log h → numbered h' = numbered h →
  world h' = world h → Ordered R h'.
Proof.
  intros [Hl He Hlog Hids Hw] E1 E2 E3 E4.
  split; unfold milestones in *; rewrite ?E1, ?E2, ?E3, ?E4; done.
Qed.

Lemma ordered_dial R h addr known : Ordered R h → Ordered R (dial device_id_from_node_id h addr known).
Proof.
  intros Hh. pose proof Hh as [Hl He Hlog Hids Hw]. unfold dial. cbv zeta.
  assert (Hfresh : milestones (numbered h) h = []).
  { unfold milestones. rewrite list_filter_none; [done|]. apply Forall_forall. intros e Hin Heq.
    apply Hlog in Hin. lia. }
  assert (Hstage : ∀ c, phase c = Handshaking → ∀ h', connections h' = <[numbered h := c]> (connections h) →
    world h' = world h → log h' = log h → numbered h' = S (numbered h) → Ordered R h').
  { intros c Hp h' E1 E2 E3 E4. split; unfold milestones in *; rewrite ?E1, ?E2, ?E3, ?E4; try done.
    - intros id c0 [[<- <-]|[_ Hc0]]%lookup_insert_Some; [by rewrite Hp|by apply Hl].
    - intros e Hin%Hlog. lia.
    - intros id c0 [[<- _]|[_ Hc0]]%lookup_insert_Some; [lia|]. apply Hids in Hc0. lia. }
  destruct (try_enter _ _ _); [|by apply (ordered_same R h)].
  destruct (0 <? staging_sem h); [eapply Hstage; [|reflexivity..]; reflexivity|].
  destruct ((0 <? _) && _); [eapply Hstage; [|reflexivity..]; reflexivity|by apply (ordered_same R h)].
Qed.

Lemma ordered_go R h h' id c p m :
  Ordered R h → connections h !! id = Some c → connections h' = <[id := with_phase c p]> (connections h) →
  log h' = log h ++ match m with Some m => [(id, m)] | None => [] end → numbered h' = numbered h →
  verdicts (world h) ⊆ verdicts (world h') → Honest (world h') →
  phase_ok (R id) (milestones id h ++ option_list m) (verdicts (world h')) p → Ordered R h'.
Proof. intros. eapply (ordered_update R h h' id c (Some (with_phase c p)) m); eauto. Qed.

Lemma ordered_ask_human R h id c o :
  Ordered R h → connections h !! id = Some c → R id o → milestones id h = [GotServingSlot] →
  Ordered R (ask_human h id c o).
Proof.
  intros Hh Hc Ho Hms. pose proof (ord_world R h Hh) as Hw. unfold ask_human.
  destruct (resumed o) eqn:Hr.
  - eapply (ordered_go R h _ id c _ None Hh Hc); try done; simpl; rewrite ?app_nil_r; [done|].
    split; [done|]. exists {| request_no := 0; pr_device_id := []; pr_display_name := ""; pr_code := [] |}.
    rewrite Hms. unfold word_given, human_part. by rewrite Hr.
  - pose proof (honest_step _ (Confirm (peer_device_id o) (peer_display_name o) (verification_code o)) Hw) as Hw'.
    pose proof (verdicts_step (world h) (Confirm (peer_device_id o) (peer_display_name o) (verification_code o))) as Hvs.
    assert (Hasked : ∀ b r v, confirm_begin (peer_device_id o) (peer_display_name o) (verification_code o)
      (broker (world h)) = (b, r, v) → asked_for o r).
    { intros b r v. unfold confirm_begin. destruct (in_flight _); [by intros [= <- <- <-]|].
      case_bool_decide; by intros [= <- <- <-]. }
    destruct (confirm_begin _ _ _ _) as [[b r] v] eqn:Hb. specialize (Hasked _ _ _ eq_refl).
    eapply (ordered_go R h _ id c _ None Hh Hc); try done; simpl; rewrite ?app_nil_r; [done|].
    rewrite Hms. destruct v; simpl; [by left|done].
Qed.

Lemma ordered_hear_human R h id c o r timed_out :
  Ordered R h → connections h !! id = Some c → R id o → milestones id h = [GotServingSlot] → resumed o = false →
  asked_for o r → Ordered R (hear_human h id c o r timed_out).
Proof.
  intros Hh Hc Ho Hms Hr Ha. pose proof (ord_world R h Hh) as Hw. unfold hear_human.
  pose proof (honest_step _ (Poll timed_out) Hw) as Hw'.
  pose proof (verdicts_step (world h) (Poll timed_out)) as Hvs.
  destruct (poll _ _) as [[r' verdict]|] eqn:Hp; [|done]. case_bool_decide as Heq; [|done]. subst r'.
  assert (Hin : (r, verdict) ∈ verdicts (world_step (world h) (Poll timed_out))).
  { simpl. rewrite Hp. simpl. set_solver. }
  destruct verdict.
  - eapply (ordered_go R h _ id c _ (Some (HumanConfirmed r)) Hh Hc); try done.
    rewrite Hms. split; [done|]. exists r. unfold human_part. rewrite Hr. split; [|done]. by intros _.
  - eapply (ordered_go R h _ id c _ None Hh Hc); try done; cbn [option_list]; rewrite ?app_nil_r; [done|].
    rewrite Hms. by left.
Qed.

Lemma ordered_claim R h id c o r now :
  Ordered R h → connections h !! id = Some c → R id o → word_given o r (verdicts (world h)) →
  milestones id h = GotServingSlot :: human_part o r → Ordered R (claim h id c o now).
Proof.
  intros Hh Hc Ho Hw Hms. pose proof (ord_world R h Hh) as Hwd. unfold claim.
  destruct (enrollment_epoch o) as [e|] eqn:He.
  - destruct (consume_first_pair _ _ _) as [claimed ?]. destruct claimed.
    + eapply (ordered_go R h _ id c _ (Some (EnrollmentClaimed e)) Hh Hc); try done; simpl.
      split; [done|]. exists r. split; [done|]. unfold claim_part. by rewrite Hms, He.
    + eapply (ordered_go R h _ id c _ None Hh Hc); try done; simpl; rewrite ?app_nil_r; [done|].
      right. exists o, r. split; [done|]. split; [done|]. rewrite Hms. unfold script. simpl. rewrite <- app_assoc.
      by apply prefix_cons, prefix_app_r.
  - eapply (ordered_go R h _ id c _ None Hh Hc); try done; simpl; rewrite ?app_nil_r; [done|].
    split; [done|]. exists r. split; [done|]. unfold claim_part. by rewrite Hms, He, app_nil_r.
Qed.

(** A connection whose handshake is under way. *)
Definition shaking (id : nat) (h : Host) : bool :=
  match connections h !! id with
  | Some c => match phase c with Handshaking => true | _ => false end
  | None => false
  end.

Lemma ordered_step (R : nat → HandshakeOutcome → Prop) h e :
  (∀ id authed o, e = HandshakeDone id authed o → shaking id h = true → R id o) →
  Ordered R h → Ordered R (step h e).
Proof.
  intros HR Hh. pose proof (ord_world R h Hh) as Hw.
  assert (Hon : ∀ id f, (∀ c, connections h !! id = Some c → phase_ok (R id) (milestones id h) (verdicts (world h)) (phase c) →
    Ordered R (f c)) → Ordered R (on h id f)).
  { intros id f Hf. unfold on. destruct (connections h !! id) eqn:Hc; [|done]. apply Hf; [done|]. by apply (ord_live R h). }
  destruct e; simpl; try (apply Hon; intros c Hc Hp).
  - by apply ordered_dial.
  - destruct (phase c) eqn:E; try done. destruct sent_refusal; [|by eapply ordered_finish].
    eapply (ordered_go R h _ id c _ None Hh Hc); try done; simpl; by rewrite ?app_nil_r.
  - destruct (phase c) eqn:E; try done. unfold handshake_done. case_bool_decide; [|by eapply ordered_finish].
    eapply (ordered_update R h _ id c (Some _) None Hh Hc); try done; simpl; [by rewrite app_nil_r|].
    rewrite app_nil_r. split; [|done]. eapply HR; [done|]. unfold shaking. by rewrite Hc, E.
  - destruct (phase c) eqn:E; try done. destruct Hp as [Ho Hp]. unfold graduate.
    destruct (_ <=? _); [by eapply ordered_finish|].
    eapply (ordered_go R h _ id c _ (Some GotServingSlot) Hh Hc); try done. by rewrite Hp.
  - destruct (phase c) eqn:E; try done. destruct Hp. by apply ordered_ask_human.
  - destruct (phase c) eqn:E; try done. destruct Hp as (? & ? & ? & ?). by apply ordered_hear_human.
  - destruct (phase c) eqn:E; try done. destruct Hp as (Ho & r & ? & ?). by eapply ordered_claim.
  - destruct (phase c) eqn:E; try done. destruct Hp as (Ho & r & ? & Hms). unfold commit.
    destruct ok; [|by eapply ordered_finish].
    eapply (ordered_go R h _ id c _ (Some TokenCommitted) Hh Hc); try done. rewrite Hms. split; [done|]. by exists r.
  - destruct (phase c) eqn:E; try done. destruct Hp as (Ho & r & ? & Hms). unfold acknowledge.
    destruct ok; [|by eapply ordered_finish].
    eapply (ordered_go R h _ id c _ (Some (Acknowledged _)) Hh Hc); try done. rewrite Hms. split; [done|]. exists r.
    split; [done|]. unfold script. by rewrite <- !app_assoc.
  - by eapply ordered_finish.
  - destruct (console_event e); [|done]. apply ordered_world; [done|apply verdicts_step|by apply honest_step].
  - by apply (ordered_same R h).
  - by apply (ordered_same R h).
Qed.

(** What the handshake of connection [id] reported in the run [es]: [HandshakeDone]
    came while the connection was still in its handshake. *)
Definition reported (es : list HostEvent) (id : nat) (o : HandshakeOutcome) : Prop :=
  ∃ before authed after, es = before ++ HandshakeDone id authed o :: after ∧ shaking id (runs before) = true.

Lemma ordered_run es : Ordered (reported es) (runs es).
Proof.
  induction es as [|e es IH] using rev_ind.
  - split; simpl; try done.
    + intros id. left. apply prefix_nil.
    + intros e Hin. by apply not_elem_of_nil in Hin.
    + exact (honest_run []).
  - unfold host_run. rewrite foldl_app. simpl. apply ordered_step.
    + intros id authed o -> Hs. by exists es, authed, [].
    + eapply ordered_mono; [|exact IH]. intros id o (before & authed & after & -> & Hs).
      exists before, authed, (after ++ [e]). by rewrite <- app_assoc.
Qed.

Lemma milestone_logged id m h : m ∈ milestones id h ↔ (id, m) ∈ log h.
Proof.
  unfold milestones. rewrite list_elem_of_fmap. split.
  - intros ([id' m'] & -> & [Heq Hin]%list_elem_of_filter). simpl in *. by subst id'.
  - intros Hin. exists (id, m). split; [done|]. by apply list_elem_of_filter.
Qed.

Lemma script_complete ms o r device :
  ms `prefix_of` script o r → Acknowledged device ∈ ms → ms = script o r ∧ peer_device_id o = device.
Proof.
  unfold script. set (head := GotServingSlot :: human_part o r ++ claim_part o). intros [rest Hs] Hin.
  assert (Hhead : ∀ d, Acknowledged d ∉ head ++ [TokenCommitted]).
  { intros d. unfold head, human_part, claim_part.
    destruct (resumed o), (enrollment_epoch o); simpl; rewrite ?not_elem_of_cons;
      split_and?; try done; apply not_elem_of_nil. }
  change [TokenCommitted; Acknowledged (peer_device_id o)]
    with ([TokenCommitted] ++ [Acknowledged (peer_device_id o)]) in *. rewrite app_assoc in *.
  destruct rest as [|x rest _] using rev_ind.
  - rewrite app_nil_r in Hs. split; [done|]. rewrite <- Hs in Hin.
    apply elem_of_app in Hin as [Hin|Hin]; [by apply Hhead in Hin|].
    apply list_elem_of_singleton in Hin. by injection Hin.
  - rewrite app_assoc in Hs. apply app_inj_tail in Hs as [Hs _]. destruct (Hhead device). rewrite Hs.
    apply elem_of_app. by left.
Qed.

(** C11 (safety). A phone is told it is paired only at the very end, by what its own handshake
    reported: its connection then holds a serving slot, had its enrollment claimed if
    that handshake passed the enrollment window and its token committed, each once and
    in this order; and unless that handshake resumed a pairing, the first answer a
    human gave to the request about this phone and its verification code was yes. *)
Theorem acknowledged_last_and_confirmed es id device :
  let h := host_run device_id_from_node_id es in
  (id, Acknowledged device) ∈ log h →
  ∃ o r, reported es id o ∧ peer_device_id o = device ∧
    milestones id h = [GotServingSlot] ++ (if resumed o then [] else [HumanConfirmed r]) ++
      (match enrollment_epoch o with Some e => [EnrollmentClaimed e] | None => [] end) ++
      [TokenCommitted; Acknowledged device] ∧
    (resumed o = false → asked_for o r ∧ ∃ later, answers_to r (given (world h)) = true :: later).
Proof.
  intros h Hin%milestone_logged. pose proof (ordered_run es) as Hh. fold h in Hh.
  destruct (ord_ended _ h Hh id) as [[rest Hp]|(o & r & Ho & Hw & Hp)].
  { exfalso. assert (Hg : Acknowledged device ∈ [GotServingSlot]) by (rewrite Hp; apply elem_of_app; by left).
    by apply list_elem_of_singleton in Hg. }
  destruct (script_complete _ _ _ _ Hp Hin) as [Hms Hd]. exists o, r. split; [done|]. split; [done|]. split.
  - rewrite Hms. unfold script. simpl. by rewrite <- app_assoc, Hd.
  - intros Hr. destruct (Hw Hr) as [Ha Hv]. split; [done|]. by apply (honest_yes _ (ord_world _ h Hh)).
Qed.

(** ** One enrollment each *)

Lemma run_ops_snoc ops op s :
  run_ops (ops ++ [op]) s =
    ((run_ops ops s).1 ++ [(apply_op op (run_ops ops s).2).1], (apply_op op (run_ops ops s).2).2).
Proof.
  revert s. induction ops as [|op' ops IH]; intros s; simpl.
  - by destruct (apply_op op s).
  - destruct (apply_op op' s) as [ev s1]. rewrite IH. by destruct (run_ops ops s1).
Qed.

Definition claims_logged (e : Z) (h : Host) : list (nat * Milestone) :=
  filter (λ x, x.2 = EnrollmentClaimed e) (log h).

Definition Claimed (e : Z) (h : Host) : Prop :=
  length (claims_logged e h) = claims_won e (pairing_events h).

Lemma claims_won_snoc e evs ev :
  claims_won e (evs ++ [ev]) = (claims_won e evs + (if bool_decide (ev = EvClaim e true) then 1 else 0))%nat.
Proof.
  unfold claims_won. rewrite filter_app, length_app, filter_cons, filter_nil.
  by case_decide; case_bool_decide.
Qed.

Lemma claims_logged_snoc e l id m :
  length (filter (λ x : nat * Milestone, x.2 = EnrollmentClaimed e) (l ++ [(id, m)])) =
    (length (filter (λ x : nat * Milestone, x.2 = EnrollmentClaimed e) l) +
     (if bool_decide (m = EnrollmentClaimed e) then 1 else 0))%nat.
Proof. rewrite filter_app, length_app, filter_cons, filter_nil. by case_decide; case_bool_decide. Qed.

Lemma claimed_same e h h' :
  Claimed e h → log h' = log h → pairing_ops h' = pairing_ops h → Claimed e h'.
Proof. unfold Claimed, claims_logged, pairing_events. by intros ? -> ->. Qed.

Lemma claimed_reach e h h' id m :
  Claimed e h → log h' = log h ++ [(id, m)] → pairing_ops h' = pairing_ops h →
  (∀ e', m ≠ EnrollmentClaimed e') → Claimed e h'.
Proof.
  unfold Claimed, claims_logged, pairing_events. intros ? -> -> Hm.
  rewrite claims_logged_snoc, bool_decide_false by apply Hm. lia.
Qed.

Lemma claimed_op e h op :
  Claimed e h → (∀ e', (apply_op op (pairing h)).1 ≠ EvClaim e' true) → Claimed e (do_pairing h op).
Proof.
  unfold Claimed, claims_logged, pairing_events. simpl. rewrite run_ops_snoc. simpl.
  intros Hh Hev. rewrite claims_won_snoc, bool_decide_false by apply Hev. lia.
Qed.

Lemma claimed_finish e h id c : Claimed e h → Claimed e (finish h id c).
Proof.
  intros Hh. apply (claimed_same e h); [done|..]; unfold finish;
    destruct (phase c); try (destruct (PairConfirm.in_flight _)); try case_bool_decide; done.
Qed.

Lemma claimed_dial e h addr known : Claimed e h → Claimed e (dial device_id_from_node_id h addr known).
Proof. intros Hh. apply (claimed_same e h); [done|..]; unfold dial; by repeat split_match. Qed.

Lemma claimed_claim e h id c o now : Claimed e h → Claimed e (claim h id c o now).
Proof.
  intros Hh. unfold claim. destruct (enrollment_epoch o) as [e'|]; [|by apply (claimed_same e h)].
  destruct (consume_first_pair now e' (pairing h)) as [claimed s'] eqn:Hc. destruct claimed.
  - unfold Claimed, claims_logged, pairing_events in *. simpl.
    rewrite run_ops_snoc, claims_logged_snoc. simpl. fold (pairing h). rewrite Hc. simpl.
    rewrite claims_won_snoc, Hh. f_equal. repeat case_bool_decide; congruence.
  - apply (claimed_same e (do_pairing h (OpConsume now e'))); [|done..].
    apply claimed_op; [done|]. simpl. rewrite Hc. by intros e0 [=].
Qed.

Lemma claimed_step e h ev : Claimed e h → Claimed e (step h ev).
Proof.
  intros Hh.
  assert (Hon : ∀ id f, (∀ c, Claimed e (f c)) → Claimed e (on h id f)).
  { intros id f Hf. unfold on. by destruct (connections h !! id). }
  destruct ev; simpl; try (apply Hon; intros c; try by apply claimed_finish); try (destruct (phase c); try exact Hh).
  - by apply claimed_dial.
  - destruct sent_refusal; [by apply (claimed_same e h)|by apply claimed_finish].
  - unfold handshake_done. case_bool_decide; [by apply (claimed_same e h)|by apply claimed_finish].
  - unfold graduate. destruct (_ <=? _); [by apply claimed_finish|]. by eapply claimed_reach.
  - unfold ask_human. destruct (resumed o); [by apply (claimed_same e h)|].
    destruct (confirm_begin _ _ _ _) as [[b r] v]. by apply (claimed_same e h).
  - unfold hear_human. destruct (poll _ _) as [[r' verdict]|]; [|done].
    case_bool_decide; [|done]. destruct verdict; [by eapply claimed_reach|by apply (claimed_same e h)].
  - by apply claimed_claim.
  - unfold commit. destruct ok; [by eapply claimed_reach|by apply claimed_finish].
  - unfold acknowledge. destruct ok; [by eapply claimed_reach|by apply claimed_finish].
  - match goal with |- context [console_event ?x] => destruct (console_event x) end; [by apply (claimed_same e h)|done].
  - apply claimed_op; [done|]. intros e'. simpl. by destruct (gate_first_pair _ _ _ _).
  - by apply claimed_op.
Qed.

(** Two different entries of a list make two. *)
Lemma two_of {A} (P : A → Prop) `{∀ x, Decision (P x)} (l : list A) x y :
  x ∈ l → y ∈ l → P x → P y → x ≠ y → (2 ≤ length (filter P l))%nat.
Proof.
  intros Hx Hy Px Py Hne.
  assert (Hx' : x ∈ filter P l) by (by apply list_elem_of_filter).
  assert (Hy' : y ∈ filter P l) by (by apply list_elem_of_filter).
  destruct (filter P l) as [|a [|b l']]; simpl; [by apply not_elem_of_nil in Hx'| |lia].
  apply list_elem_of_singleton in Hx', Hy'. congruence.
Qed.

(** C12 (safety). One opening of the window enrols one phone: in any run with fewer than 2^64
    operations on the pairing state, no two connections claim the same
    enrollment. *)
Theorem one_connection_enrols es e id1 id2 :
  let h := host_run device_id_from_node_id es in
  Z.of_nat (length (pairing_ops h)) < 2 ^ 64 → 0 <= e <= u64_max →
  (id1, EnrollmentClaimed e) ∈ log h → (id2, EnrollmentClaimed e) ∈ log h → id1 = id2.
Proof.
  intros h Hlen He H1 H2. destruct (decide (id1 = id2)) as [|Hne]; [done|exfalso].
  assert (Hc : Claimed e h) by (apply host_run_invariant; [done|intros; by apply claimed_step]).
  pose proof (two_of (λ x, x.2 = EnrollmentClaimed e) (log h) _ _ H1 H2 eq_refl eq_refl
    ltac:(congruence)) as Htwo.
  change (length (filter _ (log h))) with (length (claims_logged e h)) in Htwo. rewrite Hc in Htwo.
  destruct (run_ops_counts (pairing_ops h) closed_pairing _ _ e (surjective_pairing _) race_window_wf Hlen He)
    as [Hone _]. unfold pairing_events in Htwo. lia.
Qed.
End steps.

Module AdmissionExamples.
#[local] Transparent gmap_empty.

Definition same_bytes (b : bytes) : option DeviceId := Some b.
Definition phone : DeviceId := [Byte.x01].
Definition phone_addr : IncomingAddr := Addr_Relay phone "01".
Definition stranger (c : Ascii.ascii) : HostEvent := Dial (Addr_Ip (String.String c "")) [phone].

(** Twelve addresses fill the general pool with two dials each. *)
Definition flood : list HostEvent :=
  (λ c, stranger c) <$> (String.list_ascii_of_string "abcdefghijkl" ++ String.list_ascii_of_string "abcdefghijkl").

Lemma known_witness :
  staging_sem (host_run same_bytes flood) = 0 ∧
  ∃ c, connections (host_step same_bytes (host_run same_bytes flood) (Dial phone_addr [phone])) !!
         numbered (host_run same_bytes flood) = Some c ∧ phase c = Handshaking ∧
       source c = staging_source_key phone_addr.
Proof.
  split; [vm_compute; reflexivity|].
  apply (known_peers_get_in same_bytes flood phone_addr [phone]);
    [vm_compute; reflexivity|vm_compute; reflexivity|vm_compute; reflexivity].
Defined.

(** A first pair from the dial to the acknowledgement. *)
Definition proved : HandshakeOutcome :=
  {| peer_device_id := phone; peer_display_name := "phone"; verification_code := str_chars "1";
     resumed := false; previous_token := false; enrollment_epoch := Some 1 |}.

Definition first_pair : list HostEvent :=
  [Reopen 0 [Manual [Byte.x01]]; Console Attach; Dial phone_addr []; GateFirstPair 1 1 (Some 1);
   HandshakeDone 0 phone proved; Graduate 0; AskHuman 0; Console SendOne; Console (Read 0);
   Console (Answer 0 true); HearHuman 0 false; Claim 0 5; Commit 0 true; Acknowledge 0 true].

Lemma acknowledged_witness :
  ∃ o r, reported same_bytes first_pair 0 o ∧ peer_device_id o = phone ∧
    milestones 0 (host_run same_bytes first_pair) =
      [GotServingSlot] ++ (if resumed o then [] else [HumanConfirmed r]) ++
      (match enrollment_epoch o with Some e => [EnrollmentClaimed e] | None => [] end) ++
      [TokenCommitted; Acknowledged phone] ∧
    (resumed o = false → asked_for o r ∧
      ∃ later, answers_to r (given (world (host_run same_bytes first_pair))) = true :: later).
Proof.
  apply (acknowledged_last_and_confirmed same_bytes first_pair 0 phone).
  apply (bool_decide_unpack _). vm_compute. exact I.
Defined.

(** Two phones prove the same code; the second comes too late. *)
Definition other_phone : DeviceId := [Byte.x02].
Definition other_proved : HandshakeOutcome :=
  {| peer_device_id := other_phone; peer_display_name := "other"; verification_code := str_chars "2";
     resumed := false; previous_token := false; enrollment_epoch := Some 1 |}.
Definition race : list HostEvent :=
  [Reopen 0 [Manual [Byte.x01]]; Console Attach; Dial phone_addr []; Dial (Addr_Relay other_phone "02") [];
   GateFirstPair 1 1 (Some 1); GateFirstPair 2 2 (Some 1);
   HandshakeDone 0 phone proved; HandshakeDone 1 other_phone other_proved; Graduate 0; Graduate 1;
   AskHuman 0; Console SendOne; Console (Read 0); Console (Answer 0 true); HearHuman 0 false;
   AskHuman 1; Console SendOne; Console (Read 0); Console (Answer 0 true); HearHuman 1 false;
   Claim 0 5; Claim 1 6].

Lemma enrols_witness :
  phase <$> connections (host_run same_bytes race) !! 1%nat = Some (Refusing "PairingClosed") ∧
  ∀ id, (id, EnrollmentClaimed 1) ∈ log (host_run same_bytes race) → id = 0%nat.
Proof.
  split; [vm_compute; reflexivity|]. intros id Hid.
  apply (one_connection_enrols same_bytes race 1 id 0);
    [vm_compute; reflexivity|unfold u64_max; lia|exact Hid|].
  apply (bool_decide_unpack _). vm_compute. exact I.
Defined.
End AdmissionExamples.
