(* ===== verification/Workspace.v ===== *)
(** * Workspace: which directories a phone or an agent may reach

    [crates/host/src/workspace.rs] and the sandboxed file access of
    [session.rs] ([sandboxed_acp_path], [read_acp_text_file],
    [write_acp_text_file]), on Unix paths, over a file system with symbolic
    links. A path is its bytes; [canonicalize] is realpath(3), which follows at
    most [MAXSYMLINKS] links. Where a function makes several system calls, the
    file system it checks and the one it then uses may differ. *)

From stdpp Require Import sorting.
From S2P Require Import Prelude Protocol Utf8.

(** ** Paths *)

Abbreviation path := bytes.
Abbreviation location := (list bytes).       (* from the root of the file system *)

Definition slash : Byte.byte := Byte.x2f.
Definition is_slash (b : Byte.byte) : bool := bool_decide (b = slash).
Definition dot : bytes := [Byte.x2e].
Definition dotdot : bytes := [Byte.x2e; Byte.x2e].

(** What lies between the slashes, and the root if the path starts with one. *)
Definition pieces (p : path) : list bytes := split_by is_slash p.
Definition is_absolute (p : path) : bool := match p with b :: _ => is_slash b | [] => false end.

(** [std::path::Component]s, on Unix. *)
Inductive Component :=
| RootDir
| CurDir
| ParentDir
| Normal (name : bytes).

Definition component_of (piece : bytes) : option Component :=
  if bool_decide (piece = []) || bool_decide (piece = dot) then None
  else if bool_decide (piece = dotdot) then Some ParentDir
  else Some (Normal piece).

(** [Path::components]: empty pieces and dots disappear, a leading dot excepted. *)
Definition components (p : path) : list Component :=
  (if is_absolute p then [RootDir]
   else match pieces p with d :: _ => if bool_decide (d = dot) then [CurDir] else [] | [] => [] end)
  ++ omap component_of (pieces p).

Inductive WorkspaceError :=
| NotRelative
| Escapes
| NotADirectory
| Io (message : string).

Fixpoint normal_parts (cs : list Component) : option (list bytes) :=
  match cs with
  | [] => Some []
  | Normal part :: cs => parts ← normal_parts cs; Some (part :: parts)
  | CurDir :: cs => normal_parts cs
  | _ => None
  end.

Definition normalize_rel (rel : path) : result WorkspaceError path :=
  if is_absolute rel then Err NotRelative
  else match normal_parts (components rel) with
       | Some parts => Ok (join_with [slash] parts)
       | None => Err NotRelative
       end.

(** ** The file system *)

Inductive Node :=
| Dir (searchable : bool)          (* whether this process may look names up in it *)
| File (content : bytes)
| Link (target : path).

Abbreviation FileSystem := (gmap location Node).

Inductive IoError :=
| NotFound
| PermissionDenied
| NotDirectory
| IsDirectory
| TooManyLinks
| InvalidData.

Definition MAXSYMLINKS : nat := 40.

Definition up (cur : location) : location := take (length cur - 1) cur.

(** Walking a path from the directory [cur]. [create] is an open that may create the
    last name. *)
Fixpoint walk (fs : FileSystem) (create : bool) (links : nat) : location → list bytes → result IoError location :=
  fix go (cur : location) (todo : list bytes) : result IoError location :=
    match todo with
    | [] => Ok cur
    | piece :: rest =>
        if bool_decide (piece = []) || bool_decide (piece = dot) then go cur rest
        else if bool_decide (piece = dotdot) then go (up cur) rest
        else
          match fs !! cur with
          | Some (Dir true) =>
              match fs !! (cur ++ [piece]) with
              | Some (Dir _) => go (cur ++ [piece]) rest
              | Some (File _) =>
                  match rest with [] => Ok (cur ++ [piece]) | _ => Err NotDirectory end
              | Some (Link target) =>
                  match links with
                  | O => Err TooManyLinks
                  | S links =>
                      walk fs create links (if is_absolute target then [] else cur) (pieces target ++ rest)
                  end
              | None =>
                  if create && bool_decide (rest = []) then Ok (cur ++ [piece]) else Err NotFound
              end
          | Some (Dir false) => Err PermissionDenied
          | _ => Err NotDirectory
          end
    end.

(** The bytes of a canonical location. *)
Definition as_path (l : location) : path := slash :: join_with [slash] l.

Section sandbox.
(** The process's working directory, where relative paths start. *)
Context (cwd : location).

Definition start_of (p : path) : location := if is_absolute p then [] else cwd.

Definition canonicalize (fs : FileSystem) (p : path) : result IoError location :=
  if bool_decide (p = []) then Err NotFound else walk fs false MAXSYMLINKS (start_of p) (pieces p).

Definition is_dir (fs : FileSystem) (l : location) : bool :=
  match fs !! l with Some (Dir _) => true | _ => false end.

(** [Path::starts_with], on canonical paths. *)
Definition starts_with (l root : location) : bool := bool_decide (root `prefix_of` l).

(** The text of an operating system error is not modelled. *)
Definition io_error (e : IoError) : WorkspaceError := Io "".

(** [root.join(rel)] for a canonical root and a normalised [rel]. *)
Definition join (root : location) (rel : path) : path :=
  if is_absolute rel then rel else as_path root ++ (if bool_decide (root = []) then [] else [slash]) ++ rel.

Definition resolve_within (fs : FileSystem) (root rel : path) : result WorkspaceError location :=
  rel ← normalize_rel rel;
  root ← map_err io_error (canonicalize fs root);
  resolved ← map_err io_error (canonicalize fs (join root rel));
  if negb (starts_with resolved root) then Err Escapes
  else if negb (is_dir fs resolved) then Err NotADirectory
  else Ok resolved.

(** *** How broad a root is *)

Definition workspace_scope (fs : FileSystem) (home : option path) (root : path) : WorkspaceScope :=
  match canonicalize fs root with
  | Err _ => Scope_Broad
  | Ok root =>
      if bool_decide (root = []) then Scope_Broad
      else match home with
           | None => Scope_Broad
           | Some home =>
               match canonicalize fs home with
               | Err _ => Scope_Broad
               | Ok home => if starts_with home root then Scope_Broad else Scope_Project
               end
           end
  end.

(** *** Listing *)

Definition MAX_WORKSPACE_DIR_ENTRIES : nat := 500.

(** The names in a directory, in any order. *)
Definition entries (fs : FileSystem) (dir : location) : list bytes :=
  omap (λ e, match reverse e.1 with
             | name :: above => if bool_decide (reverse above = dir) then Some name else None
             | [] => None
             end) (map_to_list fs).

(** Reading a directory needs other rights than searching it; whether the host has
    them is an argument. *)
Definition child_rel (normalized name : bytes) : bytes :=
  if bool_decide (normalized = []) then name else normalized ++ [slash] ++ name.

Definition starts_with_dot (name : bytes) : bool :=
  match name with b :: _ => bool_decide (b = Byte.x2e) | [] => false end.

Definition valid_utf8 (b : bytes) : bool := match from_utf8 b with Utf8Ok => true | _ => false end.

Definition listed (fs : FileSystem) (root : path) (normalized : path) (dir : location) (name : bytes) : bool :=
  valid_utf8 name
  && negb (starts_with_dot name)
  && match canonicalize fs (as_path (dir ++ [name])) with Ok l => is_dir fs l | Err _ => false end
  && is_ok (resolve_within fs root (child_rel normalized name)).

(** The order of [str]s. *)
Fixpoint bytes_leb (a b : bytes) : bool :=
  match a, b with
  | [], _ => true
  | _ :: _, [] => false
  | x :: a, y :: b => (byte_val x <? byte_val y) || (byte_val x =? byte_val y) && bytes_leb a b
  end.
Definition bytes_le (a b : bytes) : Prop := bytes_leb a b = true.
#[global] Instance bytes_le_dec a b : Decision (bytes_le a b) := decide (bytes_leb a b = true).

Definition list_dirs (fs : FileSystem) (readable : bool) (root rel : path) :
    result WorkspaceError (path * list bytes) :=
  normalized ← normalize_rel rel;
  dir ← resolve_within fs root normalized;
  if negb readable then Err (Io "")
  else
    let names := filter (λ n, listed fs root normalized dir n = true) (entries fs dir) in
    Ok (normalized, take MAX_WORKSPACE_DIR_ENTRIES (merge_sort bytes_le names)).

(** *** What an agent may read and write *)

Definition MAX_ACP_TEXT_FILE_BYTES : Z := 4 * 1024 * 1024.

Inductive AcpError :=
| MustBeAbsolute
| NoParentDirectory
| NoFileName
| LinkToMissingTarget
| Restricted
| TooLarge
| Internal (e : IoError).

(** [Path::parent] and [Path::file_name] of an absolute path, from its components. *)
Definition names (p : path) : list bytes := filter (λ n, n ≠ [] ∧ n ≠ dot) (pieces p).

Definition parent (p : path) : option path :=
  match reverse (names p) with [] => None | _ :: above => Some (as_path (reverse above)) end.

Definition file_name (p : path) : option bytes :=
  match reverse (names p) with
  | name :: _ => if bool_decide (name = dotdot) then None else Some name
  | [] => None
  end.

(** [symlink_metadata(..).is_ok()] of a name in a canonical directory. *)
Definition lstat_ok (fs : FileSystem) (dir : location) (name : bytes) : bool :=
  match fs !! dir with
  | Some (Dir true) => bool_decide (is_Some (fs !! (dir ++ [name])))
  | _ => false
  end.

Definition missing_leaf (fs : FileSystem) (requested : path) : result AcpError location :=
  parent ← ok_or (parent requested) NoParentDirectory;
  parent ← map_err Internal (canonicalize fs parent);
  name ← ok_or (file_name requested) NoFileName;
  if lstat_ok fs parent name then Err LinkToMissingTarget else Ok (parent ++ [name]).

Definition sandboxed_acp_path (fs : FileSystem) (workspace requested : path) (allow_missing_leaf : bool)
    : result AcpError location :=
  if negb (is_absolute requested) then Err MustBeAbsolute
  else
    root ← map_err Internal (canonicalize fs workspace);
    resolved ← match canonicalize fs requested with
               | Ok path => Ok path
               | Err NotFound => if allow_missing_leaf then missing_leaf fs requested else Err (Internal NotFound)
               | Err e => Err (Internal e)
               end;
    if starts_with resolved root then Ok resolved else Err Restricted.

(** [str::split_inclusive('\n')]. *)
Fixpoint split_inclusive (b : bytes) : list bytes :=
  match b with
  | [] => []
  | c :: b =>
      if bool_decide (c = Byte.x0a) then [c] :: split_inclusive b
      else match split_inclusive b with
           | [] => [[c]]
           | chunk :: chunks => (c :: chunk) :: chunks
           end
  end.

(** The lines from the 1-based [line] on, at most [limit] of them. *)
Definition select_lines (content : bytes) (line limit : option Z) : bytes :=
  let line := Z.max (default 1 line) 1 in
  let chunks := drop (Z.to_nat (line - 1)) (split_inclusive content) in
  concat (match limit with Some limit => take (Z.to_nat limit) chunks | None => chunks end).

(** What opening a file for reading gives. *)
Definition read_file (fs : FileSystem) (l : location) : result IoError bytes :=
  l ← canonicalize fs (as_path l);
  match fs !! l with Some (File content) => Ok content | _ => Err IsDirectory end.

Definition read_acp_text_file (fs fs' : FileSystem) (workspace requested : path) (line limit : option Z)
    : result AcpError bytes :=
  path ← sandboxed_acp_path fs workspace requested false;
  content ← map_err Internal (read_file fs' path);
  if MAX_ACP_TEXT_FILE_BYTES <? Z.of_nat (length content) then Err TooLarge
  else if negb (valid_utf8 content) then Err (Internal InvalidData)
  else Ok (select_lines content line limit).

(** [std::fs::write]: the file at the path, or where its links lead, is replaced or
    made. *)
Definition write_file (fs : FileSystem) (l : location) (content : bytes) : result IoError FileSystem :=
  l ← walk fs true MAXSYMLINKS [] (pieces (as_path l));
  match fs !! l with
  | Some (Dir _) => Err IsDirectory
  | _ => Ok (<[l := File content]> fs)
  end.

Definition write_acp_text_file (fs fs' : FileSystem) (workspace requested : path) (content : bytes)
    : result AcpError FileSystem :=
  if MAX_ACP_TEXT_FILE_BYTES <? Z.of_nat (length content) then Err TooLarge
  else
    path ← sandboxed_acp_path fs workspace requested true;
    map_err Internal (write_file fs' path content).
End sandbox.

(** ** Which roots a host serves *)

Definition terminal_roots_from (setting : option chars) (home_available : bool) : list TerminalRoot :=
  let allow_home :=
    match setting with
    | Some raw => existsb (λ token, eq_ignore_ascii_case (trim token) (str_chars "home")) (split_by (λ c, c =? 44) raw)
    | None => true
    end in
  [Root_Workspace] ++ (if allow_home && home_available then [Root_Home] else []).

#[global] Instance TerminalRoot_eq_dec : EqDecision TerminalRoot.
Proof. solve_decision. Defined.

Definition terminal_root_path (setting : option chars) (home : option path) (workspace_dir : path)
    (root : TerminalRoot) : option path :=
  if negb (bool_decide (root ∈ terminal_roots_from setting (bool_decide (is_Some home)))) then None
  else match root with Root_Workspace => Some workspace_dir | Root_Home => home end.

(** ** Canonical locations *)

(** One step of a walk. *)
Lemma walk_nil fs create links cur : walk fs create links cur [] = Ok cur.
Proof. by destruct links. Qed.

Lemma walk_cons fs create links cur piece rest :
  walk fs create links cur (piece :: rest) =
    if bool_decide (piece = []) || bool_decide (piece = dot) then walk fs create links cur rest
    else if bool_decide (piece = dotdot) then walk fs create links (up cur) rest
    else
      match fs !! cur with
      | Some (Dir true) =>
          match fs !! (cur ++ [piece]) with
          | Some (Dir _) => walk fs create links (cur ++ [piece]) rest
          | Some (File _) => match rest with [] => Ok (cur ++ [piece]) | _ => Err NotDirectory end
          | Some (Link target) =>
              match links with
              | O => Err TooManyLinks
              | S links => walk fs create links (if is_absolute target then [] else cur) (pieces target ++ rest)
              end
          | None => if create && bool_decide (rest = []) then Ok (cur ++ [piece]) else Err NotFound
          end
      | Some (Dir false) => Err PermissionDenied
      | _ => Err NotDirectory
      end.
Proof. by destruct links. Qed.

(** A name that stands for itself in a path. *)
Definition clean (n : bytes) : Prop := n ≠ [] ∧ n ≠ dot ∧ n ≠ dotdot ∧ slash ∉ n.

(** A directory reached through searchable directories only, no links. *)
Record real_dir (fs : FileSystem) (l : location) : Prop := {
  rd_above : ∀ k, (k < length l)%nat → fs !! take k l = Some (Dir true);
  rd_dir : is_dir fs l = true;
  rd_clean : Forall clean l;
}.

(** The same for what may be a file. *)
Record real (fs : FileSystem) (l : location) : Prop := {
  real_above : ∀ k, (k < length l)%nat → fs !! take k l = Some (Dir true);
  real_clean : Forall clean l;
}.

Lemma real_dir_real fs l : real_dir fs l → real fs l.
Proof. by intros [? ? ?]. Qed.

Lemma real_dir_up fs cur : real_dir fs cur → real_dir fs (up cur).
Proof.
  intros [Ha Hd Hc]. unfold up. destruct (decide (cur = [])) as [->|Hne]; [done|].
  assert (length cur ≠ 0%nat) by (by intros ?%length_zero_iff_nil). split.
  - intros k Hk. rewrite length_take in Hk. rewrite take_take, Nat.min_l by lia. apply Ha. lia.
  - unfold is_dir. rewrite Ha; [done|lia].
  - by apply Forall_take.
Qed.

Lemma above_snoc fs cur n k :
  real_dir fs cur → fs !! cur = Some (Dir true) → (k < length (cur ++ [n]))%nat →
  fs !! take k (cur ++ [n]) = Some (Dir true).
Proof.
  intros [Ha _ _] Hd Hk. rewrite length_app in Hk. simpl in Hk.
  destruct (decide (k = length cur)) as [->|Hne].
  - by rewrite take_app_length.
  - rewrite take_app_le by lia. apply Ha. lia.
Qed.

Lemma real_snoc fs cur n :
  real_dir fs cur → fs !! cur = Some (Dir true) → clean n → real fs (cur ++ [n]).
Proof.
  intros Hd Hs Hn. split; [by intros; apply above_snoc|].
  apply Forall_app. split; [apply Hd|by constructor].
Qed.

Lemma real_dir_snoc fs cur n b :
  real_dir fs cur → fs !! cur = Some (Dir true) → clean n → fs !! (cur ++ [n]) = Some (Dir b) →
  real_dir fs (cur ++ [n]).
Proof.
  intros Hd Hs Hn Hb. destruct (real_snoc fs cur n Hd Hs Hn). split; [done| |done].
  unfold is_dir. by rewrite Hb.
Qed.

Definition no_slash (n : bytes) : Prop := slash ∉ n.

Lemma pieces_no_slash p : Forall no_slash (pieces p).
Proof.
  unfold pieces. induction p as [|c p IH]; simpl.
  - constructor; [apply not_elem_of_nil|done].
  - unfold is_slash at 1. case_bool_decide as Hc; [by constructor; [apply not_elem_of_nil|]|].
    destruct (split_by is_slash p) as [|w ws].
    + constructor; [|done]. unfold no_slash. rewrite list_elem_of_singleton. congruence.
    + inversion IH; subst. constructor; [|done]. unfold no_slash in *. set_solver.
Qed.

(** What a walk ends at: a real directory; or a file, or for an open that may create
    it a missing name, in one. *)
Definition landed (fs : FileSystem) (create : bool) (l : location) : Prop :=
  real_dir fs l ∨ real fs l ∧ (∃ c, fs !! l = Some (File c)) ∨ create = true ∧ real fs l ∧ fs !! l = None.

Lemma walk_landed fs create links cur todo l :
  real_dir fs [] → real_dir fs cur → Forall no_slash todo →
  walk fs create links cur todo = Ok l → landed fs create l.
Proof.
  intros Hroot. revert cur todo. induction links as [links IH] using lt_wf_ind.
  intros cur todo. revert cur. induction todo as [|piece rest IHt]; intros cur Hcur Hns Hw.
  { rewrite walk_nil in Hw. injection Hw as <-. by left. }
  inversion Hns as [|? ? Hn Hns']; subst.
  assert (Hw' : ∀ cur', walk fs create links cur' rest = Ok l → real_dir fs cur' → landed fs create l)
    by (intros; by eapply IHt).
  assert (Hclean : bool_decide (piece = []) || bool_decide (piece = dot) = false →
    bool_decide (piece = dotdot) = false → clean piece).
  { intros [H1%bool_decide_eq_false H2%bool_decide_eq_false]%orb_false_iff H3%bool_decide_eq_false.
    by repeat split. }
  rewrite walk_cons in Hw.
  destruct (bool_decide (piece = []) || bool_decide (piece = dot)) eqn:E1; [by eapply Hw'|].
  destruct (bool_decide (piece = dotdot)) eqn:E2; [by eapply Hw', real_dir_up|].
  destruct (fs !! cur) as [[[]|?|?]|] eqn:Ed; try discriminate.
  destruct (fs !! (cur ++ [piece])) as [[b|?|target]|] eqn:En.
  - eapply Hw', real_dir_snoc; eauto.
  - destruct rest; [|discriminate]. injection Hw as <-. right. left.
    split; [by apply real_snoc; auto|by eexists].
  - destruct links as [|links]; [discriminate|]. apply (IH links ltac:(lia) _ _) in Hw; [done| |].
    + by destruct (is_absolute target).
    + apply Forall_app. split; [apply pieces_no_slash|done].
  - destruct (create && bool_decide (rest = [])) eqn:Ec; [|discriminate]. injection Hw as <-.
    apply andb_true_iff in Ec as [-> _]. right. right. split_and!; [done|by apply real_snoc; auto|done].
Qed.

Lemma is_slash_false n : no_slash n → Forall (λ c, is_slash c = false) n.
Proof.
  intros Hn. apply Forall_forall. intros c Hc. unfold is_slash. apply bool_decide_eq_false.
  intros ->. by apply Hn.
Qed.

Lemma pieces_join l : Forall no_slash l → l ≠ [] → pieces (join_with [slash] l) = l.
Proof.
  intros Hl. unfold pieces. induction l as [|w ws IH]; intros Hne; [done|]. inversion Hl; subst.
  destruct ws as [|w' ws]; cbn [join_with].
  - by apply split_by_word, is_slash_false.
  - rewrite <- (app_assoc w), <- app_comm_cons || idtac. simpl ([slash] ++ _).
    rewrite split_by_sep by (by apply is_slash_false || done). f_equal. by apply IH.
Qed.

Lemma pieces_as_path l : Forall no_slash l → pieces (as_path l) = [] :: (if bool_decide (l = []) then [[]] else l).
Proof.
  intros Hl. unfold as_path, pieces. simpl. f_equal. case_bool_decide as Hne; [by subst l|].
  by apply (pieces_join l).
Qed.

Lemma clean_no_slash l : Forall clean l → Forall no_slash l.
Proof. intros Hl. eapply Forall_impl; [exact Hl|]. by intros n (_ & _ & _ & ?). Qed.

(** A walk along real directories stays on its path. *)
Lemma walk_along fs create links cur l :
  real fs (cur ++ l) → is_dir fs cur = true →
  (l ≠ [] → match fs !! (cur ++ l) with Some (Link _) => False | None => create = true | _ => True end) →
  walk fs create links cur l = Ok (cur ++ l).
Proof.
  revert cur. induction l as [|n l IH]; intros cur [Ha Hc] Hd Hend.
  { rewrite app_nil_r. apply walk_nil. }
  assert (Hcur : fs !! cur = Some (Dir true)).
  { specialize (Ha (length cur)). rewrite take_app_length in Ha. apply Ha. rewrite length_app. simpl. lia. }
  assert (Hclean : clean n) by (apply Forall_app in Hc as [_ Hc]; by inversion Hc).
  destruct Hclean as (H1 & H2 & H3 & H4).
  specialize (Hend ltac:(done)). specialize (IH (cur ++ [n])). rewrite <- app_assoc in IH. simpl in IH.
  specialize (IH ltac:(by split)).
  assert (Hnext : l ≠ [] → fs !! (cur ++ [n]) = Some (Dir true)).
  { intros Hne. assert (E : cur ++ n :: l = (cur ++ [n]) ++ l) by (by rewrite <- app_assoc).
    specialize (Ha (length (cur ++ [n]))). rewrite E, take_app_length in Ha.
    apply Ha. rewrite (length_app (cur ++ [n])). destruct l; [done|]. simpl. lia. }
  rewrite walk_cons, (bool_decide_false _ H1), (bool_decide_false _ H2), (bool_decide_false _ H3), Hcur. simpl.
  destruct l as [|n' l].
  - destruct (fs !! (cur ++ [n])) as [[]|]; rewrite ?walk_nil; try done. by rewrite Hend.
  - rewrite Hnext by done. apply IH; [unfold is_dir; by rewrite Hnext|by intros _].
Qed.

(** Going through real directories first. *)
Lemma walk_along_app fs create links cur l more :
  real_dir fs (cur ++ l) → walk fs create links cur (l ++ more) = walk fs create links (cur ++ l) more.
Proof.
  revert cur. induction l as [|n l IH]; intros cur Hd; [by rewrite app_nil_r|].
  assert (E : cur ++ n :: l = (cur ++ [n]) ++ l) by (by rewrite <- app_assoc). rewrite E in *.
  pose proof Hd as [Ha Hdir Hc]. rewrite <- app_comm_cons.
  assert (Hclean : clean n).
  { apply Forall_app in Hc as [Hc _]. apply Forall_app in Hc as [_ Hc]. by inversion Hc. }
  destruct Hclean as (H1 & H2 & H3 & H4).
  assert (Hcur : fs !! cur = Some (Dir true)).
  { specialize (Ha (length cur)). rewrite <- app_assoc, take_app_length in Ha. apply Ha.
    rewrite !length_app. simpl. lia. }
  assert (Hn : is_dir fs (cur ++ [n]) = true).
  { destruct l as [|n' l]; [by rewrite app_nil_r in Hdir|]. specialize (Ha (length (cur ++ [n]))).
    rewrite take_app_length in Ha. unfold is_dir. rewrite Ha; [done|]. rewrite (length_app (cur ++ [n])). simpl. lia. }
  rewrite walk_cons, (bool_decide_false _ H1), (bool_decide_false _ H2), (bool_decide_false _ H3), Hcur. simpl.
  unfold is_dir in Hn. destruct (fs !! (cur ++ [n])) as [[]|]; try done. by apply IH.
Qed.

(** What was resolved is reached again, by its own name. *)
Lemma walk_as_path fs create links l :
  real_dir fs [] → real fs l →
  (l ≠ [] → match fs !! l with Some (Link _) => False | None => create = true | _ => True end) →
  walk fs create links [] (pieces (as_path l)) = Ok l.
Proof.
  intros Hroot Hl Hend. rewrite pieces_as_path by (by apply clean_no_slash, Hl).
  assert (E : ∀ todo, walk fs create links [] ([] :: todo) = walk fs create links [] todo) by (intros; by rewrite walk_cons).
  rewrite E. case_bool_decide as Hne; [subst l; rewrite E; apply walk_nil|].
  apply (walk_along fs create links [] l); [done|apply Hroot|done].
Qed.

Lemma landed_again fs l :
  real_dir fs [] → landed fs false l → walk fs false MAXSYMLINKS [] (pieces (as_path l)) = Ok l.
Proof.
  intros Hroot [Hd|[[Hr [c Hf]]|[? _]]]; [| |done].
  - apply walk_as_path; [done|by apply real_dir_real|]. pose proof (rd_dir _ _ Hd) as Hdir. unfold is_dir in Hdir.
    by destruct (fs !! l) as [[]|].
  - apply walk_as_path; [done..|]. by rewrite Hf.
Qed.

(** ** Relative paths *)

Lemma split_by_app {A} (p : A → bool) a c b : p c = true → split_by p (a ++ c :: b) = split_by p a ++ split_by p b.
Proof.
  intros Hc. induction a as [|x a IH]; simpl; [by rewrite Hc|]. rewrite IH. destruct (p x); [done|].
  pose proof (split_by_nonnil p a). by destruct (split_by p a).
Qed.

Lemma pieces_join_if l : Forall no_slash l → pieces (join_with [slash] l) = if bool_decide (l = []) then [[]] else l.
Proof. intros Hl. case_bool_decide; [by subst l|by apply pieces_join]. Qed.

Lemma component_of_clean n : clean n → component_of n = Some (Normal n).
Proof.
  intros (H1 & H2 & H3 & _). unfold component_of.
  by rewrite (bool_decide_false _ H1), (bool_decide_false _ H2), (bool_decide_false _ H3).
Qed.

Lemma components_clean p n : Normal n ∈ components p → clean n.
Proof.
  unfold components. intros [Hin|(piece & Hin & Hn)%list_elem_of_omap]%elem_of_app.
  - exfalso. destruct (is_absolute p); [by apply list_elem_of_singleton in Hin|].
    destruct (pieces p); [by apply not_elem_of_nil in Hin|]. case_bool_decide; [|by apply not_elem_of_nil in Hin].
    by apply list_elem_of_singleton in Hin.
  - unfold component_of in Hn. destruct (bool_decide (piece = []) || bool_decide (piece = dot)) eqn:E; [done|].
    apply orb_false_iff in E as [E1%bool_decide_eq_false E2%bool_decide_eq_false].
    case_bool_decide as E3; [done|]. injection Hn as <-. split_and!; [done..|].
    pose proof (pieces_no_slash p) as Hs. rewrite Forall_forall in Hs. by apply Hs.
Qed.

Lemma normal_parts_in cs parts : normal_parts cs = Some parts → ∀ n, n ∈ parts → Normal n ∈ cs.
Proof.
  revert parts. induction cs as [|[| | |part] cs IH]; intros parts; simpl; try done.
  - intros [= <-] n Hn. by apply not_elem_of_nil in Hn.
  - intros Hp n Hn. right. by eapply IH.
  - intros (parts' & Hp & [= <-])%bind_Some n [->|Hn]%elem_of_cons; [by left|]. right. by eapply IH.
Qed.

Lemma normalize_rel_Ok rel norm :
  normalize_rel rel = Ok norm → ∃ parts, Forall clean parts ∧ norm = join_with [slash] parts.
Proof.
  unfold normalize_rel. destruct (is_absolute rel); [done|].
  destruct (normal_parts (components rel)) as [parts|] eqn:Hp; [|done]. intros [= <-].
  exists parts. split; [|done]. apply Forall_forall. intros n Hn.
  by eapply components_clean, normal_parts_in.
Qed.

Lemma join_relative parts : Forall clean parts → is_absolute (join_with [slash] parts) = false.
Proof.
  intros Hp. destruct parts as [|n ps]; [done|]. inversion Hp as [|? ? (H1 & _ & _ & H4)]; subst.
  destruct n as [|c n]; [done|]. assert (Hc : is_slash c = false).
  { unfold is_slash. apply bool_decide_eq_false. intros ->. apply H4. by left. }
  by destruct ps.
Qed.

Lemma normalize_join parts :
  Forall clean parts → normalize_rel (join_with [slash] parts) = Ok (join_with [slash] parts).
Proof.
  intros Hp. unfold normalize_rel. rewrite join_relative by done. unfold components.
  rewrite join_relative, pieces_join_if by (done || by apply clean_no_slash).
  assert (E : omap component_of parts = Normal <$> parts).
  { induction Hp as [|n ps Hn _ IH]; [done|]. change (omap component_of (n :: ps)) with
      (match component_of n with Some c => c :: omap component_of ps | None => omap component_of ps end).
    by rewrite component_of_clean, IH. }
  assert (E' : normal_parts (Normal <$> parts) = Some parts).
  { clear E. induction Hp as [|n ps _ _ IH]; [done|]. rewrite fmap_cons. cbn [normal_parts]. by rewrite IH. }
  case_bool_decide as Hne; [by subst parts|]. destruct parts as [|n ps]; [done|].
  inversion Hp as [|? ? (_ & H2 & _)]; subst. rewrite (bool_decide_false _ H2), app_nil_l. by rewrite E, E'.
Qed.

Lemma join_snoc parts n : Forall clean parts → child_rel (join_with [slash] parts) n = join_with [slash] (parts ++ [n]).
Proof.
  intros Hp. unfold child_rel. induction Hp as [|m ps Hm Hps IH]; [done|].
  destruct Hm as (H1 & _). rewrite bool_decide_false.
  - destruct ps as [|m' ps]; [done|]. rewrite bool_decide_false in IH.
    + cbn [join_with app] in *. by rewrite <- IH, <- !app_assoc.
    + inversion Hps as [|? ? (? & _)]; subst. destruct m'; [done|]. by destruct ps.
  - destruct m; [done|]. by destruct ps.
Qed.

Lemma walk_app fs links cur todo more l :
  walk fs false links cur todo = Ok l → is_dir fs l = true →
  ∃ links', walk fs false links cur (todo ++ more) = walk fs false links' l more.
Proof.
  revert cur todo. induction links as [links IH] using lt_wf_ind. intros cur todo. revert cur.
  induction todo as [|piece rest IHt]; intros cur Hw Hd.
  { rewrite walk_nil in Hw. injection Hw as <-. by exists links. }
  rewrite <- app_comm_cons, walk_cons. rewrite walk_cons in Hw.
  destruct (bool_decide (piece = []) || bool_decide (piece = dot)); [by apply IHt|].
  destruct (bool_decide (piece = dotdot)); [by apply IHt|].
  destruct (fs !! cur) as [[[]|?|?]|]; try done.
  destruct (fs !! (cur ++ [piece])) as [[b|?|target]|] eqn:En; [by apply IHt| | |done].
  - exfalso. destruct rest; [|done]. injection Hw as <-. unfold is_dir in Hd. by rewrite En in Hd.
  - destruct links as [|links]; [done|]. rewrite app_assoc. by apply IH; [lia|..].
Qed.

#[global] Instance bytes_le_total : Total bytes_le.
Proof.
  unfold Total, bytes_le. intros a. induction a as [|x a IH]; intros [|y b]; simpl; auto.
  destruct (IH b) as [H|H]; rewrite H;
    destruct (Z.ltb_spec (byte_val x) (byte_val y)), (Z.ltb_spec (byte_val y) (byte_val x)),
      (Z.eqb_spec (byte_val x) (byte_val y)), (Z.eqb_spec (byte_val y) (byte_val x)); simpl; auto; lia.
Qed.

#[global] Instance bytes_le_trans : Transitive bytes_le.
Proof.
  unfold Transitive, bytes_le. intros a. induction a as [|x a IH]; intros [|y b] [|z c]; simpl; try done.
  intros H1 H2. apply orb_true_iff in H1, H2. apply orb_true_iff.
  rewrite !andb_true_iff, !Z.ltb_lt, !Z.eqb_eq in *.
  destruct H1 as [H1|[H1 H1']], H2 as [H2|[H2 H2']]; [left; lia..|]. right. split; [lia|by eapply IH].
Qed.

(** The names of different keys are different. *)
Lemma NoDup_omap_keys {K V B} (f : K * V → option B) (g : B → K) (l : list (K * V)) :
  NoDup (l.*1) → (∀ e b, f e = Some b → e.1 = g b) → NoDup (omap f l).
Proof.
  intros Hl Hf. induction l as [|e l IH]; simpl; [constructor|]. inversion Hl as [|? ? Hin Hl']; subst.
  destruct (f e) as [b|] eqn:He; [|by apply IH]. constructor; [|by apply IH].
  intros (e' & Hin' & He')%list_elem_of_omap. apply Hin. apply Hf in He, He'. rewrite He, <- He'.
  by apply list_elem_of_fmap_2.
Qed.

Lemma entries_spec fs dir n : n ∈ entries fs dir ↔ is_Some (fs !! (dir ++ [n])).
Proof.
  unfold entries. rewrite list_elem_of_omap. split.
  - intros ([l node] & Hin & Hn). simpl in Hn. destruct (reverse l) as [|name above] eqn:Hr; [done|].
    case_bool_decide as Habove; [|done]. injection Hn as ->. apply elem_of_map_to_list in Hin.
    rewrite <- (reverse_involutive l), Hr, reverse_cons, Habove in Hin. by eexists.
  - intros [node Hn]. exists (dir ++ [n], node). split; [by apply elem_of_map_to_list|]. simpl.
    rewrite reverse_app. simpl. by rewrite reverse_involutive, bool_decide_true.
Qed.

Lemma entries_NoDup fs dir : NoDup (entries fs dir).
Proof.
  apply (NoDup_omap_keys _ (λ n, dir ++ [n])); [apply NoDup_fst_map_to_list|].
  intros [l node] n. simpl. destruct (reverse l) as [|name above] eqn:Hr; [done|].
  case_bool_decide as Habove; [|done]. intros [= ->].
  by rewrite <- (reverse_involutive l), Hr, reverse_cons, Habove.
Qed.

Section confinement.
Context (cwd : location) (fs : FileSystem).
Hypothesis Hroot : real_dir fs [].
Hypothesis Hcwd : real_dir fs cwd.

Lemma canonicalize_landed p l : canonicalize cwd fs p = Ok l → landed fs false l.
Proof.
  unfold canonicalize. case_bool_decide; [done|]. intros Hw.
  eapply walk_landed in Hw; [done..| |apply pieces_no_slash]. unfold start_of. by destruct (is_absolute p).
Qed.

Lemma canonicalize_as_path l :
  canonicalize cwd fs (as_path l) = walk fs false MAXSYMLINKS [] (pieces (as_path l)).
Proof. done. Qed.

Lemma canonicalize_again p l : canonicalize cwd fs p = Ok l → canonicalize cwd fs (as_path l) = Ok l.
Proof. intros Hl. rewrite canonicalize_as_path. by eapply landed_again, canonicalize_landed. Qed.

Lemma landed_dir l : landed fs false l → is_dir fs l = true → real_dir fs l.
Proof.
  intros [?|[[[Ha Hc] [c Hf]]|[? _]]] Hd; [done| |done]. unfold is_dir in Hd. by rewrite Hf in Hd.
Qed.

Lemma resolve_within_Ok root rel l :
  resolve_within cwd fs root rel = Ok l →
  ∃ norm r, normalize_rel rel = Ok norm ∧ canonicalize cwd fs root = Ok r ∧
    canonicalize cwd fs (join r norm) = Ok l ∧ r `prefix_of` l ∧ is_dir fs l = true.
Proof.
  unfold resolve_within. destruct (normalize_rel rel) as [norm|]; [|done]. simpl.
  destruct (canonicalize cwd fs root) as [r|]; [|done]. simpl.
  destruct (canonicalize cwd fs (join r norm)) as [l'|] eqn:Hl; [|done]. simpl.
  unfold starts_with. case_bool_decide as Hp; [|done]. simpl.
  destruct (is_dir fs l') eqn:Hd; [|done]. intros [= <-]. by exists norm, r.
Qed.

(** Whatever a phone sends and whatever links the tree holds, a resolved
    directory lies under the root's real location, is reached through real
    directories only, and is what its own path names: who opens it follows no
    link. *)
Theorem resolve_within_confines root rel l :
  resolve_within cwd fs root rel = Ok l →
  ∃ r, canonicalize cwd fs root = Ok r ∧ r `prefix_of` l ∧ is_dir fs l = true ∧
    (∀ k, (k < length l)%nat → fs !! take k l = Some (Dir true)) ∧
    canonicalize cwd fs (as_path l) = Ok l.
Proof.
  intros (norm & r & _ & Hr & Hl & Hp & Hd)%resolve_within_Ok. exists r. split_and!; [done..| |].
  - apply landed_dir; [by eapply canonicalize_landed|done].
  - by eapply canonicalize_again.
Qed.

(** A root that is called a project's does not hold the home directory: an
    approval of all reads inside it is not one of reading everything the user
    owns. *)
Theorem project_scope_excludes_home home root :
  workspace_scope cwd fs home root = Scope_Project →
  ∃ r h home', home = Some home' ∧ canonicalize cwd fs root = Ok r ∧ canonicalize cwd fs home' = Ok h ∧
    ¬ r `prefix_of` h.
Proof.
  unfold workspace_scope. destruct (canonicalize cwd fs root) as [r|]; [|done].
  case_bool_decide; [done|]. destruct home as [home'|]; [|done].
  destruct (canonicalize cwd fs home') as [h|] eqn:Hh; [|done].
  unfold starts_with. case_bool_decide as Hp; [done|]. intros _. by exists r, h, home'.
Qed.

(** *** Agents *)

Lemma file_name_clean p name : file_name p = Some name → clean name.
Proof.
  unfold file_name. destruct (reverse (names p)) as [|n above] eqn:Hn; [done|].
  case_bool_decide; [done|]. intros [= ->].
  assert (Hin : name ∈ names p) by (rewrite <- (reverse_involutive (names p)), Hn; apply elem_of_reverse; by left).
  apply list_elem_of_filter in Hin as [[? ?] Hin]. split_and!; [done..|].
  pose proof (pieces_no_slash p) as Hs. rewrite Forall_forall in Hs. by apply Hs.
Qed.

(** What the sandbox lets through: something that is there, or a name that was not
    there in a place that is. *)
Lemma sandboxed_Ok workspace requested missing l :
  sandboxed_acp_path cwd fs workspace requested missing = Ok l →
  ∃ r, canonicalize cwd fs workspace = Ok r ∧ r `prefix_of` l ∧
    (landed fs false l ∨
     missing = true ∧ ∃ d name, l = d ++ [name] ∧ landed fs false d ∧ clean name ∧ lstat_ok fs d name = false).
Proof.
  unfold sandboxed_acp_path. destruct (is_absolute requested); [|done]. simpl.
  destruct (canonicalize cwd fs workspace) as [r|]; [|done]. simpl.
  assert (Hend : ∀ l', (if starts_with l' r then Ok l' else Err Restricted) = Ok l → l' = l ∧ r `prefix_of` l).
  { intros l'. unfold starts_with. case_bool_decide; [|done]. intros [= <-]. done. }
  destruct (canonicalize cwd fs requested) as [l0|e] eqn:Hc.
  - intros [<- Hp]%Hend. exists r. split_and!; [done..|]. left. by eapply canonicalize_landed.
  - destruct e; try done. destruct missing; [|done]. unfold missing_leaf.
    destruct (parent requested) as [par|]; [|done]. simpl.
    destruct (canonicalize cwd fs par) as [d|] eqn:Hd; [|done]. simpl.
    destruct (file_name requested) as [name|] eqn:Hname; [|done]. simpl.
    destruct (lstat_ok fs d name) eqn:Hl; [done|]. intros [<- Hp]%Hend. exists r. split_and!; [done..|].
    right. split; [done|]. exists d, name. split_and!; [done|by eapply canonicalize_landed| |done].
    by eapply file_name_clean.
Qed.

(** *** The picker's listing *)

Lemma canonicalize_join r norm :
  real_dir fs r → is_absolute norm = false →
  canonicalize cwd fs (join r norm) = walk fs false MAXSYMLINKS r (pieces norm).
Proof.
  intros Hr Hn. unfold canonicalize, join. rewrite Hn.
  assert (Hne : as_path r ++ (if bool_decide (r = []) then [] else [slash]) ++ norm ≠ []) by done.
  rewrite (bool_decide_false _ Hne). unfold start_of. simpl is_absolute. cbv match.
  case_bool_decide as Hr0.
  - subst r. change (pieces (as_path [] ++ [] ++ norm)) with ([] :: pieces norm). by rewrite walk_cons.
  - unfold pieces. change ([slash] ++ norm) with (slash :: norm). rewrite split_by_app by done.
    fold (pieces norm) (pieces (as_path r)).
    rewrite pieces_as_path by (by apply clean_no_slash, Hr). rewrite (bool_decide_false _ Hr0).
    rewrite <- app_comm_cons, walk_cons, bool_decide_true by done. cbn [orb].
    by rewrite (walk_along_app fs false MAXSYMLINKS [] r).
Qed.

Lemma prefix_real_dir r l : r `prefix_of` l → real_dir fs l → real_dir fs r.
Proof.
  intros [more ->] [Ha Hd Hc]. split.
  - intros k Hk. specialize (Ha k). rewrite take_app_le in Ha by lia. apply Ha. rewrite length_app. lia.
  - destruct more; [by rewrite app_nil_r in Hd|]. specialize (Ha (length r)). rewrite take_app_length in Ha.
    unfold is_dir. rewrite Ha; [done|]. rewrite length_app. simpl. lia.
  - by apply Forall_app in Hc as [? _].
Qed.

(** A subdirectory of what was resolved resolves under the longer path. *)
Lemma resolve_child root rel norm dir n b :
  normalize_rel rel = Ok norm → resolve_within cwd fs root norm = Ok dir →
  fs !! dir = Some (Dir true) → clean n → fs !! (dir ++ [n]) = Some (Dir b) →
  resolve_within cwd fs root (child_rel norm n) = Ok (dir ++ [n]).
Proof.
  intros Hnorm Hdir Hs Hn Hb.
  destruct (normalize_rel_Ok _ _ Hnorm) as (parts & Hparts & ->).
  apply resolve_within_Ok in Hdir as (norm' & r & Hn' & Hr & Hl & Hp & Hd).
  rewrite normalize_join in Hn' by done. injection Hn' as <-.
  assert (Hdir : real_dir fs dir) by (apply landed_dir; [by eapply canonicalize_landed|done]).
  assert (Hclean : Forall clean (parts ++ [n])) by (apply Forall_app; split; [done|by constructor]).
  pose proof (prefix_real_dir _ _ Hp Hdir) as Hrd.
  unfold resolve_within. rewrite join_snoc, normalize_join by done. cbn [mbind result_bind]. rewrite Hr.
  cbn [map_err mbind result_bind]. rewrite canonicalize_join in * by (done || by apply join_relative).
  rewrite pieces_join_if in * by (by apply clean_no_slash).
  rewrite (bool_decide_false (parts ++ [n] = [])) by (by destruct parts).
  assert (Hl' : walk fs false MAXSYMLINKS r parts = Ok dir).
  { case_bool_decide as Hne; [|done]. subst parts. by rewrite walk_cons in Hl. }
  destruct (walk_app fs MAXSYMLINKS r parts [n] dir Hl' Hd) as [links' ->].
  destruct Hn as (H1 & H2 & H3 & H4).
  rewrite walk_cons, (bool_decide_false _ H1), (bool_decide_false _ H2), (bool_decide_false _ H3), Hs, Hb.
  cbn [orb]. rewrite walk_nil. cbn [map_err mbind result_bind]. unfold starts_with, is_dir.
  rewrite bool_decide_true by (by apply prefix_app_r). by rewrite Hb.
Qed.

(** The picker shows, in order and without repetition, only names the host would
    accept: each resolves, as the phone will send it, to a directory inside the
    root; and it shows every visible subdirectory, but for those after the first
    500. *)
Theorem listing_offers_what_resolves root rel norm ns :
  list_dirs cwd fs true root rel = Ok (norm, ns) →
  normalize_rel rel = Ok norm ∧ (length ns ≤ MAX_WORKSPACE_DIR_ENTRIES)%nat ∧ NoDup ns ∧
  StronglySorted bytes_le ns ∧
  (∀ n, n ∈ ns → starts_with_dot n = false ∧
     ∃ l, resolve_within cwd fs root (child_rel norm n) = Ok l) ∧
  ∃ dir, resolve_within cwd fs root norm = Ok dir ∧
    ∀ n b, fs !! dir = Some (Dir true) → fs !! (dir ++ [n]) = Some (Dir b) → clean n →
      valid_utf8 n = true → starts_with_dot n = false →
      n ∈ ns ∨ length ns = MAX_WORKSPACE_DIR_ENTRIES ∧ ∀ m, m ∈ ns → bytes_le m n.
Proof.
  unfold list_dirs. destruct (normalize_rel rel) as [norm'|] eqn:Hnorm; [|done]. cbn [mbind result_bind].
  destruct (resolve_within cwd fs root norm') as [dir|] eqn:Hdir; [|done]. cbn [mbind result_bind negb].
  set (all := merge_sort bytes_le _). intros [= <- <-].
  assert (Hall : all ≡ₚ filter (λ n, listed cwd fs root norm' dir n = true) (entries fs dir))
    by apply merge_sort_Permutation.
  assert (Hin : ∀ n, n ∈ all ↔ listed cwd fs root norm' dir n = true ∧ n ∈ entries fs dir)
    by (intros n; by rewrite Hall, list_elem_of_filter).
  assert (Hsorted : StronglySorted bytes_le all) by (apply StronglySorted_merge_sort; apply _).
  assert (Hnd : NoDup all) by (rewrite Hall; apply NoDup_filter, entries_NoDup).
  rewrite <- (take_drop MAX_WORKSPACE_DIR_ENTRIES all) in Hsorted, Hnd.
  assert (Hsub : ∀ n, n ∈ take MAX_WORKSPACE_DIR_ENTRIES all → n ∈ all).
  { intros n Hn. rewrite <- (take_drop MAX_WORKSPACE_DIR_ENTRIES all). apply elem_of_app. by left. }
  split_and!; [done| | | | |].
  - rewrite length_take. lia.
  - by apply NoDup_app in Hnd as [? _].
  - by apply StronglySorted_app_1_l in Hsorted.
  - intros n [Hl _]%Hsub%Hin. unfold listed in Hl. rewrite !andb_true_iff, negb_true_iff in Hl.
    destruct Hl as [[[_ Hdot] _] Hres]. split; [done|].
    destruct (resolve_within cwd fs root (child_rel norm' n)); [by eexists|done].
  - exists dir. split; [done|]. intros n b Hs Hb Hn Hutf Hdot.
    assert (Hn_in : n ∈ all).
    { apply Hin. split; [|apply entries_spec; by eexists]. unfold listed.
      rewrite Hutf, Hdot, (resolve_child root rel norm' dir n b) by done. simpl.
      pose proof (resolve_within_Ok _ _ _ Hdir) as (? & r & _ & _ & Hl & _ & Hd).
      assert (Hrd : real_dir fs (dir ++ [n])).
      { eapply real_dir_snoc; [|done..]. apply landed_dir; [by eapply canonicalize_landed|done]. }
      assert (Hnode : dir ++ [n] ≠ [] → match fs !! (dir ++ [n]) with
        Some (Link _) => False | None => false = true | _ => True end) by (by rewrite Hb).
      rewrite canonicalize_as_path, (walk_as_path fs false MAXSYMLINKS _ Hroot (real_dir_real _ _ Hrd) Hnode).
      by rewrite (rd_dir _ _ Hrd). }
    rewrite <- (take_drop MAX_WORKSPACE_DIR_ENTRIES all) in Hn_in. apply elem_of_app in Hn_in as [?|Hlate]; [by left|].
    right. split.
    + rewrite length_take. destruct (drop MAX_WORKSPACE_DIR_ENTRIES all) eqn:Hdrop; [by apply not_elem_of_nil in Hlate|].
      pose proof (f_equal length Hdrop) as Hlen. rewrite length_drop in Hlen. simpl in Hlen. lia.
    + intros m Hm. by eapply StronglySorted_app_1_elem_of.
Qed.
End confinement.

(** *** Between the check and the open *)

(** The directories on the way to what was resolved are still those the check saw, and
    no link was put at its end; everything else may have changed. *)
Definition steady (fs fs' : FileSystem) (l : location) : Prop :=
  (∀ k, (k < length l)%nat → fs' !! take k l = fs !! take k l) ∧
  match fs' !! l with Some (Link _) => False | _ => True end.

(** The way to a name leads through its directory, which the walk must be able to
    search. *)
Lemma open_child fs create d name l :
  real_dir fs [] → landed fs false d → clean name →
  walk fs create MAXSYMLINKS [] (pieces (as_path (d ++ [name]))) = Ok l →
  real_dir fs d ∧ fs !! d = Some (Dir true) ∧ walk fs create MAXSYMLINKS d [name] = Ok l.
Proof.
  intros Hroot Hd Hname. assert (Hns : Forall no_slash (d ++ [name])).
  { apply Forall_app. split; [|by constructor; [apply Hname|]].
    apply clean_no_slash. destruct Hd as [H|[[H _]|[_ [H _]]]]; apply H. }
  rewrite pieces_as_path by done. rewrite bool_decide_false by (by destruct d).
  rewrite walk_cons. rewrite (bool_decide_true ([] = [])) by done. cbn [orb].
  pose proof Hname as (H1 & H2 & H3 & H4).
  destruct Hd as [Hd|[[Hd [c Hf]]|[? _]]]; [| |done].
  - rewrite (walk_along_app fs create MAXSYMLINKS [] d) by done. rewrite app_nil_l. intros Hw.
    split_and!; [done| |done].
    rewrite walk_cons, (bool_decide_false _ H1), (bool_decide_false _ H2), (bool_decide_false _ H3) in Hw.
    cbn [orb] in Hw. by destruct (fs !! d) as [[[]|?|?]|].
  - destruct d as [|f d' _] using rev_ind.
    { pose proof (rd_dir _ _ Hroot) as Hdir. unfold is_dir in Hdir. by rewrite Hf in Hdir. }
    intros Hw. exfalso. rewrite <- app_assoc in Hw. rewrite (walk_along_app fs create MAXSYMLINKS [] d') in Hw.
    + destruct Hd as [Ha Hc]. apply Forall_app in Hc as [_ Hc]. inversion Hc as [|? ? (F1 & F2 & F3 & F4)]; subst.
      rewrite app_nil_l in Hw. cbn [app] in Hw.
      rewrite walk_cons, (bool_decide_false _ F1), (bool_decide_false _ F2), (bool_decide_false _ F3) in Hw.
      cbn [orb] in Hw. rewrite Hf in Hw. destruct (fs !! d') as [[[]|?|?]|]; done.
    + simpl. destruct Hd as [Ha Hc]. split.
      * intros k Hk. specialize (Ha k). rewrite take_app_le in Ha by lia. apply Ha. rewrite length_app. lia.
      * specialize (Ha (length d')). rewrite take_app_length in Ha. unfold is_dir. rewrite Ha; [done|].
        rewrite length_app. simpl. lia.
      * by apply Forall_app in Hc as [? _].
Qed.

(** Opening what was resolved opens just that. *)
Lemma open_real fs create l l' :
  real_dir fs [] → real fs l → match fs !! l with Some (Link _) => False | _ => True end →
  walk fs create MAXSYMLINKS [] (pieces (as_path l)) = Ok l' → l' = l.
Proof.
  intros Hroot Hl Hend Hw. destruct (fs !! l) as [node|] eqn:Hn.
  - rewrite walk_as_path in Hw by (done || rewrite Hn; destruct node; done). by injection Hw.
  - destruct l as [|n d _] using rev_ind.
    { pose proof (rd_dir _ _ Hroot) as Hdir. unfold is_dir in Hdir. by rewrite Hn in Hdir. }
    pose proof Hl as [Ha Hc]. apply Forall_app in Hc as [Hc Hcn].
    assert (Hdt : fs !! d = Some (Dir true)).
    { rewrite <- (take_app_length d [n]). apply Ha. rewrite length_app. simpl. lia. }
    assert (Hd : real_dir fs d).
    { split; [|unfold is_dir; by rewrite Hdt|done]. intros k Hk. rewrite <- (take_app_le d [n]) by lia.
      apply Ha. rewrite length_app. simpl. lia. }
    inversion Hcn as [|? ? Hname]; subst.
    destruct (open_child fs create d n l' Hroot (or_introl Hd) Hname Hw) as (_ & _ & Hstep).
    destruct Hname as (H1 & H2 & H3 & H4).
    rewrite walk_cons, (bool_decide_false _ H1), (bool_decide_false _ H2), (bool_decide_false _ H3), Hdt, Hn in Hstep.
    cbn [orb] in Hstep. destruct create; [|done]. by injection Hstep.
Qed.

Lemma steady_real fs fs' l : steady fs fs' l → real fs l → real fs' l.
Proof. intros [Hs _] [Ha Hc]. split; [|done]. intros k Hk. rewrite Hs by done. by apply Ha. Qed.

Lemma steady_landed fs fs' d name :
  steady fs fs' (d ++ [name]) → landed fs false d → landed fs' false d.
Proof.
  intros [Hs _] Hd.
  assert (Hk : ∀ k, (k ≤ length d)%nat → fs' !! take k d = fs !! take k d).
  { intros k Hk. rewrite <- (take_app_le d [name]) by lia. apply Hs. rewrite length_app. simpl. lia. }
  assert (Hat : fs' !! d = fs !! d) by (specialize (Hk (length d)); rewrite take_ge in Hk by lia; by apply Hk).
  assert (Hup : ∀ P : option Node → Prop, (∀ k, (k < length d)%nat → P (fs !! take k d)) →
    ∀ k, (k < length d)%nat → P (fs' !! take k d)).
  { intros P HP k Hlt. rewrite Hk by lia. by apply HP. }
  destruct Hd as [[Ha Hd Hc]|[[[Ha Hc] Hf]|[? _]]]; [left|right; left|done].
  - split; [by apply (Hup (λ n, n = Some (Dir true)))|unfold is_dir in *; by rewrite Hat|done].
  - split; [split; [by apply (Hup (λ n, n = Some (Dir true)))|done]|by rewrite Hat].
Qed.

(** *** Lines *)

(** [lines] are the lines of a file: each ends with its newline, but for the last,
    which may lack it. *)
Definition is_lines (content : bytes) (lines : list bytes) : Prop :=
  concat lines = content ∧
  ∀ i l, lines !! i = Some l →
    (∃ body, l = body ++ [Byte.x0a] ∧ Byte.x0a ∉ body) ∨ S i = length lines ∧ l ≠ [] ∧ Byte.x0a ∉ l.

Lemma concat_split_inclusive b : concat (split_inclusive b) = b.
Proof.
  induction b as [|c b IH]; simpl; [done|]. case_bool_decide; simpl; [by rewrite IH|].
  destruct (split_inclusive b); simpl in *; by rewrite <- IH.
Qed.

Lemma split_inclusive_lines b : is_lines b (split_inclusive b).
Proof.
  split; [apply concat_split_inclusive|].
  induction b as [|c b IH]; simpl; [done|]. intros i l. case_bool_decide as Hc.
  - destruct i as [|i]; simpl; [|intros Hl%IH; by intuition lia].
    intros [= <-]. left. exists []. split; [by rewrite Hc|apply not_elem_of_nil].
  - destruct (split_inclusive b) as [|chunk chunks] eqn:Hs.
    + destruct i as [|i]; simpl; [|done]. intros [= <-]. right. split_and!; [done..|].
      rewrite list_elem_of_singleton. congruence.
    + destruct i as [|i]; simpl.
      * intros [= <-]. destruct (IH 0%nat chunk eq_refl) as [(body & -> & Hb)|(Hlen & Hne & Hb)].
        -- left. exists (c :: body). split; [done|]. rewrite not_elem_of_cons. split; [congruence|done].
        -- right. split_and!; [done..|]. rewrite not_elem_of_cons. split; [congruence|done].
      * intros Hl. apply (IH (S i) l) in Hl. done.
Qed.

(** *** Agents, whose reads and writes check first and open later *)



(** *** Reading a file in windows *)

(** An agent that reads a file window by window gets all of it: no line is lost,
    repeated or cut, wherever the windows begin and however long they are. *)
Theorem line_windows_tile content line limit :
  0 <= limit → 1 <= line →
  select_lines content None None = content ∧
  select_lines content (Some line) None =
    select_lines content (Some line) (Some limit) ++ select_lines content (Some (line + limit)) None.
Proof.
  intros Hlimit Hline. unfold select_lines. simpl. split; [apply concat_split_inclusive|].
  rewrite !Z.max_l by lia. replace (line + limit - 1) with ((line - 1) + limit) by lia.
  rewrite Z2Nat.inj_add by lia. rewrite <- concat_app, <- drop_drop.
  by rewrite take_drop.
Qed.

(** ** Which roots are served *)

Theorem home_is_served_only_when_named setting home :
  Root_Home ∈ terminal_roots_from setting home →
  home = true ∧ ∀ raw, setting = Some raw →
    ∃ token, token ∈ split_by (λ c, c =? 44) raw ∧ eq_ignore_ascii_case (trim token) (str_chars "home") = true.
Proof.
  unfold terminal_roots_from. destruct setting as [raw|]; destruct home; simpl.
  - destruct (existsb _ _) eqn:He; simpl.
    + intros _. split; [done|]. intros ? [= <-]. apply existsb_exists in He as (t & Ht & Heq).
      exists t. split; [by apply list_elem_of_In|done].
    + intros Hin. by apply list_elem_of_singleton in Hin.
  - rewrite andb_false_r. intros Hin. by apply list_elem_of_singleton in Hin.
  - intros _. split; [done|]. by intros ? [=].
  - intros Hin. by apply list_elem_of_singleton in Hin.
Qed.

Module WorkspaceExamples.
#[local] Transparent gmap_empty.
Definition name (s : string) : bytes := str_bytes s.
Definition at_ (ns : list string) : location := name <$> ns.

(** A workspace with a file, a directory, a link out of it and one that leads
    nowhere. *)
Definition tree : FileSystem :=
  list_to_map
    [(at_ [], Dir true); (at_ ["w"], Dir true); (at_ ["etc"], Dir true);
     (at_ ["etc"; "passwd"], File (str_bytes "root"));
     (at_ ["w"; "src"], Dir true); (at_ ["w"; ".git"], Dir true);
     (at_ ["w"; "src"; "a"], File (str_bytes "x"));
     (at_ ["w"; "out"], Link (str_bytes "../etc")); (at_ ["w"; "in"], Link (str_bytes "/w/src"));
     (at_ ["w"; "nowhere"], Link (str_bytes "/etc/new")); (at_ ["home"], Dir true)].

Lemma tree_root : real_dir tree [].
Proof. split; [simpl; lia|vm_compute; reflexivity|constructor]. Qed.

Example links_out_are_refused :
  resolve_within [] tree (str_bytes "/w") (str_bytes "out") = Err Escapes ∧
  is_ok (write_acp_text_file [] tree tree (str_bytes "/w") (str_bytes "/w/nowhere") []) = false ∧
  read_acp_text_file [] tree tree (str_bytes "/w") (str_bytes "/w/out/passwd") None None = Err Restricted.
Proof. split_and!; by_vm. Qed.

Lemma resolve_witness :
  ∃ r, canonicalize [] tree (str_bytes "/w") = Ok r ∧ r `prefix_of` at_ ["w"; "src"] ∧
    is_dir tree (at_ ["w"; "src"]) = true ∧
    (∀ k, (k < length (at_ ["w"; "src"]))%nat → tree !! take k (at_ ["w"; "src"]) = Some (Dir true)) ∧
    canonicalize [] tree (as_path (at_ ["w"; "src"])) = Ok (at_ ["w"; "src"]).
Proof.
  apply (resolve_within_confines [] tree tree_root tree_root (str_bytes "/w") (str_bytes "in")).
  vm_compute. reflexivity.
Defined.

Lemma scope_witness :
  ∃ r h home', Some (str_bytes "/home") = Some home' ∧ canonicalize [] tree (str_bytes "/w") = Ok r ∧
    canonicalize [] tree home' = Ok h ∧ ¬ r `prefix_of` h.
Proof.
  apply (project_scope_excludes_home [] tree (Some (str_bytes "/home")) (str_bytes "/w")).
  vm_compute. reflexivity.
Defined.

(** Between the check and the open the agent's own tools changed other files. *)
Definition moved_on : FileSystem :=
  <[at_ ["w"; "src"; "a"] := File (str_bytes "1" ++ [Byte.x0a] ++ str_bytes "2" ++ [Byte.x0a] ++ str_bytes "3")]>
    (delete (at_ ["w"; "out"]) tree).

Lemma moved_on_root : real_dir moved_on [].
Proof. split; [simpl; lia|vm_compute; reflexivity|constructor]. Qed.

Lemma steady_below_src n :
  match moved_on !! at_ ["w"; "src"; n] with Some (Link _) => False | _ => True end →
  steady tree moved_on (at_ ["w"; "src"; n]).
Proof. intros Hn. split; [|done]. intros [|[|[|]]] Hk; [vm_compute; reflexivity..|simpl in Hk; lia]. Qed.


Definition written : FileSystem :=
  unwrap_or (write_acp_text_file [] tree moved_on (str_bytes "/w") (str_bytes "/w/in/b") (str_bytes "y")) ∅.


Lemma listing_witness :
  normalize_rel (str_bytes "./") = Ok [] ∧ (length [name "in"; name "src"] ≤ MAX_WORKSPACE_DIR_ENTRIES)%nat ∧
  NoDup [name "in"; name "src"] ∧ StronglySorted bytes_le [name "in"; name "src"] ∧
  (∀ n, n ∈ [name "in"; name "src"] → starts_with_dot n = false ∧
     ∃ l, resolve_within [] tree (str_bytes "/w") (child_rel [] n) = Ok l) ∧
  ∃ dir, resolve_within [] tree (str_bytes "/w") [] = Ok dir ∧
    ∀ n b, tree !! dir = Some (Dir true) → tree !! (dir ++ [n]) = Some (Dir b) → clean n →
      valid_utf8 n = true → starts_with_dot n = false →
      n ∈ [name "in"; name "src"] ∨ length [name "in"; name "src"] = MAX_WORKSPACE_DIR_ENTRIES ∧
      ∀ m, m ∈ [name "in"; name "src"] → bytes_le m n.
Proof.
  apply (listing_offers_what_resolves [] tree tree_root tree_root (str_bytes "/w") (str_bytes "./")).
  vm_compute. reflexivity.
Defined.

Lemma windows_witness :
  select_lines (str_bytes "ab") None None = str_bytes "ab" ∧
  select_lines (str_bytes "ab") (Some 1) None =
    select_lines (str_bytes "ab") (Some 1) (Some 1) ++ select_lines (str_bytes "ab") (Some (1 + 1)) None.
Proof. apply (line_windows_tile (str_bytes "ab") 1 1); lia. Defined.

(** The tree between the check and the write: a directory became a link. *)
Definition swapped : FileSystem := <[at_ ["w"; "src"] := Link (str_bytes "/etc")]> (delete (at_ ["w"; "src"; "a"]) tree).
Definition escaped : FileSystem :=
  unwrap_or (write_acp_text_file [] tree swapped (str_bytes "/w") (str_bytes "/w/src/a") (str_bytes "x")) ∅.
End WorkspaceExamples.

(** The check binds only the tree it looked at: when a directory of the
    workspace becomes a link between the check and the write, the write goes
    through the link, to a file outside the workspace. *)
Theorem raced_write_leaves_the_workspace :
  ∃ fs fs' fs'' workspace requested content r l,
    real_dir fs [] ∧ real_dir fs' [] ∧
    write_acp_text_file [] fs fs' workspace requested content = Ok fs'' ∧
    canonicalize [] fs workspace = Ok r ∧ canonicalize [] fs' workspace = Ok r ∧ ¬ r `prefix_of` l ∧
    fs !! l = fs' !! l ∧ fs'' !! l = Some (File content) ∧ fs' !! l ≠ Some (File content).
Proof.
  exists WorkspaceExamples.tree, WorkspaceExamples.swapped,
    WorkspaceExamples.escaped,
    (str_bytes "/w"), (str_bytes "/w/src/a"), (str_bytes "x"),
    (WorkspaceExamples.at_ ["w"]), (WorkspaceExamples.at_ ["etc"; "a"]).
  split_and!.
  - apply WorkspaceExamples.tree_root.
  - split; [simpl; lia|vm_compute; reflexivity|constructor].
  - apply unwrap_or_ok. vm_compute. reflexivity.
  - by_vm.
  - by_vm.
  - apply (bool_decide_unpack _). vm_compute. exact I.
  - by_vm.
  - by_vm.
  - vm_compute. discriminate.
Qed.
