(* ===== verification/Active.v ===== *)
(** * Active: which phones are connected

    [crates/host/src/active.rs]: the registry that holds one live connection per
    device, aborts those whose token is gone, and is mirrored to a file for
    [portty-host peers]. Registering, deregistering and persisting take several
    locks one after the other; each stretch under a lock is a step, and the
    steps of all tasks interleave. A client task is a number; to abort it is to
    list that number. *)

From S2P Require Import Prelude Handshake.

Record ConnEntry := { device_id : DeviceId; name : string; since : Z }.

(** The file, or what an absent or unreadable one stands for. *)
Record ActiveState := {
  daemon_pid : Z;
  connected : list ConnEntry;
  last_seen_at : gmap DeviceId Z;
}.

Definition no_state : ActiveState := {| daemon_pid := 0; connected := []; last_seen_at := ∅ |}.

Definition load (file : option ActiveState) : ActiveState := default no_state file.

(** Whether a process lives is the operating system's answer. *)
Definition daemon_alive (pid_alive : Z → bool) (s : ActiveState) : bool :=
  negb (daemon_pid s =? 0) && pid_alive (daemon_pid s).

Definition connected_since (pid_alive : Z → bool) (s : ActiveState) (id : DeviceId) : option Z :=
  if negb (daemon_alive pid_alive s) then None
  else since <$> List.find (λ c, bool_decide (device_id c = id)) (connected s).

Definition last_seen_of (s : ActiveState) (id : DeviceId) : option Z := last_seen_at s !! id.

(** [clear_connected]; [wrote] says whether the new file got into place. *)
Definition clear_connected (file : option ActiveState) (wrote : bool) : option ActiveState :=
  let prior := load file in
  if (daemon_pid prior =? 0) && bool_decide (connected prior = []) then file
  else if wrote then Some {| daemon_pid := 0; connected := []; last_seen_at := last_seen_at prior |} else file.

(** ** The registry *)

Record Conn := { conn_id : Z; abort : nat; conn_name : string; conn_since : Z }.

(** Where an operation that is under way stands. *)
Inductive Task :=
| TRegister (client : nat) (id : Z) (device : DeviceId) (name : string)
| TStamp (device : DeviceId)
| TAbort (client : nat)               (* a second after a notice was sent *)
| TPersist
| TLocked
| TSnapped (connected : list ConnEntry)
| TSeen (connected : list ConnEntry) (seen : gmap DeviceId Z).

Record ActiveDevices := {
  inner : gmap DeviceId Conn;
  last_seen : gmap DeviceId Z;
  next_connection_id : Z;
  file : option ActiveState;
  tasks : list Task;
  clients : list (DeviceId * Z);      (* the client tasks: their devices and numbers *)
  inserted : list nat;                (* clients that were registered *)
  aborted : list nat;
  ended : list nat;                   (* clients whose clean-up has begun *)
}.

Definition active_new (prior : option ActiveState) : ActiveDevices :=
  {| inner := ∅; last_seen := last_seen_at (load prior); next_connection_id := 1; file := prior;
     tasks := [TPersist]; clients := []; inserted := []; aborted := []; ended := [] |}.

Definition entry_of (e : DeviceId * Conn) : ConnEntry :=
  {| device_id := e.1; name := conn_name e.2; since := conn_since e.2 |}.
Definition entries (r : ActiveDevices) : list ConnEntry := entry_of <$> map_to_list (inner r).

Definition with_tasks (r : ActiveDevices) (ts : list Task) : ActiveDevices :=
  {| inner := inner r; last_seen := last_seen r; next_connection_id := next_connection_id r;
     file := file r; tasks := ts; clients := clients r; inserted := inserted r; aborted := aborted r;
     ended := ended r |}.

Section daemon.
Context (pid : Z).

(** [register] up to its lock: the number. *)
Definition register (r : ActiveDevices) (device : DeviceId) (name : string) : ActiveDevices :=
  let id := next_connection_id r in
  {| inner := inner r; last_seen := last_seen r;
     next_connection_id := wrapping_add u64_max id 1; file := file r;
     tasks := tasks r ++ [TRegister (length (clients r)) id device name];
     clients := clients r ++ [(device, id)]; inserted := inserted r; aborted := aborted r;
     ended := ended r |}.

(** Its insertion; who was there before is aborted. *)
Definition insert_conn (r : ActiveDevices) (client : nat) (id : Z) (device : DeviceId) (name : string)
    (now : Z) (rest : list Task) : ActiveDevices :=
  {| inner := <[device := {| conn_id := id; abort := client; conn_name := name; conn_since := now |}]> (inner r);
     last_seen := last_seen r; next_connection_id := next_connection_id r; file := file r;
     tasks := TPersist :: rest; clients := clients r; inserted := client :: inserted r;
     aborted := match inner r !! device with Some old => abort old :: aborted r | None => aborted r end;
     ended := ended r |}.

(** [deregister], by the client whose task ended. *)
Definition deregister (r : ActiveDevices) (client : nat) : ActiveDevices :=
  match clients r !! client with
  | Some (device, id) =>
      let mine := match inner r !! device with Some c => conn_id c =? id | None => false end in
      {| inner := if mine then delete device (inner r) else inner r; last_seen := last_seen r;
         next_connection_id := next_connection_id r; file := file r;
         tasks := if mine then TStamp device :: tasks r else tasks r; clients := clients r;
         inserted := inserted r; aborted := aborted r; ended := client :: ended r |}
  | None => r
  end.

Definition stamp (r : ActiveDevices) (device : DeviceId) (now : Z) (rest : list Task) : ActiveDevices :=
  {| inner := inner r; last_seen := <[device := now]> (last_seen r);
     next_connection_id := next_connection_id r; file := file r; tasks := TPersist :: rest;
     clients := clients r; inserted := inserted r; aborted := aborted r; ended := ended r |}.

Definition abort_all (r : ActiveDevices) (cs : list nat) : ActiveDevices :=
  {| inner := inner r; last_seen := last_seen r; next_connection_id := next_connection_id r;
     file := file r; tasks := tasks r; clients := clients r; inserted := inserted r;
     aborted := cs ++ aborted r; ended := ended r |}.

Definition revoked (r : ActiveDevices) (valid : list DeviceId) : list Conn :=
  snd <$> filter (λ e, e.1 ∉ valid) (map_to_list (inner r)).

(** [drop_revoked], with the number of connections dropped. *)
Definition drop_revoked (r : ActiveDevices) (valid : list DeviceId) : ActiveDevices * nat :=
  (abort_all r (abort <$> revoked r valid), length (revoked r valid)).

(** [notify_revoked]: the connection there is now is sent the notice, and aborted a
    second later whether or not it took it. *)
Definition notify_revoked (r : ActiveDevices) (device : DeviceId) : ActiveDevices :=
  match inner r !! device with
  | Some c => with_tasks r (tasks r ++ [TAbort (abort c)])
  | None => r
  end.

Definition holds_lock (t : Task) : bool :=
  match t with TLocked | TSnapped _ | TSeen _ _ => true | _ => false end.

(** [persist], one lock at a time; [ok] says whether the new file got into place. *)
Definition persist_step (r : ActiveDevices) (t : Task) (rest : list Task) (ok : bool) : ActiveDevices :=
  match t with
  | TPersist => if existsb holds_lock rest then r else with_tasks r (TLocked :: rest)
  | TLocked => with_tasks r (TSnapped (entries r) :: rest)
  | TSnapped es => with_tasks r (TSeen es (last_seen r) :: rest)
  | TSeen es seen =>
      {| inner := inner r; last_seen := last_seen r; next_connection_id := next_connection_id r;
         file := if ok then Some {| daemon_pid := pid; connected := es; last_seen_at := seen |} else file r;
         tasks := rest; clients := clients r; inserted := inserted r; aborted := aborted r;
         ended := ended r |}
  | _ => r
  end.

Inductive ActiveEvent :=
| Register (device : DeviceId) (name : string)
| Deregister (client : nat)
| DropRevoked (valid : list DeviceId)
| NotifyRevoked (device : DeviceId)
| RunTask (i : nat) (now : Z) (ok : bool).

Definition active_step (r : ActiveDevices) (e : ActiveEvent) : ActiveDevices :=
  match e with
  | Register device name => register r device name
  | Deregister client => if bool_decide (client ∈ inserted r) then deregister r client else r
  | DropRevoked valid => (drop_revoked r valid).1
  | NotifyRevoked device => notify_revoked r device
  | RunTask i now ok =>
      match tasks r !! i with
      | Some t =>
          let rest := delete i (tasks r) in
          match t with
          | TRegister client id device name => insert_conn r client id device name now rest
          | TStamp device => stamp r device now rest
          | TAbort client => abort_all (with_tasks r rest) [client]
          | _ => persist_step r t rest ok
          end
      | None => r
      end
  end.

Definition active_run (prior : option ActiveState) (es : list ActiveEvent) : ActiveDevices :=
  foldl active_step (active_new prior) es.
End daemon.

(** ** One live connection per device *)

(** A client that was registered, was not aborted, and whose clean-up has not
    begun. *)
Definition live (r : ActiveDevices) (client : nat) (device : DeviceId) : Prop :=
  client ∈ inserted r ∧ client ∉ aborted r ∧ client ∉ ended r ∧ ∃ id, clients r !! client = Some (device, id).

Record Tracked (r : ActiveDevices) : Prop := {
  tr_ids : ∀ t d id, clients r !! t = Some (d, id) → id = 1 + Z.of_nat t;
  tr_next : next_connection_id r = 1 + Z.of_nat (length (clients r));
  tr_tasks : ∀ t id d n, TRegister t id d n ∈ tasks r → clients r !! t = Some (d, id);
  tr_entry : ∀ d c, inner r !! d = Some c → clients r !! abort c = Some (d, conn_id c);
  tr_inserted : ∀ t, t ∈ inserted r → is_Some (clients r !! t);
  tr_live : ∀ t d, live r t d → ∃ c, inner r !! d = Some c ∧ abort c = t;
}.

Lemma tracked_same r r' :
  Tracked r → clients r' = clients r → next_connection_id r' = next_connection_id r →
  inner r' = inner r → inserted r' = inserted r → ended r' = ended r → aborted r ⊆ aborted r' →
  (∀ t id d n, TRegister t id d n ∈ tasks r' → TRegister t id d n ∈ tasks r) → Tracked r'.
Proof.
  intros [H1 H2 H3 H4 Hi H5] Ec En Ei Eins Ee Ha Ht. split; rewrite ?Ec, ?En, ?Ei, ?Eins; eauto.
  intros t d (Hin & Hna & Hne & Hc). rewrite Eins, Ee, Ec in *. apply H5. split_and!; try done. set_solver.
Qed.

Lemma tracked_register r d n :
  Tracked r → Z.of_nat (length (clients r)) < u64_max - 1 → Tracked (register r d n).
Proof.
  intros [H1 H2 H3 H4 Hi H5] Hlen. unfold register. split; simpl.
  - intros t d' id [?|[Hge Hid]]%lookup_app_Some; [by eauto|].
    apply list_lookup_singleton_Some in Hid as [Heq [= <- <-]]. rewrite H2. lia.
  - rewrite length_app, H2. unfold wrapping_add. simpl. rewrite Z.mod_small; lia.
  - intros t id d' n' [Hin|Hin]%elem_of_app; [by apply lookup_app_l_Some; eauto|].
    apply list_elem_of_singleton in Hin. injection Hin as -> -> -> ->.
    by rewrite lookup_app_r, Nat.sub_diag by lia.
  - intros d' c Hc. apply lookup_app_l_Some. eauto.
  - intros t Ht. destruct (Hi t Ht) as [x Hx]. exists x. by apply lookup_app_l_Some.
  - intros t d' (Hin & Hna & Hne & id & Hid). simpl in *. apply H5. split_and!; try done.
    destruct (Hi t Hin) as [x Hx]. rewrite (lookup_app_l_Some _ _ _ _ Hx) in Hid. injection Hid as ->. by exists id.
Qed.

Lemma tracked_insert r i client id d n now :
  Tracked r → tasks r !! i = Some (TRegister client id d n) →
  Tracked (insert_conn r client id d n now (delete i (tasks r))).
Proof.
  intros [H1 H2 H3 H4 Hi H5] Ht. pose proof (H3 _ _ _ _ (list_elem_of_lookup_2 _ _ _ Ht)) as Hc.
  split; simpl; try done.
  - intros t id' d' n' [?|Hin]%elem_of_cons; [done|]. by eapply H3, list_elem_of_delete_inv.
  - intros d' c [[<- <-]|[_ Hd]]%lookup_insert_Some; [done|by apply H4].
  - intros t [->|Hin]%elem_of_cons; [by eexists|by apply Hi].
  - intros t d' (Hin & Hna & Hne & id' & Hid). simpl in *. destruct (decide (t = client)) as [->|Hnt].
    + rewrite Hc in Hid. injection Hid as <- <-. eexists. by rewrite lookup_insert_eq.
    + apply elem_of_cons in Hin as [?|Hin]; [done|].
      destruct (H5 t d') as (c & Hd' & Hab).
      { split_and!; try done; [|by eexists]. destruct (inner r !! d); [set_solver|done]. }
      destruct (decide (d = d')) as [->|Hdd]; [|exists c; by rewrite lookup_insert_ne].
      exfalso. rewrite Hd' in Hna. apply Hna. rewrite <- Hab. left.
Qed.

Lemma tracked_deregister r client : Tracked r → Tracked (deregister r client).
Proof.
  intros [H1 H2 H3 H4 Hi H5]. unfold deregister. destruct (clients r !! client) as [[d id]|] eqn:Hc; [|by split].
  assert (Hmine : ∀ c, inner r !! d = Some c → conn_id c = id → abort c = client).
  { intros c Hd Hid. pose proof (H4 _ _ Hd) as Hcl. apply H1 in Hc. apply H1 in Hcl. lia. }
  split; simpl; try done.
  - intros t id' d' n' Hin. eapply H3. destruct (match inner r !! d with Some _ => _ | None => _ end); [|done].
    by apply elem_of_cons in Hin as [?|Hin].
  - intros d' c Hd. destruct (match inner r !! d with Some _ => _ | None => _ end); [|by apply H4].
    apply lookup_delete_Some in Hd as [_ Hd]. by apply H4.
  - intros t d' (Hin & Hna & Hne & Hid). simpl in *. apply not_elem_of_cons in Hne as [Hne1 Hne2].
    destruct (H5 t d') as (c & Hd' & Hab); [by split_and!|]. exists c. split; [|done].
    destruct (decide (d = d')) as [->|Hdd].
    + rewrite Hd'. destruct (Z.eqb_spec (conn_id c) id) as [Heq|]; [|done].
      destruct Hne1. rewrite <- Hab. by apply Hmine.
    + destruct (match inner r !! d with Some _ => _ | None => _ end); [|done]. by rewrite lookup_delete_ne.
Qed.

Definition is_register (e : ActiveEvent) : bool := match e with Register _ _ => true | _ => false end.
Definition registrations (es : list ActiveEvent) : Z := Z.of_nat (length (filter (λ e, is_register e = true) es)).

Section invariants.
Context (pid : Z).
Abbreviation step := (active_step pid).

Lemma tracked_step r e :
  Tracked r → (is_register e = true → Z.of_nat (length (clients r)) < u64_max - 1) →
  Tracked (step r e).
Proof.
  intros Hr He. destruct e as [d n|client|valid|d|i now ok]; simpl.
  - by apply tracked_register; auto.
  - case_bool_decide; [by apply tracked_deregister|done].
  - apply (tracked_same r); try done. simpl. set_solver.
  - unfold notify_revoked. destruct (inner r !! d); [|done]. apply (tracked_same r); try done. simpl.
    intros t id d' n' [?|Hin]%elem_of_app; [done|]. by apply list_elem_of_singleton in Hin.
  - destruct (tasks r !! i) as [t|] eqn:Ht; [|done].
    assert (Hdel : ∀ t id d n x, (∀ t id d n, x ≠ TRegister t id d n) →
      TRegister t id d n ∈ x :: delete i (tasks r) → TRegister t id d n ∈ tasks r).
    { intros t' id d n x Hx [Heq|Hin]%elem_of_cons; [by destruct (Hx t' id d n)|by eapply list_elem_of_delete_inv]. }
    assert (Hrest : ∀ t id d n, TRegister t id d n ∈ delete i (tasks r) → TRegister t id d n ∈ tasks r)
      by (intros ????; apply list_elem_of_delete_inv).
    destruct t; simpl; try (destruct (existsb _ _); [done|]);
      try (by apply tracked_insert); apply (tracked_same r); simpl; try done;
      first [by intros ????; apply Hdel | set_solver].
Qed.

Lemma clients_step r e :
  Z.of_nat (length (clients (step r e))) = Z.of_nat (length (clients r)) + Z.b2z (is_register e).
Proof.
  destruct e as [d n|client|valid|d|i now ok]; simpl.
  - rewrite length_app. simpl. lia.
  - case_bool_decide; [|lia]. unfold deregister. destruct (clients r !! client) as [[]|]; simpl; lia.
  - lia.
  - unfold notify_revoked. destruct (inner r !! d); simpl; lia.
  - destruct (tasks r !! i) as [[]|]; simpl; try lia. destruct (existsb _ _); simpl; lia.
Qed.

Lemma tracked_new prior : Tracked (active_new prior).
Proof.
  split; simpl; try done.
  - intros t id d n Hin. by apply list_elem_of_singleton in Hin.
  - intros t Hin. by apply not_elem_of_nil in Hin.
  - intros t d (Hin & _). by apply not_elem_of_nil in Hin.
Qed.

Lemma tracked_run prior es : registrations es < u64_max → Tracked (active_run pid prior es).
Proof.
  intros Hes. assert (Hall : Tracked (active_run pid prior es) ∧
    Z.of_nat (length (clients (active_run pid prior es))) = registrations es); [|apply Hall].
  revert Hes. induction es as [|e es IH] using rev_ind; intros Hes; [by split; [apply tracked_new|]|].
  unfold active_run in *. rewrite foldl_snoc, clients_step. unfold registrations in *.
  rewrite filter_app, filter_cons, filter_nil, length_app in *. destruct (is_register e) eqn:He; simpl in *.
  - destruct (IH ltac:(lia)) as [Ht Hn]. split; [|lia]. apply tracked_step; [done|]. lia.
  - destruct (IH ltac:(lia)) as [Ht Hn]. split; [|lia]. apply tracked_step; [done|]. congruence.
Qed.

(** C18 (safety). Dropping the revoked leaves none behind: whatever registrations, take-overs and
    clean-ups interleave, every registered client of a device without a token
    is then aborted or already cleaning up, since the registry knows the one
    connection of each device that lives. *)
Theorem no_revoked_client_stays prior es valid client device :
  registrations es < u64_max →
  let r := (drop_revoked (active_run pid prior es) valid).1 in
  client ∈ inserted r → (∃ id, clients r !! client = Some (device, id)) → device ∉ valid →
  client ∈ aborted r ∨ client ∈ ended r.
Proof.
  intros Hes r Hin Hc Hv. pose proof (tracked_run prior es Hes) as Hr.
  set (r0 := active_run pid prior es) in *.
  destruct (decide (client ∈ aborted r0)) as [Ha|Ha]; [left; simpl; set_solver|].
  destruct (decide (client ∈ ended r0)) as [He|He]; [by right|]. left.
  destruct (tr_live r0 Hr client device) as (c & Hd & <-); [by split_and!|].
  simpl. apply elem_of_app. left. apply list_elem_of_fmap_2. unfold revoked.
  apply (list_elem_of_fmap_2 snd _ (device, c)). apply list_elem_of_filter. split; [done|].
  by apply elem_of_map_to_list.
Qed.

(** A device has at most one live connection, and the one it has is the one a
    late clean-up of an older connection leaves alone. *)
Theorem one_live_connection_per_device prior es device c1 c2 :
  registrations es < u64_max →
  let r := active_run pid prior es in
  live r c1 device → live r c2 device →
  c1 = c2 ∧ ∀ old, old ≠ c1 → live (deregister r old) c1 device.
Proof.
  intros Hes r H1 H2. pose proof (tracked_run prior es Hes) as Hr. fold r in Hr.
  destruct (tr_live r Hr c1 device H1) as (c & Hc & Hab), (tr_live r Hr c2 device H2) as (c' & Hc' & Hab').
  split; [congruence|]. intros old Hold. destruct H1 as (Hi & Hna & Hne & Hid). unfold live, deregister.
  destruct (clients r !! old) as [[d id]|]; [|done]. simpl. split_and!; try done.
  apply not_elem_of_cons. auto.
Qed.
End invariants.

(** ** The mirror *)

(** A task that will take its snapshot after everything so far; and one whose snapshot
    is already what holds. *)
Definition will_snapshot (t : Task) : bool := match t with TStamp _ | TPersist | TLocked => true | _ => false end.
Definition up_to_date (r : ActiveDevices) (t : Task) : Prop :=
  match t with
  | TSnapped es => es = entries r
  | TSeen es seen => es = entries r ∧ seen = last_seen r
  | t => will_snapshot t = true
  end.

Definition mirrored (pid : Z) (r : ActiveDevices) : Prop :=
  file r = Some {| daemon_pid := pid; connected := entries r; last_seen_at := last_seen r |}.

Abbreviation holders := (count_if holds_lock).

(** What is registered and what is on disk agree, or a task will see to it. *)
Record Mirroring (pid : Z) (r : ActiveDevices) : Prop := {
  mi_holders : (holders (tasks r) ≤ 1)%nat;
  mi_cover : (∃ t, t ∈ tasks r ∧ up_to_date r t) ∨ mirrored pid r ∧ holders (tasks r) = 0%nat;
}.

(** Nothing changed that a snapshot shows, and no task went. *)
Lemma mirroring_same pid r r' ts :
  Mirroring pid r → inner r' = inner r → last_seen r' = last_seen r → file r' = file r →
  tasks r' ≡ₚ ts ++ tasks r → holders ts = 0%nat → Mirroring pid r'.
Proof.
  intros [Hh Hc] Ei El Ef Et Hts. assert (E : entries r' = entries r) by (unfold entries; by rewrite Ei).
  assert (Eh : holders (tasks r') = holders (tasks r)).
  { rewrite (count_if_perm _ _ _ Et), count_if_app. lia. }
  split; [lia|]. destruct Hc as [(t & Ht & Hu)|[Hm Hz]].
  - left. exists t. split; [rewrite Et; apply elem_of_app; by right|]. destruct t; simpl in *; by rewrite ?E, ?El.
  - right. split; [|lia]. unfold mirrored in *. by rewrite E, El, Ef.
Qed.

Section mirror.
Context (pid : Z).
Abbreviation step := (active_step pid).

(** A task was replaced by one that will take its snapshot. *)
Lemma mirroring_cover r r' i t t' :
  Mirroring pid r → tasks r !! i = Some t → tasks r' = t' :: delete i (tasks r) →
  (if holds_lock t' then holds_lock t || bool_decide (holders (delete i (tasks r)) = 0%nat) else true) = true →
  up_to_date r' t' → Mirroring pid r'.
Proof.
  intros [Hh _] Hi Et Hl Hu. pose proof (count_if_take holds_lock _ _ _ Hi) as E. split.
  - rewrite Et, count_if_cons. destruct (holds_lock t'); [|lia]. destruct (holds_lock t); simpl in Hl; [lia|].
    apply bool_decide_eq_true in Hl. lia.
  - left. exists t'. split; [rewrite Et; left|done].
Qed.

(** The snapshot of a task that holds the lock was not the last word, or nothing
    changed since. *)
Lemma mirroring_advance r r' i t t' :
  Mirroring pid r → tasks r !! i = Some t → holds_lock t = true →
  inner r' = inner r → last_seen r' = last_seen r → file r' = file r →
  tasks r' = t' :: delete i (tasks r) → holds_lock t' = true →
  (up_to_date r t → up_to_date r' t') → Mirroring pid r'.
Proof.
  intros [Hh Hc] Hi Ht Ei El Ef Et Ht' Hu. pose proof (count_if_take holds_lock _ _ _ Hi) as E. rewrite Ht in E.
  assert (Ee : entries r' = entries r) by (unfold entries; by rewrite Ei).
  split; [rewrite Et, count_if_cons, Ht'; lia|]. left. destruct Hc as [(u & Hin & Hup)|[_ Hz]]; [|lia].
  destruct (elem_of_take_out _ _ _ _ Hi Hin) as [->|Hrest].
  - exists t'. split; [rewrite Et; left|by apply Hu].
  - exists u. split; [rewrite Et; by right|]. destruct u; simpl in *; by rewrite ?Ee, ?El.
Qed.

Definition write_ok (e : ActiveEvent) : bool := match e with RunTask _ _ ok => ok | _ => true end.

Lemma mirroring_step r e : Mirroring pid r → write_ok e = true → Mirroring pid (step r e).
Proof.
  intros Hr He. destruct e as [d n|client|valid|d|i now ok]; simpl in *.
  - apply (mirroring_same pid r _ [TRegister (length (clients r)) (next_connection_id r) d n]); try done.
    simpl. by rewrite Permutation_app_comm.
  - case_bool_decide; [|done]. unfold deregister. destruct (clients r !! client) as [[d id]|]; [|done].
    destruct (match inner r !! d with Some _ => _ | None => _ end); [|by apply (mirroring_same pid r _ [])].
    destruct Hr as [Hh _]. split; [done|]. left. exists (TStamp d). split; [left|done].
  - by apply (mirroring_same pid r _ []).
  - unfold notify_revoked. destruct (inner r !! d) as [c|]; [|done].
    apply (mirroring_same pid r _ [TAbort (abort c)]); try done. simpl. by rewrite Permutation_app_comm.
  - subst ok. destruct (tasks r !! i) as [t|] eqn:Hi; [|done]. pose proof (count_if_take holds_lock _ _ _ Hi) as E.
    destruct t; simpl in *.
    + by eapply (mirroring_cover r).
    + by eapply (mirroring_cover r).
    + destruct Hr as [Hh Hc]. split; simpl; [lia|]. destruct Hc as [(u & Hin & Hup)|[Hm Hz]]; [left|right].
      * destruct (elem_of_take_out _ _ _ _ Hi Hin) as [->|Hrest]; [done|]. exists u. split; [done|by destruct u].
      * split; [done|lia].
    + destruct (existsb holds_lock (delete i (tasks r))) eqn:Hex; [done|].
      eapply (mirroring_cover r); [done..|simpl|done]. by rewrite (count_if_none holds_lock _ Hex).
    + by eapply (mirroring_cover r).
    + by eapply (mirroring_advance r).
    + destruct Hr as [Hh Hc]. split; simpl; [lia|]. destruct Hc as [(u & Hin & Hup)|[_ Hz]]; [|lia].
      destruct (elem_of_take_out _ _ _ _ Hi Hin) as [->|Hrest].
      * right. split; [|lia]. destruct Hup as [-> ->]. done.
      * left. exists u. split; [done|]. by destruct u.
Qed.

(** Once no operation is under way, the file shows exactly the connections and the
    last-seen times the daemon holds, whatever registrations, take-overs and
    clean-ups ran at the same time: an older snapshot never overwrites a newer
    one. *)
Theorem mirror_settles prior es :
  let r := active_run pid prior es in
  forallb write_ok es = true → tasks r = [] →
  load (file r) = {| daemon_pid := pid; connected := entries r; last_seen_at := last_seen r |}.
Proof.
  intros r Hes Ht. assert (Hm : Mirroring pid r).
  { subst r. clear Ht. revert Hes. unfold active_run. induction es as [|e es IH] using rev_ind; intros Hes; simpl.
    - split; [vm_compute; lia|]. left. exists TPersist. split; [left|done].
    - rewrite foldl_snoc. rewrite forallb_app in Hes. simpl in Hes.
      apply andb_true_iff in Hes as [H1 H2]. rewrite andb_true_r in H2. by apply mirroring_step; [apply IH|]. }
  destruct Hm as [_ [(t & Hin & _)|[Hm _]]].
  - rewrite Ht in Hin. by apply not_elem_of_nil in Hin.
  - unfold load. by rewrite Hm.
Qed.

(** How many steps the operations under way still take. *)
Definition steps_left (t : Task) : nat :=
  match t with
  | TRegister _ _ _ _ | TStamp _ => 5 | TAbort _ => 1
  | TPersist => 4 | TLocked => 3 | TSnapped _ => 2 | TSeen _ _ => 1
  end.
Definition work (r : ActiveDevices) : nat := sum_list (steps_left <$> tasks r).

Lemma work_take ts i t :
  ts !! i = Some t → sum_list (steps_left <$> ts) = (steps_left t + sum_list (steps_left <$> delete i ts))%nat.
Proof.
  revert i. induction ts as [|u ts IH]; intros [|i] Hi; simplify_eq/=; [done|]. rewrite (IH i Hi). lia.
Qed.

(** What is under way can always go on: while an operation is unfinished some task
    has a step that leaves less to do, the lock notwithstanding; so everything
    under way ends, at the latest after as many steps as there is work. *)
Theorem operations_finish r now :
  tasks r ≠ [] → ∃ i, (work (step r (RunTask i now true)) < work r)%nat.
Proof.
  intros Hne. assert (Hex : ∃ i t, tasks r !! i = Some t ∧ (t = TPersist → existsb holds_lock (delete i (tasks r)) = false)).
  { destruct (existsb holds_lock (tasks r)) eqn:Hl.
    - apply existsb_exists in Hl as (t & Hin & Ht). apply list_elem_of_In, list_elem_of_lookup in Hin as [i Hi].
      exists i, t. split; [done|]. by intros ->.
    - destruct (tasks r) as [|t ts] eqn:Ets; [done|]. exists 0%nat, t. split; [done|]. intros ->. simpl in *. done. }
  destruct Hex as (i & t & Hi & Hlock). exists i. unfold work. rewrite (work_take _ _ _ Hi). simpl. rewrite Hi.
  destruct t; simpl; try rewrite Hlock by done; simpl; unfold fmap; lia.
Qed.
End mirror.

Module ActiveExamples.
#[local] Transparent gmap_empty.
Definition phone : DeviceId := [Byte.x01].

(** The phone reconnects before the host has cleaned up after its old connection;
    each operation runs to its end in turn. *)
Definition finish (n : nat) : list ActiveEvent := replicate n (RunTask 0 7 true).
Definition takeover : list ActiveEvent :=
  finish 4 ++ [Register phone "phone"] ++ finish 5 ++ [Register phone "phone"] ++ finish 5 ++ [Deregister 0].

Example takeover_ends_as_it_should :
  aborted (active_run 42 None takeover) = [0%nat] ∧ ended (active_run 42 None takeover) = [0%nat] ∧
  map_to_list (inner (active_run 42 None takeover)) =
    [(phone, {| conn_id := 2; abort := 1; conn_name := "phone"; conn_since := 7 |})].
Proof. split_and!; by_vm. Qed.

Lemma stays_witness :
  1%nat ∈ aborted (drop_revoked (active_run 42 None takeover) []).1 ∨
  1%nat ∈ ended (drop_revoked (active_run 42 None takeover) []).1.
Proof.
  apply (no_revoked_client_stays 42 None takeover [] 1 phone); [vm_compute; reflexivity| |by exists 2|].
  - apply (bool_decide_unpack _). vm_compute. exact I.
  - apply not_elem_of_nil.
Defined.

Lemma live_1 : live (active_run 42 None takeover) 1 phone.
Proof.
  split_and!; [apply (bool_decide_unpack _); vm_compute; exact I..|]. exists 2. vm_compute. reflexivity.
Defined.

Lemma one_live_witness :
  1%nat = 1%nat ∧ ∀ old, old ≠ 1%nat → live (deregister (active_run 42 None takeover) old) 1 phone.
Proof.
  apply (one_live_connection_per_device 42 None takeover phone 1 1);
    [vm_compute; reflexivity|exact live_1|exact live_1].
Defined.

Lemma mirror_witness :
  load (file (active_run 42 None takeover)) =
    {| daemon_pid := 42; connected := entries (active_run 42 None takeover);
       last_seen_at := last_seen (active_run 42 None takeover) |}.
Proof. apply (mirror_settles 42 None takeover); vm_compute; reflexivity. Defined.

Lemma finish_witness :
  ∃ i, (work (active_step 42 (active_new None) (RunTask i 0 true)) < work (active_new None))%nat.
Proof. apply (operations_finish 42 (active_new None) 0). discriminate. Defined.
End ActiveExamples.
