(* ===== verification/Sessions.v ===== *)
(** * Sessions: the registry of terminals and agents

    [SessionManager] of [crates/host/src/session.rs]: admission, numbering,
    registration, the guard that keeps two agents off one conversation, renaming,
    killing and reaping. Creating a session takes several locks in turn, and so
    does ending one; each stretch is a step, and the steps of all callers
    interleave. What a session owns outlives its entry, as the [Arc]s do:
    [resources] keeps it by the session's number. *)

From S2P Require Import Prelude Protocol Utf8.

Definition MAX_TITLE_BYTES : nat := 256.
Definition DEFAULT_MAX_SESSIONS : Z := 64.

(** [PORTTY_MAX_SESSIONS], parsed. *)
Definition max_sessions (setting : option Z) : Z :=
  match setting with Some n => Z.max 1 (Z.min 1024 n) | None => DEFAULT_MAX_SESSIONS end.

Definition clamp_title (title : string) : string :=
  String.string_of_list_byte (clamp_text MAX_TITLE_BYTES [] (str_bytes title)).

(** What a session owns. An agent's driver runs from its start until it is aborted;
    the handle that can abort it is stored a moment later. *)
Inductive Driver :=
| NoDriver
| Driving (abortable : bool)
| DriverAborted.

(** The conversation of an agent session: what its handle says it drives, which the
    registry goes by; what its driver opens when it connects; and what the present
    connection of the driver has open. *)
Record Chat := {
  chat_provider : option AgentProvider;
  acp_session_id : option string;
  resume_state : option string;
  connected : option string;
}.

Inductive Resource :=
| Pty (child_killed master_open child_exited : bool)
| Relay
| Acp (chat : Chat) (driver : Driver).

Record Session := {
  title : string;
  kind : SessionKind;
  source : SessionSource;
  provider : option AgentProvider;
}.

(** A session to be created: a shell, a terminal shared by a relay, or an agent with
    the saved conversation that was looked up for it. *)
Inductive Spawn :=
| SpawnShell (title : option string)
| RegisterAdopted (title : string)
| SpawnAgent (title : option string) (provider : option AgentProvider) (cached : option string).

Definition session_of (s : Spawn) : Session :=
  match s with
  | SpawnShell t =>
      {| title := clamp_title (default "shell" t); kind := SessionKind_Shell;
         source := SessionSource_Spawned; provider := None |}
  | RegisterAdopted t =>
      {| title := clamp_title t; kind := SessionKind_Shell; source := SessionSource_Adopted; provider := None |}
  | SpawnAgent t p _ =>
      {| title := clamp_title (default "agent" t); kind := SessionKind_Agent;
         source := SessionSource_Spawned; provider := p |}
  end.

(** Where a creation, or an ending, stands. A creation holds its permit until the
    session's entry takes it; an ending holds it until it is over. *)
Inductive Task :=
| Reserved (s : Spawn)
| Numbered (s : Spawn) (id : Z)
| Registered (s : Spawn) (id : Z)          (* to be announced *)
| Announced (id : Z)                       (* an agent, to be driven *)
| Started (id : Z)                         (* its driver runs; its handle is to be stored *)
| Killing (id : Z)                         (* out of the registry *)
| Reaping (id : Z).                        (* out of the registry, whose lock is held *)

Definition holds_permit (t : Task) : bool :=
  match t with Reserved _ | Numbered _ _ | Killing _ | Reaping _ => true | _ => false end.

Inductive ManagerEvent :=
| Added (info : SessionInfo)
| Removed (id : Z).

Record SessionManager := {
  next_id : Z;
  sessions : gmap Z Session;
  session_slots : Z;
  resources : gmap Z Resource;
  tasks : list Task;
  events : list ManagerEvent;
  pruned : list string;                    (* conversations struck from the cache *)
}.

Definition manager_new (max : Z) : SessionManager :=
  {| next_id := 1; sessions := ∅; session_slots := max; resources := ∅; tasks := []; events := []; pruned := [] |}.

Definition info (id : Z) (s : Session) (activity : bool) : SessionInfo :=
  {| info_id := id; info_title := title s; info_kind := kind s; info_source := source s;
     info_has_activity := activity |}.

(** [remove_dead] keeps the registry locked while it waits for a child: the guard of
    an [if let] lives as long as its body. *)
Definition is_reaping (t : Task) : bool := match t with Reaping _ => true | _ => false end.
Definition locked (m : SessionManager) : bool := existsb is_reaping (tasks m).

Definition with_tasks (m : SessionManager) (ts : list Task) : SessionManager :=
  {| next_id := next_id m; sessions := sessions m; session_slots := session_slots m;
     resources := resources m; tasks := ts; events := events m; pruned := pruned m |}.

Definition send (m : SessionManager) (e : ManagerEvent) : SessionManager :=
  {| next_id := next_id m; sessions := sessions m; session_slots := session_slots m;
     resources := resources m; tasks := tasks m; events := events m ++ [e]; pruned := pruned m |}.

Definition set_resource (m : SessionManager) (id : Z) (r : Resource) : SessionManager :=
  {| next_id := next_id m; sessions := sessions m; session_slots := session_slots m;
     resources := <[id := r]> (resources m); tasks := tasks m; events := events m; pruned := pruned m |}.

(** [reserve_capacity]: a new creation, or a refusal. *)
Definition reserve_capacity (m : SessionManager) (s : Spawn) : option SessionManager :=
  if session_slots m <=? 0 then None
  else Some {| next_id := next_id m; sessions := sessions m; session_slots := session_slots m - 1;
               resources := resources m; tasks := tasks m ++ [Reserved s]; events := events m;
               pruned := pruned m |}.

Definition take_number (m : SessionManager) (s : Spawn) (rest : list Task) : SessionManager :=
  {| next_id := next_id m + 1; sessions := sessions m; session_slots := session_slots m;
     resources := resources m; tasks := Numbered s (next_id m) :: rest; events := events m;
     pruned := pruned m |}.

(** A failure on the way gives the permit back. *)
Definition return_permit (m : SessionManager) (rest : list Task) : SessionManager :=
  {| next_id := next_id m; sessions := sessions m; session_slots := session_slots m + 1;
     resources := resources m; tasks := rest; events := events m; pruned := pruned m |}.

(** Some registered session of the provider drives the conversation. *)
Definition drives (m : SessionManager) (p : option AgentProvider) (conversation : string) (e : Z * Session) : bool :=
  bool_decide (provider e.2 = p) &&
  match resources m !! e.1 with
  | Some (Acp ch _) => bool_decide (acp_session_id ch = Some conversation)
  | _ => false
  end.
Definition already_live (m : SessionManager) (p : option AgentProvider) (conversation : string) : bool :=
  existsb (drives m p conversation) (map_to_list (sessions m)).

Definition resource_of (m : SessionManager) (s : Spawn) : Resource :=
  match s with
  | SpawnShell _ => Pty false true false
  | RegisterAdopted _ => Relay
  | SpawnAgent _ p cached =>
      let resume := c ← cached; if already_live m p c then None else Some c in
      Acp {| chat_provider := p; acp_session_id := resume; resume_state := resume; connected := None |} NoDriver
  end.

(** Registration, under the lock: for an agent with the check that nobody else drives
    the conversation. *)
Definition register (m : SessionManager) (s : Spawn) (id : Z) (rest : list Task) : SessionManager :=
  {| next_id := next_id m; sessions := <[id := session_of s]> (sessions m);
     session_slots := session_slots m; resources := <[id := resource_of m s]> (resources m);
     tasks := Registered s id :: rest; events := events m; pruned := pruned m |}.

Definition announce (m : SessionManager) (s : Spawn) (id : Z) (activity : bool) (rest : list Task) : SessionManager :=
  send (with_tasks m (match s with SpawnAgent _ _ _ => Announced id :: rest | _ => rest end))
    (Added (info id (session_of s) activity)).

Definition set_driver (m : SessionManager) (id : Z) (d : Driver) : SessionManager :=
  match resources m !! id with Some (Acp c _) => set_resource m id (Acp c d) | _ => m end.

(** ** Ending *)
Inductive TrySend := Sent | Closed | Full.

(** [kill] under the lock; [relay] is what sending the kill to a relay gives. *)
Definition kill (m : SessionManager) (id : Z) (relay : TrySend) : SessionManager * bool :=
  match sessions m !! id with
  | None => (m, false)
  | Some s =>
      match source s, relay with
      | SessionSource_Adopted, Full => (m, false)
      | _, _ =>
          ({| next_id := next_id m; sessions := delete id (sessions m); session_slots := session_slots m;
              resources := resources m; tasks := tasks m ++ [Killing id]; events := events m;
              pruned := pruned m |}, true)
      end
  end.

Definition forget (ch : Chat) : Chat :=
  {| chat_provider := chat_provider ch; acp_session_id := None; resume_state := resume_state ch;
     connected := connected ch |}.

Definition teardown (r : Resource) : Resource :=
  match r with
  | Pty _ _ exited => Pty true false exited
  | Relay => Relay
  | Acp ch (Driving true) => Acp (forget ch) DriverAborted
  | Acp ch d => Acp (forget ch) d
  end.

Definition conversation_of (r : Resource) : list string :=
  match r with Acp ch _ => option_list (acp_session_id ch) | _ => [] end.

(** The rest of [kill], the lock released: teardown, the notice, and last the permit. *)
Definition kill_rest (m : SessionManager) (id : Z) (rest : list Task) : SessionManager :=
  {| next_id := next_id m; sessions := sessions m; session_slots := session_slots m + 1;
     resources := alter teardown id (resources m); tasks := rest; events := events m ++ [Removed id];
     pruned := pruned m ++ default [] (conversation_of <$> resources m !! id) |}.

Definition remove_dead (m : SessionManager) (id : Z) : SessionManager :=
  match sessions m !! id with
  | None => m
  | Some _ =>
      {| next_id := next_id m; sessions := delete id (sessions m); session_slots := session_slots m;
         resources := resources m; tasks := tasks m ++ [Reaping id]; events := events m; pruned := pruned m |}
  end.

(** Its wait for the child is over when the child has exited. *)
Definition child_gone (m : SessionManager) (id : Z) : bool :=
  match resources m !! id with Some (Pty _ _ exited) => exited | _ => true end.

Definition reap (m : SessionManager) (id : Z) (rest : list Task) : SessionManager :=
  if child_gone m id then
    {| next_id := next_id m; sessions := sessions m; session_slots := session_slots m + 1;
       resources := resources m; tasks := rest; events := events m ++ [Removed id]; pruned := pruned m |}
  else m.

(** [rename], with its answer; and an agent that names its conversation, which tells
    every client again, registered or not. *)
Definition retitle (t : string) (s : Session) : Session :=
  {| title := clamp_title t; kind := kind s; source := source s; provider := provider s |}.

Definition rename (m : SessionManager) (id : Z) (t : string) : SessionManager * bool :=
  match sessions m !! id with
  | Some s =>
      ({| next_id := next_id m; sessions := <[id := retitle t s]> (sessions m);
          session_slots := session_slots m; resources := resources m; tasks := tasks m; events := events m;
          pruned := pruned m |}, true)
  | None => (m, false)
  end.

Definition agent_titled (m : SessionManager) (id : Z) (t : string) (activity : bool) : SessionManager :=
  send (rename m id t).1
    (Added {| info_id := id; info_title := clamp_title t; info_kind := SessionKind_Agent;
              info_source := SessionSource_Spawned; info_has_activity := activity |}).

(** ** A driver and its conversation *)

(** A driver connects: it reopens the conversation it is to resume, or else opens the
    new one the agent names. Once it replayed the settings it notes the conversation
    for its next connection. A connection can end at any moment. *)
Inductive ChatStep :=
| Reopens
| Opens (conversation : string)
| Persists
| Disconnects.

Definition connect (ch : Chat) (c : string) : Chat :=
  {| chat_provider := chat_provider ch; acp_session_id := Some c; resume_state := resume_state ch;
     connected := Some c |}.

Definition chat_step (ch : Chat) (a : ChatStep) : Chat :=
  match a, connected ch with
  | Reopens, None => match resume_state ch with Some c => connect ch c | None => ch end
  | Opens c, None => connect ch c
  | Persists, Some c =>
      match chat_provider ch with
      | Some _ => {| chat_provider := chat_provider ch; acp_session_id := acp_session_id ch;
                     resume_state := Some c; connected := connected ch |}
      | None => ch
      end
  | Disconnects, Some _ =>
      {| chat_provider := chat_provider ch; acp_session_id := acp_session_id ch;
         resume_state := resume_state ch; connected := None |}
  | _, _ => ch
  end.

(** ** Steps *)
Inductive Event :=
| Reserve (s : Spawn)
| Run (i : nat) (activity : bool)          (* a task's next stretch *)
| Fail (i : nat)                           (* a shell that cannot be started *)
| Kill (id : Z) (relay : TrySend)
| RemoveDead (id : Z)
| Rename (id : Z) (title : string)
| ChildExits (id : Z)
| DriverStep (id : Z) (a : ChatStep)
| AgentTitled (id : Z) (title : string) (activity : bool).

Definition run_task (m : SessionManager) (t : Task) (activity : bool) (rest : list Task) : SessionManager :=
  match t with
  | Reserved s => take_number m s rest
  | Numbered s id => if locked m then m else register m s id rest
  | Registered s id => announce m s id activity rest
  | Announced id => with_tasks (set_driver m id (Driving false)) (Started id :: rest)
  | Started id => with_tasks (set_driver m id (Driving true)) rest
  | Killing id => kill_rest m id rest
  | Reaping id => reap m id rest
  end.

Definition is_driving (d : Driver) : bool := match d with Driving _ => true | _ => false end.
Definition driving (r : Resource) : bool := match r with Acp _ d => is_driving d | _ => false end.

Definition manager_step (m : SessionManager) (e : Event) : SessionManager :=
  match e with
  | Reserve s => default m (reserve_capacity m s)
  | Run i activity =>
      match tasks m !! i with Some t => run_task m t activity (delete i (tasks m)) | None => m end
  | Fail i =>
      match tasks m !! i with
      | Some (Numbered (SpawnShell _) _) => return_permit m (delete i (tasks m))
      | _ => m
      end
  | Kill id relay => if locked m then m else (kill m id relay).1
  | RemoveDead id => if locked m then m else remove_dead m id
  | Rename id t => if locked m then m else (rename m id t).1
  | ChildExits id =>
      match resources m !! id with
      | Some (Pty k o _) => set_resource m id (Pty k o true)
      | _ => m
      end
  | DriverStep id a =>
      match resources m !! id with
      | Some (Acp ch d) => if is_driving d then set_resource m id (Acp (chat_step ch a) d) else m
      | _ => m
      end
  | AgentTitled id t activity =>
      match resources m !! id with
      | Some (Acp _ d) => if is_driving d then agent_titled m id t activity else m
      | _ => m
      end
  end.

Definition manager_run (max : Z) (es : list Event) : SessionManager := foldl manager_step (manager_new max) es.

(** ** Numbers and capacity *)

Definition unborn (ts : list Task) : list Z := omap (λ t, match t with Numbered _ id => Some id | _ => None end) ts.
Definition permits : list Task → nat := count_if holds_permit.

Lemma unborn_take ts i t :
  ts !! i = Some t → unborn ts ≡ₚ match t with Numbered _ id => [id] | _ => [] end ++ unborn (delete i ts).
Proof. intros Hi. unfold unborn. rewrite (delete_Permutation ts i t Hi) at 1. by destruct t. Qed.

Lemma unborn_app ts us : unborn (ts ++ us) = unborn ts ++ unborn us.
Proof. apply omap_app. Qed.

(** Every number below the next is used for one session, or will be. *)
Record Numbering (m : SessionManager) : Prop := {
  nu_unborn : NoDup (unborn (tasks m));
  nu_unborn_new : ∀ id, id ∈ unborn (tasks m) → id < next_id m ∧ resources m !! id = None;
  nu_sessions : ∀ id, is_Some (sessions m !! id) → is_Some (resources m !! id);
  nu_resources : ∀ id, is_Some (resources m !! id) → id < next_id m;
}.

(** Steps that neither number nor register. *)
Lemma numbering_same m m' gone :
  Numbering m → next_id m' = next_id m →
  (∀ id, is_Some (sessions m' !! id) → is_Some (sessions m !! id)) →
  (∀ id, is_Some (resources m' !! id) ↔ is_Some (resources m !! id)) →
  unborn (tasks m) ≡ₚ gone ++ unborn (tasks m') → Numbering m'.
Proof.
  intros [H1 H2 H3 H4] En Es Er Et. rewrite Et in H1. apply NoDup_app in H1 as (_ & _ & H1). split; [done|..].
  - intros id Hid. rewrite En. destruct (H2 id) as [Hlt Hnone]; [rewrite Et; apply elem_of_app; by right|].
    split; [done|]. apply eq_None_not_Some. intros Hs. apply Er in Hs. by rewrite Hnone in Hs.
  - intros id Hid. by apply Er, H3, Es.
  - intros id Hid. rewrite En. by apply H4, Er.
Qed.

Lemma numbering_take_number m i s :
  Numbering m → tasks m !! i = Some (Reserved s) → Numbering (take_number m s (delete i (tasks m))).
Proof.
  intros [H1 H2 H3 H4] Hi. pose proof (unborn_take _ _ _ Hi) as Et. rewrite app_nil_l in Et.
  change (unborn (Numbered s (next_id m) :: delete i (tasks m))) with (next_id m :: unborn (delete i (tasks m))).
  split; simpl.
  - change (NoDup (next_id m :: unborn (delete i (tasks m)))). constructor; [|by rewrite <- Et].
    rewrite <- Et. intros Hin. apply H2 in Hin as [Hlt _]. lia.
  - intros id Hin. change (id ∈ next_id m :: unborn (delete i (tasks m))) in Hin.
    apply elem_of_cons in Hin as [->|Hin].
    + split; [lia|]. apply eq_None_not_Some. intros Hs%H4. lia.
    + rewrite <- Et in Hin. apply H2 in Hin as [? ?]. split; [lia|done].
  - done.
  - intros id Hs%H4. lia.
Qed.

Lemma numbering_register m i s id :
  Numbering m → tasks m !! i = Some (Numbered s id) → Numbering (register m s id (delete i (tasks m))).
Proof.
  intros [H1 H2 H3 H4] Hi. pose proof (unborn_take _ _ _ Hi) as Et. simpl in Et. rewrite Et in H1.
  apply NoDup_cons in H1 as [Hnew H1]. destruct (H2 id) as [Hid _]; [rewrite Et; by left|].
  split; simpl.
  - exact H1.
  - intros id' Hin. change (id' ∈ unborn (delete i (tasks m))) in Hin.
    destruct (H2 id') as [? ?]; [rewrite Et; by right|]. split; [done|]. rewrite lookup_insert_ne; [done|].
    intros ->. done.
  - intros id' [s' Hs]. destruct (decide (id = id')) as [->|Hne]; [rewrite lookup_insert_eq; by eexists|].
    rewrite lookup_insert_ne in Hs by done. rewrite lookup_insert_ne by done. apply H3. by exists s'.
  - intros id' [r Hr]. destruct (decide (id = id')) as [->|Hne]; [done|].
    rewrite lookup_insert_ne in Hr by done. apply H4. by eexists.
Qed.

Lemma is_Some_insert_iff {A} (m : gmap Z A) i x j :
  is_Some (m !! i) → is_Some (<[i := x]> m !! j) ↔ is_Some (m !! j).
Proof. intros Hi. destruct (decide (i = j)) as [->|Hne]; [rewrite lookup_insert_eq|by rewrite lookup_insert_ne]. by split. Qed.

Lemma set_driver_resources m id d j : is_Some (resources (set_driver m id d) !! j) ↔ is_Some (resources m !! j).
Proof.
  unfold set_driver. destruct (resources m !! id) as [[| |c d']|] eqn:E; try done. simpl.
  apply is_Some_insert_iff. by rewrite E.
Qed.

Lemma rename_sessions m id t j :
  is_Some (sessions (rename m id t).1 !! j) ↔ is_Some (sessions m !! j).
Proof. unfold rename. destruct (sessions m !! id) eqn:E; [|done]. simpl. apply is_Some_insert_iff. by rewrite E. Qed.

Lemma rename_rest m id t :
  tasks (rename m id t).1 = tasks m ∧ resources (rename m id t).1 = resources m ∧
  next_id (rename m id t).1 = next_id m ∧ session_slots (rename m id t).1 = session_slots m ∧
  events (rename m id t).1 = events m.
Proof. unfold rename. by destruct (sessions m !! id). Qed.

Lemma set_driver_rest m id d :
  tasks (set_driver m id d) = tasks m ∧ sessions (set_driver m id d) = sessions m ∧
  next_id (set_driver m id d) = next_id m ∧ session_slots (set_driver m id d) = session_slots m ∧
  events (set_driver m id d) = events m.
Proof. unfold set_driver. by destruct (resources m !! id) as [[]|]. Qed.

Lemma delete_Some_inv {A} (m : gmap Z A) i j : is_Some (delete i m !! j) → is_Some (m !! j).
Proof. intros [x [_ Hx]%lookup_delete_Some]. by eexists. Qed.

(** Which sessions a step registers, and which it takes away. *)
Lemma sessions_step m e id :
  Numbering m → is_Some (sessions (manager_step m e) !! id) →
  is_Some (sessions m !! id) ∨ id ∈ unborn (tasks m).
Proof.
  intros Hm. destruct e as [s|i activity|i|k relay|k|k t|k|k c|k t activity]; simpl; try (by left).
  - unfold reserve_capacity. destruct (_ <=? 0); by left.
  - destruct (tasks m !! i) as [t|] eqn:Hi; [|by left]. pose proof (unborn_take _ _ _ Hi) as Et.
    destruct t as [s|s k|s k|k|k|k|k]; simpl; try (by left).
    + destruct (locked m); [by left|]. simpl. intros [s' Hs]. rewrite Et.
      destruct (decide (k = id)) as [->|Hne]; [right; by left|]. left. rewrite lookup_insert_ne in Hs by done. by eexists.
    + rewrite (proj1 (proj2 (set_driver_rest m k _))). by left.
    + rewrite (proj1 (proj2 (set_driver_rest m k _))). by left.
    + unfold reap. destruct (child_gone m k); by left.
  - destruct (tasks m !! i) as [[|[]| | | | |]|]; by left.
  - destruct (locked m); [by left|]. unfold kill. destruct (sessions m !! k) as [s|]; [|by left].
    destruct (source s), relay; simpl; try (by left); intros Hs; left; by eapply delete_Some_inv.
  - destruct (locked m); [by left|]. unfold remove_dead. destruct (sessions m !! k); [|by left].
    simpl. intros Hs. left. by eapply delete_Some_inv.
  - destruct (locked m); [by left|]. rewrite rename_sessions. by left.
  - destruct (resources m !! k) as [[]|]; by left.
  - destruct (resources m !! k) as [[| |? d]|]; try (by left). destruct (is_driving d); by left.
  - destruct (resources m !! k) as [[| |? d]|]; try (by left). destruct (is_driving d); [|by left].
    simpl. rewrite rename_sessions. by left.
Qed.

Lemma numbering_step m e : Numbering m → Numbering (manager_step m e).
Proof.
  intros Hm. destruct e as [s|i activity|i|k relay|k|k t|k|k c|k t activity]; simpl.
  - unfold reserve_capacity. destruct (_ <=? 0); [done|]. apply (numbering_same m _ []); try done. simpl.
    rewrite unborn_app. simpl. by rewrite app_nil_r.
  - destruct (tasks m !! i) as [t|] eqn:Hi; [|done]. pose proof (unborn_take _ _ _ Hi) as Et.
    destruct t as [s|s k|s k|k|k|k|k]; simpl.
    + by apply numbering_take_number.
    + destruct (locked m); [done|]. by apply numbering_register.
    + apply (numbering_same m _ []); try done. simpl. by destruct s.
    + destruct (set_driver_rest m k (Driving false)) as (_ & E1 & E2 & _).
      apply (numbering_same m _ []); simpl; rewrite ?E1, ?E2; try done; intros; apply set_driver_resources.
    + destruct (set_driver_rest m k (Driving true)) as (_ & E1 & E2 & _).
      apply (numbering_same m _ []); simpl; rewrite ?E1, ?E2; try done; intros; apply set_driver_resources.
    + apply (numbering_same m _ []); try done. simpl. intros id. by rewrite lookup_alter_is_Some.
    + unfold reap. destruct (child_gone m k); [|done]. by apply (numbering_same m _ []).
  - destruct (tasks m !! i) as [[|s id| | | | |]|] eqn:Hi; try done. destruct s; try done.
    by apply (numbering_same m _ [id]), (unborn_take _ _ _ Hi).
  - destruct (locked m); [done|]. unfold kill. destruct (sessions m !! k) as [s|]; [|done].
    destruct (source s), relay; simpl; try done; apply (numbering_same m _ []); simpl; try done;
      try (intros ?; apply delete_Some_inv); rewrite unborn_app; simpl; by rewrite app_nil_r.
  - destruct (locked m); [done|]. unfold remove_dead. destruct (sessions m !! k); [|done].
    apply (numbering_same m _ []); simpl; try done; [intros ?; apply delete_Some_inv|].
    rewrite unborn_app. simpl. by rewrite app_nil_r.
  - destruct (locked m); [done|]. destruct (rename_rest m k t) as (E1 & E2 & E3 & _).
    apply (numbering_same m _ []); rewrite ?E1, ?E2, ?E3; try done. intros id. by rewrite rename_sessions.
  - destruct (resources m !! k) as [[]|] eqn:E; try done. apply (numbering_same m _ []); try done. simpl.
    intros id. apply is_Some_insert_iff. by rewrite E.
  - destruct (resources m !! k) as [[| |? d]|] eqn:E; try done. destruct (is_driving d); [|done].
    apply (numbering_same m _ []); try done. simpl. intros id. apply is_Some_insert_iff. by rewrite E.
  - destruct (resources m !! k) as [[| |? d]|] eqn:E; try done. destruct (is_driving d); [|done].
    destruct (rename_rest m k t) as (E1 & E2 & E3 & _).
    apply (numbering_same m _ []); simpl; rewrite ?E1, ?E2, ?E3; try done. intros id. by rewrite rename_sessions.
Qed.

Lemma manager_invariant (P : SessionManager → Prop) m es :
  P m → (∀ m e, P m → P (manager_step m e)) → P (foldl manager_step m es).
Proof. intros Hm Hs. revert m Hm. induction es as [|e es IH]; intros m Hm; simpl; [done|]. by apply IH, Hs. Qed.

Lemma numbering_new max : Numbering (manager_new max).
Proof. split; simpl; try done; [constructor|intros ? ?%not_elem_of_nil; done|intros ? [? [=]]..]. Qed.

Lemma numbering_run max es : Numbering (manager_run max es).
Proof. apply (manager_invariant Numbering); [apply numbering_new|apply numbering_step]. Qed.

Definition accounted (max : Z) (m : SessionManager) : Prop :=
  session_slots m = max - Z.of_nat (size (sessions m)) - Z.of_nat (permits (tasks m)) ∧ 0 <= session_slots m.

Lemma size_insert_old (m : gmap Z Session) i x : is_Some (m !! i) → size (<[i := x]> m) = size m.
Proof. intros Hi. by rewrite map_size_insert_Some. Qed.

Lemma size_delete (m : gmap Z Session) i x : m !! i = Some x → size m = S (size (delete i m)).
Proof.
  intros Hi. rewrite <- (insert_delete_id m i x Hi) at 1. apply map_size_insert_None, lookup_delete_eq.
Qed.

Lemma accounted_same max m m' :
  accounted max m → session_slots m' = session_slots m → size (sessions m') = size (sessions m) →
  permits (tasks m') = permits (tasks m) → accounted max m'.
Proof. unfold accounted. intros [H1 H2] -> -> ->. done. Qed.

Lemma slots_accounted_step max m e : Numbering m → accounted max m → accounted max (manager_step m e).
Proof.
  intros Hm Ha. pose proof Ha as [Hs Hpos].
  destruct e as [s|i activity|i|k relay|k|k t|k|k c|k t activity]; simpl.
  - unfold reserve_capacity. destruct (Z.leb_spec (session_slots m) 0); [done|].
    unfold accounted, permits in *. simpl. rewrite count_if_app, count_if_cons. simpl. unfold count_if at 2. simpl. lia.
  - destruct (tasks m !! i) as [t|] eqn:Hi; [|done]. pose proof (count_if_take holds_permit _ _ _ Hi) as Et.
    destruct t as [s|s k|s k|k|k|k|k]; simpl in *.
    + by apply (accounted_same max m).
    + destruct (locked m); [done|]. unfold accounted, permits in *. simpl. rewrite count_if_cons. simpl.
      assert (Hnew : sessions m !! k = None).
      { apply eq_None_not_Some. intros Hk%(nu_sessions m Hm). destruct (nu_unborn_new m Hm k) as [_ Hr].
        - rewrite (unborn_take _ _ _ Hi). by left.
        - by rewrite Hr in Hk. }
      rewrite map_size_insert_None by done. lia.
    + apply (accounted_same max m); try done. simpl. by destruct s.
    + destruct (set_driver_rest m k (Driving false)) as (_ & E1 & _ & E3 & _).
      apply (accounted_same max m); simpl; rewrite ?E1; done.
    + destruct (set_driver_rest m k (Driving true)) as (_ & E1 & _ & E3 & _).
      apply (accounted_same max m); simpl; rewrite ?E1; done.
    + unfold accounted, permits in *. simpl. lia.
    + unfold reap. destruct (child_gone m k); [|done]. unfold accounted, permits in *. simpl. lia.
  - destruct (tasks m !! i) as [[|s id| | | | |]|] eqn:Hi; try done. destruct s; try done.
    pose proof (count_if_take holds_permit _ _ _ Hi) as Et. unfold accounted, permits in *. simpl in *. lia.
  - destruct (locked m); [done|]. unfold kill. destruct (sessions m !! k) as [s|] eqn:Hk; [|done].
    pose proof (size_delete _ _ _ Hk) as Hd.
    destruct (source s), relay; simpl; try done; unfold accounted, permits in *; simpl;
      rewrite count_if_app, count_if_cons; unfold count_if at 2; simpl; lia.
  - destruct (locked m); [done|]. unfold remove_dead. destruct (sessions m !! k) as [s|] eqn:Hk; [|done].
    pose proof (size_delete _ _ _ Hk) as Hd.
    unfold accounted, permits in *; simpl. rewrite count_if_app, count_if_cons. unfold count_if at 2. simpl. lia.
  - destruct (locked m); [done|]. destruct (rename_rest m k t) as (E1 & _ & _ & E3 & _).
    apply (accounted_same max m); rewrite ?E1; try done. unfold rename. destruct (sessions m !! k) eqn:Hk; [|done].
    apply size_insert_old. by rewrite Hk.
  - destruct (resources m !! k) as [[]|]; done.
  - destruct (resources m !! k) as [[| |? d]|]; try done. by destruct (is_driving d).
  - destruct (resources m !! k) as [[| |? d]|]; try done. destruct (is_driving d); [|done].
    destruct (rename_rest m k t) as (E1 & _ & _ & E3 & _).
    apply (accounted_same max m); simpl; rewrite ?E1; try done. unfold rename. destruct (sessions m !! k) eqn:Hk; [|done].
    apply size_insert_old. by rewrite Hk.
Qed.

(** C17 (invariant). The host never holds more sessions than it is set to: entries, creations and
    endings under way each hold one slot, none is lost or counted twice in any
    interleaving, and a slot that nothing holds is free. *)
Theorem sessions_stay_within_the_limit max es :
  0 <= max →
  let m := manager_run max es in
  session_slots m + Z.of_nat (size (sessions m)) + Z.of_nat (permits (tasks m)) = max ∧
  0 <= session_slots m ∧ Z.of_nat (size (sessions m)) <= max.
Proof.
  intros Hmax m. assert (Ha : Numbering m ∧ accounted max m).
  { apply (manager_invariant (λ m, Numbering m ∧ accounted max m)).
    - split; [apply numbering_new|]. unfold accounted. simpl. rewrite map_size_empty. vm_compute permits. lia.
    - intros m' e [Hn Ha]. split; [by apply numbering_step|by apply slots_accounted_step]. }
  destruct Ha as [_ [H1 H2]]. lia.
Qed.

Lemma resources_step m e id :
  is_Some (resources m !! id) → is_Some (resources (manager_step m e) !! id).
Proof.
  assert (Hins : ∀ k (r : Resource), is_Some (resources m !! id) → is_Some (<[k := r]> (resources m) !! id)).
  { intros k r Hr. destruct (decide (k = id)) as [->|Hne]; [rewrite lookup_insert_eq; by eexists|].
    by rewrite lookup_insert_ne. }
  intros Hr. destruct e as [s|i activity|i|k relay|k|k t|k|k c|k t activity]; simpl.
  - unfold reserve_capacity. by destruct (_ <=? 0).
  - destruct (tasks m !! i) as [t|]; [|done]. destruct t as [s|s k|s k|k|k|k|k]; simpl; try done.
    + destruct (locked m); [done|]. by apply Hins.
    + by apply set_driver_resources.
    + by apply set_driver_resources.
    + by rewrite lookup_alter_is_Some.
    + unfold reap. by destruct (child_gone m k).
  - by destruct (tasks m !! i) as [[|[]| | | | |]|].
  - destruct (locked m); [done|]. unfold kill. destruct (sessions m !! k) as [s|]; [|done].
    by destruct (source s), relay.
  - destruct (locked m); [done|]. unfold remove_dead. by destruct (sessions m !! k).
  - destruct (locked m); [done|]. by rewrite (proj1 (proj2 (rename_rest m k t))).
  - destruct (resources m !! k) as [[]|]; try done. by apply Hins.
  - destruct (resources m !! k) as [[| |? d]|]; try done. destruct (is_driving d); [by apply Hins|done].
  - destruct (resources m !! k) as [[| |? d]|]; try done. destruct (is_driving d); [|done].
    simpl. by rewrite (proj1 (proj2 (rename_rest m k t))).
Qed.

(** What left the registry stays out. *)
Definition departed (m : SessionManager) (id : Z) : Prop := is_Some (resources m !! id) ∧ sessions m !! id = None.

Lemma departed_step m e id : Numbering m → departed m id → departed (manager_step m e) id.
Proof.
  intros Hm [Hr Hn]. split; [by apply resources_step|]. apply eq_None_not_Some. intros Hs.
  destruct (sessions_step m e id Hm Hs) as [Hold|Hnew]; [by rewrite Hn in Hold|].
  apply (nu_unborn_new m Hm) in Hnew as [_ Hnone]. by rewrite Hnone in Hr.
Qed.

(** A number names one session for good: once a session was registered and then
    left the registry, no later step puts anything under its number, so that a
    late kill, rename or attachment never meets another session. *)
Theorem a_number_names_one_session max es es' id :
  is_Some (resources (manager_run max es) !! id) → sessions (manager_run max es) !! id = None →
  sessions (foldl manager_step (manager_run max es) es') !! id = None.
Proof.
  intros Hr Hn. assert (Hall : Numbering (foldl manager_step (manager_run max es) es') ∧
    departed (foldl manager_step (manager_run max es) es') id); [|apply Hall].
  apply (manager_invariant (λ m, Numbering m ∧ departed m id)); [by split; [apply numbering_run|]|].
  intros m e [Hm Hd]. split; [by apply numbering_step|by apply departed_step].
Qed.

(** ** One driver per conversation *)

Definition holds (m : SessionManager) (id : Z) (p : option AgentProvider) (c : string) : Prop :=
  (∃ s, sessions m !! id = Some s ∧ provider s = p) ∧
  ∃ ch d, resources m !! id = Some (Acp ch d) ∧ acp_session_id ch = Some c.

Definition exclusive (m : SessionManager) : Prop :=
  ∀ i j p c, holds m i p c → holds m j p c → i = j.

Lemma already_live_false m p c : already_live m p c = false → ∀ i, ¬ holds m i p c.
Proof.
  intros Hl i [(s & Hs & Hp) (ch & d & Hr & Hc)]. apply not_true_iff_false in Hl. apply Hl.
  apply existsb_exists. exists (i, s). split; [by apply list_elem_of_In, elem_of_map_to_list|].
  unfold drives. simpl. rewrite Hr, !bool_decide_true; done.
Qed.

(** The ids that were named to the host, each with its agent: those looked up for a
    spawn, and those an agent gave to a conversation it opened. *)
Definition named (m : SessionManager) (e : Event) : list (option AgentProvider * string) :=
  match e with
  | Reserve (SpawnAgent _ p (Some c)) => [(p, c)]
  | DriverStep id (Opens c) => match sessions m !! id with Some s => [(provider s, c)] | None => [] end
  | _ => []
  end.

(** Two things the registry relies on. An agent names a conversation it opens by an id
    that it has not named before; and a driver that opened one is not disconnected
    before it noted it for its next connection. *)
Definition lawful (m : SessionManager) (seen : list (option AgentProvider * string)) (e : Event) : Prop :=
  match e with
  | DriverStep id (Opens c) => ∀ s, sessions m !! id = Some s → (provider s, c) ∉ seen
  | DriverStep id Disconnects =>
      ∀ ch d, resources m !! id = Some (Acp ch d) → connected ch ≠ None →
        resume_state ch = None ∨ resume_state ch = connected ch
  | _ => True
  end.

Fixpoint orderly (m : SessionManager) (seen : list (option AgentProvider * string)) (es : list Event) : Prop :=
  match es with
  | [] => True
  | e :: es => lawful m seen e ∧ orderly (manager_step m e) (named m e ++ seen) es
  end.

(** What a driver is to open is what its handle says, until it has something else open. *)
Definition settled (ch : Chat) : Prop :=
  match connected ch with
  | Some x => acp_session_id ch = Some x
  | None => ∀ c, resume_state ch = Some c → acp_session_id ch = Some c
  end.

Definition task_ok (m : SessionManager) (seen : list (option AgentProvider * string)) (t : Task) : Prop :=
  match t with
  | Reserved (SpawnAgent _ p (Some c)) | Numbered (SpawnAgent _ p (Some c)) _ => (p, c) ∈ seen
  | Killing k => departed m k
  | _ => True
  end.

Definition seat_ok (seen : list (option AgentProvider * string)) (s : Session) (ch : Chat) : Prop :=
  chat_provider ch = provider s ∧ settled ch ∧ ∀ c, acp_session_id ch = Some c → (provider s, c) ∈ seen.

Record Seats (m : SessionManager) (seen : list (option AgentProvider * string)) : Prop := {
  se_seat : ∀ id s ch d, sessions m !! id = Some s → resources m !! id = Some (Acp ch d) → seat_ok seen s ch;
  se_tasks : ∀ t, t ∈ tasks m → task_ok m seen t;
  se_exclusive : exclusive m;
}.

Lemma seats_mono m seen seen' : seen ⊆ seen' → Seats m seen → Seats m seen'.
Proof.
  intros Hsub [Hs Ht He]. split; [| |done].
  - intros id s ch d H1 H2. destruct (Hs id s ch d H1 H2) as (? & ? & Hc). split_and!; [done..|].
    intros c Hcc. by apply Hsub, Hc.
  - intros t Hin. specialize (Ht t Hin). destruct t as [[| |? ? []]|[| |? ? []] ?|? ?|?|?|?|?]; simpl in *; try done; by apply Hsub.
Qed.

(** Steps after which every entry and every conversation was there before. *)
Lemma seats_sub m m' seen :
  Seats m seen →
  (∀ id s, sessions m' !! id = Some s → ∃ s0, sessions m !! id = Some s0 ∧ provider s0 = provider s) →
  (∀ id ch d, is_Some (sessions m' !! id) → resources m' !! id = Some (Acp ch d) →
     ∃ d0, resources m !! id = Some (Acp ch d0)) →
  (∀ id, is_Some (resources m !! id) → is_Some (resources m' !! id)) →
  (∀ t, t ∈ tasks m' → t ∈ tasks m ∨ task_ok m' seen t) → Seats m' seen.
Proof.
  intros [Hs Ht He] Es Er Em Et.
  assert (Hh : ∀ i p c, holds m' i p c → holds m i p c).
  { intros i p c [(s & Hsi & Hp) (ch & d & Hr & Hc)]. destruct (Es _ _ Hsi) as (s0 & Hs0 & Hp0).
    destruct (Er i ch d (mk_is_Some _ _ Hsi) Hr) as (d0 & Hr0).
    split; [exists s0; by rewrite Hp0|by exists ch, d0]. }
  split.
  - intros id s ch d H1 H2. destruct (Es _ _ H1) as (s0 & Hs0 & Hp0).
    destruct (Er id ch d (mk_is_Some _ _ H1) H2) as (d0 & Hr0). unfold seat_ok. rewrite <- Hp0. by eapply Hs.
  - intros t Hin. destruct (Et t Hin) as [Hold|?]; [|done]. specialize (Ht t Hold).
    destruct t as [s|s ?|? ?|?|?|k|?]; try done. destruct Ht as [Hr Hn]. split; [by apply Em|].
    apply eq_None_not_Some. intros [s Hk]. destruct (Es _ _ Hk) as (s0 & Hs0 & _). by rewrite Hn in Hs0.
  - intros i j p c Hi Hj. eapply He; by apply Hh.
Qed.

Lemma seats_register m seen s k rest :
  Numbering m → Seats m seen → sessions m !! k = None → resources m !! k = None →
  (∀ t, t ∈ rest → t ∈ tasks m) → task_ok m seen (Numbered s k) → Seats (register m s k rest) seen.
Proof.
  intros Hn [Hs Ht He] Hk Hkr Hrest Hok.
  assert (Hnew : ∀ ch d, resource_of m s = Acp ch d →
    seat_ok seen (session_of s) ch ∧ ∀ c, acp_session_id ch = Some c → ∀ i, ¬ holds m i (provider (session_of s)) c).
  { intros ch d Hr. destruct s as [|?|t p cached]; try done. simpl in *. injection Hr as <- <-.
    destruct cached as [c0|]; simpl; [|by split; [split_and!; [done|done|by intros ? [=]]|by intros ? [=]]].
    destruct (already_live m p c0) eqn:Hl; simpl.
    - split; [split_and!; [done|done|by intros ? [=]]|by intros ? [=]].
    - split; [split_and!; [done| |by intros ? [= <-]]|intros ? [= <-]; by apply already_live_false].
      unfold settled. simpl. done. }
  split.
  - intros id s0 ch d. simpl. destruct (decide (k = id)) as [->|Hne].
    + rewrite !lookup_insert_eq. intros [= <-] [= Hr]. by eapply Hnew.
    + rewrite !lookup_insert_ne by done. apply Hs.
  - intros t [->|Hin]%elem_of_cons; [done|]. specialize (Ht t (Hrest t Hin)).
    destruct t as [s'|s' ?|? ?|?|?|k'|?]; try done. destruct Ht as [Hr Hnn].
    assert (k ≠ k') by (intros ->; rewrite Hkr in Hr; by destruct Hr).
    split; simpl; by rewrite lookup_insert_ne.
  - assert (Hold : ∀ i p c, i ≠ k → holds (register m s k rest) i p c → holds m i p c).
    { intros i p c Hne. unfold holds. simpl. by rewrite !lookup_insert_ne. }
    assert (Hfresh : ∀ p c, holds (register m s k rest) k p c → ∀ i, ¬ holds m i p c).
    { intros p c [(s0 & Hs0 & Hp) (ch & d & Hr & Hc)]. simpl in *. rewrite lookup_insert_eq in Hs0. rewrite lookup_insert_eq in Hr.
      injection Hs0 as <-. injection Hr as Hr. rewrite <- Hp. by eapply (Hnew ch d). }
    intros i j p c Hi Hj. destruct (decide (i = k)) as [->|Hik], (decide (j = k)) as [->|Hjk]; [done|..].
    + exfalso. eapply Hfresh; [exact Hi|]. by apply Hold in Hj.
    + exfalso. eapply Hfresh; [exact Hj|]. by apply Hold in Hi.
    + eapply He; by eapply Hold.
Qed.

(** What a driver does to its conversation. *)
Lemma chat_step_ok seen s ch a :
  seat_ok seen s ch →
  match a with
  | Disconnects => connected ch ≠ None → resume_state ch = None ∨ resume_state ch = connected ch
  | _ => True
  end →
  let seen' := match a with Opens c => (provider s, c) :: seen | _ => seen end in
  seat_ok seen' s (chat_step ch a) ∧
  (acp_session_id (chat_step ch a) = acp_session_id ch ∨
   ∃ c, a = Opens c ∧ acp_session_id (chat_step ch a) = Some c).
Proof.
  intros (Hp & Hst & Hseen) Hlaw. unfold seat_ok, settled, chat_step in *.
  destruct ch as [prov acp resume conn], a as [|c| |]; simpl in *.
  - destruct conn as [x|]; [by split; [split_and!|left]|]. destruct resume as [c|]; simpl; [|by split; [split_and!|left]].
    specialize (Hst c eq_refl). subst acp. by split; [split_and!|left].
  - destruct conn as [x|].
    + split; [split_and!; [done..|]|by left]. intros c' Hc. right. by apply Hseen.
    + simpl. split; [split_and!; [done..|]|right; by exists c]. intros c' [= <-]. by left.
  - destruct conn as [x|]; [|by split; [split_and!|left]]. by destruct prov; simpl; (split; [split_and!|left]).
  - destruct conn as [x|]; simpl; [|by split; [split_and!|left]]. split; [split_and!; [done| |done]|by left].
    destruct (Hlaw ltac:(done)) as [->| ->]; [done|]. by intros c [= <-].
Qed.

Lemma seats_driver_step m seen k a :
  Seats m seen → lawful m seen (DriverStep k a) →
  Seats (manager_step m (DriverStep k a)) (named m (DriverStep k a) ++ seen).
Proof.
  intros Hm Hlaw. pose proof Hm as [Hs Ht He].
  assert (Hsub : seen ⊆ named m (DriverStep k a) ++ seen) by set_solver.
  apply (seats_mono _ _ _ Hsub) in Hm as Hm'. simpl manager_step.
  remember (named m (DriverStep k a)) as nm eqn:Hnm.
  destruct (resources m !! k) as [[| |ch d]|] eqn:E; try done. destruct (is_driving d); [|done].
  destruct (sessions m !! k) as [s|] eqn:Esk.
  2:{ apply (seats_sub m); simpl; try done; [by eauto|..].
      - intros id ch0 d0 [x Hid]. rewrite lookup_insert_ne by congruence. eauto.
      - intros id Hid. by apply lookup_insert_is_Some'; right.
      - by left. }
  destruct (chat_step_ok seen s ch a) as [Hseat Hacp]; [by eapply Hs| |].
  { destruct a; try done. by apply (Hlaw ch d). }
  assert (Hseat' : seat_ok (nm ++ seen) s (chat_step ch a)).
  { subst nm. destruct a; simpl; rewrite ?Esk; exact Hseat. }
  set (m' := set_resource m k _).
  assert (Hold : ∀ i p c, i ≠ k → holds m' i p c → holds m i p c).
  { intros i p c Hne. unfold holds, m'. simpl. by rewrite !lookup_insert_ne. }
  assert (Hmine : ∀ p c, holds m' k p c → p = provider s ∧ acp_session_id (chat_step ch a) = Some c).
  { intros p c [(s0 & Hs0 & Hp) (ch0 & d0 & Hr & Hc)]. unfold m' in *. simpl in *. rewrite lookup_insert_eq in Hr.
    injection Hr as <- <-. rewrite Esk in Hs0. by injection Hs0 as <-. }
  assert (Hother : ∀ p c i, i ≠ k → holds m' k p c → holds m' i p c → False).
  { intros p c i Hne Hk Hi. apply Hold in Hi; [|done]. apply Hmine in Hk as [-> Hc].
    destruct Hacp as [Hsame|(c' & -> & Hc')].
    - apply Hne. eapply He; [exact Hi|]. split; [by exists s|]. exists ch, d. by rewrite <- Hsame.
    - rewrite Hc' in Hc. injection Hc as ->. apply (Hlaw s Esk).
      destruct Hi as [(s0 & Hs0 & Hp0) (ch0 & d0 & Hr0 & Hc0)]. rewrite <- Hp0. by eapply (Hs i s0 ch0 d0). }
  split.
  - intros id s0 ch0 d0. unfold m'. simpl. destruct (decide (k = id)) as [<-|Hne].
    + rewrite lookup_insert_eq, Esk. intros H1 H2. simplify_eq. exact Hseat'.
    + rewrite lookup_insert_ne by done. intros H1 H2. exact (se_seat _ _ Hm' id s0 ch0 d0 H1 H2).
  - intros t Hin. pose proof (se_tasks _ _ Hm' t Hin) as Hok. destruct t as [| | | | |k'|]; try done.
    destruct Hok as [Hr Hn]. split; [|done]. unfold m'. simpl. by apply lookup_insert_is_Some'; right.
  - intros i j p c Hi Hj. destruct (decide (i = k)) as [->|Hik], (decide (j = k)) as [->|Hjk]; [done|..].
    + by destruct (Hother p c j).
    + by destruct (Hother p c i).
    + eapply He; by eapply Hold.
Qed.

Lemma seats_step m seen e :
  Numbering m → Seats m seen → lawful m seen e → Seats (manager_step m e) (named m e ++ seen).
Proof.
  intros Hn Hm Hlaw.
  assert (Hm' : Seats m (named m e ++ seen)) by (eapply seats_mono; [|done]; set_solver).
  destruct e as [s|i activity|i|k relay|k|k t|k|k a|k t activity]; [..|by apply seats_driver_step|]; clear Hm Hlaw.
  - simpl manager_step. unfold reserve_capacity. destruct (_ <=? 0); [done|].
    apply (seats_sub m); simpl; [done|by eauto|by eauto|done|].
    intros t [?|Hin]%elem_of_app; [by left|right]. apply list_elem_of_singleton in Hin as ->.
    destruct s as [|?|t p [c|]]; try done. simpl. by left.
  - simpl named in *. rewrite app_nil_l in *. simpl.
    destruct (tasks m !! i) as [t|] eqn:Hi; [|done]. pose proof (list_elem_of_lookup_2 _ _ _ Hi) as Hin.
    assert (Hdel : ∀ u, u ∈ delete i (tasks m) → u ∈ tasks m) by (intros u; by apply list_elem_of_delete_inv).
    pose proof (se_tasks _ _ Hm' t Hin) as Hok.
    assert (Hdrive : ∀ k b ts, (∀ u, u ∈ ts → u ∈ tasks m ∨ task_ok (with_tasks (set_driver m k (Driving b)) ts) seen u) →
      Seats (with_tasks (set_driver m k (Driving b)) ts) seen).
    { intros k b ts Hts. destruct (set_driver_rest m k (Driving b)) as (_ & E1 & _).
      apply (seats_sub m); simpl; rewrite ?E1; [done|by eauto| | |done].
      - intros id ch d _. unfold set_driver. destruct (resources m !! k) as [[| |c' d']|] eqn:E; simpl; [by eauto..| |by eauto].
        destruct (decide (k = id)) as [->|Hne]; [rewrite lookup_insert_eq; intros [= <- <-]; eauto|].
        rewrite lookup_insert_ne by done. eauto.
      - intros id. by apply set_driver_resources. }
    destruct t as [s|s k|s k|k|k|k|k]; simpl.
    + apply (seats_sub m); simpl; [done|by eauto|by eauto|done|].
      intros u [->|?]%elem_of_cons; [by right|left; by apply Hdel].
    + destruct (locked m); [done|].
      destruct (nu_unborn_new m Hn k) as [_ Hr]; [rewrite (unborn_take _ _ _ Hi); by left|].
      apply seats_register; try done. apply eq_None_not_Some. intros Hk%(nu_sessions m Hn). by rewrite Hr in Hk.
    + apply (seats_sub m); simpl; [done|by eauto|by eauto|done|].
      intros u Hu. destruct s; [left; by apply Hdel..|]. apply elem_of_cons in Hu as [->|?]; [by right|left; by apply Hdel].
    + apply Hdrive. intros u [->|?]%elem_of_cons; [by right|left; by apply Hdel].
    + apply Hdrive. intros u Hu. left. by apply Hdel.
    + destruct Hok as [Hr Hnone]. apply (seats_sub m); simpl; [done|by eauto| | |by left; apply Hdel].
      * intros id ch d [x Hid]. rewrite lookup_alter_ne by congruence. eauto.
      * intros id. by rewrite lookup_alter_is_Some.
    + unfold reap. destruct (child_gone m k); [|done].
      apply (seats_sub m); simpl; [done|by eauto|by eauto|done|by left; apply Hdel].
  - simpl. destruct (tasks m !! i) as [[|[]| | | | |]|]; try done.
    apply (seats_sub m); simpl; [done|by eauto|by eauto|done|]. left. by eapply list_elem_of_delete_inv.
  - simpl. destruct (locked m); [done|]. unfold kill. destruct (sessions m !! k) as [s|] eqn:Ek; [|done].
    assert (Hk : Seats {| next_id := next_id m; sessions := delete k (sessions m); session_slots := session_slots m;
        resources := resources m; tasks := tasks m ++ [Killing k]; events := events m; pruned := pruned m |} seen).
    { apply (seats_sub m); simpl; [done| |by eauto|done|].
      - intros id s0 [_ ?]%lookup_delete_Some. eauto.
      - intros u [?|Hu]%elem_of_app; [by left|right]. apply list_elem_of_singleton in Hu as ->.
        split; simpl; [apply (nu_sessions m Hn); by rewrite Ek|apply lookup_delete_eq]. }
    by destruct (source s), relay.
  - simpl. destruct (locked m); [done|]. unfold remove_dead. destruct (sessions m !! k) eqn:Ek; [|done].
    apply (seats_sub m); simpl; [done| |by eauto|done|].
    + intros id s0 [_ ?]%lookup_delete_Some. eauto.
    + intros u [?|Hu]%elem_of_app; [by left|right]. by apply list_elem_of_singleton in Hu as ->.
  - simpl. destruct (locked m); [done|]. destruct (rename_rest m k t) as (E1 & E2 & _ & _ & E5).
    apply (seats_sub m); rewrite ?E2, ?E1; try done; [|by eauto|by left].
    intros id s0. unfold rename. destruct (sessions m !! k) as [s|] eqn:Ek; simpl; [|by eauto].
    intros [[<- <-]|[_ ?]]%lookup_insert_Some; eauto.
  - simpl. destruct (resources m !! k) as [[kk o x| |]|] eqn:E; try done.
    apply (seats_sub m); simpl; [done|by eauto| |intros; by apply lookup_insert_is_Some'; right|by left].
    intros id ch d _ [[_ ?]|[_ ?]]%lookup_insert_Some; [done|eauto].
  - simpl. destruct (resources m !! k) as [[| |? d]|]; try done. destruct (is_driving d); [|done].
    destruct (rename_rest m k t) as (E1 & E2 & _ & _ & E5).
    apply (seats_sub m); simpl; rewrite ?E2, ?E1; try done; [|by eauto|by left].
    intros id s0. unfold rename. destruct (sessions m !! k) as [s|] eqn:Ek; simpl; [|by eauto].
    intros [[<- <-]|[_ ?]]%lookup_insert_Some; eauto.
Qed.


(** ** Every end is told once *)

Definition tells (id : Z) (e : ManagerEvent) : bool := match e with Removed k => k =? id | Added _ => false end.
Definition ends (id : Z) (t : Task) : bool := match t with Killing k | Reaping k => k =? id | _ => false end.
Definition notices (m : SessionManager) (id : Z) : nat := (count_if (tells id) (events m) + count_if (ends id) (tasks m))%nat.
Definition departures (m : SessionManager) (id : Z) : nat :=
  if decide (is_Some (resources m !! id)) then (if decide (is_Some (sessions m !! id)) then 0 else 1)%nat else 0%nat.

Definition told (m : SessionManager) : Prop := ∀ id, notices m id = departures m id.

Lemma told_same m m' :
  told m → (∀ id, notices m' id = notices m id) →
  (∀ id, is_Some (sessions m' !! id) ↔ is_Some (sessions m !! id)) →
  (∀ id, is_Some (resources m' !! id) ↔ is_Some (resources m !! id)) → told m'.
Proof.
  intros Hm Hn Hs Hr id. rewrite Hn, Hm. unfold departures.
  repeat case_decide; try done; exfalso; rewrite <- ?Hr, <- ?Hs in *; done.
Qed.

Lemma told_leave m k x t m' :
  told m → Numbering m → sessions m !! k = Some x → ends k t = true → (∀ id, ends id t = (k =? id)) →
  sessions m' = delete k (sessions m) → resources m' = resources m → events m' = events m →
  tasks m' = tasks m ++ [t] → told m'.
Proof.
  intros Hm Hn Hk Ht Hends Es Er Ee Et id. unfold notices, departures. rewrite Es, Er, Ee, Et, count_if_app, count_if_cons.
  specialize (Hm id). unfold notices, departures in Hm. rewrite Hends.
  destruct (Z.eqb_spec k id) as [->|Hne].
  - assert (Hsome : is_Some (sessions m !! id)) by (by eexists).
    rewrite decide_True in Hm by (by apply (nu_sessions m Hn)). rewrite decide_True in Hm by done.
    rewrite decide_True by (by apply (nu_sessions m Hn)).
    rewrite decide_False by (rewrite lookup_delete_eq; by intros [? [=]]). unfold count_if at 3. simpl. lia.
  - rewrite lookup_delete_ne by done. unfold count_if at 3. simpl. lia.
Qed.

Lemma told_end m i t k :
  told m → tasks m !! i = Some t → (∀ id, ends id t = (k =? id)) → ∀ m',
  sessions m' = sessions m → (∀ id, is_Some (resources m' !! id) ↔ is_Some (resources m !! id)) →
  events m' = events m ++ [Removed k] → tasks m' = delete i (tasks m) → told m'.
Proof.
  intros Hm Hi Hends m' Es Er Ee Et. apply (told_same m); [done| |by intros id; rewrite Es|done].
  intros id. unfold notices. rewrite Ee, Et, count_if_app, count_if_cons, (count_if_take _ _ _ _ Hi), Hends.
  unfold count_if at 2. simpl. lia.
Qed.

Lemma told_step m e : Numbering m → told m → told (manager_step m e).
Proof.
  intros Hn Hm. destruct e as [s|i activity|i|k relay|k|k t|k|k c|k t activity]; simpl.
  - unfold reserve_capacity. destruct (_ <=? 0); [done|]. apply (told_same m); try done. intros id. unfold notices.
    simpl. rewrite count_if_app, count_if_cons. unfold count_if at 3. simpl. lia.
  - destruct (tasks m !! i) as [t|] eqn:Hi; [|done].
    assert (Hq : ∀ id, (∀ id, ends id t = false) → count_if (ends id) (tasks m) = count_if (ends id) (delete i (tasks m))).
    { intros id Ht. by rewrite (count_if_take _ _ _ _ Hi), Ht. }
    destruct t as [s|s k|s k|k|k|k|k]; simpl.
    + apply (told_same m); try done. intros id. unfold notices. simpl. by rewrite count_if_cons, (Hq id).
    + destruct (locked m); [done|]. intros id. specialize (Hm id). unfold notices, departures in *. simpl.
      rewrite count_if_cons, <- Hq by done. simpl. rewrite Hm.
      destruct (nu_unborn_new m Hn k) as [_ Hr]; [rewrite (unborn_take _ _ _ Hi); by left|].
      destruct (decide (k = id)) as [->|Hne]; [|by rewrite !lookup_insert_ne].
      rewrite decide_False by (rewrite Hr; by intros [? [=]]).
      by rewrite !decide_True by (rewrite lookup_insert_eq; by eexists).
    + apply (told_same m); try done. intros id. unfold notices. simpl.
      rewrite count_if_app, count_if_cons. unfold count_if at 2. simpl. destruct s; rewrite ?count_if_cons, (Hq id); simpl; lia || done.
    + destruct (set_driver_rest m k (Driving false)) as (_ & E1 & _ & _ & E4). apply (told_same m); simpl; rewrite ?E1; try done.
      * intros id. unfold notices. simpl. by rewrite E4, count_if_cons, (Hq id).
      * intros id. apply set_driver_resources.
    + destruct (set_driver_rest m k (Driving true)) as (_ & E1 & _ & _ & E4). apply (told_same m); simpl; rewrite ?E1; try done.
      * intros id. unfold notices. simpl. by rewrite E4, (Hq id).
      * intros id. apply set_driver_resources.
    + eapply (told_end m i (Killing k) k); try done. simpl. intros id. by rewrite lookup_alter_is_Some.
    + unfold reap. destruct (child_gone m k); [|done]. by eapply (told_end m i (Reaping k) k).
  - destruct (tasks m !! i) as [[|s id| | | | |]|] eqn:Hi; try done. destruct s; try done.
    apply (told_same m); try done. intros id'. unfold notices. simpl. by rewrite (count_if_take _ _ _ _ Hi).
  - destruct (locked m); [done|]. unfold kill. destruct (sessions m !! k) as [s|] eqn:Hk; [|done].
    destruct (source s), relay; simpl; try done;
      (eapply (told_leave m k s (Killing k)); try done; simpl; apply Z.eqb_refl).
  - destruct (locked m); [done|]. unfold remove_dead. destruct (sessions m !! k) as [s|] eqn:Hk; [|done].
    eapply (told_leave m k s (Reaping k)); try done; simpl; apply Z.eqb_refl.
  - destruct (locked m); [done|]. destruct (rename_rest m k t) as (E1 & E2 & _ & _ & E5).
    apply (told_same m); rewrite ?E2; try done.
    + intros id. unfold notices. by rewrite E1, E5.
    + intros id. apply rename_sessions.
  - destruct (resources m !! k) as [[]|] eqn:E; try done. apply (told_same m); try done. simpl.
    intros id. apply is_Some_insert_iff. by rewrite E.
  - destruct (resources m !! k) as [[| |? d]|] eqn:E; try done. destruct (is_driving d); [|done].
    apply (told_same m); try done. simpl. intros id. apply is_Some_insert_iff. by rewrite E.
  - destruct (resources m !! k) as [[| |? d]|] eqn:E; try done. destruct (is_driving d); [|done].
    destruct (rename_rest m k t) as (E1 & E2 & _ & _ & E5). apply (told_same m); simpl; rewrite ?E2; try done.
    + intros id. unfold notices. simpl. rewrite E1, E5, count_if_app, count_if_cons. unfold count_if at 2. simpl. lia.
    + intros id. apply rename_sessions.
Qed.

(** The end of every session is told exactly once: a number that left the registry
    has one notice sent or an ending under way that will send it, whether it was
    killed, reaped, or both at the same time; any other has none. *)
Theorem every_end_is_told_once max es id :
  let m := manager_run max es in
  (count_if (tells id) (events m) + count_if (ends id) (tasks m))%nat =
    if decide (departed m id) then 1%nat else 0%nat.
Proof.
  intros m. assert (Hall : Numbering m ∧ told m).
  { apply (manager_invariant (λ m, Numbering m ∧ told m)).
    - split; [apply numbering_new|]. intros i. unfold notices, departures. simpl. rewrite decide_False; [done|].
      rewrite lookup_empty. by intros [? [=]].
    - intros m' e [Hn Ht]. split; [by apply numbering_step|by apply told_step]. }
  destruct Hall as [Hn Ht]. specialize (Ht id). unfold notices, departures, departed in *. rewrite Ht.
  repeat case_decide; try done.
  - destruct H1 as [_ Hnone]. by rewrite Hnone in H0.
  - destruct H1. split; [done|]. by apply eq_None_not_Some.
  - by destruct H0.
Qed.

(** ** Where the code falls short *)

Definition kills (id : Z) (t : Task) : bool := match t with Killing k => k =? id | _ => false end.

(** An agent out of the registry whose driver runs and that nobody is ending. *)
Definition orphaned (m : SessionManager) (id : Z) : Prop :=
  departed m id ∧ existsb (kills id) (tasks m) = false ∧ ∃ c d, resources m !! id = Some (Acp c (Driving d)).

Lemma existsb_delete {A} (f : A → bool) l i : existsb f l = false → existsb f (delete i l) = false.
Proof.
  intros Hl. apply not_true_iff_false. intros (x & Hx & Hf)%existsb_exists.
  apply not_true_iff_false in Hl. apply Hl, existsb_exists. exists x. split; [|done].
  apply list_elem_of_In. apply list_elem_of_In in Hx. by eapply list_elem_of_delete_inv.
Qed.

Lemma orphaned_drives m k d id ts :
  (∃ c d, resources m !! id = Some (Acp c (Driving d))) → 
  ∃ c d', resources (with_tasks (set_driver m k (Driving d)) ts) !! id = Some (Acp c (Driving d')).
Proof.
  intros (c & d0 & Hr). unfold set_driver. simpl. destruct (resources m !! k) as [[| |c' d']|] eqn:E; simpl; eauto.
  destruct (decide (k = id)) as [->|Hne]; [rewrite lookup_insert_eq|rewrite lookup_insert_ne by done]; eauto.
Qed.

Lemma orphaned_step m e id : Numbering m → orphaned m id → orphaned (manager_step m e) id.
Proof.
  intros Hn (Hd & Hk & Hr). split; [by apply departed_step|]. destruct Hr as (c & d & Hr).
  assert (Hsame : existsb (kills id) (tasks m) = false ∧ ∃ c d, resources m !! id = Some (Acp c (Driving d))) by eauto.
  assert (Hdel : ∀ i, existsb (kills id) (delete i (tasks m)) = false) by (intros; by apply existsb_delete).
  destruct Hd as [_ Hnone].
  destruct e as [s|i activity|i|k relay|k|k t|k|k c'|k t activity]; simpl; try exact Hsame.
  - unfold reserve_capacity. destruct (_ <=? 0); [exact Hsame|]. simpl. rewrite existsb_app, Hk. eauto.
  - destruct (tasks m !! i) as [t|] eqn:Hi; [|exact Hsame].
    assert (Ht : kills id t = false).
    { apply not_true_iff_false. intros Ht. apply not_true_iff_false in Hk. apply Hk, existsb_exists.
      exists t. split; [|done]. by eapply list_elem_of_In, list_elem_of_lookup_2. }
    destruct t as [s|s k|s k|k|k|k|k]; simpl in *.
    + rewrite Hdel. eauto.
    + destruct (locked m); [exact Hsame|]. simpl. rewrite Hdel. split; [done|].
      destruct (nu_unborn_new m Hn k) as [_ Hr']; [rewrite (unborn_take _ _ _ Hi); by left|].
      rewrite lookup_insert_ne by (intros ->; congruence). eauto.
    + destruct s; simpl; rewrite Hdel; eauto.
    + rewrite Hdel. split; [done|]. apply (orphaned_drives m k false id []). eauto.
    + rewrite Hdel. split; [done|]. apply (orphaned_drives m k true id []). eauto.
    + rewrite Hdel. split; [done|]. rewrite lookup_alter_ne by (by apply Z.eqb_neq). eauto.
    + unfold reap. destruct (child_gone m k); [|exact Hsame]. simpl. rewrite Hdel. eauto.
  - destruct (tasks m !! i) as [[|[]| | | | |]|]; try exact Hsame. simpl. rewrite Hdel. eauto.
  - destruct (locked m); [exact Hsame|]. unfold kill. destruct (sessions m !! k) as [s|] eqn:Es; [|exact Hsame].
    assert (Hne : (k =? id) = false) by (apply Z.eqb_neq; intros ->; congruence).
    destruct (source s), relay; simpl; try exact Hsame; rewrite existsb_app, Hk; simpl; rewrite Hne; eauto.
  - destruct (locked m); [exact Hsame|]. unfold remove_dead. destruct (sessions m !! k) as [s|]; [|exact Hsame].
    simpl. rewrite existsb_app, Hk. eauto.
  - destruct (locked m); [exact Hsame|]. destruct (rename_rest m k t) as (-> & -> & _). exact Hsame.
  - destruct (resources m !! k) as [[]|] eqn:E; try exact Hsame. simpl. split; [done|].
    rewrite lookup_insert_ne by (intros ->; congruence). eauto.
  - destruct (resources m !! k) as [[| |c0 d0]|] eqn:E; try exact Hsame. destruct (is_driving d0); [|exact Hsame].
    simpl. split; [done|]. destruct (decide (k = id)) as [->|Hne].
    + rewrite lookup_insert_eq. rewrite Hr in E. injection E as <- <-. eauto.
    + rewrite lookup_insert_ne by done. eauto.
  - destruct (resources m !! k) as [[| |c0 d0]|]; try exact Hsame. destruct (is_driving d0); [|exact Hsame].
    simpl. destruct (rename_rest m k t) as (-> & -> & _). exact Hsame.
Qed.

Module SessionExamples.
#[local] Transparent gmap_empty.

(** An agent is killed after it was listed and before the handle of its driver was
    stored. *)
Definition agent : Spawn := SpawnAgent None (Some ClaudeCode) (Some "chat").
Definition early_kill : list Event :=
  [Reserve agent; Run 0 false; Run 0 false; Kill 1 Sent; Run 0 false; Run 1 false; Run 0 false; Run 0 false].

(** A shell leaves its terminal but lives on; a relay shares one meanwhile. *)
Definition shell_lives_on : list Event :=
  [Reserve (SpawnShell None); Run 0 false; Run 0 false; Run 0 false;
   Reserve (RegisterAdopted "laptop"); Run 0 false; Run 0 false; Run 0 false; RemoveDead 1; Run 0 false].

(** A relay's session is killed between its registration and its announcement. *)
Definition late_announcement : list Event :=
  [Reserve (RegisterAdopted "laptop"); Run 0 false; Run 0 false; Kill 1 Sent; Run 1 false; Run 0 false].

(** Two spawns looked up the same conversation; the first one's driver reopens it, the
    second's opens a new one, and both notice. *)
Definition two_spawns : list Event :=
  [Reserve agent; Reserve agent; Run 0 false; Run 1 false; Run 0 false; Run 1 false;
   Run 0 false; Run 0 false; Run 0 false; Run 0 false; Run 0 false; Run 0 false;
   DriverStep 2 Reopens; DriverStep 1 (Opens "new chat"); DriverStep 2 Persists; DriverStep 1 Persists;
   DriverStep 1 Disconnects; DriverStep 1 Reopens].

(** A driver cannot reopen its conversation and opens a new one; a second spawn looks
    the old one up and gets it; and the connection of the first is lost before it
    noted the new one. *)
Definition lost_before_noted : list Event :=
  [Reserve agent; Run 0 false; Run 0 false; Run 0 false; Run 0 false; Run 0 false;
   DriverStep 1 (Opens "new chat");
   Reserve agent; Run 0 false; Run 0 false; Run 0 false; Run 0 false; Run 0 false;
   DriverStep 2 Reopens; DriverStep 1 Disconnects; DriverStep 1 Reopens].
End SessionExamples.
Import SessionExamples.

(** A killed agent can go on running: a kill that comes between the registration
    of an agent and the storing of its driver's handle finds nothing to abort,
    and the driver that is then started is out of the registry, so nothing the
    host does afterwards ever stops it. *)
Theorem early_kill_leaves_the_agent_running es :
  let m := manager_run 64 early_kill in
  tasks m = [] ∧ count_if (tells 1) (events m) = 1%nat ∧
  sessions (foldl manager_step m es) !! 1 = None ∧
  ∃ c d, resources (foldl manager_step m es) !! 1 = Some (Acp c (Driving d)).
Proof.
  intros m. split; [vm_compute; reflexivity|]. split; [vm_compute; reflexivity|].
  assert (Hall : Numbering (foldl manager_step m es) ∧ orphaned (foldl manager_step m es) 1).
  { apply (manager_invariant (λ m, Numbering m ∧ orphaned m 1)).
    - split; [apply numbering_run|]. split; [|split; [vm_compute; reflexivity|]].
      + split; [apply (bool_decide_unpack _); vm_compute; exact I|vm_compute; reflexivity].
      + eexists _, true. vm_compute. reflexivity.
    - intros m' e [Hn Ho]. split; [by apply numbering_step|by apply orphaned_step]. }
  destruct Hall as [_ ([_ Hnone] & _ & Hr)]. done.
Qed.

Definition stalled (m : SessionManager) (id : Z) : Prop :=
  Reaping id ∈ tasks m ∧ ∃ k o, resources m !! id = Some (Pty k o false).

Lemma stalled_locked m id : stalled m id → locked m = true.
Proof. intros [Hin _]. apply existsb_exists. exists (Reaping id). by rewrite <- list_elem_of_In. Qed.

Lemma stalled_step m e id :
  Numbering m → stalled m id → e ≠ ChildExits id →
  stalled (manager_step m e) id ∧ dom (sessions (manager_step m e)) = dom (sessions m).
Proof.
  intros Hn Hst He. pose proof (stalled_locked m id Hst) as Hl. pose proof Hst as [Hin (k0 & o0 & Hr)].
  assert (Hins : ∀ k (r : Resource), k ≠ id → ∃ k1 o1, <[k := r]> (resources m) !! id = Some (Pty k1 o1 false)).
  { intros k r Hne. rewrite lookup_insert_ne by done. eauto. }
  assert (Hdriver : ∀ k d, ∃ k1 o1, resources (set_driver m k d) !! id = Some (Pty k1 o1 false)).
  { intros k d. unfold set_driver. destruct (resources m !! k) as [[| |c d']|] eqn:E; eauto. simpl. apply Hins. congruence. }
  unfold stalled. destruct e as [s|i activity|i|k relay|k|k t|k|k c|k t activity]; simpl; rewrite ?Hl; try done.
  - unfold reserve_capacity. destruct (_ <=? 0); [done|]. simpl. split; [|done]. split; [apply elem_of_app; by left|eauto].
  - destruct (tasks m !! i) as [t|] eqn:Hi; [|done].
    assert (Hrest : t ≠ Reaping id → Reaping id ∈ delete i (tasks m)).
    { intros Hne. by destruct (elem_of_take_out _ _ _ _ Hi Hin). }
    destruct t as [s|s k|s k|k|k|k|k]; simpl; rewrite ?Hl.
    + split; [|done]. split; [right; by apply Hrest|eauto].
    + done.
    + split; [|done]. split; [destruct s; [by apply Hrest..|right; by apply Hrest]|eauto].
    + rewrite (proj1 (proj2 (set_driver_rest m k _))). split; [|done]. split; [right; by apply Hrest|apply Hdriver].
    + rewrite (proj1 (proj2 (set_driver_rest m k _))). split; [|done]. split; [by apply Hrest|apply Hdriver].
    + split; [|done]. split; [by apply Hrest|]. destruct (decide (k = id)) as [->|Hne].
      * rewrite lookup_alter_eq, Hr. simpl. eauto.
      * rewrite lookup_alter_ne by done. eauto.
    + unfold reap. destruct (child_gone m k) eqn:Hg; [|done]. simpl. split; [|done]. split; [|eauto].
      apply Hrest. intros [= ->]. unfold child_gone in Hg. by rewrite Hr in Hg.
  - destruct (tasks m !! i) as [[|s k| | | | |]|] eqn:Hi; try done. destruct s; try done. simpl. split; [|done].
    split; [|eauto]. by destruct (elem_of_take_out _ _ _ _ Hi Hin).
  - destruct (resources m !! k) as [[]|] eqn:E; try done. simpl. split; [|done]. split; [done|]. apply Hins. congruence.
  - destruct (resources m !! k) as [[| |c0 d0]|] eqn:E; try done. destruct (is_driving d0); [|done]. simpl.
    split; [|done]. split; [done|]. apply Hins. congruence.
  - destruct (resources m !! k) as [[| |c0 d0]|]; try done. destruct (is_driving d0); [|done]. simpl.
    destruct (rename_rest m k t) as (-> & -> & _). split; [by split; eauto|]. apply set_eq. intros x.
    rewrite !elem_of_dom. apply rename_sessions.
Qed.

(** One shell that closes its terminal and lives on stops the registry: its reaper
    keeps the registry locked while it waits for the process, and until that
    exits, nothing is registered or removed and no kill has an effect, whatever
    anybody does. *)
Theorem a_living_child_stalls_the_registry max es es' id :
  let m := manager_run max es in
  Reaping id ∈ tasks m → (∃ k o, resources m !! id = Some (Pty k o false)) → ChildExits id ∉ es' →
  let m' := foldl manager_step m es' in
  dom (sessions m') = dom (sessions m) ∧ ∀ k relay, manager_step m' (Kill k relay) = m'.
Proof.
  intros m Hin Hr Hes m'.
  assert (Hall : ∀ m0, Numbering m0 → stalled m0 id → ChildExits id ∉ es' →
    stalled (foldl manager_step m0 es') id ∧ dom (sessions (foldl manager_step m0 es')) = dom (sessions m0)).
  { clear. induction es' as [|e es' IH]; intros m0 Hn Hst Hes; simpl; [done|].
    apply not_elem_of_cons in Hes as [He Hes]. destruct (stalled_step m0 e id Hn Hst ltac:(congruence)) as [Hst' Hd].
    destruct (IH (manager_step m0 e) (numbering_step m0 e Hn) Hst' Hes) as [? Hd']. split; [done|congruence]. }
  destruct (Hall m (numbering_run max es) (conj Hin Hr) Hes) as [Hst Hd]. split; [done|].
  intros k relay. simpl. by rewrite (stalled_locked m' id Hst).
Qed.

(** A conversation can be driven twice: a driver that opened a new conversation and
    loses its connection before it noted it reopens the old one, which another spawn
    was given meanwhile, since the registry went by the new one. *)
Theorem forgotten_note_shares_a_conversation :
  let m := manager_run 64 lost_before_noted in
  holds m 1 (Some ClaudeCode) "chat" ∧ holds m 2 (Some ClaudeCode) "chat" ∧
  lawful (manager_run 64 (take 14 lost_before_noted)) [] (DriverStep 2 Disconnects) ∧
  ¬ lawful (manager_run 64 (take 14 lost_before_noted)) [] (DriverStep 1 Disconnects).
Proof.
  intros m. split; [|split; [|split]].
  - split; [eexists; split; [vm_compute; reflexivity|done]|]. eexists _, _. split; [vm_compute; reflexivity|done].
  - split; [eexists; split; [vm_compute; reflexivity|done]|]. eexists _, _. split; [vm_compute; reflexivity|done].
  - intros ch d Hr. vm_compute in Hr. injection Hr as <- <-. intros _. by right.
  - intros Hl. specialize (Hl {| chat_provider := Some ClaudeCode; acp_session_id := Some "new chat";
      resume_state := Some "chat"; connected := Some "new chat" |} (Driving true)).
    destruct Hl as [Hl|Hl]; [vm_compute; reflexivity|done|discriminate Hl|discriminate Hl].
Qed.

(** A session that is gone can be announced after its end was told: its registration
    and its announcement are not one step, so a viewer that follows the notices
    keeps an entry for nothing. *)
Theorem announced_after_its_end :
  let m := manager_run 64 late_announcement in
  tasks m = [] ∧ sessions m !! 1 = None ∧
  events m = [Removed 1; Added (info 1 (session_of (RegisterAdopted "laptop")) false)].
Proof. split_and!; vm_compute; reflexivity. Qed.

Module SessionWitnesses.
#[local] Transparent gmap_empty.

Lemma limit_witness :
  session_slots (manager_run 64 shell_lives_on) + Z.of_nat (size (sessions (manager_run 64 shell_lives_on))) +
    Z.of_nat (permits (tasks (manager_run 64 shell_lives_on))) = 64 ∧
  0 <= session_slots (manager_run 64 shell_lives_on) ∧ Z.of_nat (size (sessions (manager_run 64 shell_lives_on))) <= 64.
Proof. apply (sessions_stay_within_the_limit 64 shell_lives_on). lia. Defined.

Lemma number_witness :
  sessions (foldl manager_step (manager_run 64 late_announcement) two_spawns) !! 1 = None.
Proof.
  apply (a_number_names_one_session 64 late_announcement two_spawns 1); [|vm_compute; reflexivity].
  apply (bool_decide_unpack _). vm_compute. exact I.
Defined.


Lemma stall_witness :
  dom (sessions (foldl manager_step (manager_run 64 shell_lives_on) [Kill 2 Sent; Kill 1 Sent])) =
    dom (sessions (manager_run 64 shell_lives_on)) ∧
  ∀ k relay, manager_step (foldl manager_step (manager_run 64 shell_lives_on) [Kill 2 Sent; Kill 1 Sent]) (Kill k relay) =
    foldl manager_step (manager_run 64 shell_lives_on) [Kill 2 Sent; Kill 1 Sent].
Proof.
  apply (a_living_child_stalls_the_registry 64 shell_lives_on [Kill 2 Sent; Kill 1 Sent] 1).
  - apply list_elem_of_In. vm_compute. auto.
  - exists false, true. vm_compute. reflexivity.
  - rewrite !not_elem_of_cons. split_and!; [done..|apply not_elem_of_nil].
Defined.
End SessionWitnesses.
