(* ===== verification/Programs.v ===== *)
(** * Programs: code that calls what it does not own

    An asynchronous handler is a program: it calls the socket, the session
    registry, a clock or another task, goes on with the answer, and returns or
    leaves early. What such calls answer is up to whoever answers them; a run of
    a program takes its answers from a relation on a state, and may be cut at any
    call, as a task is that is aborted while it waits. *)

From S2P Require Import Prelude.

Section Programs.
Context {action : Type} {answer : action → Type} {E : Type}.

Inductive prog (A : Type) : Type :=
| Ret (a : A)
| Throw (e : E)                            (* an early return: [?] or [break] *)
| Act (c : action) (k : answer c → prog A).
#[global] Arguments Ret {A} a.
#[global] Arguments Throw {A} e.
#[global] Arguments Act {A} c k.

Fixpoint prog_bind_ {A B} (f : A → prog B) (p : prog A) : prog B :=
  match p with
  | Ret a => f a
  | Throw e => Throw e
  | Act c k => Act c (λ b, prog_bind_ f (k b))
  end.
#[global] Instance prog_ret : MRet prog := λ A a, Ret a.
#[global] Instance prog_bind : MBind prog := λ A B, prog_bind_.

#[global] Instance prog_fmap : FMap prog := λ A B f p, p ≫= λ a, Ret (f a).

Definition call (c : action) : prog (answer c) := Act c Ret.

(** One call and its answer. *)
Record did := Did { did_call : action; did_answer : answer did_call }.

Inductive exit (A : Type) :=
| Returned (a : A)
| Threw (e : E)
| Interrupted.
#[global] Arguments Returned {A} a.
#[global] Arguments Threw {A} e.
#[global] Arguments Interrupted {A}.

(** ** Runs *)
Section Runs.
Context {S : Type} (next : S → ∀ c, answer c → S → Prop).

Inductive runs {A} : S → prog A → list did → S → exit A → Prop :=
| runs_ret s a : runs s (Ret a) [] s (Returned a)
| runs_throw s e : runs s (Throw e) [] s (Threw e)
| runs_cut s p : runs s p [] s Interrupted
| runs_act s c k b s1 tr s2 x :
    next s c b s1 → runs s1 (k b) tr s2 x → runs s (Act c k) (Did c b :: tr) s2 x.

(** [I] holds throughout, [Q] where the program returns, [L] where it leaves. *)
Fixpoint safe {A} (I : S → Prop) (Q : A → S → Prop) (L : E → S → Prop) (p : prog A) (s : S) : Prop :=
  I s ∧
  match p with
  | Ret a => Q a s
  | Throw e => L e s
  | Act c k => ∀ b s', next s c b s' → safe I Q L (k b) s'
  end.

Lemma safe_now {A} I Q L (p : prog A) s : safe I Q L p s → I s.
Proof. destruct p; by intros []. Qed.

Lemma safe_mono {A} (I I' : S → Prop) (Q Q' : A → S → Prop) (L L' : E → S → Prop) p s :
  (∀ s, I s → I' s) → (∀ a s, Q a s → Q' a s) → (∀ e s, L e s → L' e s) →
  safe I Q L p s → safe I' Q' L' p s.
Proof.
  intros HI HQ HL. revert s. induction p as [a|e|c k IH]; intros s [Hi Hp]; simpl; split; auto.
Qed.

Lemma safe_bind {A B} I (Q : B → S → Prop) L (p : prog A) (f : A → prog B) s :
  safe I (λ a s, safe I Q L (f a) s) L p s → safe I Q L (p ≫= f) s.
Proof.
  change (p ≫= f) with (prog_bind_ f p).
  revert s. induction p as [a|e|c k IH]; intros s [Hi Hp]; simpl in *; auto.
Qed.

(** What a program is safe for holds of every run of it. *)
Lemma safe_runs {A} I Q L (p : prog A) s tr s' x :
  safe I Q L p s → runs s p tr s' x →
  I s' ∧ match x with Returned a => Q a s' | Threw e => L e s' | Interrupted => True end.
Proof.
  intros Hs Hr. induction Hr as [s a|s e|s p|s c k b s1 tr s2 x Hn Hr IH].
  - by destruct Hs.
  - by destruct Hs.
  - split; [by eapply safe_now|done].
  - apply IH. destruct Hs as [_ Hs]. by apply Hs.
Qed.

(** How a run of a program begins. *)
Lemma runs_inv {A} s (p : prog A) tr s' x :
  runs s p tr s' x →
  match p with
  | Ret a => tr = [] ∧ s' = s ∧ (x = Returned a ∨ x = Interrupted)
  | Throw e => tr = [] ∧ s' = s ∧ (x = Threw e ∨ x = Interrupted)
  | Act c k =>
      (tr = [] ∧ s' = s ∧ x = Interrupted) ∨
      ∃ b s1 tr', tr = Did c b :: tr' ∧ next s c b s1 ∧ runs s1 (k b) tr' s' x
  end.
Proof. intros Hr. destruct Hr as [| |s []|]; naive_solver. Qed.

Lemma runs_bind_inv {A B} (p : prog A) (f : A → prog B) s tr s' x :
  runs s (p ≫= f) tr s' x →
  (∃ a tr1 s1 tr2, runs s p tr1 s1 (Returned a) ∧ runs s1 (f a) tr2 s' x ∧ tr = tr1 ++ tr2) ∨
  (∃ e, runs s p tr s' (Threw e) ∧ x = Threw e) ∨
  (runs s p tr s' Interrupted ∧ x = Interrupted).
Proof.
  change (p ≫= f) with (prog_bind_ f p).
  revert s tr. induction p as [a|e|c k IH]; intros s tr; simpl; intros Hr.
  - left. exists a, [], s, tr. split; [constructor|done].
  - apply runs_inv in Hr as (-> & -> & [-> | ->]); right; [left; eexists; split; [constructor|done]|].
    right. split; [constructor|done].
  - apply runs_inv in Hr as [(-> & -> & ->)|(b & s1 & tr' & -> & Hn & Hr)].
    { right; right. split; [constructor|done]. }
    apply IH in Hr as [(a & tr1 & s2 & tr2 & H1 & H2 & ->)|[(e & H1 & ->)|[H1 ->]]].
    + left. exists a, (Did c b :: tr1), s2, tr2. split; [by econstructor|done].
    + right; left. exists e. split; [by econstructor|done].
    + right; right. split; [by econstructor|done].
Qed.

Lemma runs_bind {A B} (p : prog A) (f : A → prog B) s tr1 s1 a tr2 s' x :
  runs s p tr1 s1 (Returned a) → runs s1 (f a) tr2 s' x → runs s (p ≫= f) (tr1 ++ tr2) s' x.
Proof.
  change (p ≫= f) with (prog_bind_ f p).
  revert s tr1. induction p as [a0|e|c k IH]; intros s tr1 H1 H2; simpl; apply runs_inv in H1.
  - destruct H1 as (-> & -> & [[= ->]|[=]]). done.
  - destruct H1 as (_ & _ & [[=]|[=]]).
  - destruct H1 as [(_ & _ & [=])|(b & s2 & tr' & -> & Hn & H1)].
    simpl. econstructor; [exact Hn|]. by apply IH.
Qed.

Lemma runs_call {A} c (f : answer c → prog A) s b s1 tr s' x :
  next s c b s1 → runs s1 (f b) tr s' x → runs s (call c ≫= f) (Did c b :: tr) s' x.
Proof. intros Hn Hr. by econstructor. Qed.
End Runs.

(** ** Which calls a program can make *)
Section Calls.
(** [P] is to hold of every call and [L] of every early return, where calls answer
    as [R] says. *)
Context (P : action → Prop) (R : ∀ c, answer c → Prop) (L : E → Prop).

Fixpoint always {A} (p : prog A) : Prop :=
  match p with
  | Ret _ => True
  | Throw e => L e
  | Act c k => P c ∧ ∀ b, R c b → always (k b)
  end.

Lemma always_bind {A B} (p : prog A) (f : A → prog B) :
  always p → (∀ a, always (f a)) → always (p ≫= f).
Proof.
  intros Hp Hf. change (p ≫= f) with (prog_bind_ f p).
  induction p as [a|e|c k IH]; simpl in *; [done|done|]. naive_solver.
Qed.

Lemma always_fmap {A B} (f : A → B) (p : prog A) : always p → always (f <$> p).
Proof. intros Hp. by apply always_bind. Qed.

Lemma always_call c : P c → always (call c).
Proof. by split. Qed.

Lemma always_call_bind {A} c (f : answer c → prog A) :
  P c → (∀ b, R c b → always (f b)) → always (call c ≫= f).
Proof. by split. Qed.

Lemma always_runs {S A} (next : S → ∀ c, answer c → S → Prop) (p : prog A) s tr s' x :
  (∀ s c b s', next s c b s' → R c b) →
  always p → runs next s p tr s' x →
  Forall (λ d, P (did_call d)) tr ∧ match x with Threw e => L e | _ => True end.
Proof.
  intros Hn Hp Hr. induction Hr as [| | |s c k b s1 tr s2 x Hb Hr IH]; simpl in *; [done..|].
  destruct Hp as [Hc Hk]. destruct (IH (Hk b (Hn _ _ _ _ Hb))) as [Ht Hx]. split; [by constructor|done].
Qed.
End Calls.

Lemma always_weaken {A} (P P' : action → Prop) R L (p : prog A) :
  (∀ c, P c → P' c) → always P R L p → always P' R L p.
Proof. intros HP. induction p as [a|e|c k IH]; simpl; naive_solver. Qed.

(** ** How often a program makes a call *)
Section Counting.
Context (w : action → bool).

Definition did_w (d : did) : bool := w (did_call d).

(** [n] times before it returns, whatever it is answered. *)
Fixpoint exactly {A} (n : nat) (p : prog A) : Prop :=
  match p with
  | Ret _ => n = O
  | Throw _ => True
  | Act c k => if w c then ∃ m, n = Datatypes.S m ∧ ∀ b, exactly m (k b) else ∀ b, exactly n (k b)
  end.

Lemma exactly_bind {A B} n m (p : prog A) (f : A → prog B) :
  exactly n p → (∀ a, exactly m (f a)) → exactly (n + m) (p ≫= f).
Proof.
  intros Hp Hf. change (p ≫= f) with (prog_bind_ f p).
  revert n Hp. induction p as [a|e|c k IH]; intros n Hp; simpl in *; [by subst|done|].
  destruct (w c); [|intros b; by apply IH].
  destruct Hp as (n' & -> & Hp). exists (n' + m)%nat. split; [done|]. intros b. by apply IH.
Qed.

Lemma exactly_0_bind {A B} m (p : prog A) (f : A → prog B) :
  exactly 0 p → (∀ a, exactly m (f a)) → exactly m (p ≫= f).
Proof. apply (exactly_bind 0). Qed.

Lemma exactly_assoc {A B C} n (p : prog A) (f : A → prog B) (g : B → prog C) :
  exactly n (p ≫= λ a, f a ≫= g) → exactly n ((p ≫= f) ≫= g).
Proof.
  change (exactly n (prog_bind_ (λ a, prog_bind_ g (f a)) p) → exactly n (prog_bind_ g (prog_bind_ f p))).
  revert n. induction p as [a|e|c k IH]; intros n; simpl; [done..|].
  destruct (w c); [|by intros Hp b; apply IH]. intros (m & -> & Hp). exists m. split; [done|].
  intros b. by apply IH.
Qed.

Lemma exactly_call_bind {A} n c (f : answer c → prog A) :
  (if w c then ∃ m, n = Datatypes.S m ∧ ∀ b, exactly m (f b) else ∀ b, exactly n (f b)) →
  exactly n (call c ≫= f).
Proof. done. Qed.

Lemma exactly_fmap {A B} n (f : A → B) (p : prog A) : exactly n p → exactly n (f <$> p).
Proof. intros Hp. rewrite <- (Nat.add_0_r n). by apply exactly_bind. Qed.

Lemma exactly_runs {S A} (next : S → ∀ c, answer c → S → Prop) n (p : prog A) s tr s' x :
  exactly n p → runs next s p tr s' x →
  (count_if did_w tr <= n)%nat ∧ match x with Returned _ => count_if did_w tr = n | _ => True end.
Proof.
  intros Hp Hr. revert n Hp. induction Hr as [s a|s e|s p|s c k b s1 tr s2 x Hn Hr IH]; intros n Hp.
  - simpl in Hp. subst. done.
  - split; [unfold count_if; simpl; lia|done].
  - split; [unfold count_if; simpl; lia|done].
  - simpl in Hp. rewrite count_if_cons. change (did_w (Did c b)) with (w c). destruct (w c).
    + destruct Hp as (m & -> & Hp). destruct (IH m (Hp b)) as [Hle Heq].
      split; [lia|]. destruct x; [lia|done..].
    + destruct (IH n (Hp b)) as [Hle Heq]. split; [simpl; lia|]. destruct x; [simpl; lia|done..].
Qed.
End Counting.

(** ** Runs with a record of what was done *)
Section Ghost.
Context {S G : Type} (next : S → ∀ c, answer c → S → Prop) (f : G → did → G).

Definition recorded (sg : S * G) (c : action) (b : answer c) (sg' : S * G) : Prop :=
  next sg.1 c b sg'.1 ∧ sg'.2 = f sg.2 (Did c b).

Lemma runs_recorded {A} (p : prog A) s g tr s' x :
  runs next s p tr s' x → runs recorded (s, g) p tr (s', foldl f g tr) x.
Proof.
  intros Hr. revert g. induction Hr as [| | |s c k b s1 tr s2 x Hn Hr IH]; intros g; [constructor..|].
  econstructor; [|apply IH]. by split.
Qed.

(** A property of the record, shown program by program. *)
Lemma safe_recorded {A} (I : S * G → Prop) Q L (p : prog A) s g tr s' x :
  safe recorded I Q L p (s, g) → runs next s p tr s' x →
  I (s', foldl f g tr) ∧
  match x with
  | Returned a => Q a (s', foldl f g tr)
  | Threw e => L e (s', foldl f g tr)
  | Interrupted => True
  end.
Proof. intros Hs Hr. eapply safe_runs; [exact Hs|by apply runs_recorded]. Qed.
End Ghost.
End Programs.

#[global] Arguments prog {action} answer E A.
#[global] Arguments did {action} answer.
#[global] Arguments Did {action answer} did_call did_answer.
#[global] Arguments exit E A : clear implicits.
