(* ===== verification/Connection.v ===== *)
(** * Connection: serving one phone

    [handle_client] of [crates/host/src/iroh_serve.rs]: the loop that opens what
    the phone sends, checks its direction and that the phone is still paired,
    carries the command out and writes what is due, with [attach] and
    [attach_resume]; the tasks it starts; and the task that turns the registry's
    events into frames. Each is a program over the calls it makes ([Call]); a call
    into another component may answer anything that component can. Every frame
    the loop writes itself goes straight to the socket; what other tasks have for
    the phone waits in a queue the loop empties when it has nothing better to do. *)

From S2P Require Import Prelude Errors Crypto Envelope Protocol Output Programs.
Import Envelope Wire Stream Screen.

Definition OUT_QUEUE_FRAMES : nat := 16.
Definition IN_QUEUE_FRAMES : nat := 8.

Abbreviation Path := string (only parsing).

(** ** Calls *)

(** A task the loop starts and does not wait for. *)
Inductive Task :=
| ListConversations (req_id : Z) (rel : string) (provider : AgentProvider)
| SetMode (req_id id : Z) (mode_id : string)
| SetConfig (req_id id : Z) (config_id : string) (value : AgentConfigValue)
| RegisterPush (provider : PushProvider) (token : string) (sealed_wake_blob : bytes)
| NotifyRevoked.

(** [AgentResume] as this file uses it. *)
Inductive AgentResume := Latest.

Inductive Call :=
(* this connection's own state *)
| OpenMsg (env : SealedFrame)
| StoreActive (id : Z) | LoadActive
| AbortForwarder | StartForwarder (id : Z)
(* the socket, the queue of the other tasks, and starting one *)
| WriteFrame (f : Frame)
| Enqueue (f : Frame)
| SpawnTask (t : Task)
(* the peer store *)
| Revocation | IsRevoked | Revoke
(* the registry *)
| SpawnShell (cwd : option Path) (title : option string)
| SpawnAgent (provider : AgentProvider) (title : option string) (resume : AgentResume) (cwd : option Path)
| ResumeAgent (cwd : Path) (acp_session_id : string)
| GetSession (id : Z)
| KillSession (id : Z)
| RenameSession (id : Z) (title : string)
| ListSessions
| ResolvePermission (tool_call_id : string) (option_id : option string)
| AgentProviderAvailability_
| ListAgentSessions (cwd : Path)
| ListAgentSessionsFor (provider : AgentProvider) (cwd : Path)
(* one session *)
| WriteInput (id : Z) (data : bytes)
| AgentSnapshot (id : Z) | AgentWorkspaceScope (id : Z) | AgentPermissions (id : Z)
| SnapshotAndSubscribe (id : Z)
| DeltaSinceAndSubscribe (id after_seq : Z)
| SessionSize (id : Z)
| SessionResolvePermission (id : Z) (tool_call_id : string) (option_id : option string)
| AgentPrompt (id : Z) (text : string)
| AgentCancel (id : Z)
| AgentSetMode (id : Z) (mode_id : string)
| AgentSetConfig (id : Z) (config_id : string) (value : AgentConfigValue)
| AgentAuthenticate (id : Z) (method_id : string)
(* directories *)
| WorkspaceDir
| GetTerminalRoots | TerminalRootPath (root : TerminalRoot)
| ListDirs (base : Path) (rel : string)
| ResolveWithin (base : Path) (rel : string)
(* transfers *)
| StartDownload (id : Z) (path : string) (start_seq : Z) (allow_outside_home : bool)
| StartUpload (id : Z) (path : string) (size : Z) (mode : option Z) (allow_outside_home : bool)
| UploadChunk (id seq : Z) (data : bytes)
| FinishUpload (id size : Z) (checksum : bytes)
| RetryDownload (id from_seq : Z)
| CancelDownload (id : Z) | CancelUpload (id : Z)
(* push *)
| PushConfigured
| UpsertRegistration (provider : PushProvider) (token : string) (sealed_wake_blob : bytes)
| RegisterWithRelay
| PushNotifyRevoked.

(** An error is the text it is shown as. *)
Definition answer (c : Call) : Type :=
  match c with
  | OpenMsg _ => option Frame
  | LoadActive => Z
  | WriteFrame _ | Enqueue _ | IsRevoked | GetSession _ | KillSession _ | RenameSession _ _
  | PushConfigured => bool
  | Revocation => option (option bytes * bytes)      (* the tombstone's pair and event *)
  | Revoke => result string bytes
  | SpawnShell _ _ | SpawnAgent _ _ _ _ | ResumeAgent _ _ => result string Z
  | ListSessions => list SessionInfo
  | AgentProviderAvailability_ => list AgentProviderAvailability
  | ListAgentSessions _ | ListAgentSessionsFor _ _ => list AgentSessionSummary
  | AgentSnapshot _ => option (list AgentTimelineEvent)
  | AgentWorkspaceScope _ => WorkspaceScope
  | AgentPermissions _ => list (ToolCallCard * list PermissionOption * PermissionCategory)
  | SnapshotAndSubscribe _ => bytes * Z
  | DeltaSinceAndSubscribe _ _ => option (list OutputChunk * Z)
  | SessionSize _ => Z * Z
  | AgentPrompt _ _ | AgentCancel _ | AgentSetMode _ _ | AgentSetConfig _ _ _ | AgentAuthenticate _ _
  | StartUpload _ _ _ _ _ | UpsertRegistration _ _ _ | RegisterWithRelay => result string unit
  | WorkspaceDir => Path
  | GetTerminalRoots => list TerminalRoot
  | TerminalRootPath _ => option Path
  | ListDirs _ _ => result string (string * list string)
  | ResolveWithin _ _ => result string Path
  | UploadChunk _ _ _ => result string (option Frame)
  | FinishUpload _ _ _ => result string Frame
  | _ => unit
  end.

(** How the loop ends: it breaks out, returns an error, or reaches the arm its
    author declared unreachable. *)
Inductive Leave := Broke | Failed | Panicked.

Abbreviation Program := (prog answer Leave).

Definition send_frame (f : Frame) : Program unit :=
  ok ← call (WriteFrame f);
  if ok : bool then Ret tt else Throw Failed.

Fixpoint send_frames (fs : list Frame) : Program unit :=
  match fs with
  | [] => Ret tt
  | f :: fs => _ ← send_frame f; send_frames fs
  end.

Definition approval_frame (id : Z) (scope : WorkspaceScope)
    (p : ToolCallCard * list PermissionOption * PermissionCategory) : Frame :=
  let '(tool_call, options, category) := p in
  Frame_PolicyPermissionRequest id tool_call options category scope.

Section Host.
(** [host_generation] of this run of the host, and the pair this connection
    authenticated. *)
Context (host_generation : Z) (pair_id : bytes).

(** ** Attaching *)

Definition attach (id : Z) : Program unit :=
  _ ← call AbortForwarder;
  found ← call (GetSession id);
  if negb found then Ret tt
  else
    agent ← call (AgentSnapshot id);
    match agent with
    | Some events =>
        _ ← send_frame (Frame_AgentSnapshot id events);
        scope ← call (AgentWorkspaceScope id);
        ps ← call (AgentPermissions id);
        send_frames (approval_frame id scope <$> ps)
    | None =>
        s ← call (SnapshotAndSubscribe id);
        _ ← send_frame (Frame_ScreenReset id host_generation);
        wh ← call (SessionSize id);
        _ ← send_frames (tail (attach_frames id host_generation wh.1 wh.2 s.1 s.2));
        call (StartForwarder id)
    end.

Definition attach_resume (id after_seq client_generation : Z) : Program unit :=
  found ← call (GetSession id);
  if negb found then Ret tt
  else if negb (client_generation =? host_generation) then attach id
  else
    agent ← call (AgentSnapshot id);
    match agent with
    | Some _ => attach id
    | None =>
        d ← call (DeltaSinceAndSubscribe id after_seq);
        match d with
        | None => attach id
        | Some (chunks, through) =>
            _ ← call AbortForwarder;
            wh ← call (SessionSize id);
            _ ← send_frames (resume_frames id wh.1 wh.2 after_seq chunks through);
            call (StartForwarder id)
        end
    end.

(** The session on screen is not to be streamed any more. *)
Definition forget_viewed (id : Z) : Program unit :=
  viewed ← call LoadActive;
  if viewed =? id then (_ ← call (StoreActive 0); call AbortForwarder) else Ret tt.

(** ** Correlated requests *)

Definition started (what : string) (r : result string Z) : CommandOutcome :=
  match r with
  | Ok id => CommandOutcome_Ok (Some id)
  | Err e => CommandOutcome_Error (what +:+ e)
  end.
Definition done (id : Z) (what : string) (r : result string unit) : CommandOutcome :=
  match r with
  | Ok _ => CommandOutcome_Ok (Some id)
  | Err e => CommandOutcome_Error (what +:+ e)
  end.

Definition new_shell (cwd : option Path) (title : option string) : Program CommandOutcome :=
  r ← call (SpawnShell cwd title);
  Ret (started "could not create session: " r).

(** Go on with the resolved directory, or report why it is refused. *)
Definition resolved (what : string) (base : Path) (rel : string) (k : Path → Program CommandOutcome)
    : Program CommandOutcome :=
  r ← call (ResolveWithin base rel);
  match r with
  | Ok cwd => k cwd
  | Err e => Ret (CommandOutcome_Error (what +:+ e))
  end.

Definition listed_dirs (req_id : Z) (base : Path) (rel : string) : Program CommandOutcome :=
  r ← call (ListDirs base rel);
  match r with
  | Ok (rel, names) =>
      _ ← send_frame (Frame_WorkspaceDirs req_id rel names);
      Ret (CommandOutcome_Ok None)
  | Err e => Ret (CommandOutcome_Error ("could not list directories: " +:+ e))
  end.

Definition in_root (root : TerminalRoot) (k : Path → Program CommandOutcome) : Program CommandOutcome :=
  base ← call (TerminalRootPath root);
  match base with
  | Some base => k base
  | None => Ret (CommandOutcome_Error "this host does not offer that folder")
  end.

(** A call on an agent session, if it is still there. *)
Definition on_agent (id : Z) (k : Program CommandOutcome) : Program CommandOutcome :=
  found ← call (GetSession id);
  if found : bool then k
  else Ret (CommandOutcome_Error "that agent session is no longer available").

Definition attach_request (id : Z) : Program (option CommandOutcome) :=
  found ← call (GetSession id);
  if negb found then Ret (Some (CommandOutcome_Error "that session is no longer available"))
  else
    _ ← call (StoreActive id);
    _ ← attach id;
    Ret (Some (CommandOutcome_Ok (Some id))).

Definition kill_request (id : Z) : Program (option CommandOutcome) :=
  _ ← forget_viewed id;
  killed ← call (KillSession id);
  Ret (Some (if killed : bool then CommandOutcome_Ok (Some id)
             else CommandOutcome_Error "could not close that session - it is gone or its terminal is not responding")).

Definition rename_request (id : Z) (title : string) : Program (option CommandOutcome) :=
  renamed ← call (RenameSession id title);
  if renamed : bool then
    sessions ← call ListSessions;
    _ ← send_frame (Frame_SessionList sessions);
    Ret (Some (CommandOutcome_Ok (Some id)))
  else Ret (Some (CommandOutcome_Error "rename failed: that session no longer exists")).

Definition conversations_request (req_id : Z) (rel : string) : Program (option CommandOutcome) :=
  root ← call WorkspaceDir;
  Some <$> resolved "could not list conversations: " root rel (λ cwd,
    sessions ← call (ListAgentSessions cwd);
    _ ← send_frame (Frame_AgentSessions req_id rel sessions);
    Ret (CommandOutcome_Ok None)).

Definition resume_request (rel acp_session_id : string) : Program (option CommandOutcome) :=
  root ← call WorkspaceDir;
  Some <$> resolved "could not resume: " root rel (λ cwd,
    r ← call (ResumeAgent cwd acp_session_id);
    Ret (started "could not resume: " r)).

Definition new_agent_request (provider : AgentProvider) (title : option string) (rel : string) : Program (option CommandOutcome) :=
  root ← call WorkspaceDir;
  Some <$> resolved "could not start agent: " root rel (λ cwd,
    r ← call (SpawnAgent provider title Latest (Some cwd));
    Ret (started "could not start agent: " r)).

(** The outcome of a request, or [None] where a task will report it. *)
Definition request (req_id : Z) (kind : RequestKind) : Program (option CommandOutcome) :=
  match kind with
  | RequestKind_NewSession cwd title | RequestKind_NewSessionSized cwd title _ _ =>
      Some <$> new_shell cwd title
  | RequestKind_ListTerminalRoots =>
      roots ← call GetTerminalRoots;
      _ ← send_frame (Frame_TerminalRoots req_id roots);
      Ret (Some (CommandOutcome_Ok None))
  | RequestKind_ListDirsIn root rel => Some <$> in_root root (λ base, listed_dirs req_id base rel)
  | RequestKind_NewSessionInRoot root rel title =>
      Some <$> in_root root (λ base,
        resolved "could not open that folder: " base rel (λ cwd, new_shell (Some cwd) title))
  | RequestKind_NewSessionIn title rel =>
      root ← call WorkspaceDir;
      Some <$> resolved "could not open that folder: " root rel (λ cwd, new_shell (Some cwd) title)
  | RequestKind_Attach id =>
      attach_request id
  | RequestKind_KillSession id =>
      kill_request id
  | RequestKind_RenameSession id title =>
      rename_request id title
  | RequestKind_NewAgentSession provider title =>
      r ← call (SpawnAgent provider title Latest None);
      Ret (Some (started "could not start agent: " r))
  | RequestKind_ListWorkspaceDirs rel =>
      root ← call WorkspaceDir;
      Some <$> listed_dirs req_id root rel
  | RequestKind_ListAgentProviders =>
      providers ← call AgentProviderAvailability_;
      _ ← send_frame (Frame_AgentProviders req_id providers);
      Ret (Some (CommandOutcome_Ok None))
  | RequestKind_ListAgentSessions rel =>
      conversations_request req_id rel
  | RequestKind_ListAgentSessionsFor rel provider =>
      _ ← call (SpawnTask (ListConversations req_id rel provider));
      Ret None
  | RequestKind_ResumeAgentSession rel acp_session_id =>
      resume_request rel acp_session_id
  | RequestKind_NewAgentSessionIn provider title rel =>
      new_agent_request provider title rel
  | RequestKind_AgentPrompt id text =>
      Some <$> on_agent id (r ← call (AgentPrompt id text); Ret (done id "could not send prompt: " r))
  | RequestKind_AgentCancel id =>
      Some <$> on_agent id (r ← call (AgentCancel id); Ret (done id "could not cancel turn: " r))
  | RequestKind_AgentSetMode id mode_id =>
      _ ← call (SpawnTask (SetMode req_id id mode_id));
      Ret None
  | RequestKind_AgentSetConfigOption id config_id value =>
      _ ← call (SpawnTask (SetConfig req_id id config_id value));
      Ret None
  | RequestKind_AgentAuthenticate id method_id =>
      Some <$> on_agent id (r ← call (AgentAuthenticate id method_id);
                            Ret (done id "could not authenticate agent: " r))
  end.

(** ** One frame of the phone *)

Definition put_file (id : Z) (path : string) (size : Z) (mode : option Z) (allow_outside_home : bool) : Program unit :=
  r ← call (StartUpload id path size mode allow_outside_home);
  match r with
  | Ok _ => Ret tt
  | Err reason => send_frame (Frame_FileErr id reason)
  end.

Definition take_chunk (id seq : Z) (data : bytes) : Program unit :=
  r ← call (UploadChunk id seq data);
  match r with
  | Ok (Some reply) => send_frame reply
  | Ok None => Ret tt
  | Err reason =>
      _ ← call (CancelUpload id);
      send_frame (Frame_FileErr id reason)
  end.

Definition push_register (provider : PushProvider) (token : string) (sealed_wake_blob : bytes) : Program unit :=
  configured ← call PushConfigured;
  if configured : bool then call (SpawnTask (RegisterPush provider token sealed_wake_blob))
  else send_frame (Frame_PushRegisterAck false
         (Some "host has no push relay configured (set PORTTY_PUSH_RELAY_URL)")).

Definition unpair_self (request_id : Z) (claimed_pair_id : bytes) : Program unit :=
  if negb (bool_decide (claimed_pair_id = pair_id))
  then send_frame (Frame_UnpairResult request_id pair_id false (Some "pair generation mismatch"))
  else
    r ← call Revoke;
    match r with
    | Ok _ =>
        configured ← call PushConfigured;
        _ ← (if configured : bool then call (SpawnTask NotifyRevoked) else Ret tt);
        _ ← send_frame (Frame_UnpairResult request_id pair_id true None);
        Throw Broke
    | Err e => send_frame (Frame_UnpairResult request_id pair_id false (Some e))
    end.

Definition handle_frame (frame : Frame) : Program unit :=
  match frame with
  | Frame_NewSession cwd title =>
      r ← call (SpawnShell cwd title);
      match r with
      | Ok id => _ ← call (StoreActive id); attach id
      | Err e => send_frame (Frame_CommandError ("could not create session: " +:+ e))
      end
  | Frame_Attach id =>
      found ← call (GetSession id);
      if negb found then send_frame (Frame_CommandError "that session is no longer available")
      else _ ← call (StoreActive id); attach id
  | Frame_Detach => _ ← call (StoreActive 0); call AbortForwarder
  | Frame_Input id data =>
      found ← call (GetSession id);
      if found : bool then call (WriteInput id data) else Ret tt
  | Frame_Resize _ _ _ => Ret tt
  | Frame_KillSession id =>
      _ ← forget_viewed id;
      _ ← call (KillSession id);
      Ret tt
  | Frame_RenameSession id title =>
      renamed ← call (RenameSession id title);
      if renamed : bool then
        sessions ← call ListSessions;
        send_frame (Frame_SessionList sessions)
      else send_frame (Frame_CommandError "rename failed: that session no longer exists")
  | Frame_PermissionDecision tool_call_id option_id => call (ResolvePermission tool_call_id option_id)
  | Frame_AgentPermissionDecision id tool_call_id option_id =>
      found ← call (GetSession id);
      if found : bool then call (SessionResolvePermission id tool_call_id option_id) else Ret tt
  | Frame_PauseStream => call AbortForwarder
  | Frame_ResumeStream =>
      id ← call LoadActive;
      if id =? 0 then Ret tt else attach id
  | Frame_OutputResume id after_seq generation =>
      found ← call (GetSession id);
      if found : bool then
        _ ← call (StoreActive id);
        attach_resume id after_seq generation
      else Ret tt
  | Frame_FileGetReq id path start_seq allow_outside_home =>
      call (StartDownload id path start_seq allow_outside_home)
  | Frame_FilePutReq id path size mode allow_outside_home =>
      put_file id path size mode allow_outside_home
  | Frame_FileChunk id seq data =>
      take_chunk id seq data
  | Frame_FileDone id size checksum =>
      r ← call (FinishUpload id size checksum);
      send_frame (match r with Ok reply => reply | Err reason => Frame_FileErr id reason end)
  | Frame_FileRetry id from_seq => call (RetryDownload id from_seq)
  | Frame_FileErr id _ =>
      _ ← call (CancelDownload id);
      call (CancelUpload id)
  | Frame_PushRegister provider token sealed_wake_blob =>
      push_register provider token sealed_wake_blob
  | Frame_UnpairSelf request_id claimed_pair_id =>
      unpair_self request_id claimed_pair_id
  | Frame_Request req_id kind =>
      o ← request req_id kind;
      match o with
      | Some outcome => send_frame (Frame_CommandResult req_id outcome)
      | None => Ret tt
      end
  | _ => Throw Panicked
  end.

(** ** The loop *)

Inductive ConnectionControl := Revoked (pair_id event_id : bytes).

(** What the loop is woken by, in the order it looks. *)
Inductive Branch :=
| Security (control : option ConnectionControl)
| Inbound (env : option (option SealedFrame))      (* [Some None]: not an envelope *)
| Outbound (frame : Frame).

Definition branch_body (b : Branch) : Program unit :=
  match b with
  | Security (Some (Revoked pair_id event_id)) =>
      _ ← call (WriteFrame (Frame_PairRevoked pair_id event_id));
      Throw Broke
  | Security None | Inbound None | Inbound (Some None) => Throw Broke
  | Inbound (Some (Some env)) =>
      opened ← call (OpenMsg env);
      match opened with
      | None => Throw Broke
      | Some frame =>
          if negb (allows_phone_to_host (direction frame)) then Throw Broke
          else
            revoked ← call IsRevoked;
            if revoked : bool then Throw Broke else handle_frame frame
      end
  | Outbound frame =>
      ok ← call (WriteFrame frame);
      if ok : bool then Ret tt else Throw Broke
  end.

(** The approvals still waiting in every session, in the order they are listed. *)
Fixpoint waiting_approvals (sessions : list SessionInfo) : Program (list Frame) :=
  match sessions with
  | [] => Ret []
  | info :: sessions =>
      found ← call (GetSession (info_id info));
      fs ← (if found : bool then
              scope ← call (AgentWorkspaceScope (info_id info));
              ps ← call (AgentPermissions (info_id info));
              Ret (map (approval_frame (info_id info) scope) ps)
            else Ret []);
      rest ← waiting_approvals sessions;
      Ret (fs ++ rest)
  end.

(** Before the loop: a revoked phone is told and let go; any other is staged the
    session list and every waiting approval. *)
Definition greet : Program (list Frame) :=
  tombstone ← call Revocation;
  match tombstone with
  | Some (revoked_pair, event_id) =>
      _ ← (if bool_decide (revoked_pair = Some pair_id)
           then (_ ← call (WriteFrame (Frame_PairRevoked pair_id event_id)); Ret tt)
           else Ret tt);
      Throw Broke
  | None =>
      sessions ← call ListSessions;
      approvals ← waiting_approvals sessions;
      Ret (Frame_SessionList sessions :: approvals)
  end.

(** ** What the other tasks send *)

Inductive ManagerEvent :=
| Event_Added (info : SessionInfo)
| Event_Removed (id : Z)
| Event_Activity (id : Z)
| Event_AgentPermission (id : Z) (tool_call : ToolCallCard) (options : list PermissionOption)
    (category : PermissionCategory) (scope : WorkspaceScope)
| Event_AgentTimeline (id : Z) (event : AgentTimelineEvent)
| Event_Resized (id cols rows : Z)
| Event_AgentPermissionResolved (id : Z) (tool_call_id : string) (resolution : PermissionResolution)
    (by_ : PermissionResolver).

(** The frame of an event, while the phone views the session [viewed]. *)
Definition event_frame (viewed : Z) (e : ManagerEvent) : option Frame :=
  match e with
  | Event_Added info => Some (Frame_SessionAdded info)
  | Event_Removed id => Some (Frame_SessionRemoved id)
  | Event_Activity id => if viewed =? id then None else Some (Frame_ActivityBlip id)
  | Event_AgentPermission id tool_call options category scope =>
      Some (Frame_PolicyPermissionRequest id tool_call options category scope)
  | Event_AgentTimeline id event => if viewed =? id then Some (Frame_AgentTimeline id event) else None
  | Event_AgentPermissionResolved id tool_call_id resolution by_ =>
      Some (Frame_AgentPermissionResolvedInfo id tool_call_id resolution by_)
  | Event_Resized id cols rows => Some (Frame_SessionSize id cols rows)
  end.

Definition enqueue (f : Frame) : Program unit :=
  ok ← call (Enqueue f);
  if ok : bool then Ret tt else Throw Broke.

Fixpoint enqueue_all (fs : list Frame) : Program unit :=
  match fs with
  | [] => Ret tt
  | f :: fs => _ ← enqueue f; enqueue_all fs
  end.

(** One round of the event task: an event, or word that events were lost. *)
Definition forward_event (e : option ManagerEvent) : Program unit :=
  match e with
  | Some e =>
      viewed ← call LoadActive;
      match event_frame viewed e with Some f => enqueue f | None => Ret tt end
  | None =>
      sessions ← call ListSessions;
      _ ← enqueue (Frame_SessionList sessions);
      viewed ← call LoadActive;
      if viewed =? 0 then Ret tt
      else
        found ← call (GetSession viewed);
        if negb found then Ret tt
        else
          agent ← call (AgentSnapshot viewed);
          match agent with
          | None => Ret tt
          | Some events =>
              _ ← enqueue (Frame_AgentSnapshot viewed events);
              scope ← call (AgentWorkspaceScope viewed);
              ps ← call (AgentPermissions viewed);
              enqueue_all (map (approval_frame viewed scope) ps)
          end
  end.

(** The live forwarder, having lost chunks: reset, the scrollback again, checkpoint. *)
Definition resync_frames (id : Z) (snap : bytes) (through : Z) : list Frame :=
  Frame_ScreenReset id host_generation
  :: (Frame_Output id <$> slice_chunks (length snap) SNAPSHOT_CHUNK_BYTES snap)
  ++ [Frame_SequencedOutput id through []].

Definition resync_after_lag (id : Z) : Program unit :=
  s ← call (SnapshotAndSubscribe id);
  enqueue_all (resync_frames id s.1 s.2).

Definition task_request (t : Task) : option Z :=
  match t with
  | ListConversations req_id _ _ | SetMode req_id _ _ | SetConfig req_id _ _ _ => Some req_id
  | _ => None
  end.

(** The last send of a task may find the connection gone. *)
Definition report (req_id : Z) (o : CommandOutcome) : Program unit :=
  _ ← call (Enqueue (Frame_CommandResult req_id o)); Ret tt.

Definition task_body (t : Task) : Program unit :=
  match t with
  | ListConversations req_id rel provider =>
      root ← call WorkspaceDir;
      o ← resolved "could not list conversations: " root rel (λ cwd,
        sessions ← call (ListAgentSessionsFor provider cwd);
        _ ← call (Enqueue (Frame_AgentSessions req_id rel sessions));
        Ret (CommandOutcome_Ok None));
      report req_id o
  | SetMode req_id id mode_id =>
      o ← on_agent id (r ← call (AgentSetMode id mode_id); Ret (done id "could not change mode: " r));
      report req_id o
  | SetConfig req_id id config_id value =>
      o ← on_agent id (r ← call (AgentSetConfig id config_id value);
                       Ret (done id "could not change agent setting: " r));
      report req_id o
  | RegisterPush provider token sealed_wake_blob =>
      stored ← call (UpsertRegistration provider token sealed_wake_blob);
      ack ← match stored with
            | Ok _ =>
                r ← call RegisterWithRelay;
                Ret (match r with
                     | Ok _ => Frame_PushRegisterAck true None
                     | Err e => Frame_PushRegisterAck false (Some ("relay: " +:+ e))
                     end)
            | Err e => Ret (Frame_PushRegisterAck false (Some ("store: " +:+ e)))
            end;
      _ ← call (Enqueue ack); Ret tt
  | NotifyRevoked => call PushNotifyRevoked
  end.
End Host.

(** ** The connection's state *)

Definition to_phone (f : Frame) : Prop := allows_host_to_phone (direction f) = true.

Record Link `{CryptoPrims} `{AeadPrims} := {
  cipher : EnvelopeCipher;
  active_id : Z;
  forwarder : option Z;             (* the session a live forwarder streams *)
  revoked : bool;                   (* the phone's tombstone is in the peer store *)
}.

Section WithCipher.
Context `{CryptoPrims} `{AeadPrims}.
(** [postcard], for frames. *)
Context (decode : bytes → result string Frame).

Definition with_active (id : Z) (s : Link) : Link :=
  {| cipher := cipher s; active_id := id; forwarder := forwarder s; revoked := revoked s |}.
Definition with_forwarder (o : option Z) (s : Link) : Link :=
  {| cipher := cipher s; active_id := active_id s; forwarder := o; revoked := revoked s |}.
Definition with_cipher (c : EnvelopeCipher) (s : Link) : Link :=
  {| cipher := c; active_id := active_id s; forwarder := forwarder s; revoked := revoked s |}.
Definition with_revoked (s : Link) : Link :=
  {| cipher := cipher s; active_id := active_id s; forwarder := forwarder s; revoked := true |}.

(** What a call does to the connection, and what it can answer. Replies of the
    transfers are what [Transfer.upload_chunk] and [Transfer.finish_upload] return. *)
Definition effect (s : Link) (c : Call) : answer c → Link → Prop :=
  match c return answer c → Link → Prop with
  | OpenMsg env => λ b s',
      let '(r, ci) := open_msg decode (cipher s) env [] in b = result_ok r ∧ s' = with_cipher ci s
  | StoreActive id => λ _ s', s' = with_active id s
  | LoadActive => λ b s', b = active_id s ∧ s' = s
  | AbortForwarder => λ _ s', s' = with_forwarder None s
  | StartForwarder id => λ _ s', s' = with_forwarder (Some id) s
  | Revocation => λ b s', bool_decide (is_Some b) = revoked s ∧ s' = s
  | IsRevoked => λ b s', b = revoked s ∧ s' = s
  | Revoke => λ b s', s' = if is_ok b then with_revoked s else s
  | UploadChunk id _ _ => λ b s',
      match b with Ok (Some f) => ∃ seq, f = Frame_FileRetry id seq | _ => True end ∧ s' = s
  | FinishUpload id _ _ => λ b s',
      match b with Ok f => ∃ size checksum, f = Frame_FileDone id size checksum | Err _ => True end ∧ s' = s
  | _ => λ _ s', s' = s
  end.

(** Around any call, the daemon may commit a revocation. *)
Definition next (s : Link) (c : Call) (b : answer c) (s' : Link) : Prop :=
  ∃ s0, effect s c b s0 ∧ (s' = s0 ∨ s' = with_revoked s0).

(** ** Frames go the right way *)

Definition loop_call (c : Call) : Prop :=
  match c with WriteFrame f => to_phone f | Enqueue _ => False | _ => True end.
(** What handling one opened frame may call. *)
Definition frame_call (c : Call) : Prop :=
  match c with WriteFrame f => to_phone f | Enqueue _ | OpenMsg _ => False | _ => True end.
Definition task_call (c : Call) : Prop :=
  match c with Enqueue f => to_phone f | WriteFrame _ => False | _ => True end.
Definition transfer_reply (c : Call) : answer c → Prop :=
  match c return answer c → Prop with
  | UploadChunk _ _ _ => λ b, match b with Ok (Some f) => to_phone f | _ => True end
  | FinishUpload _ _ _ => λ b, match b with Ok f => to_phone f | Err _ => True end
  | _ => λ _, True
  end.
Definition not_panicked (e : Leave) : Prop := e ≠ Panicked.

Lemma next_transfer_reply s c b s' : next s c b s' → transfer_reply c b.
Proof.
  intros (s0 & He & _). destruct c; try done; simpl in *.
  - destruct b as [[f|]|]; [|done..]. by destruct He as [(? & ->) _].
  - destruct b as [f|]; [|done]. by destruct He as [(? & ? & ->) _].
Qed.

Lemma always_send_frames P R L fs :
  Forall (λ f, P (WriteFrame f)) fs → L Failed → always P R L (send_frames fs).
Proof.
  intros Hfs HL. induction Hfs as [|f fs Hf _ IH]; [done|]. simpl. split; [done|]. intros [] _; [apply IH|done].
Qed.

Lemma always_enqueue_all P R L fs :
  Forall (λ f, P (Enqueue f)) fs → L Broke → always P R L (enqueue_all fs).
Proof.
  intros Hfs HL. induction Hfs as [|f fs Hf _ IH]; [done|]. simpl. split; [done|]. intros [] _; [apply IH|done].
Qed.

Lemma approvals_to_phone id scope ps : Forall to_phone (approval_frame id scope <$> ps).
Proof. apply Forall_fmap, Forall_forall. by intros [[] ?] _. Qed.

Lemma outputs_to_phone id bs : Forall to_phone (Frame_Output id <$> bs).
Proof. apply Forall_fmap, Forall_forall. done. Qed.

Lemma attach_frames_to_phone id gen cols rows snap through :
  Forall to_phone (attach_frames id gen cols rows snap through).
Proof.
  unfold attach_frames. repeat constructor. apply Forall_app. split; [apply outputs_to_phone|by repeat constructor].
Qed.

Lemma attach_tail_to_phone id gen cols rows snap through :
  Forall to_phone (tail (attach_frames id gen cols rows snap through)).
Proof. pose proof (attach_frames_to_phone id gen cols rows snap through) as Hf. by inversion Hf. Qed.

Lemma merge_loop_to_phone id cs : ∀ merged seq, Forall to_phone (merge_loop id cs merged seq).
Proof.
  induction cs as [|c cs IH]; intros merged seq; simpl; [case_decide; by repeat constructor|].
  case_match; [constructor; [done|apply IH]|apply IH].
Qed.

Lemma resume_frames_to_phone id cols rows after cs through :
  Forall to_phone (resume_frames id cols rows after cs through).
Proof.
  unfold resume_frames. constructor; [done|]. apply Forall_app.
  split; [apply merge_loop_to_phone|by repeat constructor].
Qed.

(** Through a program, call by call. *)
Local Ltac walk_step :=
  match goal with
  | |- always _ _ _ (Ret _) => exact I
  | |- always _ _ _ (Throw _) => done
  | |- always _ _ _ (call _) => apply always_call
  | |- always _ _ _ (call _ ≫= _) => apply always_call_bind; [|intros ? ?]
  | |- always _ _ _ (_ <$> _) => apply always_fmap
  | |- always _ _ _ (send_frames _) => apply always_send_frames; [|done]
  | |- always _ _ _ (enqueue_all _) => apply always_enqueue_all; [|done]
  | |- always _ _ _ ((match ?x with _ => _ end) ≫= _) => destruct x
  | |- always _ _ _ (_ ≫= _) => apply always_bind; [|intros ?]
  | |- always _ _ _ (match ?x with _ => _ end) => destruct x eqn:?
  end.
Local Ltac walk := repeat first [walk_step | done].

Ltac open_request :=
  cbn [request];
  unfold attach_request, kill_request, rename_request, conversations_request, resume_request, new_agent_request.
Ltac open_handler := cbn [handle_frame]; unfold put_file, take_chunk, push_register, unpair_self.

Section Typed.
Context (host_generation : Z) (pair_id : bytes).
Local Abbreviation loop_ok := (always frame_call transfer_reply not_panicked).

Lemma send_frame_typed f : to_phone f → loop_ok (send_frame f).
Proof. intros Hf. unfold send_frame. walk. Qed.

Lemma attach_typed id : loop_ok (attach host_generation id).
Proof.
  unfold attach. walk; try by apply send_frame_typed.
  - apply approvals_to_phone.
  - apply attach_tail_to_phone.
Qed.

Lemma attach_resume_typed id after gen : loop_ok (attach_resume host_generation id after gen).
Proof.
  unfold attach_resume. walk; first [apply attach_typed | apply resume_frames_to_phone].
Qed.

Lemma forget_viewed_typed id : loop_ok (forget_viewed id).
Proof. unfold forget_viewed. walk. Qed.

Lemma resolved_typed what base rel k :
  (∀ cwd, loop_ok (k cwd)) → loop_ok (resolved what base rel k).
Proof. intros Hk. unfold resolved. walk. Qed.

Lemma in_root_typed root k : (∀ base, loop_ok (k base)) → loop_ok (in_root root k).
Proof. intros Hk. unfold in_root. walk. Qed.

Lemma on_agent_typed id k : loop_ok k → loop_ok (on_agent id k).
Proof. intros Hk. unfold on_agent. walk. Qed.

Lemma new_shell_typed cwd title : loop_ok (new_shell cwd title).
Proof. unfold new_shell. walk. Qed.

Lemma listed_dirs_typed req base rel : loop_ok (listed_dirs req base rel).
Proof. unfold listed_dirs. walk. by apply send_frame_typed. Qed.

Local Ltac known :=
  match goal with
  | |- always _ _ _ (attach _ _) => apply attach_typed
  | |- always _ _ _ (attach_resume _ _ _ _) => apply attach_resume_typed
  | |- always _ _ _ (forget_viewed _) => apply forget_viewed_typed
  | |- always _ _ _ (resolved _ _ _ _) => apply resolved_typed; intros ?
  | |- always _ _ _ (in_root _ _) => apply in_root_typed; intros ?
  | |- always _ _ _ (on_agent _ _) => apply on_agent_typed
  | |- always _ _ _ (new_shell _ _) => apply new_shell_typed
  | |- always _ _ _ (listed_dirs _ _ _) => apply listed_dirs_typed
  | |- always _ _ _ (send_frame _) => apply send_frame_typed
  end.

Lemma request_typed req kind : loop_ok (request host_generation req kind).
Proof.
  destruct kind; open_request; repeat first [known | walk_step | done].
Qed.

Lemma handle_frame_typed f :
  allows_phone_to_host (direction f) = true → loop_ok (handle_frame host_generation pair_id f).
Proof.
  intros Hf. destruct f; try done; open_handler;
    repeat first [known | apply request_typed | walk_step | done].
  by destruct b.
Qed.

Lemma branch_body_typed b :
  match b with Outbound f => to_phone f | _ => True end →
  always loop_call transfer_reply not_panicked (branch_body host_generation pair_id b).
Proof.
  intros Hb. destruct b as [[[p e]|]|[[env|]|]|f]; cbn [branch_body]; repeat first [walk_step | done].
  apply always_weaken with frame_call; [by intros []|]. apply handle_frame_typed. by apply negb_false_iff.
Qed.

(** The other tasks only use the queue. *)
Local Abbreviation task_ok := (always task_call (λ _ _, True) not_panicked).

Lemma enqueue_typed f : to_phone f → task_ok (enqueue f).
Proof. intros Hf. unfold enqueue. walk. Qed.

Lemma forward_event_typed e : task_ok (forward_event e).
Proof.
  unfold forward_event. walk; try by apply enqueue_typed.
  - apply enqueue_typed. destruct m; simpl in *; repeat case_match; by simplify_eq.
  - apply approvals_to_phone.
Qed.

Lemma resync_after_lag_typed id : task_ok (resync_after_lag host_generation id).
Proof.
  unfold resync_after_lag. walk. unfold resync_frames. constructor; [done|]. apply Forall_app.
  split; [apply outputs_to_phone|by repeat constructor].
Qed.

Lemma task_body_typed t : task_ok (task_body t).
Proof.
  destruct t; cbn [task_body]; unfold resolved, on_agent, report; [walk..| |walk].
  apply always_call_bind; [done|]. intros [[]|e] _; simpl; [|done].
  split; [done|]. by intros [[]|e] _.
Qed.
End Typed.

(** ** The whole connection *)

Definition written (d : did answer) : list Frame :=
  match d with
  | Did c b =>
      match c return answer c → list Frame with
      | WriteFrame f => λ ok : bool, if ok then [f] else []
      | _ => λ _, []
      end b
  end.
Definition opened_by (d : did answer) : list Frame :=
  match d with
  | Did c b =>
      match c return answer c → list Frame with
      | OpenMsg _ => λ o : option Frame, match o with Some f => [f] | None => [] end
      | _ => λ _, []
      end b
  end.
Definition queued (d : did answer) : list Frame :=
  match d with
  | Did c b =>
      match c return answer c → list Frame with
      | Enqueue f => λ ok : bool, if ok then [f] else []
      | _ => λ _, []
      end b
  end.

Section Service.
Context (host_generation : Z) (pair_id : bytes).

(** The tasks that run beside the loop and send through its queue. *)
Inductive Other :=
| Events (e : option ManagerEvent)
| Resync (id : Z)
| Spawned (t : Task).
Definition other_body (o : Other) : Program unit :=
  match o with
  | Events e => forward_event e
  | Resync id => resync_after_lag host_generation id
  | Spawned t => task_body t
  end.

(** A frame some task has for the phone: of a program above, of the live forwarder, or
    of a download. *)
Inductive Produced : Frame → Prop :=
| By_task o s tr s' x f : runs next s (other_body o) tr s' x → f ∈ (tr ≫= queued) → Produced f
| By_forwarder id queue f : f ∈ (forward_once id queue).1 → Produced f
| By_chunk id seq data : Produced (Frame_FileChunk id seq data)
| By_done id size checksum : Produced (Frame_FileDone id size checksum)
| By_error id reason : Produced (Frame_FileErr id reason).

Record Served := {
  link : Link;
  security : list ConnectionControl;  security_open : bool;
  inbox : list (option SealedFrame);  inbox_open : bool;    (* [None]: not an envelope *)
  initial : list Frame;
  outbox : list Frame;
  wire : list Frame;                  (* what was written, in order *)
  opened : list Frame;                (* what the phone sent, as opened *)
  ended : option (option Leave);      (* [Some None]: the task was aborted *)
}.

Definition select (c : Served) : option Branch :=
  match security c, security_open c with
  | r :: _, _ => Some (Security (Some r))
  | [], false => Some (Security None)
  | [], true =>
      match inbox c, inbox_open c with
      | e :: _, _ => Some (Inbound (Some e))
      | [], false => Some (Inbound None)
      | [], true =>
          match initial c, outbox c with
          | f :: _, _ | [], f :: _ => Some (Outbound f)
          | [], [] => None
          end
      end
  end.

(** The queues once the branch has taken its item. *)
Definition take (b : Branch) (c : Served) : Served :=
  let no_initial := match initial c with [] => true | _ => false end in
  {| link := link c;
     security := match b with Security _ => tail (security c) | _ => security c end;
     security_open := security_open c;
     inbox := match b with Inbound _ => tail (inbox c) | _ => inbox c end;
     inbox_open := inbox_open c;
     initial := match b with Outbound _ => tail (initial c) | _ => initial c end;
     outbox := match b with Outbound _ => if no_initial then tail (outbox c) else outbox c | _ => outbox c end;
     wire := wire c; opened := opened c; ended := ended c |}.

Definition end_of {A} (x : exit Leave A) : option (option Leave) :=
  match x with Returned _ => None | Threw e => Some (Some e) | Interrupted => Some None end.

Definition after {A} (c : Served) (tr : list (did answer)) (s : Link) (x : exit Leave A) : Served :=
  {| link := s; security := security c; security_open := security_open c; inbox := inbox c;
     inbox_open := inbox_open c; initial := initial c; outbox := outbox c;
     wire := wire c ++ (tr ≫= written); opened := opened c ++ (tr ≫= opened_by); ended := end_of x |}.

(** What comes in from outside the loop. *)
Inductive Arrival :=
| Control (r : ConnectionControl) | ControlClosed
| Sent (e : option SealedFrame) | StreamEnded
| Due (f : Frame)
| Tombstone.                                  (* the phone is revoked *)

Definition arrive (a : Arrival) (c : Served) : Served :=
  {| link := match a with Tombstone => with_revoked (link c) | _ => link c end;
     security := match a with Control r => security c ++ [r] | _ => security c end;
     security_open := match a with ControlClosed => false | _ => security_open c end;
     inbox := match a with Sent e => inbox c ++ [e] | _ => inbox c end;
     inbox_open := match a with StreamEnded => false | _ => inbox_open c end;
     initial := initial c;
     outbox := match a with Due f => outbox c ++ [f] | _ => outbox c end;
     wire := wire c; opened := opened c; ended := ended c |}.

(** The queues are bounded, and closed only once. *)
Definition can_arrive (a : Arrival) (c : Served) : Prop :=
  match a with
  | Control _ | ControlClosed => security_open c = true
  | Sent _ => inbox_open c = true ∧ (length (inbox c) < IN_QUEUE_FRAMES)%nat
  | StreamEnded => inbox_open c = true
  | Due f => Produced f ∧ (length (outbox c) < OUT_QUEUE_FRAMES)%nat
  | Tombstone => True
  end.

Inductive step (c : Served) : list (did answer) → Served → Prop :=
| step_arrive a : can_arrive a c → step c [] (arrive a c)
| step_turn b tr s' x :
    ended c = None → select c = Some b →
    runs next (link c) (branch_body host_generation pair_id b) tr s' x →
    step c tr (after (take b c) tr s' x).

Definition empty (s : Link) : Served :=
  {| link := s; security := []; security_open := true; inbox := []; inbox_open := true; initial := [];
     outbox := []; wire := []; opened := []; ended := None |}.

(** The connection of a phone whose handshake gave the cipher of [s]. *)
Definition welcomed (s : Link) (tr : list (did answer)) (s' : Link) (x : exit Leave (list Frame)) : Served :=
  let c := after (empty s) tr s' x in
  {| link := link c; security := []; security_open := true; inbox := []; inbox_open := true;
     initial := match x with Returned fs => fs | _ => [] end;
     outbox := []; wire := wire c; opened := opened c; ended := ended c |}.

Inductive serves (s : Link) : list (did answer) → Served → Prop :=
| serves_greet tr s' x : runs next s (greet pair_id) tr s' x → serves s tr (welcomed s tr s' x)
| serves_step tr c tr' c' : serves s tr c → step c tr' c' → serves s (tr ++ tr') c'.

(** *** Frames go the right way *)

Lemma other_body_typed o : always task_call (λ _ _, True) not_panicked (other_body o).
Proof. destruct o; [apply forward_event_typed|apply resync_after_lag_typed|apply task_body_typed]. Qed.

Lemma forward_once_typed id queue : Forall to_phone (forward_once id queue).1.
Proof. unfold forward_once. repeat case_match; simpl; repeat constructor. Qed.

Lemma produced_to_phone f : Produced f → to_phone f.
Proof.
  intros Hp. destruct Hp as [o s tr s' x f Hr Hf|id queue f Hf|id seq data|id size checksum|id reason]; try done.
  - pose proof (always_runs _ (λ _ _, True) _ _ _ _ _ _ _ (λ _ _ _ _ _, I) (other_body_typed o) Hr) as [Ht _].
    apply list_elem_of_bind in Hf as (d & Hf & Hd). rewrite Forall_forall in Ht. specialize (Ht _ Hd).
    destruct d as [[] b]; simpl in *; try by apply elem_of_nil in Hf.
    destruct b; [by apply list_elem_of_singleton in Hf as ->|by apply elem_of_nil in Hf].
  - pose proof (forward_once_typed id queue) as Ht. rewrite Forall_forall in Ht. by apply Ht.
Qed.

Lemma written_to_phone tr : Forall (λ d, loop_call (did_call d)) tr → Forall to_phone (tr ≫= written).
Proof.
  intros Ht. apply Forall_forall. intros f (d & Hf & Hd)%list_elem_of_bind.
  rewrite Forall_forall in Ht. specialize (Ht _ Hd).
  destruct d as [[] b]; simpl in *; try by apply elem_of_nil in Hf.
  destruct b; [by apply list_elem_of_singleton in Hf as ->|by apply elem_of_nil in Hf].
Qed.

Lemma waiting_approvals_safe sessions s :
  safe next (λ _, True) (λ fs _, Forall to_phone fs) (λ _ _, False) (waiting_approvals sessions) s.
Proof.
  revert s. induction sessions as [|i sessions IH]; intros s; [by repeat constructor|].
  cbn [waiting_approvals]. split; [done|]. intros found s1 _.
  assert (Hrest : ∀ fs s, Forall to_phone fs →
    safe next (λ _, True) (λ fs _, Forall to_phone fs) (λ _ _, False)
      (rest ← waiting_approvals sessions; Ret (fs ++ rest)) s).
  { intros fs s2 Hfs. apply safe_bind. eapply safe_mono; [..|apply IH]; [done| |done].
    intros rest s3 Hr. split; [done|]. by apply Forall_app. }
  destruct found; [|by apply Hrest].
  split; [done|]. intros scope s2 _. split; [done|]. intros ps s3 _.
  apply Hrest, approvals_to_phone.
Qed.

Lemma waiting_approvals_calls sessions :
  always loop_call transfer_reply not_panicked (waiting_approvals sessions).
Proof.
  induction sessions as [|i sessions IH]; [done|]. cbn [waiting_approvals]. walk.
Qed.

Lemma greet_typed : always loop_call transfer_reply not_panicked (greet pair_id).
Proof. unfold greet. walk. apply waiting_approvals_calls.
Qed.

Lemma greet_stages s tr s' x :
  runs next s (greet pair_id) tr s' x →
  match x with Returned fs => Forall to_phone fs | _ => True end.
Proof.
  intros Hr. eapply (safe_runs next (λ _, True) (λ fs _, Forall to_phone fs) (λ _ _, True)) in Hr.
  - destruct Hr as [_ Hr]. by destruct x.
  - unfold greet. split; [done|]. intros [[p e]|] s1 _.
    + simpl. case_bool_decide; simpl; [|done]. by repeat split.
    + split; [done|]. intros sessions s2 _. apply safe_bind.
      eapply safe_mono; [..|apply waiting_approvals_safe]; [done| |done].
      intros fs s3 Hfs. split; [done|]. by constructor.
Qed.

Lemma select_outbound c f :
  select c = Some (Outbound f) → f ∈ initial c ++ outbox c.
Proof.
  unfold select. repeat case_match; intros [=]; subst; set_solver.
Qed.

(** Everything due to the phone may go to it. *)
Definition all_typed (c : Served) : Prop :=
  Forall to_phone (initial c) ∧ Forall to_phone (outbox c) ∧ Forall to_phone (wire c) ∧
  ended c ≠ Some (Some Panicked).

Lemma step_typed c tr c' :
  all_typed c → step c tr c' → all_typed c' ∧ Forall (λ d, loop_call (did_call d)) tr.
Proof.
  intros (Hi & Ho & Hw & He) Hs. destruct Hs as [a Ha|b tr s' x Hend Hsel Hr].
  - split; [|done]. split_and!; try done; simpl. destruct a; try done.
    apply Forall_app. split; [done|]. constructor; [|done]. apply produced_to_phone, Ha.
  - pose proof (branch_body_typed host_generation pair_id b) as Hb.
    destruct (always_runs _ _ _ _ _ _ _ _ _ next_transfer_reply (Hb ltac:(
      destruct b; [done..|]; apply select_outbound in Hsel; apply elem_of_app in Hsel;
      rewrite !Forall_forall in Hi, Ho; naive_solver)) Hr) as [Ht Hx].
    split; [|done]. split_and!; simpl.
    + destruct b; [done..|]. by apply Forall_tail.
    + destruct b; [done..|]. destruct (initial c); [by apply Forall_tail|done].
    + apply Forall_app. split; [done|by apply written_to_phone].
    + destruct x as [| |]; simpl; [done| |done]. intros [= ->]. by apply Hx.
Qed.

(** C6 (type). Frames travel only in the direction their type allows: whatever phone, registry and
    tasks do, every frame written to the phone is one a host may send, the arm of the
    dispatch declared unreachable is never reached, and the loop never sends into the
    queue only it empties. *)
Theorem frames_go_the_right_way s tr c :
  serves s tr c →
  Forall to_phone (wire c) ∧ ended c ≠ Some (Some Panicked) ∧
  Forall (λ d, match did_call d with Enqueue _ => False | _ => True end) tr.
Proof.
  intros Hs. enough (all_typed c ∧ Forall (λ d, loop_call (did_call d)) tr) as [(_ & _ & Hw & He) Ht].
  { split_and!; [done..|]. eapply Forall_impl; [exact Ht|]. intros [[] b]; done. }
  induction Hs as [tr s' x Hr|tr c tr' c' Hs [IH Ht] Hstep].
  - destruct (always_runs _ _ _ _ _ _ _ _ _ next_transfer_reply greet_typed Hr) as [Ht Hx].
    split; [|done]. split_and!; simpl; [|done|by apply written_to_phone|].
    + pose proof (greet_stages _ _ _ _ Hr) as Hst. by destruct x.
    + destruct x as [| |]; simpl; [done| |done]. intros [= ->]. by apply Hx.
  - destruct (step_typed _ _ _ IH Hstep) as [IH' Ht']. split; [done|]. by apply Forall_app.
Qed.

(** *** Revocation *)

Local Ltac go_on H := cbn [mbind prog_bind prog_bind_ call fmap prog_fmap] in H.

Lemma next_revoked s c b s' : next s c b s' → revoked s = true → revoked s' = true.
Proof.
  intros (s0 & He & Hs) Hr. assert (revoked s0 = true); [|by destruct Hs as [->| ->]].
  destruct c; simpl in *; repeat case_match; try (by subst); by destruct He as [? ->].
Qed.

(** What the loop may do for a phone that is no longer paired: read, look, tell. *)
Definition passive (c : Call) : bool :=
  match c with OpenMsg _ | IsRevoked | WriteFrame _ => true | _ => false end.

(** The calls of one inbound frame: it is opened and checked, or nothing more happens. *)
Lemma inbound_runs s env tr s' x :
  runs next s (branch_body host_generation pair_id (Inbound (Some (Some env)))) tr s' x →
  (Forall (λ d, passive (did_call d) = true) tr ∧ (∀ u, x ≠ Returned u) ∧
   (tr = [] ∨ ∃ o tr', tr = Did (OpenMsg env) o :: tr' ∧ tr' ≫= opened_by = [] ∧
      o = result_ok (open_msg decode (cipher s) env []).1)) ∨
  ∃ f s1 s2 tr',
    tr = Did (OpenMsg env) (Some f) :: Did IsRevoked false :: tr' ∧
    (open_msg decode (cipher s) env []).1 = Ok f ∧
    allows_phone_to_host (direction f) = true ∧
    next s (OpenMsg env) (Some f) s1 ∧ next s1 IsRevoked false s2 ∧
    runs next s2 (handle_frame host_generation pair_id f) tr' s' x.
Proof.
  intros Hr. cbn [branch_body] in Hr.
  apply runs_inv in Hr as [(-> & -> & ->)|(o & s1 & tr1 & -> & Hn & Hr)].
  { left. split_and!; [done|done|by left]. }
  assert (Ho : o = result_ok (open_msg decode (cipher s) env []).1).
  { destruct Hn as (s0 & He & _). simpl in He. destruct (open_msg _ _ _ _). by destruct He. }
  destruct o as [f|]; cycle 1.
  { apply runs_inv in Hr as (-> & _ & Hx). left. split_and!; [by repeat constructor|by destruct Hx as [-> | ->]|].
    right. by exists None, []. }
  go_on Hr. destruct (allows_phone_to_host (direction f)) eqn:Hdir; cbn [negb] in Hr; cycle 1.
  { apply runs_inv in Hr as (-> & _ & Hx). left. split_and!; [by repeat constructor|by destruct Hx as [-> | ->]|].
    right. by exists (Some f), []. }
  apply runs_inv in Hr as [(-> & -> & ->)|(r & s2 & tr2 & -> & Hn2 & Hr)].
  { left. split_and!; [by repeat constructor|done|]. right. by exists (Some f), []. }
  go_on Hr. destruct r.
  { apply runs_inv in Hr as (-> & _ & Hx). left. split_and!; [by repeat constructor|by destruct Hx as [-> | ->]|].
    right. by exists (Some f), [Did IsRevoked true]. }
  right. exists f, s1, s2, tr2. split_and!; try done.
  destruct (open_msg decode (cipher s) env []) as [[]]; by simplify_eq/=.
Qed.

(** Any number of steps. *)
Inductive steps : Served → list (did answer) → Served → Prop :=
| steps_refl c : steps c [] c
| steps_more c tr c' tr' c'' : step c tr c' → steps c' tr' c'' → steps c (tr ++ tr') c''.

Lemma runs_revoked {A} s (p : Program A) tr s' x :
  runs next s p tr s' x → revoked s = true → revoked s' = true.
Proof. induction 1; eauto using next_revoked. Qed.

Lemma step_revoked c tr c' :
  step c tr c' → revoked (link c) = true →
  revoked (link c') = true ∧ Forall (λ d, passive (did_call d) = true) tr.
Proof.
  intros Hs Hrev. destruct Hs as [a Ha|b tr s' x Hend Hsel Hr].
  { split; [by destruct a|done]. }
  split; [by eapply runs_revoked|].
  destruct b as [[[p e]|]|[[env|]|]|f]; cbn [branch_body] in Hr.
  - apply runs_inv in Hr as [(-> & _)|(? & ? & ? & -> & _ & Hr)]; [done|]. go_on Hr.
    apply runs_inv in Hr as (-> & _). by repeat constructor.
  - by apply runs_inv in Hr as (-> & _).
  - apply inbound_runs in Hr as [(Ht & _)|(f & s1 & s2 & tr' & -> & _ & _ & Hn1 & Hn2 & _)]; [done|].
    apply next_revoked in Hn1; [|done]. destruct Hn2 as (s0 & [Hf _] & _). simpl in Hf. congruence.
  - by apply runs_inv in Hr as (-> & _).
  - by apply runs_inv in Hr as (-> & _).
  - apply runs_inv in Hr as [(-> & _)|(ok & ? & ? & -> & _ & Hr)]; [done|]. go_on Hr.
    destruct ok; apply runs_inv in Hr as (-> & _); by repeat constructor.
Qed.

(** C4 (safety). A revoked phone commands nothing: from the moment its tombstone is in the peer store, and
    for as long as it is, nothing the phone sends has any effect on the host, however
    the revocation's own notice is delayed; the loop only opens, looks and writes. *)
Theorem revoked_phone_commands_nothing c tr c' :
  revoked (link c) = true → steps c tr c' → Forall (λ d, passive (did_call d) = true) tr.
Proof.
  intros Hrev Hs. revert Hrev. induction Hs as [c|c tr c' tr' c'' Hs _ IH]; intros Hrev; [done|].
  apply step_revoked in Hs as [Hrev' Ht]; [|done]. apply Forall_app. auto.
Qed.

(** *** Every request is answered once *)

Definition result_for (req_id : Z) (f : Frame) : bool :=
  match f with Frame_CommandResult r _ => r =? req_id | _ => false end.

(** The calls that report on a request: the result itself, or the task that will. *)
Definition reports (req_id : Z) (c : Call) : bool :=
  match c with
  | WriteFrame f | Enqueue f => result_for req_id f
  | SpawnTask t => bool_decide (task_request t = Some req_id)
  | _ => false
  end.

Section Requests.
Context (req : Z).
Local Abbreviation reported n p := (exactly (E := Leave) (reports req) n p).

Lemma reported_send_frame n f : result_for req f = false → n = 0%nat → reported n (send_frame f).
Proof. intros Hf ->. simpl. rewrite Hf. by intros []. Qed.

Lemma reported_send_frames fs : Forall (λ f, result_for req f = false) fs → reported 0 (send_frames fs).
Proof.
  induction 1 as [|f fs Hf _ IH]; [done|]. apply exactly_0_bind; [by apply reported_send_frame|done].
Qed.

Lemma result_goes_nowhere f : match f with Frame_CommandResult _ _ => False | _ => True end → result_for req f = false.
Proof. by destruct f. Qed.

Lemma attach_frames_no_result id gen cols rows snap through :
  Forall (λ f, result_for req f = false) (tail (attach_frames id gen cols rows snap through)).
Proof.
  unfold attach_frames. simpl. constructor; [done|]. apply Forall_app. split; [|by repeat constructor].
  by apply Forall_fmap, Forall_forall.
Qed.

Lemma resume_frames_no_result id cols rows after cs through :
  Forall (λ f, result_for req f = false) (resume_frames id cols rows after cs through).
Proof.
  unfold resume_frames. constructor; [done|]. apply Forall_app. split; [|by repeat constructor].
  generalize (@nil Byte.byte), after. induction cs as [|c cs IH]; intros merged seq; simpl.
  - case_decide; by repeat constructor.
  - case_match; [constructor; [done|]|]; apply IH.
Qed.

Lemma approvals_no_result id scope ps :
  Forall (λ f, result_for req f = false) (approval_frame id scope <$> ps).
Proof. apply Forall_fmap, Forall_forall. by intros [[] ?] _. Qed.

Local Ltac walk1 :=
  match goal with
  | |- exactly _ _ (Ret _) => reflexivity
  | |- exactly _ _ (Throw _) => exact I
  | |- exactly _ _ (call _) => intros ?; reflexivity
  | |- exactly _ _ (call _ ≫= _) => apply exactly_call_bind; cbn [reports]; intros ?
  | |- exactly _ _ (send_frame _) => apply reported_send_frame; [reflexivity|reflexivity]
  | |- exactly _ _ (send_frames (tail _)) => apply reported_send_frames, attach_frames_no_result
  | |- exactly _ _ (send_frames (resume_frames _ _ _ _ _ _)) => apply reported_send_frames, resume_frames_no_result
  | |- exactly _ _ (send_frames _) => apply reported_send_frames, approvals_no_result
  | |- exactly _ _ (_ <$> _) => apply exactly_fmap
  | |- exactly _ _ (match ?x with _ => _ end) => destruct x
  | |- exactly _ _ (_ ≫= _) => apply exactly_0_bind; [|intros ?]
  end.

Lemma attach_reports id : reported 0 (attach host_generation id).
Proof. unfold attach. repeat walk1. Qed.

Local Ltac walk2 :=
  match goal with
  | |- exactly _ _ ((_ ≫= _) ≫= _) => apply exactly_assoc
  | |- exactly _ _ ((_ <$> ?p) ≫= ?g) => apply (exactly_assoc _ _ p (λ a, Ret (Some a)) g)
  | |- exactly _ _ ((match ?x with _ => _ end) ≫= _) => destruct x
  | |- exactly _ _ (attach _ _ ≫= _) => apply exactly_0_bind; [apply attach_reports|intros ?]
  | _ => walk1
  end.

(** What a program that serves the request [r] owes this one. *)
Definition owed (r : Z) : nat := if r =? req then 1 else 0.

(** A request whose outcome is known is told it; the others have a task to do so. *)
Lemma request_reports r kind :
  reported (owed r) (handle_frame host_generation pair_id (Frame_Request r kind)).
Proof.
  assert (Hsome : ∀ outcome, reported (owed r) (send_frame (Frame_CommandResult r outcome))).
  { intros outcome. unfold owed. simpl. destruct (r =? req); [exists 0%nat; split; [done|]|]; by intros []. }
  assert (Hspawn : ∀ t, task_request t = Some r →
    reported (owed r) ((call (SpawnTask t) : Program unit) ≫= λ _, Ret tt)).
  { intros t Ht. unfold owed. simpl. rewrite Ht. destruct (Z.eqb_spec r req) as [->|Hne].
    - rewrite bool_decide_eq_true_2 by done. by exists 0%nat.
    - by rewrite bool_decide_eq_false_2 by congruence. }
  cbn [handle_frame].
  destruct kind; open_request; unfold resolved, in_root, on_agent, new_shell, listed_dirs, forget_viewed;
    repeat match goal with
           | |- exactly _ _ (call (SpawnTask ?t) ≫= _) => exact (Hspawn t eq_refl)
           | |- exactly _ _ (Ret (Some ?o) ≫= _) => exact (Hsome o)
           | |- exactly _ (owed _) (send_frame _) => apply Hsome
           | _ => walk2
           end.
Qed.

Lemma task_reports t r : task_request t = Some r → reported (owed r) (task_body t).
Proof.
  intros Ht. assert (Hreport : ∀ o, reported (owed r) (report r o)).
  { intros o. unfold report, owed. simpl. destruct (r =? req); [by exists 0%nat|done]. }
  destruct t; try done; cbn [task_request] in Ht; injection Ht as ->; cbn [task_body]; unfold resolved, on_agent;
    repeat match goal with
           | |- exactly _ _ (Ret _ ≫= _) => apply Hreport
           | |- exactly _ _ (report _ _) => apply Hreport
           | _ => walk2
           end.
Qed.
End Requests.

(** C7 (functional). A request is answered exactly once and only for itself: if the loop gets through it, one
    result under its number was written or one task was started for it; if it is cut
    short, at most one. Such a task, run to its end, queues one result under that
    number, and none under any other. *)
Theorem every_request_is_answered_once req r (p : Program unit) s tr s' x :
  (∃ kind, p = handle_frame host_generation pair_id (Frame_Request r kind)) ∨
  (∃ t, task_request t = Some r ∧ p = task_body t) →
  runs next s p tr s' x →
  let n := count_if (did_w (reports req)) tr in
  let due := if Z.eqb r req then 1%nat else 0%nat in
  (n <= due)%nat ∧ match x with Returned _ => n = due | _ => True end.
Proof.
  intros [(kind & ->)|(t & Ht & ->)] Hr n due.
  - eapply exactly_runs; [apply request_reports|exact Hr].
  - eapply exactly_runs; [by apply task_reports|exact Hr].
Qed.

(** *** The session on screen is the one that is streamed *)

Definition coherent (s : Link) : Prop := ∀ id, forwarder s = Some id → active_id s = id.

(** Calls that leave both alone. *)
Definition neutral (c : Call) : Prop :=
  match c with StoreActive _ | AbortForwarder | StartForwarder _ => False | _ => True end.
Definition same_view (s s' : Link) : Prop := active_id s' = active_id s ∧ forwarder s' = forwarder s.

(** No session ends while one frame is handled. *)
Definition next_alive (alive : Z → bool) (s : Link) (c : Call) (b : answer c) (s' : Link) : Prop :=
  next s c b s' ∧
  match c return answer c → Prop with GetSession id => λ b : bool, b = alive id | _ => λ _, True end b.

Lemma next_neutral s c b s' : neutral c → next s c b s' → same_view s s'.
Proof.
  intros Hc (s0 & He & Hs). assert (same_view s s0) as [H1 H2].
  { destruct c; try done; simpl in He; repeat case_match; try (by subst); by destruct He as [_ ->]. }
  by destruct Hs as [-> | ->].
Qed.

Section View.
Context (alive : Z → bool).
Local Abbreviation ends_well P p s := (safe (E := Leave) (next_alive alive) (λ _, True) P (λ _ _, True) p s).

Lemma neutral_safe {A} (p : Program A) (Q : A → Link → Prop) s :
  always neutral (λ _ _, True) (λ _, True) p → (∀ a s', same_view s s' → Q a s') → ends_well Q p s.
Proof.
  revert s. induction p as [a|e|c k IH]; intros s Hp HQ; simpl; split; try done; [by apply HQ|].
  destruct Hp as [Hc Hk]. intros b s' [Hn _]. apply next_neutral in Hn as [H1 H2]; [|done].
  apply IH; [by apply Hk|]. intros a s2 [H3 H4]. apply HQ. split; congruence.
Qed.

Lemma neutral_call {A} c (f : answer c → Program A) Q s :
  neutral c → (∀ b s', same_view s s' → ends_well Q (f b) s') → ends_well Q (call c ≫= f) s.
Proof. intros Hc Hf. split; [done|]. intros b s' [Hn _]. apply Hf. by apply next_neutral in Hn. Qed.

Lemma get_session {A} id (f : bool → Program A) Q s :
  (∀ s', same_view s s' → ends_well Q (f (alive id)) s') → ends_well Q (call (GetSession id) ≫= f) s.
Proof.
  intros Hf. split; [done|]. intros b s' [Hn Hb]. simpl in Hb. subst b. apply Hf. by apply next_neutral in Hn.
Qed.

Lemma send_frames_neutral fs : always neutral (λ _ _, True) (λ _, True) (send_frames fs).
Proof. apply always_send_frames; [by apply Forall_forall|done]. Qed.

Lemma send_frame_neutral f : always neutral (λ _ _, True) (λ _, True) (send_frame f).
Proof. unfold send_frame. walk. Qed.

Lemma abort_forwarder {A} (f : unit → Program A) Q s :
  (∀ s', active_id s' = active_id s → forwarder s' = None → ends_well Q (f tt) s') →
  ends_well Q (call AbortForwarder ≫= f) s.
Proof.
  intros Hf. split; [done|]. intros [] s' [(s0 & -> & Hs) _]. by apply Hf; destruct Hs as [-> | ->].
Qed.

Lemma start_forwarder id s : active_id s = id → ends_well (λ _, coherent) (call (StartForwarder id)) s.
Proof.
  intros Ha. split; [done|]. intros [] s' [(s0 & -> & Hs) _]. split; [done|].
  intros id' Hf. destruct Hs as [-> | ->]; simpl in *; congruence.
Qed.

Lemma no_forwarder s : forwarder s = None → coherent s.
Proof. unfold coherent. congruence. Qed.

Lemma attach_coherent id s : active_id s = id → ends_well (λ _, coherent) (attach host_generation id) s.
Proof.
  intros Ha. unfold attach. apply abort_forwarder. intros s1 H1 F1.
  apply neutral_call; [done|]. intros found s2 [H2 F2]. destruct found; [|split; [done|apply no_forwarder; congruence]].
  apply neutral_call; [done|]. intros agent s3 [H3 F3]. destruct agent as [events|].
  - apply neutral_safe; [|intros _ s4 [H4 F4]; apply no_forwarder; congruence].
    apply always_bind; [apply send_frame_neutral|intros _].
    do 2 (apply always_call_bind; [done|intros ? _]). apply send_frames_neutral.
  - apply neutral_call; [done|]. intros snap s4 [H4 F4]. apply safe_bind.
    apply neutral_safe; [apply send_frame_neutral|]. intros _ s5 [H5 F5].
    apply neutral_call; [done|]. intros wh s6 [H6 F6]. apply safe_bind.
    apply neutral_safe; [apply send_frames_neutral|]. intros _ s7 [H7 F7].
    apply start_forwarder. congruence.
Qed.

Lemma attach_resume_coherent id after gen s :
  active_id s = id → alive id = true →
  ends_well (λ _, coherent) (attach_resume host_generation id after gen) s.
Proof.
  intros Ha Hal. unfold attach_resume. apply get_session. intros s1 [H1 F1]. rewrite Hal. cbn [negb].
  destruct (negb _); [apply attach_coherent; congruence|].
  apply neutral_call; [done|]. intros agent s2 [H2 F2].
  destruct agent; [apply attach_coherent; congruence|].
  apply neutral_call; [done|]. intros d s3 [H3 F3].
  destruct d as [[chunks through]|]; [|apply attach_coherent; congruence].
  apply abort_forwarder. intros s4 H4 F4.
  apply neutral_call; [done|]. intros wh s5 [H5 F5]. cbv beta. apply safe_bind.
  apply neutral_safe; [apply send_frames_neutral|]. intros _ s6 [H6 F6]. apply start_forwarder. congruence.
Qed.

Lemma store_active {A} id (f : unit → Program A) Q s :
  (∀ s', active_id s' = id → forwarder s' = forwarder s → ends_well Q (f tt) s') →
  ends_well Q (call (StoreActive id) ≫= f) s.
Proof.
  intros Hf. split; [done|]. intros [] s' [(s0 & -> & Hs) _]. by apply Hf; destruct Hs as [-> | ->].
Qed.

Lemma coherent_view s s' : coherent s → same_view s s' → coherent s'.
Proof. intros Hs [H1 H2] id Hf. rewrite H1. apply Hs. congruence. Qed.

Lemma abort_only s : ends_well (λ _, coherent) (call AbortForwarder) s.
Proof.
  split; [done|]. intros [] s' [(s0 & -> & Hs) _]. split; [done|]. apply no_forwarder. by destruct Hs as [-> | ->].
Qed.

Lemma forget_viewed_coherent id s : coherent s → ends_well (λ _, coherent) (forget_viewed id) s.
Proof.
  intros Hs. unfold forget_viewed. apply neutral_call; [done|]. intros viewed s1 Hv.
  destruct (viewed =? id); [|split; [done|by eapply coherent_view]].
  apply store_active. intros s2 _ _. apply abort_forwarder. intros s3 _ F3. split; [done|by apply no_forwarder].
Qed.

Lemma neutral_coherent {A} (p : Program A) s :
  coherent s → always neutral (λ _ _, True) (λ _, True) p → ends_well (λ _, coherent) p s.
Proof. intros Hs Hp. apply neutral_safe; [done|]. intros a s' Hv. by eapply coherent_view. Qed.

Local Ltac easy_call :=
  match goal with
  | |- always _ _ _ (send_frame _) => apply send_frame_neutral
  | |- always _ _ _ (send_frames _) => apply send_frames_neutral
  | _ => first [walk_step | done]
  end.

Lemma request_coherent req kind s :
  coherent s → ends_well (λ _, coherent) (request host_generation req kind) s.
Proof.
  intros Hs. destruct kind; open_request;
    try (apply neutral_coherent; [done|]; unfold resolved, in_root, on_agent, new_shell, listed_dirs;
         repeat easy_call; fail).
  - apply get_session. intros s1 Hv. destruct (alive id); cbn [negb]; [|split; [done|by eapply coherent_view]].
    apply store_active. intros s2 H2 _. apply safe_bind. eapply safe_mono; [..|by apply attach_coherent]; [done| |done].
    by intros ? s3 H3.
  - apply safe_bind. eapply safe_mono; [..|by apply forget_viewed_coherent]; [done| |done].
    intros ? s1 H1. apply neutral_coherent; [done|]. repeat easy_call.
Qed.

Lemma handle_frame_coherent f s :
  coherent s → ends_well (λ _, coherent) (handle_frame host_generation pair_id f) s.
Proof.
  intros Hs. destruct f; open_handler;
    try (apply neutral_coherent; [done|]; repeat easy_call; fail).
  - apply get_session. intros s1 Hv. destruct (alive id); cbn [negb].
    + apply store_active. intros s2 H2 _. by apply attach_coherent.
    + apply neutral_coherent; [by eapply coherent_view|apply send_frame_neutral].
  - apply store_active. intros s1 _ _. apply abort_only.
  - apply neutral_call; [done|]. intros r s1 Hv. destruct r as [id|e].
    + apply store_active. intros s2 H2 _. by apply attach_coherent.
    + apply neutral_coherent; [by eapply coherent_view|apply send_frame_neutral].
  - apply safe_bind. eapply safe_mono; [..|by apply forget_viewed_coherent]; [done| |done].
    intros ? s1 H1. apply neutral_coherent; [done|]. repeat easy_call.
  - apply abort_only.
  - split; [done|]. intros id s1 [Hn _]. pose proof (next_neutral s LoadActive id s1 I Hn) as Hv.
    destruct Hn as (s0 & [Hid _] & _). simpl in Hid. cbn [prog_bind prog_bind_]. rewrite Hid.
    destruct (active_id s =? 0); [split; [done|by eapply coherent_view]|].
    apply attach_coherent. apply Hv.
  - apply safe_bind. eapply safe_mono; [..|by apply request_coherent]; [done| |done].
    intros o s1 H1. destruct o; (apply neutral_coherent; [done|]); repeat easy_call.
  - apply get_session. intros s1 Hv. destruct (alive id) eqn:Ha; [|split; [done|by eapply coherent_view]].
    apply store_active. intros s2 H2 _. by apply attach_resume_coherent.
Qed.
End View.

(** What is streamed is what is viewed: between the loop's turns a live forwarder, if there is one,
    streams the session the phone last asked to see, as long as no session ends in the
    middle of a turn; so a session being streamed never also announces its activity. *)
Theorem forwarder_follows_the_view alive s b tr s' :
  coherent s →
  runs (next_alive alive) s (branch_body host_generation pair_id b) tr s' (Returned tt) →
  coherent s' ∧
  (∀ id, forwarder s' = Some id → event_frame (active_id s') (Event_Activity id) = None).
Proof.
  intros Hs Hr. enough (coherent s') as Hc.
  { split; [done|]. intros id Hf. simpl. by rewrite (Hc id Hf), Z.eqb_refl. }
  assert (Hsafe : safe (next_alive alive) (λ _, True) (λ _, coherent) (λ _ _, True)
                    (branch_body host_generation pair_id b) s).
  { destruct b as [[[p e]|]|[[env|]|]|f]; cbn [branch_body];
      try (apply neutral_coherent; [done|]; walk; fail).
    split; [done|]. intros o s1 [Hn _].
    assert (coherent s1) as H1 by (eapply coherent_view; [exact Hs|by apply (next_neutral s (OpenMsg env) o s1 I Hn)]).
    cbn [prog_bind prog_bind_]. destruct o as [f|]; [|by split]. destruct (negb _); [by split|].
    apply neutral_call; [done|]. intros r s2 Hv. destruct r; [by split|].
    apply handle_frame_coherent. by eapply coherent_view. }
  by apply (safe_runs _ _ _ _ _ _ _ _ _ Hsafe) in Hr as [_ Hr].
Qed.

(** Except when the session to resume ends between its two look-ups: the
    forwarder of the one before goes on, for a session that is no longer viewed and
    announces its activity besides. *)
Theorem resume_of_a_vanishing_session s id id' after gen :
  forwarder s = Some id → id ≠ id' →
  ∃ tr s',
    runs next s (handle_frame host_generation pair_id (Frame_OutputResume id' after gen)) tr s' (Returned tt) ∧
    forwarder s' = Some id ∧ active_id s' = id' ∧
    event_frame (active_id s') (Event_Activity id) = Some (Frame_ActivityBlip id).
Proof.
  intros Hf Hne. exists [Did (GetSession id') true; Did (StoreActive id') tt; Did (GetSession id') false],
    (with_active id' s).
  split_and!; [|done|done|].
  - econstructor; [by exists s; split; [|left]|]. econstructor; [by eexists; split; [|left]|].
    econstructor; [by eexists; split; [|left]|]. constructor.
  - simpl. by rewrite (proj2 (Z.eqb_neq id' id)) by congruence.
Qed.

(** *** What is still queued when a session is attached to *)

Lemma write_frame s f : runs next s (send_frame f) [Did (WriteFrame f) true] s (Returned tt).
Proof. apply (runs_call next (WriteFrame f)) with s; [by exists s; split; [|left]|constructor]. Qed.

Lemma write_frames s fs :
  runs next s (send_frames fs) ((λ f, Did (WriteFrame f) true) <$> fs) s (Returned tt).
Proof.
  induction fs as [|f fs IH]; [constructor|]. eapply (runs_call next (WriteFrame f)); [|exact IH].
  exists s. split; [done|by left].
Qed.

Lemma written_frames fs : ((λ f, @Did Call answer (WriteFrame f) true) <$> fs) ≫= written = fs.
Proof. induction fs as [|f fs IH]; [done|]. simpl. by f_equal. Qed.

Lemma opened_frames fs : ((λ f, @Did Call answer (WriteFrame f) true) <$> fs) ≫= opened_by = [].
Proof. by induction fs. Qed.

Definition attached (id : Z) (s : Link) : Link := with_forwarder (Some id) (with_forwarder None s).

Lemma attach_run s id snap through cols rows :
  ∃ tr, runs next s (attach host_generation id) tr (attached id s) (Returned tt) ∧
        Did (SnapshotAndSubscribe id) (snap, through) ∈ tr ∧
        tr ≫= written = attach_frames id host_generation cols rows snap through ∧
        tr ≫= opened_by = [].
Proof.
  set (s0 := with_forwarder None s).
  assert (Hsame : ∀ c b, effect s0 c b s0 → next s0 c b s0) by (intros c b Hb; exists s0; auto).
  exists (Did AbortForwarder tt :: Did (GetSession id) true :: Did (AgentSnapshot id) None
    :: Did (SnapshotAndSubscribe id) (snap, through)
    :: Did (WriteFrame (Frame_ScreenReset id host_generation)) true
    :: Did (SessionSize id) (cols, rows)
    :: (((λ f, Did (WriteFrame f) true) <$> tail (attach_frames id host_generation cols rows snap through))
        ++ [Did (StartForwarder id) tt])).
  split_and!.
  - unfold attach. apply (runs_call next AbortForwarder) with s0; [by eexists; split; [|left]|].
    apply (runs_call next (GetSession id)) with s0; [by apply Hsame|]. cbn [negb].
    apply (runs_call next (AgentSnapshot id)) with s0; [by apply Hsame|].
    apply (runs_call next (SnapshotAndSubscribe id)) with s0; [by apply Hsame|]. cbn [fst snd].
    apply (runs_bind next _ _ _ [Did (WriteFrame _) true] s0 tt); [apply write_frame|].
    apply (runs_call next (SessionSize id)) with s0; [by apply Hsame|]. cbn [fst snd].
    eapply runs_bind; [apply write_frames|].
    apply (runs_act next s0 (StartForwarder id)) with (attached id s); [|constructor].
    exists (attached id s). split; [done|by left].
  - set_solver.
  - simpl. rewrite bind_app, written_frames. simpl. by rewrite app_nil_r.
  - simpl. rewrite bind_app. simpl. rewrite app_nil_r.
    apply opened_frames.
Qed.

Lemma drain c :
  ended c = None → security c = [] → security_open c = true → inbox c = [] → inbox_open c = true →
  initial c = [] →
  ∃ tr c', steps c tr c' ∧ outbox c' = [] ∧ wire c' = wire c ++ outbox c.
Proof.
  remember (outbox c) as q eqn:Hq. revert c Hq.
  induction q as [|f q IH]; intros c Hq He Hs Hso Hi Hio Hin.
  - exists [], c. split_and!; [constructor|done|by rewrite app_nil_r].
  - set (c1 := after (take (Outbound f) c) [Did (WriteFrame f) true] (link c) (Returned tt : exit Leave unit)).
    destruct (IH c1) as (tr & c' & Hst & Ho & Hw); try done; simpl; [by rewrite Hin, <- Hq|by rewrite Hin|].
    exists ([Did (WriteFrame f) true] ++ tr), c'. split_and!; [|done|].
    + apply steps_more with c1; [|done]. apply step_turn; [done|unfold select; by rewrite Hs, Hso, Hi, Hio, Hin, <- Hq|].
      apply (runs_call next (WriteFrame f)) with (link c); [by eexists; split; [|left]|constructor].
    + rewrite Hw. simpl. by rewrite <- app_assoc.
Qed.

(** Attaching writes past the queue: a terminal is attached to while frames wait, and what the
    phone gets is the reset and the snapshot, and then those frames. *)
Lemma attach_overtakes c env id snap through cols rows :
  ended c = None → security c = [] → security_open c = true →
  inbox c = [Some env] → inbox_open c = true → initial c = [] → revoked (link c) = false →
  (open_msg decode (cipher (link c)) env []).1 = Ok (Frame_Attach id) →
  ∃ tr c',
    steps c tr c' ∧ Did (SnapshotAndSubscribe id) (snap, through) ∈ tr ∧ outbox c' = [] ∧
    wire c' = wire c ++ attach_frames id host_generation cols rows snap through ++ outbox c.
Proof.
  intros He Hs Hso Hi Hio Hin Hrev Hopen.
  destruct (open_msg decode (cipher (link c)) env []) as [r ci] eqn:Eo. simpl in Hopen. subst r.
  set (l1 := with_cipher ci (link c)). set (l2 := with_active id l1).
  destruct (attach_run l2 id snap through cols rows) as (tr & Hr & Hin_tr & Hw & Hop).
  set (tr1 := Did (OpenMsg env) (Some (Frame_Attach id)) :: Did IsRevoked false
              :: Did (GetSession id) true :: Did (StoreActive id) tt :: tr).
  set (c1 := after (take (Inbound (Some (Some env))) c) tr1 (attached id l2) (Returned tt : exit Leave unit)).
  assert (Hstep : step c tr1 c1).
  { apply step_turn; [done|unfold select; by rewrite Hs, Hso, Hi|]. cbn [branch_body].
    apply (runs_call next (OpenMsg env)) with l1.
    { exists l1. split; [|by left]. simpl. by rewrite Eo. }
    cbn [direction negb allows_phone_to_host].
    apply (runs_call next IsRevoked) with l1; [by eexists; split; [|left]|].
    cbn [handle_frame]. apply (runs_call next (GetSession id)) with l1; [by eexists; split; [|left]|]. cbn [negb].
    apply (runs_call next (StoreActive id)) with l2; [by eexists; split; [|left]|]. exact Hr. }
  destruct (drain c1) as (tr2 & c' & Hst & Ho & Hw'); try done; simpl; [by rewrite Hi|].
  exists (tr1 ++ tr2), c'. split_and!.
  - by eapply steps_more.
  - subst tr1. set_solver.
  - done.
  - rewrite Hw'. change (wire c1) with (wire c ++ (tr ≫= written)). change (outbox c1) with (outbox c).
    by rewrite Hw, <- app_assoc.
Qed.

(** An attach repaints the screen, but what was queued before it still comes after: output the
    snapshot already holds is shown twice and takes the phone's boundary back, and a
    resynchronisation cut short by the attach blanks the screen and leaves a part of it. *)
Theorem stale_frames_follow_an_attach c env id snap through v :
  ended c = None → security c = [] → security_open c = true →
  inbox c = [Some env] → inbox_open c = true → initial c = [] → revoked (link c) = false →
  (open_msg decode (cipher (link c)) env []).1 = Ok (Frame_Attach id) →
  ∃ tr c' frames,
    steps c tr c' ∧ Did (SnapshotAndSubscribe id) (snap, through) ∈ tr ∧
    outbox c' = [] ∧ wire c' = wire c ++ frames ∧
    (∀ seq b, outbox c = [Frame_SequencedOutput id seq b] →
       screen (render v frames) = snap ++ b ∧ last_seen_seq (render v frames) = Some seq) ∧
    (∀ part, outbox c = [Frame_ScreenReset id host_generation; Frame_Output id part] →
       screen (render v frames) = part).
Proof.
  intros He Hs Hso Hi Hio Hin Hrev Hopen.
  destruct (attach_overtakes c env id snap through 80 24 He Hs Hso Hi Hio Hin Hrev Hopen)
    as (tr & c' & Hst & Hd & Ho & Hw).
  exists tr, c', (attach_frames id host_generation 80 24 snap through ++ outbox c).
  split_and!; [done..| |].
  - intros seq b ->. unfold render. rewrite foldl_app.
    change (foldl phone_apply v ?fs) with (render v fs). by rewrite (proj1 (attach_repaints _ _ _ _ _ _ _)).
  - intros part ->. unfold render. rewrite foldl_app.
    change (foldl phone_apply v ?fs) with (render v fs). by rewrite (proj1 (attach_repaints _ _ _ _ _ _ _)).
Qed.

(** *** What is carried out is what the phone sent *)

Definition no_open (d : did answer) : Prop := match did_call d with OpenMsg _ => False | _ => True end.

Lemma no_open_opened tr : Forall no_open tr → tr ≫= opened_by = [].
Proof.
  induction 1 as [|[c b] tr Hd _ IH]; [done|].
  change (opened_by (Did c b) ++ (tr ≫= opened_by) = []). rewrite IH, app_nil_r. by destruct c.
Qed.

Lemma next_cipher s c b s' : no_open (Did c b) → next s c b s' → cipher s' = cipher s.
Proof.
  intros Hd (s0 & He & Hs). assert (cipher s0 = cipher s) as <-; [|by destruct Hs as [-> | ->]].
  destruct c; try done; simpl in *; repeat case_match; try (by subst); by destruct He as [? ->].
Qed.

Lemma runs_cipher {A} s (p : Program A) tr s' x :
  Forall no_open tr → runs next s p tr s' x → cipher s' = cipher s.
Proof.
  intros Ht Hr. induction Hr as [| | |s c k b s1 tr s2 x Hn Hr IH]; [done..|].
  apply Forall_cons in Ht as [Hd Ht]. rewrite IH by done. by eapply next_cipher.
Qed.

Lemma handle_frame_no_open f s tr s' x :
  allows_phone_to_host (direction f) = true →
  runs next s (handle_frame host_generation pair_id f) tr s' x → Forall no_open tr.
Proof.
  intros Hf Hr. destruct (always_runs _ _ _ _ _ _ _ _ _ next_transfer_reply
    (handle_frame_typed host_generation pair_id f Hf) Hr) as [Ht _].
  eapply Forall_impl; [exact Ht|]. intros [[] b]; done.
Qed.

Lemma open_all_snoc c ds d :
  let '(ps, c1) := open_all c ds [] in
  open_all c (ds ++ [d]) [] =
    (ps ++ match (open c1 (nonce d) (ciphertext d) []).1 with Ok p => [p] | Err _ => [] end,
     (open c1 (nonce d) (ciphertext d) []).2).
Proof.
  revert c. induction ds as [|e ds IH]; intros c; simpl.
  - destruct (open c _ _ _) as [[p|] c1]; done.
  - destruct (open c _ _ _) as [r c1]. specialize (IH c1). destruct (open_all c1 ds []) as [ps c2].
    rewrite IH. by destruct r.
Qed.

(** The plaintexts opened so far, and their frames. *)
Definition decoded (ps : list bytes) : list Frame := omap (λ p, result_ok (decode p)) ps.

(** The connection has tried some envelopes, one after the other; those that
    authenticate are of [fs], and the frames it opened are what they held. *)
Definition followed (s0 : Link) (fs : list SealedFrame) (c : Served) : Prop :=
  ∃ ds, unforged (cipher s0) [] fs ds ∧
    opened c = decoded (open_all (cipher s0) ds []).1 ∧
    (ended c = None → (open_all (cipher s0) ds []).2 = cipher (link c)).

(** Whatever arrives, what authenticates under the connection's key was sealed. *)
Definition opens_unforged (s0 : Link) (fs : list SealedFrame) (tr : list (did answer)) : Prop :=
  ∀ env o, Did (OpenMsg env) o ∈ tr → authentic (cipher s0) [] env → env ∈ fs.

Lemma step_followed s0 fs c tr c' :
  followed s0 fs c → opens_unforged s0 fs tr → step c tr c' → followed s0 fs c'.
Proof.
  intros (ds & Hds & Hop & Hlive) Hfs Hs. destruct Hs as [a Ha|b tr s' x He Hsel Hr].
  { exists ds. split_and!; try done. intros Hend. rewrite (Hlive Hend). by destruct a. }
  pose proof (Hlive He) as Hc.
  assert (Hquiet : Forall no_open tr → followed s0 fs (after (take b c) tr s' x)).
  { intros Hno. exists ds. cbn [opened after take ended link].
    rewrite no_open_opened, app_nil_r by done. split_and!; try done. intros _. by rewrite (runs_cipher _ _ _ _ _ Hno Hr). }
  destruct b as [[[p e]|]|[[env|]|]|f]; cbn [branch_body] in Hr.
  - apply Hquiet. apply runs_inv in Hr as [(-> & _)|(? & ? & ? & -> & _ & Hr)]; [done|]. go_on Hr.
    apply runs_inv in Hr as (-> & _). by repeat constructor.
  - apply Hquiet. by apply runs_inv in Hr as (-> & _).
  - pose proof (open_all_snoc (cipher s0) ds env) as Hsnoc.
    destruct (open_all (cipher s0) ds []) as [ps ci] eqn:Eall. simpl in Hop, Hc. subst ci.
    pose proof Hr as Hr'. apply inbound_runs in Hr' as [(_ & Hx & [->|(o & tr' & -> & Hno & Ho)])|Hcar].
    + apply Hquiet. done.
    + exists (ds ++ [env]). rewrite Hsnoc. cbn [opened after take ended].
      split_and!; [|change ((Did (OpenMsg env) o :: tr') ≫= opened_by)
                     with (opened_by (Did (OpenMsg env) o) ++ (tr' ≫= opened_by)); rewrite Hno|].
      * intros d [Hd|Hd%list_elem_of_singleton]%elem_of_app Ha; [by apply Hds|subst d].
        apply (Hfs env o); [by left|done].
      * rewrite Hop, app_nil_r. unfold decoded. cbn [fst]. rewrite omap_app. f_equal. subst o. simpl.
        unfold open_msg, wire_open. destruct (open (cipher (link c)) _ _ _) as [[p|] ?]; [|done].
        simpl. by destruct (decode p).
      * intros Hend. destruct x; [by edestruct Hx|done..].
    + destruct Hcar as (f & s1 & s2 & tr' & -> & Hf & Hdir & Hn1 & Hn2 & Hr').
      pose proof (handle_frame_no_open _ _ _ _ _ Hdir Hr') as Hno.
      exists (ds ++ [env]). rewrite Hsnoc. cbn [opened after take ended link].
      split_and!.
      * intros d [Hd|Hd%list_elem_of_singleton]%elem_of_app Ha; [by apply Hds|subst d].
        apply (Hfs env (Some f)); [by left|done].
      * change ((Did (OpenMsg env) (Some f) :: Did IsRevoked false :: tr') ≫= opened_by)
          with ([f] ++ (tr' ≫= opened_by)). rewrite no_open_opened, app_nil_r by done.
        rewrite Hop. unfold decoded. cbn [fst]. rewrite omap_app. f_equal.
        unfold open_msg, wire_open in Hf. destruct (open (cipher (link c)) _ _ _) as [[p|] ?]; [|done].
        simpl in *. by destruct (decode p); simplify_eq/=.
      * intros _. rewrite (runs_cipher _ _ _ _ _ Hno Hr'), (next_cipher _ IsRevoked _ _ I Hn2).
        destruct Hn1 as (s3 & He3 & Hs3). simpl in He3. unfold open_msg, wire_open in He3. simpl in He3.
        destruct (open (cipher (link c)) _ _ _) as [[p|] ci]; destruct He3 as [_ ->];
          by destruct Hs3 as [-> | ->].
  - apply Hquiet. by apply runs_inv in Hr as (-> & _).
  - apply Hquiet. by apply runs_inv in Hr as (-> & _).
  - apply Hquiet. apply runs_inv in Hr as [(-> & _)|(ok & ? & ? & -> & _ & Hr)]; [done|]. go_on Hr.
    destruct ok; apply runs_inv in Hr as (-> & _); by repeat constructor.
Qed.

Lemma decoded_plaintexts (encode : Frame → result string bytes) sent (ms : list (bytes * bytes)) :
  (∀ f b, encode f = Ok b → decode b = Ok f) →
  Forall2 (λ f m, encode f = Ok m.1) sent ms → decoded (fst <$> ms) = sent.
Proof.
  intros Hcodec Hms. unfold decoded. induction Hms as [|f m sent ms Hf _ IH]; [done|]. simpl.
  rewrite (Hcodec _ _ Hf). simpl. by f_equal.
Qed.

Lemma decoded_prefix ps qs : ps `prefix_of` qs → decoded ps `prefix_of` decoded qs.
Proof. intros [k ->]. unfold decoded. rewrite omap_app. by apply prefix_app_r. Qed.

Lemma greet_no_open s tr s' x : runs next s (greet pair_id) tr s' x → Forall no_open tr.
Proof.
  intros Hr. apply (always_runs (λ c, match c with OpenMsg _ => False | _ => True end) (λ _ _, True) (λ _, True))
    in Hr as [Ht _]; [done|done|].
  unfold greet. walk. induction b0 as [|i sessions IH]; [done|]. cbn [waiting_approvals]. walk.
Qed.

(** *** What is carried out *)

(** The calls that do more than look, open, check or write to the phone. *)
Definition acts (d : did answer) : bool :=
  match did_call d with
  | OpenMsg _ | IsRevoked | WriteFrame _ | Revocation | ListSessions | GetSession _ | AgentWorkspaceScope _
  | AgentPermissions _ => false
  | _ => true
  end.

(** All that the connection did was handling frames it opened, each once and in the order
    it opened them: [hs] holds them with what was called for each. *)
Definition handles (tr : list (did answer)) (fs : list Frame) (hs : list (Frame * list (did answer))) : Prop :=
  hs.*1 `prefix_of` fs ∧
  List.filter acts tr = (hs ≫= λ h, List.filter acts h.2) ∧
  Forall (λ h, ∃ s s' x, runs next s (handle_frame host_generation pair_id h.1) h.2 s' x) hs.

Definition handled (tr : list (did answer)) (c : Served) : Prop :=
  ∃ hs, handles tr (opened c) hs ∧ (ended c = None → hs.*1 = opened c).

Lemma quiet_filter tr : Forall (λ d, acts d = false) tr → List.filter acts tr = [].
Proof. induction 1 as [|d tr Hd _ IH]; [done|]. simpl. by rewrite Hd. Qed.
Lemma passive_quiet tr : Forall (λ d, passive (did_call d) = true) tr → Forall (λ d, acts d = false) tr.
Proof. intros Ht. eapply Forall_impl; [exact Ht|]. by intros [[] b]. Qed.

Lemma handled_quiet tr tr' c c' : handled tr c → ended c = None → Forall (λ d, acts d = false) tr' →
  opened c `prefix_of` opened c' → (ended c' = None → opened c' = opened c) → handled (tr ++ tr') c'.
Proof.
  intros (hs & (Hp & Hf & Hr) & Hl) He Ht Ho Hsame. exists hs. split; [split_and!|].
  - by etransitivity.
  - rewrite List.filter_app, (quiet_filter tr'), app_nil_r by done. done.
  - done.
  - intros He'. rewrite (Hsame He'). by apply Hl.
Qed.

Lemma step_handled tr c tr' c' : handled tr c → step c tr' c' → handled (tr ++ tr') c'.
Proof.
  intros Hh Hs. destruct Hs as [a Ha|b tr' s' x He Hsel Hr].
  { rewrite app_nil_r. destruct Hh as (hs & Hh & Hl). by exists hs; destruct a. }
  assert (Hquiet : Forall (λ d, acts d = false) tr' → tr' ≫= opened_by = [] → handled (tr ++ tr') (after (take b c) tr' s' x)).
  { intros Ht Ho. eapply handled_quiet; [done|done|done|..]; cbn [opened after take]; rewrite Ho, app_nil_r; done. }
  destruct b as [[[p e]|]|[[env|]|]|f]; cbn [branch_body] in Hr.
  - apply runs_inv in Hr as [(-> & _)|(? & ? & ? & -> & _ & Hr)]; [by apply Hquiet|]. go_on Hr.
    apply runs_inv in Hr as (-> & _). apply Hquiet; [by repeat constructor|done].
  - apply runs_inv in Hr as (-> & _). by apply Hquiet.
  - apply inbound_runs in Hr as [(Ht & Hx & _)|(f & s1 & s2 & tr1 & -> & Hf & Hdir & _ & _ & Hr)].
    + eapply handled_quiet; [done|done|by apply passive_quiet|..]; cbn [opened after take].
      * by apply prefix_app_r.
      * intros Hend. destruct x; [by edestruct Hx|done..].
    + destruct Hh as (hs & (Hp & Hfil & Hruns) & Hl). exists (hs ++ [(f, tr1)]).
      assert (Hop : (Did (OpenMsg env) (Some f) :: Did IsRevoked false :: tr1) ≫= opened_by = [f]).
      { change ((Did (OpenMsg env) (Some f) :: Did IsRevoked false :: tr1) ≫= opened_by) with ([f] ++ (tr1 ≫= opened_by)).
        by rewrite no_open_opened, app_nil_r by (by eapply handle_frame_no_open). }
      unfold handles. cbn [opened after take]. rewrite Hop, fmap_app, (Hl He). split; [split_and!|]; [done|..|done].
      * rewrite List.filter_app, bind_app, Hfil. simpl. by rewrite app_nil_r.
      * apply Forall_app. split; [done|]. constructor; [|done]. by exists s2, s', x.
  - apply runs_inv in Hr as (-> & _). by apply Hquiet.
  - apply runs_inv in Hr as (-> & _). by apply Hquiet.
  - apply runs_inv in Hr as [(-> & _)|(ok & ? & ? & -> & _ & Hr)]; [by apply Hquiet|]. go_on Hr.
    destruct ok; apply runs_inv in Hr as (-> & _); (apply Hquiet; [by repeat constructor|done]).
Qed.

Lemma greet_quiet s tr s' x : runs next s (greet pair_id) tr s' x → Forall (λ d, acts d = false) tr.
Proof.
  intros Hr. apply (always_runs (λ c, match c with OpenMsg _ | IsRevoked | WriteFrame _ | Revocation | ListSessions | GetSession _
    | AgentWorkspaceScope _ | AgentPermissions _ => True | _ => False end) (λ _ _, True) (λ _, True)) in Hr as [Ht _]; [|done|].
  - eapply Forall_impl; [exact Ht|]. by intros [[] b].
  - unfold greet. walk. induction b0 as [|i sessions IH]; [done|]. cbn [waiting_approvals]. walk.
Qed.

Lemma serves_handled s tr c : serves s tr c → handled tr c.
Proof.
  induction 1 as [tr s' x Hr|tr c tr' c' _ IH Hstep]; [|by eapply step_handled].
  exists []. split; [split_and!|]; cbn [opened welcomed after empty].
  - apply prefix_nil.
  - by rewrite (quiet_filter _ (greet_quiet _ _ _ _ Hr)).
  - done.
  - by rewrite (no_open_opened _ (greet_no_open _ _ _ _ Hr)).
Qed.

(** C3 (safety). What the host carries out is what the phone asked for: whatever an adversary
    between them drops, repeats, reorders or makes up, as long as it forges nothing that
    authenticates, all that the connection does beyond looking and writing to the phone
    is the handling of the first so many frames the phone sealed for it, each handled
    once and in order. *)
Theorem commands_are_a_prefix_of_what_was_sent `{!CryptoLaws _} `{!AeadLaws _}
    (encode : Frame → result string bytes) session client s0 sent ms fs tr c :
  (∀ f b, encode f = Ok b → decode b = Ok f) →
  for_client session = Ok client → for_server session = Ok (cipher s0) →
  Forall2 (λ f m, encode f = Ok m.1) sent ms → Forall sealable ms → Z.of_nat (length ms) < u64_max →
  (seal_all client ms []).1 = Ok <$> fs →
  serves s0 tr c → opens_unforged s0 fs tr →
  opened c `prefix_of` sent ∧ ∃ hs, handles tr sent hs.
Proof.
  intros Hcodec Hc Hs Hms Hseal Hlen Hfs Hserve Hopens.
  assert (Hpre : opened c `prefix_of` sent); [|split; [done|]].
  - assert (Hf : followed s0 fs c).
    { revert Hopens. induction Hserve as [tr s' x Hr|tr c tr' c' Hserve IH Hstep]; intros Hopens.
      - exists []. split_and!; [by intros d ?%elem_of_nil| |].
        + cbn [opened welcomed after empty]. by rewrite (no_open_opened _ (greet_no_open _ _ _ _ Hr)).
        + intros _. simpl. by rewrite (runs_cipher _ _ _ _ _ (greet_no_open _ _ _ _ Hr) Hr).
      - eapply step_followed; [apply IH|..|exact Hstep]; intros env o Hd; apply (Hopens env o), elem_of_app; auto. }
    destruct Hf as (ds & Hds & -> & _).
    rewrite <- (decoded_plaintexts encode sent ms Hcodec Hms). apply decoded_prefix.
    destruct (session_ciphers session) as (c' & s' & Hc' & Hs' & M1 & _ & N1 & _ & _ & L1).
    rewrite Hc in Hc'. rewrite Hs in Hs'. injection Hc' as <-. injection Hs' as Hs'. rewrite Hs' in *.
    eapply fresh_delivers_prefix; eauto.
  - destruct (serves_handled _ _ _ Hserve) as (hs & (Hp & Hf & Hr) & _). exists hs. split_and!; [by etransitivity|done..].
Qed.
End Service.
End WithCipher.

(** ** A phone that attaches, detaches and asks for the roots *)
Module ConnectionExamples.
Import Toy.
#[local] Transparent gmap_empty be_bytes be_value le_bytes le_value.

Definition ex_encode (f : Frame) : result string bytes :=
  match f with
  | Frame_Attach 1 => Ok [Byte.x01]
  | Frame_Detach => Ok [Byte.x02]
  | Frame_Request 7 RequestKind_ListTerminalRoots => Ok [Byte.x03]
  | _ => Err ""%string
  end.
Definition ex_decode (b : bytes) : result string Frame :=
  match b with
  | [Byte.x01] => Ok (Frame_Attach 1)
  | [Byte.x02] => Ok Frame_Detach
  | [Byte.x03] => Ok (Frame_Request 7 RequestKind_ListTerminalRoots)
  | _ => Err ""%string
  end.

Lemma ex_codec f b : ex_encode f = Ok b → ex_decode b = Ok f.
Proof. unfold ex_encode. intros Hf. repeat case_match; by simplify_eq/=. Qed.

Definition ex_sent : list Frame :=
  [Frame_Attach 1; Frame_Detach; Frame_Request 7 RequestKind_ListTerminalRoots].
Definition ex_link (r : bool) : Link :=
  {| cipher := toy_server; active_id := 0; forwarder := None; revoked := r |}.
Definition ex_env (i : nat) : SealedFrame := default {| nonce := []; ciphertext := [] |} (toy_frames !! i).
Local Abbreviation ex_next := (next ex_decode).

Lemma plain s c b : effect ex_decode s c b s → ex_next s c b s.
Proof. intros Hb. exists s. auto. Qed.

(** The greeting of a host without sessions, and the list as it is written. *)
Definition ex_greeting : list (did answer) := [Did Revocation None; Did ListSessions []].
Lemma ex_greets : runs ex_next (ex_link false) (greet []) ex_greeting (ex_link false)
                    (Returned [Frame_SessionList []]).
Proof.
  apply (runs_call ex_next Revocation) with (ex_link false); [by apply plain|].
  apply (runs_call ex_next ListSessions) with (ex_link false); [by apply plain|]. constructor.
Qed.

Definition ex_welcomed : Served :=
  welcomed (ex_link false) ex_greeting (ex_link false) (Returned [Frame_SessionList []]).
Definition ex_first : list (did answer) := [Did (WriteFrame (Frame_SessionList [])) true].
Definition ex_listed : Served :=
  after (take (Outbound (Frame_SessionList [])) ex_welcomed) ex_first (ex_link false) (Returned tt : exit Leave unit).

Lemma ex_serves : serves ex_decode 5 [] (ex_link false) (ex_greeting ++ ex_first) ex_listed.
Proof.
  eapply serves_step; [apply serves_greet, ex_greets|].
  apply step_turn; [done|reflexivity|].
  apply (runs_call ex_next (WriteFrame _)) with (ex_link false); [by apply plain|constructor].
Qed.

Lemma frames_go_the_right_way_witness :
  wire ex_listed = [Frame_SessionList []] ∧ Forall to_phone (wire ex_listed).
Proof.
  split; [reflexivity|].
  apply (frames_go_the_right_way ex_decode 5 [] (ex_link false) (ex_greeting ++ ex_first) ex_listed ex_serves).
Defined.

(** An envelope waits for a phone that is revoked. *)
Definition ex_waiting (r : bool) (q : list Frame) : Served :=
  {| link := ex_link r; security := []; security_open := true; inbox := [Some (ex_env 0)]; inbox_open := true;
     initial := []; outbox := q; wire := []; opened := []; ended := None |}.
Definition ex_opened : Link := with_cipher (with_last toy_server 1) (ex_link true).
Definition ex_refusal : list (did answer) :=
  [Did (OpenMsg (ex_env 0)) (Some (Frame_Attach 1)); Did IsRevoked true].

Lemma ex_opens : open_msg ex_decode toy_server (ex_env 0) [] = (Ok (Frame_Attach 1), with_last toy_server 1).
Proof. vm_compute. reflexivity. Qed.

Lemma ex_refused :
  steps ex_decode 5 [] (ex_waiting true []) (ex_refusal ++ [])
    (after (take (Inbound (Some (Some (ex_env 0)))) (ex_waiting true [])) ex_refusal ex_opened
       (Threw Broke : exit Leave unit)).
Proof.
  eapply steps_more; [|constructor]. apply step_turn; [done|reflexivity|]. cbn [branch_body].
  apply (runs_call ex_next (OpenMsg (ex_env 0))) with ex_opened.
  { exists ex_opened. split; [|by left]. cbn [effect]. cbn [cipher ex_link link ex_waiting]. by rewrite ex_opens. }
  cbn [direction allows_phone_to_host negb].
  apply (runs_call ex_next IsRevoked) with ex_opened; [by apply plain|constructor].
Qed.

Lemma revoked_phone_commands_nothing_witness :
  Forall (λ d, passive (did_call d) = true) (ex_refusal ++ []) ∧
  ∃ d : did answer, passive (did_call d) = false.
Proof.
  split; [|by exists (Did (KillSession 1) true)].
  apply (revoked_phone_commands_nothing ex_decode 5 [] (ex_waiting true []) _ _ eq_refl ex_refused).
Defined.

(** A request for the roots, written and answered. *)
Definition ex_request : list (did answer) :=
  [Did GetTerminalRoots [Root_Workspace]; Did (WriteFrame (Frame_TerminalRoots 7 [Root_Workspace])) true;
   Did (WriteFrame (Frame_CommandResult 7 (CommandOutcome_Ok None))) true].

Lemma every_request_is_answered_once_witness :
  count_if (did_w (reports 7)) ex_request = 1%nat ∧ count_if (did_w (reports 8)) ex_request = 0%nat.
Proof.
  assert (Hr : runs ex_next (ex_link false)
    (handle_frame 5 [] (Frame_Request 7 RequestKind_ListTerminalRoots)) ex_request (ex_link false) (Returned tt)).
  { apply (runs_call ex_next GetTerminalRoots) with (ex_link false); [by apply plain|].
    apply (runs_call ex_next (WriteFrame _)) with (ex_link false); [by apply plain|].
    apply (runs_call ex_next (WriteFrame _)) with (ex_link false); [by apply plain|constructor]. }
  split.
  - exact (proj2 (every_request_is_answered_once ex_decode 5 [] 7 7 _ _ _ _ _
      (or_introl (ex_intro _ RequestKind_ListTerminalRoots eq_refl)) Hr)).
  - exact (proj2 (every_request_is_answered_once ex_decode 5 [] 8 7 _ _ _ _ _
      (or_introl (ex_intro _ RequestKind_ListTerminalRoots eq_refl)) Hr)).
Defined.

(** Pausing: the forwarder of the session on screen is stopped. *)
Definition ex_viewing : Link := with_forwarder (Some 1) (with_active 1 (ex_link false)).

Lemma forwarder_follows_the_view_witness :
  coherent ex_viewing ∧
  (∀ id, forwarder ex_viewing = Some id → event_frame (active_id ex_viewing) (Event_Activity id) = None).
Proof.
  split; [by intros id [= <-]|].
  apply (forwarder_follows_the_view ex_decode 5 [] (λ _, true) ex_viewing (Outbound (Frame_SessionList []))
           [Did (WriteFrame (Frame_SessionList [])) true] ex_viewing); [by intros id [= <-]|].
  econstructor; [split; [by apply plain|done]|constructor].
Defined.

(** The byte that was queued when the session was attached to is shown again. *)
Lemma stale_frames_follow_an_attach_witness :
  ∃ tr c' frames,
    steps ex_decode 5 [] (ex_waiting false [Frame_SequencedOutput 1 3 [Byte.x41]]) tr c' ∧
    wire c' = frames ∧
    screen (render {| screen := []; last_seen_seq := None; last_seen_generation := None |} frames)
      = [Byte.x41; Byte.x41].
Proof.
  destruct (stale_frames_follow_an_attach ex_decode 5 [] (ex_waiting false [Frame_SequencedOutput 1 3 [Byte.x41]])
    (ex_env 0) 1 [Byte.x41] 3 {| screen := []; last_seen_seq := None; last_seen_generation := None |})
    as (tr & c' & frames & Hst & _ & _ & Hw & Hrep & _); try reflexivity.
  exists tr, c', frames. split; [exact Hst|]. split; [exact Hw|]. exact (proj1 (Hrep 3 [Byte.x41] eq_refl)).
Defined.

(** The first frame arrives: a session that is not there. *)
Definition ex_asking : Served := arrive (Sent (Some (ex_env 0))) ex_listed.
Definition ex_gone : list (did answer) :=
  [Did (OpenMsg (ex_env 0)) (Some (Frame_Attach 1)); Did IsRevoked false; Did (GetSession 1) false;
   Did (WriteFrame (Frame_CommandError "that session is no longer available")) true].
Definition ex_asked : Link := with_cipher (with_last toy_server 1) (ex_link false).
Definition ex_told : Served :=
  after (take (Inbound (Some (Some (ex_env 0)))) ex_asking) ex_gone ex_asked (Returned tt : exit Leave unit).

Lemma ex_serves_told :
  serves ex_decode 5 [] (ex_link false) (((ex_greeting ++ ex_first) ++ []) ++ ex_gone) ex_told.
Proof.
  eapply serves_step; [eapply serves_step; [apply ex_serves|apply (step_arrive _ _ _ ex_listed (Sent (Some (ex_env 0))))]|].
  { split; [reflexivity|]. simpl. unfold IN_QUEUE_FRAMES. lia. }
  apply step_turn; [done|reflexivity|]. cbn [branch_body].
  apply (runs_call ex_next (OpenMsg (ex_env 0))) with ex_asked.
  { exists ex_asked. split; [|by left]. cbn [effect]. cbn [cipher ex_link link ex_asking arrive ex_listed after].
    by rewrite ex_opens. }
  cbn [direction allows_phone_to_host negb].
  apply (runs_call ex_next IsRevoked) with ex_asked; [by apply plain|]. cbn [handle_frame].
  apply (runs_call ex_next (GetSession 1)) with ex_asked; [by apply plain|].
  apply (runs_call ex_next (WriteFrame _)) with ex_asked; [by apply plain|constructor].
Qed.

Lemma commands_are_a_prefix_of_what_was_sent_witness :
  opened ex_told = [Frame_Attach 1] ∧ opened ex_told `prefix_of` ex_sent ∧
  ∃ hs, handles ex_decode 5 [] (((ex_greeting ++ ex_first) ++ []) ++ ex_gone) ex_sent hs.
Proof.
  split; [reflexivity|].
  apply (commands_are_a_prefix_of_what_was_sent ex_decode 5 [] ex_encode toy_session toy_client (ex_link false) ex_sent
           toy_messages toy_frames (((ex_greeting ++ ex_first) ++ []) ++ ex_gone)).
  - exact ex_codec.
  - exact toy_client_ok.
  - exact toy_server_ok.
  - by repeat constructor.
  - exact toy_messages_sealable.
  - done.
  - vm_compute. reflexivity.
  - exact ex_serves_told.
  - intros env o Hd _.
    apply (list_elem_of_fmap_2 (λ d : did answer, match did_call d with OpenMsg e => e | _ => ex_env 0 end)) in Hd.
    simpl in Hd. rewrite !elem_of_cons, elem_of_nil in Hd.
    assert (env = ex_env 0) as -> by naive_solver.
    apply (list_elem_of_lookup_2 _ 0). vm_compute. reflexivity.
Defined.
End ConnectionExamples.
