(* ===== verification/Drivers.v ===== *)
(** * Drivers: the handshake over a transport

    [crates/transport/src/iroh.rs]: [run_client_handshake_with],
    [run_server_handshake] and [confirm_server_handshake] run the machines of
    [Handshake] over any message transport. They are programs whose calls are the
    transport's [send] and [recv], a step of the host's machine (which locks what
    the host's connections share) and the callback that shows the comparison
    code; a transport may fail, or deliver anything, at any call. *)

From S2P Require Import Prelude Errors Frame Crypto Pairing Envelope Handshake Programs.
Import FrameCodec Secret Derive RateLimit Enrollment Envelope Handshake.

Section WithCrypto.
Context `{CryptoPrims} `{AeadPrims}.

(** [HandshakeOutcome]. *)
Record Established := {
  cipher : EnvelopeCipher;
  peer_device_id : DeviceId;
  peer_display_name : string;
  reconnect_token : Token;
  resumed : bool;
  previous_token : bool;
  pair_id : bytes;
  pair_event_key : bytes;
  enrollment_epoch : option Z;
  code : chars;
}.

Inductive Call :=
| SendMsg (m : HandshakeMessage)
| RecvMsg
| StepHost (s : ServerHandshake) (m : HandshakeMessage)
| OnCode (c : chars).

Definition answer (c : Call) : Type :=
  match c with
  | SendMsg _ => result TransportError unit
  | RecvMsg => result TransportError HandshakeMessage
  | StepHost _ _ => SyncResult Outcome * ServerHandshake
  | OnCode _ => unit
  end.

Abbreviation Driver := (prog answer Empty_set).

(** What both runners make of a finished session. [None] is a runner that is out of
    fuel. *)
Definition establish (for_side : bytes → SyncResult EnvelopeCipher) (session : bytes) (d : DeviceId) (n : string)
    (resumed previous_token : bool) (ep : option Z) : SyncResult Established :=
  c ← for_side session;
  token ← derive_reconnect_token session;
  pair ← derive_pair_material session;
  code ← pair_verification_code session;
  Ok {| cipher := c; peer_device_id := d; peer_display_name := n; reconnect_token := token;
        resumed := resumed; previous_token := previous_token; pair_id := pair.1; pair_event_key := pair.2;
        enrollment_epoch := ep; code := code |}.

(** ** The phone *)

Fixpoint client_loop (fuel : nat) (c : ClientHandshake) : Driver (option (SyncResult Established)) :=
  match fuel with
  | O => Ret None
  | S fuel =>
      r ← call RecvMsg;
      match r with
      | Err e => Ret (Some (Err (ETransport e)))
      | Ok msg =>
          let '(o, c) := client_step c msg in
          match o with
          | Err e => Ret (Some (Err e))
          | Ok (Send m) =>
              sent ← call (SendMsg m);
              match sent with
              | Err e => Ret (Some (Err (ETransport e)))
              | Ok _ =>
                  _ ← match m, verification_code c with
                      | PairingProof _, Some code => call (OnCode code)
                      | _, _ => Ret tt
                      end;
                  client_loop fuel c
              end
          | Ok (Done session d n resumed _ _) =>
              Ret (Some (establish for_client session d n resumed false None))
          | Ok (Failed f) => Ret (Some (Err (EProtocol (PairingFailedErr f))))
          end
      end
  end.

(** [run_client_handshake_with]; [eph] is the ephemeral key [start] draws. *)
Definition run_client_handshake_with (fuel : nat) (c : ClientHandshake) (eph : EphemeralSecret)
    : Driver (option (SyncResult Established)) :=
  let '(hello, c) := client_start c eph in
  sent ← call (SendMsg hello);
  match sent with
  | Err e => Ret (Some (Err (ETransport e)))
  | Ok _ => client_loop fuel c
  end.

(** ** The host *)

Fixpoint run_server_handshake (fuel : nat) (s : ServerHandshake) : Driver (option (SyncResult Established)) :=
  match fuel with
  | O => Ret None
  | S fuel =>
      r ← call RecvMsg;
      match r with
      | Err (UnsupportedProtocolVersion expected found) =>
          _ ← call (SendMsg (reject_unreadable_version s).1);
          Ret (Some (Err (ETransport (UnsupportedProtocolVersion expected found))))
      | Err e => Ret (Some (Err (ETransport e)))
      | Ok msg =>
          os ← call (StepHost s msg);
          match os.1 with
          | Err e => Ret (Some (Err e))
          | Ok (Send m) =>
              sent ← call (SendMsg m);
              match sent with
              | Err e => Ret (Some (Err (ETransport e)))
              | Ok _ =>
                  match m with
                  | PairingFailed reason => Ret (Some (Err (EProtocol (PairingFailedErr reason))))
                  | _ => run_server_handshake fuel os.2
                  end
              end
          | Ok (Done session d n resumed previous_token ep) =>
              Ret (Some (establish for_server session d n resumed previous_token ep))
          | Ok (Failed f) => Ret (Some (Err (EProtocol (PairingFailedErr f))))
          end
      end
  end.

Definition confirm_server_handshake (s : ServerHandshake) : Driver (SyncResult unit) :=
  sent ← call (SendMsg (PairingOk (s_device_id s) (s_display_name s)));
  Ret (map_err ETransport sent).

(** [handshake_sent_refusal] of [iroh_serve.rs]: whether to linger until the peer has
    read a refusal. *)
Definition handshake_sent_refusal (e : SyncError) : bool :=
  match e with
  | EProtocol (PairingFailedErr _) | ETransport (UnsupportedProtocolVersion _ _) => true
  | _ => false
  end.

(** ** Runs

    The host's machine steps as [server_step] does, whatever it draws and whatever
    the other connections made of the shared state. Writing a frame never fails for
    the peer's version: [write_frame] does not look at it. *)
Definition next (_ : unit) (c : Call) : answer c → unit → Prop :=
  match c return answer c → unit → Prop with
  | StepHost s m => λ b _, ∃ env sh sh', server_step env sh s m = (b, sh')
  | SendMsg _ => λ b _, ∀ expected found, b ≠ Err (UnsupportedProtocolVersion expected found)
  | _ => λ _ _, True
  end.

Abbreviation ran := (runs next tt).

Local Ltac go_on H := cbn [mbind prog_bind prog_bind_ call] in H.
(** The next call of the run [H]: it was cut there, or it was answered. *)
Local Ltac next_call H b tr Hn :=
  apply runs_inv in H as [(-> & _ & ->)|(b & [] & tr & -> & Hn & H)]; [|cbn [next answer] in b, Hn; go_on H].
Local Ltac returned H := apply runs_inv in H as (-> & _ & [-> | ->]).

Lemma kdf_error (o : option bytes) e : ok_or o (ECrypto Kdf) = Err e → handshake_sent_refusal e = false.
Proof. destruct o; [done|]. by intros [= <-]. Qed.

Lemma step_error env sh s m e s' sh' :
  server_step env sh s m = (Err e, s', sh') → handshake_sent_refusal e = false.
Proof.
  unfold server_step. destruct (s_state s) eqn:Es, m; try (by intros [= <- _ _]).
  - unfold server_hello, refuse, issue_challenge, ecdh_shared, derive_session_from_key.
    intros Hr. repeat (split_result; unfold refuse in *; simplify_eq/=); eauto using kdf_error.
  - unfold server_proof, refuse, proved_session, derive_session_from_key.
    intros Hr. repeat (split_result; unfold refuse in *; simplify_eq/=); eauto using kdf_error.
Qed.

Lemma establish_error for_side session d n r p ep e :
  (∀ e, for_side session = Err e → handshake_sent_refusal e = false) →
  establish for_side session d n r p ep = Err e → handshake_sent_refusal e = false.
Proof.
  unfold establish, derive_reconnect_token, derive_resumption_token, derive_pair_material, pair_verification_code,
    derive_subkey. intros Hc. destruct (for_side session) as [c|e'] eqn:Ec; simpl; [|intros [= <-]; by apply Hc].
  repeat (match goal with |- context [ok_or ?o ?e] => destruct (ok_or o e) eqn:? end; simpl);
    try done; intros [= <-]; eauto using kdf_error.
Qed.

(** The messages given to the transport, and those it took. *)
Definition sends (tr : list (did answer)) : list HandshakeMessage :=
  tr ≫= λ d, match did_call d with SendMsg m => [m] | _ => [] end.
Definition delivered (tr : list (did answer)) : list HandshakeMessage :=
  tr ≫= λ d, match d with
             | Did c b => match c return answer c → list HandshakeMessage with
                          | SendMsg m => λ r, match r with Ok _ => [m] | Err _ => [] end
                          | _ => λ _, []
                          end b
             end.
Definition is_failure (m : HandshakeMessage) : bool := match m with PairingFailed _ => true | _ => false end.

(** What the host's runner has said when it is over. *)
Definition host_verdict (chal : list HandshakeMessage) (tr : list (did answer))
    (x : exit Empty_set (option (SyncResult Established))) : Prop :=
  match x with
  | Interrupted => True
  | Threw _ | Returned None => False
  | Returned (Some (Ok _)) => sends tr = chal
  | Returned (Some (Err e)) =>
      if handshake_sent_refusal e
      then ∃ tr0 reason r, tr = tr0 ++ [Did (SendMsg (PairingFailed reason)) r] ∧
             existsb is_failure (sends tr0) = false
      else existsb is_failure (delivered tr) = false
  end.

Lemma host_verdict_error chal tr e :
  handshake_sent_refusal e = false → existsb is_failure (delivered tr) = false →
  host_verdict chal tr (Returned (Some (Err e))).
Proof. intros He Ht. simpl. by rewrite He. Qed.

Lemma not_version_refusal e :
  (∀ expected found, (Err e : result TransportError unit) ≠ Err (UnsupportedProtocolVersion expected found)) →
  handshake_sent_refusal (ETransport e) = false.
Proof. intros He. destruct e; try done. by edestruct He. Qed.

Lemma receive_error e :
  (∀ expected found, e ≠ UnsupportedProtocolVersion expected found) → handshake_sent_refusal (ETransport e) = false.
Proof. intros He. destruct e; try done. by edestruct He. Qed.

Lemma establish_refusal (for_side : bytes → SyncResult EnvelopeCipher) session d n r p ep chal tr :
  (∀ e, for_side session = Err e → handshake_sent_refusal e = false) →
  sends tr = chal → existsb is_failure (delivered tr) = false →
  host_verdict chal tr (Returned (Some (establish for_side session d n r p ep))).
Proof.
  intros Hc Hs Hd. destruct (establish for_side session d n r p ep) as [out|e] eqn:He; [done|].
  apply host_verdict_error; [|done]. by eapply establish_error.
Qed.

Lemma for_server_error session e : for_server session = Err e → handshake_sent_refusal e = false.
Proof.
  unfold for_server, from_session_labels, derive_subkey.
  repeat (match goal with |- context [ok_or ?o ?e] => destruct (ok_or o e) eqn:? end; simpl);
    try done; intros [= <-]; eauto using kdf_error.
Qed.

(** The round after the challenge. *)
Lemma host_second_round fuel s tr x :
  (∃ a b c d e f g h i, s_state s = SSentChallenge a b c d e f g h i) →
  ran (run_server_handshake (S fuel) s) tr tt x →
  (length tr <= 3)%nat ∧ host_verdict [] tr x.
Proof.
  intros (?&?&?&?&?&?&?&?&?&Hs) Hr. cbn [run_server_handshake] in Hr.
  next_call Hr r tr1 Hn; [by split; [simpl; lia|]|]. destruct r as [msg|e]; cycle 1.
  { destruct e as [| | |expected found| | | |]; try (returned Hr; (split; [simpl; lia|]); first [exact I|by apply host_verdict_error]).
    next_call Hr r tr2 Hn2; [by split; [simpl; lia|]|]. returned Hr; (split; [simpl; lia|]); [|done].
    exists [Did RecvMsg (Err (UnsupportedProtocolVersion expected found))], UnsupportedVersion, r. done. }
  next_call Hr os tr2 Hn2; [by split; [simpl; lia|]|]. destruct os as [o s2]. cbn [fst snd] in Hr.
  destruct Hn2 as (env & sh & sh' & Hstep). pose proof Hstep as Hshape. apply server_step_shape in Hshape.
  rewrite Hs in Hshape.
  destruct Hshape as [(e & -> & _)|[(reason & -> & _)|(ss & d & n & b1 & b2 & ep & -> & _)]].
  - returned Hr; (split; [simpl; lia|]); [|done]. apply host_verdict_error; [|done]. by eapply step_error.
  - next_call Hr r tr3 Hn3; [by split; [simpl; lia|]|]. destruct r as [[]|e].
    + returned Hr; (split; [simpl; lia|]); [|done].
      by exists [Did RecvMsg (Ok msg); Did (StepHost s msg) (Ok (Send (PairingFailed reason)), s2)], reason, (Ok tt).
    + returned Hr; (split; [simpl; lia|]); [|done]. apply host_verdict_error; [|done]. by apply not_version_refusal.
  - returned Hr; (split; [simpl; lia|]); [|done]. apply establish_refusal; [|done..]. apply for_server_error.
Qed.

(** The host's runner is done after at most six calls, whatever it is sent, and a refusal is its
    last word: if its error is one after which the host lingers, the last thing it did
    was to send the one refusal of the run; if not, no refusal was delivered; and if
    it succeeds it sent a challenge and nothing else, so the phone has been promised
    nothing. *)
Theorem a_refusal_is_the_last_word fuel s tr x :
  (2 <= fuel)%nat → s_state s = SAwaitingHello →
  ran (run_server_handshake fuel s) tr tt x →
  (length tr <= 6)%nat ∧
  match x with
  | Interrupted => True
  | Threw _ | Returned None => False
  | Returned (Some (Ok _)) => ∃ nonce se, sends tr = [PairingChallenge nonce se]
  | Returned (Some (Err e)) =>
      if handshake_sent_refusal e
      then ∃ tr0 reason r, tr = tr0 ++ [Did (SendMsg (PairingFailed reason)) r] ∧
             existsb is_failure (sends tr0) = false
      else existsb is_failure (delivered tr) = false
  end.
Proof.
  intros Hfuel Hs Hr. destruct fuel as [|[|fuel]]; [lia..|]. cbn [run_server_handshake] in Hr.
  next_call Hr r tr1 Hn; [by split; [simpl; lia|]|]. destruct r as [msg|e]; cycle 1.
  { destruct e as [| | |expected found| | | |]; try (returned Hr; (split; [simpl; lia|]); [reflexivity|exact I]).
    next_call Hr r tr2 Hn2; [by split; [simpl; lia|]|]. returned Hr; (split; [simpl; lia|]); [|done].
    by exists [Did RecvMsg (Err (UnsupportedProtocolVersion expected found))], UnsupportedVersion, r. }
  next_call Hr os tr2 Hn2; [by split; [simpl; lia|]|]. destruct os as [o s2]. cbn [fst snd] in Hr.
  destruct Hn2 as (env & sh & sh' & Hstep). pose proof Hstep as Hshape. apply server_step_shape in Hshape.
  rewrite Hs in Hshape.
  destruct Hshape as [(e & -> & _)|[(reason & -> & _)|(nonce & se & ss & d & n & a & g & ep & ec & t & -> & Hs2)]].
  - returned Hr; (split; [simpl; lia|]); [|done]. rewrite (step_error _ _ _ _ _ _ _ Hstep). done.
  - next_call Hr r tr3 Hn3; [by split; [simpl; lia|]|]. destruct r as [[]|e].
    + returned Hr; (split; [simpl; lia|]); [|done].
      by exists [Did RecvMsg (Ok msg); Did (StepHost s msg) (Ok (Send (PairingFailed reason)), s2)], reason, (Ok tt).
    + returned Hr; (split; [simpl; lia|]); [|done]. by rewrite (not_version_refusal _ Hn3).
  - next_call Hr r tr3 Hn3; [by split; [simpl; lia|]|]. destruct r as [[]|e]; cycle 1.
    { returned Hr; (split; [simpl; lia|]); [|done]. by rewrite (not_version_refusal _ Hn3). }
    apply (host_second_round fuel) in Hr as [Hlen Hv]; [|by repeat eexists].
    split; [simpl; lia|]. destruct x as [[[out|e]|]|e|]; simpl in Hv |- *; try done.
    + exists nonce, se. change (PairingChallenge nonce se :: sends tr3 = [PairingChallenge nonce se]). by rewrite Hv.
    + destruct (handshake_sent_refusal e); [|done]. destruct Hv as (tr0 & reason & r & -> & Hf).
      by exists (Did RecvMsg (Ok msg) :: Did (StepHost s msg) (Ok (Send (PairingChallenge nonce se)), s2)
                 :: Did (SendMsg (PairingChallenge nonce se)) (Ok tt) :: tr0), reason, r.
Qed.

(** ** The phone's runs *)

Definition shown (tr : list (did answer)) : list chars :=
  tr ≫= λ d, match did_call d with OnCode c => [c] | _ => [] end.

Lemma client_step_hello c msg o c' :
  c_state c = CSentHello → client_step c msg = (o, c') →
  is_resume c' = is_resume c ∧
  ((∃ e, o = Err e) ∨ (∃ reason, o = Ok (Failed reason)) ∨
   (∃ proof session, o = Ok (Send (PairingProof proof)) ∧ c_state c' = CSentProof (Some session))).
Proof.
  intros Hc. unfold client_step. rewrite Hc. destruct msg; intros Hs; simplify_eq; try by eauto 6.
  destruct (client_challenge _ _ _) as [[p s]|e]; simplify_eq; split; eauto 6.
Qed.

Lemma client_step_proof c session msg o c' :
  c_state c = CSentProof (Some session) → client_step c msg = (o, c') →
  (∃ e, o = Err e) ∨ (∃ reason, o = Ok (Failed reason)) ∨
  (∃ d n, msg = PairingOk d n ∧ o = Ok (Done session d n (is_resume c) false None)).
Proof. intros Hc. unfold client_step. rewrite Hc. destruct msg; intros Hs; simplify_eq; eauto 8. Qed.

Lemma establish_ok for_side session d n r p ep out :
  establish for_side session d n r p ep = Ok out →
  for_side session = Ok (cipher out) ∧ derive_reconnect_token session = Ok (reconnect_token out) ∧
  derive_pair_material session = Ok (pair_id out, pair_event_key out) ∧
  pair_verification_code session = Ok (code out) ∧
  peer_device_id out = d ∧ peer_display_name out = n ∧ resumed out = r.
Proof.
  unfold establish. destruct (for_side session) as [c|]; [|done]. cbn [mbind result_bind].
  destruct (derive_reconnect_token session) as [t|]; [|done]. cbn [mbind result_bind].
  destruct (derive_pair_material session) as [[i k]|]; [|done]. cbn [mbind result_bind].
  destruct (pair_verification_code session) as [co|]; [|done]. by intros [= <-].
Qed.

Lemma client_second_round fuel c session tr x :
  c_state c = CSentProof (Some session) → ran (client_loop (S fuel) c) tr tt x →
  (length tr <= 1)%nat ∧ sends tr = [] ∧ shown tr = [] ∧
  match x with
  | Interrupted => True
  | Threw _ | Returned None => False
  | Returned (Some (Ok out)) =>
      tr = [Did RecvMsg (Ok (PairingOk (peer_device_id out) (peer_display_name out)))] ∧
      establish for_client session (peer_device_id out) (peer_display_name out) (is_resume c) false None = Ok out
  | Returned (Some (Err _)) => True
  end.
Proof.
  intros Hc Hr. cbn [client_loop] in Hr. next_call Hr r tr1 Hn; [by split_and!; simpl; try lia|].
  destruct r as [msg|e]; [|by returned Hr; split_and!; simpl; try lia].
  destruct (client_step c msg) as [o c'] eqn:Hstep.
  destruct (client_step_proof _ _ _ _ _ Hc Hstep) as [(e & ->)|[(reason & ->)|(d & n & -> & ->)]];
    [by returned Hr; split_and!; simpl; try lia..|].
  returned Hr; [|by split_and!; simpl; try lia].
  split_and!; [simpl; lia|done|done|]. destruct (establish _ _ _ _ _ _ _) as [out|e] eqn:He; [|done].
  assert (peer_device_id out = d ∧ peer_display_name out = n) as [-> ->]; [|done].
  by apply establish_ok in He as (_ & _ & _ & _ & -> & -> & _).
Qed.

(** What a phone that has the host's word for it has seen and done. *)
Definition phone_sends (c : ClientHandshake) (eph : EphemeralSecret) (proof : bytes) : list HandshakeMessage :=
  [(client_start c eph).1; PairingProof proof].

(** The phone's runner is done after at most five calls, whatever it is sent. It shows a comparison code
    at most once, right after its proof is on the wire, and only on a first pair; and it
    takes the pairing as made only on the host's acknowledgement, received last, with
    the code it showed the code of the session it stores. *)
Theorem the_phone_trusts_only_the_last_word fuel c eph tr x :
  (2 <= fuel)%nat → ran (run_client_handshake_with fuel c eph) tr tt x →
  (length tr <= 5)%nat ∧
  (shown tr = [] ∨
   ∃ m proof code rest, is_resume c = false ∧ shown rest = [] ∧
     tr = Did (SendMsg (client_start c eph).1) (Ok tt) :: Did RecvMsg (Ok m)
          :: Did (SendMsg (PairingProof proof)) (Ok tt) :: Did (OnCode code) tt :: rest) ∧
  match x with
  | Interrupted => True
  | Threw _ | Returned None => False
  | Returned (Some (Err _)) => True
  | Returned (Some (Ok out)) =>
      resumed out = is_resume c ∧ shown tr = (if is_resume c then [] else [code out]) ∧
      (∃ proof, sends tr = phone_sends c eph proof) ∧
      list.last tr = Some (Did RecvMsg (Ok (PairingOk (peer_device_id out) (peer_display_name out))))
  end.
Proof.
  intros Hfuel Hr. destruct fuel as [|[|fuel]]; [lia..|]. unfold run_client_handshake_with in Hr.
  set (c1 := (client_start c eph).2). set (hello := (client_start c eph).1).
  change (client_start c eph) with (hello, c1) in Hr. cbv beta iota in Hr.
  assert (H1 : c_state c1 = CSentHello ∧ is_resume c1 = is_resume c) by done.
  next_call Hr r tr1 Hn; [by split_and!; [simpl; lia|left|]|].
  destruct r as [[]|e]; [|by (returned Hr; (split_and!; [simpl; lia|left|]))].
  cbn [client_loop] in Hr. next_call Hr r tr2 Hn2; [by split_and!; [simpl; lia|left|]|].
  destruct r as [msg|e]; [|by (returned Hr; (split_and!; [simpl; lia|left|]))].
  destruct (client_step c1 msg) as [o c2] eqn:Hstep.
  destruct (client_step_hello _ _ _ _ (proj1 H1) Hstep)
    as [Hres [(e & ->)|[(reason & ->)|(proof & session & -> & Hc2)]]];
    [by (returned Hr; (split_and!; [simpl; lia|left|]))..|].
  rewrite (proj2 H1) in Hres.
  next_call Hr r tr3 Hn3; [by split_and!; [simpl; lia|left|]|].
  destruct r as [[]|e]; [|by (returned Hr; (split_and!; [simpl; lia|left|]))].
  assert (Hcode : verification_code c2
                  = if is_resume c then None else result_ok (pair_verification_code session)).
  { unfold verification_code. by rewrite Hres, Hc2. }
  assert (Hquiet : verification_code c2 = None → ran (client_loop (S fuel) c2) tr3 tt x →
    (length tr3 <= 1)%nat ∧ shown tr3 = [] ∧ sends tr3 = [] ∧
    match x with
    | Interrupted => True | Threw _ | Returned None => False | Returned (Some (Err _)) => True
    | Returned (Some (Ok out)) =>
        resumed out = is_resume c ∧ is_resume c = true ∧
        tr3 = [Did RecvMsg (Ok (PairingOk (peer_device_id out) (peer_display_name out)))]
    end).
  { intros Hnone Hr2. apply (client_second_round _ _ session) in Hr2 as (Hlen & Hs & Hsh & Hx); [|done].
    split_and!; [done..|]. destruct x as [[[out|e]|]|e|]; try done.
    destruct Hx as [-> (_ & _ & _ & Hco & _ & _ & ->)%establish_ok]. rewrite Hres. split_and!; [done| |done].
    rewrite Hcode, Hco in Hnone. by destruct (is_resume c). }
  destruct (verification_code c2) as [co|] eqn:Hv; go_on Hr.
  - clear Hquiet. destruct (is_resume c) eqn:Hr0; [done|].
    assert (Hshape : ∀ rest, shown rest = [] → ∃ m proof0 code rest0, false = false ∧ shown rest0 = [] ∧
      Did (SendMsg hello) (Ok tt) :: Did RecvMsg (Ok msg) :: Did (SendMsg (PairingProof proof)) (Ok tt)
        :: Did (OnCode co) tt :: rest
      = Did (SendMsg hello) (Ok tt) :: Did RecvMsg (Ok m) :: Did (SendMsg (PairingProof proof0)) (Ok tt)
        :: Did (OnCode code) tt :: rest0) by (intros rest Hrest; by exists msg, proof, co, rest).
    next_call Hr u tr4 Hn4; [by split_and!; [simpl; lia|left|]|]. destruct u.
    change (ran (client_loop (S fuel) c2) tr4 tt x) in Hr.
    apply (client_second_round _ _ session) in Hr as (Hlen & Hs & Hsh & Hx); [|done].
    split_and!; [simpl; lia|right; by apply Hshape|].
    destruct x as [[[out|e]|]|e|]; try done.
    destruct Hx as [-> (_ & _ & _ & Hco & _ & _ & ->)%establish_ok].
    rewrite Hco in Hcode. injection Hcode as ->. split_and!; [done|done|by exists proof|done].
  - destruct (Hquiet eq_refl Hr) as (Hlen & Hsh & Hs & Hx).
    assert (Hsh' : shown (Did (SendMsg hello) (Ok tt) :: Did RecvMsg (Ok msg)
                          :: Did (SendMsg (PairingProof proof)) (Ok tt) :: tr3) = []) by exact Hsh.
    split_and!; [simpl; lia|by left|]. destruct x as [[[out|e]|]|e|]; try done.
    destruct Hx as (-> & Hr1 & ->). rewrite Hr1. split_and!; [done|done|by exists proof|done].
Qed.

(** ** Phone and host together

    Both runners over a lossless transport, each message waiting until it is
    received, the two sides running at any relative speed. The host, once it has
    the phone's proof, makes the pairing durable and acknowledges it. *)

Definition host_side (fuel : nat) (s : ServerHandshake) : Driver (option (SyncResult Established)) :=
  r ← run_server_handshake fuel s;
  match r with
  | Some (Ok out) =>
      ok ← confirm_server_handshake s;
      Ret (Some (match ok with Ok _ => Ok out | Err e => Err e end))
  | _ => Ret r
  end.

Record Duo := {
  phone : Driver (option (SyncResult Established));
  host : Driver (option (SyncResult Established));
  up : list HandshakeMessage;
  down : list HandshakeMessage;
  stepped : nat;                       (* steps of the host's machine *)
}.

Section Duo.
(** What each step of the host's machine draws, and finds shared. *)
Context (draws : nat → ServerEnv * Shared).

Definition phone_turn (y : Duo) : option Duo :=
  match phone y with
  | Ret _ | Throw _ => None
  | Act c k =>
      match c return (answer c → Driver _) → option Duo with
      | SendMsg m => λ k, Some {| phone := k (Ok tt); host := host y; up := up y ++ [m]; down := down y; stepped := stepped y |}
      | RecvMsg => λ k,
          match down y with
          | m :: rest => Some {| phone := k (Ok m); host := host y; up := up y; down := rest; stepped := stepped y |}
          | [] => None
          end
      | OnCode _ => λ k, Some {| phone := k tt; host := host y; up := up y; down := down y; stepped := stepped y |}
      | StepHost _ _ => λ _, None
      end k
  end.

Definition host_turn (y : Duo) : option Duo :=
  match host y with
  | Ret _ | Throw _ => None
  | Act c k =>
      match c return (answer c → Driver _) → option Duo with
      | SendMsg m => λ k, Some {| phone := phone y; host := k (Ok tt); up := up y; down := down y ++ [m]; stepped := stepped y |}
      | RecvMsg => λ k,
          match up y with
          | m :: rest => Some {| phone := phone y; host := k (Ok m); up := rest; down := down y; stepped := stepped y |}
          | [] => None
          end
      | StepHost s m => λ k,
          Some {| phone := phone y; host := k (server_step (draws (stepped y)).1 (draws (stepped y)).2 s m).1;
                  up := up y; down := down y; stepped := S (stepped y) |}
      | OnCode _ => λ _, None
      end k
  end.

Definition duo_step (y y' : Duo) : Prop := phone_turn y = Some y' ∨ host_turn y = Some y'.

Definition duo_start (c : ClientHandshake) (eph : EphemeralSecret) (s : ServerHandshake) : Duo :=
  {| phone := run_client_handshake_with 2 c eph; host := host_side 2 s; up := []; down := []; stepped := 0 |}.

(** Both are done, with the same session and each other's identity. *)
Definition agreed (c : ClientHandshake) (s : ServerHandshake) (y : Duo) : Prop :=
  ∃ p h, phone y = Ret (Some (Ok p)) ∧ host y = Ret (Some (Ok h)) ∧
    matched (cipher p) (cipher h) ∧ matched (cipher h) (cipher p) ∧
    reconnect_token p = reconnect_token h ∧ pair_id p = pair_id h ∧
    pair_event_key p = pair_event_key h ∧ code p = code h ∧
    peer_device_id p = s_device_id s ∧ peer_device_id h = c_device_id c ∧
    resumed p = is_resume c.

(** *** The runs of an honest pair

    One point of each side's program per message, and the messages under way
    between two points. *)
Section Honest.
Context `{!CryptoLaws _}.
Context (c : ClientHandshake) (eph : EphemeralSecret) (s s1 s2 : ServerHandshake) (c2 c3 : ClientHandshake).
Context (nonce se proof session : bytes) (sh1 sh2 : Shared) (rs pv : bool) (ep : option Z) (p h : Established).
Local Abbreviation hello := (client_start c eph).1.
Local Abbreviation c1 := (client_start c eph).2.
Local Abbreviation ok := (PairingOk (s_device_id s) (s_display_name s)).
Context (Hhello : server_step (draws 0).1 (draws 0).2 s hello = (Ok (Send (PairingChallenge nonce se)), s1, sh1)).
Context (Hchal : client_step c1 (PairingChallenge nonce se) = (Ok (Send (PairingProof proof)), c2)).
Context (Hproof : server_step (draws 1).1 (draws 1).2 s1 (PairingProof proof)
                  = (Ok (Done session (c_device_id c) (c_display_name c) rs pv ep), s2, sh2)).
Context (Hok : client_step c2 ok = (Ok (Done session (s_device_id s) (s_display_name s) (is_resume c) false None), c3)).
Context (Hp : establish for_client session (s_device_id s) (s_display_name s) (is_resume c) false None = Ok p).
Context (Hh : establish for_server session (c_device_id c) (c_display_name c) rs pv ep = Ok h).

Definition finish_host (r : option (SyncResult Established)) : Driver (option (SyncResult Established)) :=
  match r with
  | Some (Ok out) =>
      ok ← confirm_server_handshake s;
      Ret (Some (match ok with Ok _ => Ok out | Err e => Err e end))
  | _ => Ret r
  end.

Definition phone_at (i : nat) : Driver (option (SyncResult Established)) :=
  let show := match verification_code c2 with Some code => call (OnCode code) | None => Ret tt end in
  match i with
  | 0 => run_client_handshake_with 2 c eph
  | 1 => client_loop 2 c1
  | 2 => sent ← call (SendMsg (PairingProof proof));
         match sent with
         | Err e => Ret (Some (Err (ETransport e)))
         | Ok _ => _ ← show; client_loop 1 c2
         end
  | 3 => _ ← show; client_loop 1 c2
  | 4 => client_loop 1 c2
  | _ => Ret (Some (Ok p))
  end%nat.

Definition host_got (fuel : nat) (s : ServerHandshake) (msg : HandshakeMessage)
    : Driver (option (SyncResult Established)) :=
  match run_server_handshake (S fuel) s with
  | Act RecvMsg k => k (Ok msg)
  | q => q
  end.

Definition host_at (j : nat) : Driver (option (SyncResult Established)) :=
  match j with
  | 0 => host_side 2 s
  | 1 => prog_bind_ finish_host (host_got 1 s hello)
  | 2 => sent ← call (SendMsg (PairingChallenge nonce se));
         prog_bind_ finish_host
           match sent with Err e => Ret (Some (Err (ETransport e))) | Ok _ => run_server_handshake 1 s1 end
  | 3 => prog_bind_ finish_host (run_server_handshake 1 s1)
  | 4 => prog_bind_ finish_host (host_got 0 s1 (PairingProof proof))
  | 5 => finish_host (Some (Ok h))
  | _ => Ret (Some (Ok h))
  end%nat.

Definition duo_at (i j : nat) : Duo :=
  {| phone := phone_at i; host := host_at j;
     up := if (1 <=? i) && (j =? 0) then [hello] else if (3 <=? i) && (j =? 3) then [PairingProof proof] else [];
     down := if (3 <=? j) && (i =? 1) then [PairingChallenge nonce se]
             else if (6 <=? j) && (i <? 5) then [ok] else [];
     stepped := if j <? 2 then 0 else if j <? 5 then 1 else 2 |}%nat.

(** Where the two sides can be. *)
Definition points : list (nat * nat) :=
  [(0,0);(1,0);(1,1);(1,2);(1,3);(2,3);(3,3);(4,3);(3,4);(4,4);(3,5);(4,5);(3,6);(4,6);(5,6)]%nat.

Lemma phone_turn_at i j :
  (i, j) ∈ points →
  phone_turn (duo_at i j) =
    match i with
    | 0 => Some (duo_at 1 j)
    | 1 => if j =? 3 then Some (duo_at 2 j) else None
    | 2 => Some (duo_at 3 j)
    | 3 => match verification_code c2 with
           | Some _ => Some (duo_at 4 j)
           | None => if j =? 6 then Some (duo_at 5 j) else None
           end
    | 4 => if j =? 6 then Some (duo_at 5 j) else None
    | _ => None
    end%nat.
Proof.
  intros Hin. unfold points in Hin.
  repeat (apply elem_of_cons in Hin as [[= -> ->]|Hin]); [..|by apply elem_of_nil in Hin]; try reflexivity.
  all: unfold phone_turn, duo_at; cbn -[client_step client_start server_step establish verification_code].
  all: rewrite ?Hchal, ?Hok, ?Hp; try done. all: destruct (verification_code c2); try done.
  all: cbn -[client_step client_start server_step establish verification_code]; rewrite ?Hok, ?Hp; done.
Qed.

Lemma host_turn_at i j :
  (i, j) ∈ points →
  host_turn (duo_at i j) =
    match j with
    | 0 => if 1 <=? i then Some (duo_at i 1) else None
    | 3 => if 3 <=? i then Some (duo_at i 4) else None
    | 6 => None
    | _ => Some (duo_at i (S j))
    end%nat.
Proof.
  intros Hin. unfold points in Hin.
  repeat (apply elem_of_cons in Hin as [[= -> ->]|Hin]); [..|by apply elem_of_nil in Hin]; try reflexivity.
  all: unfold host_turn, duo_at; cbn -[client_step client_start server_step establish verification_code].
  all: rewrite ?Hhello, ?Hproof; try done.
  all: cbn -[client_step client_start server_step establish verification_code]; rewrite ?Hh; done.
Qed.

(** The points are closed, each step goes on by one, and only the last has no next. *)
Lemma duo_step_at i j y :
  (i, j) ∈ points → duo_step (duo_at i j) y →
  ∃ i' j', (i', j') ∈ points ∧ y = duo_at i' j' ∧ (i + j < i' + j')%nat.
Proof.
  intros Hin Hstep. unfold duo_step in Hstep. rewrite phone_turn_at, host_turn_at in Hstep by done.
  unfold points in Hin. repeat (apply elem_of_cons in Hin as [[= -> ->]|Hin]); [..|by apply elem_of_nil in Hin];
    cbn in Hstep; destruct Hstep as [Hy|Hy]; try done; repeat case_match; simplify_eq;
    do 2 eexists; (split; [|split; [reflexivity|simpl; lia]]); unfold points; set_solver.
Qed.

Lemma duo_goes_on i j :
  (i, j) ∈ points → (i, j) ≠ (5, 6)%nat → ∃ y, duo_step (duo_at i j) y.
Proof.
  intros Hin Hne. unfold duo_step. rewrite phone_turn_at, host_turn_at by done.
  unfold points in Hin. repeat (apply elem_of_cons in Hin as [[= -> ->]|Hin]); [..|by apply elem_of_nil in Hin];
    try done; cbn; repeat case_match; eauto.
Qed.

Lemma duo_ends : agreed c s (duo_at 5 6).
Proof.
  apply establish_ok in Hp as (Cp & Tp & Mp & Vp & Dp & _ & Rp), Hh as (Ch & Th & Mh & Vh & Dh & _ & _).
  destruct (session_ciphers session) as (cl & sv & E1 & E2 & M1 & M2 & _).
  rewrite Cp in E1. rewrite Ch in E2. injection E1 as <-. injection E2 as <-.
  rewrite Th in Tp. rewrite Mh in Mp. rewrite Vh in Vp. simplify_eq.
  exists p, h. split_and!; try done; congruence.
Qed.
End Honest.

Lemma establish_total `{!CryptoLaws _} for_side session d n r pv ep :
  is_ok (for_side session) = true → ∃ out, establish for_side session d n r pv ep = Ok out.
Proof.
  intros Hc. unfold establish, derive_reconnect_token, derive_resumption_token, derive_pair_material,
    pair_verification_code.
  destruct (for_side session); [|done]. cbn [mbind result_bind].
  destruct (derive_subkey_ok session RESUMPTION_TOKEN_LABEL) as (k1 & -> & _). cbn [mbind result_bind].
  destruct (derive_subkey_ok session PAIR_ID_LABEL) as (k2 & -> & _). cbn [mbind result_bind].
  destruct (derive_subkey_ok session PAIR_EVENT_KEY_LABEL) as (k3 & -> & _). cbn [mbind result_bind].
  destruct (derive_subkey_ok session PAIR_SAS_LABEL) as (k4 & -> & _). cbn [mbind result_bind]. eauto.
Qed.

(** C5 (liveness). An honest pair always gets there: whatever the speed of the two sides, and whatever the host's
    other connections do between its steps, a phone whose credential the host accepts and
    a host that answered its Hello with a challenge never block and never run for more
    than eleven steps, and where they stop they hold matching ciphers, the same
    reconnect token, pair material and comparison code, and each other's identity. *)
Theorem honest_pair_agrees `{!CryptoLaws _} c eph s nonce se s1 sh1 y n :
  s_state s = SAwaitingHello →
  server_step (draws 0).1 (draws 0).2 s (client_start c eph).1 = (Ok (Send (PairingChallenge nonce se)), s1, sh1) →
  (∃ r p, Authenticates s (c_device_id c) (client_key c) r p) →
  proofs_separate s (c_device_id c) nonce (build_transcript (x25519_public eph) se) →
  nsteps duo_step n (duo_start c eph s) y →
  (n <= 11)%nat ∧ ((∃ y', duo_step y y') ∨ agreed c s y).
Proof.
  intros Hst Hhello Hauth Hsep Hn.
  destruct (agreement _ _ c s eph nonce se s1 sh1 Hst Hhello Hauth Hsep)
    as (proof & session & c2 & Hchal & Hproof & Hok & _).
  destruct (Hproof (draws 1).1 (draws 1).2) as (rs & pv & ep & s2 & sh2 & Hp2 & _).
  destruct (Hok (s_device_id s) (s_display_name s)) as (c3 & Hok3 & _).
  destruct (session_ciphers session) as (cl & sv & E1 & E2 & _).
  destruct (establish_total for_client session (s_device_id s) (s_display_name s) (is_resume c) false None)
    as [p Hp]; [by rewrite E1|].
  destruct (establish_total for_server session (c_device_id c) (c_display_name c) rs pv ep) as [h Hh]; [by rewrite E2|].
  set (D := duo_at c eph s s1 c2 nonce se proof p h).
  assert (Hat : ∀ k y0 y1 i j, nsteps duo_step k y0 y1 → y0 = D i j → (i, j) ∈ points →
    ∃ i' j', y1 = D i' j' ∧ (i', j') ∈ points ∧ (i + j + k <= i' + j')%nat).
  { intros k y0 y1 i j Hk. revert i j. induction Hk as [y0|k y0 ym y1 Hs _ IH]; intros i j -> Hin.
    - exists i, j. split_and!; [done..|lia].
    - eapply duo_step_at in Hs as (i1 & j1 & Hin1 & -> & Hlt); try done.
      destruct (IH i1 j1 eq_refl Hin1) as (i2 & j2 & -> & Hin2 & Hle). exists i2, j2. split_and!; [done..|lia]. }
  destruct (Hat n _ _ 0 0 Hn eq_refl ltac:(unfold points; set_solver))%nat as (i & j & -> & Hin & Hle).
  split.
  - unfold points in Hin. repeat (apply elem_of_cons in Hin as [[= -> ->]|Hin]); [lia..|by apply elem_of_nil in Hin].
  - destruct (decide ((i, j) = (5, 6)%nat)) as [[= -> ->]|Hne].
    + right. by eapply duo_ends.
    + left. by eapply duo_goes_on.
Qed.
End Duo.
End WithCrypto.

(** ** A phone on another version, a revoked phone, and a first pair *)
Module DriversExamples.
Import Toy.
#[local] Transparent gmap_empty be_bytes be_value le_bytes le_value.

Definition ex_unread : list (did answer) :=
  [Did RecvMsg (Err (UnsupportedProtocolVersion 11 12)); Did (SendMsg (PairingFailed UnsupportedVersion)) (Ok tt)].

Lemma a_refusal_is_the_last_word_witness :
  ∃ tr0 reason r, ex_unread = tr0 ++ [Did (SendMsg (PairingFailed reason)) r] ∧
    existsb is_failure (sends tr0) = false.
Proof.
  assert (Hr : runs next tt (run_server_handshake 2 ex_server) ex_unread tt
                 (Returned (Some (Err (ETransport (UnsupportedProtocolVersion 11 12)))))).
  { apply (runs_call next RecvMsg) with tt; [exact I|].
    apply (runs_call next (SendMsg _)) with tt; [intros ? ? [=]|constructor]. }
  exact (proj2 (a_refusal_is_the_last_word 2 ex_server ex_unread _ (le_n 2) eq_refl Hr)).
Defined.

Definition ex_refused_run : list (did answer) :=
  [Did (SendMsg ex_hello) (Ok tt); Did RecvMsg (Ok (PairingFailed Revoked))].

Lemma the_phone_trusts_only_the_last_word_witness :
  (length ex_refused_run <= 5)%nat ∧
  (shown ex_refused_run = [] ∨
   ∃ m proof code rest, is_resume ex_client = false ∧ shown rest = [] ∧
     ex_refused_run = Did (SendMsg ex_hello) (Ok tt) :: Did RecvMsg (Ok m)
          :: Did (SendMsg (PairingProof proof)) (Ok tt) :: Did (OnCode code) tt :: rest).
Proof.
  assert (Hr : runs next tt (run_client_handshake_with 2 ex_client Byte.x09) ex_refused_run tt
                 (Returned (Some (Err (EProtocol (PairingFailedErr Revoked)))))).
  { apply (runs_call next (SendMsg _)) with tt; [intros ? ? [=]|].
    apply (runs_call next RecvMsg) with tt; [exact I|]. constructor. }
  destruct (the_phone_trusts_only_the_last_word 2 ex_client Byte.x09 ex_refused_run _ (le_n 2) Hr) as (H1 & H2 & _).
  split; [exact H1|exact H2].
Defined.

Definition ex_draws (n : nat) : ServerEnv * Shared := (ex_env, if (n =? 0)%nat then ex_shared else ex_shared1).

Lemma honest_pair_agrees_witness :
  ∃ y', duo_step ex_draws (duo_start ex_client Byte.x09 ex_server) y'.
Proof.
  destruct (honest_pair_agrees ex_draws ex_client Byte.x09 ex_server ex_nonce ex_eph_pub ex_challenged ex_shared1
    (duo_start ex_client Byte.x09 ex_server) 0 eq_refl ex_challenge ex_accepts (ex_separate _ _) (nsteps_O _ _))
    as (_ & [Hgo|(p & h & Hp & _)]); [exact Hgo|discriminate Hp].
Defined.
End DriversExamples.
