(* ===== verification/LocalFiles.v ===== *)
(** * LocalFiles: the phone's end of a file transfer

    [app/src-tauri/src/local_files.rs]: which local files the web view may name
    on each platform, the names offered for them, and the copy that brings a
    verified download into an Android document. Text is a list of characters, a
    path of the file system its canonical components. *)

From S2P Require Import Prelude Utf8.

Definition CONTENT_SCHEME : chars := str_chars "content://".
Definition FILE_SCHEME : chars := str_chars "file://".
Definition PICKER_ONLY : string := "only a file chosen in the system file picker can be transferred".
Definition MAX_FILE_NAME_BYTES : Z := 255.

Inductive Platform := Desktop | Android | Ios.
Inductive LocalFile := LocalFile_Path (path : chars) | LocalFile_Document (uri : chars).

(** ** Text *)

(** [str::strip_prefix]. *)
Fixpoint strip_prefix (p s : chars) : option chars :=
  match p, s with
  | [], _ => Some s
  | a :: p, b :: s => if a =? b then strip_prefix p s else None
  | _ :: _, [] => None
  end.

(** The text before the first character of a kind, and from it on. *)
Fixpoint break_at (stop : Z → bool) (s : chars) : chars * chars :=
  match s with
  | [] => ([], [])
  | c :: s' => if stop c then ([], s) else let '(a, b) := break_at stop s' in (c :: a, b)
  end.

(** [split_once], [rsplit_once]. *)
Definition split_once (sep : Z) (s : chars) : option (chars * chars) :=
  match break_at (Z.eqb sep) s with (a, _ :: b) => Some (a, b) | (_, []) => None end.
Definition rsplit_once (sep : Z) (s : chars) : option (chars * chars) :=
  '(b, a) ← split_once sep (reverse s); Some (reverse a, reverse b).

Definition one_of (cs : chars) (c : Z) : bool := existsb (Z.eqb c) cs.

Definition is_control (c : Z) : bool := ((0 <=? c) && (c <=? 31)) || ((127 <=? c) && (c <=? 159)).
Definition ascii_digit (c : Z) : bool := (48 <=? c) && (c <=? 57).
Definition ascii_alphanumeric (c : Z) : bool :=
  ascii_digit c || ((65 <=? c) && (c <=? 90)) || ((97 <=? c) && (c <=? 122)).

(** [char::to_digit(16)] of a byte read as a character. *)
Definition hex_digit (b : Byte.byte) : option Z :=
  let c := byte_val b in
  if ascii_digit c then Some (c - 48)
  else if (97 <=? c) && (c <=? 102) then Some (c - 87)
  else if (65 <=? c) && (c <=? 70) then Some (c - 55)
  else None.

Definition percent : Byte.byte := Byte.x25.

Fixpoint percent_bytes (b : bytes) : option bytes :=
  match b with
  | [] => Some []
  | x :: tail =>
      if bool_decide (x = percent) then
        match tail with
        | high :: low :: rest =>
            h ← hex_digit high; l ← hex_digit low; r ← percent_bytes rest; Some (byte_of (h * 16 + l) :: r)
        | _ => None
        end
      else r ← percent_bytes tail; Some (x :: r)
  end.

(** [String::from_utf8(..).ok()]. *)
Definition utf8_text (b : bytes) : option chars :=
  match from_utf8 b with Utf8Ok => Some (utf8_decode (length b) b) | Utf8Err _ _ => None end.

Definition percent_decode (text : chars) : option chars := percent_bytes (chars_bytes text) ≫= utf8_text.

(** ** Which local files may be named *)

Definition slash : Z := 47.
Definition is_slash : Z → bool := Z.eqb slash.
(** Neither empty nor a dot or two. *)
Definition plain_segment (seg : chars) : bool :=
  negb (bool_decide (seg = []) || bool_decide (seg = str_chars ".") || bool_decide (seg = str_chars "..")).

Definition file_url_to_path (url : chars) : option chars :=
  encoded ← strip_prefix FILE_SCHEME url;
  if negb (bool_decide (head encoded = Some slash)) || existsb (one_of (str_chars "?#")) encoded then None
  else
    path ← percent_decode encoded;
    if negb (forallb plain_segment (split_by is_slash (tail path))) || existsb is_control path then None
    else Some path.

Definition is_foreign_document (uri own_package : chars) : bool :=
  if existsb is_control uri then false
  else match strip_prefix CONTENT_SCHEME uri with
  | None => false
  | Some rest =>
      let authority := (break_at (one_of (str_chars "/?#")) rest).1 in
      let provider :=
        match split_once 64 authority with
        | Some (user, provider) =>
            if negb (bool_decide (user = [])) && forallb ascii_digit user then Some provider else None
        | None => Some authority
        end in
      match provider with
      | None => false
      | Some provider =>
          if bool_decide (provider = []) || negb (forallb (λ c, ascii_alphanumeric c || one_of (str_chars "._-") c) provider)
          then false
          else
            let provider := ascii_lower <$> provider in
            let own := ascii_lower <$> own_package in
            negb (bool_decide (provider = own)) && negb (bool_decide (is_Some (strip_prefix (own ++ str_chars ".") provider)))
      end
  end.

Definition classify_local_file (raw : chars) (platform : Platform) (own_package : chars) : result string LocalFile :=
  match platform with
  | Desktop => Ok (LocalFile_Path raw)
  | Android => if is_foreign_document raw own_package then Ok (LocalFile_Document raw) else Err PICKER_ONLY
  | Ios => ok_or (LocalFile_Path <$> file_url_to_path raw) PICKER_ONLY
  end.

(** [canonicalize] and [Path::starts_with] on canonical components. *)
Definition picker_copy {P} (canonicalize : P → result string (list bytes)) (path copies : P)
    : result string (list bytes) :=
  copies ← map_err (λ e, "cannot find the app's temporary directory: " +:+ e) (canonicalize copies);
  file ← map_err (λ e, "cannot open upload: " +:+ e) (canonicalize path);
  if bool_decide (copies `prefix_of` file) && negb (bool_decide (file = copies)) then Ok file
  else Err PICKER_ONLY.

Definition check_download_supported (platform : Platform) : result string unit :=
  match platform with
  | Ios => Err "saving downloads is not supported on iOS yet - iOS does not let Portty write into the file its Save dialog creates"
  | _ => Ok tt
  end.

(** ** Names *)

(** The longest prefix whose UTF-8 takes at most so many bytes. *)
Fixpoint fit (budget : Z) (s : chars) : chars :=
  match s with
  | [] => []
  | c :: s' =>
      let n := Z.of_nat (length (utf8_encode c)) in
      if n <=? budget then c :: fit (budget - n) s' else []
  end.

Definition trim_end (s : chars) : chars := reverse (trim_start (reverse s)).

Definition plain_file_name (raw : chars) : option chars :=
  let last_ := default raw (last (split_by (one_of [47; 92]) raw)) in
  let cleaned := (λ c, if one_of [60; 62; 58; 34; 124; 63; 42] c then 95 else c)
                   <$> List.filter (λ c, negb (is_control c)) last_ in
  let cleaned := trim cleaned in
  if bool_decide (cleaned = []) || bool_decide (cleaned = str_chars ".") || bool_decide (cleaned = str_chars "..")
  then None
  else Some (trim_end (fit MAX_FILE_NAME_BYTES cleaned)).

Definition name_in_document_uri (uri : chars) : option chars :=
  rest ← strip_prefix CONTENT_SCHEME uri;
  let path := default rest (head (split_by (one_of (str_chars "?#")) rest)) in
  '(_, segment) ← rsplit_once slash path;
  id ← percent_decode segment;
  if negb (existsb is_slash id) then None else plain_file_name id.

(** [Option::or_else]. *)
Definition or_else {A} (o : option A) (k : option A) : option A := match o with Some _ => o | None => k end.

Definition suggested_upload_name (display_name : option chars) (local : chars) : chars :=
  default (str_chars "upload")
    (or_else (display_name ≫= plain_file_name)
       (if bool_decide (is_Some (strip_prefix CONTENT_SCHEME local)) then name_in_document_uri local
        else if bool_decide (is_Some (strip_prefix FILE_SCHEME local))
             then file_url_to_path local ≫= plain_file_name
             else plain_file_name local)).

Definition document_label (display_name : option chars) (uri : chars) : chars :=
  default (str_chars "the chosen file")
    (or_else (display_name ≫= plain_file_name) (name_in_document_uri uri)).

(** ** Saving into a document *)

Inductive Discard := Removed | HoldsData | Unchecked (why : string) | Failed (why : string).

Definition quoted (s : string) : string :=
  let q := String.string_of_list_byte [Byte.x22] in q +:+ s +:+ q.

Definition cleanup_note (label : string) (outcome : Discard) : option string :=
  match outcome with
  | Failed why => Some ("The empty file " +:+ quoted label +:+ " made for this download could not be removed ("
                        +:+ why +:+ ") - delete it in your files app.")
  | Unchecked why => Some ("Could not check " +:+ quoted label +:+ " (" +:+ why
                           +:+ ") - if it is an empty file left by this download, delete it in your files app.")
  | Removed | HoldsData => None
  end.

Record CommitFailure := { error : string; destination_opened : bool; emptied : bool }.

(** What is said to be left at the destination, if anything is. *)
Definition left_behind (label : string) (failure : CommitFailure) (outcome : Discard) : option string :=
  match outcome with
  | Removed => Some "the unfinished file was removed"
  | Failed why => Some (label +:+ " was left empty and could not be removed (" +:+ why +:+ "); delete it")
  | Unchecked why =>
      if emptied failure then
        Some (label +:+ " was left empty and could not be removed (" +:+ why +:+ "); delete it")
      else if destination_opened failure then
        Some (label +:+ " may be incomplete and could not be removed (" +:+ why +:+ "); delete it")
      else Some ("nothing was written to " +:+ label +:+ "; if it is empty, delete it (" +:+ why +:+ ")")
  | HoldsData =>
      if destination_opened failure then Some (label +:+ " may be incomplete; delete it") else None
  end.

Definition commit_failure_message (label : string) (failure : CommitFailure) (outcome : Discard) : string :=
  let message := "could not save the download into " +:+ label +:+ ": " +:+ error failure in
  match left_behind label failure outcome with
  | Some note => message +:+ " - " +:+ note
  | None => message
  end.

(** How a read of the staged file, and the last calls, come out. *)
Inductive CopyRead := Copied (n : nat) | Interrupted | ReadFails (e : string).
Inductive SyncOutcome := SyncOk | SyncInvalidInput | SyncFails (e : string).

Definition COPY_BUFFER : nat := Z.to_nat (64 * 1024).

Section Copy.
Context (blake3 : bytes → bytes).

(** The loop of [copy_verified]: [writes] tells, write by write, after how many
    bytes it fails; [got] is what has been read, [dest] what has been written.
    Events that run out mean that all goes well. [None]: out of fuel. *)
Fixpoint copy_loop (fuel : nat) (size : Z) (reads : list CopyRead) (writes : list (option nat))
    (rest got dest : bytes) : option (result string bytes * bytes) :=
  match fuel with
  | O => None
  | S fuel =>
      match reads with
      | Interrupted :: reads => copy_loop fuel size reads writes rest got dest
      | ReadFails e :: _ => Some (Err e, dest)
      | _ =>
          let n := match reads with Copied n :: _ => Nat.min (Nat.max 1 n) COPY_BUFFER | _ => COPY_BUFFER end in
          let buffer := take n rest in
          if bool_decide (buffer = []) then Some (Ok got, dest)
          else
            let got := got ++ buffer in
            if size <? Z.of_nat (length got)
            then Some (Err "the staged download is larger than what was verified", dest)
            else match head writes with
                 | Some (Some k) => Some (Err "write", dest ++ take k buffer)
                 | _ => copy_loop fuel size (tail reads) (tail writes) (drop n rest) got (dest ++ buffer)
                 end
      end
  end.

(** With fuel for every event and every byte. *)
Definition copy_verified (size : Z) (checksum : bytes) (reads : list CopyRead) (writes : list (option nat))
    (flush : bool) (sync : SyncOutcome) (source : bytes) : option (result string unit * bytes) :=
  '(r, dest) ← copy_loop (S (length reads + length source)) size reads writes source [] [];
  Some (match r with
        | Err e => (Err e, dest)
        | Ok got =>
            if negb (Z.of_nat (length got) =? size) || negb (bool_decide (blake3 got = checksum))
            then (Err "the staged download no longer matches what was verified", dest)
            else if negb flush then (Err "flush", dest)
            else match sync with
                 | SyncFails e => (Err e, dest)
                 | SyncOk | SyncInvalidInput => (Ok tt, dest)
                 end
        end).

(** The outcome and what the destination holds then; [destination] is what it
    holds before, and opening it empties it. The staged file goes either way. *)
Definition commit_by_copy (size : Z) (checksum : bytes) (staged : result string bytes) (open_destination : option string)
    (reads : list CopyRead) (writes : list (option nat)) (flush : bool) (sync : SyncOutcome) (truncate : bool)
    (destination : bytes) : option (result CommitFailure unit * bytes) :=
  let untouched e := Some (Err {| error := e; destination_opened := false; emptied := false |}, destination) in
  match staged, open_destination with
  | Err e, _ | Ok _, Some e => untouched e
  | Ok source, None =>
      '(r, dest) ← copy_verified size checksum reads writes flush sync source;
      Some (match r with
            | Ok _ => (Ok tt, dest)
            | Err e => (Err {| error := e; destination_opened := true; emptied := truncate |},
                        if truncate then [] else dest)
            end)
  end.
End Copy.

(** ** Splitting *)

Lemma forallb_true {A} (f : A → bool) l : forallb f l = true ↔ Forall (λ x, f x = true) l.
Proof.
  induction l as [|x l IH]; [done|]. cbn [forallb]. rewrite andb_true_iff, Forall_cons, IH. done.
Qed.

Lemma existsb_false {A} (f : A → bool) l : existsb f l = false ↔ Forall (λ x, f x = false) l.
Proof.
  induction l as [|x l IH]; [done|]. cbn [existsb]. rewrite orb_false_iff, Forall_cons, IH. done.
Qed.

Lemma strip_prefix_spec p : ∀ s r, strip_prefix p s = Some r ↔ s = p ++ r.
Proof.
  induction p as [|a p IH]; intros s r; simpl; [naive_solver|]. destruct s as [|b s]; [naive_solver|].
  destruct (Z.eqb_spec a b) as [->|Hne]; [rewrite IH; naive_solver|]. naive_solver.
Qed.

Definition stopped (stop : Z → bool) (s : chars) : Prop :=
  match s with [] => True | c :: _ => stop c = true end.

Lemma break_at_spec stop s a b :
  break_at stop s = (a, b) ↔ s = a ++ b ∧ Forall (λ c, stop c = false) a ∧ stopped stop b.
Proof.
  revert a b. induction s as [|c s IH]; intros a b; simpl.
  { split; [by intros [= <- <-]|]. intros (Hs & _ & _). symmetry in Hs. by apply app_eq_nil in Hs as [-> ->]. }
  destruct (stop c) eqn:Hc.
  - split; [intros [= <- <-]; by split_and!|]. intros (Hs & Ha & Hb).
    destruct a as [|x a]; simplify_eq/=; [done|]. inversion Ha; congruence.
  - destruct (break_at stop s) as [a' b'] eqn:Hs. destruct (proj1 (IH a' b') eq_refl) as (-> & Ha & Hb).
    split; [intros [= <- <-]; split_and!; [done|by constructor|done]|].
    intros (He & Ha' & Hb'). destruct a as [|x a]; simplify_eq/=; [congruence|]. inversion_clear Ha'.
    assert ((a', b') = (a, b)) as [= <- <-] by (apply IH; auto). done.
Qed.

Lemma split_once_spec sep s a b :
  split_once sep s = Some (a, b) ↔ s = a ++ sep :: b ∧ Forall (λ c, (sep =? c) = false) a.
Proof.
  unfold split_once. destruct (break_at (Z.eqb sep) s) as [x y] eqn:Hb.
  pose proof (proj1 (break_at_spec _ _ _ _) Hb) as (-> & Hx & Hy). split.
  - destruct y as [|c y]; [done|]. simpl in Hy. apply Z.eqb_eq in Hy as ->. by intros [= <- <-].
  - intros [He Ha]. assert (break_at (Z.eqb sep) (a ++ sep :: b) = (a, sep :: b)) as Hab.
    { apply break_at_spec. split_and!; [done|done|simpl; apply Z.eqb_refl]. }
    rewrite <-He, Hb in Hab. by simplify_eq.
Qed.

Lemma split_once_none sep s : split_once sep s = None → Forall (λ c, (sep =? c) = false) s.
Proof.
  unfold split_once. destruct (break_at (Z.eqb sep) s) as [x y] eqn:Hb.
  apply break_at_spec in Hb as (-> & Hx & Hy). destruct y; [by rewrite app_nil_r|done].
Qed.

(** ** Documents of other apps *)

Definition plain_authority (c : Z) : bool := ascii_alphanumeric c || one_of (str_chars "._-") c.

Lemma plain_no_at c : plain_authority c = true → (64 =? c) = false ∧ one_of (str_chars "/?#") c = false.
Proof.
  unfold plain_authority, ascii_alphanumeric, ascii_digit, one_of. cbn -[Z.eqb Z.leb].
  rewrite !orb_true_iff, !andb_true_iff, !Z.leb_le, !Z.eqb_eq. intros H.
  rewrite !orb_false_iff, !Z.eqb_neq. assert (false ≠ true) by done. split_and!; try done; lia.
Qed.

Lemma digit_no_at c : ascii_digit c = true → (64 =? c) = false ∧ one_of (str_chars "/?#") c = false.
Proof. intros H. apply plain_no_at. unfold plain_authority, ascii_alphanumeric. by rewrite H. Qed.

(** What is checked of an authority: the provider behind the user's number. *)
Definition provider_in (authority : chars) : option chars :=
  match split_once 64 authority with
  | Some (user, provider) =>
      if negb (bool_decide (user = [])) && forallb ascii_digit user then Some provider else None
  | None => Some authority
  end.

Definition user_part (user : chars) : Prop :=
  user = [] ∨ ∃ digits, digits ≠ [] ∧ forallb ascii_digit digits = true ∧ user = digits ++ [64].

Lemma no_at_in f l : (∀ c, f c = true → (64 =? c) = false) → forallb f l = true → Forall (λ c, (64 =? c) = false) l.
Proof. intros Hf Hl. eapply Forall_impl; [by apply forallb_true|done]. Qed.

Lemma provider_in_spec authority provider : forallb plain_authority provider = true →
  provider_in authority = Some provider ↔ ∃ user, user_part user ∧ authority = user ++ provider.
Proof.
  intros Hp. unfold provider_in.
  assert (Hno : Forall (λ c, (64 =? c) = false) provider) by (eapply no_at_in; [apply plain_no_at|done]).
  assert (Hsplit : ∀ ds, forallb ascii_digit ds = true →
    split_once 64 ((ds ++ [64]) ++ provider) = Some (ds, provider)).
  { intros ds Hd. apply split_once_spec. rewrite <-app_assoc. split; [done|].
    eapply no_at_in; [apply digit_no_at|done]. }
  assert (Hnone : split_once 64 provider = None).
  { destruct (split_once 64 provider) as [[a b]|] eqn:Hs; [|done]. apply split_once_spec in Hs as [-> _].
    rewrite Forall_app, Forall_cons in Hno. naive_solver. }
  split.
  - destruct (split_once 64 authority) as [[u q]|] eqn:Hs; [|intros [= ->]; exists []; split; [by left|done]].
    apply split_once_spec in Hs as [-> Hu]. case_bool_decide as Hne; [done|].
    destruct (forallb ascii_digit u) eqn:Hd; [|done]. intros [= ->]. exists (u ++ [64]).
    split; [right; by exists u|by rewrite <-app_assoc].
  - intros (user & [->|(ds & Hds & Hd & ->)] & ->); [by rewrite app_nil_l, Hnone|].
    rewrite Hsplit by done. rewrite bool_decide_eq_false_2 by done. by rewrite Hd.
Qed.

(** C40 (functional). On Android exactly the [content://] documents of other apps are accepted:
    a plainly spelled provider, possibly behind an Android user's number, that is
    neither this app's package nor a name under it, and no control characters. *)
Theorem only_foreign_documents_are_accepted uri own :
  classify_local_file uri Android own = Ok (LocalFile_Document uri) ↔
  ∃ user provider rest,
    uri = CONTENT_SCHEME ++ user ++ provider ++ rest ∧
    user_part user ∧ stopped (one_of (str_chars "/?#")) rest ∧
    provider ≠ [] ∧ forallb plain_authority provider = true ∧ existsb is_control uri = false ∧
    ascii_lower <$> provider ≠ ascii_lower <$> own ∧
    ¬ (ascii_lower <$> own) ++ str_chars "." `prefix_of` (ascii_lower <$> provider).
Proof.
  assert (Hc : classify_local_file uri Android own = Ok (LocalFile_Document uri) ↔ is_foreign_document uri own = true).
  { simpl. by destruct (is_foreign_document uri own). }
  rewrite Hc. clear Hc. unfold is_foreign_document. destruct (existsb is_control uri) eqn:Hctl; [naive_solver|].
  split.
  - destruct (strip_prefix CONTENT_SCHEME uri) as [rest|] eqn:Hs; [|done]. apply strip_prefix_spec in Hs as ->.
    destruct (break_at _ rest) as [authority r] eqn:Hb. apply break_at_spec in Hb as (-> & Ha & Hr).
    cbn [fst]. fold (provider_in authority). destruct (provider_in authority) as [provider|] eqn:Hp; [|done].
    case_bool_decide as Hne; [done|]. cbn [orb]. destruct (forallb _ provider) eqn:Hplain; [|done]. cbn [negb].
    rewrite andb_true_iff, !negb_true_iff, !bool_decide_eq_false. intros [Hown Hunder].
    apply provider_in_spec in Hp as (user & Hu & ->); [|done]. exists user, provider, r.
    rewrite <-app_assoc. split_and!; try done. intros [k Hk]. apply Hunder. eexists. by apply strip_prefix_spec.
  - intros (user & provider & rest & -> & Hu & Hr & Hne & Hplain & _ & Hown & Hunder).
    rewrite (proj2 (strip_prefix_spec _ _ _) eq_refl).
    assert (break_at (one_of (str_chars "/?#")) (user ++ provider ++ rest) = (user ++ provider, rest)) as ->.
    { apply break_at_spec. rewrite <-app_assoc. split_and!; [done| |done]. apply Forall_app. split.
      - destruct Hu as [->|(ds & _ & Hd & ->)]; [done|]. apply Forall_app. split; [|by repeat constructor].
        eapply Forall_impl; [by apply forallb_true|]. intros c Hc. by apply digit_no_at.
      - eapply Forall_impl; [by apply forallb_true|]. intros c Hc. by apply plain_no_at. }
    cbn [fst]. fold (provider_in (user ++ provider)).
    assert (provider_in (user ++ provider) = Some provider) as -> by (apply provider_in_spec; [done|]; by exists user).
    rewrite bool_decide_eq_false_2 by done. cbn [orb]. unfold plain_authority in Hplain. rewrite Hplain. cbn [negb].
    rewrite andb_true_iff, !negb_true_iff, !bool_decide_eq_false. split; [done|]. intros [k Hk].
    apply Hunder. apply strip_prefix_spec in Hk. by exists k.
Qed.

(** ** File URLs *)

(** A way to write a path in a URL: some bytes as they are, the others escaped,
    with either case of digits. *)
Definition hex_char (upper : bool) (d : Z) : Z := if d <? 10 then 48 + d else if upper then 55 + d else 87 + d.
Definition escape (keep : Byte.byte → bool) (upper : bool) (b : Byte.byte) : chars :=
  if keep b then [byte_val b] else [37; hex_char upper (byte_val b / 16); hex_char upper (byte_val b mod 16)].

Definition keepable (keep : Byte.byte → bool) : Prop :=
  keep (byte_of slash) = true ∧
  ∀ b, keep b = true → byte_val b < 128 ∧ one_of (str_chars "%?#") (byte_val b) = false.

Lemma hex_char_digit upper d : 0 <= d < 16 → hex_digit (byte_of (hex_char upper d)) = Some d ∧
  0 <= hex_char upper d < 128 ∧ one_of (str_chars "?#") (hex_char upper d) = false.
Proof.
  intros Hd. assert (d ∈ [0; 1; 2; 3; 4; 5; 6; 7; 8; 9; 10; 11; 12; 13; 14; 15]) as Hin by (rewrite !elem_of_cons; lia).
  repeat (apply elem_of_cons in Hin as [->|Hin]; [by destruct upper|]). by apply elem_of_nil in Hin.
Qed.

Lemma encode_small c : 0 <= c < 128 → utf8_encode c = [c].
Proof. intros H. unfold utf8_encode. by rewrite (proj2 (Z.ltb_lt _ _)) by lia. Qed.

Lemma percent_of_val b : bool_decide (byte_of (byte_val b) = percent) = (byte_val b =? 37).
Proof.
  rewrite byte_of_val. destruct (Z.eqb_spec (byte_val b) 37) as [He|Hne].
  - apply bool_decide_eq_true. by apply byte_val_inj.
  - apply bool_decide_eq_false. intros ->. by apply Hne.
Qed.

Lemma escape_decodes keep upper b s r : keepable keep → percent_bytes (chars_bytes s) = Some r →
  percent_bytes (chars_bytes (escape keep upper b ++ s)) = Some (b :: r).
Proof.
  intros [_ Hk] Hs. pose proof (byte_val_range b) as Hb. unfold escape. destruct (keep b) eqn:Hkeep.
  - destruct (Hk b Hkeep) as [Hlt Hno]. cbn [app]. rewrite chars_bytes_cons, encode_small by lia.
    cbn [fmap list_fmap app percent_bytes]. rewrite percent_of_val.
    assert ((byte_val b =? 37) = false) as ->.
    { apply existsb_false in Hno. inversion Hno as [|? ? Hx]. exact Hx. }
    rewrite Hs. simpl. by rewrite byte_of_val.
  - cbn [app]. rewrite !chars_bytes_cons.
    assert (0 <= byte_val b / 16 < 16) as H1 by (split; [apply Z.div_pos|apply Z.div_lt_upper_bound]; lia).
    pose proof (Z.mod_pos_bound (byte_val b) 16 ltac:(lia)) as H2.
    destruct (hex_char_digit upper _ H1) as (D1 & R1 & _), (hex_char_digit upper _ H2) as (D2 & R2 & _).
    rewrite !encode_small by lia. cbn [fmap list_fmap app percent_bytes].
    rewrite bool_decide_eq_true_2 by done. rewrite D1, D2, Hs. cbn.
    rewrite <-(Z.mul_comm 16), <-Z.div_mod by lia. by rewrite byte_of_val.
Qed.

Lemma escaped_decodes keep upper bs : keepable keep →
  percent_bytes (chars_bytes (bs ≫= escape keep upper)) = Some bs.
Proof.
  intros Hk. induction bs as [|b bs IH]; [done|]. rewrite bind_cons. by apply escape_decodes.
Qed.

Lemma escape_no_query keep upper bs : keepable keep →
  existsb (one_of (str_chars "?#")) (bs ≫= escape keep upper) = false.
Proof.
  intros [_ Hk]. apply existsb_false. apply Forall_forall. intros c. rewrite list_elem_of_bind.
  intros (b & Hc & _). pose proof (byte_val_range b) as Hb. unfold escape in Hc. destruct (keep b) eqn:Hkeep.
  - apply list_elem_of_singleton in Hc as ->. destruct (Hk b Hkeep) as [_ Hno].
    apply existsb_false in Hno. apply existsb_false. by inversion Hno.
  - rewrite !elem_of_cons, elem_of_nil in Hc. destruct Hc as [->|[->|[->|[]]]]; [done|..]; apply (hex_char_digit upper).
    + split; [apply Z.div_pos|apply Z.div_lt_upper_bound]; lia.
    + apply Z.mod_pos_bound. lia.
Qed.

(** An absolute path without control characters, empty segments and dots. *)
Definition plain_path (path : chars) : Prop :=
  head path = Some slash ∧ forallb plain_segment (split_by is_slash (tail path)) = true ∧ existsb is_control path = false.

Lemma percent_keeps_slash r p b : percent_bytes (byte_of slash :: b) = Some r → utf8_text r = Some p → head p = Some slash.
Proof.
  intros Hr Hp. change (byte_of slash) with Byte.x2f in Hr. cbn in Hr. destruct (percent_bytes b) as [r'|]; [|done].
  simplify_eq/=. unfold utf8_text in Hp. destruct (from_utf8 _); [|done]. by simplify_eq/=.
Qed.

(** On iOS a file URL names exactly the plain absolute paths: what is accepted is
    one, and every one is what each of its escaped spellings is read as. *)
Theorem file_urls_name_plain_paths :
  (∀ url own path, classify_local_file url Ios own = Ok (LocalFile_Path path) → plain_path path) ∧
  (∀ keep upper path own, keepable keep → plain_path path → Forall scalar path →
    classify_local_file (FILE_SCHEME ++ (chars_bytes path ≫= escape keep upper)) Ios own = Ok (LocalFile_Path path)).
Proof.
  assert (Hios : ∀ url own path, classify_local_file url Ios own = Ok (LocalFile_Path path) ↔ file_url_to_path url = Some path).
  { intros url own path. simpl. destruct (file_url_to_path url); simpl; naive_solver. }
  split.
  - intros url own path Hu%Hios. unfold file_url_to_path in Hu.
    destruct (strip_prefix FILE_SCHEME url) as [enc|] eqn:He; [|done]. cbn [mbind option_bind] in Hu.
    destruct (negb _ || _) eqn:Hg; [done|]. apply orb_false_iff in Hg as [Hg _].
    apply negb_false_iff, bool_decide_eq_true in Hg.
    destruct (percent_decode enc) as [p|] eqn:Hp; [|done]. cbn [mbind option_bind] in Hu.
    destruct (negb (forallb _ _) || _) eqn:Hq; [done|]. simplify_eq. apply orb_false_iff in Hq as [Hq1 Hq2].
    split_and!; [|by apply negb_false_iff|done].
    unfold percent_decode in Hp. destruct enc as [|c enc]; [done|]. injection Hg as ->.
    rewrite chars_bytes_cons, encode_small in Hp by (unfold slash; lia).
    destruct (percent_bytes _) as [r|] eqn:Hr; [|done]. cbn [mbind option_bind] in Hp.
    cbn [fmap list_fmap app] in Hr. by eapply percent_keeps_slash.
  - intros keep upper path own Hk (Hh & Hseg & Hctl) Hs. apply Hios. unfold file_url_to_path.
    rewrite (proj2 (strip_prefix_spec _ _ _) eq_refl). cbn [mbind option_bind].
    rewrite escape_no_query by done.
    assert (head (chars_bytes path ≫= escape keep upper) = Some slash) as ->.
    { destruct path as [|c path]; [done|]. injection Hh as ->. rewrite chars_bytes_cons, encode_small by (unfold slash; lia).
      cbn [fmap list_fmap app]. rewrite bind_cons. unfold escape at 1. rewrite (proj1 Hk). done. }
    rewrite bool_decide_eq_true_2 by done. cbn [negb orb]. unfold percent_decode.
    rewrite escaped_decodes by done. cbn [mbind option_bind]. unfold utf8_text.
    destruct (utf8_roundtrip path Hs) as [-> ->]. cbn [mbind option_bind]. by rewrite Hseg, Hctl.
Qed.

(** ** Names *)

Definition not_space (c : Z) : Prop := is_whitespace c = false.

Lemma trim_start_spec s : (∃ w, s = w ++ trim_start s) ∧ (∀ c, head (trim_start s) = Some c → not_space c).
Proof.
  induction s as [|c s [[w Hw] Hh]]; simpl; [by split; [exists []|]|]. destruct (is_whitespace c) eqn:Hc.
  - split; [|done]. exists (c :: w). by rewrite <-app_comm_cons, <-Hw.
  - split; [by exists []|]. by intros ? [= <-].
Qed.

Lemma trim_end_spec s : (∃ w, s = trim_end s ++ w) ∧ (∀ c, last (trim_end s) = Some c → not_space c).
Proof.
  destruct (trim_start_spec (reverse s)) as [[w Hw] Hh]. unfold trim_end. split.
  - exists (reverse w). rewrite <-reverse_app, <-Hw. by rewrite reverse_involutive.
  - intros c. rewrite last_reverse. apply Hh.
Qed.

Lemma trim_end_keeps_head s c : head s = Some c → not_space c → head (trim_end s) = Some c.
Proof.
  intros Hs Hc. destruct s as [|x s]; [done|]. simplify_eq/=. unfold trim_end. rewrite reverse_cons.
  induction (reverse s) as [|y t IH] using list_ind; simpl; [by rewrite Hc|].
  destruct (is_whitespace y); [done|]. by rewrite reverse_cons, reverse_app.
Qed.

Lemma trim_head s c : head (trim s) = Some c → not_space c.
Proof.
  change (trim s) with (trim_end (trim_start s)). intros Hh.
  destruct (trim_end_spec (trim_start s)) as [[w Hw] _]. apply (proj2 (trim_start_spec s)). rewrite Hw.
  destruct (trim_end (trim_start s)); [done|]. exact Hh.
Qed.

Lemma trim_elem s c : c ∈ trim s → c ∈ s.
Proof.
  change (trim s) with (trim_end (trim_start s)). intros Hc.
  destruct (trim_end_spec (trim_start s)) as [[w Hw] _], (trim_start_spec s) as [[v Hv] _].
  rewrite Hv, Hw. set_solver.
Qed.

Definition text_length (s : chars) : Z := Z.of_nat (length (s ≫= utf8_encode)).

Lemma fit_spec budget s : 0 <= budget → (∃ w, s = fit budget s ++ w) ∧ text_length (fit budget s) <= budget.
Proof.
  unfold text_length. revert budget. induction s as [|c s IH]; intros budget Hb; simpl; [by split; [exists []|]|].
  destruct (Z.leb_spec (Z.of_nat (length (utf8_encode c))) budget) as [Hle|Hgt].
  - destruct (IH (budget - Z.of_nat (length (utf8_encode c))) ltac:(lia)) as [[w Hw] Hl]. split.
    + exists w. by rewrite <-app_comm_cons, <-Hw.
    + rewrite bind_cons, length_app. lia.
  - split; [by eexists|]. simpl. lia.
Qed.

Lemma split_by_pieces {A} (p : A → bool) s w : w ∈ split_by p s → Forall (λ c, p c = false ∧ c ∈ s) w.
Proof.
  revert w. induction s as [|c s IH]; intros w; simpl; [by intros ->%list_elem_of_singleton|].
  assert (Hmono : ∀ v, Forall (λ x, p x = false ∧ x ∈ s) v → Forall (λ x, p x = false ∧ x ∈ c :: s) v).
  { intros v Hv. eapply Forall_impl; [exact Hv|]. intros x [? ?]. by split; [|right]. }
  destruct (p c) eqn:Hp.
  - intros [->|Hw]%elem_of_cons; [done|]. by apply Hmono, IH.
  - destruct (split_by p s) as [|v vs].
    + intros ->%list_elem_of_singleton. constructor; [split; [done|left]|constructor].
    + intros [->|Hw]%elem_of_cons; [|by apply Hmono, IH; right].
      constructor; [split; [done|left]|]. apply Hmono, IH. left.
Qed.

(** The characters some host refuses in a name. *)
Definition reserved : chars := [47; 92; 60; 62; 58; 34; 124; 63; 42].

Lemma cleaned_elem raw c :
  c ∈ ((λ c, if one_of [60; 62; 58; 34; 124; 63; 42] c then 95 else c) <$>
        List.filter (λ c, negb (is_control c)) (default raw (last (split_by (one_of [47; 92]) raw)))) →
  one_of reserved c = false ∧ is_control c = false.
Proof.
  rewrite list_elem_of_fmap. intros (x & -> & Hx).
  assert (Hx' : negb (is_control x) = true ∧ x ∈ default raw (last (split_by (one_of [47; 92]) raw))).
  { apply list_elem_of_In, filter_In in Hx as [? ?]. split; [done|by apply list_elem_of_In]. }
  destruct Hx' as [Hc Hin]. apply negb_true_iff in Hc. destruct (one_of [60; _; _; _; _; _; _] x) eqn:Hr; [done|].
  split; [|done]. destruct (last (split_by _ raw)) as [w|] eqn:Hl.
  - simpl in Hin. apply last_Some in Hl as [l' Hl].
    assert (w ∈ split_by (one_of [47; 92]) raw) as Hw by (rewrite Hl; set_solver).
    pose proof (split_by_pieces _ _ _ Hw) as Hall. rewrite Forall_forall in Hall. destruct (Hall x Hin) as [Hs _].
    unfold one_of, reserved in *. cbn [existsb] in *. rewrite !orb_false_iff in *. tauto.
  - apply last_None in Hl. by apply split_by_nonnil in Hl.
Qed.

(** The name made of whatever a provider, path or URL says is not empty, has no
    separator, control or reserved character, fits 255 bytes and neither begins
    nor ends with white space. *)
Theorem plain_file_name_is_plain raw name : plain_file_name raw = Some name →
  name ≠ [] ∧ Forall (λ c, one_of reserved c = false ∧ is_control c = false) name ∧
  text_length name <= MAX_FILE_NAME_BYTES ∧
  (∀ c, head name = Some c → not_space c) ∧ (∀ c, last name = Some c → not_space c).
Proof.
  unfold plain_file_name. set (mapped := _ <$> List.filter _ _). set (cleaned := trim mapped).
  destruct (_ || _) eqn:Hdots; [done|]. intros [= <-].
  apply orb_false_iff in Hdots as [Hdots _]. apply orb_false_iff in Hdots as [Hne _].
  apply bool_decide_eq_false in Hne.
  destruct (fit_spec MAX_FILE_NAME_BYTES cleaned ltac:(done)) as [[w Hw] Hlen].
  destruct (trim_end_spec (fit MAX_FILE_NAME_BYTES cleaned)) as [[v Hv] Hlast].
  destruct cleaned as [|c cs] eqn:Hcl; [done|]. fold cleaned in Hcl.
  assert (Hc : not_space c) by (apply (trim_head mapped); unfold cleaned in Hcl; by rewrite Hcl).
  assert (Hfit : head (fit MAX_FILE_NAME_BYTES (c :: cs)) = Some c).
  { cbn [fit]. pose proof (utf8_encode_length c). rewrite (proj2 (Z.leb_le _ _)); [done|]. unfold MAX_FILE_NAME_BYTES. lia. }
  pose proof (trim_end_keeps_head _ _ Hfit Hc) as Hhead.
  split_and!.
  - intros Hn. by rewrite Hn in Hhead.
  - apply Forall_forall. intros x Hx. apply (cleaned_elem raw). apply trim_elem. fold mapped cleaned.
    rewrite Hcl, Hw, Hv. set_solver.
  - unfold text_length in *. rewrite Hv in Hlen. rewrite bind_app, length_app in Hlen. lia.
  - intros x Hx. by simplify_eq.
  - done.
Qed.

(** ** The copy *)

Lemma COPY_BUFFER_pos : (0 < COPY_BUFFER)%nat.
Proof. unfold COPY_BUFFER. lia. Qed.
#[local] Opaque COPY_BUFFER.

Definition fine_reads (reads : list CopyRead) : Prop := ∀ e, ReadFails e ∉ reads.
Definition fine_writes (writes : list (option nat)) : Prop := ∀ k, Some k ∉ writes.

Lemma take_head_nonempty (n : nat) (rest : bytes) : (0 < n)%nat → take n rest = [] ↔ rest = [].
Proof. intros Hn. destruct rest; [by rewrite take_nil|]. destruct n; [lia|done]. Qed.

Lemma copy_loop_spec fuel : ∀ size reads writes rest got dest,
  (length reads + length rest < fuel)%nat →
  ∃ r dest', copy_loop fuel size reads writes rest got dest = Some (r, dest') ∧
    match r with Ok g => g = got ++ rest ∧ dest' = dest ++ rest | Err _ => True end ∧
    (Z.of_nat (length (got ++ rest)) <= size → fine_reads reads → fine_writes writes → is_ok r = true).
Proof.
  induction fuel as [|fuel IH]; intros size reads writes rest got dest Hf; [lia|]. cbn [copy_loop].
  (* one buffer of [n] bytes *)
  assert (Hread : ∀ (n : nat) reads', (0 < n)%nat → (length (tail reads') <= length reads' <= length reads)%nat →
    (fine_reads reads → fine_reads (tail reads')) →
    (rest = [] ∨ length (tail reads') + (length rest - n) < fuel)%nat →
    ∃ r dest',
      (let buffer := take n rest in
       if bool_decide (buffer = []) then Some (Ok got, dest)
       else if size <? Z.of_nat (length (got ++ buffer))
            then Some (Err "the staged download is larger than what was verified"%string, dest)
            else match head writes with
                 | Some (Some k) => Some (Err "write"%string, dest ++ take k buffer)
                 | _ => copy_loop fuel size (tail reads') (tail writes) (drop n rest) (got ++ buffer) (dest ++ buffer)
                 end) = Some (r, dest') ∧
      match r with Ok g => g = got ++ rest ∧ dest' = dest ++ rest | Err _ => True end ∧
      (Z.of_nat (length (got ++ rest)) <= size → fine_reads reads → fine_writes writes → is_ok r = true)).
  { intros n reads' Hn Hlen Hfine Hfuel. cbv zeta. case_bool_decide as He.
    { apply take_head_nonempty in He as ->; [|done]. eexists _, _. split; [done|]. by rewrite !app_nil_r. }
    destruct Hfuel as [->|Hfuel]; [by rewrite take_nil in He|].
    destruct (Z.ltb_spec size (Z.of_nat (length (got ++ take n rest)))) as [Hbig|Hok].
    { eexists _, _. split; [done|]. split; [done|]. intros Hsize. exfalso. revert Hbig Hsize.
      rewrite !length_app, length_take. lia. }
    destruct (head writes) as [[k|]|] eqn:Hw.
    - eexists _, _. split; [done|]. split; [done|]. intros _ _ Hfw. exfalso. apply (Hfw k).
      destruct writes; [done|]. simplify_eq/=. left.
    - destruct (IH size (tail reads') (tail writes) (drop n rest) (got ++ take n rest) (dest ++ take n rest))
        as (r & dest' & -> & Hr & Hg); [rewrite length_drop; lia|].
      rewrite <-!app_assoc, take_drop in *. eexists _, _. split; [done|]. split; [done|].
      intros Hs Hfr Hfw. apply Hg; [done|by apply Hfine|]. destruct writes; [done|]. intros j Hj. apply (Hfw j). by right.
    - destruct (IH size (tail reads') (tail writes) (drop n rest) (got ++ take n rest) (dest ++ take n rest))
        as (r & dest' & -> & Hr & Hg); [rewrite length_drop; lia|].
      rewrite <-!app_assoc, take_drop in *. eexists _, _. split; [done|]. split; [done|].
      intros Hs Hfr Hfw. apply Hg; [done|by apply Hfine|]. destruct writes; [done|]. intros j Hj. apply (Hfw j). by right. }
  pose proof COPY_BUFFER_pos as HB.
  destruct reads as [|[n| |e] reads].
  - apply Hread; [done|simpl; lia|done|]. destruct rest; [by left|right]. simpl in *. lia.
  - apply Hread; [lia|simpl; lia| |].
    + intros Hfr e He. apply (Hfr e). by right.
    + destruct rest; [by left|right]. simpl in *. lia.
  - destruct (IH size reads writes rest got dest) as (r & dest' & -> & Hr & Hg); [simpl in Hf; lia|].
    eexists _, _. split; [done|]. split; [done|]. intros Hs Hfr. apply Hg; [done|]. intros e He. apply (Hfr e). by right.
  - eexists _, _. split; [done|]. split; [done|]. intros _ Hfr. exfalso. apply (Hfr e). left.
Qed.

Lemma commit_by_copy_exact blake3 size checksum staged open_destination reads writes flush sync truncate destination :
  ∃ r dest,
    commit_by_copy blake3 size checksum staged open_destination reads writes flush sync truncate destination
      = Some (r, dest) ∧
    match r with
    | Ok _ => staged = Ok dest ∧ Z.of_nat (length dest) = size ∧ blake3 dest = checksum
    | Err f => (destination_opened f = false → dest = destination) ∧ (emptied f = true → dest = [])
    end ∧
    ∀ source, staged = Ok source → open_destination = None → Z.of_nat (length source) = size →
      blake3 source = checksum → fine_reads reads → fine_writes writes → flush = true →
      (sync = SyncOk ∨ sync = SyncInvalidInput) → r = Ok tt.
Proof.
  unfold commit_by_copy. destruct staged as [source|e]; [|eexists _, _; split; [done|]; by split_and!].
  destruct open_destination as [e|]; [eexists _, _; split; [done|]; by split_and!|].
  unfold copy_verified.
  destruct (copy_loop_spec (S (length reads + length source)) size reads writes source [] [])
    as (r & dest & -> & Hr & Hg); [lia|]. cbn [mbind option_bind].
  assert (Herr : ∀ e : string, ∃ r dest0,
    Some ((Err {| error := e; destination_opened := true; emptied := truncate |}, if truncate then [] else dest)
      : result CommitFailure unit * bytes) = Some (r, dest0) ∧
    match r with
    | Ok _ => (Ok source : result string bytes) = Ok dest0 ∧ Z.of_nat (length dest0) = size ∧ blake3 dest0 = checksum
    | Err f => (destination_opened f = false → dest0 = destination) ∧ (emptied f = true → dest0 = [])
    end ∧ r = Err {| error := e; destination_opened := true; emptied := truncate |}).
  { intros e. eexists _, _. split; [done|]. split; [|done]. split; [done|]. by intros [= ->]. }
  destruct r as [got|e].
  2: { destruct (Herr e) as (r & d & E & Hm & ->). eexists _, _. split; [exact E|]. split; [done|].
       intros s [= <-] _ Hs _ Hfr Hfw _ _. discriminate (Hg ltac:(simpl; lia) Hfr Hfw). }
  destruct Hr as [-> ->]. cbn [app].
  destruct (Z.eqb_spec (Z.of_nat (length source)) size) as [Hsz|Hsz]; cbn [negb orb].
  2: { edestruct Herr as (r & d & E & Hm & ->). eexists _, _. split; [exact E|]. split; [done|].
       intros s [= <-] _ Hs. congruence. }
  case_bool_decide as Hsum; cbn [negb].
  2: { edestruct Herr as (r & d & E & Hm & ->). eexists _, _. split; [exact E|]. split; [done|].
       intros s [= <-] _ _ Hs. congruence. }
  destruct flush; cbn [negb].
  2: { edestruct Herr as (r & d & E & Hm & ->). eexists _, _. split; [exact E|]. split; [done|].
       by intros s [= <-] _ _ _ _ _. }
  destruct sync as [| |e].
  1,2: eexists _, _; split; [done|]; split; [done|]; done.
  edestruct Herr as (r & d & E & Hm & ->). eexists _, _. split; [exact E|]. split; [done|].
  intros s [= <-] _ _ _ _ _ _ [?|?]; done.
Qed.

(** Whatever the staged file has become and whatever fails, the copy ends; if it
    reports success the document holds exactly bytes of the verified length and
    checksum, and if it fails a document that was not opened is as it was and one
    it says it emptied is empty. When nothing fails and the staged file is what
    was verified, it succeeds. *)
Theorem commit_by_copy_is_exact blake3 size checksum staged open_destination reads writes flush sync truncate destination :
  ∃ r dest,
    commit_by_copy blake3 size checksum staged open_destination reads writes flush sync truncate destination
      = Some (r, dest) ∧
    match r with
    | Ok _ => staged = Ok dest ∧ Z.of_nat (length dest) = size ∧ blake3 dest = checksum
    | Err f => (destination_opened f = false → dest = destination) ∧ (emptied f = true → dest = [])
    end ∧
    ∀ source, staged = Ok source → open_destination = None → Z.of_nat (length source) = size →
      blake3 source = checksum → fine_reads reads → fine_writes writes → flush = true →
      (sync = SyncOk ∨ sync = SyncInvalidInput) → r = Ok tt.
Proof. apply commit_by_copy_exact. Qed.

(** ** Names at work *)
Module LocalFilesExamples.

Example opaque_id_is_not_a_name :
  suggested_upload_name None (str_chars "content://com.android.providers.media.documents/document/document%3A83")
    = str_chars "upload".
Proof. reflexivity. Qed.
Example path_id_is_a_name :
  suggested_upload_name None (str_chars "content://com.android.externalstorage.documents/document/primary%3ADownload%2Fnotes.txt")
    = str_chars "notes.txt".
Proof. reflexivity. Qed.
Example own_provider_is_refused :
  classify_local_file (str_chars "content://0@ORG.Example.Portty.FileProvider/x") Android (str_chars "org.example.portty")
    = Err PICKER_ONLY.
Proof. reflexivity. Qed.
Example dotted_url_is_refused : file_url_to_path (str_chars "file:///private/var/%2E%2E/notes.txt") = None.
Proof. reflexivity. Qed.

(** A provider can have the parent directory offered as the host file name: two dots
    and enough spaces before another character pass the test for dots, and only
    then are cut at 255 bytes and trimmed. *)
Theorem padded_dots_are_offered :
  suggested_upload_name (Some (str_chars ".." ++ replicate 300 32 ++ str_chars "x")) (str_chars "content://a/b")
    = str_chars "..".
Proof. vm_compute. reflexivity. Qed.

Definition keep_all (b : Byte.byte) : bool :=
  (byte_val b <? 128) && negb (one_of (str_chars "%?#") (byte_val b)).

Lemma file_url_witness : plain_path (str_chars "/tmp/a b") ∧
  classify_local_file (str_chars "file:///tmp/a%20b") Ios [] = Ok (LocalFile_Path (str_chars "/tmp/a b")).
Proof.
  split; [by split_and!|].
  apply (proj2 file_urls_name_plain_paths (λ b, keep_all b && negb (byte_val b =? 32)) false (str_chars "/tmp/a b") []).
  - split; [done|]. intros b Hb. apply andb_true_iff in Hb as [[Hb Hq]%andb_true_iff _].
    apply Z.ltb_lt in Hb. by apply negb_true_iff in Hq.
  - by split_and!.
  - vm_compute str_chars. unfold scalar. repeat (apply Forall_cons_2; [left; lia|]). apply Forall_nil_2.
Defined.

Lemma plain_name_witness : plain_file_name (str_chars "../a:b ") = Some (str_chars "a_b") ∧ str_chars "a_b" ≠ [] ∧
  text_length (str_chars "a_b") <= MAX_FILE_NAME_BYTES.
Proof.
  destruct (plain_file_name_is_plain (str_chars "../a:b ") (str_chars "a_b") eq_refl) as (H1 & _ & H3 & _).
  by split_and!.
Defined.
End LocalFilesExamples.
