(* ===== verification/PhoneTransfers.v ===== *)
(** * PhoneTransfers: the phone's side of file transfers

    [ClientTransfers] of [app/src-tauri/src/lib.rs] and the probes of
    [download_probe.rs]: downloads gathered in a temporary and installed once
    verified, uploads streamed from one open file, the slots they hold, the owner
    each belongs to, and what every frame of a host does to them. Many links, UI
    commands and streaming tasks act at once; each stretch between two of their
    waits is one step. A slot is held by what owns it in Rust, so the number of
    free slots is counted from the state. Progress events are left out. *)

From S2P Require Import Prelude Protocol.
From S2P Require Transfer LocalFiles.
Import Transfer (Fs, names, inodes, fs_read, remove_file, create_new, rename, path, decimal, text,
  WriteOutcome, WriteOk, WriteFails, landed).

Definition MAX_ACTIVE_FILE_TRANSFERS : nat := 4.
Definition MAX_DOWNLOAD_BYTES : Z := 4 * 1024 * 1024 * 1024.
Definition MAX_TOTAL_DOWNLOAD_BYTES : Z := 6 * 1024 * 1024 * 1024.
Definition MAX_DOWNLOAD_RESTARTS : Z := 3.
Definition PROBE_ID_BIT : Z := Z.shiftl 1 63.

(** ** Data *)

Record TransferOwner := { peer_device_id : bytes; pair_id : bytes }.
#[global] Instance TransferOwner_eq_dec : EqDecision TransferOwner.
Proof. solve_decision. Defined.

Inductive DownloadTarget := Target_Path (p : path) | Target_Document (uri : string).

(** [file] is the open temporary and [position] where its next byte goes. A write
    tokio took on may fail later; [late_error] then waits for the next call that
    reports it. *)
Record DownloadTransfer := {
  owner : TransferOwner;
  restarts : Z;
  remote_path : string;
  target : DownloadTarget;
  temporary : path;
  file : nat;
  position : nat;
  next_seq : Z;
  written : Z;
  hasher : bytes;
  allow_outside_home : bool;
  late_error : bool;
}.

(** What the clones of one upload share. *)
Record UploadTransfer := {
  u_owner : TransferOwner;
  u_remote_path : string;
  u_size : Z;
  cancelled : bool;
  epoch : Z;
}.

(** Where a streaming task stands; from [Streaming] to [Finishing] it holds the
    upload's file. *)
Inductive Phase :=
| Announcing (mode : option Z) (allow : bool)
| Waiting
| Streaming (seq : Z) (hashed : bytes)
| Sending (seq : Z) (data hashed : bytes)
| Finishing (hashed : bytes)
| Ended.

Record Task := {
  t_id : TransferId;
  t_upload : nat;
  t_link : TransferOwner;       (* whose link its frames go to *)
  t_epoch : Z;
  t_from : Z;
  t_phase : Phase;
}.

(** A UI command under way: it holds a slot and the link it looked up, or its
    download is registered and is to be asked for. *)
Inductive Command :=
| Holding (o : TransferOwner)
| Requesting (o : TransferOwner) (id : TransferId) (remote : string) (allow : bool).

(** A download a session loop has taken out to verify, or a verified one being
    copied into its document. *)
Record Taken := { k_id : TransferId; k_download : DownloadTransfer; k_size : Z; k_checksum : bytes }.

Record Phone := {
  files : Fs;
  documents : gmap string bytes;
  next_id : Z;
  starting : list Command;
  downloads : gmap TransferId DownloadTransfer;
  verifying : list Taken;
  committing : list Taken;
  objects : gmap nat UploadTransfer;
  uploads : gmap TransferId nat;
  tasks : list Task;
  probes : gmap TransferId TransferOwner;
}.

(** What leaves the transfers: frames for a link, and news for the UI. *)
Inductive Out :=
| Send (link : TransferOwner) (f : Frame)
| Complete (id : TransferId) (upload : bool)
| TransferError (id : TransferId) (message : string)
| DiscardIfEmpty (uri : string)
| ProbeAnswer (id : TransferId) (answer : result string unit)
| Refused (message : string)
| Started (id : TransferId).

(** *** Updates *)
Section Updates.
Context (s : Phone).
Definition with_files (f : Fs) : Phone :=
  {| files := f; documents := documents s; next_id := next_id s; starting := starting s; downloads := downloads s;
     verifying := verifying s; committing := committing s; objects := objects s; uploads := uploads s;
     tasks := tasks s; probes := probes s |}.
Definition with_downloads (d : gmap TransferId DownloadTransfer) : Phone :=
  {| files := files s; documents := documents s; next_id := next_id s; starting := starting s; downloads := d;
     verifying := verifying s; committing := committing s; objects := objects s; uploads := uploads s;
     tasks := tasks s; probes := probes s |}.
Definition with_taken (v c : list Taken) : Phone :=
  {| files := files s; documents := documents s; next_id := next_id s; starting := starting s; downloads := downloads s;
     verifying := v; committing := c; objects := objects s; uploads := uploads s;
     tasks := tasks s; probes := probes s |}.
Definition with_uploads (o : gmap nat UploadTransfer) (u : gmap TransferId nat) (ts : list Task) : Phone :=
  {| files := files s; documents := documents s; next_id := next_id s; starting := starting s; downloads := downloads s;
     verifying := verifying s; committing := committing s; objects := o; uploads := u;
     tasks := ts; probes := probes s |}.
Definition with_starting (n : Z) (l : list Command) : Phone :=
  {| files := files s; documents := documents s; next_id := n; starting := l; downloads := downloads s;
     verifying := verifying s; committing := committing s; objects := objects s; uploads := uploads s;
     tasks := tasks s; probes := probes s |}.
Definition with_probes (p : gmap TransferId TransferOwner) : Phone :=
  {| files := files s; documents := documents s; next_id := next_id s; starting := starting s; downloads := downloads s;
     verifying := verifying s; committing := committing s; objects := objects s; uploads := uploads s;
     tasks := tasks s; probes := p |}.
Definition with_documents (d : gmap string bytes) : Phone :=
  {| files := files s; documents := d; next_id := next_id s; starting := starting s; downloads := downloads s;
     verifying := verifying s; committing := committing s; objects := objects s; uploads := uploads s;
     tasks := tasks s; probes := probes s |}.
End Updates.

(** *** Slots *)
Definition is_ended (t : Task) : bool := match t_phase t with Ended => true | _ => false end.

(** An upload lives as long as the registry or a task refers to it. *)
Definition live (s : Phone) (n : nat) : bool :=
  existsb (λ e, (e.2 =? n)%nat) (map_to_list (uploads s)) ||
  existsb (λ t, (t_upload t =? n)%nat && negb (is_ended t)) (tasks s).

Definition holds_slot (c : Command) : bool := match c with Holding _ => true | Requesting _ _ _ _ => false end.

Definition slots_held (s : Phone) : nat :=
  count_if holds_slot (starting s) + size (downloads s) + length (verifying s) + length (committing s)
  + size (filter (λ n, live s n = true) (dom (objects s))).

(** ** Files *)

(** Writing at a position: the file grows as needed, with zeros in a gap. *)
Definition put_at (pos : nat) (data c : bytes) : bytes :=
  take pos (c ++ replicate (pos - length c) Byte.x00) ++ data ++ drop (pos + length data) c.
Definition write_at (i pos : nat) (data : bytes) (f : Fs) : Fs :=
  {| Transfer.names := names f;
     Transfer.inodes := <[i := put_at pos data (default [] (inodes f !! i))]> (inodes f);
     Transfer.next_inode := Transfer.next_inode f |}.
Definition truncate (i : nat) (f : Fs) : Fs :=
  {| Transfer.names := names f; Transfer.inodes := <[i := []]> (inodes f); Transfer.next_inode := Transfer.next_inode f |}.

(** A download that is dropped: its document, if it has one, may go with it. *)
Definition drop_target (d : DownloadTransfer) : list Out :=
  match target d with Target_Document uri => [DiscardIfEmpty uri] | Target_Path _ => [] end.
Definition remove_temporary (ok : bool) (d : DownloadTransfer) (s : Phone) : Phone :=
  with_files s (remove_file ok (temporary d) (files s)).2.

(** ** Probes *)
Definition is_probe (id : TransferId) : bool := negb (Z.land id PROBE_ID_BIT =? 0).

Definition answer (id : TransferId) (o : TransferOwner) (a : result string unit) (cancel : bool) (s : Phone)
    : list Out * Phone :=
  match probes s !! id with
  | Some asked =>
      if bool_decide (asked = o) then
        ((if cancel then [Send o (Frame_FileErr id "the phone only checked that the file can be read")] else [])
           ++ [ProbeAnswer id a],
         with_probes s (delete id (probes s)))
      else ([], s)
  | None => ([], s)
  end.

(** [probe_download]: its request is accepted or not; later it may time out. *)
Definition probe_download (o : TransferOwner) (p : string) (allow queued : bool) (s : Phone) : list Out * Phone :=
  let id := Z.lor PROBE_ID_BIT (next_id s) in
  let s := with_starting s (next_id s + 1) (starting s) in
  if queued then
    ([Send o (Frame_FileGetReq id p 0 allow)], with_probes s (<[id := o]> (probes s)))
  else ([Refused "connection busy - try again"], s).

Definition probe_timeout (id : TransferId) (s : Phone) : list Out * Phone :=
  match probes s !! id with
  | Some o => ([Send o (Frame_FileErr id "the phone stopped waiting"); ProbeAnswer id (Err "the host did not answer"%string)],
               with_probes s (delete id (probes s)))
  | None => ([], s)
  end.

(** ** Starting *)

(** The slot, and the link the transfer will use. *)
Definition acquire (o : TransferOwner) (s : Phone) : list Out * Phone :=
  if (slots_held s <? MAX_ACTIVE_FILE_TRANSFERS)%nat
  then ([], with_starting s (next_id s) (starting s ++ [Holding o]))
  else ([Refused "at most 4 file transfers may run at once"], s).

(** A command refused before it has a transfer, with or without a number taken. *)
Definition abandon (k : nat) (numbered : bool) (tgt : option string) (s : Phone) : list Out * Phone :=
  match starting s !! k with
  | Some (Holding _) =>
      (Refused "cannot start the transfer" :: match tgt with Some uri => [DiscardIfEmpty uri] | None => [] end,
       with_starting s (if numbered then next_id s + 1 else next_id s) (delete k (starting s)))
  | _ => ([], s)
  end.

(** [download_file] from the id on: the temporary is created under a random name
    and the transfer registered; then the request is queued, or all is undone. *)
Definition download_file (k : nat) (remote : string) (tgt : DownloadTarget) (tmp : path) (allow create : bool)
    (s : Phone) : list Out * Phone :=
  match starting s !! k with
  | Some (Holding o) =>
      let id := next_id s in
      match create_new create tmp (files s) with
      | (None, f) =>
          (Refused "cannot create download file" :: match tgt with Target_Document uri => [DiscardIfEmpty uri] | _ => [] end,
           with_files (with_starting s (id + 1) (delete k (starting s))) f)
      | (Some i, f) =>
          let d := {| owner := o; restarts := 0; remote_path := remote; target := tgt; temporary := tmp; file := i;
                      position := 0; next_seq := 0; written := 0; hasher := []; allow_outside_home := allow;
                      late_error := false |} in
          ([], with_downloads (with_files (with_starting s (id + 1) (<[k := Requesting o id remote allow]> (starting s))) f)
                 (<[id := d]> (downloads s)))
      end
  | _ => ([], s)
  end.

Definition request_download (k : nat) (queued rm : bool) (s : Phone) : list Out * Phone :=
  match starting s !! k with
  | Some (Requesting o id remote allow) =>
      let s := with_starting s (next_id s) (delete k (starting s)) in
      if queued then ([Send o (Frame_FileGetReq id remote 0 allow); Started id], s)
      else match downloads s !! id with
           | None => ([Refused "connection closed"], s)
           | Some d => (Refused "connection closed" :: drop_target d,
                        remove_temporary rm d (with_downloads s (delete id (downloads s))))
           end
  | _ => ([], s)
  end.

(** [upload_file] up to its announcement. *)
Definition upload_file (k : nat) (remote : string) (size : Z) (mode : option Z) (allow : bool) (s : Phone)
    : list Out * Phone :=
  match starting s !! k with
  | Some (Holding o) =>
      let id := next_id s in
      let n := fresh (dom (objects s)) in
      let u := {| u_owner := o; u_remote_path := remote; u_size := size; cancelled := false; epoch := 0 |} in
      let t := {| t_id := id; t_upload := n; t_link := o; t_epoch := 0; t_from := 0; t_phase := Announcing mode allow |} in
      ([], with_uploads (with_starting s (id + 1) (delete k (starting s)))
             (<[n := u]> (objects s)) (<[id := n]> (uploads s)) (tasks s ++ [t]))
  | _ => ([], s)
  end.

(** ** The frames of a host *)

(** The entry under an id, if the link's pairing owns it. *)
Definition owned_download (o : TransferOwner) (id : TransferId) (s : Phone) : option DownloadTransfer :=
  d ← downloads s !! id; if bool_decide (owner d = o) then Some d else None.
Definition owned_upload (o : TransferOwner) (id : TransferId) (s : Phone) : option (nat * UploadTransfer) :=
  n ← uploads s !! id; u ← objects s !! n; if bool_decide (u_owner u = o) then Some (n, u) else None.

(** What all downloads in the registry have written. *)
Definition live_total (s : Phone) : Z := foldr (λ e t, written e.2 + t) 0 (map_to_list (downloads s)).

Definition abort_download (id : TransferId) (d : DownloadTransfer) (rm : bool) (reason message : string) (s : Phone)
    : list Out * Phone :=
  (drop_target d ++ [Send (owner d) (Frame_FileErr id reason); TransferError id message],
   remove_temporary rm d (with_downloads s (delete id (downloads s)))).

Definition file_chunk (o : TransferOwner) (id : TransferId) (seq : Z) (data : bytes) (write : WriteOutcome) (rm : bool)
    (s : Phone) : list Out * Phone :=
  if is_probe id then answer id o (Ok tt) true s
  else match owned_download o id s with
  | None => ([], s)
  | Some d =>
      let len := Z.of_nat (length data) in
      if negb (seq =? next_seq d) then ([Send o (Frame_FileRetry id (next_seq d))], s)
      else if (MAX_DOWNLOAD_BYTES <? saturating_add u64_max (written d) len)
              || (MAX_TOTAL_DOWNLOAD_BYTES <? saturating_add u64_max (live_total s) len)
      then abort_download id d rm "download exceeded the phone's size limit"
             "download stopped: transfers may not exceed 4 GiB each or 6 GiB in total" s
      else if FILE_CHUNK_BYTES <? len then ([TransferError id "host sent an oversized file chunk"], s)
      else
        let failed := abort_download id d rm "phone could not save the download" "could not save download" in
        if late_error d then failed s
        else
          let s := with_files s (write_at (file d) (position d) (landed write data) (files s)) in
          match write with
          | WriteFails _ false => failed s
          | _ =>
              let d' := {| owner := owner d; restarts := restarts d; remote_path := remote_path d; target := target d;
                           temporary := temporary d; file := file d; position := position d + length (landed write data);
                           next_seq := next_seq d + 1; written := written d + len; hasher := hasher d ++ data;
                           allow_outside_home := allow_outside_home d;
                           late_error := match write with WriteOk => false | WriteFails _ _ => true end |} in
              ([], with_downloads s (<[id := d']> (downloads s)))
          end
  end.

(** [FileDone]: a download is taken out to be verified, an upload is over. *)
Definition file_done (o : TransferOwner) (id : TransferId) (size : Z) (checksum : bytes) (s : Phone) : list Out * Phone :=
  if is_probe id then answer id o (Ok tt) false s
  else match owned_download o id s with
  | Some d =>
      let k := {| k_id := id; k_download := d; k_size := size; k_checksum := checksum |} in
      ([], with_taken (with_downloads s (delete id (downloads s))) (verifying s ++ [k]) (committing s))
  | None =>
      match owned_upload o id s with
      | Some _ => ([Complete id true], with_uploads s (objects s) (delete id (uploads s)) (tasks s))
      | None => ([], s)
      end
  end.

(** How the calls on a download's files come out. *)
Record VerifyIo := { io_set_len : bool; io_seek : bool; io_flush : bool; io_sync : bool; io_rename : bool; io_rm : bool }.

Definition restart (d : DownloadTransfer) (seek : bool) : DownloadTransfer :=
  {| owner := owner d; restarts := saturating_add u32_max (restarts d) 1; remote_path := remote_path d; target := target d;
     temporary := temporary d; file := file d; position := if seek then 0%nat else position d;
     next_seq := 0; written := 0; hasher := []; allow_outside_home := allow_outside_home d;
     late_error := late_error d |}.

Section Verified.
Context (blake3 : bytes → bytes).

(** The rest of [FileDone] for the [i]-th download taken out. *)
Definition verify (i : nat) (io : VerifyIo) (s : Phone) : list Out * Phone :=
  match verifying s !! i with
  | None => ([], s)
  | Some k =>
      let id := k_id k in let d := k_download k in
      let s := with_taken s (delete i (verifying s)) (committing s) in
      let failed message := (drop_target d ++ [TransferError id message], remove_temporary (io_rm io) d s) in
      if negb (written d =? k_size k) || negb (bool_decide (blake3 (hasher d) = k_checksum k)) then
        if MAX_DOWNLOAD_RESTARTS <? saturating_add u32_max (restarts d) 1 then
          (drop_target d ++ [Send (owner d) (Frame_FileErr id "phone gave up after repeated verification failures");
                             TransferError id "download failed verification 3 times - giving up"],
           remove_temporary (io_rm io) d s)
        else
          ([Send (owner d) (Frame_FileRetry id 0)],
           with_downloads (with_files s (if io_set_len io then truncate (file d) (files s) else files s))
             (<[id := restart d (io_seek io)]> (downloads s)))
      else if late_error d || negb (io_flush io) then failed "could not flush verified download"%string
      else if negb (io_sync io) then failed "could not sync verified download"%string
      else match target d with
           | Target_Document _ => ([], with_taken s (verifying s) (committing s ++ [k]))
           | Target_Path tgt =>
               match (if io_rename io then rename (temporary d) tgt (files s) else None) with
               | Some f => ([Complete id false], with_files s f)
               | None => ([TransferError id "rename failed"], remove_temporary (io_rm io) d s)
               end
           end
  end.

(** [spawn_document_commit] for the [i]-th download being copied; [left] is what the
    copy reports and leaves in the document. *)
Definition document_commit (i : nat) (open_staged : bool) (open_destination : option string)
    (reads : list LocalFiles.CopyRead) (writes : list (option nat)) (flush : bool) (sync : LocalFiles.SyncOutcome)
    (cut rm : bool) (s : Phone) : list Out * Phone :=
  match committing s !! i with
  | None => ([], s)
  | Some k =>
      let d := k_download k in
      let s := with_taken s (verifying s) (delete i (committing s)) in
      match target d with
      | Target_Path _ => ([], s)
      | Target_Document uri =>
          let staged := if open_staged then ok_or (fs_read (temporary d) (files s)) "not found"%string
                        else Err "cannot open"%string in
          match LocalFiles.commit_by_copy blake3 (k_size k) (k_checksum k) staged open_destination reads writes
                  flush sync cut (default [] (documents s !! uri)) with
          | None => ([], s)
          | Some (r, content) =>
              let s := with_documents (remove_temporary rm d s) (<[uri := content]> (documents s)) in
              match r with
              | Ok _ => ([Complete (k_id k) false], s)
              | Err _ => ([DiscardIfEmpty uri; TransferError (k_id k) "could not save the download"], s)
              end
          end
      end
  end.
End Verified.

Definition spawn_upload_range (id : TransferId) (n : nat) (u : UploadTransfer) (from : Z) (link : TransferOwner)
    (s : Phone) : Phone :=
  let e := epoch u + 1 in
  let u' := {| u_owner := u_owner u; u_remote_path := u_remote_path u; u_size := u_size u; cancelled := cancelled u; epoch := e |} in
  let t := {| t_id := id; t_upload := n; t_link := link; t_epoch := e; t_from := from; t_phase := Waiting |} in
  with_uploads s (<[n := u']> (objects s)) (uploads s) (tasks s ++ [t]).

Definition file_retry (o : TransferOwner) (id : TransferId) (from : Z) (s : Phone) : list Out * Phone :=
  match owned_upload o id s with
  | Some (n, u) => ([], spawn_upload_range id n u from o s)
  | None => ([], s)
  end.

Definition cancel (u : UploadTransfer) : UploadTransfer :=
  {| u_owner := u_owner u; u_remote_path := u_remote_path u; u_size := u_size u; cancelled := true; epoch := epoch u |}.

Definition file_err (o : TransferOwner) (id : TransferId) (reason : string) (rm : bool) (s : Phone) : list Out * Phone :=
  if is_probe id then answer id o (Err reason) false s
  else
    let '(out, s) := match owned_download o id s with
      | Some d => (drop_target d ++ [TransferError id reason], remove_temporary rm d (with_downloads s (delete id (downloads s))))
      | None => ([], s)
      end in
    match owned_upload o id s with
    | Some (n, u) =>
        (match out with [] => [TransferError id reason] | _ => out end,
         with_uploads s (<[n := cancel u]> (objects s)) (delete id (uploads s)) (tasks s))
    | None => (out, s)
    end.

(** ** A new link *)

(** [take_transfers_not_owned_by] with what its caller does: downloads, then uploads. *)
Definition purge_downloads (o : TransferOwner) (rm : path → bool) (s : Phone) : list Out * Phone :=
  let stale := List.filter (λ e, negb (bool_decide (owner e.2 = o))) (map_to_list (downloads s)) in
  (stale ≫= λ e, drop_target e.2 ++ [TransferError e.1 "transfer canceled - it belonged to a different host"],
   foldl (λ s e, remove_temporary (rm (temporary e.2)) e.2 (with_downloads s (delete e.1 (downloads s)))) s stale).

Definition foreign (o : TransferOwner) (s : Phone) (n : nat) : bool :=
  match objects s !! n with Some u => negb (bool_decide (u_owner u = o)) | None => false end.

Definition purge_uploads (o : TransferOwner) (s : Phone) : list Out * Phone :=
  let stale := List.filter (λ e, foreign o s e.2) (map_to_list (uploads s)) in
  (map (λ e, TransferError e.1 "transfer canceled - it belonged to a different host") stale,
   foldl (λ s e, with_uploads s (alter cancel e.2 (objects s)) (delete e.1 (uploads s)) (tasks s)) s stale).

(** Downloads of the pairing go on from their first missing chunk. *)
Definition resume_downloads (o : TransferOwner) (s : Phone) : list Out :=
  (λ e, Send o (Frame_FileGetReq e.1 (remote_path e.2) (next_seq e.2) (allow_outside_home e.2)))
    <$> List.filter (λ e, bool_decide (owner e.2 = o)) (map_to_list (downloads s)).

(** ** The streaming tasks *)

Definition set_phase (ph : Phase) (t : Task) : Task :=
  {| t_id := t_id t; t_upload := t_upload t; t_link := t_link t; t_epoch := t_epoch t; t_from := t_from t; t_phase := ph |}.
Definition move (i : nat) (t : Task) (ph : Phase) (s : Phone) : Phone :=
  with_uploads s (objects s) (uploads s) (<[i := set_phase ph t]> (tasks s)).

Definition holds_file (t : Task) : bool :=
  match t_phase t with Streaming _ _ | Sending _ _ _ | Finishing _ => true | _ => false end.
Definition file_free (n : nat) (s : Phone) : bool :=
  negb (existsb (λ t, (t_upload t =? n)%nat && holds_file t) (tasks s)).

(** A task that failed speaks for its upload only while it is the live one. *)
Definition task_fails (i : nat) (t : Task) (u : UploadTransfer) (message : string) (s : Phone) : list Out * Phone :=
  if negb (epoch u =? t_epoch t) then ([], move i t Ended s)
  else
    let registered := bool_decide (uploads s !! t_id t = Some (t_upload t)) in
    let s := with_uploads s (<[t_upload t := cancel u]> (objects s))
               (if registered then delete (t_id t) (uploads s) else uploads s) (tasks s) in
    ([TransferError (t_id t) message], move i t Ended s).

Inductive TaskEvent :=
| Announced (sent : bool)
| Locked (rewound : bool)
| Read (data : bytes)              (* nothing at the end of the file *)
| ReadError
| Sent (ok : bool).

Section Task.
Context (blake3 : bytes → bytes).

Definition task_step (i : nat) (e : TaskEvent) (s : Phone) : list Out * Phone :=
  match tasks s !! i with
  | None => ([], s)
  | Some t =>
      match objects s !! t_upload t with
      | None => ([], s)
      | Some u =>
          match t_phase t, e with
          | Announcing mode allow, Announced true =>
              ([Send (t_link t) (Frame_FilePutReq (t_id t) (u_remote_path u) (u_size u) mode allow); Started (t_id t)],
               spawn_upload_range (t_id t) (t_upload t) u 0 (t_link t) (move i t Ended s))
          | Announcing _ _, Announced false =>
              ([Refused "connection closed"],
               move i t Ended (with_uploads s (objects s) (delete (t_id t) (uploads s)) (tasks s)))
          | Waiting, Locked rewound =>
              if negb (file_free (t_upload t) s) then ([], s)
              else if rewound then ([], move i t (Streaming 0 []) s)
              else task_fails i t u "cannot rewind upload" s
          | Streaming seq h, Read data =>
              if cancelled u then ([], move i t Ended s)
              else if negb (epoch u =? t_epoch t) then ([], move i t Ended s)
              else if bool_decide (data = []) then ([], move i t (Finishing h) s)
              else if t_from t <=? seq then ([], move i t (Sending seq data (h ++ data)) s)
              else ([], move i t (Streaming (seq + 1) (h ++ data)) s)
          | Streaming _ _, ReadError =>
              if cancelled u then ([], move i t Ended s)
              else if negb (epoch u =? t_epoch t) then ([], move i t Ended s)
              else task_fails i t u "cannot read upload" s
          | Sending seq data h, Sent true =>
              ([Send (t_link t) (Frame_FileChunk (t_id t) seq data)], move i t (Streaming (seq + 1) h) s)
          | Sending _ _ _, Sent false => task_fails i t u "connection closed during upload" s
          | Finishing h, Sent true =>
              ([Send (t_link t) (Frame_FileDone (t_id t) (u_size u) (blake3 h))], move i t Ended s)
          | Finishing _, Sent false => task_fails i t u "connection closed before upload verification" s
          | _, _ => ([], s)
          end
      end
  end.

(** ** Everything that can happen *)

Inductive Op :=
| Acquire (o : TransferOwner)
| Abandon (k : nat) (numbered : bool) (document : option string)
| DownloadFile (k : nat) (remote : string) (tgt : DownloadTarget) (tmp : path) (allow create : bool)
| RequestDownload (k : nat) (queued rm : bool)
| UploadFile (k : nat) (remote : string) (size : Z) (mode : option Z) (allow : bool)
| ProbeDownload (o : TransferOwner) (p : string) (allow queued : bool)
| ProbeTimeout (id : TransferId)
| FileChunk (o : TransferOwner) (id : TransferId) (seq : Z) (data : bytes) (write : WriteOutcome) (rm : bool)
| FileDone (o : TransferOwner) (id : TransferId) (size : Z) (checksum : bytes)
| Verify (i : nat) (io : VerifyIo)
| DocumentCommit (i : nat) (open_staged : bool) (open_destination : option string) (reads : list LocalFiles.CopyRead)
    (writes : list (option nat)) (flush : bool) (sync : LocalFiles.SyncOutcome) (cut rm : bool)
| FileRetry (o : TransferOwner) (id : TransferId) (from : Z)
| FileErr (o : TransferOwner) (id : TransferId) (reason : string) (rm : bool)
| PurgeDownloads (o : TransferOwner) (rm : path → bool)
| PurgeUploads (o : TransferOwner)
| ResumeDownloads (o : TransferOwner)
| TaskStep (i : nat) (e : TaskEvent).

Definition phone_step (op : Op) (s : Phone) : list Out * Phone :=
  match op with
  | Acquire o => acquire o s
  | Abandon k numbered document => abandon k numbered document s
  | DownloadFile k remote tgt tmp allow create => download_file k remote tgt tmp allow create s
  | RequestDownload k queued rm => request_download k queued rm s
  | UploadFile k remote size mode allow => upload_file k remote size mode allow s
  | ProbeDownload o p allow queued => probe_download o p allow queued s
  | ProbeTimeout id => probe_timeout id s
  | FileChunk o id seq data write rm => file_chunk o id seq data write rm s
  | FileDone o id size checksum => file_done o id size checksum s
  | Verify i io => verify blake3 i io s
  | DocumentCommit i staged dest reads writes flush sync cut rm =>
      document_commit blake3 i staged dest reads writes flush sync cut rm s
  | FileRetry o id from => file_retry o id from s
  | FileErr o id reason rm => file_err o id reason rm s
  | PurgeDownloads o rm => purge_downloads o rm s
  | PurgeUploads o => purge_uploads o s
  | ResumeDownloads o => (resume_downloads o s, s)
  | TaskStep i e => task_step i e s
  end.

Fixpoint phone_run (ops : list Op) (s : Phone) : list Out * Phone :=
  match ops with
  | [] => ([], s)
  | op :: ops => let '(out, s1) := phone_step op s in let '(outs, s2) := phone_run ops s1 in (out ++ outs, s2)
  end.
End Task.

(** ** Temporaries and what is in them *)

Definition DOWNLOAD_PREFIX : bytes := str_bytes ".portty-download-".
Definition is_part (p : path) : bool :=
  match last p with
  | Some n => bool_decide (is_Some (Transfer.strip_prefix DOWNLOAD_PREFIX (str_bytes n)))
  | None => false
  end.

(** Every download that has a temporary. *)
Definition taken_entry (k : Taken) : TransferId * DownloadTransfer := (k_id k, k_download k).
Definition all_open (D : gmap TransferId DownloadTransfer) (V C : list Taken) : list (TransferId * DownloadTransfer) :=
  map_to_list D ++ (taken_entry <$> V) ++ (taken_entry <$> C).
Definition open_downloads (s : Phone) : list (TransferId * DownloadTransfer) :=
  all_open (downloads s) (verifying s) (committing s).

Record download_ok (f : Fs) (d : DownloadTransfer) : Prop := {
  ok_name : names f !! temporary d = Some (file d);
  ok_content : late_error d = false → inodes f !! file d = Some (hasher d);
  ok_position : late_error d = false → position d = length (hasher d);
  ok_written : written d = Z.of_nat (length (hasher d));
  ok_part : is_part (temporary d) = true;
  ok_alone : ∀ p, names f !! p = Some (file d) → p = temporary d;
  ok_target : ∀ p, target d = Target_Path p → is_part p = false;
}.

Record entries_ok (f : Fs) (nid : Z) (l : list (TransferId * DownloadTransfer)) : Prop := {
  en_inode : ∀ p i, names f !! p = Some i → (i < Transfer.next_inode f)%nat;
  en_ids : NoDup (fst <$> l);
  en_lt : Forall (λ e, e.1 < nid) l;
  en_files : NoDup ((λ e, file e.2) <$> l);
  en_each : Forall (λ e, download_ok f e.2) l;
}.

Lemma entries_perm f nid l l' : l ≡ₚ l' → entries_ok f nid l → entries_ok f nid l'.
Proof. intros Hp []. split; try done; by rewrite <-Hp. Qed.

#[global] Instance entries_ok_proper f nid : Proper ((≡ₚ) ==> iff) (entries_ok f nid).
Proof. intros l l' Hp. split; by apply entries_perm. Qed.

Lemma entries_next f nid nid' l : nid <= nid' → entries_ok f nid l → entries_ok f nid' l.
Proof.
  intros Hle [H1 H2 H3 H4 H5]. split; try done. eapply Forall_impl; [exact H3|]. intros e He. simpl in *. lia.
Qed.

Lemma entries_tail f nid e l : entries_ok f nid (e :: l) → entries_ok f nid l.
Proof.
  intros [H1 H2 H3 H4 H5]. rewrite !fmap_cons in *. apply NoDup_cons in H2 as [_ ?], H4 as [_ ?].
  apply Forall_cons in H3 as [_ ?], H5 as [_ ?]. by split.
Qed.

(** Other downloads have other files and names. *)
Lemma entries_other f nid id d l e : entries_ok f nid ((id, d) :: l) → e ∈ l →
  file e.2 ≠ file d ∧ temporary e.2 ≠ temporary d ∧ download_ok f e.2.
Proof.
  intros [_ _ _ Hf He] Hin. apply Forall_cons in He as [Hd He]. rewrite Forall_forall in He.
  specialize (He e Hin). rewrite fmap_cons in Hf. apply NoDup_cons in Hf as [Hni _].
  assert (Hne : file e.2 ≠ file d).
  { intros Heq. apply Hni. simpl. rewrite <-Heq. by apply (list_elem_of_fmap_2 (λ e, file e.2)). }
  split_and!; [done| |done]. intros Heq. apply Hne. pose proof (ok_name _ _ He) as H1.
  pose proof (ok_name _ _ Hd) as H2. simpl in H2. congruence.
Qed.

(** A file system that treats the others' files as before keeps them as they were. *)
Lemma entries_fs f f' nid id d l :
  entries_ok f nid ((id, d) :: l) →
  (∀ p i, names f' !! p = Some i → (i < Transfer.next_inode f')%nat) →
  (∀ p, p ≠ temporary d → is_part p = true → names f' !! p = names f !! p) →
  (∀ p i, i ≠ file d → names f' !! p = Some i → names f !! p = Some i) →
  (∀ i, i ≠ file d → inodes f' !! i = inodes f !! i) →
  entries_ok f' nid l.
Proof.
  intros Hok Hlt Hnames Hback Hinodes. pose proof (entries_tail _ _ _ _ Hok) as [_ H2 H3 H4 _].
  split; try done. apply Forall_forall. intros e He.
  destruct (entries_other _ _ _ _ _ _ Hok He) as (Hf & Ht & [D1 D2 D3 D4 D5 D6 D7]). split; try done.
  - by rewrite Hnames.
  - by rewrite Hinodes.
  - intros p Hp. apply D6. by apply Hback.
Qed.

Lemma remove_lookup ok p f q : names (remove_file ok p f).2 !! q = names f !! q ∨ q = p ∧ names (remove_file ok p f).2 !! q = None.
Proof.
  unfold remove_file. destruct (names f !! p) as [i|] eqn:Hp; [|by left]. destruct ok; [|by left]. simpl.
  destruct (decide (q = p)) as [->|Hne]; [right; by rewrite lookup_delete_eq|left; by rewrite lookup_delete_ne].
Qed.
Lemma remove_inodes ok p f : inodes (remove_file ok p f).2 = inodes f ∧
  Transfer.next_inode (remove_file ok p f).2 = Transfer.next_inode f.
Proof. unfold remove_file. by repeat case_match. Qed.

Lemma entries_remove ok f nid id d l :
  entries_ok f nid ((id, d) :: l) → entries_ok (remove_file ok (temporary d) f).2 nid l.
Proof.
  intros Hok. destruct (remove_inodes ok (temporary d) f) as [Hi Hn].
  eapply entries_fs; [exact Hok|..].
  - intros p i. rewrite Hn. destruct (remove_lookup ok (temporary d) f p) as [->|[_ ->]]; [apply Hok|done].
  - intros p Hne _. by destruct (remove_lookup ok (temporary d) f p) as [->|[? _]].
  - intros p i _. by destruct (remove_lookup ok (temporary d) f p) as [->|[_ ->]].
  - intros i _. by rewrite Hi.
Qed.

(** The download at hand goes on with another content of its file. *)
Lemma entries_content f f' nid id d d' l :
  entries_ok f nid ((id, d) :: l) →
  names f' = names f → Transfer.next_inode f' = Transfer.next_inode f →
  (∀ i, i ≠ file d → inodes f' !! i = inodes f !! i) →
  file d' = file d → temporary d' = temporary d → target d' = target d →
  (late_error d' = false → inodes f' !! file d = Some (hasher d') ∧ position d' = length (hasher d')) →
  written d' = Z.of_nat (length (hasher d')) →
  entries_ok f' nid ((id, d') :: l).
Proof.
  intros Hok Hn Hx Hi Hf Ht Hg Hcp Hw.
  assert (Hl : entries_ok f' nid l).
  { eapply entries_fs; [exact Hok|..]; rewrite ?Hn, ?Hx; try done. apply Hok. }
  destruct Hok as [H1 H2 H3 H4 H5], Hl as [L1 L2 L3 L4 L5].
  apply Forall_cons in H3 as [? ?], H5 as [[D1 D2 D3 D4 D5 D6 D7] _]. split; try done.
  - by constructor.
  - rewrite fmap_cons in *. simpl in *. by rewrite Hf.
  - constructor; [|done]. simpl in *. split; rewrite ?Hf, ?Ht, ?Hg, ?Hn; try done; intros Hl; by destruct (Hcp Hl).
Qed.

Lemma put_at_end data c : put_at (length c) data c = c ++ data.
Proof.
  unfold put_at. rewrite Nat.sub_diag. cbn [replicate]. rewrite app_nil_r, take_ge, drop_ge by lia. by rewrite app_nil_r.
Qed.

Lemma write_at_ok f d data : download_ok f d →
  (late_error d = false →
    inodes (write_at (file d) (position d) data f) !! file d = Some (hasher d ++ data)) ∧
  (∀ i, i ≠ file d → inodes (write_at (file d) (position d) data f) !! i = inodes f !! i).
Proof.
  intros [D1 D2 D3 D4 D5 D6 D7]. cbn [write_at Transfer.inodes inodes]. split.
  - intros Hl. rewrite (D2 Hl). cbn [default]. rewrite (D3 Hl), put_at_end. by rewrite lookup_insert_eq.
  - intros i Hi. by rewrite lookup_insert_ne.
Qed.

(** *** The downloads of a state *)

Lemma open_take D V C id d : D !! id = Some d → all_open D V C ≡ₚ (id, d) :: all_open (delete id D) V C.
Proof. intros Hd. unfold all_open. by rewrite <-(map_to_list_delete D id d). Qed.

Lemma open_put D V C id d : D !! id = None → all_open (<[id := d]> D) V C ≡ₚ (id, d) :: all_open D V C.
Proof. intros Hd. unfold all_open. by rewrite map_to_list_insert. Qed.

Lemma open_change D V C id d d' : D !! id = Some d → all_open (<[id := d']> D) V C ≡ₚ (id, d') :: all_open (delete id D) V C.
Proof. intros Hd. rewrite <-(insert_delete_eq D). apply open_put. by rewrite lookup_delete_eq. Qed.

Lemma taken_out (l : list Taken) i k : l !! i = Some k → taken_entry <$> l ≡ₚ taken_entry k :: (taken_entry <$> delete i l).
Proof. intros Hk. rewrite <-fmap_cons. by rewrite <-(delete_Permutation l i k Hk). Qed.

Lemma open_verifying D V C i k : V !! i = Some k → all_open D V C ≡ₚ taken_entry k :: all_open D (delete i V) C.
Proof. intros Hk. unfold all_open. rewrite (taken_out V i k Hk). solve_Permutation. Qed.

Lemma open_committing D V C i k : C !! i = Some k → all_open D V C ≡ₚ taken_entry k :: all_open D V (delete i C).
Proof. intros Hk. unfold all_open. rewrite (taken_out C i k Hk). solve_Permutation. Qed.

Lemma open_to_verifying D V C k : all_open D (V ++ [k]) C ≡ₚ taken_entry k :: all_open D V C.
Proof. unfold all_open. rewrite fmap_app. solve_Permutation. Qed.
Lemma open_to_committing D V C k : all_open D V (C ++ [k]) ≡ₚ taken_entry k :: all_open D V C.
Proof. unfold all_open. rewrite fmap_app. solve_Permutation. Qed.

Definition phone_ok (s : Phone) : Prop := entries_ok (files s) (next_id s) (open_downloads s).

(** A temporary is named as one and a target is not; a restarted file is cut. *)
Definition op_ok (op : Op) : Prop :=
  match op with
  | DownloadFile _ _ tgt tmp _ _ => is_part tmp = true ∧ match tgt with Target_Path p => is_part p = false | _ => True end
  | Verify _ io => io_set_len io = true ∧ io_seek io = true
  | _ => True
  end.

Lemma fresh_id f nid D V C : entries_ok f nid (all_open D V C) → D !! nid = None.
Proof.
  intros Hok. destruct (D !! nid) as [d|] eqn:Hd; [|done]. rewrite (open_take _ _ _ _ _ Hd) in Hok.
  destruct Hok as [_ _ H _ _]. apply Forall_cons in H as [H _]. simpl in H. lia.
Qed.

Lemma owned_download_Some o id s d : owned_download o id s = Some d ↔ downloads s !! id = Some d ∧ owner d = o.
Proof.
  unfold owned_download. destruct (downloads s !! id) as [e|]; simpl; [|naive_solver].
  case_bool_decide; naive_solver.
Qed.

(** Dropping the entry of an id, with its temporary. *)
Lemma drop_ok rm s id d : phone_ok s → downloads s !! id = Some d →
  phone_ok (remove_temporary rm d (with_downloads s (delete id (downloads s)))).
Proof.
  unfold phone_ok, open_downloads. intros Hok Hd.
  apply entries_remove with id. by rewrite (open_take _ _ _ _ _ Hd) in Hok.
Qed.

Lemma file_chunk_ok o id seq data write rm s : phone_ok s → phone_ok (file_chunk o id seq data write rm s).2.
Proof.
  intros Hok. unfold file_chunk. destruct (is_probe id).
  { unfold answer. repeat case_match; done. }
  destruct (owned_download o id s) as [d|] eqn:Hd; [|done]. apply owned_download_Some in Hd as [Hd _].
  destruct (negb _); [done|]. destruct (_ || _); [by apply drop_ok|]. destruct (FILE_CHUNK_BYTES <? _); [done|].
  unfold phone_ok, open_downloads in *. assert (Hd' := Hok). rewrite (open_take _ _ _ _ _ Hd) in Hd'.
  assert (Hde : download_ok (files s) d) by (destruct Hd' as [_ _ _ _ He]; by apply Forall_cons in He as [He _]).
  destruct (late_error d) eqn:Hlate; [by apply drop_ok|].
  destruct (write_at_ok _ _ (landed write data) Hde) as [H1 H2].
  assert (Hw : ∀ late, (late = false → landed write data = data) →
    entries_ok (write_at (file d) (position d) (landed write data) (files s)) (next_id s)
    ((id, {| owner := owner d; restarts := restarts d; remote_path := remote_path d; target := target d;
             temporary := temporary d; file := file d; position := position d + length (landed write data);
             next_seq := next_seq d + 1; written := written d + Z.of_nat (length data); hasher := hasher d ++ data;
             allow_outside_home := allow_outside_home d; late_error := late |})
       :: all_open (delete id (downloads s)) (verifying s) (committing s))).
  { intros late Hland. eapply entries_content; [exact Hd'|done|done|done|done|done|done|..]; simpl.
    - intros Hl. rewrite (Hland Hl) in *. split; [by apply H1|]. by rewrite length_app, (ok_position _ _ Hde Hlate).
    - rewrite length_app, (ok_written _ _ Hde). lia. }
  destruct write as [|n [|]]; cbn [snd].
  - cbn -[all_open write_at]. rewrite (open_change _ _ _ _ _ _ Hd). by apply (Hw false).
  - cbn -[all_open write_at]. rewrite (open_change _ _ _ _ _ _ Hd). by apply (Hw true).
  - unfold abort_download, phone_ok, open_downloads. cbn -[all_open write_at].
    exact (entries_remove rm _ _ id _ _ (Hw true ltac:(done))).
Qed.

Lemma file_done_ok o id size checksum s : phone_ok s → phone_ok (file_done o id size checksum s).2.
Proof.
  intros Hok. unfold file_done. destruct (is_probe id); [unfold answer; by repeat case_match|].
  destruct (owned_download o id s) as [d|] eqn:Hd; [|by destruct (owned_upload o id s)].
  apply owned_download_Some in Hd as [Hd _]. unfold phone_ok, open_downloads in *. cbn -[all_open].
  rewrite open_to_verifying. by rewrite (open_take _ _ _ _ _ Hd) in Hok.
Qed.

Lemma renamed_ok f f' nid id d tgt l : entries_ok f nid ((id, d) :: l) → late_error d = false → is_part tgt = false →
  rename (temporary d) tgt f = Some f' → entries_ok f' nid l ∧
  (∀ q, is_part q = false → fs_read q f' = if bool_decide (q = tgt) then Some (hasher d) else fs_read q f).
Proof.
  intros Hok Hlate Htgt Hr. unfold rename in Hr. destruct (names f !! temporary d) as [i|] eqn:Hi; [|done]. simplify_eq/=.
  assert (Hd : download_ok f d) by (destruct Hok as [_ _ _ _ He]; by apply Forall_cons in He as [He _]).
  assert (i = file d) as -> by (pose proof (ok_name _ _ Hd); congruence).
  assert (Hne : temporary d ≠ tgt) by (intros He; pose proof (ok_part _ _ Hd); congruence). split.
  - eapply entries_fs; [exact Hok|..]; simpl.
    + intros p j. rewrite lookup_insert_Some, lookup_delete_Some.
      intros [[_ <-]|(_ & _ & Hp)]; [|by eapply (en_inode _ _ _ Hok)]. by eapply (en_inode _ _ _ Hok), (ok_name _ _ Hd).
    + intros p Hp Hpart. rewrite lookup_insert_ne by congruence. by rewrite lookup_delete_ne.
    + intros p j Hj. rewrite lookup_insert_Some, lookup_delete_Some. naive_solver.
    + done.
  - intros q Hq. unfold fs_read. cbn [Transfer.names Transfer.inodes]. case_bool_decide as He.
    + subst q. rewrite lookup_insert_eq. cbn [mbind option_bind]. by apply (ok_content _ _ Hd).
    + rewrite lookup_insert_ne by done. rewrite lookup_delete_ne; [done|].
      intros Heq. pose proof (ok_part _ _ Hd). congruence.
Qed.

Lemma truncate_content f nid id d l seek : seek = true → entries_ok f nid ((id, d) :: l) →
  entries_ok (truncate (file d) f) nid ((id, restart d seek) :: l).
Proof.
  intros -> Hok. eapply entries_content; [exact Hok|done|done| |done|done|done|..]; simpl.
  - intros i Hi. by rewrite lookup_insert_ne.
  - intros _. split; [by rewrite lookup_insert_eq|done].
  - done.
Qed.

Lemma verify_ok blake3 i io s : io_set_len io = true → io_seek io = true → phone_ok s → phone_ok (verify blake3 i io s).2.
Proof.
  intros Hset Hseek Hok. unfold verify. rewrite Hset. destruct (verifying s !! i) as [k|] eqn:Hk; [|done].
  unfold phone_ok, open_downloads in *. rewrite (open_verifying _ _ _ _ _ Hk) in Hok.
  assert (Hdrop : entries_ok (remove_file (io_rm io) (temporary (k_download k)) (files s)).2 (next_id s)
    (all_open (downloads s) (delete i (verifying s)) (committing s))) by (by apply entries_remove with (k_id k)).
  assert (Hid : downloads s !! k_id k = None).
  { destruct (downloads s !! k_id k) as [d|] eqn:Hd; [|done]. rewrite (open_take _ _ _ _ _ Hd) in Hok.
    destruct Hok as [_ Hnd _ _ _]. cbn in Hnd. apply NoDup_cons in Hnd as [Hn _]. exfalso. apply Hn. left. }
  repeat first [ progress cbn -[all_open remove_file truncate rename restart saturating_add]
               | case_match; try done ].
  all: try (by rewrite open_to_committing).
  - rewrite open_put by done. by apply truncate_content.
  - match goal with H : _ || _ = false |- _ => apply orb_false_iff in H as [Hlate _] end.
    eapply renamed_ok; [exact Hok|done| |done].
    destruct Hok as [_ _ _ _ He]. apply Forall_cons in He as [He _]. by eapply (ok_target _ _ He).
Qed.

Lemma document_commit_ok blake3 i st de reads writes fl sy cut rm s :
  phone_ok s → phone_ok (document_commit blake3 i st de reads writes fl sy cut rm s).2.
Proof.
  intros Hok. unfold document_commit. destruct (committing s !! i) as [k|] eqn:Hk; [|done].
  unfold phone_ok, open_downloads in *. rewrite (open_committing _ _ _ _ _ Hk) in Hok.
  assert (Htail := entries_tail _ _ _ _ Hok).
  assert (Hdrop : entries_ok (remove_file rm (temporary (k_download k)) (files s)).2 (next_id s)
    (all_open (downloads s) (verifying s) (delete i (committing s)))) by (by apply entries_remove with (k_id k)).
  repeat case_match; done.
Qed.

Lemma download_file_ok k remote tgt tmp allow create s :
  is_part tmp = true → (∀ p, tgt = Target_Path p → is_part p = false) →
  phone_ok s → phone_ok (download_file k remote tgt tmp allow create s).2.
Proof.
  intros Htmp Htgt Hok. unfold download_file. destruct (starting s !! k) as [[o|? ? ? ?]|]; [|done..].
  unfold phone_ok, open_downloads in *. pose proof (fresh_id _ _ _ _ _ Hok) as Hid.
  assert (Hnext := entries_next _ (next_id s) (next_id s + 1) _ ltac:(lia) Hok).
  unfold create_new. destruct (names (files s) !! tmp) as [i|] eqn:Hn; [done|]. destruct create; [|done].
  cbn -[all_open]. rewrite open_put by done. destruct Hnext as [H1 H2 H3 H4 H5].
  assert (Hlt : ∀ d, download_ok (files s) d → (file d < Transfer.next_inode (files s))%nat ∧ temporary d ≠ tmp).
  { intros d Hd. split; [by eapply H1, (ok_name _ _ Hd)|]. intros Heq. pose proof (ok_name _ _ Hd). congruence. }
  rewrite Forall_forall in H5. split.
  - intros p j. cbn. rewrite lookup_insert_Some. intros [[_ <-]|[_ Hp]]; [lia|]. pose proof (H1 _ _ Hp). lia.
  - rewrite fmap_cons. apply NoDup_cons. split; [|done]. intros (e & He & Hin)%list_elem_of_fmap.
    destruct Hok as [_ _ Ho _ _]. rewrite Forall_forall in Ho. specialize (Ho e Hin). simpl in *. lia.
  - constructor; [simpl; lia|done].
  - rewrite fmap_cons. apply NoDup_cons. split; [|done]. intros (e & He & Hin)%list_elem_of_fmap.
    destruct (Hlt e.2 (H5 e Hin)) as [Hl _]. simpl in *. lia.
  - constructor.
    + split; cbn; try done; rewrite ?lookup_insert_eq; try done.
      intros p. rewrite lookup_insert_Some. intros [[-> _]|[_ Hp]]; [done|]. pose proof (H1 _ _ Hp). lia.
    + apply Forall_forall. intros e He. destruct (Hlt e.2 (H5 e He)) as [Hl Ht].
      destruct (H5 e He) as [D1 D2 D3 D4 D5 D6 D7]. split; cbn; try done.
      * by rewrite lookup_insert_ne.
      * by rewrite lookup_insert_ne by lia.
      * intros p. rewrite lookup_insert_Some. intros [[_ Hp]|[_ Hp]]; [lia|by apply D6].
Qed.

Lemma request_download_ok k queued rm s : phone_ok s → phone_ok (request_download k queued rm s).2.
Proof.
  intros Hok. unfold request_download. destruct (starting s !! k) as [[?|o id remote allow]|]; [done| |done].
  destruct queued; [done|]. cbn [downloads with_starting]. destruct (downloads s !! id) as [d|] eqn:Hd; [|done].
  by apply (drop_ok rm s id d) in Hok.
Qed.

Lemma purge_fold_ok rm l : ∀ s, phone_ok s → NoDup (fst <$> l) → (∀ e, e ∈ l → downloads s !! e.1 = Some e.2) →
  phone_ok (foldl (λ s e, remove_temporary (rm (temporary e.2)) e.2 (with_downloads s (delete e.1 (downloads s)))) s l).
Proof.
  induction l as [|[id d] l IH]; intros s Hok Hnd Hin; [done|]. rewrite fmap_cons in Hnd. apply NoDup_cons in Hnd as [Hni Hnd].
  cbn [foldl]. apply IH; [apply drop_ok; [done|apply (Hin (id, d)); left]|done|].
  intros e He. cbn. rewrite lookup_delete_ne; [apply Hin; by right|]. intros Heq. apply Hni. simpl. rewrite Heq. by apply list_elem_of_fmap_2.
Qed.

Lemma map_entries_NoDup {A} (m : gmap TransferId A) f : NoDup (fst <$> List.filter f (map_to_list m)).
Proof.
  eapply sublist_NoDup; [apply (NoDup_fst_map_to_list m)|].
  generalize (map_to_list m). intros l. induction l as [|x l IH]; [done|]. simpl. destruct (f x); simpl; by constructor.
Qed.

Lemma filter_entries {A} (m : gmap TransferId A) f e : e ∈ List.filter f (map_to_list m) → m !! e.1 = Some e.2 ∧ f e = true.
Proof.
  intros He. apply list_elem_of_In, filter_In in He as [He Hf]. apply list_elem_of_In in He. split; [|done].
  apply elem_of_map_to_list. by destruct e.
Qed.

Lemma purge_downloads_ok o rm s : phone_ok s → phone_ok (purge_downloads o rm s).2.
Proof.
  intros Hok. apply purge_fold_ok; [done|apply map_entries_NoDup|]. intros e He. by apply filter_entries in He as [? _].
Qed.

Lemma file_err_ok o id reason rm s : phone_ok s → phone_ok (file_err o id reason rm s).2.
Proof.
  intros Hok. unfold file_err. destruct (is_probe id); [unfold answer; by repeat case_match|].
  destruct (owned_download o id s) as [d|] eqn:Hd.
  - apply owned_download_Some in Hd as [Hd _]. apply (drop_ok rm) in Hd; [|done].
    destruct (owned_upload _ _ _) as [[n u]|]; exact Hd.
  - by destruct (owned_upload _ _ _) as [[n u]|].
Qed.

(** Uploads, probes and commands do not touch downloads. *)
Lemma purge_uploads_same l : ∀ s,
  let s' := foldl (λ s e, with_uploads s (alter cancel e.2 (objects s)) (delete e.1 (uploads s)) (tasks s)) s l in
  files s' = files s ∧ next_id s' = next_id s ∧ open_downloads s' = open_downloads s ∧ downloads s' = downloads s ∧
  starting s' = starting s ∧ verifying s' = verifying s ∧ committing s' = committing s.
Proof.
  induction l as [|e l IH]; intros s; [done|]. cbn [foldl].
  exact (IH (with_uploads s (alter cancel e.2 (objects s)) (delete e.1 (uploads s)) (tasks s))).
Qed.

Lemma task_step_same blake3 i e s : let s' := (task_step blake3 i e s).2 in
  files s' = files s ∧ next_id s' = next_id s ∧ open_downloads s' = open_downloads s ∧ downloads s' = downloads s ∧
  starting s' = starting s ∧ verifying s' = verifying s ∧ committing s' = committing s.
Proof. unfold task_step, task_fails. repeat case_match; done. Qed.

Lemma phone_step_ok blake3 op s : op_ok op → phone_ok s → phone_ok (phone_step blake3 op s).2.
Proof.
  intros Hop Hok. destruct op; cbn [phone_step op_ok] in *.
  - unfold acquire. by case_match.
  - unfold abandon. repeat case_match; try done; (apply (entries_next _ (next_id s)); [|done]; cbn; lia).
  - destruct Hop as [? Hp]. apply download_file_ok; [done| |done]. by intros p ->.
  - by apply request_download_ok.
  - unfold upload_file. repeat case_match; try done. by apply (entries_next _ (next_id s) (next_id s + 1)) in Hok; [|lia].
  - unfold probe_download. destruct queued; apply (entries_next _ (next_id s) (next_id s + 1)) in Hok; try lia; done.
  - unfold probe_timeout. by repeat case_match.
  - by apply file_chunk_ok.
  - by apply file_done_ok.
  - destruct Hop. by apply verify_ok.
  - by apply document_commit_ok.
  - unfold file_retry. by repeat case_match.
  - by apply file_err_ok.
  - by apply purge_downloads_ok.
  - unfold purge_uploads. cbn [snd]. destruct (purge_uploads_same (List.filter (λ e, foreign o s e.2) (map_to_list (uploads s))) s)
      as (H1 & H2 & H3 & _). unfold phone_ok. by rewrite H1, H2, H3.
  - done.
  - destruct (task_step_same blake3 i e s) as (H1 & H2 & H3 & _). unfold phone_ok. by rewrite H1, H2, H3.
Qed.

Lemma phone_run_cons blake3 op ops s :
  (phone_run blake3 (op :: ops) s).2 = (phone_run blake3 ops (phone_step blake3 op s).2).2.
Proof. cbn [phone_run]. destruct (phone_step blake3 op s) as [out s1]. cbn [snd]. by destruct (phone_run blake3 ops s1). Qed.

(** What every step keeps, a run keeps. *)
Lemma phone_run_inv blake3 (P : Phone → Prop) (ok : Op → Prop) ops :
  (∀ op s, ok op → P s → P (phone_step blake3 op s).2) →
  ∀ s, Forall ok ops → P s → P (phone_run blake3 ops s).2.
Proof.
  intros Hstep. induction ops as [|op ops IH]; intros s Hops Hs; [done|]. apply Forall_cons in Hops as [Hop Hops].
  rewrite phone_run_cons. by apply IH; [|apply Hstep].
Qed.

(** ** Files change only to what was announced *)

Lemma entries_alone f nid id d l q : entries_ok f nid ((id, d) :: l) → is_part q = false →
  names f !! q ≠ Some (file d) ∧ q ≠ temporary d ∧ download_ok f d.
Proof.
  intros [_ _ _ _ He] Hq. apply Forall_cons in He as [He _]. simpl in He. split_and!; [| |done].
  - intros Hn. apply (ok_alone _ _ He) in Hn as ->. pose proof (ok_part _ _ He). congruence.
  - intros ->. pose proof (ok_part _ _ He). congruence.
Qed.

Lemma read_other_inode f f' i q : names f' = names f → (∀ j, j ≠ i → inodes f' !! j = inodes f !! j) →
  names f !! q ≠ Some i → fs_read q f' = fs_read q f.
Proof.
  intros Hn Hi Hq. unfold fs_read. rewrite Hn. destruct (names f !! q) as [j|]; [|done]. simpl. apply Hi. congruence.
Qed.

Lemma read_written f q i pos data : names f !! q ≠ Some i → fs_read q (write_at i pos data f) = fs_read q f.
Proof. intros Hq. apply read_other_inode with i; [done| |done]. intros j Hj. simpl. by rewrite lookup_insert_ne. Qed.
Lemma read_truncated f q i : names f !! q ≠ Some i → fs_read q (truncate i f) = fs_read q f.
Proof. intros Hq. apply read_other_inode with i; [done| |done]. intros j Hj. simpl. by rewrite lookup_insert_ne. Qed.

(** What a step does to the files outside the temporaries. *)
Definition reads_kept (s s' : Phone) : Prop := ∀ q, is_part q = false → fs_read q (files s') = fs_read q (files s).

Lemma dropped_reads rm s id d : phone_ok s → downloads s !! id = Some d →
  reads_kept s (remove_temporary rm d (with_downloads s (delete id (downloads s)))).
Proof.
  intros Hok Hd q Hq. unfold phone_ok, open_downloads in Hok. rewrite (open_take _ _ _ _ _ Hd) in Hok.
  destruct (entries_alone _ _ _ _ _ _ Hok Hq) as (_ & Hne & _). by apply Transfer.remove_file_read.
Qed.

Lemma file_chunk_reads o id seq data write rm s : phone_ok s → reads_kept s (file_chunk o id seq data write rm s).2.
Proof.
  intros Hok q Hq. unfold file_chunk. destruct (is_probe id); [unfold answer; by repeat case_match|].
  destruct (owned_download o id s) as [d|] eqn:Hd; [|done]. apply owned_download_Some in Hd as [Hd _].
  destruct (negb _); [done|]. destruct (_ || _); [by apply dropped_reads|]. destruct (FILE_CHUNK_BYTES <? _); [done|].
  unfold phone_ok, open_downloads in Hok. rewrite (open_take _ _ _ _ _ Hd) in Hok.
  destruct (entries_alone _ _ _ _ _ _ Hok Hq) as (Hni & Hne & _).
  destruct (late_error d); [cbn -[remove_file]; by apply Transfer.remove_file_read|].
  destruct write as [|n [|]]; cbn -[write_at remove_file].
  - by apply read_written.
  - by apply read_written.
  - rewrite Transfer.remove_file_read by done. by apply read_written.
Qed.

Lemma purge_fold_reads rm l : ∀ s, phone_ok s → NoDup (fst <$> l) → (∀ e, e ∈ l → downloads s !! e.1 = Some e.2) →
  reads_kept s (foldl (λ s e, remove_temporary (rm (temporary e.2)) e.2 (with_downloads s (delete e.1 (downloads s)))) s l).
Proof.
  induction l as [|[id d] l IH]; intros s Hok Hnd Hin q Hq; [done|]. rewrite fmap_cons in Hnd. apply NoDup_cons in Hnd as [Hni Hnd].
  assert (Hd : downloads s !! id = Some d) by (apply (Hin (id, d)); left).
  cbn [foldl]. rewrite IH; [by apply dropped_reads|by apply drop_ok|done| |done].
  intros e He. cbn. rewrite lookup_delete_ne; [apply Hin; by right|]. intros Heq. apply Hni. simpl. rewrite Heq. by apply list_elem_of_fmap_2.
Qed.

(** Verifying: the target gets what was hashed, or nothing outside the temporaries changes. *)
Lemma verify_reads blake3 i io s q : phone_ok s → is_part q = false →
  fs_read q (files (verify blake3 i io s).2) = fs_read q (files s) ∨
  ∃ k, verifying s !! i = Some k ∧ target (k_download k) = Target_Path q ∧
    fs_read q (files (verify blake3 i io s).2) = Some (hasher (k_download k)) ∧
    Z.of_nat (length (hasher (k_download k))) = k_size k ∧ blake3 (hasher (k_download k)) = k_checksum k.
Proof.
  intros Hok Hq. unfold verify. destruct (verifying s !! i) as [k|] eqn:Hk; [|by left].
  unfold phone_ok, open_downloads in *. rewrite (open_verifying _ _ _ _ _ Hk) in Hok.
  destruct (entries_alone _ _ _ _ _ _ Hok Hq) as (Hni & Hne & Hd). cbn [taken_entry snd] in *.
  assert (Hrm : ∀ ok, fs_read q (remove_file ok (temporary (k_download k)) (files s)).2 = fs_read q (files s)).
  { intros ok. by apply Transfer.remove_file_read. }
  destruct (negb (written _ =? _) || _) eqn:Hv.
  { destruct (MAX_DOWNLOAD_RESTARTS <? _); [by left; apply Hrm|]. left. cbn -[truncate]. destruct (io_set_len io); [|done].
    by apply read_truncated. }
  apply orb_false_iff in Hv as [Hw%negb_false_iff%Z.eqb_eq Hsum%negb_false_iff%bool_decide_eq_true].
  destruct (late_error _ || negb (io_flush io)) eqn:Hl; [by left; apply Hrm|].
  apply orb_false_iff in Hl as [Hl _]. destruct (io_sync io); cbn [negb]; [|by left; apply Hrm].
  destruct (target (k_download k)) as [tgt|uri] eqn:Ht; [|by left].
  destruct (if io_rename io then _ else _) as [f|] eqn:Hr; [|by left; apply Hrm].
  destruct (io_rename io); [|done]. cbn [snd files with_files].
  destruct (renamed_ok _ _ _ _ _ _ _ Hok Hl (ok_target _ _ Hd _ Ht) Hr) as [_ Hread]. rewrite Hread by done.
  case_bool_decide as Heq; [|by left]. subst tgt. right. exists k. split_and!; try done.
  rewrite <-Hw. symmetry. apply (ok_written _ _ Hd).
Qed.

Lemma document_commit_reads blake3 i st de reads writes fl sy cut rm s : phone_ok s →
  reads_kept s (document_commit blake3 i st de reads writes fl sy cut rm s).2.
Proof.
  intros Hok q Hq. unfold document_commit. destruct (committing s !! i) as [k|] eqn:Hk; [|done].
  unfold phone_ok, open_downloads in *. rewrite (open_committing _ _ _ _ _ Hk) in Hok.
  destruct (entries_alone _ _ _ _ _ _ Hok Hq) as (Hni & Hne & Hd). cbn [taken_entry snd] in *.
  repeat case_match; simplify_eq/=; try done; by apply Transfer.remove_file_read.
Qed.

Lemma file_err_reads o id reason rm s : phone_ok s → reads_kept s (file_err o id reason rm s).2.
Proof.
  intros Hok q Hq. unfold file_err. destruct (is_probe id); [unfold answer; by repeat case_match|].
  destruct (owned_download o id s) as [d|] eqn:Hd.
  - apply owned_download_Some in Hd as [Hd _]. apply (dropped_reads rm) in Hd; [|done]. specialize (Hd q Hq).
    destruct (owned_upload _ _ _) as [[n u]|]; exact Hd.
  - by destruct (owned_upload _ _ _) as [[n u]|].
Qed.

Definition is_verify (op : Op) : bool := match op with Verify _ _ => true | _ => false end.

Lemma step_reads blake3 op s : phone_ok s → op_ok op → is_verify op = false → reads_kept s (phone_step blake3 op s).2.
Proof.
  intros Hok Hop Hv q Hq. destruct op; cbn [phone_step op_ok] in *; try done.
  - unfold acquire. by case_match.
  - unfold abandon. by repeat case_match.
  - unfold download_file, create_new. destruct Hop as [Htmp _].
    destruct (starting s !! k) as [[o|? ? ? ?]|]; [|done..]. destruct (names (files s) !! tmp) as [i|] eqn:Hn; [done|].
    destruct create; [|done]. cbn. unfold fs_read. cbn. rewrite lookup_insert_ne by congruence.
    destruct (names (files s) !! q) as [j|] eqn:Hj; [|done]. simpl. pose proof (en_inode _ _ _ Hok _ _ Hj).
    by rewrite lookup_insert_ne by lia.
  - unfold request_download. destruct (starting s !! k) as [[?|o id remote allow]|]; [done| |done].
    destruct queued; [done|]. cbn [downloads with_starting]. destruct (downloads s !! id) as [d|] eqn:Hd; [|done].
    by apply (dropped_reads rm s id d).
  - unfold upload_file. by repeat case_match.
  - unfold probe_download. by destruct queued.
  - unfold probe_timeout. by repeat case_match.
  - by apply file_chunk_reads.
  - unfold file_done, answer. by repeat case_match.
  - by apply document_commit_reads.
  - unfold file_retry. by repeat case_match.
  - by apply file_err_reads.
  - apply purge_fold_reads; [done|apply map_entries_NoDup| |done]. intros e He. by apply filter_entries in He as [? _].
  - unfold purge_uploads. cbn [snd].
    by destruct (purge_uploads_same (List.filter (λ e, foreign o s e.2) (map_to_list (uploads s))) s) as (-> & _).
  - by destruct (task_step_same blake3 i e s) as (-> & _).
Qed.

(** What stands where a download was to go. *)
Definition at_target (s : Phone) (t : DownloadTarget) : option bytes :=
  match t with Target_Path q => fs_read q (files s) | Target_Document uri => documents s !! uri end.

Definition announced (blake3 : bytes → bytes) (k : Taken) (content : bytes) : Prop :=
  Z.of_nat (length content) = k_size k ∧ blake3 content = k_checksum k.

Lemma document_commit_spec blake3 i st de reads writes fl sy cut rm s :
  let '(out, s') := document_commit blake3 i st de reads writes fl sy cut rm s in
  (∀ uri, documents s' !! uri = documents s !! uri ∨
    ∃ k, committing s !! i = Some k ∧ target (k_download k) = Target_Document uri) ∧
  (∀ id, Complete id false ∈ out → ∃ k content, committing s !! i = Some k ∧ k_id k = id ∧
    at_target s' (target (k_download k)) = Some content ∧ announced blake3 k content).
Proof.
  unfold document_commit. destruct (committing s !! i) as [k|] eqn:Hk; [|split; [by left|set_solver]].
  destruct (target (k_download k)) as [q|uri] eqn:Ht; [split; [by left|set_solver]|].
  set (staged := if st then _ else _).
  destruct (LocalFiles.commit_by_copy_exact blake3 (k_size k) (k_checksum k) staged de reads writes fl sy cut
    (default [] (documents s !! uri))) as (r & dest & Hc & Hr & _).
  cbn [with_taken documents files] in *. fold staged. rewrite Hc.
  assert (Hdoc : ∀ uri', (<[uri := dest]> (documents s)) !! uri' = documents s !! uri' ∨
    ∃ k0, Some k = Some k0 ∧ target (k_download k0) = Target_Document uri').
  { intros uri'. destruct (decide (uri' = uri)) as [->|Hne]; [right; by exists k|left; by rewrite lookup_insert_ne]. }
  destruct r as [u|f]; cbn.
  - split; [done|]. intros id [= ->]%list_elem_of_singleton. exists k, dest. destruct Hr as (_ & Hs & Hb).
    rewrite Ht. split_and!; [done|done| |by split]. simpl. by rewrite lookup_insert_eq.
  - split; [done|]. intros id Hin. rewrite !elem_of_cons, elem_of_nil in Hin. naive_solver.
Qed.

Lemma verify_completes blake3 i io s : phone_ok s →
  ∀ id, Complete id false ∈ (verify blake3 i io s).1 → ∃ k content, verifying s !! i = Some k ∧ k_id k = id ∧
    at_target (verify blake3 i io s).2 (target (k_download k)) = Some content ∧ announced blake3 k content.
Proof.
  intros Hok id. unfold verify. destruct (verifying s !! i) as [k|] eqn:Hk; [|set_solver].
  unfold phone_ok, open_downloads in *. rewrite (open_verifying _ _ _ _ _ Hk) in Hok.
  assert (Hd : download_ok (files s) (k_download k)) by (destruct Hok as [_ _ _ _ He]; by apply Forall_cons in He as [He _]).
  assert (Hdrop : ∀ l, (∀ id, Complete id false ∉ l) → Complete id false ∉ drop_target (k_download k) ++ l).
  { intros l Hl. unfold drop_target. rewrite elem_of_app. destruct (target _); set_solver. }
  destruct (negb (written _ =? _) || _) eqn:Hv.
  { destruct (MAX_DOWNLOAD_RESTARTS <? _); cbn [fst].
    - intros Hin. exfalso. eapply Hdrop; [|exact Hin]. set_solver.
    - set_solver. }
  apply orb_false_iff in Hv as [Hw%negb_false_iff%Z.eqb_eq Hsum%negb_false_iff%bool_decide_eq_true].
  assert (Hfail : ∀ m, Complete id false ∈ drop_target (k_download k) ++ [TransferError (k_id k) m] → False).
  { intros m Hin. eapply Hdrop; [|exact Hin]. set_solver. }
  destruct (late_error _ || negb (io_flush io)) eqn:Hl; [by intros ?%Hfail|].
  apply orb_false_iff in Hl as [Hl _]. destruct (io_sync io); cbn [negb]; [|by intros ?%Hfail].
  destruct (target (k_download k)) as [tgt|uri] eqn:Ht; [|set_solver].
  destruct (if io_rename io then _ else _) as [f|] eqn:Hr; [|set_solver].
  destruct (io_rename io); [|done]. intros [= ->]%list_elem_of_singleton. exists k, (hasher (k_download k)).
  destruct (renamed_ok _ _ _ _ _ _ _ Hok Hl (ok_target _ _ Hd _ Ht) Hr) as [_ Hread].
  rewrite Ht. split_and!; [done|done| |split; [|done]].
  - simpl. rewrite Hread by (by eapply ok_target). by rewrite bool_decide_eq_true_2.
  - rewrite <-Hw. symmetry. apply (ok_written _ _ Hd).
Qed.

Lemma other_steps_complete_nothing blake3 op s id : Complete id false ∈ (phone_step blake3 op s).1 →
  is_verify op = true ∨ ∃ i st de reads writes fl sy cut rm, op = DocumentCommit i st de reads writes fl sy cut rm.
Proof.
  assert (Hdrop : ∀ d, Complete id false ∉ drop_target d) by (intros d; unfold drop_target; destruct (target d); set_solver).
  assert (Hans : ∀ i o a c s, Complete id false ∉ (answer i o a c s).1).
  { intros i o a c s0. unfold answer. repeat case_match; set_solver. }
  intros Hin. destruct op; cbn [phone_step is_verify] in *; try (by left); try (right; by repeat eexists); exfalso.
  - unfold acquire in Hin. case_match; set_solver.
  - unfold abandon in Hin. repeat case_match; set_solver.
  - unfold download_file in Hin. repeat case_match; set_solver.
  - unfold request_download in Hin. repeat case_match; set_solver.
  - unfold upload_file in Hin. repeat case_match; set_solver.
  - unfold probe_download in Hin. repeat case_match; set_solver.
  - unfold probe_timeout in Hin. repeat case_match; set_solver.
  - unfold file_chunk, abort_download in Hin. repeat case_match; set_solver.
  - unfold file_done in Hin. repeat case_match; set_solver.
  - unfold file_retry in Hin. repeat case_match; set_solver.
  - unfold file_err in Hin. destruct (is_probe _); [by eapply Hans|].
    destruct (owned_download _ _ _) as [d|]; destruct (owned_upload _ _ _) as [[n u]|]; cbn [fst] in Hin; try set_solver.
    destruct (drop_target d ++ _) eqn:He; [by destruct (drop_target d)|]. rewrite <-He in Hin. set_solver.
  all: idtac.
  - cbn in Hin. apply list_elem_of_bind in Hin as (e & Hin & _). set_solver.
  - cbn in Hin. apply list_elem_of_fmap in Hin as (e & ? & _). done.
  - unfold resume_downloads in Hin. apply list_elem_of_fmap in Hin as (e & ? & _). done.
  - unfold task_step, task_fails in Hin. repeat case_match; set_solver.
Qed.

Lemma documents_change_by_commit blake3 op s uri :
  documents (phone_step blake3 op s).2 !! uri = documents s !! uri ∨
  ∃ i k st de reads writes fl sy cut rm, op = DocumentCommit i st de reads writes fl sy cut rm ∧
    committing s !! i = Some k ∧ target (k_download k) = Target_Document uri.
Proof.
  assert (Hans : ∀ i o a c s, documents (answer i o a c s).2 = documents s) by (intros; unfold answer; by repeat case_match).
  destruct op; cbn [phone_step].
  - left. unfold acquire. by repeat case_match.
  - left. unfold abandon. by repeat case_match.
  - left. unfold download_file. by repeat case_match.
  - left. unfold request_download. by repeat case_match.
  - left. unfold upload_file. by repeat case_match.
  - left. unfold probe_download. by repeat case_match.
  - left. unfold probe_timeout. by repeat case_match.
  - left. unfold file_chunk, answer. by repeat case_match.
  - left. unfold file_done, answer. by repeat case_match.
  - left. unfold verify. by repeat case_match.
  - pose proof (document_commit_spec blake3 i open_staged open_destination reads writes flush sync cut rm s) as H.
    destruct (document_commit _ _ _ _ _ _ _ _ _ _ _) as [out s']. destruct H as [H _].
    destruct (H uri) as [|(k & ? & ?)]; [by left|right]. by exists i, k, open_staged, open_destination, reads, writes, flush, sync, cut, rm.
  - left. unfold file_retry. by repeat case_match.
  - left. unfold file_err, answer. destruct (is_probe id); [by repeat case_match|].
    by destruct (owned_download o id s); destruct (owned_upload _ _ _) as [[n u]|].
  - left. unfold purge_downloads. cbn [snd]. generalize (List.filter (λ e, negb (bool_decide (owner e.2 = o))) (map_to_list (downloads s))).
    intros l. revert s. induction l as [|e l IH]; intros s; [done|]. cbn [foldl]. by rewrite IH.
  - left. unfold purge_uploads. cbn [snd]. generalize (List.filter (λ e, foreign o s e.2) (map_to_list (uploads s))).
    intros l. revert s. induction l as [|e l IH]; intros s; [done|]. cbn [foldl]. by rewrite IH.
  - by left.
  - left. unfold task_step, task_fails. by repeat case_match.
Qed.

(** A phone before its first transfer. *)
Definition idle (s : Phone) : Prop :=
  (∀ p i, names (files s) !! p = Some i → (i < Transfer.next_inode (files s))%nat) ∧
  starting s = [] ∧ downloads s = ∅ ∧ verifying s = [] ∧ committing s = [] ∧
  objects s = ∅ ∧ uploads s = ∅ ∧ tasks s = [] ∧ probes s = ∅.

Lemma idle_ok s : idle s → phone_ok s.
Proof.
  intros (H & _ & Hd & Hv & Hc & _). unfold phone_ok, open_downloads, all_open. rewrite Hd, Hv, Hc, map_to_list_empty.
  split; simpl; try done; by constructor.
Qed.


(** ** Whose transfer it is *)

(** A task belongs to an upload, and sends over its owner's link. *)
Definition tasks_ok (s : Phone) : Prop :=
  ∀ t, t ∈ tasks s → ∃ u, objects s !! t_upload t = Some u ∧ u_owner u = t_link t.

Lemma tasks_ok_objects s o' u' ts' :
  tasks_ok s → (∀ n u, objects s !! n = Some u → ∃ v, o' !! n = Some v ∧ u_owner v = u_owner u) →
  (∀ t, t ∈ ts' → (∃ t0, t0 ∈ tasks s ∧ t_upload t = t_upload t0 ∧ t_link t = t_link t0) ∨
                  ∃ v, o' !! t_upload t = Some v ∧ u_owner v = t_link t) →
  tasks_ok (with_uploads s o' u' ts').
Proof.
  intros Hok Ho Ht t Hin. cbn. destruct (Ht t Hin) as [(t0 & H0 & -> & ->)|]; [|done].
  destruct (Hok t0 H0) as (u & Hu & Hl). destruct (Ho _ _ Hu) as (v & ? & Hv). exists v. by rewrite Hv.
Qed.

Lemma insert_elem {A} (l : list A) i x y : y ∈ <[i := x]> l → y = x ∨ y ∈ l.
Proof.
  revert i. induction l as [|z l IH]; intros i; [by right|]. destruct i as [|i]; simpl; rewrite !elem_of_cons; [naive_solver|].
  intros [->|H]; [by right; left|]. destruct (IH i H); auto.
Qed.

(** Owners do not change. *)
Lemma same_owner (m : gmap nat UploadTransfer) n u v :
  m !! n = Some u → u_owner v = u_owner u →
  ∀ k w, m !! k = Some w → ∃ x, <[n := v]> m !! k = Some x ∧ u_owner x = u_owner w.
Proof.
  intros Hn Hv k w Hk. destruct (decide (k = n)) as [->|Hne].
  - exists v. rewrite lookup_insert_eq. split; [done|]. congruence.
  - exists w. by rewrite lookup_insert_ne.
Qed.

Lemma move_tasks_ok i t ph s : tasks s !! i = Some t → tasks_ok s → tasks_ok (move i t ph s).
Proof.
  intros Hi Hok. apply tasks_ok_objects; [done|naive_solver|]. intros t' [->|H]%insert_elem; left; [|by exists t'].
  exists t. split; [by eapply list_elem_of_lookup_2|done].
Qed.

Lemma task_fails_tasks_ok i t u m s : tasks s !! i = Some t → objects s !! t_upload t = Some u → tasks_ok s →
  tasks_ok (task_fails i t u m s).2.
Proof.
  intros Hi Hu Hok. unfold task_fails. destruct (negb _); [by apply move_tasks_ok|]. cbn [snd].
  apply move_tasks_ok; [done|]. apply tasks_ok_objects; [done|by eapply same_owner|]. intros t' H. left. by exists t'.
Qed.

Lemma spawn_tasks_ok id n u from link s : objects s !! n = Some u → u_owner u = link → tasks_ok s →
  tasks_ok (spawn_upload_range id n u from link s).
Proof.
  intros Hn Ho Hok. unfold spawn_upload_range. apply tasks_ok_objects; [done|by eapply same_owner|].
  intros t [H| ->%list_elem_of_singleton]%elem_of_app; [left; by exists t|right]. cbn. eexists. by rewrite lookup_insert_eq.
Qed.

Lemma owned_upload_Some o id s n u :
  owned_upload o id s = Some (n, u) ↔ uploads s !! id = Some n ∧ objects s !! n = Some u ∧ u_owner u = o.
Proof.
  unfold owned_upload. destruct (uploads s !! id) as [m|]; cbn; [|naive_solver].
  destruct (objects s !! m) as [v|] eqn:Hm; cbn; [|naive_solver]. case_bool_decide; naive_solver.
Qed.

Lemma tasks_ok_same s s' : objects s' = objects s → tasks s' = tasks s → tasks_ok s → tasks_ok s'.
Proof. intros Ho Ht. unfold tasks_ok. by rewrite Ho, Ht. Qed.

Lemma phone_step_tasks_ok blake3 op s : tasks_ok s → tasks_ok (phone_step blake3 op s).2.
Proof.
  intros Hok. destruct op; cbn [phone_step].
  - unfold acquire. by repeat case_match.
  - unfold abandon. by repeat case_match.
  - unfold download_file. by repeat case_match.
  - unfold request_download. by repeat case_match.
  - unfold upload_file. destruct (starting s !! k) as [[o|? ? ? ?]|]; [|done..]. cbn [snd].
    apply tasks_ok_objects; [done|..]; cbn.
    + intros n u Hn. exists u. rewrite lookup_insert_ne; [done|]. intros <-.
      apply (is_fresh (dom (objects s))). apply elem_of_dom. by exists u.
    + intros t [H| ->%list_elem_of_singleton]%elem_of_app; [left; by exists t|right]. cbn. eexists. by rewrite lookup_insert_eq.
  - unfold probe_download. by repeat case_match.
  - unfold probe_timeout. by repeat case_match.
  - unfold file_chunk, answer. by repeat case_match.
  - unfold file_done, answer. by repeat case_match.
  - unfold verify. by repeat case_match.
  - unfold document_commit. by repeat case_match.
  - unfold file_retry. destruct (owned_upload o id s) as [[n u]|] eqn:Hu; [|done].
    apply owned_upload_Some in Hu as (_ & ? & ?). by apply spawn_tasks_ok.
  - unfold file_err, answer. destruct (is_probe id); [by repeat case_match|].
    set (p := match owned_download o id s with Some d => _ | None => _ end).
    assert (Hp : tasks_ok p.2 ∧ objects p.2 = objects s ∧ uploads p.2 = uploads s) by (unfold p; by case_match).
    clearbody p. destruct p as [out s1]. destruct Hp as (Hok1 & Ho & _). cbn [snd] in *.
    destruct (owned_upload o id s1) as [[n u]|] eqn:Hu; [|done]. apply owned_upload_Some in Hu as (_ & ? & ?).
    apply tasks_ok_objects; [done|by eapply same_owner|]. intros t H'. left. by exists t.
  - unfold purge_downloads. cbn [snd]. generalize (List.filter (λ e, negb (bool_decide (owner e.2 = o))) (map_to_list (downloads s))).
    intros l. revert s Hok. induction l as [|e l IH]; intros s Hok; [done|]. cbn [foldl]. by apply IH.
  - unfold purge_uploads. cbn [snd]. generalize (List.filter (λ e, foreign o s e.2) (map_to_list (uploads s))).
    intros l. revert s Hok. induction l as [|e l IH]; intros s Hok; [done|]. cbn [foldl]. apply IH.
    apply tasks_ok_objects; [done| |intros t H; left; by exists t].
    intros n u Hn. destruct (decide (n = e.2)) as [->|Hne].
    + exists (cancel u). by rewrite lookup_alter_eq, Hn.
    + exists u. by rewrite lookup_alter_ne.
  - done.
  - unfold task_step. destruct (tasks s !! i) as [t|] eqn:Hi; [|done].
    destruct (objects s !! t_upload t) as [u|] eqn:Hu; [|done].
    destruct (Hok t ltac:(by eapply list_elem_of_lookup_2)) as (u' & Hu' & Hl).
    assert (u' = u) as -> by congruence.
    assert (Hmove : ∀ ph, tasks_ok (move i t ph s)) by (intros; by apply move_tasks_ok).
    repeat case_match; cbn [snd]; try done; try by apply task_fails_tasks_ok.
    + by apply spawn_tasks_ok.
    + by apply (move_tasks_ok i t Ended (with_uploads s (objects s) (delete (t_id t) (uploads s)) (tasks s))).
Qed.

(** The link whose frame a step handles; the rest of a [FileDone] is a step on what it
    took out. *)
Definition op_link (s : Phone) (op : Op) : option TransferOwner :=
  match op with
  | FileChunk o _ _ _ _ _ | FileDone o _ _ _ | FileRetry o _ _ | FileErr o _ _ _ => Some o
  | Verify i _ => (λ k, owner (k_download k)) <$> verifying s !! i
  | DocumentCommit i _ _ _ _ _ _ _ _ => (λ k, owner (k_download k)) <$> committing s !! i
  | _ => None
  end.

(** Nothing of another owner is touched. *)
Record others_kept (o : TransferOwner) (s s' : Phone) : Prop := {
  kept_downloads : ∀ id d, downloads s !! id = Some d → owner d ≠ o →
    downloads s' !! id = Some d ∧ fs_read (temporary d) (files s') = fs_read (temporary d) (files s);
  kept_verifying : ∀ k, k ∈ verifying s → owner (k_download k) ≠ o → k ∈ verifying s' ∧
    fs_read (temporary (k_download k)) (files s') = fs_read (temporary (k_download k)) (files s);
  kept_committing : ∀ k, k ∈ committing s → owner (k_download k) ≠ o → k ∈ committing s' ∧
    fs_read (temporary (k_download k)) (files s') = fs_read (temporary (k_download k)) (files s);
  kept_uploads : ∀ id n u, uploads s !! id = Some n → objects s !! n = Some u → u_owner u ≠ o →
    uploads s' !! id = Some n ∧ objects s' !! n = Some u;
  kept_probes : ∀ id a, probes s !! id = Some a → a ≠ o → probes s' !! id = Some a;
}.

#[global] Instance others_kept_refl o : Reflexive (others_kept o).
Proof. by intros s. Qed.
#[global] Instance others_kept_trans o : Transitive (others_kept o).
Proof.
  intros s1 s2 s3 [A1 V1 C1 A2 A3] [B1 V2 C2 B2 B3]. split.
  - intros id d Hd Ho. destruct (A1 _ _ Hd Ho) as [Hd' E1]. destruct (B1 _ _ Hd' Ho) as [? E2]. split; [done|]. by rewrite E2.
  - intros k Hk Ho. destruct (V1 _ Hk Ho) as [Hk' E1]. destruct (V2 _ Hk' Ho) as [? E2]. split; [done|]. by rewrite E2.
  - intros k Hk Ho. destruct (C1 _ Hk Ho) as [Hk' E1]. destruct (C2 _ Hk' Ho) as [? E2]. split; [done|]. by rewrite E2.
  - intros id n u Hn Hu Ho. destruct (A2 _ _ _ Hn Hu Ho). by apply B2.
  - intros id a Ha Ho. apply B3; [by apply A3|done].
Qed.

(** A step on one of the link's own downloads and its temporary. *)
Lemma own_entry o s s' id d l :
  entries_ok (files s) (next_id s) ((id, d) :: l) → open_downloads s ≡ₚ (id, d) :: l → owner d = o →
  (∀ p, is_part p = true → p ≠ temporary d → names (files s) !! p ≠ Some (file d) →
     fs_read p (files s') = fs_read p (files s)) →
  (∀ k e, downloads s !! k = Some e → owner e ≠ o → downloads s' !! k = Some e) →
  (∀ k, k ∈ verifying s → owner (k_download k) ≠ o → k ∈ verifying s') →
  (∀ k, k ∈ committing s → owner (k_download k) ≠ o → k ∈ committing s') →
  uploads s' = uploads s → objects s' = objects s → probes s' = probes s → others_kept o s s'.
Proof.
  intros Hok Hl Ho Hf HD HV HC Eu Eo Ep.
  assert (Hread : ∀ e, e ∈ open_downloads s → owner e.2 ≠ o → fs_read (temporary e.2) (files s') = fs_read (temporary e.2) (files s)).
  { intros e He Hne. rewrite Hl in He. apply elem_of_cons in He as [->|He]; [done|].
    destruct (entries_other _ _ _ _ _ e Hok He) as (Hi & Ht & Hde).
    apply Hf; [by apply (ok_part _ _ Hde)|done|]. intros Hn. pose proof (ok_name _ _ Hde). congruence. }
  unfold open_downloads, all_open in Hread. split; [| | |by rewrite Eu, Eo|by rewrite Ep].
  - intros k e He Hne. split; [by apply HD|]. apply (Hread (k, e)); [|done].
    apply elem_of_app. left. by apply elem_of_map_to_list.
  - intros k Hk Hne. split; [by apply HV|]. apply (Hread (taken_entry k)); [|done].
    rewrite !elem_of_app. right. left. by apply list_elem_of_fmap_2.
  - intros k Hk Hne. split; [by apply HC|]. apply (Hread (taken_entry k)); [|done].
    rewrite !elem_of_app. right. right. by apply list_elem_of_fmap_2.
Qed.

Lemma own_temporary s id d f D : phone_ok s → downloads s !! id = Some d →
  (∀ p, p ≠ temporary d → names (files s) !! p ≠ Some (file d) → fs_read p f = fs_read p (files s)) →
  (∀ k, k ≠ id → D !! k = downloads s !! k) →
  others_kept (owner d) s (with_downloads (with_files s f) D).
Proof.
  intros Hok Hd Hf HD. unfold phone_ok in Hok. pose proof (open_take _ (verifying s) (committing s) _ _ Hd) as Hl.
  fold (open_downloads s) in Hl. pose proof Hok as Hok'. rewrite Hl in Hok'.
  eapply (own_entry _ _ _ id d); [exact Hok'|exact Hl|done| | |done..].
  - intros p _. apply Hf.
  - intros k e He Hne. cbn. rewrite HD; [done|]. intros ->. congruence.
Qed.

Lemma own_dropped rm s id d : phone_ok s → downloads s !! id = Some d →
  others_kept (owner d) s (remove_temporary rm d (with_downloads s (delete id (downloads s)))).
Proof.
  intros Hok Hd. apply (own_temporary s id d (remove_file rm (temporary d) (files s)).2 (delete id (downloads s))); [done..| |].
  - intros p Hp _. by apply Transfer.remove_file_read.
  - intros k Hk. by rewrite lookup_delete_ne.
Qed.

Lemma answer_others id o a c s : others_kept o s (answer id o a c s).2 ∧ ∀ l f, Send l f ∈ (answer id o a c s).1 → l = o.
Proof.
  unfold answer. destruct (probes s !! id) as [b|] eqn:Hb; [|split; [done|set_solver]].
  case_bool_decide as He; [|split; [done|set_solver]]. subst b. cbn [snd fst]. split.
  - split; [done..|]. intros k a' Ha Ho. cbn. rewrite lookup_delete_ne; [done|]. congruence.
  - intros l f. destruct c; set_solver.
Qed.

Lemma drop_target_sends d l f : Send l f ∉ drop_target d.
Proof. unfold drop_target. destruct (target d); set_solver. Qed.

Lemma file_chunk_others o id seq data write rm s : phone_ok s →
  others_kept o s (file_chunk o id seq data write rm s).2 ∧ ∀ l f, Send l f ∈ (file_chunk o id seq data write rm s).1 → l = o.
Proof.
  intros Hok. unfold file_chunk. destruct (is_probe id); [apply answer_others|].
  destruct (owned_download o id s) as [d|] eqn:Hd; [|split; [done|set_solver]].
  apply owned_download_Some in Hd as [Hd <-].
  assert (Hsend : ∀ r m s0 l f, Send l f ∈ (abort_download id d rm r m s0).1 → l = owner d).
  { intros r m s0 l f. cbn [abort_download fst]. rewrite elem_of_app. intros [H|H]; [by apply drop_target_sends in H|set_solver]. }
  destruct (negb _); [split; [done|set_solver]|]. destruct (_ || _).
  { split; [by apply own_dropped|apply Hsend]. }
  destruct (FILE_CHUNK_BYTES <? _); [split; [done|set_solver]|].
  destruct (late_error d); [split; [by apply own_dropped|apply Hsend]|].
  destruct write as [|n [|]]; cbn [snd fst].
  1,2: split; [|set_solver]; apply own_temporary with id; [done..| |];
    [intros p _ Hn; by apply read_written|intros k Hk; by rewrite lookup_insert_ne].
  - split; [|apply Hsend].
    apply (own_temporary s id d (remove_file rm (temporary d) (write_at (file d) (position d) (take n data) (files s))).2
      (delete id (downloads s))); [done..| |].
    + intros p Hp Hn. rewrite Transfer.remove_file_read by done. by apply read_written.
    + intros k Hk. by rewrite lookup_delete_ne.
Qed.

Lemma file_done_others o id size checksum s :
  others_kept o s (file_done o id size checksum s).2 ∧ ∀ l f, Send l f ∈ (file_done o id size checksum s).1 → l = o.
Proof.
  unfold file_done. destruct (is_probe id); [apply answer_others|].
  destruct (owned_download o id s) as [d|] eqn:Hd.
  { apply owned_download_Some in Hd as [Hd <-]. cbn [snd fst]. split; [|set_solver]. split; [| |done..].
    - intros k e He Hne. cbn. rewrite lookup_delete_ne; [done|]. congruence.
    - intros k Hk _. split; [|done]. cbn. apply elem_of_app. by left. }
  destruct (owned_upload o id s) as [[n u]|] eqn:Hu; [|split; [done|set_solver]].
  apply owned_upload_Some in Hu as (Hid & Hn & Hu). cbn [snd fst]. split; [|set_solver]. split; [done..| |done].
  intros k m v Hk Hm Hv. cbn. rewrite lookup_delete_ne; [done|]. intros <-. congruence.
Qed.

Lemma file_retry_others o id from s :
  others_kept o s (file_retry o id from s).2 ∧ ∀ l f, Send l f ∈ (file_retry o id from s).1 → l = o.
Proof.
  unfold file_retry. destruct (owned_upload o id s) as [[n u]|] eqn:Hu; [|split; [done|set_solver]].
  apply owned_upload_Some in Hu as (Hid & Hn & Hu). cbn [snd fst]. split; [|set_solver]. split; [done..| |done].
  intros k m v Hk Hm Hv. cbn. rewrite lookup_insert_ne; [done|]. intros <-. congruence.
Qed.

Lemma file_err_others o id reason rm s : phone_ok s →
  others_kept o s (file_err o id reason rm s).2 ∧ ∀ l f, Send l f ∈ (file_err o id reason rm s).1 → l = o.
Proof.
  intros Hok. unfold file_err. destruct (is_probe id); [apply answer_others|].
  set (p := match owned_download o id s with Some d => _ | None => _ end).
  assert (Hp : others_kept o s p.2 ∧ ∀ l f, Send l f ∉ p.1).
  { unfold p. destruct (owned_download o id s) as [d|] eqn:Hd; [|split; [done|set_solver]].
    apply owned_download_Some in Hd as [Hd <-]. split; [by apply own_dropped|]. intros l f. cbn [fst].
    rewrite elem_of_app. intros [H|H]; [by apply drop_target_sends in H|set_solver]. }
  clearbody p. destruct p as [out s1]. destruct Hp as [Hs1 Hout]. cbn [fst snd] in *.
  destruct (owned_upload o id s1) as [[n u]|] eqn:Hu; [|split; [done|intros l f Hin; by apply Hout in Hin]].
  apply owned_upload_Some in Hu as (Hid & Hn & Hu). cbn [snd fst]. split.
  - etrans; [exact Hs1|]. split; [done..| |done]. intros k m v Hk Hm Hv. cbn. split.
    + rewrite lookup_delete_ne; [done|]. intros <-. congruence.
    + rewrite lookup_insert_ne; [done|]. intros <-. congruence.
  - intros l f. destruct out as [|x out]; [set_solver|]. intros Hin. by apply Hout in Hin.
Qed.

Ltac split_ors := repeat match goal with H : _ ∨ _ |- _ => destruct H as [H|H] end.
(** No frame of an upload is in the list. *)
Ltac no_send := set_unfold; intros ?; split_ors; simplify_eq/=; try done; try (by eapply drop_target_sends).

Lemma verify_others blake3 i io s k : phone_ok s → verifying s !! i = Some k →
  others_kept (owner (k_download k)) s (verify blake3 i io s).2 ∧
  ∀ l f, Send l f ∈ (verify blake3 i io s).1 → l = owner (k_download k).
Proof.
  intros Hok Hk. unfold phone_ok in Hok. set (d := k_download k).
  pose proof (open_verifying (downloads s) _ (committing s) _ _ Hk) as Hl. fold (open_downloads s) in Hl.
  pose proof Hok as Hok'. rewrite Hl in Hok'. change (taken_entry k) with (k_id k, d) in *.
  assert (Hdisj : ∀ e, downloads s !! k_id k = Some e → False).
  { intros e He. unfold all_open in Hok'. rewrite <-(map_to_list_delete _ _ _ He) in Hok'. destruct Hok' as [_ Hnd _ _ _].
    cbn in Hnd. apply NoDup_cons in Hnd as [Hn _]. apply Hn. left. }
  assert (Hgone : ∀ k', k' ∈ verifying s → owner (k_download k') ≠ owner d → k' ∈ delete i (verifying s)).
  { intros k' Hk' Hne. destruct (elem_of_take_out _ _ _ _ Hk Hk') as [->|?]; [by destruct Hne|done]. }
  assert (Hown : ∀ s', 
    (∀ p, is_part p = true → p ≠ temporary d → names (files s) !! p ≠ Some (file d) → fs_read p (files s') = fs_read p (files s)) →
    (∀ j e, downloads s !! j = Some e → downloads s' !! j = Some e) →
    verifying s' = delete i (verifying s) → (∀ k', k' ∈ committing s → k' ∈ committing s') →
    uploads s' = uploads s → objects s' = objects s → probes s' = probes s → others_kept (owner d) s s').
  { intros s' Hf HD HV HC. apply (own_entry _ _ _ (k_id k) d _ Hok' Hl); [done|done| | |].
    - intros j e He _. by apply HD.
    - intros k' Hk' Hne. rewrite HV. by apply Hgone.
    - intros k' Hk' _. by apply HC. }
  assert (Hrm : others_kept (owner d) s
    (remove_temporary (io_rm io) d (with_taken s (delete i (verifying s)) (committing s)))).
  { apply Hown; try done. intros p _ Hp _. by apply Transfer.remove_file_read. }
  assert (Hfail : ∀ m l f, Send l f ∉ drop_target d ++ [TransferError (k_id k) m]).
  { intros m l f. rewrite elem_of_app. intros [H|H]; [by apply drop_target_sends in H|set_solver]. }
  unfold verify. rewrite Hk. fold d.
  destruct (negb (written d =? k_size k) || _).
  { destruct (MAX_DOWNLOAD_RESTARTS <? _); cbn [fst snd].
    - split; [exact Hrm|]. intros l f. rewrite elem_of_app. intros [H|H]; [by apply drop_target_sends in H|set_solver].
    - split; [|set_solver]. apply Hown; try done.
      + intros p _ Hp Hn. cbn -[truncate]. destruct (io_set_len io); [by apply read_truncated|done].
      + intros j e He. cbn. rewrite lookup_insert_ne; [done|]. intros <-. by eapply Hdisj. }
  destruct (late_error d || negb (io_flush io)); [split; [exact Hrm|intros l f Hin; by apply Hfail in Hin]|].
  destruct (negb (io_sync io)); [split; [exact Hrm|intros l f Hin; by apply Hfail in Hin]|].
  destruct (target d) as [tgt|uri] eqn:Ht.
  - destruct (if io_rename io then _ else _) as [f'|] eqn:Hr; [|split; [exact Hrm|set_solver]].
    split; [|set_solver]. apply Hown; try done. intros p Hp Hne _. cbn. destruct (io_rename io); [|done].
    unfold rename in Hr. destruct (names _ !! temporary d) as [j|]; [|done]. injection Hr as <-.
    unfold fs_read. cbn. rewrite lookup_insert_ne; [by rewrite lookup_delete_ne|]. intros ->.
    destruct Hok' as [_ _ _ _ He]. apply Forall_cons in He as [He _]. by rewrite (ok_target _ _ He _ Ht) in Hp.
  - split; [|set_solver]. apply Hown; try done. intros k' Hk'. cbn. apply elem_of_app. by left.
Qed.

Lemma document_commit_others blake3 i st de reads writes fl sy cut rm s k : phone_ok s → committing s !! i = Some k →
  others_kept (owner (k_download k)) s (document_commit blake3 i st de reads writes fl sy cut rm s).2 ∧
  ∀ l f, Send l f ∉ (document_commit blake3 i st de reads writes fl sy cut rm s).1.
Proof.
  intros Hok Hk. unfold phone_ok in Hok. set (d := k_download k).
  pose proof (open_committing (downloads s) (verifying s) _ _ _ Hk) as Hl. fold (open_downloads s) in Hl.
  pose proof Hok as Hok'. rewrite Hl in Hok'. change (taken_entry k) with (k_id k, d) in *.
  assert (Hown : ∀ s', 
    (∀ p, p ≠ temporary d → fs_read p (files s') = fs_read p (files s)) → downloads s' = downloads s →
    verifying s' = verifying s → committing s' = delete i (committing s) →
    uploads s' = uploads s → objects s' = objects s → probes s' = probes s → others_kept (owner d) s s').
  { intros s' Hf HD HV HC. apply (own_entry _ _ _ (k_id k) d _ Hok' Hl); [done| |by rewrite HD|by rewrite HV|].
    - intros p _ Hp _. by apply Hf.
    - intros k' Hk' Hne. rewrite HC. destruct (elem_of_take_out _ _ _ _ Hk Hk') as [->|?]; [by destruct Hne|done]. }
  assert (Hrm : ∀ p, p ≠ temporary d → fs_read p (remove_file rm (temporary d) (files s)).2 = fs_read p (files s)).
  { intros p Hp. by apply Transfer.remove_file_read. }
  unfold document_commit. rewrite Hk. fold d. repeat case_match; cbn [fst snd]; (split; [apply Hown; try done; intros p0 Hp0; cbn; first [done|by apply Hrm]|intros l0 f0; no_send]).
Qed.

Lemma link_step_others blake3 op o s : phone_ok s → op_link s op = Some o →
  others_kept o s (phone_step blake3 op s).2 ∧ ∀ l f, Send l f ∈ (phone_step blake3 op s).1 → l = o.
Proof.
  intros Hok Hop. destruct op; try done; simplify_eq/=.
  - by apply file_chunk_others.
  - apply file_done_others.
  - destruct (verifying s !! i) as [k|] eqn:Hk; [|done]. injection Hop as <-. by apply verify_others.
  - destruct (committing s !! i) as [k|] eqn:Hk; [|done]. injection Hop as <-.
    destruct (document_commit_others blake3 i open_staged open_destination reads writes flush sync cut rm s k Hok Hk) as [? Hs].
    split; [done|]. intros l f Hin. by apply Hs in Hin.
  - apply file_retry_others.
  - by apply file_err_others.
Qed.

(** The frames that carry an upload. *)
Definition upload_frame (f : Frame) : option TransferId :=
  match f with
  | Frame_FilePutReq id _ _ _ _ | Frame_FileChunk id _ _ | Frame_FileDone id _ _ => Some id
  | _ => None
  end.

Lemma task_fails_sends i t u m s l f : Send l f ∉ (task_fails i t u m s).1.
Proof. unfold task_fails. destruct (negb _); simpl; set_solver. Qed.

Lemma content_sent blake3 op s l f id : Send l f ∈ (phone_step blake3 op s).1 → upload_frame f = Some id →
  ∃ i t, tasks s !! i = Some t ∧ t_id t = id ∧ t_link t = l ∧ is_Some (objects s !! t_upload t).
Proof.
  intros Hin Hf.
  assert (Hdrop : ∀ d, Send l f ∉ drop_target d) by (intros d; apply drop_target_sends).
  assert (Hans : ∀ i o a c, Send l f ∉ (answer i o a c s).1).
  { intros i o a c. unfold answer. repeat case_match; cbn [fst]; no_send. }
  assert (Habort : ∀ i d rm r m s0, Send l f ∉ (abort_download i d rm r m s0).1).
  { intros i d rm r m s0. cbn. rewrite elem_of_app. intros [H|H]; [by apply Hdrop in H|]. revert H. no_send. }
  destruct op; cbn [phone_step] in Hin.
  - exfalso. unfold acquire in Hin. case_match; set_solver.
  - exfalso. unfold abandon in Hin. repeat case_match; set_solver.
  - exfalso. unfold download_file in Hin. repeat case_match; set_solver.
  - exfalso. unfold request_download in Hin. repeat case_match; revert Hin; no_send.
  - exfalso. unfold upload_file in Hin. repeat case_match; set_solver.
  - exfalso. unfold probe_download in Hin. repeat case_match; revert Hin; no_send.
  - exfalso. unfold probe_timeout in Hin. repeat case_match; revert Hin; no_send.
  - exfalso. unfold file_chunk in Hin. repeat case_match; try (by apply Hans in Hin); try (by apply Habort in Hin);
      try (revert Hin; no_send).
  - exfalso. unfold file_done in Hin. repeat case_match; try (by apply Hans in Hin); set_solver.
  - exfalso. unfold verify in Hin. repeat case_match; cbn [fst] in Hin; revert Hin; no_send.
  - exfalso. unfold document_commit in Hin. repeat case_match; set_solver.
  - exfalso. unfold file_retry in Hin. repeat case_match; set_solver.
  - exfalso. unfold file_err in Hin. destruct (is_probe _); [by apply Hans in Hin|].
    assert (Ho : ∀ d, Send l f ∈ drop_target d ++ [TransferError id0 reason] → False).
    { intros d. rewrite elem_of_app. intros [H|H]; [by eapply Hdrop|set_solver]. }
    destruct (owned_download _ _ _) as [d|]; destruct (owned_upload _ _ _) as [[n u]|]; cbn [fst] in Hin.
    + specialize (Ho d). destruct (drop_target d ++ _); [set_solver|done].
    + by apply Ho in Hin.
    + set_solver.
    + set_solver.
  - exfalso. cbn in Hin. apply list_elem_of_bind in Hin as (e & Hin & _). apply elem_of_app in Hin as [Hin|Hin]; [by eapply Hdrop|set_solver].
  - exfalso. cbn in Hin. apply list_elem_of_fmap in Hin as (e & ? & _). done.
  - exfalso. cbn in Hin. unfold resume_downloads in Hin. apply list_elem_of_fmap in Hin as (e & ? & _). by simplify_eq.
  - unfold task_step in Hin. destruct (tasks s !! i) as [t|] eqn:Ht; [|set_solver].
    destruct (objects s !! t_upload t) as [u|] eqn:Hu; [|set_solver]. exists i, t.
    repeat case_match; cbn [fst] in Hin; try (by apply task_fails_sends in Hin); revert Hin; set_unfold; intros Hin;
      split_ors; simplify_eq/=; try done; by rewrite Hu.
Qed.

(** C36 (safety). Many links share the phone's registries and a transfer stays with the pairing
    it was started for. In every state, a frame that arrives over a link - up to the
    verification, installation or copy that a finished download sets off - leaves the
    downloads of other hosts, registered, being verified or being copied, what their
    temporaries hold, their uploads and their probes as they were, and is answered over
    that link alone; and a frame that announces or carries an upload, from whichever
    step, goes over the link of the host the upload was started for. The calls that cut
    a restarted file are taken to succeed. *)
Theorem transfers_stay_with_their_host blake3 s0 ops op out s'
    (Hidle : idle s0) (Hops : Forall op_ok ops)
    (s := (phone_run blake3 ops s0).2) (Hstep : phone_step blake3 op s = (out, s')) :
  (∀ o, op_link s op = Some o → others_kept o s s' ∧ ∀ l f, Send l f ∈ out → l = o) ∧
  (∀ l f id, Send l f ∈ out → upload_frame f = Some id →
     ∃ t u, t ∈ tasks s ∧ t_id t = id ∧ objects s !! t_upload t = Some u ∧ u_owner u = l).
Proof.
  assert (Hok : phone_ok s).
  { apply (phone_run_inv blake3 phone_ok op_ok); [intros; by apply phone_step_ok|done|by apply idle_ok]. }
  assert (Htasks : tasks_ok s).
  { apply (phone_run_inv blake3 tasks_ok op_ok); [intros; by apply phone_step_tasks_ok|done|].
    destruct Hidle as (_ & _ & _ & _ & _ & _ & _ & Ht & _). intros t. rewrite Ht. set_solver. }
  clearbody s. pose proof (link_step_others blake3 op) as Hlink. pose proof (content_sent blake3 op s) as Hsent.
  rewrite Hstep in Hsent. split.
  - intros o Ho. specialize (Hlink o s Hok Ho). by rewrite Hstep in Hlink.
  - intros l f id Hin Hf. destruct (Hsent l f id Hin Hf) as (i & t & Hi & Hid & Hl & _).
    assert (Ht : t ∈ tasks s) by by eapply list_elem_of_lookup_2. destruct (Htasks t Ht) as (u & Hu & Ho).
    exists t, u. split_and!; [done..|congruence].
Qed.

(** ** Slots and space *)

Lemma live_spec s n : live s n = true ↔
  (∃ id, uploads s !! id = Some n) ∨ ∃ t, t ∈ tasks s ∧ t_upload t = n ∧ is_ended t = false.
Proof.
  unfold live. rewrite orb_true_iff, !existsb_exists. split; intros [H|H]; [left|right|left|right].
  - destruct H as ([id m] & Hin & Heq%Nat.eqb_eq). exists id. apply list_elem_of_In, elem_of_map_to_list in Hin. simpl in *. by subst.
  - destruct H as (t & Hin & [Heq%Nat.eqb_eq Hen%negb_true_iff]%andb_true_iff). exists t. by rewrite list_elem_of_In.
  - destruct H as (id & Hid). exists (id, n). split; [by apply list_elem_of_In, elem_of_map_to_list|by apply Nat.eqb_eq].
  - destruct H as (t & Hin & Heq & Hen). exists t. split; [by apply list_elem_of_In|]. rewrite Hen, andb_true_r. by apply Nat.eqb_eq.
Qed.

Definition live_uploads (s : Phone) : gset nat := filter (λ n, live s n = true) (dom (objects s)).

(** Uploads that lived before, and perhaps a new one. *)
Lemma live_uploads_le s s' (m : gset nat) :
  (∀ n, n ∈ dom (objects s') → live s' n = true → n ∈ m ∨ n ∈ dom (objects s) ∧ live s n = true) →
  (size (live_uploads s') <= size m + size (live_uploads s))%nat.
Proof.
  intros H. transitivity (size (m ∪ live_uploads s)).
  - apply subseteq_size. intros n. unfold live_uploads. rewrite elem_of_union, !elem_of_filter. intros [? ?]. naive_solver.
  - rewrite size_union_alt.
    assert (size (live_uploads s ∖ m) <= size (live_uploads s))%nat by (apply subseteq_size; set_solver). lia.
Qed.

Definition total (l : list (TransferId * DownloadTransfer)) : Z := foldr (λ e t, written e.2 + t) 0 l.

Lemma total_perm l l' : l ≡ₚ l' → total l = total l'.
Proof. unfold total. induction 1; simpl in *; lia. Qed.
Lemma live_total_take s id d : downloads s !! id = Some d →
  live_total s = written d + total (map_to_list (delete id (downloads s))).
Proof. intros Hd. change (live_total s) with (total (map_to_list (downloads s))). by rewrite <-(total_perm _ _ (map_to_list_delete _ _ _ Hd)). Qed.

(** What one transfer may use. *)
Definition entry_bounded (e : TransferId * DownloadTransfer) : Prop :=
  0 <= written e.2 <= MAX_DOWNLOAD_BYTES ∧ 0 <= restarts e.2 <= MAX_DOWNLOAD_RESTARTS.

Record bounded (s : Phone) : Prop := {
  bd_slots : (slots_held s <= MAX_ACTIVE_FILE_TRANSFERS)%nat;
  bd_total : live_total s <= MAX_TOTAL_DOWNLOAD_BYTES;
  bd_each : Forall entry_bounded (open_downloads s);
}.

(** The parts of [slots_held]. *)
Definition download_slots (s : Phone) : nat := (size (downloads s) + length (verifying s) + length (committing s))%nat.
Lemma slots_held_split s :
  slots_held s = (count_if holds_slot (starting s) + download_slots s + size (live_uploads s))%nat.
Proof. unfold slots_held, download_slots, live_uploads. lia. Qed.

Lemma bounded_intro s s' :
  bounded s → (slots_held s' <= slots_held s)%nat → live_total s' <= MAX_TOTAL_DOWNLOAD_BYTES →
  Forall entry_bounded (open_downloads s') → bounded s'.
Proof. intros [H _ _] ???. split; [lia|done..]. Qed.

Lemma live_uploads_same s s' : objects s' = objects s → uploads s' = uploads s → tasks s' = tasks s →
  live_uploads s' = live_uploads s.
Proof. intros Ho Hu Ht. unfold live_uploads, live. by rewrite Ho, Hu, Ht. Qed.

Lemma size_out (D : gmap TransferId DownloadTransfer) id d : D !! id = Some d → size D = S (size (delete id D)).
Proof.
  intros Hd. rewrite <-(insert_delete_id _ _ _ Hd) at 1. by rewrite map_size_insert_None by apply lookup_delete_eq.
Qed.

Lemma total_nonneg l : Forall entry_bounded l → 0 <= total l.
Proof. unfold total. induction 1 as [|e l [? _] _ IH]; simpl in *; lia. Qed.

(** A registered download and the rest. *)
Lemma bounded_entry s id d : bounded s → downloads s !! id = Some d →
  entry_bounded (id, d) ∧ Forall entry_bounded (all_open (delete id (downloads s)) (verifying s) (committing s)) ∧
  live_total s = written d + total (map_to_list (delete id (downloads s))) ∧
  0 <= total (map_to_list (delete id (downloads s))).
Proof.
  intros [_ _ He] Hd. unfold open_downloads in He. rewrite (open_take _ _ _ _ _ Hd) in He.
  apply Forall_cons in He as [He Hl]. split_and!; [done|done|by apply live_total_take|].
  apply total_nonneg. unfold all_open in Hl. by apply Forall_app in Hl as [? _].
Qed.

Lemma drop_bounded rm s id d : bounded s → downloads s !! id = Some d →
  bounded (remove_temporary rm d (with_downloads s (delete id (downloads s)))).
Proof.
  intros Hb Hd. destruct (bounded_entry _ _ _ Hb Hd) as ([[? _] _] & Hl & Ht & _). apply (bounded_intro s); [done|..].
  - rewrite !slots_held_split, (live_uploads_same s) by done. unfold download_slots. cbn -[size count_if].
    rewrite (size_out _ _ _ Hd). lia.
  - change (live_total _) with (total (map_to_list (delete id (downloads s)))). pose proof (bd_total _ Hb). simpl in *. lia.
  - exact Hl.
Qed.

Lemma saturating_within mx a b : saturating_add u64_max a b <= mx → mx < u64_max → a + b <= mx.
Proof. unfold saturating_add. lia. Qed.

(** Files, documents and probes take no slot. *)
Lemma bounded_same s s' :
  starting s' = starting s → downloads s' = downloads s → verifying s' = verifying s → committing s' = committing s →
  objects s' = objects s → uploads s' = uploads s → tasks s' = tasks s → bounded s → bounded s'.
Proof.
  intros H1 H2 H3 H4 H5 H6 H7 [Hs Ht He]. split.
  - rewrite slots_held_split in *. rewrite (live_uploads_same s) by done. unfold download_slots. by rewrite H1, H2, H3, H4.
  - unfold live_total. by rewrite H2.
  - unfold open_downloads. by rewrite H2, H3, H4.
Qed.

Lemma answer_bounded id o a c s : bounded s → bounded (answer id o a c s).2.
Proof. intros Hb. unfold answer. repeat case_match; done || by apply (bounded_same s). Qed.

Lemma file_chunk_bounded o id seq data write rm s : bounded s → bounded (file_chunk o id seq data write rm s).2.
Proof.
  intros Hb. unfold file_chunk. destruct (is_probe id); [by apply answer_bounded|].
  destruct (owned_download o id s) as [d|] eqn:Hd; [|done]. apply owned_download_Some in Hd as [Hd _].
  destruct (negb _); [done|]. destruct (_ || _) eqn:Hover; [by apply drop_bounded|]. destruct (FILE_CHUNK_BYTES <? _); [done|].
  apply orb_false_iff in Hover as [H1%Z.ltb_ge H2%Z.ltb_ge]. apply saturating_within in H1; [|done]. apply saturating_within in H2; [|done].
  destruct (late_error d); [by apply drop_bounded|].
  assert (Hkeep : ∀ d', written d' = written d + Z.of_nat (length data) → restarts d' = restarts d →
    bounded (with_downloads (with_files s (write_at (file d) (position d) (landed write data) (files s)))
               (<[id := d']> (downloads s)))).
  2:{ destruct write as [|n [|]]; [by apply Hkeep|by apply Hkeep|].
      apply (drop_bounded rm (with_files s _) id d); [by apply (bounded_same s)|done]. }
  intros d' Hwd' Hrd'.
  destruct (bounded_entry _ _ _ Hb Hd) as ([[? ?] ?] & Hl & Ht & Hpos). cbn [snd] in *. apply (bounded_intro s); [done|..].
  - rewrite !slots_held_split, (live_uploads_same s) by done. unfold download_slots. cbn -[size count_if].
    rewrite map_size_insert_Some by by eexists. lia.
  - erewrite live_total_take by apply lookup_insert_eq. cbn [downloads with_downloads with_files]. rewrite delete_insert_eq, Hwd'. simpl. lia.
  - unfold open_downloads. cbn -[all_open write_at]. rewrite (open_change _ _ _ _ _ _ Hd). constructor; [split; simpl; lia|done].
Qed.

(** No step but [upload_file] brings an upload to life. *)
Lemma uploads_bounded s o' u' ts' : bounded s → dom o' = dom (objects s) →
  (∀ id m, u' !! id = Some m → ∃ id', uploads s !! id' = Some m) →
  (∀ t, t ∈ ts' → is_ended t = false →
     (∃ t0, t0 ∈ tasks s ∧ t_upload t0 = t_upload t ∧ is_ended t0 = false) ∨ ∃ id, uploads s !! id = Some (t_upload t)) →
  bounded (with_uploads s o' u' ts').
Proof.
  intros Hb Hdom Hu Ht. apply (bounded_intro s); [done| |apply Hb|apply Hb].
  rewrite !slots_held_split. pose proof (live_uploads_le s (with_uploads s o' u' ts') ∅) as Hle.
  rewrite size_empty in Hle. unfold download_slots. cbn -[size live_uploads count_if] in *. apply Nat.add_le_mono_l, Hle.
  intros n Hn Hlv. right. rewrite <-Hdom. split; [done|]. apply live_spec.
  apply live_spec in Hlv as [(id & Hid)|(t & Hin & <- & Hen)]; [left; by eapply Hu|].
  destruct (Ht t Hin Hen) as [(t0 & ? & ? & ?)|?]; [right; by exists t0|by left].
Qed.

Lemma file_done_bounded o id size checksum s : bounded s → bounded (file_done o id size checksum s).2.
Proof.
  intros Hb. unfold file_done. destruct (is_probe id); [by apply answer_bounded|].
  destruct (owned_download o id s) as [d|] eqn:Hd.
  - apply owned_download_Some in Hd as [Hd _]. destruct (bounded_entry _ _ _ Hb Hd) as (He & Hl & Ht & Hpos).
    apply (bounded_intro s); [done|..].
    + rewrite !slots_held_split, (live_uploads_same s) by done. unfold download_slots. cbn -[base.size count_if].
      rewrite (size_out _ _ _ Hd), length_app. simpl. lia.
    + change (live_total _) with (total (map_to_list (delete id (downloads s)))). pose proof (bd_total _ Hb).
      destruct He as [[? _] _]. simpl in *. lia.
    + unfold open_downloads. cbn -[all_open]. rewrite open_to_verifying. by constructor.
  - destruct (owned_upload o id s) as [[n u]|]; [|done]. apply uploads_bounded; [done|done|..].
    + intros id' m [_ ?]%lookup_delete_Some. by exists id'.
    + intros t Hin Hen. left. by exists t.
Qed.

Lemma verify_bounded blake3 i io s : bounded s → bounded (verify blake3 i io s).2.
Proof.
  intros Hb. unfold verify. destruct (verifying s !! i) as [k|] eqn:Hk; [|done].
  assert (Hlen : length (verifying s) = S (length (delete i (verifying s)))).
  { rewrite length_delete by by eexists. apply lookup_lt_Some in Hk. lia. }
  pose proof (bd_each _ Hb) as He. unfold open_downloads in He. rewrite (open_verifying _ _ _ _ _ Hk) in He.
  apply Forall_cons in He as [[Hw Hr] He].
  assert (Hout : bounded (with_taken s (delete i (verifying s)) (committing s))).
  { apply (bounded_intro s); [done| |apply Hb|exact He].
    rewrite !slots_held_split, (live_uploads_same s) by done. unfold download_slots. cbn -[size count_if]. lia. }
  assert (Hrm : ∀ rm, bounded (remove_temporary rm (k_download k) (with_taken s (delete i (verifying s)) (committing s)))).
  { intros rm. by apply (bounded_same (with_taken s (delete i (verifying s)) (committing s))). }
  destruct (_ || _).
  { destruct (MAX_DOWNLOAD_RESTARTS <? _) eqn:Hmax; [apply Hrm|]. apply Z.ltb_ge in Hmax. cbn [snd taken_entry] in *.
    assert (Hr' : restarts (k_download k) + 1 <= MAX_DOWNLOAD_RESTARTS).
    { unfold saturating_add, MAX_DOWNLOAD_RESTARTS in *. destruct (Z.min_spec u32_max (restarts (k_download k) + 1)) as [[? Hm]|[? Hm]];
        rewrite Hm in Hmax; [by vm_compute in Hmax|lia]. }
    apply (bounded_intro s); [done|..].
    - rewrite !slots_held_split, (live_uploads_same s) by done. unfold download_slots. cbn -[size count_if restart].
      pose proof (map_size_insert (k_id k) (restart (k_download k) (io_seek io)) (downloads s)) as Hs. rewrite Hs.
      destruct (downloads s !! k_id k); cbn [Datatypes.id]; lia.
    - erewrite live_total_take by apply lookup_insert_eq. cbn [downloads with_downloads with_files with_taken]. rewrite delete_insert_eq.
      simpl. destruct (downloads s !! k_id k) as [d|] eqn:Hd.
      + destruct (bounded_entry _ _ _ Hb Hd) as ([[? _] _] & _ & Ht & _). pose proof (bd_total _ Hb). simpl in *. lia.
      + rewrite delete_id by done. apply Hb.
    - unfold open_downloads. cbn -[all_open restart]. unfold all_open in *. rewrite <-insert_delete_eq.
      rewrite map_to_list_insert by apply lookup_delete_eq. constructor; [split; simpl; unfold saturating_add, u32_max, MAX_DOWNLOAD_BYTES; lia|].
      apply Forall_app in He as [He1 He2]. apply Forall_app. split; [|done].
      destruct (downloads s !! k_id k) as [d|] eqn:Hd; [|by rewrite delete_id].
      rewrite <-(map_to_list_delete _ _ _ Hd) in He1. by apply Forall_cons in He1 as [_ ?]. }
  destruct (late_error _ || negb (io_flush io)); [apply Hrm|]. destruct (negb (io_sync io)); [apply Hrm|].
  destruct (target (k_download k)) as [tgt|uri].
  - destruct (if io_rename io then _ else _) as [f|]; [|apply Hrm].
    by apply (bounded_same (with_taken s (delete i (verifying s)) (committing s))).
  - apply (bounded_intro s); [done| |apply Hb|].
    + rewrite !slots_held_split, (live_uploads_same s) by done. unfold download_slots. cbn -[size count_if].
      rewrite length_app. simpl. lia.
    + unfold open_downloads. cbn -[all_open]. rewrite open_to_committing. by constructor.
Qed.

Lemma document_commit_bounded blake3 i st de reads writes fl sy cut rm s :
  bounded s → bounded (document_commit blake3 i st de reads writes fl sy cut rm s).2.
Proof.
  intros Hb. unfold document_commit. destruct (committing s !! i) as [k|] eqn:Hk; [|done].
  assert (Hout : bounded (with_taken s (verifying s) (delete i (committing s)))).
  { pose proof (bd_each _ Hb) as He. unfold open_downloads in He. rewrite (open_committing _ _ _ _ _ Hk) in He.
    apply Forall_cons in He as [_ He]. apply (bounded_intro s); [done| |apply Hb|exact He].
    rewrite !slots_held_split, (live_uploads_same s) by done. unfold download_slots. cbn -[size count_if].
    rewrite length_delete by by eexists. lia. }
  repeat case_match; try done; by apply (bounded_same (with_taken s (verifying s) (delete i (committing s)))).
Qed.

(** A command that ends, or goes on without its slot. *)
Lemma with_starting_bounded s n l : bounded s → (count_if holds_slot l <= count_if holds_slot (starting s))%nat →
  bounded (with_starting s n l).
Proof.
  intros Hb Hl. apply (bounded_intro s); [done| |apply Hb|apply Hb].
  rewrite !slots_held_split, (live_uploads_same s) by done. unfold download_slots. cbn -[size count_if]. lia.
Qed.

Lemma count_if_delete {A} (f : A → bool) l i x : l !! i = Some x →
  count_if f (delete i l) = (count_if f l - (if f x then 1 else 0))%nat.
Proof. intros Hi. rewrite (count_if_take f l i x Hi). lia. Qed.

Lemma count_if_insert {A} (f : A → bool) l i x y : l !! i = Some x →
  count_if f (<[i := y]> l) = ((if f y then 1 else 0) + count_if f (delete i l))%nat.
Proof.
  intros Hi. rewrite (count_if_take f (<[i := y]> l) i y) by (apply list_lookup_insert_eq; by eapply lookup_lt_Some).
  f_equal. revert i Hi. induction l as [|z l IH]; intros [|i] Hi; try done.
  change (delete (S i) (z :: l)) with (z :: delete i l). change (delete (S i) _) with (z :: delete i (<[i := y]> l)).
  by rewrite !count_if_cons, (IH i).
Qed.

Lemma acquire_bounded o s : bounded s → bounded (acquire o s).2.
Proof.
  intros Hb. unfold acquire. destruct (_ <? _)%nat eqn:Hlt; [|done]. apply Nat.ltb_lt in Hlt. cbn [snd].
  split; [|apply Hb..]. rewrite slots_held_split, (live_uploads_same s) by done. rewrite slots_held_split in Hlt.
  unfold download_slots in *. cbn -[size count_if MAX_ACTIVE_FILE_TRANSFERS] in *.
  rewrite count_if_app. change (count_if holds_slot [Holding o]) with 1%nat. lia.
Qed.

Lemma download_file_bounded k remote tgt tmp allow create s : phone_ok s →
  bounded s → bounded (download_file k remote tgt tmp allow create s).2.
Proof.
  intros Hok Hb. unfold download_file. destruct (starting s !! k) as [[o|? ? ? ?]|] eqn:Hk; [|done..].
  pose proof (fresh_id _ _ _ _ _ Hok) as Hid.
  pose proof (count_if_delete holds_slot _ _ _ Hk) as Hdel. pose proof (count_if_take holds_slot _ _ _ Hk) as Htake.
  cbn [holds_slot] in *. destruct (create_new create tmp (files s)) as [[i|] f]; cbn [snd].
  - apply (bounded_intro s); [done|..].
    + rewrite !slots_held_split, (live_uploads_same s) by done. unfold download_slots. cbn -[size count_if].
      rewrite (count_if_insert _ _ _ _ _ Hk), map_size_insert_None by done. cbn [holds_slot]. lia.
    + erewrite live_total_take by apply lookup_insert_eq. cbn [downloads with_downloads with_files with_starting].
      rewrite delete_insert_eq, delete_id by done. apply Hb.
    + unfold open_downloads. cbn -[all_open]. rewrite open_put by done. constructor; [split; simpl; by split|apply Hb].
  - apply (bounded_same (with_starting s (next_id s + 1) (delete k (starting s)))); try done.
    apply with_starting_bounded; [done|]. lia.
Qed.

Lemma upload_file_bounded k remote size mode allow s : bounded s → bounded (upload_file k remote size mode allow s).2.
Proof.
  intros Hb. unfold upload_file. destruct (starting s !! k) as [[o|? ? ? ?]|] eqn:Hk; [|done..]. cbn [snd].
  set (n := fresh (dom (objects s))). set (s' := with_uploads _ _ _ _).
  apply (bounded_intro s); [done| |apply Hb|apply Hb]. rewrite !slots_held_split.
  assert (Hle : (base.size (live_uploads s') <= 1 + base.size (live_uploads s))%nat).
  { rewrite <-(size_singleton (C := gset nat) n). apply live_uploads_le. intros m Hm Hlv. cbn in Hm.
    rewrite dom_insert in Hm. destruct (decide (m = n)) as [->|Hne]; [left; set_solver|right].
    split; [set_solver|]. apply live_spec. apply live_spec in Hlv as [(id & Hid)|(t & Hin & <- & Hen)]; cbn in *.
    - left. apply lookup_insert_Some in Hid as [[_ ?]|[_ ?]]; [done|by exists id].
    - right. apply elem_of_app in Hin as [Hin| ->%list_elem_of_singleton]; [by exists t|done]. }
  change (download_slots s') with (download_slots s). change (starting s') with (delete k (starting s)).
  pose proof (count_if_take holds_slot _ _ _ Hk) as Htake. cbn [holds_slot] in Htake.
  rewrite Htake. lia.
Qed.

Lemma request_download_bounded k queued rm s : bounded s → bounded (request_download k queued rm s).2.
Proof.
  intros Hb. unfold request_download. destruct (starting s !! k) as [[?|o id remote allow]|] eqn:Hk; [done| |done].
  assert (Hout : bounded (with_starting s (next_id s) (delete k (starting s)))).
  { apply with_starting_bounded; [done|]. rewrite (count_if_delete _ _ _ _ Hk). cbn [holds_slot]. lia. }
  destruct queued; [done|]. cbn [downloads with_starting]. destruct (downloads s !! id) as [d|] eqn:Hd; [|done].
  by apply (drop_bounded rm (with_starting s (next_id s) (delete k (starting s)))).
Qed.

Lemma spawn_bounded id n u from link s : bounded s → objects s !! n = Some u → (∃ id', uploads s !! id' = Some n) →
  bounded (spawn_upload_range id n u from link s).
Proof.
  intros Hb Hn Hid. apply uploads_bounded; [done|by apply dom_insert_lookup_L| |].
  - intros id' m Hm. by exists id'.
  - intros t [Hin| ->%list_elem_of_singleton]%elem_of_app Hen; [left; by exists t|by right].
Qed.

Lemma file_err_bounded o id reason rm s : bounded s → bounded (file_err o id reason rm s).2.
Proof.
  intros Hb. unfold file_err. destruct (is_probe id); [by apply answer_bounded|].
  set (p := match owned_download o id s with Some d => _ | None => _ end).
  assert (Hp : bounded p.2).
  { unfold p. destruct (owned_download o id s) as [d|] eqn:Hd; [|done]. apply owned_download_Some in Hd as [Hd _].
    by apply drop_bounded. }
  clearbody p. destruct p as [out s1]. cbn [snd] in Hp.
  destruct (owned_upload o id s1) as [[n u]|] eqn:Hu; [|done]. apply owned_upload_Some in Hu as (_ & Hn & _).
  apply uploads_bounded; [done|by apply dom_insert_lookup_L| |].
  - intros id' m [_ ?]%lookup_delete_Some. by exists id'.
  - intros t Hin Hen. left. by exists t.
Qed.

Lemma purge_downloads_bounded o rm s : bounded s → bounded (purge_downloads o rm s).2.
Proof.
  unfold purge_downloads. cbn [snd]. set (l := List.filter _ _).
  assert (Hnd : NoDup (fst <$> l)) by apply map_entries_NoDup.
  assert (Hin : ∀ e, e ∈ l → downloads s !! e.1 = Some e.2) by (intros e He; by apply filter_entries in He as [? _]).
  clearbody l. revert s Hnd Hin. induction l as [|[id d] l IH]; intros s Hnd Hin Hb; [done|].
  rewrite fmap_cons in Hnd. apply NoDup_cons in Hnd as [Hni Hnd]. cbn [foldl]. apply IH; [done| |].
  - intros e He. cbn. rewrite lookup_delete_ne; [apply Hin; by right|]. intros Heq. apply Hni. simpl. rewrite Heq.
    by apply list_elem_of_fmap_2.
  - apply drop_bounded; [done|]. apply (Hin (id, d)). left.
Qed.

Lemma purge_uploads_bounded o s : bounded s → bounded (purge_uploads o s).2.
Proof.
  unfold purge_uploads. cbn [snd]. generalize (List.filter (λ e, foreign o s e.2) (map_to_list (uploads s))). intros l.
  revert s. induction l as [|e l IH]; intros s Hb; [done|]. cbn [foldl]. apply IH. apply uploads_bounded; [done|..].
  - apply dom_alter_L.
  - intros id' m [_ ?]%lookup_delete_Some. by exists id'.
  - intros t Hin Hen. left. by exists t.
Qed.

(** A task of a live upload moves on. *)
Lemma move_bounded i t ph s o' u' : bounded s → tasks s !! i = Some t → is_ended t = false → dom o' = dom (objects s) →
  (∀ id m, u' !! id = Some m → uploads s !! id = Some m) →
  bounded (with_uploads s o' u' (<[i := set_phase ph t]> (tasks s))).
Proof.
  intros Hb Hi Hen Hdom Hu. apply uploads_bounded; [done|done|..].
  - intros id m Hm. exists id. by apply Hu.
  - intros t' [->|Hin]%insert_elem Hen'; left; [|by exists t'].
    exists t. split; [by eapply list_elem_of_lookup_2|done].
Qed.

Lemma task_fails_bounded i t u m s : bounded s → tasks s !! i = Some t → objects s !! t_upload t = Some u →
  is_ended t = false → bounded (task_fails i t u m s).2.
Proof.
  intros Hb Hi Hu Hen. unfold task_fails. destruct (negb _); [by apply move_bounded|]. cbn [snd].
  apply (move_bounded i t Ended s); [done|done|done|by apply dom_insert_lookup_L|]. intros id m'. case_match; cbn [uploads with_uploads]; [|done].
  by intros [_ ?]%lookup_delete_Some.
Qed.

Lemma task_step_bounded blake3 i e s : bounded s → bounded (task_step blake3 i e s).2.
Proof.
  intros Hb. unfold task_step. destruct (tasks s !! i) as [t|] eqn:Hi; [|done].
  destruct (objects s !! t_upload t) as [u|] eqn:Hu; [|done].
  destruct (is_ended t) eqn:Hen; [unfold is_ended in Hen; by destruct (t_phase t)|].
  assert (Hmove : ∀ ph, bounded (move i t ph s)) by (intros; by apply move_bounded).
  assert (Hfail : ∀ m, bounded (task_fails i t u m s).2) by (intros; by apply task_fails_bounded).
  destruct (t_phase t) eqn:Hph; try (repeat case_match; cbn [snd]; by auto).
  destruct e; try done. destruct sent; cbn [snd].
  - apply (uploads_bounded s); [done|by apply dom_insert_lookup_L| |]; cbn.
    + intros id m Hm. by exists id.
    + intros t' [[->|Hin]%insert_elem| ->%list_elem_of_singleton]%elem_of_app Hen'; [done|left; by exists t'|].
      left. exists t. split; [by eapply list_elem_of_lookup_2|done].
  - apply (move_bounded i t Ended s); [done|done|done|done|]. cbn [uploads with_uploads].
    by intros id m [_ ?]%lookup_delete_Some.
Qed.

Lemma phone_step_bounded blake3 op s : phone_ok s → bounded s → bounded (phone_step blake3 op s).2.
Proof.
  intros Hok Hb. destruct op; cbn [phone_step].
  - by apply acquire_bounded.
  - unfold abandon. destruct (starting s !! k) as [[o|? ? ? ?]|] eqn:Hk; [|done..]. cbn [snd].
    apply with_starting_bounded; [done|]. rewrite (count_if_delete _ _ _ _ Hk). lia.
  - by apply download_file_bounded.
  - by apply request_download_bounded.
  - by apply upload_file_bounded.
  - unfold probe_download. destruct queued; by apply (bounded_same s).
  - unfold probe_timeout. repeat case_match; [by apply (bounded_same s)|done].
  - by apply file_chunk_bounded.
  - by apply file_done_bounded.
  - by apply verify_bounded.
  - by apply document_commit_bounded.
  - unfold file_retry. destruct (owned_upload o id s) as [[n u]|] eqn:Hu; [|done].
    apply owned_upload_Some in Hu as (Hid & Hn & _). apply spawn_bounded; [done..|by exists id].
  - by apply file_err_bounded.
  - by apply purge_downloads_bounded.
  - by apply purge_uploads_bounded.
  - done.
  - by apply task_step_bounded.
Qed.

Lemma idle_bounded s : idle s → bounded s.
Proof.
  intros (_ & Hs & Hd & Hv & Hc & Ho & _). split.
  - assert (Hl : live_uploads s = ∅) by (unfold live_uploads; rewrite Ho; set_solver).
    rewrite slots_held_split, Hl, size_empty. unfold download_slots. rewrite Hs, Hd, Hv, Hc, map_size_empty. apply Nat.le_0_l.
  - unfold live_total. rewrite Hd, map_to_list_empty. done.
  - unfold open_downloads, all_open. rewrite Hd, Hv, Hc, map_to_list_empty. by constructor.
Qed.

(** One task at a time holds an upload's file. *)
Definition one_reader (s : Phone) : Prop :=
  ∀ i j t t', tasks s !! i = Some t → tasks s !! j = Some t' → holds_file t = true → holds_file t' = true →
    t_upload t = t_upload t' → i = j.

Lemma one_reader_tasks s s' : tasks s' = tasks s → one_reader s → one_reader s'.
Proof. intros Ht H i j t t'. rewrite Ht. apply H. Qed.

Lemma one_reader_app s o' u' t : holds_file t = false → one_reader s → one_reader (with_uploads s o' u' (tasks s ++ [t])).
Proof.
  intros Ht H i j t1 t2 Hi Hj H1 H2 Heq. cbn in Hi, Hj.
  assert (Hin : ∀ k x, (tasks s ++ [t]) !! k = Some x → holds_file x = true → tasks s !! k = Some x).
  { intros k x [Hk|[_ Hk]]%lookup_app_Some Hx; [done|]. apply list_lookup_singleton_Some in Hk as [_ <-]. congruence. }
  eapply H; eauto.
Qed.

(** A task that held the file, or finds it free, or does not hold it now. *)
Lemma one_reader_move s i t ph o' u' : tasks s !! i = Some t →
  holds_file (set_phase ph t) = false ∨ holds_file t = true ∨ file_free (t_upload t) s = true →
  one_reader s → one_reader (with_uploads s o' u' (<[i := set_phase ph t]> (tasks s))).
Proof.
  intros Hi Hc H j k t1 t2 Hj Hk H1 H2 Heq. cbn in Hj, Hk.
  assert (Hother : ∀ m x, m ≠ i → tasks s !! m = Some x → holds_file x = true → t_upload x = t_upload t →
    holds_file (set_phase ph t) = true → False).
  { intros m x Hne Hm Hx Hu Hph. destruct Hc as [Hc|[Hc|Hc]]; [congruence|by apply Hne; eapply H|].
    apply negb_true_iff in Hc. rewrite <-not_true_iff_false in Hc. apply Hc. apply existsb_exists. exists x.
    split; [by eapply list_elem_of_In, list_elem_of_lookup_2|]. rewrite Hx, andb_true_r. by apply Nat.eqb_eq. }
  apply list_lookup_insert_Some in Hj as [(<- & <- & _)|[Hj Hj']], Hk as [(Hk1 & <- & _)|[Hk Hk']]; try done.
  - exfalso. by apply (Hother k t2).
  - subst k. exfalso. by apply (Hother j t1).
  - eapply H; eauto.
Qed.

Lemma task_fails_one_reader i t u m s : tasks s !! i = Some t → one_reader s → one_reader (task_fails i t u m s).2.
Proof.
  intros Hi H. unfold task_fails. destruct (negb _); cbn [snd]; apply (one_reader_move s); auto.
Qed.

Lemma phone_step_one_reader blake3 op s : one_reader s → one_reader (phone_step blake3 op s).2.
Proof.
  intros H. destruct op; cbn [phone_step].
  - unfold acquire. by repeat case_match.
  - unfold abandon. by repeat case_match.
  - unfold download_file. by repeat case_match.
  - unfold request_download. by repeat case_match.
  - unfold upload_file. destruct (starting s !! k) as [[o|? ? ? ?]|]; [|done..].
    by apply (one_reader_app (with_starting s (next_id s + 1) (delete k (starting s)))).
  - unfold probe_download. by repeat case_match.
  - unfold probe_timeout. by repeat case_match.
  - unfold file_chunk, answer. by repeat case_match.
  - unfold file_done, answer. by repeat case_match.
  - unfold verify. by repeat case_match.
  - unfold document_commit. by repeat case_match.
  - unfold file_retry. destruct (owned_upload o id s) as [[n u]|]; [|done]. by apply one_reader_app.
  - unfold file_err, answer. destruct (is_probe id); [by repeat case_match|].
    destruct (owned_download o id s) as [d|]; destruct (owned_upload _ _ _) as [[n u]|]; done.
  - unfold purge_downloads. cbn [snd]. generalize (List.filter (λ e, negb (bool_decide (owner e.2 = o))) (map_to_list (downloads s))).
    intros l. revert s H. induction l as [|e l IH]; intros s H; [done|]. cbn [foldl]. by apply IH.
  - unfold purge_uploads. cbn [snd]. generalize (List.filter (λ e, foreign o s e.2) (map_to_list (uploads s))).
    intros l. revert s H. induction l as [|e l IH]; intros s H; [done|]. cbn [foldl]. by apply IH.
  - done.
  - unfold task_step. destruct (tasks s !! i) as [t|] eqn:Hi; [|done].
    destruct (objects s !! t_upload t) as [u|] eqn:Hu; [|done].
    assert (Hend : one_reader (move i t Ended s)) by (apply (one_reader_move s); auto).
    assert (Hfail : ∀ m, one_reader (task_fails i t u m s).2) by (intros; by apply task_fails_one_reader).
    assert (Hmove : holds_file t = true ∨ file_free (t_upload t) s = true → ∀ ph, one_reader (move i t ph s)).
    { intros Hc ph. apply (one_reader_move s); auto. }
    unfold holds_file in Hmove. destruct (t_phase t) eqn:Hph, e; try done.
    + destruct sent; cbn [snd]; [|apply (one_reader_move s); auto].
      apply (one_reader_app (move i t Ended s)); [done|exact Hend].
    + destruct (file_free _ _) eqn:Hf; [|done]. destruct rewound; [|apply Hfail]. apply Hmove. by right.
    + repeat case_match; cbn [snd]; auto.
    + repeat case_match; cbn [snd]; auto.
    + destruct ok; cbn [snd]; auto.
    + destruct ok; cbn [snd]; auto.
Qed.


(** ** What a streaming task sends *)

(** Its events when every read gives one of [cs] and every frame is taken. *)
Fixpoint upload_events (from seq : Z) (cs : list bytes) : list TaskEvent :=
  match cs with
  | [] => [Read []; Sent true]
  | c :: cs => Read c :: (if from <=? seq then [Sent true] else []) ++ upload_events from (seq + 1) cs
  end.

Definition stream_frames (t : Task) (u : UploadTransfer) (blake3 : bytes → bytes) (seq : Z) (h : bytes) (cs : list bytes) :=
  Transfer.frames_from (t_id t) (t_from t) seq cs ++ [Frame_FileDone (t_id t) (u_size u) (blake3 (h ++ concat cs))].

Lemma phone_run_app blake3 l1 l2 s :
  phone_run blake3 (l1 ++ l2) s =
    let '(out1, s1) := phone_run blake3 l1 s in let '(out2, s2) := phone_run blake3 l2 s1 in (out1 ++ out2, s2).
Proof.
  revert s. induction l1 as [|op l1 IH]; intros s; [cbn [app phone_run]; by destruct (phone_run blake3 l2 s)|].
  cbn [app phone_run]. destruct (phone_step blake3 op s) as [out s1]. rewrite IH.
  destruct (phone_run blake3 l1 s1) as [out1 s2]. destruct (phone_run blake3 l2 s2) as [out2 s3]. by rewrite app_assoc.
Qed.

Lemma phone_run_one blake3 op ops s :
  phone_run blake3 (op :: ops) s =
    let '(out, s1) := phone_step blake3 op s in let '(outs, s2) := phone_run blake3 ops s1 in (out ++ outs, s2).
Proof. done. Qed.

Lemma move_lookup i t ph s : tasks s !! i = Some t → tasks (move i t ph s) !! i = Some (set_phase ph t).
Proof. intros Hi. apply list_lookup_insert_eq. by eapply lookup_lt_Some. Qed.
Lemma move_move i t ph ph' s : move i (set_phase ph t) ph' (move i t ph s) = move i t ph' s.
Proof. unfold move. cbn. by rewrite list_insert_insert_eq. Qed.

Lemma task_step_at blake3 i e s t u : tasks s !! i = Some t → objects s !! t_upload t = Some u →
  task_step blake3 i e s =
    match t_phase t, e with
    | Announcing mode allow, Announced true =>
        ([Send (t_link t) (Frame_FilePutReq (t_id t) (u_remote_path u) (u_size u) mode allow); Started (t_id t)],
         spawn_upload_range (t_id t) (t_upload t) u 0 (t_link t) (move i t Ended s))
    | Announcing _ _, Announced false =>
        ([Refused "connection closed"],
         move i t Ended (with_uploads s (objects s) (delete (t_id t) (uploads s)) (tasks s)))
    | Waiting, Locked rewound =>
        if negb (file_free (t_upload t) s) then ([], s)
        else if rewound then ([], move i t (Streaming 0 []) s)
        else task_fails i t u "cannot rewind upload" s
    | Streaming seq h, Read data =>
        if cancelled u then ([], move i t Ended s)
        else if negb (epoch u =? t_epoch t) then ([], move i t Ended s)
        else if bool_decide (data = []) then ([], move i t (Finishing h) s)
        else if t_from t <=? seq then ([], move i t (Sending seq data (h ++ data)) s)
        else ([], move i t (Streaming (seq + 1) (h ++ data)) s)
    | Streaming _ _, ReadError =>
        if cancelled u then ([], move i t Ended s)
        else if negb (epoch u =? t_epoch t) then ([], move i t Ended s)
        else task_fails i t u "cannot read upload" s
    | Sending seq data h, Sent true =>
        ([Send (t_link t) (Frame_FileChunk (t_id t) seq data)], move i t (Streaming (seq + 1) h) s)
    | Sending _ _ _, Sent false => task_fails i t u "connection closed during upload" s
    | Finishing h, Sent true =>
        ([Send (t_link t) (Frame_FileDone (t_id t) (u_size u) (blake3 h))], move i t Ended s)
    | Finishing _, Sent false => task_fails i t u "connection closed before upload verification" s
    | _, _ => ([], s)
    end.
Proof. intros Hi Hu. unfold task_step. by rewrite Hi, Hu. Qed.

Lemma stream_run blake3 i t u cs : cancelled u = false → epoch u = t_epoch t → Forall (λ c, c ≠ []) cs →
  ∀ seq h s, tasks s !! i = Some t → t_phase t = Streaming seq h → objects s !! t_upload t = Some u →
  phone_run blake3 (TaskStep i <$> upload_events (t_from t) seq cs) s =
    (Send (t_link t) <$> stream_frames t u blake3 seq h cs, move i t Ended s).
Proof.
  intros Hc He Hcs. revert t He. induction Hcs as [|c cs Hne Hcs IH]; intros t He seq h s Hi Hph Hu.
  - cbn [upload_events fmap list_fmap]. rewrite phone_run_one. cbn [phone_step]. rewrite (task_step_at _ _ _ _ _ _ Hi Hu), Hph, Hc, He, Z.eqb_refl.
    cbn [negb]. rewrite bool_decide_eq_true_2 by done. rewrite phone_run_one. cbn [phone_step].
    rewrite (task_step_at _ _ _ _ (set_phase (Finishing h) t) u) by (by apply move_lookup || done). cbn [t_phase set_phase phone_run].
    rewrite move_move. unfold stream_frames. cbn. by rewrite app_nil_r.
  - cbn [upload_events fmap list_fmap]. rewrite phone_run_one. cbn [phone_step]. rewrite (task_step_at _ _ _ _ _ _ Hi Hu), Hph, Hc, He, Z.eqb_refl.
    cbn [negb]. rewrite bool_decide_eq_false_2 by done. unfold stream_frames in *. cbn [Transfer.frames_from concat].
    destruct (t_from t <=? seq).
    + cbn [app fmap list_fmap]. rewrite phone_run_one. cbn [phone_step].
      rewrite (task_step_at _ _ _ _ (set_phase (Sending seq c (h ++ c)) t) u) by (by apply move_lookup || done).
      cbn [t_phase set_phase t_link t_id].
      specialize (IH (set_phase (Streaming (seq + 1) (h ++ c)) t) He (seq + 1) (h ++ c)
        (move i t (Streaming (seq + 1) (h ++ c)) s)).
      cbn [t_from set_phase t_id t_link] in IH. fold (set_phase (Sending seq c (h ++ c)) t). rewrite move_move, IH; [|by apply move_lookup|done|done].
      by rewrite move_move, <-app_assoc.
    + cbn [app].
      specialize (IH (set_phase (Streaming (seq + 1) (h ++ c)) t) He (seq + 1) (h ++ c)
        (move i t (Streaming (seq + 1) (h ++ c)) s)).
      cbn [t_from set_phase t_id t_link] in IH. rewrite IH; [|by apply move_lookup|done|done].
      by rewrite move_move, <-app_assoc.
Qed.

Lemma waiting_run blake3 i t u cs s :
  tasks s !! i = Some t → t_phase t = Waiting → objects s !! t_upload t = Some u →
  cancelled u = false → epoch u = t_epoch t → file_free (t_upload t) s = true → Forall (λ c, c ≠ []) cs →
  phone_run blake3 (TaskStep i <$> Locked true :: upload_events (t_from t) 0 cs) s =
    (Send (t_link t) <$> stream_frames t u blake3 0 [] cs, move i t Ended s).
Proof.
  intros Hi Hph Hu Hc He Hfree Hcs. cbn [fmap list_fmap]. rewrite phone_run_one. cbn [phone_step].
  rewrite (task_step_at _ _ _ _ _ _ Hi Hu), Hph, Hfree. cbn [negb].
  pose proof (stream_run blake3 i (set_phase (Streaming 0 []) t) u cs Hc He Hcs 0 [] (move i t (Streaming 0 []) s)) as Hrun.
  cbn [t_from set_phase] in Hrun. rewrite Hrun; [|by apply move_lookup|done|done]. by rewrite move_move.
Qed.

(** The task a host's request or retry starts on an upload, given the file, reads
    it from its beginning: whatever the sizes of the reads, it sends exactly the
    reads from the requested one on, each once, in order, under its number and over
    the link it was started for, and at the end the length the upload was announced
    with and the checksum of everything read, the skipped part included; it changes
    nothing else. *)
Theorem upload_task_streams_the_file blake3 i t u cs s
    (Ht : tasks s !! i = Some t) (Hph : t_phase t = Waiting) (Hu : objects s !! t_upload t = Some u)
    (Hlive : cancelled u = false ∧ epoch u = t_epoch t) (Hfree : file_free (t_upload t) s = true)
    (Hcs : Forall (λ c, c ≠ []) cs) (Hfrom : 0 <= t_from t) :
  phone_run blake3 (TaskStep i <$> Locked true :: upload_events (t_from t) 0 cs) s =
    (Send (t_link t) <$> imap (λ k b, Frame_FileChunk (t_id t) (t_from t + Z.of_nat k) b) (drop (Z.to_nat (t_from t)) cs)
       ++ [Frame_FileDone (t_id t) (u_size u) (blake3 (concat cs))],
     move i t Ended s).
Proof.
  destruct Hlive as [Hc He]. rewrite (waiting_run blake3 i t u cs s) by done. unfold stream_frames.
  rewrite Transfer.frames_from_imap, (Z.max_l _ 0) by lia. by rewrite Z.sub_0_r.
Qed.

(** ** What is not counted, and what is never released *)

(** A download a host says is done leaves the sum that new chunks are held against
    while it is verified and copied; its temporary and what it holds stay. *)
Theorem a_download_being_verified_is_not_counted o id size checksum d s
    (Hid : is_probe id = false) (Hown : owned_download o id s = Some d) :
  let s' := (file_done o id size checksum s).2 in
  live_total s' = live_total s - written d ∧ (id, d) ∈ open_downloads s' ∧
  fs_read (temporary d) (files s') = fs_read (temporary d) (files s).
Proof.
  unfold file_done. rewrite Hid, Hown. apply owned_download_Some in Hown as [Hd _]. cbn [snd]. split_and!.
  - rewrite (live_total_take _ _ _ Hd). change (live_total _) with (total (map_to_list (delete id (downloads s)))). lia.
  - unfold open_downloads, all_open. cbn. rewrite fmap_app. set_solver.
  - done.
Qed.

(** The host was sent the whole of an upload - its tasks are over - and has not
    answered: [n] is the upload, registered under [id] alone. *)
Record unanswered (o : TransferOwner) (id : TransferId) (n : nat) (s : Phone) : Prop := {
  un_entry : uploads s !! id = Some n;
  un_owner : ∃ u, objects s !! n = Some u ∧ u_owner u = o;
  un_alone : ∀ id', uploads s !! id' = Some n → id' = id;
  un_tasks : ∀ t, t ∈ tasks s → t_id t = id ∨ t_upload t = n → is_ended t = true;
  un_id : id < next_id s;
}.

(** Any step but an answer of the host to this upload or a link to another host. *)
Definition not_about (o : TransferOwner) (id : TransferId) (op : Op) : Prop :=
  match op with
  | FileDone o' i _ _ | FileErr o' i _ _ | FileRetry o' i _ => o' ≠ o ∨ i ≠ id
  | PurgeUploads o' => o' = o
  | _ => True
  end.

Lemma unanswered_same o id n s s' : uploads s' = uploads s → objects s' = objects s → tasks s' = tasks s →
  next_id s <= next_id s' → unanswered o id n s → unanswered o id n s'.
Proof. intros Hu Ho Ht Hn [A1 A2 A3 A4 A5]. split; rewrite ?Hu, ?Ho, ?Ht; (done || lia). Qed.

(** Other uploads and their tasks change. *)
Lemma unanswered_others o id n s o' u' ts' : unanswered o id n s →
  u' !! id = Some n → o' !! n = objects s !! n → (∀ id', u' !! id' = Some n → id' = id) →
  (∀ t, t ∈ ts' → t ∈ tasks s ∨ is_ended t = true ∨ t_id t ≠ id ∧ t_upload t ≠ n) →
  unanswered o id n (with_uploads s o' u' ts').
Proof.
  intros [A1 A2 A3 A4 A5] Hu Ho Ha Ht. split; cbn; try done; [by rewrite Ho|].
  intros t Hin Hor. destruct (Ht t Hin) as [?|[?|[? ?]]]; [by apply A4|done|]. by destruct Hor.
Qed.

Lemma unanswered_other_owned o id n s o' id' n' u' : unanswered o id n s → o' ≠ o ∨ id' ≠ id →
  owned_upload o' id' s = Some (n', u') → id' ≠ id ∧ n' ≠ n.
Proof.
  intros [A1 (u & A2 & Ao) A3 _ _] Hor (H1 & H2 & H3)%owned_upload_Some.
  assert (n' ≠ n → id' ≠ id) by (intros Hn Hi; subst; congruence).
  destruct (decide (n' = n)) as [->|Hn]; [|by auto]. pose proof (A3 _ H1). subst id'. destruct Hor; [|done]. congruence.
Qed.

Lemma task_fails_unanswered o id n i t u m s : unanswered o id n s → tasks s !! i = Some t → t_id t ≠ id → t_upload t ≠ n →
  unanswered o id n (task_fails i t u m s).2.
Proof.
  intros Hun Hi H1 H2. unfold task_fails.
  assert (Hts : ∀ t', t' ∈ <[i := set_phase Ended t]> (tasks s) → t' ∈ tasks s ∨ is_ended t' = true ∨ t_id t' ≠ id ∧ t_upload t' ≠ n).
  { intros t' [->|?]%insert_elem; [right; by left|by left]. }
  destruct (negb _); cbn [snd].
  - apply (unanswered_others o id n s); [done|apply Hun|done|apply Hun|done].
  - apply (unanswered_others o id n s); [done|..|done].
    + cbn. case_match; [rewrite lookup_delete_ne by done|]; apply Hun.
    + cbn. by rewrite lookup_insert_ne.
    + intros id'. cbn. case_match; [|apply Hun]. intros [_ ?]%lookup_delete_Some. by apply (un_alone _ _ _ _ Hun).
Qed.

Lemma task_step_unanswered blake3 o id n i e s : unanswered o id n s → unanswered o id n (task_step blake3 i e s).2.
Proof.
  intros Hun. unfold task_step. destruct (tasks s !! i) as [t|] eqn:Hi; [|done].
  destruct (objects s !! t_upload t) as [u|] eqn:Hu; [|done].
  destruct (is_ended t) eqn:Hen; [unfold is_ended in Hen; by destruct (t_phase t)|].
  assert (Hne : t_id t ≠ id ∧ t_upload t ≠ n).
  { assert (Hin : t ∈ tasks s) by by eapply list_elem_of_lookup_2.
    split; intros Heq; rewrite (un_tasks _ _ _ _ Hun t Hin) in Hen; auto; done. }
  destruct Hne as [H1 H2].
  assert (Hmove : ∀ ph, unanswered o id n (move i t ph s)).
  { intros ph. apply unanswered_others; [done|apply Hun|done|apply Hun|]. intros t' [->|?]%insert_elem; [right; by right|by left]. }
  assert (Hfail : ∀ m, unanswered o id n (task_fails i t u m s).2) by (intros; by apply task_fails_unanswered).
  destruct (t_phase t) eqn:Hph; try (repeat case_match; cbn [snd]; by auto).
  destruct e; try done. destruct sent; cbn [snd].
  - apply (unanswered_others o id n s); [done|apply Hun| |apply Hun|]; cbn.
    + by rewrite lookup_insert_ne.
    + intros t' [[->|?]%insert_elem| ->%list_elem_of_singleton]%elem_of_app; [right; by left|by left|by right; right].
  - apply (unanswered_others o id n s); [done|..]; cbn.
    + rewrite lookup_delete_ne by done. apply Hun.
    + done.
    + intros id' [_ ?]%lookup_delete_Some. by apply (un_alone _ _ _ _ Hun).
    + intros t' [->|?]%insert_elem; [right; by left|by left].
Qed.

Lemma purge_uploads_unanswered o id n s : unanswered o id n s → unanswered o id n (purge_uploads o s).2.
Proof.
  intros Hun. unfold purge_uploads. cbn [snd]. set (l := List.filter _ _).
  assert (Hl : ∀ e, e ∈ l → e.1 ≠ id ∧ e.2 ≠ n).
  { intros e [He Hf]%filter_entries. destruct (un_owner _ _ _ _ Hun) as (u & Hu & Ho). pose proof (un_entry _ _ _ _ Hun).
    assert (e.2 ≠ n). { intros Heq. unfold foreign in Hf. by rewrite Heq, Hu, Ho, bool_decide_eq_true_2 in Hf. }
    split; [|done]. intros Heq. rewrite Heq in He. congruence. }
  clearbody l. revert s Hun. induction l as [|e l IH]; intros s Hun; [done|]. cbn [foldl].
  destruct (Hl e ltac:(left)) as [H1 H2]. apply IH; [intros x Hx; apply Hl; by right|].
  apply unanswered_others; [done|..]; cbn.
  - rewrite lookup_delete_ne by done. apply Hun.
  - by rewrite lookup_alter_ne.
  - intros id' [_ ?]%lookup_delete_Some. by apply (un_alone _ _ _ _ Hun).
  - by left.
Qed.

Lemma phone_step_unanswered blake3 op o id n s : not_about o id op → unanswered o id n s →
  unanswered o id n (phone_step blake3 op s).2.
Proof.
  intros Hna Hun. destruct op; cbn [phone_step not_about] in *.
  - unfold acquire. case_match; [|done]. by apply (unanswered_same o id n s).
  - unfold abandon. repeat case_match; try done; apply (unanswered_same o id n s); cbn; (done || lia).
  - unfold download_file. repeat case_match; try done; apply (unanswered_same o id n s); cbn; (done || lia).
  - unfold request_download. repeat case_match; try done; apply (unanswered_same o id n s); cbn; (done || lia).
  - unfold upload_file. destruct (starting s !! k) as [[o0|? ? ? ?]|]; [|done..]. cbn [snd].
    pose proof (un_id _ _ _ _ Hun) as Hlt. destruct (un_owner _ _ _ _ Hun) as (u & Hu & _).
    assert (Hn : fresh (dom (objects s)) ≠ n).
    { intros Heq. apply (is_fresh (dom (objects s))). rewrite Heq. apply elem_of_dom. by exists u. }
    apply unanswered_others.
    + apply (unanswered_same o id n s); cbn; (done || lia).
    + rewrite lookup_insert_ne by lia. apply Hun.
    + cbn. by rewrite lookup_insert_ne.
    + intros id'. rewrite lookup_insert_Some. intros [[_ ?]|[_ ?]]; [done|]. by apply (un_alone _ _ _ _ Hun).
    + intros t [?| ->%list_elem_of_singleton]%elem_of_app; [by left|right; right]. cbn. split; [lia|done].
  - unfold probe_download. destruct queued; apply (unanswered_same o id n s); cbn; (done || lia).
  - unfold probe_timeout. case_match; [|done]. by apply (unanswered_same o id n s).
  - unfold file_chunk, answer. repeat case_match; try done; by apply (unanswered_same o id n s).
  - unfold file_done. destruct (is_probe id0).
    { unfold answer. repeat case_match; try done; by apply (unanswered_same o id n s). }
    destruct (owned_download _ _ _) as [d|]; [by apply (unanswered_same o id n s)|].
    destruct (owned_upload o0 id0 s) as [[n' u']|] eqn:Hu; [|done].
    destruct (unanswered_other_owned _ _ _ _ _ _ _ _ Hun Hna Hu) as [Hid Hn']. cbn [snd].
    apply unanswered_others; [done| |done| |by left].
    + rewrite lookup_delete_ne by done. apply Hun.
    + intros id' [_ ?]%lookup_delete_Some. by apply (un_alone _ _ _ _ Hun).
  - unfold verify. repeat case_match; try done; by apply (unanswered_same o id n s).
  - unfold document_commit. repeat case_match; try done; by apply (unanswered_same o id n s).
  - unfold file_retry. destruct (owned_upload o0 id0 s) as [[n' u']|] eqn:Hu; [|done].
    destruct (unanswered_other_owned _ _ _ _ _ _ _ _ Hun Hna Hu) as [Hid Hn']. cbn [snd].
    apply unanswered_others; [done|apply Hun| |apply Hun|].
    + by rewrite lookup_insert_ne.
    + intros t [?| ->%list_elem_of_singleton]%elem_of_app; [by left|by right; right].
  - unfold file_err. destruct (is_probe id0).
    { unfold answer. repeat case_match; try done; by apply (unanswered_same o id n s). }
    set (p := match owned_download o0 id0 s with Some d => _ | None => _ end).
    assert (Hp : unanswered o id n p.2) by (unfold p; case_match; [by apply (unanswered_same o id n s)|done]).
    clearbody p. destruct p as [out s1]. cbn [snd] in Hp.
    destruct (owned_upload o0 id0 s1) as [[n' u']|] eqn:Hu; [|done].
    destruct (unanswered_other_owned _ _ _ _ _ _ _ _ Hp Hna Hu) as [Hid Hn']. cbn [snd].
    apply unanswered_others; [done|..|by left].
    + rewrite lookup_delete_ne by done. apply Hp.
    + by rewrite lookup_insert_ne.
    + intros id' [_ ?]%lookup_delete_Some. by apply (un_alone _ _ _ _ Hp).
  - unfold purge_downloads. cbn [snd]. generalize (List.filter (λ e, negb (bool_decide (owner e.2 = o0))) (map_to_list (downloads s))).
    intros l. revert s Hun. induction l as [|e l IH]; intros s Hun; [done|]. cbn [foldl]. apply IH. by apply (unanswered_same o id n s).
  - subst o0. by apply purge_uploads_unanswered.
  - done.
  - by apply task_step_unanswered.
Qed.

(** An upload that was sent whole when its link broke, before the host's answer,
    is never released: the hosts' transfers end with their link, so no frame names
    it again, and whatever else happens - new links to the same host included - it
    stays registered and holds one of the four slots. *)
Theorem unanswered_uploads_keep_their_slot blake3 o id n ops s
    (Hun : unanswered o id n s) (Hops : Forall (not_about o id) ops) :
  let s' := (phone_run blake3 ops s).2 in
  uploads s' !! id = Some n ∧ n ∈ live_uploads s' ∧ (1 <= slots_held s')%nat.
Proof.
  assert (H : unanswered o id n (phone_run blake3 ops s).2).
  { apply (phone_run_inv blake3 (unanswered o id n) (not_about o id)); [intros; by apply phone_step_unanswered|done|done]. }
  set (s' := (phone_run blake3 ops s).2) in *. clearbody s'. cbn zeta. pose proof (un_entry _ _ _ _ H) as He.
  assert (Hin : n ∈ live_uploads s').
  { unfold live_uploads. apply elem_of_filter. destruct (un_owner _ _ _ _ H) as (u & Hu & _).
    split; [apply live_spec; left; by exists id|]. apply elem_of_dom. by exists u. }
  split_and!; [done|done|]. rewrite slots_held_split.
  assert (size (live_uploads s') ≠ 0)%nat by (intros ?%size_empty_iff; set_solver). lia.
Qed.

(** ** The theorems at work *)
Module PhoneTransfersExamples.
#[local] Transparent gmap_empty.

(** A checksum that is the content itself; two hosts and an idle phone. *)
Definition sum (b : bytes) : bytes := b.
Definition host : TransferOwner := {| peer_device_id := [Byte.x01]; pair_id := [Byte.x01] |}.
Definition phone : Phone :=
  {| files := {| Transfer.names := ∅; Transfer.inodes := ∅; Transfer.next_inode := 0 |}; documents := ∅; next_id := 1;
     starting := []; downloads := ∅; verifying := []; committing := []; objects := ∅; uploads := ∅; tasks := [];
     probes := ∅ |}.
Definition io_fine : VerifyIo :=
  {| io_set_len := true; io_seek := true; io_flush := true; io_sync := true; io_rename := true; io_rm := true |}.
Definition io_no_truncation : VerifyIo :=
  {| io_set_len := false; io_seek := true; io_flush := true; io_sync := true; io_rename := true; io_rm := true |}.
Definition photo : path := ["d"; "photo"]%string.
Definition part : path := ["d"; ".portty-download-1"]%string.

Lemma phone_idle : idle phone.
Proof. split; [intros p i Hp; by vm_compute in Hp|by vm_compute]. Qed.

(** A download is started; two chunks arrive. *)
Definition started : list Op :=
  [Acquire host; DownloadFile 0 "p" (Target_Path photo) part false true; RequestDownload 0 true true].
Definition halfway : list Op :=
  started ++ [FileChunk host 1 0 [Byte.x41] WriteOk true; FileChunk host 1 1 [Byte.x42] WriteOk true].
Definition done_op : Op := FileDone host 1 2 [Byte.x41; Byte.x42].

Lemma halfway_ok : Forall op_ok (halfway ++ [done_op]).
Proof. repeat constructor. Qed.


Lemma ownership_witness :
  let s := (phone_run sum halfway phone).2 in
  let op := FileChunk host 1 0 [Byte.x41] WriteOk true in let s' := (phone_step sum op s).2 in
  (∀ o, op_link s op = Some o → others_kept o s s' ∧ ∀ l f, Send l f ∈ [Send host (Frame_FileRetry 1 2)] → l = o) ∧
  (∀ l f id, Send l f ∈ [Send host (Frame_FileRetry 1 2)] → upload_frame f = Some id →
     ∃ t u, t ∈ tasks s ∧ t_id t = id ∧ objects s !! t_upload t = Some u ∧ u_owner u = l).
Proof.
  apply (transfers_stay_with_their_host sum phone halfway (FileChunk host 1 0 [Byte.x41] WriteOk true)
    [Send host (Frame_FileRetry 1 2)] _).
  - exact phone_idle.
  - by repeat constructor.
  - by vm_compute.
Defined.


(** An upload is announced; its task is about to read. *)
Definition uploading : list Op := [Acquire host; UploadFile 0 "p" 2 None false; TaskStep 0 (Announced true)].
Definition reader : Task :=
  {| t_id := 1; t_upload := 0; t_link := host; t_epoch := 1; t_from := 0; t_phase := Waiting |}.
Definition upload : UploadTransfer :=
  {| u_owner := host; u_remote_path := "p"; u_size := 2; cancelled := false; epoch := 1 |}.
Definition sent_whole : list Op := uploading ++ (TaskStep 1 <$> Locked true :: upload_events 0 0 [[Byte.x41]; [Byte.x42]]).

Lemma stream_witness : let s := (phone_run sum uploading phone).2 in
  phone_run sum (TaskStep 1 <$> Locked true :: upload_events 0 0 [[Byte.x41]; [Byte.x42]]) s =
    (Send host <$> imap (λ k b, Frame_FileChunk 1 (0 + Z.of_nat k) b) [[Byte.x41]; [Byte.x42]]
       ++ [Frame_FileDone 1 2 (sum [Byte.x41; Byte.x42])], move 1 reader Ended s).
Proof.
  apply (upload_task_streams_the_file sum 1 reader upload [[Byte.x41]; [Byte.x42]] (phone_run sum uploading phone).2);
    try by vm_compute.
  by repeat constructor.
Defined.

Lemma sent_whole_unanswered : unanswered host 1 0 (phone_run sum sent_whole phone).2.
Proof.
  split.
  - by vm_compute.
  - exists upload. by vm_compute.
  - intros id. change (uploads (phone_run sum sent_whole phone).2) with ({[ 1 := 0%nat ]} : gmap TransferId nat).
    by intros [<- _]%lookup_singleton_Some.
  - intros t Hin _. vm_compute in Hin. repeat (apply elem_of_cons in Hin as [->|Hin]; [done|]). by apply elem_of_nil in Hin.
  - by vm_compute.
Qed.

(** The same host is back. *)
Definition new_link : list Op := [PurgeDownloads host (λ _, true); PurgeUploads host; ResumeDownloads host].
Lemma unanswered_witness : let s' := (phone_run sum new_link (phone_run sum sent_whole phone).2).2 in
  uploads s' !! 1 = Some 0%nat ∧ 0%nat ∈ live_uploads s' ∧ (1 <= slots_held s')%nat.
Proof. apply (unanswered_uploads_keep_their_slot sum host 1 0 new_link); [exact sent_whole_unanswered|by repeat constructor]. Defined.

(** A download that fails verification is cut to nothing and starts over; that the
    cut fails goes unnoticed. Then the old bytes stay after the new ones, and a
    shorter file - changed on the host meanwhile - is reported complete with the
    announced length and checksum although the installed file has neither. *)
Theorem ignored_truncation_installs_old_bytes :
  let ops := halfway ++ [FileDone host 1 9 []; Verify 0 io_no_truncation; FileChunk host 1 0 [Byte.x43] WriteOk true;
                         FileDone host 1 1 [Byte.x43]; Verify 0 io_fine] in
  let '(out, s) := phone_run sum ops phone in
  last out = Some (Complete 1 false) ∧ fs_read photo (files s) = Some [Byte.x43; Byte.x42].
Proof. by vm_compute. Qed.
End PhoneTransfersExamples.
