(* ===== verification/EndToEnd.v ===== *)
(** * EndToEnd: a download over links that break

    The host's streaming task ([Transfer.spawn_download]) and the phone's registry
    ([PhoneTransfers]) put together: on every new link the phone asks for its
    downloads from their first missing chunk, the host streams from there, and the
    link may end after any number of frames. *)

From S2P Require Import Prelude Protocol Transfer PhoneTransfers.
Import PhoneTransfers.

Lemma CHUNK_Z : Z.of_nat CHUNK = FILE_CHUNK_BYTES.
Proof. done. Qed.
#[local] Opaque CHUNK.

Section Link.
Context (blake3 : bytes → bytes).

(** Every system call of the phone succeeds. *)
Definition fine : VerifyIo :=
  {| io_set_len := true; io_seek := true; PhoneTransfers.io_flush := true; PhoneTransfers.io_sync := true;
     PhoneTransfers.io_rename := true; io_rm := true |}.

(** What a session loop does with a frame of a download. *)
Definition receive (o : TransferOwner) (f : Frame) (s : Phone) : list Out * Phone :=
  match f with
  | Frame_FileChunk id seq data => phone_step blake3 (FileChunk o id seq data WriteOk true) s
  | Frame_FileDone id size checksum =>
      phone_run blake3 [FileDone o id size checksum; Verify (length (verifying s)) fine] s
  | Frame_FileErr id reason => phone_step blake3 (FileErr o id reason true) s
  | _ => ([], s)
  end.

Fixpoint receive_all (o : TransferOwner) (fs : list Frame) (s : Phone) : list Out * Phone :=
  match fs with
  | [] => ([], s)
  | f :: fs => let '(out, s1) := receive o f s in let '(outs, s2) := receive_all o fs s1 in (out ++ outs, s2)
  end.

(** The chunk a new link asks for. *)
Definition asks (id : TransferId) (x : Out) : option Z :=
  match x with Send _ (Frame_FileGetReq i _ from _) => if i =? id then Some from else None | _ => None end.
Definition resume_point (o : TransferOwner) (id : TransferId) (s : Phone) : option Z :=
  head (omap (asks id) (resume_downloads o s)).

(** A link on which the first [cut] frames of the host's stream arrive. *)
Definition link_session (o : TransferOwner) (id : TransferId) (content : bytes) (cut : nat) (reads : list ReadEvent)
    (s : Phone) : list Out * Phone :=
  match resume_point o id s with
  | None => ([], s)
  | Some from => receive_all o (take cut (spawn_download blake3 id from content (Z.of_nat (length content)) false reads)) s
  end.

Fixpoint link_sessions (o : TransferOwner) (id : TransferId) (content : bytes) (links : list (nat * list ReadEvent))
    (s : Phone) : list Out * Phone :=
  match links with
  | [] => ([], s)
  | (cut, reads) :: links =>
      let '(out, s1) := link_session o id content cut reads s in
      let '(outs, s2) := link_sessions o id content links s1 in (out ++ outs, s2)
  end.

(** ** A download half way *)

(** [h] has arrived of the download [d0], as [k] chunks; the other downloads have
    written [base]. *)
Record receiving (o : TransferOwner) (id : TransferId) (tgt : path) (base : Z) (h : bytes) (k : nat) (s : Phone) : Prop := {
  rc_ok : phone_ok s;
  rc_entry : ∃ d, downloads s !! id = Some d ∧ owner d = o ∧ PhoneTransfers.target d = Target_Path tgt ∧
    next_seq d = Z.of_nat k ∧ hasher d = h ∧ late_error d = false;
  rc_base : total (map_to_list (delete id (downloads s))) = base;
}.

Lemma receiving_parts o id tgt base h k s : receiving o id tgt base h k s → ∃ d,
  downloads s !! id = Some d ∧ owned_download o id s = Some d ∧ PhoneTransfers.target d = Target_Path tgt ∧
  next_seq d = Z.of_nat k ∧ hasher d = h ∧ PhoneTransfers.written d = Z.of_nat (length h) ∧
  live_total s = Z.of_nat (length h) + base ∧ late_error d = false.
Proof.
  intros [Hok (d & Hd & Ho & Ht & Hn & Hh & Hlate) Hb]. exists d.
  assert (Hde : download_ok (files s) d).
  { unfold phone_ok, open_downloads in Hok. rewrite (open_take _ _ _ _ _ Hd) in Hok.
    destruct Hok as [_ _ _ _ He]. by apply Forall_cons in He as [He _]. }
  assert (Hw : PhoneTransfers.written d = Z.of_nat (length h)) by (rewrite <-Hh; apply (ok_written _ _ Hde)).
  split_and!; [done|by apply owned_download_Some|done..| |done]. by rewrite (live_total_take _ _ _ Hd), Hb, Hw.
Qed.

(** The next chunk. *)
Lemma receive_chunk o id tgt base h k s b :
  is_probe id = false → receiving o id tgt base h k s → (length b <= CHUNK)%nat →
  Z.of_nat (length (h ++ b)) <= MAX_DOWNLOAD_BYTES → base + Z.of_nat (length (h ++ b)) <= MAX_TOTAL_DOWNLOAD_BYTES →
  let '(out, s') := receive o (Frame_FileChunk id (Z.of_nat k) b) s in
  out = [] ∧ receiving o id tgt base (h ++ b) (S k) s'.
Proof.
  intros Hp Hr Hlen Hmax Htot. destruct (receiving_parts _ _ _ _ _ _ _ Hr) as (d & Hd & Hown & Ht & Hn & Hh & Hw & Hlive & Hlate).
  pose proof (phone_step_ok blake3 (FileChunk o id (Z.of_nat k) b WriteOk true) s I (rc_ok _ _ _ _ _ _ _ Hr)) as Hok'.
  cbn [receive phone_step] in *. revert Hok'. unfold file_chunk. rewrite Hp, Hown, Hn, Z.eqb_refl. cbn [negb].
  rewrite length_app, Nat2Z.inj_add in Hmax, Htot.
  assert (Hc : (MAX_DOWNLOAD_BYTES <? saturating_add u64_max (PhoneTransfers.written d) (Z.of_nat (length b)))
            || (MAX_TOTAL_DOWNLOAD_BYTES <? saturating_add u64_max (live_total s) (Z.of_nat (length b))) = false).
  { apply orb_false_iff. unfold saturating_add. rewrite Hw, Hlive. split; apply Z.ltb_ge; lia. }
  rewrite Hc. assert (Hchunk : FILE_CHUNK_BYTES <? Z.of_nat (length b) = false).
  { apply Z.ltb_ge. rewrite <-CHUNK_Z. lia. }
  rewrite Hchunk, Hlate. cbn -[write_at]. intros Hok'. split; [done|]. apply owned_download_Some in Hown as [_ Ho]. split; [done|..]; cbn -[write_at].
  - eexists. rewrite lookup_insert_eq. split_and!; [done|done|done| | |done]; cbn; [lia|by rewrite Hh].
  - rewrite delete_insert_eq. apply Hr.
Qed.

Lemma receive_chunks o id tgt base cs : is_probe id = false → Forall (λ b, (length b <= CHUNK)%nat) cs → ∀ h k s,
  receiving o id tgt base h k s →
  Z.of_nat (length (h ++ concat cs)) <= MAX_DOWNLOAD_BYTES →
  base + Z.of_nat (length (h ++ concat cs)) <= MAX_TOTAL_DOWNLOAD_BYTES →
  let '(out, s') := receive_all o (imap (λ i b, Frame_FileChunk id (Z.of_nat k + Z.of_nat i) b) cs) s in
  out = [] ∧ receiving o id tgt base (h ++ concat cs) (k + length cs) s'.
Proof.
  intros Hp. induction 1 as [|b cs Hb Hcs IH]; intros h k s Hr H1 H2.
  { cbn. by rewrite app_nil_r, Nat.add_0_r in *. }
  cbn [concat imap receive_all] in *. rewrite app_assoc in H1, H2. rewrite Z.add_0_r.
  pose proof (receive_chunk o id tgt base h k s b Hp Hr Hb) as Hone.
  rewrite length_app, Nat2Z.inj_add in H1, H2. specialize (Hone ltac:(lia) ltac:(lia)).
  destruct (receive o _ s) as [out s1]. destruct Hone as [-> Hr1].
  specialize (IH (h ++ b) (S k) s1 Hr1). rewrite length_app, Nat2Z.inj_add in IH. specialize (IH ltac:(lia) ltac:(lia)).
  rewrite (imap_ext _ (λ i b, Frame_FileChunk id (Z.of_nat (S k) + Z.of_nat i) b)) by (intros i x _; simpl; f_equal; lia).
  destruct (receive_all o _ s1) as [outs s2]. destruct IH as [-> Hr2].
  split; [done|]. cbn [length]. rewrite <-app_assoc in Hr2. by rewrite Nat.add_succ_r.
Qed.

(** *** Whole links *)

Lemma resume_point_next o id s d : owned_download o id s = Some d → resume_point o id s = Some (next_seq d).
Proof.
  intros [Hd Ho]%owned_download_Some. unfold resume_point, resume_downloads.
  set (l := List.filter _ _). assert (Hin : (id, d) ∈ l).
  { apply list_elem_of_In, filter_In. split; [by apply list_elem_of_In, elem_of_map_to_list|]. by apply bool_decide_eq_true. }
  assert (Hl : ∀ e, e ∈ l → downloads s !! e.1 = Some e.2) by (intros e He; by apply filter_entries in He as [? _]).
  clearbody l. induction l as [|[i e] l IH]; [by apply elem_of_nil in Hin|]. cbn [fmap list_fmap omap list_omap asks fst snd].
  destruct (Z.eqb_spec i id) as [->|Hne].
  - cbn. pose proof (Hl (id, e) ltac:(left)) as He. simpl in He. congruence.
  - apply IH; [|intros x Hx; apply Hl; by right]. apply elem_of_cons in Hin as [|]; [by simplify_eq|done].
Qed.

Definition no_failure (reads : list ReadEvent) : Prop := ∀ e, ReadFails e ∉ reads.

(** What the host streams from a resume point it accepts. *)
Lemma host_stream id (k : nat) content reads : no_failure reads → Z.of_nat k * FILE_CHUNK_BYTES <= Z.of_nat (length content) →
  spawn_download blake3 id (Z.of_nat k) content (Z.of_nat (length content)) false reads =
    imap (λ i b, Frame_FileChunk id (Z.of_nat k + Z.of_nat i) b) (drop k (chunks CHUNK content))
    ++ [Frame_FileDone id (Z.of_nat (length content)) (blake3 content)].
Proof.
  intros Hr Hk. unfold spawn_download. rewrite (proj2 (Z.ltb_ge _ _)) by lia.
  pose proof (stream_spec CHUNK id (Z.of_nat k) (S (length content)) CHUNK_pos 0 reads content ltac:(lia)) as Hs.
  destruct (stream _ _ _ _ _ _ _) as [fr [[]|e]]; [|destruct Hs as [_ [e' He]]; by apply Hr in He].
  rewrite Hs, frames_from_imap. rewrite (Z.max_l _ 0) by lia. by replace (Z.to_nat (Z.of_nat k - 0)) with k by lia.
Qed.

Lemma chunk_sizes n : ∀ c, (length c <= n)%nat → Forall (λ b, (length b <= CHUNK)%nat) (chunks CHUNK c).
Proof.
  induction n as [|n IH]; intros c Hn; [destruct c; [by constructor|simpl in Hn; lia]|].
  destruct (decide (c = [])) as [->|Hne]; [by constructor|]. rewrite (chunks_cons CHUNK CHUNK_pos c Hne).
  constructor; [rewrite length_take; lia|]. apply IH. rewrite length_drop. pose proof CHUNK_pos.
  destruct c; [done|simpl in *; lia].
Qed.

Lemma concat_take_chunks k : ∀ c, concat (take k (chunks CHUNK c)) = take (k * CHUNK) c.
Proof.
  induction k as [|k IH]; intros c; [done|]. destruct (decide (c = [])) as [->|Hne]; [by rewrite !take_nil|].
  rewrite (chunks_cons CHUNK CHUNK_pos c Hne). cbn [take concat]. rewrite IH. cbn [Nat.mul].
  apply take_take_drop.
Qed.

Lemma enough_chunks k : ∀ c, (k * CHUNK <= length c)%nat → (k <= length (chunks CHUNK c))%nat.
Proof.
  induction k as [|k IH]; intros c Hk; [lia|]. pose proof CHUNK_pos. cbn [Nat.mul] in Hk.
  assert (c ≠ []) as Hne by (intros ->; simpl in Hk; lia). rewrite (chunks_cons CHUNK CHUNK_pos c Hne). cbn [length].
  specialize (IH (drop CHUNK c)). rewrite length_drop in IH. specialize (IH ltac:(lia)). lia.
Qed.

Lemma whole_chunks k (c : bytes) : Z.of_nat k * FILE_CHUNK_BYTES <= Z.of_nat (length c) ↔ (k * CHUNK <= length c)%nat.
Proof. rewrite <-CHUNK_Z. nia. Qed.

Lemma take_imap {A B} (f : nat → A → B) l : ∀ n, take n (imap f l) = imap f (take n l).
Proof.
  revert f. induction l as [|x l IH]; intros f n; [by destruct n|]. destruct n as [|n]; [done|].
  cbn [imap take]. f_equal. apply IH.
Qed.

(** A link that breaks before the last frame. *)
Lemma broken_link o id tgt base content k cut reads s :
  is_probe id = false → no_failure reads →
  receiving o id tgt base (take (k * CHUNK) content) k s →
  Z.of_nat (length content) <= MAX_DOWNLOAD_BYTES → base + Z.of_nat (length content) <= MAX_TOTAL_DOWNLOAD_BYTES →
  (k + cut <= length (chunks CHUNK content))%nat → Z.of_nat k * FILE_CHUNK_BYTES <= Z.of_nat (length content) →
  let '(out, s') := link_session o id content cut reads s in
  out = [] ∧ receiving o id tgt base (take ((k + cut) * CHUNK) content) (k + cut) s'.
Proof.
  intros Hp Hreads Hr Hmax Htot Hcut Hk. destruct (receiving_parts _ _ _ _ _ _ _ Hr) as (d & Hd & Hown & Ht & Hn & _).
  unfold link_session. rewrite (resume_point_next _ _ _ _ Hown), Hn, host_stream by done.
  rewrite take_app_le by (rewrite length_imap, length_drop; lia). rewrite take_imap.
  pose proof (receive_chunks o id tgt base (take cut (drop k (chunks CHUNK content))) Hp
    ltac:(apply Forall_take, Forall_drop; by apply (chunk_sizes (length content))) _ _ _ Hr) as Hrec.
  assert (Hc : take (k * CHUNK) content ++ concat (take cut (drop k (chunks CHUNK content))) = take ((k + cut) * CHUNK) content).
  { rewrite <-!concat_take_chunks, <-concat_app. f_equal. apply take_take_drop. }
  rewrite Hc in Hrec. assert (Hle : (length (take ((k + cut) * CHUNK) content) <= length content)%nat) by (rewrite length_take; lia).
  specialize (Hrec ltac:(lia) ltac:(lia)). rewrite length_take, length_drop, Nat.min_l in Hrec by lia. exact Hrec.
Qed.

Lemma broken_links o id tgt base content links : is_probe id = false →
  Z.of_nat (length content) <= MAX_DOWNLOAD_BYTES → base + Z.of_nat (length content) <= MAX_TOTAL_DOWNLOAD_BYTES →
  Forall no_failure links.*2 → ∀ k s,
  receiving o id tgt base (take (k * CHUNK) content) k s →
  ((k + sum_list links.*1) * CHUNK <= length content)%nat →
  let '(out, s') := link_sessions o id content links s in
  out = [] ∧ receiving o id tgt base (take ((k + sum_list links.*1) * CHUNK) content) (k + sum_list links.*1) s'.
Proof.
  intros Hp Hmax Htot Hreads. induction links as [|[cut reads] links IH]; intros k s Hr Hk; [by rewrite Nat.add_0_r|].
  change (((cut, reads) :: links).*1) with (cut :: links.*1) in *. change (((cut, reads) :: links).*2) with (reads :: links.*2) in *.
  change (sum_list (cut :: links.*1)) with (cut + sum_list links.*1)%nat in *. cbn [link_sessions]. rewrite Nat.add_assoc in *.
  apply Forall_cons in Hreads as [Hread Hreads]. pose proof CHUNK_pos.
  assert (H1 : ((k + cut) * CHUNK <= length content)%nat) by nia.
  pose proof (broken_link o id tgt base content k cut reads s Hp Hread Hr Hmax Htot (enough_chunks _ _ H1)
    ltac:(apply whole_chunks; nia)) as Hone.
  destruct (link_session o id content cut reads s) as [out s1]. destruct Hone as [-> Hr1].
  specialize (IH Hreads _ _ Hr1 Hk). by destruct (link_sessions o id content links s1).
Qed.

Lemma link_sessions_app o id content l1 l2 s :
  link_sessions o id content (l1 ++ l2) s =
    let '(out1, s1) := link_sessions o id content l1 s in
    let '(out2, s2) := link_sessions o id content l2 s1 in (out1 ++ out2, s2).
Proof.
  revert s. induction l1 as [|[cut reads] l1 IH]; intros s; [cbn [app link_sessions]; by destruct (link_sessions o id content l2 s)|].
  cbn [app link_sessions]. destruct (link_session o id content cut reads s) as [out s1]. rewrite IH.
  destruct (link_sessions o id content l1 s1) as [out1 s2]. destruct (link_sessions o id content l2 s2) as [out2 s3].
  by rewrite app_assoc.
Qed.

Lemma receive_all_app o l1 l2 s :
  receive_all o (l1 ++ l2) s =
    let '(out1, s1) := receive_all o l1 s in let '(out2, s2) := receive_all o l2 s1 in (out1 ++ out2, s2).
Proof.
  revert s. induction l1 as [|f l1 IH]; intros s; [cbn [app receive_all]; by destruct (receive_all o l2 s)|].
  cbn [app receive_all]. destruct (receive o f s) as [out s1]. rewrite IH.
  destruct (receive_all o l1 s1) as [out1 s2]. destruct (receive_all o l2 s2) as [out2 s3]. by rewrite app_assoc.
Qed.

(** The last frame finds the whole content. *)
Lemma receive_done o id tgt base content k s : is_probe id = false → receiving o id tgt base content k s →
  let '(out, s') := receive o (Frame_FileDone id (Z.of_nat (length content)) (blake3 content)) s in
  out = [Complete id false] ∧ fs_read tgt (files s') = Some content ∧ downloads s' !! id = None.
Proof.
  intros Hp Hr. destruct (receiving_parts _ _ _ _ _ _ _ Hr) as (d & Hd & Hown & Ht & Hn & Hh & Hw & _ & Hlate).
  destruct Hr as [Hok _ _]. unfold phone_ok, open_downloads in Hok. rewrite (open_take _ _ _ _ _ Hd) in Hok.
  assert (Hde : download_ok (files s) d) by (destruct Hok as [_ _ _ _ He]; by apply Forall_cons in He as [He _]).
  cbn [receive phone_run phone_step]. unfold file_done. rewrite Hp, Hown. unfold verify.
  cbn [verifying with_taken with_downloads]. rewrite list_lookup_middle by done.
  cbn -[rename delete]. rewrite Hw, Z.eqb_refl, Hh, bool_decide_eq_true_2 by done. cbn -[rename delete]. rewrite Hlate.
  cbn -[rename delete]. rewrite Ht. cbn -[rename delete]. destruct (rename (temporary d) tgt (files s)) as [f|] eqn:Hf.
  - destruct (renamed_ok _ _ _ _ _ _ _ Hok Hlate (ok_target _ _ Hde _ Ht) Hf) as [_ Hread].
    split_and!; [done| |apply lookup_delete_eq]. cbn [snd files with_files].
    rewrite Hread by by eapply ok_target. by rewrite bool_decide_eq_true_2, Hh.
  - unfold rename in Hf. by rewrite (ok_name _ _ Hde) in Hf.
Qed.

(** ** From the start of a download *)
Section Started.
Context (s0 : Phone) (ops : list Op) (o : TransferOwner) (id : TransferId) (d : DownloadTransfer) (tgt : path).
Context (content : bytes) (links : list (nat * list ReadEvent)).
Context (Hidle : idle s0) (Hops : Forall PhoneTransfers.op_ok ops).
Let s := (phone_run blake3 ops s0).2.
Context (Hd : downloads s !! id = Some d) (Ho : owner d = o) (Ht : PhoneTransfers.target d = Target_Path tgt).
Context (Hnew : next_seq d = 0 ∧ hasher d = [] ∧ late_error d = false) (Hid : is_probe id = false).
Context (Hmax : Z.of_nat (length content) <= MAX_DOWNLOAD_BYTES).
Context (Htot : live_total s + Z.of_nat (length content) <= MAX_TOTAL_DOWNLOAD_BYTES).
Context (Hreads : Forall no_failure links.*2).
Context (Hcuts : Z.of_nat (sum_list links.*1) * FILE_CHUNK_BYTES <= Z.of_nat (length content)).

Lemma after_links : ∃ base, base + Z.of_nat (length content) <= MAX_TOTAL_DOWNLOAD_BYTES ∧
  let '(out, s1) := link_sessions o id content links s in
  out = [] ∧ receiving o id tgt base (take (sum_list links.*1 * CHUNK) content) (sum_list links.*1) s1.
Proof using All.
  assert (Hok : phone_ok s).
  { apply (phone_run_inv blake3 phone_ok PhoneTransfers.op_ok); [intros; by apply phone_step_ok|done|by apply idle_ok]. }
  destruct Hnew as (Hn & Hh & Hlate). pose proof (live_total_take _ _ _ Hd) as Hlive.
  set (base := total (map_to_list (delete id (downloads s)))) in *. exists base.
  assert (Hr : receiving o id tgt base (take (0 * CHUNK) content) 0 s) by (split; [done| |done]; by exists d).
  destruct (receiving_parts _ _ _ _ _ _ _ Hr) as (d' & Hd' & _ & _ & _ & _ & Hw & _). assert (d' = d) as -> by congruence.
  cbn [Nat.mul] in Hw. rewrite take_0 in Hw. simpl in Hw. assert (Hbase : base + Z.of_nat (length content) <= MAX_TOTAL_DOWNLOAD_BYTES) by lia.
  split; [done|]. apply whole_chunks in Hcuts. exact (broken_links o id tgt base content links Hid Hmax Hbase Hreads 0 s Hr Hcuts).
Qed.


(** A link that breaks after the last chunk, but before the frame that says so,
    loses a download that is complete on the phone when the file does not end with
    a full chunk: the next link asks for the chunk after the last, the host refuses
    it as beyond the end of the file, and the phone drops what it has. *)
Theorem break_before_the_last_frame_loses_the_download cut reads next next_reads (Hread : no_failure reads)
    (Hall : (sum_list links.*1 + cut = length (chunks CHUNK content))%nat)
    (Hpartial : Z.of_nat (length content) < Z.of_nat (length (chunks CHUNK content)) * FILE_CHUNK_BYTES) :
  let '(out1, s1) := link_sessions o id content (links ++ [(cut, reads)]) s in
  let '(out2, s2) := link_session o id content (S next) next_reads s1 in
  (∃ d1, downloads s1 !! id = Some d1 ∧ hasher d1 = content) ∧
  out1 ++ out2 = [TransferError id "resume point is beyond the end of the file"] ∧ downloads s2 !! id = None.
Proof using All.
  destruct after_links as (base & Hbase & Hlinks). rewrite link_sessions_app.
  destruct (link_sessions o id content links s) as [out s1]. destruct Hlinks as [-> Hr1].
  set (k := sum_list links.*1) in *. cbn [link_sessions app].
  pose proof (broken_link o id tgt base content k cut reads s1 Hid Hread Hr1 Hmax Hbase ltac:(lia) Hcuts) as Hlast.
  destruct (link_session o id content cut reads s1) as [out s2]. destruct Hlast as [-> Hr2]. rewrite Hall in Hr2. cbn [app].
  rewrite <-concat_take_chunks, take_ge, (concat_chunks CHUNK CHUNK_pos (length content)) in Hr2 by done.
  destruct (receiving_parts _ _ _ _ _ _ _ Hr2) as (d2 & Hd2 & Hown2 & Ht2 & Hn2 & Hh2 & _).
  unfold link_session. rewrite (resume_point_next _ _ _ _ Hown2), Hn2. unfold spawn_download.
  assert (Hlim : Z.of_nat (length content) < u64_max).
  { assert (MAX_DOWNLOAD_BYTES < u64_max) by done. lia. }
  rewrite (proj2 (Z.ltb_lt _ _)) by lia. cbn [take receive_all receive phone_step]. rewrite take_nil. cbn [receive_all].
  unfold file_err. rewrite Hid, Hown2. unfold drop_target. rewrite Ht2. cbn [app].
  assert (Hnone : ∀ r, downloads (remove_temporary r d2 (with_downloads s2 (delete id (downloads s2)))) !! id = None)
    by (intros; apply lookup_delete_eq).
  destruct (owned_upload o id _) as [[n u]|]; (split_and!; [by exists d2|done|apply Hnone]).
Qed.
End Started.
End Link.

(** ** An upload, from its announcement to the host's answer *)
Section Upload.
Context (blake3 : bytes → bytes) (canonicalize : path → result string path).

(** Every system call of the host succeeds. *)
Definition up_fine : UploadIo :=
  {| io_track := Persist_Ok; io_create := true; io_write := WriteOk; Transfer.io_flush := true; Transfer.io_sync := true;
     io_chmod := true; Transfer.io_rename := true; io_sync_dir := true; io_remove := true; io_forget := Persist_Ok |}.

(** What a connection does with the frames of an upload. *)
Definition host_op (f : Frame) : option TransferOp :=
  match f with
  | Frame_FilePutReq id p n md a => Some (PutReq up_fine id p n md a)
  | Frame_FileChunk id seq data => Some (Chunk up_fine id seq data)
  | Frame_FileDone id n c => Some (Done up_fine id n c)
  | _ => None
  end.
Definition host_receive (f : Frame) (w : World) : list Frame * World :=
  match host_op f with Some op => transfer_step blake3 canonicalize op w | None => ([], w) end.
Fixpoint host_receive_all (fs : list Frame) (w : World) : list Frame * World :=
  match fs with
  | [] => ([], w)
  | f :: fs => let '(out, w1) := host_receive f w in let '(outs, w2) := host_receive_all fs w1 in (out ++ outs, w2)
  end.

(** The frames among what leaves the phone. *)
Definition sent (x : Out) : option Frame := match x with Send _ f => Some f | _ => None end.

(** The host has the first [k] chunks, [h], of an upload of [n] bytes to [tgt]. *)
Record gathering (w0 : World) (id : TransferId) (tgt : path) (n : Z) (h : bytes) (k : nat) (w : World) : Prop := {
  ga_inv : world_inv w0 w;
  ga_entry : ∃ u, Transfer.uploads (transfers w) !! id = Some u ∧ Transfer.target u = tgt ∧ expected_size u = n ∧
    u_next_seq u = Z.of_nat k ∧ hashed u = h ∧ Transfer.late_error u = false;
}.

Lemma gather_chunk w0 id tgt n h k w b : gathering w0 id tgt n h k w → (length b <= CHUNK)%nat →
  Z.of_nat (length (h ++ b)) <= n → n < u64_max →
  let '(out, w') := host_receive (Frame_FileChunk id (Z.of_nat k) b) w in out = [] ∧ gathering w0 id tgt n (h ++ b) (S k) w'.
Proof.
  intros [Hi (u & Hu & Ht & He & Hn & Hh & Hlate)] Hlen Hfit Hmax.
  pose proof (transfer_step_inv blake3 canonicalize w0 (Chunk up_fine id (Z.of_nat k) b) w I Hi) as Hi'.
  destruct (wi_upload _ _ Hi _ _ Hu) as (_ & _ & Hw & _). rewrite length_app in Hfit.
  revert Hi'. unfold host_receive. cbn [host_op transfer_step]. unfold upload_chunk. rewrite Hu, Hn, Z.eqb_refl. cbn [negb].
  rewrite (proj2 (Z.ltb_ge FILE_CHUNK_BYTES _)) by (rewrite <-CHUNK_Z; lia).
  assert (Hs : saturating_add u64_max (Transfer.written u) (Z.of_nat (length b)) = Z.of_nat (length h + length b)).
  { unfold saturating_add. rewrite Hw, Hh. lia. }
  rewrite Hs, He, (proj2 (Z.ltb_ge n _)) by lia. rewrite Hlate. cbn [io_write up_fine]. cbn -[append_inode]. intros Hi'.
  split; [done|]. split; [done|]. eexists. cbn. rewrite lookup_insert_eq. split_and!; [done|done|done|cbn; lia|by rewrite <-Hh|done].
Qed.

Lemma gather_chunks w0 id tgt n cs : n < u64_max → Forall (λ b, (length b <= CHUNK)%nat) cs → ∀ h k w,
  gathering w0 id tgt n h k w → Z.of_nat (length (h ++ concat cs)) <= n →
  let '(out, w') := host_receive_all (imap (λ i b, Frame_FileChunk id (Z.of_nat k + Z.of_nat i) b) cs) w in
  out = [] ∧ gathering w0 id tgt n (h ++ concat cs) (k + length cs) w'.
Proof.
  intros Hn. induction 1 as [|b cs Hb Hcs IH]; intros h k w Hg Hfit.
  { cbn. by rewrite app_nil_r, Nat.add_0_r in *. }
  cbn [concat imap host_receive_all] in *. rewrite app_assoc in Hfit. rewrite Z.add_0_r.
  rewrite length_app, Nat2Z.inj_add in Hfit.
  pose proof (gather_chunk w0 id tgt n h k w b Hg Hb ltac:(lia) Hn) as Hone.
  destruct (host_receive _ w) as [out w1]. destruct Hone as [-> Hg1].
  specialize (IH (h ++ b) (S k) w1 Hg1). rewrite length_app, Nat2Z.inj_add in IH. specialize (IH ltac:(lia)).
  rewrite (imap_ext _ (λ i b, Frame_FileChunk id (Z.of_nat (S k) + Z.of_nat i) b)) by (intros i x _; simpl; f_equal; lia).
  destruct (host_receive_all _ w1) as [outs w2]. destruct IH as [-> Hg2].
  split; [done|]. cbn [length]. rewrite <-app_assoc in Hg2. by rewrite Nat.add_succ_r.
Qed.

Lemma gather_done w0 id tgt content k w : gathering w0 id tgt (Z.of_nat (length content)) content k w →
  let '(out, w') := host_receive (Frame_FileDone id (Z.of_nat (length content)) (blake3 content)) w in
  out = [Frame_FileDone id (Z.of_nat (length content)) (blake3 content)] ∧ fs_read tgt (fs w') = Some content.
Proof.
  intros [Hi (u & Hu & Ht & He & Hn & Hh & Hlate)]. destruct (wi_upload _ _ Hi _ _ Hu) as (Hnu & Hin & Hw & _ & _ & Hvg).
  pose proof (finish_upload_read blake3 w0 up_fine id (Z.of_nat (length content)) (blake3 content) w tgt Hi
    ltac:(by rewrite <-Ht)) as Hread.
  assert (Hok : ∃ f, commit_upload blake3 up_fine id (Z.of_nat (length content)) (blake3 content) u (fs w) =
    (Ok (Frame_FileDone id (Z.of_nat (length content)) (blake3 content)), f)).
  { unfold commit_upload. rewrite He, Hw, Hh, Z.eqb_refl, bool_decide_eq_true_2 by done. rewrite Hlate. cbn [negb orb Transfer.io_flush up_fine Transfer.io_sync].
    rewrite andb_false_r. cbn [Transfer.io_rename up_fine negb io_sync_dir]. unfold rename. rewrite Hnu. eauto. }
  destruct Hok as [f Hok]. unfold host_receive. cbn [host_op transfer_step]. unfold finish_upload in *. rewrite Hu, Hok in *.
  split; [done|]. cbn [fst snd] in *. destruct Hread as [[_ Hno]|(v & c & Hv & Hc & _ & _ & _ & _)]; [by destruct (Hno _ eq_refl)|].
  assert (v = u) as -> by congruence. rewrite Ht in Hc. cbn [fs] in *. rewrite Hc. f_equal.
  destruct (commit_upload_cases _ _ _ _ _ _ _ _ _ Hok) as [(_ & e & ?)|(Hr & _)]; [done|].
  destruct (renamed_inv _ _ _ _ _ Hi Hu Hr) as (_ & Hnames & Hino).
  unfold fs_read in Hc. rewrite Hnames, Ht, lookup_insert_eq, Hino in Hc. cbn in Hc. rewrite Hin in Hc by done. congruence.
Qed.

(** The phone's part: announced, then streamed by the task the announcement starts. *)
Definition upload_ops (i j : nat) (cs : list bytes) : list Op :=
  TaskStep i (Announced true) :: (TaskStep j <$> Locked true :: upload_events 0 0 cs).

Lemma announced_run i t u md allow cs s :
  tasks s !! i = Some t → t_phase t = Announcing md allow → objects s !! t_upload t = Some u →
  cancelled u = false → file_free (t_upload t) s = true → Forall (λ c, c ≠ []) cs →
  ∃ s', phone_run blake3 (upload_ops i (length (tasks s)) cs) s =
    (Send (t_link t) (Frame_FilePutReq (t_id t) (u_remote_path u) (u_size u) md allow) :: Started (t_id t) ::
       (Send (t_link t) <$> imap (λ k b, Frame_FileChunk (t_id t) (0 + Z.of_nat k) b) cs
          ++ [Frame_FileDone (t_id t) (u_size u) (blake3 (concat cs))]), s') ∧
    PhoneTransfers.uploads s' = PhoneTransfers.uploads s ∧ downloads s' = downloads s ∧
    objects s' = <[t_upload t := {| u_owner := u_owner u; u_remote_path := u_remote_path u; u_size := u_size u;
                                    cancelled := false; epoch := epoch u + 1 |}]> (objects s).
Proof.
  intros Hi Hph Hu Hc Hfree Hcs. unfold upload_ops. rewrite phone_run_one. cbn [phone_step].
  rewrite (task_step_at _ _ _ _ _ _ Hi Hu), Hph.
  set (s1 := spawn_upload_range (t_id t) (t_upload t) u 0 (t_link t) (move i t Ended s)).
  set (t1 := {| t_id := t_id t; t_upload := t_upload t; t_link := t_link t; t_epoch := epoch u + 1; t_from := 0; t_phase := Waiting |}).
  set (u1 := {| u_owner := u_owner u; u_remote_path := u_remote_path u; u_size := u_size u; cancelled := cancelled u; epoch := epoch u + 1 |}).
  assert (Hj : tasks s1 !! length (tasks s) = Some t1).
  { cbn. rewrite lookup_app_r by (by rewrite length_insert). by rewrite length_insert, Nat.sub_diag. }
  assert (Hu1 : objects s1 !! t_upload t1 = Some u1) by (cbn; by rewrite lookup_insert_eq).
  assert (Hfree1 : file_free (t_upload t1) s1 = true).
  { unfold file_free in *. apply negb_true_iff, not_true_iff_false. apply negb_true_iff, not_true_iff_false in Hfree.
    intros (x & Hin & Hx)%existsb_exists. apply list_elem_of_In in Hin. cbn in Hin.
    apply elem_of_app in Hin as [[->|Hin]%insert_elem| ->%list_elem_of_singleton].
    - by rewrite andb_false_r in Hx.
    - apply Hfree. apply existsb_exists. exists x. by rewrite <-list_elem_of_In.
    - by rewrite andb_false_r in Hx. }
  pose proof (waiting_run blake3 (length (tasks s)) t1 u1 cs s1 Hj eq_refl Hu1 Hc eq_refl Hfree1 Hcs) as Hrun.
  cbn [t_from t1] in Hrun. rewrite Hrun. exists (move (length (tasks s)) t1 Ended s1).
  split_and!; [|done|done|].
  - unfold stream_frames. rewrite frames_from_imap. cbn [t_from t1 t_id t_link u_size u1]. by rewrite Z.max_id, Z.sub_diag.
  - cbn. unfold u1. by rewrite Hc.
Qed.

Lemma host_receive_all_app l1 l2 w :
  host_receive_all (l1 ++ l2) w =
    let '(out1, w1) := host_receive_all l1 w in let '(out2, w2) := host_receive_all l2 w1 in (out1 ++ out2, w2).
Proof.
  revert w. induction l1 as [|f l1 IH]; intros w; [cbn [app host_receive_all]; by destruct (host_receive_all l2 w)|].
  cbn [app host_receive_all]. destruct (host_receive f w) as [out w1]. rewrite IH.
  destruct (host_receive_all l1 w1) as [out1 w2]. destruct (host_receive_all l2 w2) as [out2 w3]. by rewrite app_assoc.
Qed.

Lemma sent_frames l (fs : list Frame) : omap sent (Send l <$> fs) = fs.
Proof. induction fs as [|f fs IH]; [done|]. cbn. by rewrite IH. Qed.

Lemma upload_registered w0 id p n md allow w :
  n < u64_max → world_inv w0 w → valid_upload_temporary (path_components p) = false →
  valid_upload_temporary (home (transfers w0) ++ path_components p) = false →
  (host_receive (Frame_FilePutReq id p n md allow) w).1 = [] →
  ∃ u, Transfer.uploads (transfers (host_receive (Frame_FilePutReq id p n md allow) w).2) !! id = Some u ∧
    gathering w0 id (Transfer.target u) n [] 0 (host_receive (Frame_FilePutReq id p n md allow) w).2.
Proof.
  intros Hn Hi Hv1 Hv2. pose proof (transfer_step_inv blake3 canonicalize w0 (PutReq up_fine id p n md allow) w ltac:(done) Hi) as Hi'.
  revert Hi'. unfold host_receive. cbn [host_op transfer_step]. unfold start_upload.
  destruct (check_active_slot (transfers w)) as [slot t]. cbn zeta.
  match goal with |- context [match ?c with Ok _ => _ | Err _ => _ end] => destruct c as [[tgt tmp]|e] end; [|done].
  destruct (track _ _ _) as [[] c]; [|done]. destruct (create_new _ _ _) as [[i|] f]; [|done].
  cbn -[valid_upload_temporary]. intros Hi' _. eexists. rewrite lookup_insert_eq. split; [done|]. split; [done|].
  eexists. cbn. by rewrite lookup_insert_eq.
Qed.

End Upload.

(** ** The theorems at work *)
Module EndToEndExamples.
Import PhoneTransfersExamples.
#[local] Transparent CHUNK.

(** A full chunk and one byte more. *)
Definition content : bytes := replicate CHUNK Byte.x41 ++ [Byte.x42].
Definition begun : DownloadTransfer :=
  {| owner := host; restarts := 0; remote_path := "p"; PhoneTransfers.target := Target_Path photo;
     PhoneTransfers.temporary := part; file := 0; position := 0; next_seq := 0; PhoneTransfers.written := 0; hasher := [];
     allow_outside_home := false; late_error := false |}.
(** The link breaks after the first chunk; its reads are short. *)
Definition broken : list (nat * list ReadEvent) := [(1%nat, [ReadOk 1; ReadOk 7])].

Example broken_resumes_after_the_first_chunk :
  resume_point host 1 (link_sessions sum host 1 content broken (phone_run sum started phone).2).2 = Some 1.
Proof. by vm_compute. Qed.

Lemma no_failing reads : (∀ x, x ∈ reads → ∃ n, x = ReadOk n) → no_failure reads.
Proof. intros H e Hin. by destruct (H _ Hin). Qed.


Lemma lost_witness :
  let '(out1, s1) := link_sessions sum host 1 content (broken ++ [(1%nat, [])]) (phone_run sum started phone).2 in
  let '(out2, s2) := link_session sum host 1 content 1 [] s1 in
  (∃ d1, downloads s1 !! 1 = Some d1 ∧ hasher d1 = content) ∧
  out1 ++ out2 = [TransferError 1 "resume point is beyond the end of the file"] ∧ downloads s2 !! 1 = None.
Proof.
  apply (break_before_the_last_frame_loses_the_download sum phone started host 1 begun photo content broken phone_idle).
  - by repeat constructor.
  - by vm_compute.
  - done.
  - done.
  - done.
  - done.
  - by vm_compute.
  - by vm_compute.
  - constructor; [|constructor]. apply no_failing.
    intros x [->|[->|Hin%elem_of_nil]%elem_of_cons]%elem_of_cons; [by eexists..|done].
  - by vm_compute.
  - apply no_failing. intros x Hin. by apply elem_of_nil in Hin.
  - by vm_compute.
  - by vm_compute.
Defined.

(** The upload of the phone's examples, before its announcement. *)
Definition announcing : list Op := [Acquire host; UploadFile 0 "p" 2 None false].
Definition announcer : Task :=
  {| t_id := 1; t_upload := 0; t_link := host; t_epoch := 0; t_from := 0; t_phase := Announcing None false |}.
Definition announced_upload : UploadTransfer :=
  {| u_owner := host; u_remote_path := "p"; u_size := 2; cancelled := false; epoch := 0 |}.

End EndToEndExamples.
