(* ===== verification/Client.v ===== *)
(** * Client: the phone's link to a host and the commands over it

    [app/src-tauri/src/lib.rs]: the connection in its slot, the session loop of
    every link that was ever opened, the commands that wait for an answer with
    their tables of senders, and what an inbound frame does. A link is numbered
    by its place in the list; a link taken from the slot keeps its loop until
    that has noticed. Each stretch between two waits is one step, a loop's turn
    with a frame included; the six tables of a link are cleared in one. Frames
    of transfers are handed on to [PhoneTransfers]. *)

From S2P Require Import Prelude Protocol.
From S2P Require PhoneTransfers.
Import PhoneTransfers (TransferOwner, peer_device_id, pair_id, TransferOwner_eq_dec).

Definition CONNECTION_OUTBOUND_FRAMES : nat := 16.

(** ** What the UI is told *)

Record InfoPayload := {
  ip_id : Z; ip_title : string; ip_kind : string; ip_source : string; ip_has_activity : bool }.

Definition info_payload (i : SessionInfo) : InfoPayload :=
  {| ip_id := info_id i; ip_title := info_title i;
     ip_kind := match info_kind i with SessionKind_Shell => "shell" | SessionKind_Agent => "agent" end;
     ip_source := match info_source i with SessionSource_Spawned => "spawned" | SessionSource_Adopted => "adopted" end;
     ip_has_activity := info_has_activity i |}.

Definition agent_provider_name (p : AgentProvider) : string :=
  match p with ClaudeCode => "claude_code" | OpenCode => "open_code" | Codex => "codex" | Goose => "goose" end.
Definition agent_provider_from_str (s : string) : result string AgentProvider :=
  if bool_decide (s = "claude_code") then Ok ClaudeCode
  else if bool_decide (s = "open_code") then Ok OpenCode
  else if bool_decide (s = "codex") then Ok Codex
  else if bool_decide (s = "goose") then Ok Goose
  else Err "unknown agent provider".

Definition terminal_root_name (r : TerminalRoot) : string :=
  match r with Root_Workspace => "workspace" | Root_Home => "home" end.
Definition terminal_root_from_str (s : string) : result string TerminalRoot :=
  if bool_decide (s = "workspace") then Ok Root_Workspace
  else if bool_decide (s = "home") then Ok Root_Home
  else Err ("unknown folder root: " +:+ s).

Record AgentSessionRow := {
  row_acp_session_id : string; row_provider : string; row_title : string; row_label : option string;
  row_last_active_at_unix_ms : Z }.
Record AgentProviderRow := { pr_provider : string; pr_available : bool; pr_detail : option string }.

(** The listings a host sends apart from its outcome. *)
Inductive Listing :=
| WorkspaceListing (rel : string) (names : list string)
| AgentSessionListing (rel : string) (sessions : list AgentSessionRow)
| ProviderListing (rows : list AgentProviderRow)
| RootListing (names : list string).

Inductive ListingKind := Dirs | Sessions | Providers | Roots.
#[global] Instance ListingKind_eq_dec : EqDecision ListingKind.
Proof. solve_decision. Defined.
#[global] Instance ListingKind_countable : Countable ListingKind.
Proof.
  refine (inj_countable' (λ k, match k with Dirs => 0%nat | Sessions => 1%nat | Providers => 2%nat | Roots => 3%nat end)
    (λ n, match n with 0%nat => Dirs | 1%nat => Sessions | 2%nat => Providers | _ => Roots end) _).
  by intros [].
Defined.

Record PermissionPayload := {
  pp_id : Z; pp_tool_call : ToolCallCard; pp_options : list PermissionOption; pp_category : PermissionCategory;
  pp_connection : nat; pp_workspace_scope : WorkspaceScope }.

Inductive UiEvent :=
| Ui_List (l : list InfoPayload)
| Ui_Added (i : InfoPayload)
| Ui_Removed (id : Z)
| Ui_Activity (id : Z)
| Ui_Error (message : string)
| Ui_AgentSnapshot (id : Z) (events : list AgentTimelineEvent)
| Ui_AgentEvent (id : Z) (events : list AgentTimelineEvent)
| Ui_Permission (p : PermissionPayload)
| Ui_PermissionResolved (id : Z) (tool_call_id : string) (resolution by_ : option string)
| Ui_PushRegistered (ok : bool) (detail : option string)
| Ui_PairRevoked (host : bytes)
| Ui_Disconnected.

(** A message of the screen's channel: a tag, the session, then what follows. *)
Definition screen_output (id : SessionId) (data : bytes) : bytes := [byte_of 0] ++ le_bytes 8 id ++ data.
Definition screen_reset (id : SessionId) : bytes := [byte_of 1] ++ le_bytes 8 id.
Definition screen_size (id : SessionId) (cols rows : Z) : bytes :=
  [byte_of 2] ++ le_bytes 8 id ++ le_bytes 2 cols ++ le_bytes 2 rows.

(** ** Links and commands *)

(** [Revoking]: between the check of a revocation and the deletion, which lock the
    store one after the other. *)
Inductive LoopPhase := Running | Revoking | Closing | Over.

(** [pending] and [listings] hold the senders by request number; [killed]: the
    connection was dropped from the slot, so its kill switch fired. *)
Record Link := {
  peer : bytes;
  pair : bytes;
  queue : list Frame;
  pending : gset Z;
  listings : gset (ListingKind * Z);
  unpairs : gset Z;
  phase : LoopPhase;
  killed : bool;
}.

(** What is known at the receiving end of a one-shot channel. *)
Inductive Chan (A : Type) := Held | Got (a : A) | Dropped.
Arguments Held {A}. Arguments Got {A} _. Arguments Dropped {A}.

Inductive WaitPhase := Registered | AwaitingOutcome | AwaitingListing.

(** A command under way: [w_link] was the current link when it was made. *)
Record Waiter := {
  w_link : nat;
  w_kind : RequestKind;
  w_want : option ListingKind;
  w_outcome : Chan CommandOutcome;
  w_listing : Chan Listing;
  w_phase : WaitPhase;
}.

(** [remove_host] asking the host to forget the pairing. *)
Record Unpairing := { u_link : nat; u_reply : Chan (result string unit); u_sent : bool }.

Inductive Reply := Reply_Session (s : option SessionId) | Reply_Listing (l : Listing).

Record Client := {
  slot : option nat;
  links : list Link;
  next_req_id : Z;
  waiters : gmap Z Waiter;
  unpairings : gmap Z Unpairing;
  last_seen_seq : gmap Z Z;
  last_seen_generation : gmap Z Z;
  pairs : gmap bytes bytes;     (* the pairing stored for a host *)
}.

Inductive Out :=
| Wire (l : nat) (f : Frame)
| Ui (e : UiEvent)
| Screen (l : nat) (message : bytes)
| ToTransfers (o : TransferOwner) (f : Frame)
| Answer (req : Z) (r : result string Reply)
| Refused (message : string)
| Unpaired (req : Z) (revoked : bool).

(** *** Updates *)
Definition with_queue (lk : Link) (q : list Frame) : Link :=
  {| peer := peer lk; pair := pair lk; queue := q; pending := pending lk; listings := listings lk;
     unpairs := unpairs lk; phase := phase lk; killed := killed lk |}.
Definition with_tables (lk : Link) (p : gset Z) (l : gset (ListingKind * Z)) (u : gset Z) : Link :=
  {| peer := peer lk; pair := pair lk; queue := queue lk; pending := p; listings := l; unpairs := u;
     phase := phase lk; killed := killed lk |}.
Definition with_phase (lk : Link) (ph : LoopPhase) (k : bool) : Link :=
  {| peer := peer lk; pair := pair lk; queue := queue lk; pending := pending lk; listings := listings lk;
     unpairs := unpairs lk; phase := ph; killed := k |}.

Definition with_outcome (w : Waiter) (o : Chan CommandOutcome) : Waiter :=
  {| w_link := w_link w; w_kind := w_kind w; w_want := w_want w; w_outcome := o; w_listing := w_listing w; w_phase := w_phase w |}.
Definition with_listing (w : Waiter) (x : Chan Listing) : Waiter :=
  {| w_link := w_link w; w_kind := w_kind w; w_want := w_want w; w_outcome := w_outcome w; w_listing := x; w_phase := w_phase w |}.
Definition with_wait (w : Waiter) (ph : WaitPhase) : Waiter :=
  {| w_link := w_link w; w_kind := w_kind w; w_want := w_want w; w_outcome := w_outcome w; w_listing := w_listing w; w_phase := ph |}.
Definition with_reply (u : Unpairing) (r : Chan (result string unit)) : Unpairing :=
  {| u_link := u_link u; u_reply := r; u_sent := u_sent u |}.

Section Updates.
Context (c : Client).
Definition with_slot (s : option nat) : Client :=
  {| slot := s; links := links c; next_req_id := next_req_id c; waiters := waiters c; unpairings := unpairings c;
     last_seen_seq := last_seen_seq c; last_seen_generation := last_seen_generation c; pairs := pairs c |}.
Definition with_links (ls : list Link) : Client :=
  {| slot := slot c; links := ls; next_req_id := next_req_id c; waiters := waiters c; unpairings := unpairings c;
     last_seen_seq := last_seen_seq c; last_seen_generation := last_seen_generation c; pairs := pairs c |}.
Definition with_waiters (ws : gmap Z Waiter) (us : gmap Z Unpairing) : Client :=
  {| slot := slot c; links := links c; next_req_id := next_req_id c; waiters := ws; unpairings := us;
     last_seen_seq := last_seen_seq c; last_seen_generation := last_seen_generation c; pairs := pairs c |}.
Definition with_next (n : Z) : Client :=
  {| slot := slot c; links := links c; next_req_id := n; waiters := waiters c; unpairings := unpairings c;
     last_seen_seq := last_seen_seq c; last_seen_generation := last_seen_generation c; pairs := pairs c |}.
Definition with_seen (q g : gmap Z Z) : Client :=
  {| slot := slot c; links := links c; next_req_id := next_req_id c; waiters := waiters c; unpairings := unpairings c;
     last_seen_seq := q; last_seen_generation := g; pairs := pairs c |}.
Definition with_pairs (p : gmap bytes bytes) : Client :=
  {| slot := slot c; links := links c; next_req_id := next_req_id c; waiters := waiters c; unpairings := unpairings c;
     last_seen_seq := last_seen_seq c; last_seen_generation := last_seen_generation c; pairs := p |}.
End Updates.

Definition set_link (l : nat) (lk : Link) (c : Client) : Client := with_links c (<[l := lk]> (links c)).

(** ** Making a command *)

(** [request] and its three relatives up to the registration: the number is taken,
    then the senders are put into the current link's tables under the slot's lock. *)
Definition begin_request (kind : RequestKind) (want : option ListingKind) (c : Client) : list Out * Client :=
  let req := next_req_id c in
  let c := with_next c (req + 1) in
  match slot c with
  | None => ([Answer req (Err "not paired"%string)], c)
  | Some l =>
      match links c !! l with
      | None => ([], c)
      | Some lk =>
          let wanted := match want with Some k => {[ (k, req) ]} ∪ listings lk | None => listings lk end in
          let w := {| w_link := l; w_kind := kind; w_want := want; w_outcome := Held; w_listing := Held; w_phase := Registered |} in
          ([], with_waiters (set_link l (with_tables lk ({[ req ]} ∪ pending lk) wanted (unpairs lk)) c)
                 (<[req := w]> (waiters c)) (unpairings c))
      end
  end.

(** A command that gives up takes its senders out of the tables. *)
Definition forget_listing (w : Waiter) (req : Z) (lk : Link) : Link :=
  match w_want w with
  | Some k => with_tables lk (pending lk) (listings lk ∖ {[ (k, req) ]}) (unpairs lk)
  | None => lk
  end.
Definition forget_both (w : Waiter) (req : Z) (lk : Link) : Link :=
  forget_listing w req (with_tables lk (pending lk ∖ {[ req ]}) (listings lk) (unpairs lk)).

Definition finish (req : Z) (w : Waiter) (f : Link → Link) (r : result string Reply) (c : Client) : list Out * Client :=
  ([Answer req r],
   with_waiters (with_links c (alter f (w_link w) (links c))) (delete req (waiters c)) (unpairings c)).

(** [try_enqueue]: the receiver lives as long as the loop. *)
Definition try_enqueue (f : Frame) (lk : Link) : result string Link :=
  match phase lk with
  | Over => Err "connection closed"%string
  | _ => if (CONNECTION_OUTBOUND_FRAMES <=? length (queue lk))%nat then Err "connection busy - try again"%string
         else Ok (with_queue lk (queue lk ++ [f]))
  end.

Definition enqueue_request (req : Z) (c : Client) : list Out * Client :=
  match waiters c !! req with
  | Some w =>
      match w_phase w, links c !! w_link w with
      | Registered, Some lk =>
          match try_enqueue (Frame_Request req (w_kind w)) lk with
          | Err e => finish req w (forget_both w req) (Err e) c
          | Ok lk' => ([], with_waiters (set_link (w_link w) lk' c) (<[req := with_wait w AwaitingOutcome]> (waiters c)) (unpairings c))
          end
      | _, _ => ([], c)
      end
  | None => ([], c)
  end.

Definition closed_message (want : option ListingKind) : string :=
  match want with
  | None => "connection closed before the command completed"
  | Some Dirs => "connection closed before the listing arrived"
  | Some Sessions => "connection closed before the conversation list arrived"
  | Some Providers => "connection closed before the agent list arrived"
  | Some Roots => "connection closed before the folder roots arrived"
  end.
Definition timeout_message (want : option ListingKind) : string :=
  match want with None => "command timed out" | Some _ => "listing timed out" end.
Definition unsent_message (want : option ListingKind) : string :=
  match want with
  | Some Dirs => "host confirmed the listing but did not send it"
  | Some Sessions => "host confirmed the list but did not send it"
  | Some Providers => "host confirmed the list but did not send it"
  | _ => "host confirmed the roots but did not send them"
  end.

(** The waits: [true] when the deadline passes first. *)
Definition await (req : Z) (timeout : bool) (c : Client) : list Out * Client :=
  match waiters c !! req with
  | None => ([], c)
  | Some w =>
      match w_phase w with
      | Registered => ([], c)
      | AwaitingOutcome =>
          match w_outcome w with
          | Got (CommandOutcome_Ok s) =>
              match w_want w with
              | None => finish req w (λ lk, lk) (Ok (Reply_Session s)) c
              | Some _ => ([], with_waiters c (<[req := with_wait w AwaitingListing]> (waiters c)) (unpairings c))
              end
          | Got (CommandOutcome_Error m) => finish req w (forget_listing w req) (Err m) c
          | Dropped => finish req w (forget_listing w req) (Err (closed_message (w_want w))) c
          | Held => if timeout then finish req w (forget_both w req) (Err (timeout_message (w_want w))) c else ([], c)
          end
      | AwaitingListing =>
          match w_listing w with
          | Got x => finish req w (λ lk, lk) (Ok (Reply_Listing x)) c
          | Dropped => finish req w (forget_listing w req) (Err (unsent_message (w_want w))) c
          | Held => if timeout then finish req w (forget_listing w req) (Err (unsent_message (w_want w))) c else ([], c)
          end
      end
  end.

(** [enqueue]: a frame that expects no answer. *)
Definition fire (f : Frame) (c : Client) : list Out * Client :=
  match slot c with
  | None => ([Refused "not paired"], c)
  | Some l =>
      match links c !! l with
      | None => ([], c)
      | Some lk => match try_enqueue f lk with Err e => ([Refused e], c) | Ok lk' => ([], set_link l lk' c) end
      end
  end.

Definition resume_output (id : SessionId) (c : Client) : list Out * Client :=
  fire (Frame_OutputResume id (default 0 (last_seen_seq c !! id)) (default 0 (last_seen_generation c !! id))) c.

(** An approval goes only to the link that raised it. *)
Definition permission_decision (id : SessionId) (tool_call_id : string) (option_id : option string) (connection : nat)
    (c : Client) : list Out * Client :=
  match slot c with
  | None => ([Refused "not paired"], c)
  | Some l =>
      if negb (l =? connection)%nat
      then ([Refused "this approval belongs to an earlier connection - it can no longer be answered"], c)
      else fire (Frame_AgentPermissionDecision id tool_call_id option_id) c
  end.

(** *** The UI's commands *)

(** The frames of the commands that go through [enqueue]: [detach], [register_push]
    with the blob sealed for the wake, [pause_stream], [resume_stream], [input]. *)
Inductive Plain :=
| Plain_Detach
| Plain_RegisterPush (provider : PushProvider) (token : string) (sealed_wake_blob : bytes)
| Plain_PauseStream
| Plain_ResumeStream
| Plain_Input (id : SessionId) (data : bytes).

Definition plain_frame (p : Plain) : Frame :=
  match p with
  | Plain_Detach => Frame_Detach
  | Plain_RegisterPush provider token blob => Frame_PushRegister provider token blob
  | Plain_PauseStream => Frame_PauseStream
  | Plain_ResumeStream => Frame_ResumeStream
  | Plain_Input id data => Frame_Input id data
  end.

Definition push_provider (name : string) : result string PushProvider :=
  if bool_decide (name = "apns") then Ok Apns
  else if bool_decide (name = "fcm") then Ok Fcm
  else Err "provider must be apns or fcm".

(** The commands that wait for an answer, as the UI calls them. *)
Inductive Command :=
| attach (id : SessionId)
| new_session (title : option string)
| new_agent (provider : string) (title : option string)
| new_agent_in (provider : string) (title : option string) (rel : string)
| new_session_in (rel : string) (title : option string)
| list_terminal_roots
| new_session_in_root (root rel : string) (title : option string)
| list_agent_providers
| resume_agent_session (rel acp_session_id : string)
| list_agent_sessions (rel : string)
| list_agent_sessions_for (rel provider : string)
| list_workspace_dirs (rel : string)
| list_dirs_in (root rel : string)
| agent_prompt (id : SessionId) (text : string)
| agent_cancel (id : SessionId)
| agent_set_mode (id : SessionId) (mode_id : string)
| agent_set_config (id : SessionId) (config_id : string) (value : AgentConfigValue)
| agent_authenticate (id : SessionId) (method_id : string)
| kill_session (id : SessionId)
| rename (id : SessionId) (title : string).

(** What is asked of the host, or why nothing is. *)
Definition command_request (cmd : Command) : result string (RequestKind * option ListingKind) :=
  let plain k := Ok (k, None) in
  match cmd with
  | attach id => plain (RequestKind_Attach id)
  | new_session title => plain (RequestKind_NewSession None title)
  | new_agent provider title =>
      match agent_provider_from_str provider with
      | Ok p => plain (RequestKind_NewAgentSession p title) | Err e => Err e
      end
  | new_agent_in provider title rel =>
      match agent_provider_from_str provider with
      | Ok p => plain (RequestKind_NewAgentSessionIn p title rel) | Err e => Err e
      end
  | new_session_in rel title => plain (RequestKind_NewSessionIn title rel)
  | list_terminal_roots => Ok (RequestKind_ListTerminalRoots, Some Roots)
  | new_session_in_root root rel title =>
      match terminal_root_from_str root with
      | Ok r => plain (RequestKind_NewSessionInRoot r rel title) | Err e => Err e
      end
  | list_agent_providers => Ok (RequestKind_ListAgentProviders, Some Providers)
  | resume_agent_session rel acp => plain (RequestKind_ResumeAgentSession rel acp)
  | list_agent_sessions rel => Ok (RequestKind_ListAgentSessions rel, Some Sessions)
  | list_agent_sessions_for rel provider =>
      match agent_provider_from_str provider with
      | Ok p => Ok (RequestKind_ListAgentSessionsFor rel p, Some Sessions) | Err e => Err e
      end
  | list_workspace_dirs rel => Ok (RequestKind_ListWorkspaceDirs rel, Some Dirs)
  | list_dirs_in root rel =>
      match terminal_root_from_str root with
      | Ok r => Ok (RequestKind_ListDirsIn r rel, Some Dirs) | Err e => Err e
      end
  | agent_prompt id text => plain (RequestKind_AgentPrompt id text)
  | agent_cancel id => plain (RequestKind_AgentCancel id)
  | agent_set_mode id mode_id => plain (RequestKind_AgentSetMode id mode_id)
  | agent_set_config id config_id value => plain (RequestKind_AgentSetConfigOption id config_id value)
  | agent_authenticate id method_id => plain (RequestKind_AgentAuthenticate id method_id)
  | kill_session id => plain (RequestKind_KillSession id)
  | rename id title => plain (RequestKind_RenameSession id title)
  end.

(** What the UI gets of the answer: a command that makes a session needs its number. *)
Inductive CommandValue := Value_Unit | Value_Session (id : SessionId) | Value_Listing (l : Listing).

Definition no_session (cmd : Command) : option string :=
  match cmd with
  | new_session _ | new_session_in _ _ | new_session_in_root _ _ _ => Some "host did not return a session id"%string
  | new_agent _ _ | new_agent_in _ _ _ | resume_agent_session _ _ => Some "host did not return an agent session id"%string
  | _ => None
  end.
Definition command_result (cmd : Command) (r : result string Reply) : result string CommandValue :=
  match r with
  | Err e => Err e
  | Ok (Reply_Listing l) => Ok (Value_Listing l)
  | Ok (Reply_Session s) =>
      match no_session cmd, s with
      | None, _ => Ok Value_Unit
      | Some _, Some id => Ok (Value_Session id)
      | Some e, None => Err e
      end
  end.

(** A frame of a transfer or of the push registration, sent by a task that kept the
    link's sender and waits for room. *)
Definition carries_transfer (f : Frame) : bool :=
  match f with
  | Frame_FileGetReq _ _ _ _ | Frame_FilePutReq _ _ _ _ _ | Frame_FileChunk _ _ _ | Frame_FileDone _ _ _
  | Frame_FileErr _ _ | Frame_FileRetry _ _ | Frame_PushRegister _ _ _ => true
  | _ => false
  end.
Definition send_kept (l : nat) (f : Frame) (c : Client) : list Out * Client :=
  match links c !! l with
  | Some lk =>
      if carries_transfer f then
        match try_enqueue f lk with Ok lk' => ([], set_link l lk' c) | Err _ => ([], c) end
      else ([], c)
  | None => ([], c)
  end.

(** ** What an inbound frame does *)

Definition settle_outcome (req : Z) (o : CommandOutcome) (c : Client) : Client :=
  with_waiters c (alter (λ w, with_outcome w (Got o)) req (waiters c)) (unpairings c).
Definition settle_listing (l : nat) (lk : Link) (k : ListingKind) (req : Z) (x : Listing) (c : Client) : Client :=
  if bool_decide ((k, req) ∈ listings lk) then
    with_waiters (set_link l (with_tables lk (pending lk) (listings lk ∖ {[ (k, req) ]}) (unpairs lk)) c)
      (alter (λ w, with_listing w (Got x)) req (waiters c)) (unpairings c)
  else c.

Definition resolution_name (r : PermissionResolution) : string :=
  match r with Resolution_Allowed => "allowed" | Resolution_Rejected => "rejected" | Resolution_Cancelled => "cancelled" end.
Definition resolver_name (r : PermissionResolver) : string :=
  match r with Resolver_Phone => "phone" | Resolver_Laptop => "laptop" | Resolver_System => "system" end.

(** One frame on link [l]; [None] is the arm declared unreachable. *)
Definition dispatch (l : nat) (lk : Link) (f : Frame) (c : Client) : option (list Out * Client) :=
  let go out c := Some (out, c) in
  match f with
  | Frame_SessionList sessions => go [Ui (Ui_List (info_payload <$> sessions))] c
  | Frame_SessionAdded info => go [Ui (Ui_Added (info_payload info))] c
  | Frame_SessionRemoved id => go [Ui (Ui_Removed id)] c
  | Frame_Output id data => go [Screen l (screen_output id data)] c
  | Frame_SequencedOutput id seq data =>
      go (if bool_decide (data = []) then [] else [Screen l (screen_output id data)])
         (with_seen c (<[id := seq]> (last_seen_seq c)) (last_seen_generation c))
  | Frame_ActivityBlip id => go [Ui (Ui_Activity id)] c
  | Frame_CommandError message => go [Ui (Ui_Error message)] c
  | Frame_ScreenReset id generation =>
      go [Screen l (screen_reset id)] (with_seen c (last_seen_seq c) (<[id := generation]> (last_seen_generation c)))
  | Frame_SessionSize id cols rows => go [Screen l (screen_size id cols rows)] c
  | Frame_CommandResult req outcome =>
      go [] (if bool_decide (req ∈ pending lk)
             then settle_outcome req outcome (set_link l (with_tables lk (pending lk ∖ {[ req ]}) (listings lk) (unpairs lk)) c)
             else c)
  | Frame_WorkspaceDirs req rel names => go [] (settle_listing l lk Dirs req (WorkspaceListing rel names) c)
  | Frame_TerminalRoots req roots => go [] (settle_listing l lk Roots req (RootListing (terminal_root_name <$> roots)) c)
  | Frame_AgentProviders req providers =>
      go [] (settle_listing l lk Providers req
        (ProviderListing ((λ e, {| pr_provider := agent_provider_name (avail_provider e); pr_available := avail_available e;
                                   pr_detail := avail_detail e |}) <$> providers)) c)
  | Frame_AgentSessions req rel sessions =>
      go [] (settle_listing l lk Sessions req
        (AgentSessionListing rel ((λ e, {| row_acp_session_id := summary_acp_session_id e;
           row_provider := agent_provider_name (summary_provider e); row_title := summary_title e;
           row_label := summary_label e; row_last_active_at_unix_ms := summary_last_active_at_unix_ms e |}) <$> sessions)) c)
  | Frame_AgentSnapshot id events => go [Ui (Ui_AgentSnapshot id events)] c
  | Frame_AgentTimeline id event => go [Ui (Ui_AgentEvent id [event])] c
  | Frame_RequestPermission id tool_call options =>
      go [Ui (Ui_Permission {| pp_id := id; pp_tool_call := tool_call; pp_options := options; pp_category := Category_Unknown;
                               pp_connection := l; pp_workspace_scope := Scope_Broad |})] c
  | Frame_PolicyPermissionRequest id tool_call options category scope =>
      go [Ui (Ui_Permission {| pp_id := id; pp_tool_call := tool_call; pp_options := options; pp_category := category;
                               pp_connection := l; pp_workspace_scope := scope |})] c
  | Frame_FileChunk _ _ _ | Frame_FileDone _ _ _ | Frame_FileRetry _ _ | Frame_FileErr _ _ =>
      go [ToTransfers {| peer_device_id := peer lk; pair_id := pair lk |} f] c
  | Frame_PushRegisterAck ok detail => go [Ui (Ui_PushRegistered ok detail)] c
  | Frame_UnpairResult req response_pair committed detail =>
      go [] (if bool_decide (req ∈ unpairs lk) then
               let r := if negb (bool_decide (response_pair = pair lk)) then Err "host replied for a different pair generation"%string
                        else if committed then Ok tt
                        else Err (default "host did not commit revocation"%string detail) in
               with_waiters (set_link l (with_tables lk (pending lk) (listings lk) (unpairs lk ∖ {[ req ]})) c)
                 (waiters c) (alter (λ u, with_reply u (Got r)) req (unpairings c))
             else c)
  | Frame_PairRevoked revoked _ =>
      go [] (if bool_decide (revoked = pair lk) && bool_decide (pairs c !! peer lk = Some (pair lk))
             then set_link l (with_phase lk Revoking (killed lk)) c else c)
  | Frame_AgentPermissionResolved id tool_call_id => go [Ui (Ui_PermissionResolved id tool_call_id None None)] c
  | Frame_AgentPermissionResolvedInfo id tool_call_id r b =>
      go [Ui (Ui_PermissionResolved id tool_call_id (Some (resolution_name r)) (Some (resolver_name b)))] c
  | _ => None
  end.

(** ** The session loop *)

(** The end of the loop: every sender in the link's tables is dropped. *)
Definition drop_outcomes (l : nat) (p : gset Z) (ws : gmap Z Waiter) : gmap Z Waiter :=
  map_imap (λ req w, Some (if bool_decide (w_link w = l ∧ req ∈ p) then with_outcome w Dropped else w)) ws.
Definition drop_listings (l : nat) (p : gset (ListingKind * Z)) (ws : gmap Z Waiter) : gmap Z Waiter :=
  map_imap (λ req w, Some (if bool_decide (w_link w = l) && match w_want w with Some k => bool_decide ((k, req) ∈ p) | None => false end
                           then with_listing w Dropped else w)) ws.
Definition drop_unpairs (l : nat) (p : gset Z) (us : gmap Z Unpairing) : gmap Z Unpairing :=
  map_imap (λ req u, Some (if bool_decide (u_link u = l ∧ req ∈ p) then with_reply u Dropped else u)) us.

Definition stop_loop (l : nat) (lk : Link) (c : Client) : Client :=
  with_waiters (set_link l (with_tables (with_phase lk Closing (killed lk)) ∅ ∅ ∅) c)
    (drop_listings l (listings lk) (drop_outcomes l (pending lk) (waiters c)))
    (drop_unpairs l (unpairs lk) (unpairings c)).

(** A turn that takes a frame from the queue; [wrote]: it reached the socket. *)
Definition loop_out (l : nat) (wrote : bool) (c : Client) : list Out * Client :=
  match links c !! l with
  | Some lk =>
      match phase lk, killed lk, queue lk with
      | Running, false, f :: q =>
          let c := set_link l (with_queue lk q) c in
          if wrote then ([Wire l f], c) else ([], stop_loop l (with_queue lk q) c)
      | _, _, _ => ([], c)
      end
  | None => ([], c)
  end.

(** A turn with a frame that opened. *)
Definition loop_in (l : nat) (f : Frame) (c : Client) : list Out * Client :=
  match links c !! l with
  | Some lk =>
      match phase lk, killed lk with
      | Running, false =>
          if negb (allows_host_to_phone (direction f)) then ([], stop_loop l lk c)
          else default ([], c) (dispatch l lk f c)
      | _, _ => ([], c)
      end
  | None => ([], c)
  end.

(** The rest of a revocation that passed its check; [forgot]: the store deleted it. *)
Definition loop_forget (l : nat) (forgot : bool) (c : Client) : list Out * Client :=
  match links c !! l with
  | Some lk =>
      match phase lk with
      | Revoking =>
          let c := stop_loop l lk c in
          if forgot then ([Ui (Ui_PairRevoked (peer lk))], with_pairs c (delete (peer lk) (pairs c))) else ([], c)
      | _ => ([], c)
      end
  | None => ([], c)
  end.

(** The kill switch, a closed or broken link, an envelope that does not open. *)
Definition loop_break (l : nat) (c : Client) : list Out * Client :=
  match links c !! l with
  | Some lk => match phase lk with Running => ([], stop_loop l lk c) | _ => ([], c) end
  | None => ([], c)
  end.

(** A [Connection] dropped from the slot. *)
Definition kill (l : nat) (c : Client) : Client :=
  with_links c (alter (λ lk, with_phase lk (phase lk) true) l (links c)).

(** [remove_connection_if_current], after the endpoint closed. *)
Definition loop_end (l : nat) (c : Client) : list Out * Client :=
  match links c !! l with
  | Some lk =>
      match phase lk with
      | Closing =>
          let c := set_link l (with_phase lk Over (killed lk)) c in
          if bool_decide (slot c = Some l) then ([Ui Ui_Disconnected], kill l (with_slot c None)) else ([], c)
      | _ => ([], c)
      end
  | None => ([], c)
  end.

(** ** The slot *)

(** The connection taken out: the outcomes that wait are dropped, then it is. *)
Definition take_connection (l : nat) (c : Client) : Client :=
  let c := with_slot c None in
  match links c !! l with
  | Some lk =>
      with_waiters (set_link l (with_phase (with_tables lk ∅ (listings lk) (unpairs lk)) (phase lk) true) c)
        (drop_outcomes l (pending lk) (waiters c)) (unpairings c)
  | None => c
  end.

Definition disconnect (c : Client) : list Out * Client :=
  match slot c with Some l => ([Ui Ui_Disconnected], take_connection l c) | None => ([], c) end.

(** The start of [pair] and [reconnect]. *)
Definition take_lingering (c : Client) : list Out * Client :=
  match slot c with Some l => ([], take_connection l c) | None => ([], c) end.

Definition take_connection_for_peer (host : bytes) (c : Client) : list Out * Client :=
  match slot c with
  | Some l =>
      match links c !! l with
      | Some lk => if bool_decide (peer lk = host) then ([], take_connection l c) else ([], c)
      | None => ([], c)
      end
  | None => ([], c)
  end.

(** The store commits a pairing, then [start_session] puts the link into the slot;
    a connection that is there is dropped. *)
Definition commit_pair (host pr : bytes) (c : Client) : list Out * Client := ([], with_pairs c (<[host := pr]> (pairs c))).

Definition start_session (host pr : bytes) (c : Client) : list Out * Client :=
  let c := match slot c with Some l => kill l c | None => c end in
  let lk := {| peer := host; pair := pr; queue := []; pending := ∅; listings := ∅; unpairs := ∅; phase := Running; killed := false |} in
  ([], with_slot (with_links c (links c ++ [lk])) (Some (length (links c)))).

(** *** [remove_host]: asking the host, then deleting *)
Definition unpair_look (host : bytes) (c : Client) : list Out * Client :=
  match slot c with
  | Some l =>
      match links c !! l with
      | Some lk =>
          if bool_decide (peer lk = host) then
            let req := next_req_id c in
            ([], with_waiters (with_next c (req + 1)) (waiters c)
                   (<[req := {| u_link := l; u_reply := Held; u_sent := false |}]> (unpairings c)))
          else ([], c)
      | None => ([], c)
      end
  | None => ([], c)
  end.

Definition unpair_send (req : Z) (c : Client) : list Out * Client :=
  match unpairings c !! req with
  | Some u =>
      if u_sent u then ([], c)
      else match links c !! u_link u with
      | Some lk =>
          match try_enqueue (Frame_UnpairSelf req (pair lk)) lk with
          | Ok lk' => ([], with_waiters (set_link (u_link u) (with_tables lk' (pending lk') (listings lk') ({[ req ]} ∪ unpairs lk')) c)
                             (waiters c) (<[req := {| u_link := u_link u; u_reply := u_reply u; u_sent := true |}]> (unpairings c)))
          | Err _ => ([Unpaired req false], with_waiters c (waiters c) (delete req (unpairings c)))
          end
      | None => ([], c)
      end
  | None => ([], c)
  end.

Definition unpair_await (req : Z) (timeout : bool) (c : Client) : list Out * Client :=
  match unpairings c !! req with
  | Some u =>
      let over r :=
        ([Unpaired req r],
         with_waiters (with_links c (alter (λ lk, with_tables lk (pending lk) (listings lk) (unpairs lk ∖ {[ req ]})) (u_link u) (links c)))
           (waiters c) (delete req (unpairings c))) in
      if negb (u_sent u) then ([], c)
      else match u_reply u with
           | Got (Ok _) => over true
           | Got (Err _) | Dropped => over false
           | Held => if timeout then over false else ([], c)
           end
  | None => ([], c)
  end.

Definition forget_host (host : bytes) (c : Client) : list Out * Client := ([], with_pairs c (delete host (pairs c))).

(** ** Everything that can happen *)
Inductive Op :=
| BeginRequest (kind : RequestKind) (want : option ListingKind)
| EnqueueRequest (req : Z)
| Await (req : Z) (timeout : bool)
| Fire (p : Plain)
| ResumeOutput (id : SessionId)
| Decide (id : SessionId) (tool_call_id : string) (option_id : option string) (connection : nat)
| SendKept (l : nat) (f : Frame)
| LoopOut (l : nat) (wrote : bool)
| LoopIn (l : nat) (f : Frame)
| LoopForget (l : nat) (forgot : bool)
| LoopBreak (l : nat)
| LoopEnd (l : nat)
| Disconnect
| TakeLingering
| TakePeer (host : bytes)
| CommitPair (host pr : bytes)
| StartSession (host pr : bytes)
| UnpairLook (host : bytes)
| UnpairSend (req : Z)
| UnpairAwait (req : Z) (timeout : bool)
| ForgetHost (host : bytes).

Definition client_step (op : Op) (c : Client) : list Out * Client :=
  match op with
  | BeginRequest kind want => begin_request kind want c
  | EnqueueRequest req => enqueue_request req c
  | Await req timeout => await req timeout c
  | Fire p => fire (plain_frame p) c
  | ResumeOutput id => resume_output id c
  | Decide id t o connection => permission_decision id t o connection c
  | SendKept l f => send_kept l f c
  | LoopOut l wrote => loop_out l wrote c
  | LoopIn l f => loop_in l f c
  | LoopForget l forgot => loop_forget l forgot c
  | LoopBreak l => loop_break l c
  | LoopEnd l => loop_end l c
  | Disconnect => disconnect c
  | TakeLingering => take_lingering c
  | TakePeer host => take_connection_for_peer host c
  | CommitPair host pr => commit_pair host pr c
  | StartSession host pr => start_session host pr c
  | UnpairLook host => unpair_look host c
  | UnpairSend req => unpair_send req c
  | UnpairAwait req timeout => unpair_await req timeout c
  | ForgetHost host => forget_host host c
  end.

Fixpoint client_run (ops : list Op) (c : Client) : list Out * Client :=
  match ops with
  | [] => ([], c)
  | op :: ops => let '(out, c1) := client_step op c in let '(outs, c2) := client_run ops c1 in (out ++ outs, c2)
  end.

Lemma client_run_app l1 l2 c :
  client_run (l1 ++ l2) c =
    let '(out1, c1) := client_run l1 c in let '(out2, c2) := client_run l2 c1 in (out1 ++ out2, c2).
Proof.
  revert c. induction l1 as [|op l1 IH]; intros c; [cbn [app client_run]; by destruct (client_run l2 c)|].
  cbn [app client_run]. destruct (client_step op c) as [out c1]. rewrite IH.
  destruct (client_run l1 c1) as [out1 c2]. destruct (client_run l2 c2) as [out2 c3]. by rewrite app_assoc.
Qed.
Lemma client_run_cons op ops c :
  (client_run (op :: ops) c).1 = (client_step op c).1 ++ (client_run ops (client_step op c).2).1.
Proof. cbn [client_run]. destruct (client_step op c) as [out c1]. cbn [fst snd]. by destruct (client_run ops c1). Qed.
Lemma client_run_snoc ops op c :
  (client_run (ops ++ [op]) c).2 = (client_step op (client_run ops c).2).2 ∧
  (client_run (ops ++ [op]) c).1 = (client_run ops c).1 ++ (client_step op (client_run ops c).2).1.
Proof.
  rewrite client_run_app. destruct (client_run ops c) as [out1 c1]. cbn [client_run snd fst].
  destruct (client_step op c1) as [out2 c2]. cbn. by rewrite app_nil_r.
Qed.

Lemma client_run_inv (P : Client → Prop) c : (∀ op c, P c → P (client_step op c).2) → P c → ∀ ops, P (client_run ops c).2.
Proof.
  intros Hstep Hc ops. induction ops as [|op ops IH] using rev_ind; [done|].
  destruct (client_run_snoc ops op c) as [-> _]. by apply Hstep.
Qed.

(** ** The dispatch *)

(** The arm of the dispatch that is declared unreachable is: every frame a host may
    send has its own. *)
Theorem every_host_frame_is_dispatched l lk f c :
  allows_host_to_phone (direction f) = true ↔ is_Some (dispatch l lk f c).
Proof. split; destruct f; cbn; intros H; try done; try (by eexists); by destruct H. Qed.

(** ** The current link *)

Definition is_over (lk : Link) : bool := match phase lk with Over => true | _ => false end.

(** The link in the slot is the one whose connection was not dropped, and its loop
    is not over. *)
Record current_ok (c : Client) : Prop := {
  cu_link : ∀ l, slot c = Some l → is_Some (links c !! l);
  cu_kept : ∀ l lk, links c !! l = Some lk → killed lk = false ↔ slot c = Some l;
  cu_over : ∀ l lk, links c !! l = Some lk → slot c = Some l → is_over lk = false;
}.

(** What [current_ok] looks at. *)
Definition shape (c : Client) : option nat * list (bool * bool) := (slot c, (λ lk, (killed lk, is_over lk)) <$> links c).

Lemma current_same c c' : shape c' = shape c → current_ok c → current_ok c'.
Proof.
  intros [= Hs Hl] [H1 H2 H3].
  assert (Hlk : ∀ l lk', links c' !! l = Some lk' → ∃ lk, links c !! l = Some lk ∧ killed lk' = killed lk ∧ is_over lk' = is_over lk).
  { intros l lk' Hlk. assert (H : ((λ lk, (killed lk, is_over lk)) <$> links c') !! l = Some (killed lk', is_over lk'))
      by by rewrite list_lookup_fmap, Hlk. rewrite Hl, list_lookup_fmap in H.
    destruct (links c !! l) as [lk|]; [|done]. exists lk. cbn in H. naive_solver. }
  split; rewrite ?Hs.
  - intros l Hsl. destruct (H1 l Hsl) as [lk Hlk1].
    assert (H : ((λ lk, (killed lk, is_over lk)) <$> links c) !! l = Some (killed lk, is_over lk)) by by rewrite list_lookup_fmap, Hlk1.
    rewrite <-Hl, list_lookup_fmap in H. destruct (links c' !! l); [by eexists|done].
  - intros l lk' (lk & Hlk1 & -> & _)%Hlk. by apply H2.
  - intros l lk' (lk & Hlk1 & _ & ->)%Hlk. by apply H3.
Qed.

(** Writing a link back in its shape. *)
Lemma shape_links c ls : ((λ lk, (killed lk, is_over lk)) <$> ls) = ((λ lk, (killed lk, is_over lk)) <$> links c) →
  shape (with_links c ls) = shape c.
Proof. intros H. unfold shape. by rewrite <-H. Qed.

Lemma shape_set_link l lk lk' c : links c !! l = Some lk → killed lk' = killed lk → is_over lk' = is_over lk →
  shape (set_link l lk' c) = shape c.
Proof.
  intros Hl Hk Ho. apply shape_links. rewrite list_fmap_insert. apply list_insert_id.
  by rewrite list_lookup_fmap, Hl, Hk, Ho.
Qed.

Lemma shape_alter (f : Link → Link) l c : (∀ lk, killed (f lk) = killed lk ∧ is_over (f lk) = is_over lk) →
  shape (with_links c (alter f l (links c))) = shape c.
Proof.
  intros Hf. apply shape_links. apply list_eq. intros i. rewrite !list_lookup_fmap.
  destruct (decide (i = l)) as [->|Hne]; [rewrite list_lookup_alter_eq|by rewrite list_lookup_alter_ne].
  destruct (links c !! l) as [lk|]; [|done]. cbn. by destruct (Hf lk) as [-> ->].
Qed.

Lemma forget_listing_shape w req lk :
  killed (forget_listing w req lk) = killed lk ∧ is_over (forget_listing w req lk) = is_over lk ∧
  queue (forget_listing w req lk) = queue lk.
Proof. unfold forget_listing. by destruct (w_want w). Qed.

Lemma shape_finish req w f r c : (∀ lk, killed (f lk) = killed lk ∧ is_over (f lk) = is_over lk) →
  shape (finish req w f r c).2 = shape c.
Proof. intros Hf. unfold finish. cbn [snd]. transitivity (shape (with_links c (alter f (w_link w) (links c)))); [done|]. by apply shape_alter. Qed.

Lemma try_enqueue_Ok f lk lk' : try_enqueue f lk = Ok lk' → lk' = with_queue lk (queue lk ++ [f]) ∧ is_over lk = false.
Proof. unfold try_enqueue, is_over. destruct (phase lk); try done; case_match; naive_solver. Qed.

Lemma shape_stop l lk c : links c !! l = Some lk → is_over lk = false → shape (stop_loop l lk c) = shape c.
Proof.
  intros Hl Ho. transitivity (shape (set_link l (with_tables (with_phase lk Closing (killed lk)) ∅ ∅ ∅) c)); [done|].
  by apply shape_set_link with lk.
Qed.

(** *** What leaves the shape alone *)

Lemma begin_request_shape kind want c : shape (begin_request kind want c).2 = shape c.
Proof.
  unfold begin_request. destruct (slot c) as [l|] eqn:Hs; cbn [slot with_next]; rewrite Hs; [|done].
  cbn [links with_next]. destruct (links c !! l) as [lk|] eqn:Hl; [|done]. cbn [snd].
  transitivity (shape (set_link l (with_tables lk ({[next_req_id c]} ∪ pending lk)
    (match want with Some k => {[(k, next_req_id c)]} ∪ listings lk | None => listings lk end) (unpairs lk)) c)); [done|].
  by apply shape_set_link with lk.
Qed.

Lemma enqueue_request_shape req c : shape (enqueue_request req c).2 = shape c.
Proof.
  unfold enqueue_request. destruct (waiters c !! req) as [w|]; [|done]. destruct (w_phase w); try done.
  destruct (links c !! w_link w) as [lk|] eqn:Hl; [|done]. destruct (try_enqueue _ lk) as [lk'|e] eqn:He.
  - apply try_enqueue_Ok in He as [-> Ho]. cbn [snd].
    transitivity (shape (set_link (w_link w) (with_queue lk (queue lk ++ [Frame_Request req (w_kind w)])) c)); [done|].
    by apply shape_set_link with lk.
  - apply shape_finish. intros lk0. unfold forget_both.
    by destruct (forget_listing_shape w req (with_tables lk0 (pending lk0 ∖ {[req]}) (listings lk0) (unpairs lk0))) as (-> & -> & _).
Qed.

Lemma await_shape req t c : shape (await req t c).2 = shape c.
Proof.
  unfold await. destruct (waiters c !! req) as [w|]; [|done].
  assert (Hf : ∀ r, shape (finish req w (forget_listing w req) r c).2 = shape c).
  { intros r. apply shape_finish. intros lk. by destruct (forget_listing_shape w req lk) as (-> & -> & _). }
  assert (Hb : ∀ r, shape (finish req w (forget_both w req) r c).2 = shape c).
  { intros r. apply shape_finish. intros lk0. unfold forget_both.
    by destruct (forget_listing_shape w req (with_tables lk0 (pending lk0 ∖ {[req]}) (listings lk0) (unpairs lk0))) as (-> & -> & _). }
  assert (Hi : ∀ r, shape (finish req w (λ lk, lk) r c).2 = shape c) by (intros r; by apply shape_finish).
  repeat case_match; cbn [snd]; auto.
Qed.

Lemma fire_shape f c : shape (fire f c).2 = shape c.
Proof.
  unfold fire. destruct (slot c) as [l|] eqn:Hs; [|done]. destruct (links c !! l) as [lk|] eqn:Hl; [|done].
  destruct (try_enqueue f lk) as [lk'|e] eqn:He; [|done]. apply try_enqueue_Ok in He as [-> Ho]. by apply shape_set_link with lk.
Qed.

Lemma settle_listing_shape l lk k req x c : links c !! l = Some lk → shape (settle_listing l lk k req x c) = shape c.
Proof.
  intros Hl. unfold settle_listing. case_bool_decide; [|done].
  transitivity (shape (set_link l (with_tables lk (pending lk) (listings lk ∖ {[(k, req)]}) (unpairs lk)) c)); [done|].
  by apply shape_set_link with lk.
Qed.

Lemma dispatch_shape l lk f c out c' : links c !! l = Some lk → is_over lk = false → dispatch l lk f c = Some (out, c') → shape c' = shape c.
Proof.
  intros Hl Ho Hd. assert (Hsl := λ k req x, settle_listing_shape l lk k req x c Hl).
  destruct f; cbn -[le_bytes settle_listing] in Hd; simplify_eq; try done.
  - case_bool_decide; [|done]. transitivity (shape (set_link l (with_tables lk (pending lk ∖ {[req_id]}) (listings lk) (unpairs lk)) c));
      [done|by apply shape_set_link with lk].
  - case_bool_decide; [|done]. transitivity (shape (set_link l (with_tables lk (pending lk) (listings lk) (unpairs lk ∖ {[request_id]})) c));
      [done|by apply shape_set_link with lk].
  - case_match; [|done]. by apply shape_set_link with lk.
Qed.

Lemma alter_Some {A} (f : A → A) (l : list A) i j x : alter f i l !! j = Some x →
  (i = j ∧ ∃ y, l !! j = Some y ∧ x = f y) ∨ (i ≠ j ∧ l !! j = Some x).
Proof.
  destruct (decide (i = j)) as [->|Hne]; [|rewrite list_lookup_alter_ne by done; by right].
  rewrite list_lookup_alter_eq. destruct (l !! j) as [y|]; [|done]. intros [= <-]. left. eauto.
Qed.

(** *** The slot's own steps *)

Lemma take_connection_current l c : current_ok c → slot c = Some l → current_ok (take_connection l c).
Proof.
  intros [H1 H2 H3] Hs. destruct (H1 l Hs) as [lk Hl]. unfold take_connection. cbn [links with_slot]. rewrite Hl.
  split; cbn.
  - done.
  - intros i lk' Hi. split; [|done]. intros Hk. exfalso.
    apply list_lookup_insert_Some in Hi as [(<- & <- & _)|[Hne Hi]]; [done|].
    apply (H2 _ _ Hi) in Hk. congruence.
  - done.
Qed.

Lemma start_session_current host pr c : current_ok c → current_ok (start_session host pr c).2.
Proof.
  intros [H1 H2 H3]. unfold start_session.
  set (c0 := match slot c with Some l => kill l c | None => c end).
  assert (Hk : ∀ i lk, links c0 !! i = Some lk → killed lk = true).
  { intros i lk Hi. apply not_false_is_true. intros Hf. unfold c0 in Hi. destruct (slot c) as [l|] eqn:Hs.
    - cbn in Hi. apply alter_Some in Hi as [(<- & lk0 & Hl & ->)|[Hne Hi]]; [done|].
      apply (H2 _ _ Hi) in Hf. congruence.
    - by apply (H2 _ _ Hi) in Hf. }
  cbn [snd]. split; cbn.
  - intros l [= <-]. rewrite lookup_app_r, Nat.sub_diag by done. by eexists.
  - intros i lk Hi. apply lookup_app_Some in Hi as [Hi|[Hge Hi]].
    + split; [|intros [= <-]; by apply lookup_lt_Some in Hi; lia]. intros Hf. pose proof (Hk _ _ Hi). congruence.
    + apply list_lookup_singleton_Some in Hi as [Hz <-]. cbn. split; [|done]. intros _. f_equal. lia.
  - intros i lk Hi [= <-]. rewrite lookup_app_r, Nat.sub_diag in Hi by done. by simplify_eq/=.
Qed.

Lemma loop_end_current l c : current_ok c → current_ok (loop_end l c).2.
Proof.
  intros Hc. pose proof Hc as [H1 H2 H3]. unfold loop_end. destruct (links c !! l) as [lk|] eqn:Hl; [|done].
  destruct (phase lk) eqn:Hph; try done. case_bool_decide as Hs; cbn [slot set_link with_links] in Hs; cbn [snd].
  - split; cbn; [done| |done]. intros i lk' Hi. split; [|done]. intros Hf. exfalso.
    apply alter_Some in Hi as [(<- & lk0 & _ & ->)|[Hne Hi]]; [done|].
    rewrite list_lookup_insert_ne in Hi by done. apply (H2 _ _ Hi) in Hf. congruence.
  - split; cbn.
    + intros i Hi. destruct (H1 i Hi) as [lki Hlki]. rewrite list_lookup_insert_ne by congruence. by eexists.
    + intros i lk' Hi. apply list_lookup_insert_Some in Hi as [(<- & <- & _)|[Hne Hi]]; [|by apply H2]. cbn. by apply H2.
    + intros i lk' Hi Hsi. apply list_lookup_insert_Some in Hi as [(<- & <- & _)|[Hne Hi]]; [done|by eapply H3].
Qed.

(** The steps that move the slot or end a link. *)
Definition moves_slot (op : Op) : bool :=
  match op with LoopEnd _ | Disconnect | TakeLingering | TakePeer _ | StartSession _ _ => true | _ => false end.

Lemma client_step_shape op c : moves_slot op = false → shape (client_step op c).2 = shape c.
Proof.
  intros Hm. destruct op; try done; cbn [client_step].
  - apply begin_request_shape.
  - apply enqueue_request_shape.
  - apply await_shape.
  - apply fire_shape.
  - apply fire_shape.
  - unfold permission_decision. destruct (slot c); [|done]. destruct (negb _); [done|apply fire_shape].
  - unfold send_kept. destruct (links c !! l) as [lk|] eqn:Hl; [|done]. destruct (carries_transfer f); [|done].
    destruct (try_enqueue f lk) as [lk'|e] eqn:He; [|done]. apply try_enqueue_Ok in He as [-> Ho]. by apply shape_set_link with lk.
  - unfold loop_out. destruct (links c !! l) as [lk|] eqn:Hl; [|done]. destruct (phase lk) eqn:Hph; try done.
    destruct (killed lk) eqn:Hk; [done|]. destruct (queue lk) as [|f q]; [done|].
    assert (Hs : shape (set_link l (with_queue lk q) c) = shape c) by (by apply shape_set_link with lk).
    destruct wrote; cbn [snd]; [done|].
    rewrite shape_stop; [done|cbn; by rewrite list_lookup_insert_eq by (by eapply lookup_lt_Some)|unfold is_over; cbn; by rewrite Hph].
  - unfold loop_in. destruct (links c !! l) as [lk|] eqn:Hl; [|done]. destruct (phase lk) eqn:Hph; try done.
    destruct (killed lk) eqn:Hk; [done|]. assert (Ho : is_over lk = false) by (unfold is_over; by rewrite Hph).
    destruct (negb _); [by apply shape_stop|].
    destruct (dispatch l lk f c) as [[out c']|] eqn:Hd; [by eapply dispatch_shape|done].
  - unfold loop_forget. destruct (links c !! l) as [lk|] eqn:Hl; [|done]. destruct (phase lk) eqn:Hph; try done.
    assert (Ho : is_over lk = false) by (unfold is_over; by rewrite Hph). destruct forgot; by apply (shape_stop l lk c).
  - unfold loop_break. destruct (links c !! l) as [lk|] eqn:Hl; [|done]. destruct (phase lk) eqn:Hph; try done.
    apply shape_stop; [done|unfold is_over; by rewrite Hph].
  - unfold unpair_look. destruct (slot c) eqn:Hs; [|done]. destruct (links c !! _); [|done]. by case_bool_decide.
  - unfold unpair_send. destruct (unpairings c !! req) as [u|]; [|done]. destruct (u_sent u); [done|].
    destruct (links c !! u_link u) as [lk|] eqn:Hl; [|done]. destruct (try_enqueue _ lk) as [lk'|e] eqn:He; [|done].
    apply try_enqueue_Ok in He as [-> Ho]. cbn [snd].
    match goal with |- shape (with_waiters (set_link _ ?k _) _ _) = _ => transitivity (shape (set_link (u_link u) k c)); [done|] end.
    by apply shape_set_link with lk.
  - unfold unpair_await. destruct (unpairings c !! req) as [u|]; [|done].
    assert (H : shape (with_links c (alter (λ lk, with_tables lk (pending lk) (listings lk) (unpairs lk ∖ {[req]})) (u_link u) (links c))) = shape c)
      by by apply shape_alter.
    repeat case_match; cbn [snd]; try done; exact H.
Qed.

Lemma client_step_current op c : current_ok c → current_ok (client_step op c).2.
Proof.
  intros Hc. destruct (moves_slot op) eqn:Hm; [|by eapply current_same; [apply client_step_shape|]].
  destruct op; try done; cbn [client_step].
  - by apply loop_end_current.
  - unfold disconnect. destruct (slot c) eqn:Hs; [by apply take_connection_current|done].
  - unfold take_lingering. destruct (slot c) eqn:Hs; [by apply take_connection_current|done].
  - unfold take_connection_for_peer. destruct (slot c) eqn:Hs; [|done]. destruct (links c !! _); [|done].
    case_bool_decide; [by apply take_connection_current|done].
  - by apply start_session_current.
Qed.

(** A link that is over stays over. *)
Definition over (c : Client) (l : nat) : Prop := ∃ lk, links c !! l = Some lk ∧ phase lk = Over.

Lemma is_over_phase lk : is_over lk = true ↔ phase lk = Over.
Proof. unfold is_over. destruct (phase lk); naive_solver. Qed.
Lemma over_same c c' l : shape c' = shape c → over c l → over c' l.
Proof.
  intros [= _ Hs] (lk & Hl & Hp). assert (H : ((λ lk, (killed lk, is_over lk)) <$> links c) !! l = Some (killed lk, is_over lk))
    by by rewrite list_lookup_fmap, Hl.
  rewrite <-Hs, list_lookup_fmap in H. destruct (links c' !! l) as [lk'|] eqn:Hl'; [|done]. exists lk'. split; [done|].
  apply is_over_phase. apply is_over_phase in Hp. cbn in H. congruence.
Qed.
Lemma take_connection_over c l k : over c l → over (take_connection k c) l.
Proof.
  intros (lk & Hl & Hp). unfold take_connection. cbn [links with_slot]. destruct (links c !! k) as [lk0|] eqn:Hk; [|by exists lk].
  unfold over. cbn. destruct (decide (k = l)) as [->|Hne]; [|exists lk; by rewrite list_lookup_insert_ne].
  simplify_eq. rewrite list_lookup_insert_eq by (by eapply lookup_lt_Some). by eexists.
Qed.
Lemma kill_over c l k : over c l → over (kill k c) l.
Proof.
  intros (lk & Hl & Hp). unfold over, kill. cbn. destruct (decide (k = l)) as [->|Hne]; [|exists lk; by rewrite list_lookup_alter_ne].
  rewrite list_lookup_alter_eq, Hl. by eexists.
Qed.
Lemma client_step_over op c l : over c l → over (client_step op c).2 l.
Proof.
  intros Ho. destruct (moves_slot op) eqn:Hm; [|by eapply over_same; [apply client_step_shape|]].
  destruct op; try done; cbn [client_step].
  - unfold loop_end. destruct (links c !! l0) as [lk0|] eqn:Hl0; [|done]. destruct (phase lk0) eqn:Hph; try done.
    assert (H : over (set_link l0 (with_phase lk0 Over (killed lk0)) c) l).
    { destruct Ho as (lk & Hl & Hp). unfold over. cbn. destruct (decide (l0 = l)) as [->|Hne]; [congruence|].
      exists lk. by rewrite list_lookup_insert_ne. }
    case_bool_decide; [by apply kill_over|done].
  - unfold disconnect. destruct (slot c); [by apply take_connection_over|done].
  - unfold take_lingering. destruct (slot c); [by apply take_connection_over|done].
  - unfold take_connection_for_peer. destruct (slot c); [|done]. destruct (links c !! _); [|done].
    case_bool_decide; [by apply take_connection_over|done].
  - unfold start_session. cbn [snd].
    assert (H : over (match slot c with Some l => kill l c | None => c end) l) by (destruct (slot c); [by apply kill_over|done]).
    destruct H as (lk & Hl & Hp). exists lk. cbn. split; [by apply lookup_app_l_Some|done].
Qed.

Definition no_link (c : Client) : Prop :=
  slot c = None ∧ links c = [] ∧ waiters c = ∅ ∧ unpairings c = ∅.
Lemma no_link_current c : no_link c → current_ok c.
Proof. intros (Hs & Hl & _). split; rewrite Hs, ?Hl; done. Qed.


(** ** Senders and the commands that wait for them *)

Definition waits_outcome (c : Client) (l : nat) (req : Z) : Prop :=
  ∃ w, waiters c !! req = Some w ∧ w_link w = l ∧ w_outcome w = Held.
Definition waits_listing (c : Client) (l : nat) (k : ListingKind) (req : Z) : Prop :=
  ∃ w, waiters c !! req = Some w ∧ w_link w = l ∧ w_want w = Some k ∧ w_listing w = Held.

(** A link's tables hold the senders of exactly the commands made over it that have
    no answer yet. *)
Record tables_ok (c : Client) : Prop := {
  ta_waiter : ∀ req w, waiters c !! req = Some w → req < next_req_id c ∧ is_Some (links c !! w_link w);
  ta_pending : ∀ l lk req, links c !! l = Some lk → req ∈ pending lk ↔ waits_outcome c l req;
  ta_listings : ∀ l lk k req, links c !! l = Some lk → (k, req) ∈ listings lk ↔ waits_listing c l k req;
}.

(** What [tables_ok] looks at. *)
Definition tables (c : Client) : Z * gmap Z Waiter * list (gset Z * gset (ListingKind * Z)) :=
  (next_req_id c, waiters c, (λ lk, (pending lk, listings lk)) <$> links c).

Lemma tables_lookup c c' l lk' : (λ lk, (pending lk, listings lk)) <$> links c' = (λ lk, (pending lk, listings lk)) <$> links c →
  links c' !! l = Some lk' → ∃ lk, links c !! l = Some lk ∧ pending lk' = pending lk ∧ listings lk' = listings lk.
Proof.
  intros Hl Hlk. assert (H : ((λ lk, (pending lk, listings lk)) <$> links c') !! l = Some (pending lk', listings lk'))
    by by rewrite list_lookup_fmap, Hlk. rewrite Hl, list_lookup_fmap in H.
  destruct (links c !! l) as [lk|]; [|done]. exists lk. cbn in H. naive_solver.
Qed.

Lemma tables_same c c' : tables c' = tables c → tables_ok c → tables_ok c'.
Proof.
  intros [= Hn Hw Hl] [H1 H2 H3]. unfold waits_outcome, waits_listing in *. split; rewrite ?Hn, ?Hw.
  - intros req w Hr. destruct (H1 req w Hr) as [? [lk Hlk]]. split; [done|].
    symmetry in Hl. destruct (tables_lookup c' c _ _ Hl Hlk) as (lk' & -> & _). by eexists.
  - intros l lk' req (lk & Hlk & -> & _)%(tables_lookup c c' _ _ Hl). unfold waits_outcome. rewrite Hw. by apply H2.
  - intros l lk' k req (lk & Hlk & _ & ->)%(tables_lookup c c' _ _ Hl). unfold waits_listing. rewrite Hw. by apply H3.
Qed.

Lemma tables_set_link l lk lk' c : links c !! l = Some lk → pending lk' = pending lk → listings lk' = listings lk →
  tables (set_link l lk' c) = tables c.
Proof.
  intros Hl Hp Hs. unfold tables. cbn. f_equal. rewrite list_fmap_insert. apply list_insert_id.
  by rewrite list_lookup_fmap, Hl, Hp, Hs.
Qed.
Lemma tables_alter f l c : (∀ lk, pending (f lk) = pending lk ∧ listings (f lk) = listings lk) →
  tables (with_links c (alter f l (links c))) = tables c.
Proof.
  intros Hf. unfold tables. cbn. f_equal. apply list_eq. intros i. rewrite !list_lookup_fmap.
  destruct (decide (i = l)) as [->|Hne]; [rewrite list_lookup_alter_eq|by rewrite list_lookup_alter_ne].
  destruct (links c !! l) as [lk|]; [|done]. cbn. by destruct (Hf lk) as [-> ->].
Qed.

(** The waiter of one number and the tables of its link change together. *)
Lemma tables_change c c' req l :
  tables_ok c → next_req_id c' = next_req_id c →
  (∀ r, r ≠ req → waiters c' !! r = waiters c !! r) →
  (∀ w', waiters c' !! req = Some w' → w_link w' = l ∧ is_Some (waiters c !! req)) →
  (∀ w, waiters c !! req = Some w → w_link w = l) →
  (∀ i, is_Some (links c !! i) → is_Some (links c' !! i)) →
  (∀ i lk', links c' !! i = Some lk' → ∃ lk, links c !! i = Some lk ∧
     (∀ r, r ≠ req → r ∈ pending lk' ↔ r ∈ pending lk) ∧ (∀ k r, r ≠ req → (k, r) ∈ listings lk' ↔ (k, r) ∈ listings lk) ∧
     (i ≠ l → (req ∈ pending lk' ↔ req ∈ pending lk) ∧ ∀ k, (k, req) ∈ listings lk' ↔ (k, req) ∈ listings lk) ∧
     (i = l → (req ∈ pending lk' ↔ waits_outcome c' l req) ∧ ∀ k, (k, req) ∈ listings lk' ↔ waits_listing c' l k req)) →
  tables_ok c'.
Proof.
  intros [H1 H2 H3] Hn Hother Hreq Hold Hsome Hlk. split.
  - intros r w Hw. rewrite Hn. destruct (decide (r = req)) as [->|Hne].
    + destruct (Hreq w Hw) as [Hl [w0 Hw0]]. destruct (H1 req w0 Hw0) as [? Hs]. split; [done|]. apply Hsome.
      rewrite (Hold w0 Hw0) in Hs. by rewrite Hl.
    + rewrite Hother in Hw by done. destruct (H1 r w Hw) as [? Hs]. split; [done|]. by apply Hsome.
  - intros i lk' r Hi. destruct (Hlk i lk' Hi) as (lk & Hl & Hp & _ & Hne & Heq). destruct (decide (r = req)) as [->|Hr].
    + destruct (decide (i = l)) as [->|Hil]; [by apply Heq|]. destruct (Hne Hil) as [-> _]. rewrite (H2 i lk req Hl).
      unfold waits_outcome. split; intros (w & Hw & Hl' & _).
      * exfalso. apply Hil. rewrite <-Hl'. by apply Hold.
      * exfalso. apply Hil. rewrite <-Hl'. by apply (Hreq w Hw).
    + rewrite Hp, (H2 i lk r Hl) by done. unfold waits_outcome. by rewrite Hother.
  - intros i lk' k r Hi. destruct (Hlk i lk' Hi) as (lk & Hl & _ & Hp & Hne & Heq). destruct (decide (r = req)) as [->|Hr].
    + destruct (decide (i = l)) as [->|Hil]; [by apply Heq|]. destruct (Hne Hil) as [_ ->]. rewrite (H3 i lk k req Hl).
      unfold waits_listing. split; intros (w & Hw & Hl' & _).
      * exfalso. apply Hil. rewrite <-Hl'. by apply Hold.
      * exfalso. apply Hil. rewrite <-Hl'. by apply (Hreq w Hw).
    + rewrite Hp, (H3 i lk k r Hl) by done. unfold waits_listing. by rewrite Hother.
Qed.

Lemma pending_held c l lk req w : tables_ok c → links c !! l = Some lk → waiters c !! req = Some w →
  req ∈ pending lk → w_link w = l ∧ w_outcome w = Held.
Proof. intros Hc Hl Hw Hin. apply (ta_pending _ Hc _ _ _ Hl) in Hin as (w' & Hw' & ? & ?). by simplify_eq. Qed.
Lemma listing_held c l lk k req w : tables_ok c → links c !! l = Some lk → waiters c !! req = Some w →
  (k, req) ∈ listings lk → w_link w = l ∧ w_want w = Some k ∧ w_listing w = Held.
Proof. intros Hc Hl Hw Hin. apply (ta_listings _ Hc _ _ _ _ Hl) in Hin as (w' & Hw' & ? & ? & ?). by simplify_eq. Qed.

Definition frees (f : Link → Link) (req : Z) (lk : Link) : Prop :=
  (∀ x, x ∈ pending (f lk) ↔ x ∈ pending lk ∧ x ≠ req) ∧ (∀ k x, (k, x) ∈ listings (f lk) ↔ (k, x) ∈ listings lk ∧ x ≠ req).

Lemma finish_tables req w f r c : tables_ok c → waiters c !! req = Some w →
  (∀ lk, links c !! w_link w = Some lk → frees f req lk) → tables_ok (finish req w f r c).2.
Proof.
  intros Hc Hw Hf. apply (tables_change c _ req (w_link w)); [done|done|..]; cbn.
  - intros r' Hr. by rewrite lookup_delete_ne.
  - intros w'. by rewrite lookup_delete_eq.
  - intros w' ?. by simplify_eq.
  - intros i [lk Hi]. destruct (decide (w_link w = i)) as [->|Hne].
    + rewrite list_lookup_alter_eq, Hi. by eexists.
    + rewrite list_lookup_alter_ne by done. by eexists.
  - intros i lk' [(<- & lk & Hl & ->)|[Hne Hl]]%alter_Some.
    + destruct (Hf lk Hl) as [Hp Hs]. exists lk. split_and!; [done|..].
      * intros x Hx. rewrite Hp. tauto.
      * intros k x Hx. rewrite Hs. tauto.
      * done.
      * intros _. unfold waits_outcome, waits_listing. cbn. rewrite lookup_delete_eq, Hp. split; [naive_solver|].
        intros k. rewrite Hs. naive_solver.
    + exists lk'. split_and!; [done..|]. intros ->. by destruct Hne.
Qed.

(** Nothing of a settled command is left; what a giving-up command leaves. *)
Lemma frees_both w req lk c : tables_ok c → waiters c !! req = Some w → links c !! w_link w = Some lk →
  frees (forget_both w req) req lk.
Proof.
  intros Hc Hw Hl. unfold frees, forget_both, forget_listing. destruct (w_want w) as [k0|] eqn:Hk; cbn; (split; [set_solver|]); intros k x.
  - rewrite elem_of_difference, elem_of_singleton. split; [|intros [? ?]; split; [done|naive_solver]].
    intros [Hin Hne]. split; [done|]. intros ->. destruct (listing_held _ _ _ _ _ _ Hc Hl Hw Hin) as (_ & Hk' & _). congruence.
  - split; [|by intros [? _]]. intros Hin. split; [done|]. intros ->.
    destruct (listing_held _ _ _ _ _ _ Hc Hl Hw Hin) as (_ & Hk' & _). congruence.
Qed.

Lemma frees_listing w req lk c : tables_ok c → waiters c !! req = Some w → links c !! w_link w = Some lk →
  w_outcome w ≠ Held → frees (forget_listing w req) req lk.
Proof.
  intros Hc Hw Hl Ho. destruct (frees_both w req lk c Hc Hw Hl) as [_ Hs]. split.
  - intros x. assert (pending (forget_listing w req lk) = pending lk) as -> by (unfold forget_listing; by destruct (w_want w)).
    split; [|by intros [? _]]. intros Hin. split; [done|]. intros ->. by destruct (pending_held _ _ _ _ _ Hc Hl Hw Hin).
  - intros k x. rewrite <-Hs. unfold forget_both, forget_listing. by destruct (w_want w).
Qed.

Lemma frees_none w req lk c : tables_ok c → waiters c !! req = Some w → links c !! w_link w = Some lk →
  w_outcome w ≠ Held → (w_want w = None ∨ w_listing w ≠ Held) → frees (λ lk, lk) req lk.
Proof.
  intros Hc Hw Hl Ho Hli. split.
  - intros x. split; [|by intros [? _]]. intros Hin. split; [done|]. intros ->. by destruct (pending_held _ _ _ _ _ Hc Hl Hw Hin).
  - intros k x. split; [|by intros [? _]]. intros Hin. split; [done|]. intros ->.
    destruct (listing_held _ _ _ _ _ _ Hc Hl Hw Hin) as (_ & ? & ?). destruct Hli; congruence.
Qed.

(** A command past its outcome has had it, and wants a listing. *)
Definition waits_ok (c : Client) : Prop :=
  ∀ req w, waiters c !! req = Some w → w_phase w = AwaitingListing →
    (∃ s, w_outcome w = Got (CommandOutcome_Ok s)) ∧ is_Some (w_want w).

(** A phase moves on. *)
Lemma with_wait_tables req w ph c : tables_ok c → waiters c !! req = Some w →
  tables_ok (with_waiters c (<[req := with_wait w ph]> (waiters c)) (unpairings c)).
Proof.
  intros Hc Hw. apply (tables_change c _ req (w_link w)); [done|done|..]; cbn.
  - intros r Hr. by rewrite lookup_insert_ne.
  - intros w'. rewrite lookup_insert_eq. intros [= <-]. split; [done|by eexists].
  - intros w' ?. by simplify_eq.
  - done.
  - intros i lk Hi. exists lk. split_and!; try done. intros ->. unfold waits_outcome, waits_listing. cbn. rewrite lookup_insert_eq. split.
    + rewrite (ta_pending _ Hc _ _ _ Hi). unfold waits_outcome. rewrite Hw. split; intros (w' & [= <-] & ?); by eexists.
    + intros k. rewrite (ta_listings _ Hc _ _ _ _ Hi). unfold waits_listing. rewrite Hw. split; intros (w' & [= <-] & ?); by eexists.
Qed.

Lemma begin_request_tables kind want c : tables_ok c → tables_ok (begin_request kind want c).2.
Proof.
  intros Hc. pose proof Hc as [H1 H2 H3]. unfold begin_request. cbn [slot with_next].
  assert (Hnext : tables_ok (with_next c (next_req_id c + 1))).
  { split; cbn; [|done|done]. intros req w Hw. destruct (H1 req w Hw). split; [lia|done]. }
  destruct (slot c) as [l|]; [|done]. cbn [links with_next]. destruct (links c !! l) as [lk|] eqn:Hl; [|done]. cbn [snd].
  set (req := next_req_id c) in *.
  assert (Hfresh : ∀ r w, waiters c !! r = Some w → r ≠ req) by (intros r w Hw; destruct (H1 r w Hw); lia).
  assert (Hnone : waiters c !! req = None) by (apply eq_None_not_Some; intros [w Hw]; by eapply Hfresh).
  assert (Hnp : ∀ i lki, links c !! i = Some lki → req ∉ pending lki).
  { intros i lki Hi Hin. apply (H2 _ _ _ Hi) in Hin as (w & Hw & _). congruence. }
  assert (Hnl : ∀ i lki k, links c !! i = Some lki → (k, req) ∉ listings lki).
  { intros i lki k Hi Hin. apply (H3 _ _ _ _ Hi) in Hin as (w & Hw & _). congruence. }
  split; cbn.
  - intros r w. rewrite lookup_insert_Some. intros [[<- <-]|[Hne Hw]].
    + split; [lia|]. cbn. rewrite list_lookup_insert_eq by (by eapply lookup_lt_Some). by eexists.
    + destruct (H1 r w Hw) as [? Hs]. split; [lia|]. apply lookup_lt_is_Some. rewrite length_insert. by apply lookup_lt_is_Some.
  - intros i lk' r Hi. unfold waits_outcome. cbn. apply list_lookup_insert_Some in Hi as [(<- & <- & _)|[Hne Hi]]; cbn.
    + rewrite elem_of_union, elem_of_singleton, (H2 _ _ _ Hl). unfold waits_outcome. split.
      * intros [->|(w & Hw & ?)]; [rewrite lookup_insert_eq; by eexists|]. exists w.
        rewrite lookup_insert_ne; [done|]. intros <-. by eapply Hfresh.
      * intros (w & Hw & ?). apply lookup_insert_Some in Hw as [[<- _]|[_ Hw]]; [by left|right; by exists w].
    + rewrite (H2 _ _ _ Hi). unfold waits_outcome. split; intros (w & Hw & Hwl & ?).
      * exists w. rewrite lookup_insert_ne; [done|]. intros <-. by eapply Hfresh.
      * apply lookup_insert_Some in Hw as [[_ <-]|[_ Hw]]; [done|by exists w].
  - intros i lk' k r Hi. unfold waits_listing. cbn. apply list_lookup_insert_Some in Hi as [(<- & <- & _)|[Hne Hi]]; cbn.
    + assert (Hin : (k, r) ∈ match want with Some k => {[(k, req)]} ∪ listings lk | None => listings lk end ↔
        (want = Some k ∧ r = req) ∨ (k, r) ∈ listings lk).
      { destruct want as [k0|]; [rewrite elem_of_union, elem_of_singleton|]; naive_solver. }
      rewrite Hin, (H3 _ _ _ _ Hl). unfold waits_listing. split.
      * intros [[-> ->]|(w & Hw & ?)]; [rewrite lookup_insert_eq; by eexists|]. exists w.
        rewrite lookup_insert_ne; [done|]. intros <-. by eapply Hfresh.
      * intros (w & Hw & ?). apply lookup_insert_Some in Hw as [[<- <-]|[_ Hw]]; [left; naive_solver|right; by exists w].
    + rewrite (H3 _ _ _ _ Hi). unfold waits_listing. split; intros (w & Hw & Hwl & ?).
      * exists w. rewrite lookup_insert_ne; [done|]. intros <-. by eapply Hfresh.
      * apply lookup_insert_Some in Hw as [[_ <-]|[_ Hw]]; [done|by exists w].
Qed.

Lemma enqueue_request_tables req c : tables_ok c → tables_ok (enqueue_request req c).2.
Proof.
  intros Hc. unfold enqueue_request. destruct (waiters c !! req) as [w|] eqn:Hw; [|done]. destruct (w_phase w); try done.
  destruct (links c !! w_link w) as [lk|] eqn:Hl; [|done]. destruct (try_enqueue _ lk) as [lk'|e] eqn:He.
  - apply try_enqueue_Ok in He as [-> _]. cbn [snd].
    apply (tables_same (with_waiters c (<[req := with_wait w AwaitingOutcome]> (waiters c)) (unpairings c))); [|by apply with_wait_tables].
    set (c1 := with_waiters c _ _).
    transitivity (tables (set_link (w_link w) (with_queue lk (queue lk ++ [Frame_Request req (w_kind w)])) c1)); [done|].
    by apply tables_set_link with lk.
  - apply finish_tables; [done|done|]. intros lk0 Hl0. by eapply frees_both.
Qed.

Lemma await_tables req t c : waits_ok c → tables_ok c → tables_ok (await req t c).2.
Proof.
  intros Hp Hc. unfold await. destruct (waiters c !! req) as [w|] eqn:Hw; [|done].
  assert (Hb : ∀ r, tables_ok (finish req w (forget_both w req) r c).2).
  { intros r. apply finish_tables; [done|done|]. intros lk Hl. by eapply frees_both. }
  assert (Hf : w_outcome w ≠ Held → ∀ r, tables_ok (finish req w (forget_listing w req) r c).2).
  { intros Ho r. apply finish_tables; [done|done|]. intros lk Hl. by eapply frees_listing. }
  assert (Hi : w_outcome w ≠ Held → w_want w = None ∨ w_listing w ≠ Held → ∀ r, tables_ok (finish req w (λ lk, lk) r c).2).
  { intros Ho Hn r. apply finish_tables; [done|done|]. intros lk Hl. by eapply frees_none. }
  destruct (w_phase w) eqn:Hph; [done|..].
  - destruct (w_outcome w) as [|[s|m]|] eqn:Ho.
    + destruct t; [apply Hb|done].
    + destruct (w_want w) as [k|] eqn:Hk; [by apply with_wait_tables|]. apply Hi; [done|by left].
    + by apply Hf.
    + by apply Hf.
  - destruct (Hp req w Hw Hph) as [[s Ho] _]. rewrite Ho in *. destruct (w_listing w) as [|x|] eqn:Hx.
    + destruct t; [by apply Hf|done].
    + apply Hi; [done|by right].
    + by apply Hf.
Qed.

(** A sender taken out of a table by the link it is in, and its receiver told. *)
Lemma settle_outcome_tables l lk req o c : tables_ok c → links c !! l = Some lk → req ∈ pending lk →
  tables_ok (settle_outcome req o (set_link l (with_tables lk (pending lk ∖ {[req]}) (listings lk) (unpairs lk)) c)).
Proof.
  intros Hc Hl Hin. pose proof Hin as (w & Hw & Hwl & Hh)%(ta_pending _ Hc _ _ _ Hl).
  apply (tables_change c _ req l); [done|done|..]; cbn.
  - intros r Hr. by rewrite lookup_alter_ne.
  - intros w'. rewrite lookup_alter_eq, Hw. cbn. intros [= <-]. split; [done|by eexists].
  - intros w' ?. by simplify_eq.
  - intros i [lki Hi]. apply lookup_lt_is_Some. rewrite length_insert. by eapply lookup_lt_Some.
  - intros i lk' [(<- & <- & _)|[Hne Hi]]%list_lookup_insert_Some.
    + exists lk. cbn. split_and!; [done|set_solver|done|done|]. intros _. unfold waits_outcome, waits_listing. cbn.
      rewrite lookup_alter_eq, Hw. cbn. split.
      * split; [set_solver|]. by intros (w' & [= <-] & _ & ?).
      * intros k. rewrite (ta_listings _ Hc _ _ _ _ Hl). unfold waits_listing. rewrite Hw. split; intros (w' & [= <-] & ?); by eexists.
    + exists lk'. split_and!; [done..|]. intros ->. by destruct Hne.
Qed.

Lemma settle_listing_tables l lk k req x c : tables_ok c → links c !! l = Some lk → tables_ok (settle_listing l lk k req x c).
Proof.
  intros Hc Hl. unfold settle_listing. case_bool_decide as Hin; [|done].
  pose proof Hin as (w & Hw & Hwl & Hk & Hh)%(ta_listings _ Hc _ _ _ _ Hl).
  apply (tables_change c _ req l); [done|done|..]; cbn.
  - intros r Hr. by rewrite lookup_alter_ne.
  - intros w'. rewrite lookup_alter_eq, Hw. cbn. intros [= <-]. split; [done|by eexists].
  - intros w' ?. by simplify_eq.
  - intros i [lki Hi]. apply lookup_lt_is_Some. rewrite length_insert. by eapply lookup_lt_Some.
  - intros i lk' [(<- & <- & _)|[Hne Hi]]%list_lookup_insert_Some.
    + exists lk. cbn. split_and!; [done|done|set_solver|done|]. intros _. unfold waits_outcome, waits_listing. cbn.
      rewrite lookup_alter_eq, Hw. cbn. split.
      * rewrite (ta_pending _ Hc _ _ _ Hl). unfold waits_outcome. rewrite Hw. split; intros (w' & [= <-] & ?); by eexists.
      * intros k'. rewrite elem_of_difference, elem_of_singleton. split.
        -- intros [Hin' Hne]. destruct (listing_held _ _ _ _ _ _ Hc Hl Hw Hin') as (_ & Hk' & _). congruence.
        -- by intros (w' & [= <-] & _ & _ & ?).
    + exists lk'. split_and!; [done..|]. intros ->. by destruct Hne.
Qed.

(** Dropping all the outcomes of a link, or all its senders. *)
Lemma drop_outcomes_lookup l p ws r : drop_outcomes l p ws !! r =
  (λ w, if bool_decide (w_link w = l ∧ r ∈ p) then with_outcome w Dropped else w) <$> ws !! r.
Proof. unfold drop_outcomes. rewrite map_lookup_imap. by destruct (ws !! r). Qed.
Lemma drop_listings_lookup l p ws r : drop_listings l p ws !! r =
  (λ w, if bool_decide (w_link w = l) && match w_want w with Some k => bool_decide ((k, r) ∈ p) | None => false end
        then with_listing w Dropped else w) <$> ws !! r.
Proof. unfold drop_listings. rewrite map_lookup_imap. by destruct (ws !! r). Qed.

Lemma drop_outcomes_tables l lk lk' c : tables_ok c → links c !! l = Some lk → pending lk' = ∅ → listings lk' = listings lk →
  tables_ok (with_waiters (set_link l lk' c) (drop_outcomes l (pending lk) (waiters c)) (unpairings c)).
Proof.
  intros Hc Hl Hp Hs. pose proof Hc as [H1 H2 H3]. split; cbn.
  - intros r w. rewrite drop_outcomes_lookup. destruct (waiters c !! r) as [w0|] eqn:Hw; [|done]. cbn. intros [= <-].
    destruct (H1 r w0 Hw) as [? Hsm]. split; [done|]. assert (w_link (if bool_decide (w_link w0 = l ∧ r ∈ pending lk) then with_outcome w0 Dropped else w0) = w_link w0) as -> by by case_bool_decide.
    apply lookup_lt_is_Some. rewrite length_insert. by apply lookup_lt_is_Some.
  - intros i lki r Hi. unfold waits_outcome. cbn. rewrite drop_outcomes_lookup.
    apply list_lookup_insert_Some in Hi as [(<- & <- & _)|[Hne Hi]].
    + rewrite Hp. split; [set_solver|]. intros (w & Hw & Hwl & Hh). exfalso.
      destruct (waiters c !! r) as [w0|] eqn:Hw0; [|done]. cbn in Hw. injection Hw as <-.
      case_bool_decide as Hb; [done|]. apply Hb. split; [done|]. apply (H2 _ _ _ Hl). by exists w0.
    + rewrite (H2 _ _ _ Hi). unfold waits_outcome. destruct (waiters c !! r) as [w0|]; cbn; [|naive_solver].
      case_bool_decide as Hb; [|done]. split; intros (w & [= <-] & Hwl & Hh); [|done]. exfalso. naive_solver.
  - intros i lki k r Hi. unfold waits_listing. cbn. rewrite drop_outcomes_lookup.
    assert (Heq : (k, r) ∈ listings lki ↔ waits_listing c i k r).
    { apply list_lookup_insert_Some in Hi as [(<- & <- & _)|[Hne Hi]]; [rewrite Hs|]; by apply H3. }
    rewrite Heq. unfold waits_listing. destruct (waiters c !! r) as [w0|]; cbn; [|naive_solver].
    case_bool_decide; [|done]. split; intros (w & [= <-] & ?); by eexists.
Qed.

Lemma drop_listings_tables l lk lk' c : tables_ok c → links c !! l = Some lk → pending lk' = pending lk → listings lk' = ∅ →
  tables_ok (with_waiters (set_link l lk' c) (drop_listings l (listings lk) (waiters c)) (unpairings c)).
Proof.
  intros Hc Hl Hp Hs. pose proof Hc as [H1 H2 H3].
  assert (Hlink : ∀ (b : bool) w, w_link (if b then with_listing w Dropped else w) = w_link w) by (intros [] w; done).
  assert (Hwant : ∀ (b : bool) w, w_want (if b then with_listing w Dropped else w) = w_want w) by (intros [] w; done).
  assert (Hout : ∀ (b : bool) w, w_outcome (if b then with_listing w Dropped else w) = w_outcome w) by (intros [] w; done).
  split; cbn.
  - intros r w. rewrite drop_listings_lookup. destruct (waiters c !! r) as [w0|] eqn:Hw; [|done]. cbn. intros [= <-].
    destruct (H1 r w0 Hw) as [? Hsm]. split; [done|]. rewrite Hlink.
    apply lookup_lt_is_Some. rewrite length_insert. by apply lookup_lt_is_Some.
  - intros i lki r Hi. unfold waits_outcome. cbn. rewrite drop_listings_lookup.
    assert (Heq : r ∈ pending lki ↔ waits_outcome c i r).
    { apply list_lookup_insert_Some in Hi as [(<- & <- & _)|[Hne Hi]]; [rewrite Hp|]; by apply H2. }
    rewrite Heq. unfold waits_outcome. destruct (waiters c !! r) as [w0|]; cbn; [|naive_solver].
    split; intros (w & [= <-] & Hwl & Hh); (eexists; split; [done|]); by rewrite ?Hlink, ?Hout in *.
  - intros i lki k r Hi. unfold waits_listing. cbn. rewrite drop_listings_lookup.
    apply list_lookup_insert_Some in Hi as [(<- & <- & _)|[Hne Hi]].
    + rewrite Hs. split; [set_solver|]. intros (w & Hw & Hwl & Hk & Hh). exfalso.
      destruct (waiters c !! r) as [w0|] eqn:Hw0; [|done]. cbn in Hw. injection Hw as <-. rewrite Hlink in Hwl. rewrite Hwant in Hk.
      rewrite (bool_decide_eq_true_2 _ Hwl), Hk in Hh. cbn in Hh.
      case_bool_decide as Hb; [done|]. apply Hb. apply (H3 _ _ _ _ Hl). by exists w0.
    + rewrite (H3 _ _ _ _ Hi). unfold waits_listing. destruct (waiters c !! r) as [w0|]; cbn; [|naive_solver].
      destruct (bool_decide (w_link w0 = l)) eqn:Hb; [|done]. apply bool_decide_eq_true in Hb.
      split; intros (w & [= <-] & Hwl & ?); exfalso; [naive_solver|]. rewrite Hlink in Hwl. naive_solver.
Qed.

Lemma stop_loop_tables l lk c : tables_ok c → links c !! l = Some lk → tables_ok (stop_loop l lk c).
Proof.
  intros Hc Hl. unfold stop_loop.
  pose proof (drop_outcomes_tables l lk (with_tables lk ∅ (listings lk) (unpairs lk)) c Hc Hl eq_refl eq_refl) as Hc1.
  set (c1 := with_waiters _ _ _) in Hc1.
  assert (Hl1 : links c1 !! l = Some (with_tables lk ∅ (listings lk) (unpairs lk))) by (cbn; apply list_lookup_insert_eq; by eapply lookup_lt_Some).
  pose proof (drop_listings_tables l _ (with_tables (with_phase lk Closing (killed lk)) ∅ ∅ ∅) c1 Hc1 Hl1 eq_refl eq_refl) as Hc2.
  eapply tables_same; [|exact Hc2]. unfold tables. cbn. by rewrite list_insert_insert_eq.
Qed.

Lemma take_connection_tables l c : tables_ok c → tables_ok (take_connection l c).
Proof.
  intros Hc. unfold take_connection. cbn [links with_slot]. destruct (links c !! l) as [lk|] eqn:Hl; [|by apply (tables_same c)].
  apply (tables_same (with_waiters (set_link l (with_phase (with_tables lk ∅ (listings lk) (unpairs lk)) (phase lk) true) c)
    (drop_outcomes l (pending lk) (waiters c)) (unpairings c))); [done|]. by apply drop_outcomes_tables.
Qed.

Lemma dispatch_tables l lk f c out c' : tables_ok c → links c !! l = Some lk → dispatch l lk f c = Some (out, c') → tables_ok c'.
Proof.
  intros Hc Hl Hd. assert (Hsl := λ k req x, settle_listing_tables l lk k req x c Hc Hl).
  destruct f; cbn -[le_bytes settle_listing settle_outcome] in Hd; simplify_eq; try first [exact Hc|apply Hsl|by apply (tables_same c)].
  - case_bool_decide; [by apply settle_outcome_tables|done].
  - case_bool_decide; [|done].
    apply (tables_same (set_link l (with_tables lk (pending lk) (listings lk) (unpairs lk ∖ {[request_id]})) c)); [done|].
    eapply tables_same; [|exact Hc]. by apply tables_set_link with lk.
  - case_match; [|done]. eapply tables_same; [|exact Hc]. by apply tables_set_link with lk.
Qed.

Lemma fire_tables f c : tables (fire f c).2 = tables c.
Proof.
  unfold fire. destruct (slot c) as [l|] eqn:Hs; [|done]. destruct (links c !! l) as [lk|] eqn:Hl; [|done].
  destruct (try_enqueue f lk) as [lk'|e] eqn:He; [|done]. apply try_enqueue_Ok in He as [-> _]. by apply tables_set_link with lk.
Qed.

Lemma kill_tables l c : tables (kill l c) = tables c.
Proof. by apply tables_alter. Qed.

Lemma loop_end_tables l c : tables (loop_end l c).2 = tables c.
Proof.
  unfold loop_end. destruct (links c !! l) as [lk|] eqn:Hl; [|done]. destruct (phase lk); try done.
  case_bool_decide; cbn [snd].
  - rewrite kill_tables. transitivity (tables (set_link l (with_phase lk Over (killed lk)) c)); [done|]. by apply tables_set_link with lk.
  - by apply tables_set_link with lk.
Qed.

Lemma start_session_tables host pr c : tables_ok c → tables_ok (start_session host pr c).2.
Proof.
  intros Hc. unfold start_session. set (c0 := match slot c with Some l => kill l c | None => c end).
  assert (H0 : tables_ok c0) by (unfold c0; destruct (slot c); [eapply tables_same; [apply kill_tables|done]|done]).
  clearbody c0. destruct H0 as [H1 H2 H3]. cbn [snd].
  assert (Hnew : ∀ r w, waiters c0 !! r = Some w → w_link w ≠ length (links c0)).
  { intros r w Hw Heq. destruct (H1 r w Hw) as [_ [lk Hlk]]. apply lookup_lt_Some in Hlk. lia. }
  split; cbn.
  - intros r w Hw. destruct (H1 r w Hw) as [? [lk Hlk]]. split; [done|]. exists lk. by apply lookup_app_l_Some.
  - intros l lk r [Hi|[Hge Hi]]%lookup_app_Some; [by apply H2|]. apply list_lookup_singleton_Some in Hi as [Hz <-]. cbn.
    split; [set_solver|]. intros (w & Hw & Hwl & _). destruct (Hnew r w Hw). lia.
  - intros l lk k r [Hi|[Hge Hi]]%lookup_app_Some; [by apply H3|]. apply list_lookup_singleton_Some in Hi as [Hz <-]. cbn.
    split; [set_solver|]. intros (w & Hw & Hwl & _). destruct (Hnew r w Hw). lia.
Qed.

Lemma client_step_tables op c : waits_ok c → tables_ok c → tables_ok (client_step op c).2.
Proof.
  intros Hw Hc. destruct op; cbn [client_step].
  - by apply begin_request_tables.
  - by apply enqueue_request_tables.
  - by apply await_tables.
  - eapply tables_same; [apply fire_tables|done].
  - eapply tables_same; [apply fire_tables|done].
  - unfold permission_decision. destruct (slot c); [|done]. destruct (negb _); [done|]. eapply tables_same; [apply fire_tables|done].
  - unfold send_kept. destruct (links c !! l) as [lk|] eqn:Hl; [|done]. destruct (carries_transfer f); [|done].
    destruct (try_enqueue f lk) as [lk'|e] eqn:He; [|done]. apply try_enqueue_Ok in He as [-> _].
    eapply tables_same; [|done]. by apply tables_set_link with lk.
  - unfold loop_out. destruct (links c !! l) as [lk|] eqn:Hl; [|done]. destruct (phase lk); try done.
    destruct (killed lk); [done|]. destruct (queue lk) as [|f q]; [done|].
    assert (Hs : tables_ok (set_link l (with_queue lk q) c)) by (eapply tables_same; [by apply tables_set_link with lk|done]).
    destruct wrote; cbn [snd]; [done|]. apply stop_loop_tables; [done|]. cbn. by rewrite list_lookup_insert_eq by (by eapply lookup_lt_Some).
  - unfold loop_in. destruct (links c !! l) as [lk|] eqn:Hl; [|done]. destruct (phase lk); try done.
    destruct (killed lk); [done|]. destruct (negb _); [by apply stop_loop_tables|].
    destruct (dispatch l lk f c) as [[out c']|] eqn:Hd; [|done]. by eapply dispatch_tables.
  - unfold loop_forget. destruct (links c !! l) as [lk|] eqn:Hl; [|done]. destruct (phase lk); try done.
    assert (Hs := stop_loop_tables l lk c Hc Hl). destruct forgot; [|done]. by apply (tables_same (stop_loop l lk c)).
  - unfold loop_break. destruct (links c !! l) as [lk|] eqn:Hl; [|done]. destruct (phase lk); try done. by apply stop_loop_tables.
  - eapply tables_same; [apply loop_end_tables|done].
  - unfold disconnect. destruct (slot c); [by apply take_connection_tables|done].
  - unfold take_lingering. destruct (slot c); [by apply take_connection_tables|done].
  - unfold take_connection_for_peer. destruct (slot c); [|done]. destruct (links c !! _); [|done].
    case_bool_decide; [by apply take_connection_tables|done].
  - by apply (tables_same c).
  - by apply start_session_tables.
  - unfold unpair_look. destruct (slot c) as [l|]; [|done]. destruct (links c !! l) as [lk|]; [|done]. case_bool_decide; [|done].
    destruct Hc as [H1 H2 H3]. split; [|done|done]. cbn. intros r w Hr. destruct (H1 r w Hr). split; [lia|done].
  - unfold unpair_send. destruct (unpairings c !! req) as [u|]; [|done]. destruct (u_sent u); [done|].
    destruct (links c !! u_link u) as [lk|] eqn:Hl; [|done]. destruct (try_enqueue _ lk) as [lk'|e] eqn:He; [|by apply (tables_same c)].
    apply try_enqueue_Ok in He as [-> _]. eapply tables_same; [|done]. cbn [snd].
    match goal with |- tables (with_waiters (set_link _ ?k _) _ _) = _ => transitivity (tables (set_link (u_link u) k c)); [done|] end.
    by apply tables_set_link with lk.
  - unfold unpair_await. destruct (unpairings c !! req) as [u|]; [|done].
    assert (H : tables (with_links c (alter (λ lk, with_tables lk (pending lk) (listings lk) (unpairs lk ∖ {[req]})) (u_link u) (links c))) = tables c)
      by by apply tables_alter.
    repeat case_match; cbn [snd]; try done; (eapply tables_same; [|done]); exact H.
  - by apply (tables_same c).
Qed.

(** *** How one command's state moves *)

(** The listing a frame carries, and for which command. *)
Definition listing_of (f : Frame) : option (ListingKind * Z * Listing) :=
  match f with
  | Frame_WorkspaceDirs req rel names => Some (Dirs, req, WorkspaceListing rel names)
  | Frame_TerminalRoots req roots => Some (Roots, req, RootListing (terminal_root_name <$> roots))
  | Frame_AgentProviders req providers =>
      Some (Providers, req, ProviderListing ((λ e, {| pr_provider := agent_provider_name (avail_provider e);
        pr_available := avail_available e; pr_detail := avail_detail e |}) <$> providers))
  | Frame_AgentSessions req rel sessions =>
      Some (Sessions, req, AgentSessionListing rel ((λ e, {| row_acp_session_id := summary_acp_session_id e;
           row_provider := agent_provider_name (summary_provider e); row_title := summary_title e;
           row_label := summary_label e; row_last_active_at_unix_ms := summary_last_active_at_unix_ms e |}) <$> sessions))
  | _ => None
  end.

Record grows (op : Op) (req : Z) (w w' : Waiter) : Prop := {
  gr_link : w_link w' = w_link w;
  gr_want : w_want w' = w_want w;
  gr_outcome : w_outcome w' = w_outcome w ∨ w_outcome w = Held ∧
    (w_outcome w' = Dropped ∨ ∃ v, w_outcome w' = Got v ∧ op = LoopIn (w_link w) (Frame_CommandResult req v));
  gr_listing : w_listing w' = w_listing w ∨ w_listing w = Held ∧
    (w_listing w' = Dropped ∨ ∃ k f x, w_listing w' = Got x ∧ op = LoopIn (w_link w) f ∧ listing_of f = Some (k, req, x) ∧ w_want w = Some k);
  gr_phase : w_phase w' = AwaitingListing → w_phase w = AwaitingListing ∨
    (∃ s, w_outcome w = Got (CommandOutcome_Ok s)) ∧ is_Some (w_want w);
}.

Lemma grows_refl op req w : grows op req w w.
Proof. split; auto. Qed.

Definition moves (op : Op) (c c' : Client) : Prop :=
  ∀ req w', waiters c' !! req = Some w' → ∃ w, waiters c !! req = Some w ∧ grows op req w w'.

Lemma moves_same op c c' : waiters c' = waiters c → moves op c c'.
Proof. intros Heq req w' Hw. rewrite Heq in Hw. exists w'. split; [done|apply grows_refl]. Qed.
Lemma moves_wait op c c' req w ph : waiters c !! req = Some w → waiters c' = <[req := with_wait w ph]> (waiters c) →
  (ph = AwaitingListing → (∃ s, w_outcome w = Got (CommandOutcome_Ok s)) ∧ is_Some (w_want w)) → moves op c c'.
Proof.
  intros Hw Heq Hph r w' Hr. rewrite Heq in Hr. apply lookup_insert_Some in Hr as [[<- <-]|[_ Hr]].
  - exists w. split; [done|]. split; auto.
  - exists w'. split; [done|apply grows_refl].
Qed.
Lemma finish_moves op req w f r c : moves op c (finish req w f r c).2.
Proof. intros r' w' Hr. cbn in Hr. apply lookup_delete_Some in Hr as [_ Hr]. exists w'. split; [done|apply grows_refl]. Qed.

(** Both tables dropped: what is held is lost, nothing else moves. *)
Lemma drops_move op l p q (c c' : Client) : tables_ok c → (∃ lk, links c !! l = Some lk ∧ p = pending lk ∧ (q = listings lk ∨ q = ∅)) →
  waiters c' = drop_listings l q (drop_outcomes l p (waiters c)) → moves op c c'.
Proof.
  intros Hc (lk & Hl & -> & Hq) Heq r w' Hr. rewrite Heq, drop_listings_lookup, drop_outcomes_lookup in Hr.
  destruct (waiters c !! r) as [w|] eqn:Hw; [|done]. cbn in Hr. injection Hr as <-. exists w. split; [done|].
  set (w1 := if bool_decide _ then with_outcome w Dropped else w).
  assert (Hw1 : w_link w1 = w_link w ∧ w_want w1 = w_want w ∧ w_listing w1 = w_listing w ∧ w_phase w1 = w_phase w ∧
    (w_outcome w1 = w_outcome w ∨ w_outcome w = Held ∧ w_outcome w1 = Dropped)).
  { unfold w1. case_bool_decide as Hb; [|split_and!; auto]. destruct Hb as [Hwl Hin]. split_and!; try done. right.
    by destruct (pending_held _ _ _ _ _ Hc Hl Hw Hin). }
  destruct Hw1 as (Hl1 & Hk1 & Hs1 & Hp1 & Ho1). rewrite Hl1, Hk1.
  match goal with |- grows _ _ _ (if ?b then _ else _) => destruct b eqn:Hb end; split; cbn; rewrite ?Hl1, ?Hk1, ?Hs1, ?Hp1; auto.
  - destruct Ho1 as [->|[? ->]]; auto.
  - right. apply andb_true_iff in Hb as [_ Hb]. destruct (w_want w) as [k|] eqn:Hk; [|done]. apply bool_decide_eq_true in Hb.
    destruct Hq as [->| ->]; [|set_solver]. destruct (listing_held _ _ _ _ _ _ Hc Hl Hw Hb) as (_ & _ & ?). auto.
  - destruct Ho1 as [->|[? ->]]; auto.
Qed.

Lemma drop_listings_empty l ws : drop_listings l ∅ ws = ws.
Proof.
  apply map_eq. intros r. rewrite drop_listings_lookup. destruct (ws !! r) as [w|]; [|done]. cbn. f_equal.
  by destruct (w_want w); rewrite ?bool_decide_eq_false_2 by set_solver; rewrite andb_false_r.
Qed.
Lemma stop_loop_moves op l lk lk' c c1 : tables_ok c → links c !! l = Some lk → waiters c1 = waiters c →
  pending lk' = pending lk → listings lk' = listings lk → moves op c (stop_loop l lk' c1).
Proof. intros Hc Hl Hw Hp Hs. unfold stop_loop. rewrite Hp, Hs. apply (drops_move op l (pending lk) (listings lk)); [done|by exists lk; auto|]. cbn. by rewrite Hw. Qed.
Lemma take_connection_moves op l c : tables_ok c → moves op c (take_connection l c).
Proof.
  intros Hc. unfold take_connection. cbn [links with_slot]. destruct (links c !! l) as [lk|] eqn:Hl; [|by apply moves_same].
  apply (drops_move op l (pending lk) ∅); [done|by exists lk; auto|]. cbn. by rewrite drop_listings_empty.
Qed.

Lemma settle_listing_moves op l lk k req x c f : tables_ok c → links c !! l = Some lk → op = LoopIn l f → listing_of f = Some (k, req, x) →
  moves op c (settle_listing l lk k req x c).
Proof.
  intros Hc Hl -> Hf. unfold settle_listing. case_bool_decide as Hin; [|by apply moves_same]. intros r w' Hr. cbn in Hr.
  apply (ta_listings _ Hc _ _ _ _ Hl) in Hin as (w & Hw & Hwl & Hk & Hh).
  apply lookup_alter_Some in Hr as [(<- & w0 & Hw0 & ->)|[_ Hr]]; [|exists w'; split; [done|apply grows_refl]].
  assert (w0 = w) as -> by congruence. exists w. split; [done|]. split; cbn; auto. right. split; [done|]. right. exists k, f, x. by rewrite Hwl.
Qed.

Lemma dispatch_moves l lk f c out c' : tables_ok c → links c !! l = Some lk → dispatch l lk f c = Some (out, c') → moves (LoopIn l f) c c'.
Proof.
  intros Hc Hl Hd.
  destruct f; cbn -[le_bytes settle_listing] in Hd; simplify_eq;
    first [by apply moves_same | by eapply settle_listing_moves | idtac].
  - case_bool_decide as Hin; [|by apply moves_same]. intros r w' Hr. cbn in Hr.
    apply (ta_pending _ Hc _ _ _ Hl) in Hin as (w & Hw & Hwl & Hh).
    apply lookup_alter_Some in Hr as [(<- & w0 & Hw0 & ->)|[_ Hr]]; [|exists w'; split; [done|apply grows_refl]].
    assert (w0 = w) as -> by congruence. exists w. split; [done|]. split; cbn; auto. right. split; [done|]. right. exists outcome. by rewrite Hwl.
  - apply moves_same. by case_bool_decide.
  - apply moves_same. by case_match.
Qed.

Lemma await_moves req t c : tables_ok c → moves (Await req t) c (await req t c).2.
Proof.
  intros Hc. unfold await. destruct (waiters c !! req) as [w|] eqn:Hw; [|by apply moves_same].
  destruct (w_phase w); [by apply moves_same|..].
  - destruct (w_outcome w) as [|[s|m]|] eqn:Ho.
    + destruct t; [apply finish_moves|by apply moves_same].
    + destruct (w_want w) as [k|] eqn:Hk; [|apply finish_moves].
      eapply moves_wait; [done|done|]. intros _. rewrite Ho, Hk. by eauto.
    + apply finish_moves.
    + apply finish_moves.
  - destruct (w_listing w); [destruct t; [apply finish_moves|by apply moves_same]|apply finish_moves|apply finish_moves].
Qed.

Definition new_waiter (l : nat) (kind : RequestKind) (want : option ListingKind) : Waiter :=
  {| w_link := l; w_kind := kind; w_want := want; w_outcome := Held; w_listing := Held; w_phase := Registered |}.

(** Where the commands under way after a step come from. *)
Lemma client_step_waiter op c req w' : tables_ok c → waiters (client_step op c).2 !! req = Some w' →
  (∃ w, waiters c !! req = Some w ∧ grows op req w w') ∨
  (∃ kind want l, op = BeginRequest kind want ∧ req = next_req_id c ∧ slot c = Some l ∧ w' = new_waiter l kind want).
Proof.
  intros Hc. revert req w'.
  assert (Hm : (∀ kind want, op ≠ BeginRequest kind want) → moves op c (client_step op c).2).
  { intros Hne. destruct op; cbn [client_step]; try (by apply moves_same); try by destruct (Hne kind want).
    - unfold enqueue_request. destruct (waiters c !! req) as [w|] eqn:Hw; [|by apply moves_same].
      destruct (w_phase w); try by apply moves_same. destruct (links c !! w_link w) as [lk|]; [|by apply moves_same].
      destruct (try_enqueue _ lk); [by eapply moves_wait|apply finish_moves].
    - by apply await_moves.
    - apply moves_same. by pose proof (fire_tables (plain_frame p) c) as [=].
    - apply moves_same. by pose proof (fire_tables (Frame_OutputResume id (default 0 (last_seen_seq c !! id)) (default 0 (last_seen_generation c !! id))) c) as [=].
    - apply moves_same. unfold permission_decision. destruct (slot c); [|done]. destruct (negb _); [done|].
      by pose proof (fire_tables (Frame_AgentPermissionDecision id tool_call_id option_id) c) as [=].
    - apply moves_same. unfold send_kept. destruct (links c !! l); [|done]. destruct (carries_transfer f); [|done]. by destruct (try_enqueue _ _).
    - unfold loop_out. destruct (links c !! l) as [lk|] eqn:Hl; [|by apply moves_same]. destruct (phase lk); try by apply moves_same.
      destruct (killed lk); [by apply moves_same|]. destruct (queue lk) as [|f q]; [by apply moves_same|].
      destruct wrote; [by apply moves_same|]. by eapply stop_loop_moves.
    - unfold loop_in. destruct (links c !! l) as [lk|] eqn:Hl; [|by apply moves_same]. destruct (phase lk); try by apply moves_same.
      destruct (killed lk); [by apply moves_same|]. destruct (negb _); [by eapply stop_loop_moves|].
      destruct (dispatch l lk f c) as [[out c']|] eqn:Hd; [by eapply dispatch_moves|by apply moves_same].
    - unfold loop_forget. destruct (links c !! l) as [lk|] eqn:Hl; [|by apply moves_same]. destruct (phase lk); try by apply moves_same.
      destruct forgot; by eapply (stop_loop_moves _ l lk lk c c).
    - unfold loop_break. destruct (links c !! l) as [lk|] eqn:Hl; [|by apply moves_same]. destruct (phase lk); try by apply moves_same.
      by eapply stop_loop_moves.
    - apply moves_same. by pose proof (loop_end_tables l c) as [=].
    - unfold disconnect. destruct (slot c); [by apply take_connection_moves|by apply moves_same].
    - unfold take_lingering. destruct (slot c); [by apply take_connection_moves|by apply moves_same].
    - unfold take_connection_for_peer. destruct (slot c); [|by apply moves_same]. destruct (links c !! _); [|by apply moves_same].
      case_bool_decide; [by apply take_connection_moves|by apply moves_same].
    - apply moves_same. unfold start_session. by destruct (slot c).
    - apply moves_same. unfold unpair_look. destruct (slot c); [|done]. destruct (links c !! _); [|done]. by case_bool_decide.
    - apply moves_same. unfold unpair_send. destruct (unpairings c !! req) as [u|]; [|done]. destruct (u_sent u); [done|].
      destruct (links c !! u_link u); [|done]. by destruct (try_enqueue _ _).
    - apply moves_same. unfold unpair_await. destruct (unpairings c !! req) as [u|]; [|done]. by repeat case_match. }
  intros r w' Hr. destruct op; try (left; apply Hm; done). clear Hm. cbn [client_step] in Hr. unfold begin_request in Hr.
  cbn [slot with_next] in Hr.
  destruct (slot c) as [l|] eqn:Hs; [|left; exists w'; split; [done|apply grows_refl]].
  cbn [links with_next] in Hr. destruct (links c !! l) as [lk|]; [|left; exists w'; split; [done|apply grows_refl]].
  cbn in Hr. apply lookup_insert_Some in Hr as [[<- <-]|[_ Hr]].
  - right. by exists kind, want, l.
  - left. exists w'. split; [done|apply grows_refl].
Qed.

Lemma client_step_waits op c : tables_ok c → waits_ok c → waits_ok (client_step op c).2.
Proof.
  intros Hc Hw req w' Hr Hph. apply client_step_waiter in Hr as [(w & Hw0 & Hg)|(kind & want & l & -> & -> & Hs & ->)]; [|done|done].
  destruct Hg as [Hl Hk Ho Hx Hp]. rewrite Hk.
  assert (Hd : (∃ s, w_outcome w = Got (CommandOutcome_Ok s)) ∧ is_Some (w_want w)).
  { destruct (Hp Hph) as [Hp0|Hp0]; [by apply (Hw req w)|done]. }
  destruct Hd as [[s Hs] Hwant]. split; [|done]. exists s. destruct Ho as [->|[Hh _]]; [done|congruence].
Qed.

Record client_ok (c : Client) : Prop := { ok_tables : tables_ok c; ok_waits : waits_ok c }.

Lemma client_step_ok op c : client_ok c → client_ok (client_step op c).2.
Proof. intros [Ht Hw]. split; [by apply client_step_tables|by apply client_step_waits]. Qed.
Lemma no_link_ok c : no_link c → client_ok c.
Proof.
  intros (_ & Hl & Hw & _). split; [split|]; rewrite ?Hl, ?Hw; try done. intros r w. by rewrite Hw.
Qed.
Lemma client_run_ok c0 ops : no_link c0 → client_ok (client_run ops c0).2.
Proof. intros H. apply client_run_inv; [apply client_step_ok|by apply no_link_ok]. Qed.

(** ** Answers *)

(** The reasons the phone itself gives for a command that failed. *)
Definition local_reasons (want : option ListingKind) : list string :=
  ["not paired"; "connection closed"; "connection busy - try again"; closed_message want; timeout_message want; unsent_message want].

(** What a command's state says of the answer it is given. *)
Definition justified (w : Waiter) (r : result string Reply) : Prop :=
  match r with
  | Ok (Reply_Session s) => w_want w = None ∧ w_outcome w = Got (CommandOutcome_Ok s)
  | Ok (Reply_Listing x) => w_listing w = Got x ∧ is_Some (w_want w) ∧ ∃ s, w_outcome w = Got (CommandOutcome_Ok s)
  | Err m => m ∈ local_reasons (w_want w) ∨ w_outcome w = Got (CommandOutcome_Error m)
  end.

Lemma try_enqueue_Err f lk e want : try_enqueue f lk = Err e → e ∈ local_reasons want.
Proof. unfold try_enqueue, local_reasons. destruct (phase lk); try case_match; intros [= <-]; set_solver. Qed.

Definition answers (out : list Out) : list Z := omap (λ o, match o with Answer req _ => Some req | _ => None end) out.
Lemma answers_app o1 o2 : answers (o1 ++ o2) = answers o1 ++ answers o2.
Proof. apply omap_app. Qed.
Lemma elem_of_answers out req : req ∈ answers out ↔ ∃ r, Answer req r ∈ out.
Proof.
  unfold answers. rewrite list_elem_of_omap. split.
  - intros (o & Hin & Ho). destruct o; simplify_eq. by eexists.
  - intros (r & Hin). by exists (Answer req r).
Qed.

Lemma answers_none out : (∀ req r, Answer req r ∉ out) → answers out = [].
Proof.
  intros Hno. destruct (answers out) as [|req l] eqn:Heq; [done|]. assert (Hin : req ∈ answers out) by (rewrite Heq; by left).
  apply elem_of_answers in Hin as [r Hin]. by destruct (Hno req r).
Qed.

(** A step answers one command at the most: one under way, which it ends, or one
    refused as it is made. *)
Definition answered (op : Op) (c : Client) (out : list Out) (c' : Client) : Prop :=
  (∀ req r, Answer req r ∉ out) ∨
  ∃ req r, out = [Answer req r] ∧ waiters c' !! req = None ∧ req < next_req_id c' ∧
    ((∃ w, waiters c !! req = Some w ∧ justified w r) ∨
     (∃ kind want, op = BeginRequest kind want ∧ req = next_req_id c ∧ slot c = None ∧ r = Err "not paired"%string)).

Lemma finish_answered op req w f r c : tables_ok c → waiters c !! req = Some w → justified w r →
  answered op c (finish req w f r c).1 (finish req w f r c).2.
Proof.
  intros Hc Hw Hj. right. exists req, r. split; [done|]. split; [apply lookup_delete_eq|]. split; [by destruct (ta_waiter _ Hc _ _ Hw)|]. left. by exists w.
Qed.

Lemma await_answered op req t c : client_ok c → answered op c (await req t c).1 (await req t c).2.
Proof.
  intros [Hc Hp]. unfold await. destruct (waiters c !! req) as [w|] eqn:Hw; [|left; set_solver].
  destruct (w_phase w) eqn:Hph; [left; set_solver|..].
  - destruct (w_outcome w) as [|[s|m]|] eqn:Ho.
    + destruct t; [|left; set_solver]. apply finish_answered; [done..|]. left. unfold local_reasons. set_solver.
    + destruct (w_want w) as [k|] eqn:Hk; [left; set_solver|]. by apply finish_answered.
    + apply finish_answered; [done..|]. by right.
    + apply finish_answered; [done..|]. left. unfold local_reasons. set_solver.
  - destruct (Hp req w Hw Hph) as [[s Ho] Hk]. destruct (w_listing w) as [|x|] eqn:Hx.
    + destruct t; [|left; set_solver]. apply finish_answered; [done..|]. left. unfold local_reasons. set_solver.
    + apply finish_answered; [done..|]. split_and!; [done..|]. by eexists.
    + apply finish_answered; [done..|]. left. unfold local_reasons. set_solver.
Qed.

Lemma client_step_answered op c : client_ok c → answered op c (client_step op c).1 (client_step op c).2.
Proof.
  intros Hok. pose proof Hok as [Hc _].
  assert (Hno : ∀ f l, (∀ req r, Answer req r ∉ (fire f l).1)).
  { intros f c1. unfold fire. repeat case_match; set_solver. }
  destruct op; cbn [client_step]; try (by apply await_answered); try (by left; apply Hno).
  - unfold begin_request. cbn [slot with_next]. destruct (slot c) as [l|] eqn:Hs.
    + cbn [links with_next]. left. destruct (links c !! l); set_solver.
    + right. exists (next_req_id c), (Err "not paired"%string). split; [done|]. cbn. split_and!; [|lia|right; by exists kind, want].
      apply eq_None_not_Some. intros [w Hw]. destruct (ta_waiter _ Hc _ _ Hw). lia.
  - unfold enqueue_request. destruct (waiters c !! req) as [w|] eqn:Hw; [|left; set_solver].
    destruct (w_phase w); try (left; set_solver). destruct (links c !! w_link w) as [lk|]; [|left; set_solver].
    destruct (try_enqueue _ lk) as [lk'|e] eqn:He; [left; set_solver|]. apply finish_answered; [done..|]. left. by eapply try_enqueue_Err.
  - left. unfold permission_decision. destruct (slot c); [|set_solver]. destruct (negb _); [set_solver|apply Hno].
  - left. unfold send_kept. repeat case_match; set_solver.
  - left. unfold loop_out. repeat case_match; set_solver.
  - left. unfold loop_in. destruct (links c !! l) as [lk|]; [|set_solver]. destruct (phase lk); try set_solver.
    destruct (killed lk); [set_solver|]. destruct (negb _); [set_solver|]. intros req r.
    destruct (dispatch l lk f c) as [[out c']|] eqn:Hd; [|set_solver]. cbn.
    destruct f; cbn -[le_bytes] in Hd; simplify_eq; try set_solver. case_bool_decide; set_solver.
  - left. unfold loop_forget. repeat case_match; set_solver.
  - left. unfold loop_break. repeat case_match; set_solver.
  - left. unfold loop_end. repeat case_match; set_solver.
  - left. unfold disconnect. repeat case_match; set_solver.
  - left. unfold take_lingering. repeat case_match; set_solver.
  - left. unfold take_connection_for_peer. repeat case_match; set_solver.
  - left. set_solver.
  - left. unfold start_session. set_solver.
  - left. unfold unpair_look. repeat case_match; set_solver.
  - left. unfold unpair_send. repeat case_match; set_solver.
  - left. unfold unpair_await. repeat case_match; set_solver.
  - left. set_solver.
Qed.

Lemma client_step_next op c : next_req_id c ≤ next_req_id (client_step op c).2.
Proof.
  assert (Ht : ∀ c', tables c' = tables c → next_req_id c ≤ next_req_id c') by (intros c' [= -> _ _]; done).
  destruct op; cbn [client_step].
  - unfold begin_request. cbn [slot with_next links]. repeat case_match; cbn; lia.
  - unfold enqueue_request. repeat case_match; cbn; lia.
  - unfold await. repeat case_match; cbn; lia.
  - apply Ht, fire_tables.
  - apply Ht, fire_tables.
  - unfold permission_decision. repeat case_match; try done. apply Ht, fire_tables.
  - unfold send_kept. repeat case_match; done.
  - unfold loop_out. repeat case_match; done.
  - unfold loop_in. repeat case_match; try done. destruct (dispatch l _ f c) as [[out c']|] eqn:Hd; [|done]. cbn.
    destruct f; cbn -[le_bytes] in Hd; simplify_eq; try done; unfold settle_listing; by repeat case_match.
  - unfold loop_forget. repeat case_match; done.
  - unfold loop_break. repeat case_match; done.
  - apply Ht, loop_end_tables.
  - unfold disconnect, take_connection. cbn [links with_slot]. repeat case_match; done.
  - unfold take_lingering, take_connection. cbn [links with_slot]. repeat case_match; done.
  - unfold take_connection_for_peer, take_connection. cbn [links with_slot]. repeat case_match; done.
  - done.
  - unfold start_session. by destruct (slot c).
  - unfold unpair_look. repeat case_match; cbn; lia.
  - unfold unpair_send. repeat case_match; done.
  - unfold unpair_await. repeat case_match; done.
  - done.
Qed.

(** The command [req] was made over link [l]; [rest] is what happened since. *)
Definition made (c0 : Client) (ops : list Op) (req : Z) (l : nat) (want : option ListingKind) (rest : list Op) : Prop :=
  ∃ before kind, ops = before ++ BeginRequest kind want :: rest ∧
    next_req_id (client_run before c0).2 = req ∧ slot (client_run before c0).2 = Some l.

Definition explained (c0 : Client) (ops : list Op) (req : Z) (r : result string Reply) : Prop :=
  match r with
  | Ok reply => ∃ l want rest s, made c0 ops req l want rest ∧
      LoopIn l (Frame_CommandResult req (CommandOutcome_Ok s)) ∈ rest ∧
      match want, reply with
      | None, Reply_Session s' => s' = s
      | Some k, Reply_Listing x => ∃ f, listing_of f = Some (k, req, x) ∧ LoopIn l f ∈ rest
      | _, _ => False
      end
  | Err m => (∃ want, m ∈ local_reasons want) ∨
      ∃ l want rest, made c0 ops req l want rest ∧ LoopIn l (Frame_CommandResult req (CommandOutcome_Error m)) ∈ rest
  end.

(** A state of a command whose parts all came over its link since it was made. *)
Definition traced (c0 : Client) (ops : list Op) (req : Z) (w : Waiter) : Prop :=
  ∃ rest, made c0 ops req (w_link w) (w_want w) rest ∧
    (∀ v, w_outcome w = Got v → LoopIn (w_link w) (Frame_CommandResult req v) ∈ rest) ∧
    (∀ x, w_listing w = Got x → ∃ k f, w_want w = Some k ∧ listing_of f = Some (k, req, x) ∧ LoopIn (w_link w) f ∈ rest).

Lemma made_snoc c0 ops op req l want rest : made c0 ops req l want rest → made c0 (ops ++ [op]) req l want (rest ++ [op]).
Proof. intros (before & kind & -> & Hr & Hs). exists before, kind. split; [|done]. by rewrite <-app_assoc. Qed.

Lemma explained_snoc c0 ops op req r : explained c0 ops req r → explained c0 (ops ++ [op]) req r.
Proof.
  destruct r as [reply|m]; cbn.
  - intros (l & want & rest & s & Hm & Hin & Hr). exists l, want, (rest ++ [op]), s. split; [by apply made_snoc|]. rewrite elem_of_app.
    split; [by left|]. destruct want as [k|], reply; try done. destruct Hr as (f & ? & ?). exists f. rewrite elem_of_app. auto.
  - intros [Hl|(l & want & rest & Hm & Hin)]; [by left|right]. exists l, want, (rest ++ [op]). rewrite elem_of_app. split; [by apply made_snoc|by left].
Qed.

Lemma traced_grows c0 ops op req w w' : traced c0 ops req w → grows op req w w' → traced c0 (ops ++ [op]) req w'.
Proof.
  intros (rest & Hm & Ho & Hx) [Hl Hk Ho' Hx' _]. exists (rest ++ [op]). rewrite Hl, Hk. split; [by apply made_snoc|]. split.
  - intros v Hv. rewrite elem_of_app. destruct Ho' as [Heq|[_ [Hd|(v' & Hv' & ->)]]]; [left; apply Ho; congruence|congruence|].
    right. apply list_elem_of_singleton. congruence.
  - intros x Hv. destruct Hx' as [Heq|[_ [Hd|(k & f & x' & Hv' & -> & Hf & Hwant)]]]; [|congruence|].
    + destruct (Hx x) as (k & f & ? & ? & ?); [congruence|]. exists k, f. rewrite elem_of_app. auto.
    + exists k, f. rewrite elem_of_app. split; [done|]. split; [congruence|]. right. by apply list_elem_of_singleton.
Qed.

Lemma justified_explained c0 ops req w r : traced c0 ops req w → justified w r → explained c0 ops req r.
Proof.
  intros (rest & Hm & Ho & Hx). destruct r as [reply|m]; cbn.
  - destruct reply as [s|x].
    + intros [Hk Hs]. exists (w_link w), (w_want w), rest, s. split; [done|]. split; [by apply Ho|]. by rewrite Hk.
    + intros (Hg & [k Hk] & s & Hs). exists (w_link w), (w_want w), rest, s. split; [done|]. split; [by apply Ho|].
      destruct (Hx x Hg) as (k' & f & Hk' & Hf & Hin). rewrite Hk'. by exists f.
  - intros [Hl|Hs]; [left; by eexists|right]. exists (w_link w), (w_want w), rest. split; [done|]. by apply Ho.
Qed.

Record history (c0 : Client) (ops : list Op) : Prop := {
  hi_waiter : ∀ req w, waiters (client_run ops c0).2 !! req = Some w → traced c0 ops req w;
  hi_once : NoDup (answers (client_run ops c0).1);
  hi_done : ∀ req r, Answer req r ∈ (client_run ops c0).1 →
    req < next_req_id (client_run ops c0).2 ∧ waiters (client_run ops c0).2 !! req = None ∧ explained c0 ops req r;
}.

Lemma client_history c0 ops : no_link c0 → history c0 ops.
Proof.
  intros Hnone. induction ops as [|op ops [Hw Ho Hd]] using rev_ind.
  { destruct Hnone as (_ & _ & Hws & _). split; cbn; [|constructor|set_solver]. intros req w. by rewrite Hws. }
  pose proof (client_run_ok c0 ops Hnone) as Hok. destruct (client_run_snoc ops op c0) as [Hs2 Hs1].
  pose proof (client_step_answered op _ Hok) as Hans. pose proof (client_step_next op (client_run ops c0).2) as Hnext.
  set (c := (client_run ops c0).2) in *. set (c' := (client_step op c).2) in *. set (out := (client_step op c).1) in *.
  assert (Hstay : ∀ req, req < next_req_id c → waiters c !! req = None → waiters c' !! req = None).
  { intros req Hlt Hn. apply eq_None_not_Some. intros [w Hr].
    destruct (client_step_waiter op c req w (ok_tables _ Hok) Hr) as [(w0 & ? & _)|(? & ? & ? & _ & -> & _)]; [congruence|lia]. }
  split; rewrite ?Hs1, ?Hs2.
  - intros req w' Hr. destruct (client_step_waiter op c req w' (ok_tables _ Hok) Hr) as [(w & Hr0 & Hg)|(kind & want & l & -> & -> & Hsl & ->)].
    + by eapply traced_grows; [apply Hw|].
    + exists []. split; [|by split]. exists ops, kind. by split.
  - rewrite answers_app. apply NoDup_app. split; [done|]. destruct Hans as [Hno|(req & r & -> & _ & _ & Hcase)].
    + rewrite (answers_none out Hno). split; [set_solver|constructor].
    + split; [|apply NoDup_singleton]. intros req' (r' & Hin)%elem_of_answers Hin'. apply list_elem_of_singleton in Hin' as ->.
      destruct (Hd req r' Hin) as (Hlt & Hn & _). destruct Hcase as [(w & Hr & _)|(? & ? & _ & -> & _)]; [congruence|lia].
  - intros req r [Hin|Hin]%elem_of_app.
    + destruct (Hd req r Hin) as (Hlt & Hn & He). split; [lia|]. split; [by apply Hstay|by apply explained_snoc].
    + destruct Hans as [Hno|(req' & r' & Heq & Hn & Hlt & Hcase)]; [by destruct (Hno req r)|]. rewrite Heq in Hin.
      apply list_elem_of_singleton in Hin as [= -> ->]. split_and!; [done..|]. apply explained_snoc.
      destruct Hcase as [(w & Hr & Hj)|(kind & want & _ & _ & _ & ->)].
      * eapply justified_explained; [by apply Hw|done].
      * left. exists None. set_solver.
Qed.

(** C31 (safety). A command is answered once at the most, and an answer that is not an error
    was sent for it: over the very link that was the connection when the command was
    made, after it was made, the host confirmed this number, and what the caller
    gets is the session or the listing it sent for it. An error is the host's own
    for this number or one of the six the phone gives itself. *)
Theorem every_command_is_answered_once_by_its_own_link c0 ops (Hnone : no_link c0) :
  NoDup (answers (client_run ops c0).1) ∧
  ∀ req r, Answer req r ∈ (client_run ops c0).1 → explained c0 ops req r.
Proof. destruct (client_history c0 ops Hnone) as [_ Ho Hd]. split; [done|]. intros req r Hin. by apply (Hd req r). Qed.

(** ** The end of a link *)

(** The steps that end the loop of link [l]: the kill switch or a broken link, a
    frame that could not be written, a frame a host may not send, a revocation. *)
Definition ends_loop (l : nat) (lk : Link) (op : Op) : bool :=
  match phase lk, op with
  | Running, LoopBreak k => (k =? l)%nat
  | Running, LoopOut k wrote => (k =? l)%nat && negb wrote && negb (killed lk) && negb (bool_decide (queue lk = []))
  | Running, LoopIn k f => (k =? l)%nat && negb (killed lk) && negb (allows_host_to_phone (direction f))
  | Revoking, LoopForget k _ => (k =? l)%nat
  | _, _ => false
  end.

Lemma ends_loop_stops l lk op c : links c !! l = Some lk → ends_loop l lk op = true →
  ∃ lk', links (client_step op c).2 !! l = Some lk' ∧ phase lk' = Closing ∧ pending lk' = ∅ ∧ listings lk' = ∅.
Proof.
  intros Hl He. unfold ends_loop in He. pose proof (lookup_lt_Some _ _ _ Hl) as Hlt.
  destruct (phase lk) eqn:Hph, op; try done; repeat match goal with H : _ && _ = true |- _ => apply andb_true_iff in H as [??] end;
    match goal with H : (_ =? _)%nat = true |- _ => apply Nat.eqb_eq in H as -> end; cbn [client_step].
  - unfold loop_out. rewrite Hl, Hph. destruct wrote; [done|]. destruct (killed lk); [done|].
    destruct (queue lk) as [|f q] eqn:Hq; [by rewrite bool_decide_eq_true_2 in *|]. cbn. rewrite list_insert_insert_eq, list_lookup_insert_eq by done. by eexists.
  - unfold loop_in. rewrite Hl, Hph. destruct (killed lk); [done|].
    destruct (negb (allows_host_to_phone _)); [|done]. cbn. rewrite list_lookup_insert_eq by done. by eexists.
  - unfold loop_break. rewrite Hl, Hph. cbn. rewrite list_lookup_insert_eq by done. by eexists.
  - unfold loop_forget. rewrite Hl, Hph. destruct forgot; cbn; rewrite list_lookup_insert_eq by done; by eexists.
Qed.

(** A command that is told all it waits for. *)
Record told (w : Waiter) : Prop := {
  to_outcome : w_outcome w ≠ Held;
  to_listing : is_Some (w_want w) → w_listing w ≠ Held;
  to_phase : w_phase w = AwaitingListing → is_Some (w_want w);
}.

Lemma told_listing_answers c req w : waiters c !! req = Some w → told w → w_phase w = AwaitingListing →
  ∃ r, (await req false c).1 = [Answer req r].
Proof.
  intros Hw [_ Hx Hp] Hph. unfold await. rewrite Hw, Hph. assert (Hn := Hx (Hp Hph)).
  destruct (w_listing w); [done|..]; cbn; by eexists.
Qed.

(** Its caller's next two turns answer it. *)
Lemma told_answers c req w : waiters c !! req = Some w → told w → w_phase w ≠ Registered →
  ∃ r, Answer req r ∈ (client_run [Await req false; Await req false] c).1.
Proof.
  intros Hw Ht Hph. rewrite !client_run_cons. cbn [client_step client_run fst]. rewrite app_nil_r.
  assert (Hfirst : (∃ r, (await req false c).1 = [Answer req r]) ∨ ∃ c2 w2, await req false c = ([], c2) ∧
    waiters c2 !! req = Some w2 ∧ told w2 ∧ w_phase w2 = AwaitingListing).
  { destruct (w_phase w) eqn:Hphw; [done| |left; by eapply told_listing_answers].
    pose proof Ht as [Ho Hx _]. unfold await. rewrite Hw, Hphw. destruct (w_outcome w) as [|[s|m]|] eqn:How; [done|..]; try (left; by eexists).
    destruct (w_want w) as [k|] eqn:Hk; [right|left; by eexists]. eexists _, (with_wait w AwaitingListing).
    split; [done|]. split; [apply lookup_insert_eq|]. split; [|done]. split; cbn; rewrite ?How, ?Hk; [done|exact Hx|by eexists]. }
  destruct Hfirst as [[r Hr]|(c2 & w2 & -> & Hw2 & Ht2 & Hph2)].
  - exists r. rewrite Hr. by left.
  - destruct (told_listing_answers c2 req w2 Hw2 Ht2 Hph2) as [r Hr]. exists r. cbn [fst snd app]. rewrite Hr. by left.
Qed.


(** *** A command made too late *)

(** Made while its link's loop was on its way out, handed to it, and no longer in the
    slot's reach. *)
Record late (c : Client) (req : Z) (w : Waiter) : Prop := {
  la_waiter : waiters c !! req = Some w;
  la_phase : w_phase w = AwaitingOutcome;
  la_outcome : w_outcome w = Held;
  la_over : over c (w_link w);
}.

Lemma stop_loop_late l lk lk' c c1 req w : late c req w → links c !! l = Some lk → phase lk ≠ Over → waiters c1 = waiters c →
  waiters (stop_loop l lk' c1) !! req = Some w.
Proof.
  intros [Hw _ _ (lkw & Hlw & Hov)] Hl Hph Heq. assert (Hne : w_link w ≠ l) by (intros <-; congruence).
  cbn. rewrite drop_listings_lookup, drop_outcomes_lookup, Heq, Hw. cbn.
  rewrite (bool_decide_eq_false_2 (w_link w = l ∧ _)) by naive_solver. by rewrite bool_decide_eq_false_2.
Qed.

Lemma take_connection_late l c req w : late c req w → current_ok c → slot c = Some l → waiters (take_connection l c) !! req = Some w.
Proof.
  intros [Hw _ _ (lkw & Hlw & Hov)] Hc Hs. unfold take_connection. cbn [links with_slot].
  destruct (links c !! l) as [lk|] eqn:Hl; [|done]. cbn. rewrite drop_outcomes_lookup, Hw. cbn.
  rewrite bool_decide_eq_false_2; [done|]. intros [<- _]. pose proof (cu_over _ Hc _ _ Hlw Hs) as Ho.
  apply is_over_phase in Hov. congruence.
Qed.

Lemma dispatch_late l lk f c out c' req w : late c req w → tables_ok c → links c !! l = Some lk → phase lk ≠ Over →
  dispatch l lk f c = Some (out, c') → waiters c' !! req = Some w.
Proof.
  intros [Hw _ _ (lkw & Hlw & Hov)] Hc Hl Hph Hd. assert (Hne : w_link w ≠ l) by (intros <-; congruence).
  assert (Hsl : ∀ k r x, waiters (settle_listing l lk k r x c) !! req = Some w).
  { intros k r x. unfold settle_listing. case_bool_decide as Hin; [|done]. cbn. rewrite lookup_alter_ne; [done|]. intros <-.
    by destruct (listing_held _ _ _ _ _ _ Hc Hl Hw Hin). }
  destruct f; cbn -[le_bytes settle_listing] in Hd; simplify_eq; try done; try apply Hsl.
  - case_bool_decide as Hin; [|done]. cbn. rewrite lookup_alter_ne; [done|]. intros <-. by destruct (pending_held _ _ _ _ _ Hc Hl Hw Hin).
  - by case_bool_decide.
  - by case_match.
Qed.

Lemma finish_other req r w w' f x c : waiters c !! req = Some w → r ≠ req → waiters (finish r w' f x c).2 !! req = Some w.
Proof. intros Hw Hne. cbn. by rewrite lookup_delete_ne. Qed.

Lemma client_step_late op c req w : late c req w → tables_ok c → current_ok c → op ≠ Await req true → late (client_step op c).2 req w.
Proof.
  intros Hla Hc Hcu Hop. pose proof Hla as [Hw Hph Ho Hov]. split; [|done|done|by apply client_step_over].
  assert (Ht : ∀ c', tables c' = tables c → waiters c' !! req = Some w) by (intros c' [= _ -> _]; done).
  destruct op; cbn [client_step]; try done.
  - assert (Hne : next_req_id c ≠ req) by (destruct (ta_waiter _ Hc _ _ Hw); lia).
    unfold begin_request. cbn [slot with_next links]. repeat case_match; try done; cbn; by rewrite lookup_insert_ne.
  - unfold enqueue_request. destruct (waiters c !! req0) as [w0|] eqn:Hw0; [|done]. destruct (w_phase w0) eqn:Hph0; try done.
    assert (Hne : req0 ≠ req) by (intros ->; congruence). destruct (links c !! w_link w0) as [lk|]; [|done].
    destruct (try_enqueue _ lk); [cbn; by rewrite lookup_insert_ne|by apply finish_other].
  - unfold await. destruct (waiters c !! req0) as [w0|] eqn:Hw0; [|done]. destruct (decide (req0 = req)) as [->|Hne].
    + assert (w0 = w) as -> by congruence. rewrite Hph, Ho. destruct timeout; [by destruct Hop|done].
    + repeat case_match; try done; try (by apply finish_other). cbn. by rewrite lookup_insert_ne.
  - apply Ht, fire_tables.
  - apply Ht, fire_tables.
  - unfold permission_decision. repeat case_match; try done. apply Ht, fire_tables.
  - unfold send_kept. by repeat case_match.
  - unfold loop_out. destruct (links c !! l) as [lk|] eqn:Hl; [|done]. destruct (phase lk) eqn:Hphl; try done. repeat case_match; try done.
    eapply stop_loop_late; [done|done|by rewrite Hphl|done].
  - unfold loop_in. destruct (links c !! l) as [lk|] eqn:Hl; [|done]. destruct (phase lk) eqn:Hphl; try done. destruct (killed lk); [done|].
    destruct (negb _); [eapply stop_loop_late; [done|done|by rewrite Hphl|done]|].
    destruct (dispatch l lk f c) as [[out c']|] eqn:Hd; [|done]. eapply dispatch_late; [done|done|done|by rewrite Hphl|done].
  - unfold loop_forget. destruct (links c !! l) as [lk|] eqn:Hl; [|done]. destruct (phase lk) eqn:Hphl; try done.
    assert (Hs : waiters (stop_loop l lk c) !! req = Some w) by (eapply stop_loop_late; [done|done|by rewrite Hphl|done]). by destruct forgot.
  - unfold loop_break. destruct (links c !! l) as [lk|] eqn:Hl; [|done]. destruct (phase lk) eqn:Hphl; try done.
    eapply stop_loop_late; [done|done|by rewrite Hphl|done].
  - apply Ht, loop_end_tables.
  - unfold disconnect. destruct (slot c) eqn:Hs; [by apply take_connection_late|done].
  - unfold take_lingering. destruct (slot c) eqn:Hs; [by apply take_connection_late|done].
  - unfold take_connection_for_peer. destruct (slot c) eqn:Hs; [|done]. destruct (links c !! _); [|done].
    case_bool_decide; [by apply take_connection_late|done].
  - unfold start_session. by destruct (slot c).
  - unfold unpair_look. by repeat case_match.
  - unfold unpair_send. by repeat case_match.
  - unfold unpair_await. by repeat case_match.
Qed.

(** A command that reached its link's tables after the loop had cleared them, as
    it can until the loop takes its link from the slot, is not answered "connection
    closed": once the link is over nothing but its own deadline ends it, whatever
    else happens. *)
Theorem a_late_command_has_only_its_deadline c0 ops1 ops2 req w (Hnone : no_link c0) (Hlate : late (client_run ops1 c0).2 req w)
    (Hops : Await req true ∉ ops2) :
  late (client_run (ops1 ++ ops2) c0).2 req w ∧ ∀ r, Answer req r ∉ (client_run (ops1 ++ ops2) c0).1.
Proof.
  assert (H : late (client_run (ops1 ++ ops2) c0).2 req w).
  { induction ops2 as [|op ops2 IH] using rev_ind; [by rewrite app_nil_r|]. rewrite app_assoc.
    destruct (client_run_snoc (ops1 ++ ops2) op c0) as [-> _]. apply client_step_late.
    - apply IH. set_solver.
    - by apply client_run_ok.
    - apply client_run_inv; [apply client_step_current|by apply no_link_current].
    - set_solver. }
  split; [done|]. intros r Hin. destruct (hi_done _ _ (client_history c0 _ Hnone) _ _ Hin) as (_ & Hn & _).
  rewrite (la_waiter _ _ _ H) in Hn. done.
Qed.

(** ** What waits to be written *)

Definition queued (op : Op) (l : nat) (f : Frame) : Prop :=
  match op with
  | EnqueueRequest _ => ∃ req kind, f = Frame_Request req kind
  | Fire p => f = plain_frame p
  | ResumeOutput id => ∃ after generation, f = Frame_OutputResume id after generation
  | Decide id t o k => k = l ∧ f = Frame_AgentPermissionDecision id t o
  | SendKept _ g => f = g ∧ carries_transfer g = true
  | UnpairSend _ => ∃ req p, f = Frame_UnpairSelf req p
  | _ => False
  end.

(** What a step leaves in the queues of [ls'] was in those of [ls], or [P]. *)
Definition from (P : nat → Frame → Prop) (ls ls' : list Link) : Prop :=
  ∀ l lk' f, ls' !! l = Some lk' → f ∈ queue lk' → P l f ∨ ∃ lk, ls !! l = Some lk ∧ f ∈ queue lk.

Lemma from_refl P ls : from P ls ls.
Proof. intros l lk f Hl Hf. right. eauto. Qed.
Lemma from_trans P l1 l2 l3 : from P l1 l2 → from P l2 l3 → from P l1 l3.
Proof. intros H1 H2 l lk f Hl Hf. destruct (H2 l lk f Hl Hf) as [?|(lk2 & ? & ?)]; [by left|]. by eapply H1. Qed.
Lemma from_insert P ls k lk0 lk1 : ls !! k = Some lk0 → (∀ f, f ∈ queue lk1 → P k f ∨ f ∈ queue lk0) → from P ls (<[k := lk1]> ls).
Proof.
  intros Hk Hq l lk f Hl Hf. apply list_lookup_insert_Some in Hl as [(<- & <- & _)|[_ Hl]]; [|right; by eauto].
  destruct (Hq f Hf); [by left|right; by eauto].
Qed.
Lemma from_alter P ls k g : (∀ lk, queue (g lk) = queue lk) → from P ls (alter g k ls).
Proof.
  intros Hg l lk f Hl Hf. right. apply alter_Some in Hl as [(<- & lk0 & Hl & ->)|[_ Hl]]; [|by eauto]. rewrite Hg in Hf. eauto.
Qed.
Lemma from_push P ls k lk0 lk1 g : ls !! k = Some lk0 → queue lk1 = queue lk0 ++ [g] → P k g → from P ls (<[k := lk1]> ls).
Proof.
  intros Hk Hq HP. apply from_insert with lk0; [done|]. intros f. rewrite Hq, elem_of_app, list_elem_of_singleton. intros [?| ->]; auto.
Qed.

Lemma fire_from P g c : (∀ l, slot c = Some l → P l g) → from P (links c) (links (fire g c).2).
Proof.
  intros HP. unfold fire. destruct (slot c) as [l|]; [|apply from_refl]. destruct (links c !! l) as [lk|] eqn:Hl; [|apply from_refl].
  destruct (try_enqueue g lk) as [lk'|e] eqn:He; [|apply from_refl]. apply try_enqueue_Ok in He as [-> _].
  apply (from_push _ _ _ lk _ g); [done|done|]. by apply HP.
Qed.
Lemma stop_loop_from P l lk lk' c : links c !! l = Some lk → (∀ f, f ∈ queue lk' → f ∈ queue lk) → from P (links c) (links (stop_loop l lk' c)).
Proof. intros Hl Hq. cbn. apply from_insert with lk; [done|]. cbn. auto. Qed.
Lemma take_connection_from P l c : from P (links c) (links (take_connection l c)).
Proof.
  unfold take_connection. cbn [links with_slot]. destruct (links c !! l) as [lk|] eqn:Hl; [|apply from_refl]. cbn.
  apply from_insert with lk; [done|]. cbn. auto.
Qed.
Lemma finish_from P req w g r c : (∀ lk, queue (g lk) = queue lk) → from P (links c) (links (finish req w g r c).2).
Proof. intros Hg. cbn. by apply from_alter. Qed.
Lemma forget_listing_queue w req lk : queue (forget_listing w req lk) = queue lk.
Proof. by destruct (forget_listing_shape w req lk) as (_ & _ & ->). Qed.
Lemma dispatch_from P l lk f c out c' : links c !! l = Some lk → dispatch l lk f c = Some (out, c') → from P (links c) (links c').
Proof.
  intros Hl Hd. destruct f; cbn -[le_bytes] in Hd; simplify_eq; try apply from_refl; unfold settle_listing;
    case_match; try apply from_refl; (apply from_insert with lk; [done|]); cbn; auto.
Qed.

Lemma client_step_queued op c : from (queued op) (links c) (links (client_step op c).2).
Proof.
  destruct op; cbn [client_step]; try apply from_refl.
  - unfold begin_request. cbn [slot with_next links]. destruct (slot c) as [l|]; [|apply from_refl].
    destruct (links c !! l) as [lk|] eqn:Hl; [|apply from_refl]. apply from_insert with lk; [done|]. cbn. auto.
  - unfold enqueue_request. destruct (waiters c !! req) as [w|]; [|apply from_refl]. destruct (w_phase w); try apply from_refl.
    destruct (links c !! w_link w) as [lk|] eqn:Hl; [|apply from_refl]. destruct (try_enqueue _ lk) as [lk'|e] eqn:He.
    + apply try_enqueue_Ok in He as [-> _]. eapply (from_push _ _ _ lk); [done|done|]. cbn. by eauto.
    + apply finish_from. intros lk0. unfold forget_both. by rewrite forget_listing_queue.
  - unfold await. repeat case_match; try apply from_refl; apply finish_from; intros lk0; unfold forget_both; by rewrite ?forget_listing_queue.
  - by apply fire_from.
  - apply fire_from. cbn. by eauto.
  - unfold permission_decision. destruct (slot c) as [l|] eqn:Hs; [|apply from_refl].
    destruct (Nat.eqb_spec l connection) as [->|Hne]; [|apply from_refl]. cbn [negb]. apply fire_from. intros l. rewrite Hs. by intros [= <-].
  - unfold send_kept. destruct (links c !! l) as [lk|] eqn:Hl; [|apply from_refl]. destruct (carries_transfer f) eqn:Hf; [|apply from_refl].
    destruct (try_enqueue f lk) as [lk'|e] eqn:He; [|apply from_refl]. apply try_enqueue_Ok in He as [-> _]. by apply (from_push _ _ _ lk _ f).
  - unfold loop_out. destruct (links c !! l) as [lk|] eqn:Hl; [|apply from_refl]. destruct (phase lk); try apply from_refl.
    destruct (killed lk); [apply from_refl|]. destruct (queue lk) as [|f q] eqn:Hq; [apply from_refl|].
    assert (Hpop : from (queued (LoopOut l wrote)) (links c) (links (set_link l (with_queue lk q) c))).
    { cbn. apply from_insert with lk; [done|]. cbn. rewrite Hq. set_solver. }
    destruct wrote; [done|]. eapply from_trans; [exact Hpop|]. eapply stop_loop_from; [|by intros f' ?].
    cbn. by rewrite list_lookup_insert_eq by (by eapply lookup_lt_Some).
  - unfold loop_in. destruct (links c !! l) as [lk|] eqn:Hl; [|apply from_refl]. destruct (phase lk); try apply from_refl.
    destruct (killed lk); [apply from_refl|]. destruct (negb _); [by apply stop_loop_from with lk|].
    destruct (dispatch l lk f c) as [[out c']|] eqn:Hd; [by eapply dispatch_from|apply from_refl].
  - unfold loop_forget. destruct (links c !! l) as [lk|] eqn:Hl; [|apply from_refl]. destruct (phase lk); try apply from_refl.
    destruct forgot; by apply (stop_loop_from _ l lk lk c).
  - unfold loop_break. destruct (links c !! l) as [lk|] eqn:Hl; [|apply from_refl]. destruct (phase lk); try apply from_refl. by apply stop_loop_from with lk.
  - unfold loop_end. destruct (links c !! l) as [lk|] eqn:Hl; [|apply from_refl]. destruct (phase lk); try apply from_refl.
    assert (H : from (queued (LoopEnd l)) (links c) (<[l := with_phase lk Over (killed lk)]> (links c))).
    { apply from_insert with lk; [done|]. cbn. auto. }
    case_bool_decide; [|exact H]. eapply from_trans; [exact H|]. cbn. by apply from_alter.
  - unfold disconnect. destruct (slot c); [apply take_connection_from|apply from_refl].
  - unfold take_lingering. destruct (slot c); [apply take_connection_from|apply from_refl].
  - unfold take_connection_for_peer. destruct (slot c); [|apply from_refl]. destruct (links c !! _); [|apply from_refl].
    case_bool_decide; [apply take_connection_from|apply from_refl].
  - unfold start_session. cbn [snd links with_slot with_links]. intros l lk f [Hl|[_ Hl]]%lookup_app_Some Hf.
    + assert (H : from (queued (StartSession host pr)) (links c) (links match slot c with Some l => kill l c | None => c end))
        by (destruct (slot c); [by apply from_alter|apply from_refl]).
      by eapply H.
    + apply list_lookup_singleton_Some in Hl as [_ <-]. cbn in Hf. set_solver.
  - unfold unpair_look. repeat case_match; apply from_refl.
  - unfold unpair_send. destruct (unpairings c !! req) as [u|]; [|apply from_refl]. destruct (u_sent u); [apply from_refl|].
    destruct (links c !! u_link u) as [lk|] eqn:Hl; [|apply from_refl]. destruct (try_enqueue _ lk) as [lk'|e] eqn:He; [|apply from_refl].
    apply try_enqueue_Ok in He as [-> _]. eapply (from_push _ _ _ lk); [done|done|]. cbn. by eauto.
  - unfold unpair_await. repeat case_match; try apply from_refl; cbn; by apply from_alter.
Qed.

(** Only a loop writes, and what it writes it takes from its queue. *)
Lemma client_step_wire op c l f : Wire l f ∈ (client_step op c).1 → ∃ lk, links c !! l = Some lk ∧ f ∈ queue lk.
Proof.
  assert (Hfire : ∀ g c1, Wire l f ∉ (fire g c1).1) by (intros g c1; unfold fire; repeat case_match; set_solver).
  destruct op; cbn [client_step]; intros Hin.
  - exfalso. revert Hin. unfold begin_request. cbn [slot with_next links]. repeat case_match; set_solver.
  - exfalso. revert Hin. unfold enqueue_request. repeat case_match; set_solver.
  - exfalso. revert Hin. unfold await. repeat case_match; set_solver.
  - by destruct (Hfire _ _ Hin).
  - by destruct (Hfire _ _ Hin).
  - exfalso. revert Hin. unfold permission_decision. destruct (slot c); [|set_solver]. destruct (negb _); [set_solver|]. apply Hfire.
  - exfalso. revert Hin. unfold send_kept. repeat case_match; set_solver.
  - unfold loop_out in Hin. destruct (links c !! l0) as [lk|] eqn:Hl; [|set_solver]. destruct (phase lk); try set_solver.
    destruct (killed lk); [set_solver|]. destruct (queue lk) as [|g q] eqn:Hq; [set_solver|]. destruct wrote; [|set_solver].
    apply list_elem_of_singleton in Hin as [= -> ->]. exists lk. split; [done|]. rewrite Hq. by left.
  - exfalso. revert Hin. unfold loop_in. destruct (links c !! l0) as [lk|]; [|set_solver]. destruct (phase lk); try set_solver.
    destruct (killed lk); [set_solver|]. destruct (negb _); [set_solver|]. destruct (dispatch l0 lk f0 c) as [[out c']|] eqn:Hd; [|set_solver].
    cbn. destruct f0; cbn -[le_bytes] in Hd; simplify_eq; try set_solver. case_bool_decide; set_solver.
  - exfalso. revert Hin. unfold loop_forget. repeat case_match; set_solver.
  - exfalso. revert Hin. unfold loop_break. repeat case_match; set_solver.
  - exfalso. revert Hin. unfold loop_end. repeat case_match; set_solver.
  - exfalso. revert Hin. unfold disconnect. repeat case_match; set_solver.
  - exfalso. revert Hin. unfold take_lingering. repeat case_match; set_solver.
  - exfalso. revert Hin. unfold take_connection_for_peer. repeat case_match; set_solver.
  - set_solver.
  - set_solver.
  - exfalso. revert Hin. unfold unpair_look. repeat case_match; set_solver.
  - exfalso. revert Hin. unfold unpair_send. repeat case_match; set_solver.
  - exfalso. revert Hin. unfold unpair_await. repeat case_match; set_solver.
  - set_solver.
Qed.

Lemma wired_was_queued c0 ops l f : no_link c0 → Wire l f ∈ (client_run ops c0).1 → ∃ op, op ∈ ops ∧ queued op l f.
Proof.
  intros (_ & Hl & _).
  assert (H : (∀ l lk f, links (client_run ops c0).2 !! l = Some lk → f ∈ queue lk → ∃ op, op ∈ ops ∧ queued op l f) ∧
    (∀ l f, Wire l f ∈ (client_run ops c0).1 → ∃ op, op ∈ ops ∧ queued op l f)); [|by apply H].
  clear l f. induction ops as [|op ops [IH1 IH2]] using rev_ind; [cbn; rewrite Hl; split; [done|set_solver]|].
  assert (Hmore : ∀ l f, (∃ op, op ∈ ops ∧ queued op l f) → ∃ op', op' ∈ ops ++ [op] ∧ queued op' l f).
  { intros l f (op' & ? & ?). exists op'. rewrite elem_of_app. auto. }
  destruct (client_run_snoc ops op c0) as [-> ->]. split.
  - intros l lk f Hlk Hf. destruct (client_step_queued op _ l lk f Hlk Hf) as [Hq|(lk0 & ? & ?)]; [|by eapply Hmore, IH1].
    exists op. rewrite elem_of_app. split; [right; by left|done].
  - intros l f [Hin|Hin]%elem_of_app; [by apply Hmore, IH2|]. apply client_step_wire in Hin as (lk & ? & ?). by eapply Hmore, IH1.
Qed.

(** C32 (safety). An approval's answer is never written to another link than the one whose
    number the user's answer names: whatever links come and go, and however long it
    waited in a queue, a decision on the wire of a link is one the user made for
    that link. *)
Theorem a_decision_reaches_only_the_link_that_asked c0 ops l id tool_call_id option_id (Hnone : no_link c0)
    (Hwire : Wire l (Frame_AgentPermissionDecision id tool_call_id option_id) ∈ (client_run ops c0).1) :
  Decide id tool_call_id option_id l ∈ ops.
Proof.
  destruct (wired_was_queued _ _ _ _ Hnone Hwire) as (op & Hin & Hq). destruct op; cbn in Hq; try done.
  - by destruct Hq as (? & ? & ?).
  - by destruct p.
  - by destruct Hq as (? & ? & ?).
  - by destruct Hq as [-> [= -> -> ->]].
  - by destruct Hq as [<- ?].
  - by destruct Hq as (? & ? & ?).
Qed.

(** The names the UI uses are read back. *)
Lemma provider_names_round_trip p : agent_provider_from_str (agent_provider_name p) = Ok p.
Proof. by destruct p. Qed.
Lemma root_names_round_trip r : terminal_root_from_str (terminal_root_name r) = Ok r.
Proof. by destruct r. Qed.

Module ClientExamples.

Definition host : bytes := [byte_of 7].
Definition p1 : bytes := [byte_of 1].
Definition p2 : bytes := [byte_of 2].
Definition none : Client :=
  {| slot := None; links := []; next_req_id := 0; waiters := ∅; unpairings := ∅; last_seen_seq := ∅; last_seen_generation := ∅; pairs := ∅ |}.
Lemma none_no_link : no_link none.
Proof. done. Qed.

(** A link that was replaced is silent, the new one speaks. *)
Definition replaced_ops : list Op := [StartSession host p1; StartSession host p2].
Example a_replaced_link_is_silent :
  (client_step (LoopIn 0 (Frame_ActivityBlip 5)) (client_run replaced_ops none).2).1 = [] ∧
  (client_step (LoopIn 1 (Frame_ActivityBlip 5)) (client_run replaced_ops none).2).1 = [Ui (Ui_Activity 5)].
Proof. split; vm_compute; reflexivity. Qed.


(** A session made, a directory listed, both over the link they were asked on. *)
Definition answered_ops : list Op :=
  [StartSession host p1;
   BeginRequest (RequestKind_NewSession None None) None; EnqueueRequest 0; LoopOut 0 true;
   BeginRequest (RequestKind_ListWorkspaceDirs "") (Some Dirs); EnqueueRequest 1; LoopOut 0 true;
   LoopIn 0 (Frame_WorkspaceDirs 1 "" ["src"]); LoopIn 0 (Frame_CommandResult 1 (CommandOutcome_Ok None));
   LoopIn 0 (Frame_CommandResult 0 (CommandOutcome_Ok (Some 42)));
   LoopIn 0 (Frame_CommandResult 0 (CommandOutcome_Error "again"));
   Await 0 false; Await 1 false; Await 1 false].
Example answered_run :
  (client_run answered_ops none).1 =
    [Wire 0 (Frame_Request 0 (RequestKind_NewSession None None)); Wire 0 (Frame_Request 1 (RequestKind_ListWorkspaceDirs ""));
     Answer 0 (Ok (Reply_Session (Some 42))); Answer 1 (Ok (Reply_Listing (WorkspaceListing "" ["src"])))].
Proof. vm_compute. reflexivity. Qed.

Lemma every_command_is_answered_once_by_its_own_link_witness :
  Answer 0 (Ok (Reply_Session (Some 42))) ∈ (client_run answered_ops none).1 ∧
  NoDup (answers (client_run answered_ops none).1) ∧
  ∀ req r, Answer req r ∈ (client_run answered_ops none).1 → explained none answered_ops req r.
Proof.
  split; [rewrite answered_run; set_solver|]. apply (every_command_is_answered_once_by_its_own_link none answered_ops none_no_link).
Defined.

(** The link breaks with a command on its way. *)
Definition asked_ops : list Op := [StartSession host p1; BeginRequest (RequestKind_Attach 3) None; EnqueueRequest 0].
Definition asked_waiter : Waiter :=
  {| w_link := 0; w_kind := RequestKind_Attach 3; w_want := None; w_outcome := Dropped; w_listing := Held; w_phase := AwaitingOutcome |}.

(** The same command made after the loop cleared its tables. *)
Definition late_ops : list Op :=
  [StartSession host p1; LoopBreak 0; BeginRequest (RequestKind_Attach 3) None; EnqueueRequest 0; LoopEnd 0].
Definition late_waiter : Waiter :=
  {| w_link := 0; w_kind := RequestKind_Attach 3; w_want := None; w_outcome := Held; w_listing := Held; w_phase := AwaitingOutcome |}.
Lemma late_ops_late : late (client_run late_ops none).2 0 late_waiter.
Proof. split; [vm_compute; reflexivity|done|done|]. eexists. split; vm_compute; reflexivity. Qed.
Lemma a_late_command_has_only_its_deadline_witness :
  late (client_run (late_ops ++ [StartSession host p2; Await 0 false]) none).2 0 late_waiter ∧
  ∀ r, Answer 0 r ∉ (client_run (late_ops ++ [StartSession host p2; Await 0 false]) none).1.
Proof.
  apply (a_late_command_has_only_its_deadline none late_ops [StartSession host p2; Await 0 false] 0 late_waiter none_no_link late_ops_late).
  set_solver.
Defined.
Example its_deadline_ends_it :
  (client_run (late_ops ++ [Await 0 true]) none).1 = [Ui Ui_Disconnected; Answer 0 (Err "command timed out")].
Proof. vm_compute. reflexivity. Qed.

(** A decision made for the link that is the connection, and one for an earlier. *)
Definition decided_ops : list Op :=
  [StartSession host p1; Decide 7 "call" (Some "allow") 0; LoopOut 0 true; StartSession host p1; Decide 7 "call" (Some "allow") 0].
Lemma a_decision_reaches_only_the_link_that_asked_witness : Decide 7 "call" (Some "allow") 0 ∈ decided_ops.
Proof.
  apply (a_decision_reaches_only_the_link_that_asked none decided_ops 0 7 "call" (Some "allow") none_no_link).
  vm_compute. left.
Defined.
Example an_earlier_connections_card_is_refused :
  (client_run decided_ops none).1 = [Wire 0 (Frame_AgentPermissionDecision 7 "call" (Some "allow"));
    Refused "this approval belongs to an earlier connection - it can no longer be answered"].
Proof. vm_compute. reflexivity. Qed.

(** A pairing made between the check of a revocation and its deletion is deleted. *)
Lemma a_revocation_can_delete_a_newer_pairing :
  pairs (client_run [CommitPair host p1; StartSession host p1; LoopIn 0 (Frame_PairRevoked p1 []);
    CommitPair host p2; LoopForget 0 true] none).2 !! host = None.
Proof. vm_compute. reflexivity. Qed.

End ClientExamples.
